(* ===== verification/_CoqProject ===== *)
-Q . S2P
Prelude.v
Float64.v
RingBuffer.v
WebSocketFrame.v
OrderBook.v
Json.v
Rules.v
PriceText.v
Perf.v
SbeBbo.v
Okx.v
MarketData.v
OrderLifecycle.v
OrderStore.v
World.v
Transport.v
Logger.v
OrderEntry.v
Handshake.v
WsClient.v
Connection.v
ClientSafety.v
Reconciliation.v
RateLimiter.v
Risk.v
Quoter.v
MarketFeed.v
RoundTrip.v
Engine.v
EngineInvariants.v
QuoterSlots.v
EngineSafety.v
Quotes.v
PlacementRate.v
TestOrder.v
Startup.v
