(* ===== verification/Prelude.v ===== *)
(** * Verification of the OKX low-latency trading engine: root file

    The program (src/) is a trading engine for the OKX exchange.  One thread
    runs a reactor: bytes arrive over TLS, a WebSocket codec cuts them into
    messages, a scanner reads market data and order events out of them in
    place, an order book is kept, a quoting strategy places and amends orders,
    and risk checks and a kill switch limit it.  A second thread prints the
    log.  Before trading starts, a few REST requests check the account.

    ** How the program is modelled

    A function of the code is a Rocq function of the same name, in a module
    of the name of its class.  Bytes and integers are [Z] with the wrap-around
    of their width written out ([wrapU], [wrapS]); [double] is the Standard
    Library's binary64 ([Float64]); arrays have the bounds of the code, and an
    access outside them is the result [UB]; an exception is the result [Exn].
    Stateful code is written in the monad [M] below: a function from a state
    to a result and a state, so that what was changed before an exception
    stays changed.  A component that lives inside another one is reached by
    [zoom].  Handlers that the code stores in a member are arguments or
    outputs, as each file says.

    What is not in src/ is a parameter: the class [World] (World.v) lists the
    clocks, the cycle counter, OpenSSL, libcurl and the TLS stream, and the
    class [ToChars] (PriceText.v) the texts that [std::to_chars] leaves open.
    Every theorem holds for all their instances; the witnesses instantiate
    them ([sample_world], [sample_chars]), so that the whole engine runs
    inside the kernel ([vm_compute]).  [recording] is a world that also keeps
    the list of REST requests, about which theorems then speak.

    ** Files, modules and sources

    - Prelude: results, the monad, arrays and shifting, binary search, strings
      and views; lemmas, hints and tactics that several files use.
    - Float64: doubles, [strtod], conversions.
    - RingBuffer (net/ring_buffer.hpp): [RingBuffer], and the interface
      [ByteQueue] against which the client's transmit path is proved.
    - WebSocketFrame (net/websocket_frame.[ch]pp, websocket_control.[ch]pp,
      websocket_reassembler.hpp); Handshake (net/websocket_handshake.[ch]pp).
    - Json (util/json.[ch]pp); Okx (okx/common/okx_constants.hpp, response_utils.[ch]pp).
    - OrderBook (okx/marketdata/order_book.[ch]pp); MarketData (market_data.[ch]pp,
      json_book_source.[ch]pp); SbeBbo (sbe_bbo.[ch]pp, sbe_bbo_source.[ch]pp).
    - Perf (perf/): histograms, percentiles, tick-to-trade statistics.
    - OrderLifecycle (okx/orders/order_events.[ch]pp, order_lifecycle.[ch]pp); OrderStore
      (order_store.[ch]pp); OrderEntry (order_types.[ch]pp, ws_orders.[ch]pp, rest_orders.[ch]pp);
      Reconciliation (reconciliation.[ch]pp, order_timeout_monitor.[ch]pp).
    - World (rest/rest_client.[ch]pp, okx/connectivity/auth.[ch]pp, util/sha1.[ch]pp,
      util/base64.[ch]pp); Transport (net/transport.[ch]pp); WsClient (okx/connectivity/okx_ws_client.[ch]pp, heartbeat.[ch]pp);
      RateLimiter (okx/connectivity/rate_limiter.[ch]pp).
    - Risk (okx/risk/): position, pre-trade check, kill switch, account.
    - PriceText and Quoter (okx/strategy/naive_quoter.[ch]pp); Quoter also holds the
      record [App] of the engine's members, on which the later files work.
    - MarketFeed: a market data source on a WebSocket client of its own.
    - RoundTrip (okx/connectivity/ws_response_demux.[ch]pp,
      okx/orders/ws_order_round_trip.[ch]pp); Engine (okx/engine/engine.[ch]pp,
      okx/marketdata/market_data_source.[ch]pp); Startup (config.hpp,
      okx/connectivity/instrument.[ch]pp, okx/engine/bootstrap.[ch]pp, main.cpp).
    - Logger (log/async_logger.[ch]pp): both threads and their shared memory.
    - Rules: the judgements on computations ([upholds], [triple], [makes],
      [spares]) and the tactics that take handlers apart with them.
    - Connection: the calls on the TLS stream; ClientSafety and EngineSafety:
      memory safety; EngineInvariants and QuoterSlots: properties of whole runs;
      PlacementRate: orders placed per window of the limit; Quotes: what the
      strategy sends on an update of the book; TestOrder: the life of the test
      order, response by response.

    The components meet in the state of [Engine.run]: the client's state, [App]
    and the world.  [Engine.handle] is what one completion, timer, signal or
    market message does to it; [Engine.run] is any sequence of them, up to an
    exception or the end of the event loop.

    ** What is shown

    - Refinement: the order store is a finite map, a side of the book a sorted
      list, the ring a bounded queue, the order state machine a relation on
      states; the rate limiter gives the answers of its definition by counting
      the accepted calls of the last window; the transmit path sends the
      frames handed to it, whole and in order, whatever the completions are.
    - Messages: the JSON scanner finds what a grammar of JSON says is there;
      frames, SBE messages, order messages and prices are read back as what
      was written; a books message changes the book as its levels say; the
      client delivers the messages of a stream of frames however it is cut
      into reads; a source on such a client shows the strategy the books that
      the messages describe, one after the other.
    - Risk: the position's accounting identities (over the rationals, where
      the algorithm has no rounding), the pre-trade check, the kill switch.
    - Memory safety: in every run of the engine no array is accessed out of its
      bounds and every component keeps its representation invariant; this
      includes the conversion of a percentile's rank from a double, for which
      Float64 bounds what rounding adds.  The events of a run are restricted
      ([feasible]): bytes are received, a write completes once, with the bytes
      it was started with, and no successful completion is delivered after a
      reconnection has been scheduled.  The last one is not excluded by the
      code: [stale_completion_wraps] says what would happen.  The id counter
      and the counter of reconnections can still overflow at their last value.
    - Connections: nothing is sent or received before the certificate has been
      verified against the configured host.
    - Strategy: an update of the book leads to at most one message for each
      side, at the price computed from the new mid: an order when the side has
      none, an amendment of the side's order otherwise, if the limiter grants
      it; the first update does lead to two orders, when the components have
      room for them.  As long as an order is not acknowledged, a requote
      places another one.
    - Test order: from its placement to the answer to its cancellation, what
      is sent, awaited and stored after each response, also when the
      amendment or the cancellation is rejected and when updates of the order
      come between the responses, and which handlers then throw.
    - Whole runs: in two seconds no more orders are placed than the limit
      allows, the test orders apart, of which each login places one; behind a
      triggered kill switch no order is placed; a loss
      beyond the limit leaves the switch triggered; the quoter's two ids are
      those of two orders in the store; start-up makes a fixed list of
      requests; the logger prints accepted messages in order, without reading
      a record that is being written, under all interleavings and stale
      loads, and drains its ring.
    - Error behaviour that the code did not intend is stated as theorems too
      ([read_loop_diverges], [quoter_places_twice], [logger_loses_at_exit] and
      others) and listed as findings.

    ** Budgets

    The inner loops of the scanner are [while] and [loop] below, which run until
    their own condition stops them: they take a measure and a proof that each
    turn makes it smaller.  Any other loop that is not structurally recursive
    gets a budget and returns [Fuel] when it is used up.  Budgets are computed
    inside the function that starts the loop (the size of the view plus one
    for the elements and fields of a text, the number of elements for binary
    searches, the bytes received for the frame loop) and the theorems show
    that they suffice.  Where the C++ loop can run forever
    ([ForEachElement] on some malformed arrays, the frame loop on a frame
    whose size wraps to 0) this is a theorem for every budget.  The reading of
    the handshake response has its budget as an argument of the event.

    ** What is not modelled

    - Boost.Asio, OpenSSL and libcurl, whose calls are operations of [World]; an
      asynchronous read or write of net/transport.cpp is an effect of the
      client, its completion an event.  The event loop is the order of the
      events.
    - In [Engine], the WebSocket client of the market data source: its messages
      and connections are events, what it is asked to send is kept in
      [requests].  MarketFeed has the source with its client.
    - Log calls inside the modelled functions, unless evaluating their
      arguments can throw or is undefined.
    - The release of handles of libcurl and OpenSSL, thread priorities, and the
      benchmarks and tests of the repository.
    - NaN payloads and signs, which nothing in the program looks at.

    ** Where it can grow

    Bounds on the rounding in the strategy's prices; the rates of amendments
    and cancellations, as for placements; the latency traces across
    components; the life of a stream object whose operations are still pending
    when it is replaced. *)

From stdpp Require Export base tactics option list numbers strings gmap sorting pretty.
From Stdlib Require Export ZArith Lia.

#[export] Set Default Goal Selector "!".
#[global] Arguments Nat.div : simpl never.
#[global] Arguments Nat.modulo : simpl never.

(** ** Exceptions, undefined behaviour and loop budgets

    A C++ exception is a value.  [what] is the format string of the exception's
    message and [args] the byte strings formatted into it.  [UB] stands for
    undefined behaviour (an access outside an array) and [Fuel] for a loop
    that has used up its iteration budget: theorems about loops show that
    [Fuel] is never the answer, or that it is the answer for every budget
    when the C++ loop does not terminate. *)
Inductive exn :=
  | runtime_error (what : string) (args : list (list Z))
  | invalid_argument (what : string) (args : list (list Z))
  | out_of_range (what : string) (args : list (list Z)).

Inductive stop :=
  | Exn (e : exn)
  | UB
  | Fuel.

Inductive result (A : Type) :=
  | Ok (a : A)
  | Stop (s : stop).
Arguments Ok {A} a.
Arguments Stop {A} s.

#[global] Instance result_ret : MRet result := λ A a, Ok a.
#[global] Instance result_bind : MBind result := λ A B f m,
  match m with Ok a => f a | Stop s => Stop s end.
#[global] Instance result_fmap : FMap result := λ A B f m,
  match m with Ok a => Ok (f a) | Stop s => Stop s end.

Definition throw {A} (e : exn) : result A := Stop (Exn e).

(** State is passed explicitly, and it survives an exception: what the code
    has changed before it throws stays changed. *)
Definition M (S A : Type) : Type := S → result A * S.

#[global] Instance M_ret {S} : MRet (M S) := λ A a s, (Ok a, s).
#[global] Instance M_bind {S} : MBind (M S) := λ A B f m s,
  match m s with
  | (Ok a, s') => f a s'
  | (Stop x, s') => (Stop x, s')
  end.

Definition get {S} : M S S := λ s, (Ok s, s).
Definition put {S} (s : S) : M S unit := λ _, (Ok tt, s).
Definition modify {S} (f : S → S) : M S unit := λ s, (Ok tt, f s).
Definition throwM {S A} (e : exn) : M S A := λ s, (throw e, s).
Definition lift {S A} (r : result A) : M S A := λ s, (r, s).
(** Run an operation of a component on the part of the state it owns. *)
Definition zoom {S T A} (proj : S → T) (upd : T → S → S) (m : M T A) : M S A :=
  λ s, let '(r, t) := m (proj s) in (r, upd t s).
(** Run an operation that returns its new state in the result monad; on an
    exception the state is the one before it. *)
Definition runS {S} (f : S → result S) : M S unit :=
  λ s, match f s with Ok s' => (Ok tt, s') | Stop x => (Stop x, s) end.

Lemma bindM_Ok {S A B} (m : M S A) (k : A → M S B) s a s1 :
  m s = (Ok a, s1) → (x ← m; k x) s = k a s1.
Proof. unfold mbind, M_bind. by intros ->. Qed.
Lemma bind_assoc {S A B C} (m : M S A) (f : A → M S B) (g : B → M S C) s :
  (x ← m; y ← f x; g y) s = (y ← (x ← m; f x); g y) s.
Proof. unfold mbind, M_bind. by destruct (m s) as [[]]. Qed.
Lemma bind_ret_state {S A B} (m : M S A) (f : A → B) s : ((x ← m; mret (f x)) s).2 = (m s).2.
Proof. unfold mbind, M_bind. by destruct (m s) as [[]]. Qed.
Lemma zoom_bind {S T A B} (proj : S → T) (upd : T → S → S) (m : M T A) (f : A → M T B) s :
  (∀ t s, proj (upd t s) = t) → (∀ t t' s, upd t' (upd t s) = upd t' s) →
  (x ← zoom proj upd m; zoom proj upd (f x)) s = zoom proj upd (x ← m; f x) s.
Proof.
  intros Hpu Huu. unfold zoom, mbind, M_bind. destruct (m (proj s)) as [[a|x] t]; [|done].
  rewrite Hpu. destruct (f a t). by rewrite Huu.
Qed.

(** [upholds I Q m]: from a state with the invariant [I], [m] ends in one,
    and if it stops early it does so for a reason in [Q]. *)
Definition upholds {S A} (I : S → Prop) (Q : stop → Prop) (m : M S A) : Prop :=
  ∀ s, I s → match m s with (Ok _, s') => I s' | (Stop x, s') => I s' ∧ Q x end.
(** The reasons that are not exceptions, excluded. *)
Definition exn_only (x : stop) : Prop := x ≠ UB ∧ x ≠ Fuel.

Lemma exn_only_Exn e : exn_only (Exn e).
Proof. done. Qed.
#[export] Hint Resolve exn_only_Exn : core.

Create HintDb upholds.
Section upholds.
Context {S : Type} (I : S → Prop) (Q : stop → Prop).

Lemma upholds_ret {A} (a : A) : upholds I Q (mret a).
Proof. by intros s Hs. Qed.
Lemma upholds_get : upholds I Q get.
Proof. by intros s Hs. Qed.
Lemma upholds_lift {A} (r : result A) : (∀ x, r = Stop x → Q x) → upholds I Q (lift r).
Proof. intros Hr s Hs. unfold lift. destruct r; [done|]. by split; [|apply Hr]. Qed.
Lemma upholds_throw {A} (e : exn) : Q (Exn e) → upholds I Q (throwM (A:=A) e).
Proof. by intros Hq s Hs. Qed.
Lemma upholds_modify f : (∀ s, I s → I (f s)) → upholds I Q (modify f).
Proof. intros Hf s Hs. by apply Hf. Qed.
Lemma upholds_runS f :
  (∀ s, I s → match f s with Ok s' => I s' | Stop x => Q x end) → upholds I Q (runS f).
Proof. intros Hf s Hs. specialize (Hf s Hs). unfold runS. by destruct (f s). Qed.
Lemma upholds_bind {A B} (m : M S A) (f : A → M S B) :
  upholds I Q m → (∀ a, upholds I Q (f a)) → upholds I Q (m ≫= f).
Proof.
  intros Hm Hf s Hs. unfold mbind, M_bind. specialize (Hm s Hs).
  destruct (m s) as [[a|x] s']; [by apply Hf|done].
Qed.
End upholds.
#[export] Hint Resolve upholds_ret upholds_get upholds_throw upholds_bind : upholds.

(** ** Loops

    [loop] repeats a step that gives the next state or the result, and [while]
    is a C++ [while] loop whose body is pure.  Both take a proof that every
    turn lowers a measure, so that a loop which may run forever has no
    definition.  [whileM] is a loop whose body can stop, with a budget;
    [for_up]/[for_down] are counted loops over an index. *)
Section loop.
Context {S R : Type} (step : S → S + R) (m : S → nat).
Context (progress : ∀ s s', step s = inl s' → m s' < m s).

Lemma loop_below n s s' : step s = inl s' → m s < Datatypes.S n → m s' < n.
Proof using progress. intros Hs Hn. pose proof (progress s s' Hs). lia. Qed.
Fixpoint loop_from (n : nat) : ∀ s, m s < n → R :=
  match n with
  | O => λ s H, False_rect R (Nat.nlt_0_r _ H)
  | Datatypes.S n' => λ s H,
      match step s as x return step s = x → R with
      | inl s' => λ E, loop_from n' s' (loop_below n' s s' E H)
      | inr r => λ _, r
      end eq_refl
  end.
Definition loop (s : S) : R := loop_from (Datatypes.S (m s)) s (Nat.lt_succ_diag_r (m s)).

Lemma loop_from_irrel n n' s H H' : loop_from n s H = loop_from n' s H'.
Proof.
  revert n' s H H'. induction n as [|n IH]; intros [|n'] s H H'; [lia..|]. cbn [loop_from].
  assert (∀ x (E : step s = x),
    match x as x return step s = x → R with
    | inl s' => λ E, loop_from n s' (loop_below n s s' E H) | inr r => λ _, r
    end E =
    match x as x return step s = x → R with
    | inl s' => λ E, loop_from n' s' (loop_below n' s s' E H') | inr r => λ _, r
    end E) as Heq; [|apply Heq]. intros [s'|r] E; [apply IH|done].
Qed.
Lemma loop_eq s : loop s = match step s with inl s' => loop s' | inr r => r end.
Proof.
  unfold loop at 1. cbn [loop_from].
  assert (∀ H x (E : step s = x),
    match x as x return step s = x → R with
    | inl s' => λ E, loop_from (m s) s' (loop_below (m s) s s' E H) | inr r => λ _, r
    end E = match x with inl s' => loop s' | inr r => r end) as Heq; [|apply Heq].
  intros H [s'|r] E; [apply loop_from_irrel|done].
Qed.
Lemma loop_ind (P : S → R → Prop) :
  (∀ s, match step s with inl s' => P s' (loop s') → P s (loop s') | inr r => P s r end) → ∀ s, P s (loop s).
Proof using progress.
  intros HP s. remember (m s) as n eqn:Hn. revert s Hn. induction (lt_wf n) as [n _ IH]. intros s ->.
  specialize (HP s). rewrite loop_eq. destruct (step s) as [s'|r] eqn:E; [|done].
  apply HP. by eapply (IH (m s')); [apply progress|].
Qed.
End loop.

Section while.
Context {S : Type} (cond : S → bool) (body : S → S) (m : S → nat).
Context (progress : ∀ s, cond s = true → m (body s) < m s).

Definition while_step (s : S) : S + S := if cond s then inl (body s) else inr s.
Lemma while_progress s s' : while_step s = inl s' → m s' < m s.
Proof using progress. unfold while_step. destruct (cond s) eqn:E; [|done]. intros [= <-]. by apply progress. Qed.
Definition while : S → S := loop while_step m while_progress.

Lemma while_eq s : while s = if cond s then while (body s) else s.
Proof. unfold while. rewrite loop_eq. unfold while_step at 1. by destruct (cond s). Qed.
Lemma while_rule (I : S → Prop) s :
  (∀ s, I s → cond s = true → I (body s)) → I s → I (while s) ∧ cond (while s) = false.
Proof using progress.
  intros Hbody. revert s. apply (loop_ind _ _ while_progress (λ s r, I s → I r ∧ cond r = false)).
  intros s. unfold while_step. destruct (cond s) eqn:E; [|done]. intros IH Hs. auto.
Qed.
End while.

Fixpoint whileM {S} (fuel : nat) (cond : S → bool) (body : S → result S) (s : S)
    : result S :=
  match fuel with
  | O => if cond s then Stop Fuel else Ok s
  | S f => if cond s then s' ← body s; whileM f cond body s' else Ok s
  end.

(** [n] iterations with the index running [i], [i+1], ... *)
Fixpoint for_up {A} (n i : nat) (body : nat → A → result A) (a : A) : result A :=
  match n with
  | O => Ok a
  | S n' => a' ← body i a; for_up n' (S i) body a'
  end.

(** [n] iterations with the index running [i], [i-1], ... *)
Fixpoint for_down {A} (n i : nat) (body : nat → A → result A) (a : A) : result A :=
  match n with
  | O => Ok a
  | S n' => a' ← body i a; for_down n' (pred i) body a'
  end.

Section loop_rules.
Context {S : Type} (I : S → Prop) (m : S → nat) (cond : S → bool).

Lemma whileM_rule (body : S → result S) fuel s :
  (∀ s, I s → cond s = true → ∃ s', body s = Ok s' ∧ I s' ∧ m s' < m s) →
  I s → m s ≤ fuel →
  ∃ s', whileM fuel cond body s = Ok s' ∧ I s' ∧ cond s' = false.
Proof.
  intros Hbody. revert s. induction fuel as [|fuel IH]; intros s HI Hm; simpl.
  - destruct (cond s) eqn:E; [|by eexists].
    destruct (Hbody s HI E) as (? & _ & _ & ?). lia.
  - destruct (cond s) eqn:E; [|by eexists].
    destruct (Hbody s HI E) as (s' & -> & ? & ?). simpl. apply IH; [done|lia].
Qed.
End loop_rules.

Lemma loop_ext {S R} (step step' : S → S + R) m m' H H' s :
  (∀ s, step s = step' s) → loop step m H s = loop step' m' H' s.
Proof.
  intros Heq. revert s. apply (loop_ind _ _ H (λ s r, r = loop step' m' H' s)).
  intros s. rewrite (loop_eq step' m' H' s), <-Heq. by destruct (step s).
Qed.
Lemma while_ext {S} (cond cond' : S → bool) (body body' : S → S) m m' H H' s :
  (∀ s, cond s = cond' s) → (∀ s, body s = body' s) → while cond body m H s = while cond' body' m' H' s.
Proof.
  intros Hc Hb. apply loop_ext. intros r. unfold while_step. by rewrite Hc, Hb.
Qed.
Lemma while_mono {S} (μ : S → nat) (cond : S → bool) body m H s :
  (∀ s, cond s = true → μ s ≤ μ (body s)) → μ s ≤ μ (while cond body m H s).
Proof.
  intros Hb. apply (while_rule cond body m H (λ r, μ s ≤ μ r)); [|done].
  intros r Hr Hc. etrans; [exact Hr|by apply Hb].
Qed.

(** [steps cond body s s']: some iterations take the loop from [s] to [s']. *)
Inductive steps {S} (cond : S → bool) (body : S → S) : S → S → Prop :=
  | steps_refl s : steps cond body s s
  | steps_once s s' : cond s = true → steps cond body (body s) s' → steps cond body s s'.

Lemma steps_app {S} (cond : S → bool) body s s' s'' :
  steps cond body s s' → steps cond body s' s'' → steps cond body s s''.
Proof. induction 1; [done|]. intros. apply steps_once; auto. Qed.
Lemma while_reached {S} (cond : S → bool) body m H s :
  let r := while cond body m H s in steps cond body s r ∧ cond r = false.
Proof.
  apply (while_rule cond body m H (steps cond body s)); [|constructor].
  intros r Hr Hc. eapply steps_app; [exact Hr|]. apply steps_once; [done|constructor].
Qed.
Lemma while_steps {S} (cond : S → bool) body m H s s' :
  steps cond body s s' → cond s' = false → while cond body m H s = s'.
Proof.
  induction 1 as [s|s s' Hc _ IH]; intros Hend; rewrite while_eq; [by rewrite Hend|].
  rewrite Hc. by apply IH.
Qed.

(** Decide the equations between known keys in the goal. *)
Ltac decide_keys :=
  repeat match goal with
  | |- context [decide (?a = ?b)] =>
      first [rewrite (decide_True (P:=a = b)) by done | rewrite (decide_False (P:=a = b)) by done]
  end.

(** ** List equalities by index

    [list_lookup_solve] proves an equation between lists built with [++],
    [take], [drop], [::] and point updates by comparing their entries. *)
Lemma lookup_app_dec {A} (l1 l2 : list A) i :
  (l1 ++ l2) !! i = if decide (i < length l1) then l1 !! i else l2 !! (i - length l1).
Proof. case_decide; [by apply lookup_app_l|apply lookup_app_r; lia]. Qed.
Lemma lookup_cons_dec {A} (x : A) l i :
  (x :: l) !! i = if decide (i = 0) then Some x else l !! (i - 1).
Proof. destruct i; simpl; [done|]. by rewrite Nat.sub_0_r. Qed.

Create Rewrite HintDb lookups.
#[export] Hint Rewrite @lookup_app_dec @lookup_cons_dec @lookup_take @lookup_drop
  @list_lookup_insert @length_app @length_cons @length_nil @length_take @length_drop
  @length_insert @length_replicate @lookup_nil : lookups.

Ltac lookup_close :=
  first
    [ done | lia | f_equal; lia
    | rewrite !lookup_ge_None_2 by (autorewrite with lookups; lia); done
    | etrans; [|symmetry; eassumption]; f_equal; lia
    | etrans; [symmetry; eassumption|]; f_equal; lia ].
Ltac prune_cases := repeat (case_decide; destruct_and?; try (exfalso; lia)).
Ltac list_lookup_solve :=
  apply list_eq; intros;
  autorewrite with lookups; prune_cases; try lookup_close.

(** ** Arrays

    A fixed array is a list; an access outside it is undefined behaviour. *)
Definition aget {A} (l : list A) (i : nat) : result A :=
  match l !! i with Some x => Ok x | None => Stop UB end.
Definition aset {A} (l : list A) (i : nat) (x : A) : result (list A) :=
  if decide (i < length l) then Ok (<[i:=x]> l) else Stop UB.

Lemma aget_Some {A} (l : list A) i x : l !! i = Some x → aget l i = Ok x.
Proof. unfold aget. by intros ->. Qed.
Lemma aget_lt {A} `{!Inhabited A} (l : list A) i : i < length l → aget l i = Ok (l !!! i).
Proof. intros H. by apply aget_Some, list_lookup_lookup_total_lt. Qed.
Lemma aset_lt {A} (l : list A) i x : i < length l → aset l i x = Ok (<[i:=x]> l).
Proof. intros. unfold aset. by rewrite decide_True. Qed.

(** [memcpy(a + pos, chunk, chunk.size())]. *)
Definition blit {A} (l : list A) (pos : nat) (chunk : list A) : result (list A) :=
  if decide (pos + length chunk ≤ length l)
  then Ok (take pos l ++ chunk ++ drop (pos + length chunk) l) else Stop UB.

(** [for (j = c; j > i; j--) a[j] = a[j-1];] moves the cells [i..c-1] one to
    the right, and [for (j = i; j + 1 < c; j++) a[j] = a[j+1];] the cells
    [i+1..c-1] one to the left. *)
Definition shift_right {A} (i c : nat) (l : list A) : result (list A) :=
  for_down (c - i) c (λ j l, x ← aget l (j - 1); aset l j x) l.
Definition shift_left {A} (i c : nat) (l : list A) : result (list A) :=
  for_up (c - 1 - i) i (λ j l, x ← aget l (j + 1); aset l j x) l.

Lemma shift_right_lookup {A} i c (l : list A) :
  i ≤ c → c < length l →
  ∃ l', shift_right i c l = Ok l' ∧ length l' = length l ∧
    ∀ k, l' !! k = if decide (i < k ≤ c) then l !! (k - 1) else l !! k.
Proof.
  unfold shift_right. intros Hic. remember (c - i) as n eqn:Hn.
  revert c l Hic Hn. induction n as [|n IH]; intros c l Hic Hn Hc; simpl.
  { exists l. split_and!; [done..|]. intros k. by rewrite decide_False by lia. }
  destruct (lookup_lt_is_Some_2 l (c - 1)) as [x Hx]; [lia|].
  rewrite (aget_Some _ _ _ Hx). simpl. rewrite aset_lt by done. simpl.
  destruct (IH (pred c) (<[c:=x]> l)) as (l' & -> & Hlen & Hl');
    [lia|lia|rewrite length_insert; lia|].
  rewrite length_insert in Hlen. exists l'. split_and!; [done..|].
  intros k. rewrite Hl', !list_lookup_insert.
  prune_cases; try lookup_close.
Qed.

Lemma shift_left_lookup {A} i c (l : list A) :
  i < c → c ≤ length l →
  ∃ l', shift_left i c l = Ok l' ∧ length l' = length l ∧
    ∀ k, l' !! k = if decide (i ≤ k ∧ k + 1 < c) then l !! (k + 1) else l !! k.
Proof.
  unfold shift_left. intros Hic. remember (c - 1 - i) as n eqn:Hn.
  revert i l Hic Hn. induction n as [|n IH]; intros i l Hic Hn Hc; simpl.
  { exists l. split_and!; [done..|]. intros k. by rewrite decide_False by lia. }
  destruct (lookup_lt_is_Some_2 l (i + 1)) as [x Hx]; [lia|].
  rewrite (aget_Some _ _ _ Hx). simpl. rewrite aset_lt by lia. simpl.
  destruct (IH (S i) (<[i:=x]> l)) as (l' & -> & Hlen & Hl');
    [lia|lia|rewrite length_insert; lia|].
  rewrite length_insert in Hlen. exists l'. split_and!; [done..|].
  intros k. rewrite Hl', !list_lookup_insert.
  prune_cases; try lookup_close.
Qed.

(** Inserting [x] at [i] into the first [c] cells of an array, and removing
    cell [i] from them, as the code does it: shift, then write or drop. *)
Lemma shift_right_insert {A} i c (l : list A) x :
  i ≤ c → c < length l →
  ∃ l', shift_right i c l = Ok l' ∧ length l' = length l ∧
    take (S c) (<[i:=x]> l') = take i l ++ x :: drop i (take c l).
Proof.
  intros Hic Hc. destruct (shift_right_lookup i c l Hic Hc) as (l' & -> & Hlen & Hl').
  exists l'. split_and!; [done..|]. list_lookup_solve.
  all: rewrite ?Hl'; prune_cases; try lookup_close.
Qed.

Lemma shift_left_remove {A} i c (l : list A) :
  i < c → c ≤ length l →
  ∃ l', shift_left i c l = Ok l' ∧ length l' = length l ∧
    take (c - 1) l' = take i l ++ drop (S i) (take c l).
Proof.
  intros Hic Hc. destruct (shift_left_lookup i c l Hic Hc) as (l' & -> & Hlen & Hl').
  exists l'. split_and!; [done..|]. list_lookup_solve.
  all: rewrite ?Hl'; prune_cases; try lookup_close.
Qed.

(** ** Filters and sorted lists *)
Lemma filter_all {A} (P : A → Prop) `{∀ x, Decision (P x)} l : Forall P l → filter P l = l.
Proof. induction 1; [done|]. rewrite filter_cons_True by done. by f_equal. Qed.
Lemma filter_none {A} (P : A → Prop) `{∀ x, Decision (P x)} l :
  Forall (λ x, ¬ P x) l → filter P l = [].
Proof. induction 1; [done|]. by rewrite filter_cons_False. Qed.
Lemma StronglySorted_lookup_lt {A} (R : relation A) l i j x y :
  StronglySorted R l → l !! i = Some x → l !! j = Some y → i < j → R x y.
Proof.
  intros Hs Hi Hj Hij. rewrite <-(take_drop j l) in Hs.
  eapply StronglySorted_app_1_elem_of; [done|..]; apply list_elem_of_lookup.
  - exists i. by rewrite lookup_take_lt.
  - exists 0. rewrite lookup_drop. by rewrite Nat.add_0_r.
Qed.
Lemma StronglySorted_take {A} (R : relation A) n l :
  StronglySorted R l → StronglySorted R (take n l).
Proof. intros Hs. rewrite <-(take_drop n l) in Hs. by apply StronglySorted_app_1_l in Hs. Qed.

(** ** Binary search

    The loop of [OrderStore::LowerBound] and [PriceLevels::LowerBound]: the
    first index of [0..n) whose element is not before the key. *)
Definition lower_bound (n : nat) (before : nat → result bool) : result nat :=
  '(b, _) ← whileM n (λ '(b, e), b <? e)
    (λ '(b, e),
      let mid := b + (e - b) / 2 in
      lt ← before mid;
      Ok (if lt : bool then (mid + 1, e) else (b, mid)))
    (0, n);
  Ok b.

Lemma lower_bound_spec n before (p : nat → bool) :
  (∀ i, i < n → before i = Ok (p i)) →
  (∀ i j, i ≤ j → j < n → p j = true → p i = true) →
  ∃ r, lower_bound n before = Ok r ∧ r ≤ n ∧
    (∀ i, i < r → p i = true) ∧ (∀ i, r ≤ i → i < n → p i = false).
Proof.
  intros Hbefore Hmono. unfold lower_bound.
  destruct (whileM_rule
    (λ '(b, e), b ≤ e ∧ e ≤ n ∧ (∀ i, i < b → p i = true) ∧
       (∀ i, e ≤ i → i < n → p i = false))
    (λ '(b, e), e - b) (λ '(b, e), b <? e)
    (λ '(b, e), lt ← before (b + (e - b) / 2);
       Ok (if lt : bool then (b + (e - b) / 2 + 1, e) else (b, b + (e - b) / 2)))
    n (0, n)) as ([b e] & Hw & (Hbe & Hen & Hlo & Hhi) & Hexit).
  - intros [b e] (Hbe & Hen & Hlo & Hhi) Hlt. apply Nat.ltb_lt in Hlt.
    assert (b + (e - b) / 2 < e) by (pose proof (Nat.div_lt (e - b) 2); lia).
    assert (b ≤ b + (e - b) / 2) by lia.
    rewrite Hbefore by lia. generalize dependent (b + (e - b) / 2). intros mid ? ?.
    cbn [mbind result_bind]. destruct (p mid) eqn:Ep; eexists; (split; [done|]); split.
    + split_and!; [lia|lia| |done]. intros i Hi. apply (Hmono i mid); [lia|lia|done].
    + lia.
    + split_and!; [lia|lia|done|]. intros i Hi Hin.
      destruct (p i) eqn:Epi; [|done]. rewrite <-Ep.
      symmetry. apply (Hmono _ i); [lia|lia|done].
    + lia.
  - split_and!; [lia|lia|intros; lia|intros; lia].
  - lia.
  - rewrite Hw. simpl. apply Nat.ltb_ge in Hexit.
    exists b. split_and!; [done|lia|done|]. intros i Hi. apply Hhi. lia.
Qed.

(** Without an order on the elements the result is still an index of the array
    or its end. *)
Lemma lower_bound_le n before :
  (∀ i, i < n → ∃ b, before i = Ok b) → ∃ r, lower_bound n before = Ok r ∧ r ≤ n.
Proof.
  intros Hbefore. unfold lower_bound.
  destruct (whileM_rule (λ '(b, e), b ≤ e ∧ e ≤ n) (λ '(b, e), e - b) (λ '(b, e), b <? e)
    (λ '(b, e), lt ← before (b + (e - b) / 2);
       Ok (if lt : bool then (b + (e - b) / 2 + 1, e) else (b, b + (e - b) / 2)))
    n (0, n)) as ([b e] & Hw & (Hbe & Hen) & _).
  - intros [b e] (Hbe & Hen) Hlt. apply Nat.ltb_lt in Hlt.
    assert (b + (e - b) / 2 < e) by (pose proof (Nat.div_lt (e - b) 2); lia).
    assert (b ≤ b + (e - b) / 2) by lia.
    destruct (Hbefore (b + (e - b) / 2)) as [x ->]; [lia|]. cbn [mbind result_bind].
    eexists. split; [done|]. destruct x; lia.
  - lia.
  - lia.
  - rewrite Hw. simpl. exists b. split; [done|lia].
Qed.

(** ** Machine integers *)
Definition wrapU (w z : Z) : Z := (z mod 2 ^ w)%Z.
Definition wrapS (w z : Z) : Z := ((z + 2 ^ (w - 1)) mod 2 ^ w - 2 ^ (w - 1))%Z.

(** [a - b] on [std::size_t]. *)
Definition usub (a b : nat) : nat :=
  if b <=? a then a - b else Z.to_nat (2 ^ 64 + Z.of_nat a - Z.of_nat b).

Lemma usub_le a b : b ≤ a → usub a b = a - b.
Proof. intros. unfold usub. by rewrite (proj2 (Nat.leb_le _ _)). Qed.
Lemma wrapU_small w z : (0 ≤ z < 2 ^ w)%Z → wrapU w z = z.
Proof. apply Z.mod_small. Qed.
Lemma wrapU_bound w z : (0 ≤ w)%Z → (0 ≤ wrapU w z < 2 ^ w)%Z.
Proof. intros. apply Z.mod_pos_bound. lia. Qed.

Lemma prefix_app_cut {A} (a b c : list A) :
  a `prefix_of` b ++ c → length a ≤ length b → a `prefix_of` b.
Proof.
  intros [r Hr] Hl. exists (drop (length a) b).
  rewrite <-(take_drop (length a) b) at 1. f_equal.
  apply (f_equal (take (length a))) in Hr. by rewrite take_app_le, take_app_length in Hr by lia.
Qed.

(** ** Byte strings

    [std::string] and the memory behind a [std::string_view] are lists of
    bytes, each a [Z] in [0, 256).  [str] is the ASCII content of a literal
    and [qstr] that of a literal in which [']'s stand for double quotes. *)
Definition chr (c : Ascii.ascii) : Z := Z.of_N (Ascii.N_of_ascii c).
Definition str (s : string) : list Z := chr <$> String.list_ascii_of_string s.
Definition c_quote : Z := 34.
Definition qstr (s : string) : list Z :=
  (λ c, if (c =? 39)%Z then c_quote else c) <$> str s.

(** [std::to_string] on an integer. *)
Definition to_string (z : Z) : list Z := str (pretty z).
(** [n] digits, with leading zeros. *)
Fixpoint digits (n : nat) (z : Z) : list Z :=
  match n with O => [] | S n' => digits n' (z / 10) ++ [(48 + z mod 10)%Z] end.
Definition is_byte (z : Z) : Prop := (0 ≤ z < 256)%Z.

(** [operator<] on [std::string]: lexicographic on unsigned bytes. *)
Fixpoint bytes_ltb (a b : list Z) : bool :=
  match a, b with
  | _, [] => false
  | [], _ :: _ => true
  | x :: a', y :: b' => (x <? y)%Z || ((x =? y)%Z && bytes_ltb a' b')
  end.

Lemma bytes_ltb_irrefl a : bytes_ltb a a = false.
Proof. induction a as [|x a IH]; simpl; [done|]. rewrite IH. lia. Qed.
Lemma bytes_ltb_trans a b c :
  bytes_ltb a b = true → bytes_ltb b c = true → bytes_ltb a c = true.
Proof.
  revert b c. induction a as [|x a IH]; intros [|y b] [|z c]; simpl; try done.
  rewrite !orb_true_iff, !andb_true_iff, !Z.ltb_lt, !Z.eqb_eq.
  intros [?|[-> ?]] [?|[-> ?]]; [left; lia|left; lia|left; lia|right; eauto].
Qed.
Lemma bytes_ltb_total a b : bytes_ltb a b = false → a ≠ b → bytes_ltb b a = true.
Proof.
  revert b. induction a as [|x a IH]; intros [|y b]; simpl; try done.
  rewrite orb_true_iff, andb_true_iff, orb_false_iff, andb_false_iff.
  rewrite Z.ltb_ge, Z.eqb_neq, Z.ltb_lt, Z.eqb_eq. intros [? H] Hne.
  destruct (decide (x = y)) as [->|]; [|left; lia].
  right. split; [done|]. apply IH; [|congruence]. by destruct H.
Qed.

#[global] Instance bytes_lt_strict : StrictOrder (λ a b, bytes_ltb a b = true).
Proof.
  split; [intros a H; by rewrite bytes_ltb_irrefl in H|].
  intros a b c. apply bytes_ltb_trans.
Qed.

(** ** String views

    A view is the memory from [data()] on and a size: a routine that takes
    [data()] alone, like [strtod], sees the bytes after the view's end too.
    The end of [sv_mem] is the terminating NUL of the string viewed. *)
Record string_view := SV { sv_mem : list Z; sv_size : nat }.

Definition sv_of (b : list Z) : string_view := SV b (length b).
Definition sv_text (v : string_view) : list Z := take (sv_size v) (sv_mem v).
Definition sv_wf (v : string_view) : Prop := sv_size v ≤ length (sv_mem v).
Definition sv_eqb (v : string_view) (b : list Z) : bool := bool_decide (sv_text v = b).
(** [v[i]] where [i < v.size()], and [None] where the guard [i < v.size()] fails. *)
Definition sv_at (v : string_view) (i : nat) : option Z :=
  if i <? sv_size v then sv_mem v !! i else None.
(** [v.substr(pos, n)] with [pos <= v.size()]. *)
Definition sv_substr (v : string_view) (pos n : nat) : string_view :=
  SV (drop pos (sv_mem v)) (n `min` (sv_size v - pos)).
(** [v.substr(pos)]. *)
Definition sv_from (v : string_view) (pos : nat) : string_view :=
  SV (drop pos (sv_mem v)) (sv_size v - pos).

Fixpoint find_byte (c : Z) (l : list Z) : option nat :=
  match l with
  | [] => None
  | x :: l' => if (x =? c)%Z then Some 0 else S <$> find_byte c l'
  end.
Fixpoint find_sub (pat l : list Z) : option nat :=
  if decide (pat = take (length pat) l) then Some 0
  else match l with [] => None | _ :: l' => S <$> find_sub pat l' end.
(** [v.find(c, from)] and [v.find(pat, from)], with [None] for [npos]. *)
Definition sv_find (v : string_view) (c : Z) (from : nat) : option nat :=
  Nat.add from <$> find_byte c (drop from (sv_text v)).
Definition sv_find_sub (v : string_view) (pat : list Z) (from : nat) : option nat :=
  if from <=? sv_size v then Nat.add from <$> find_sub pat (drop from (sv_text v))
  else None.
(** [v[i]] without a guard: past the end is undefined behaviour. *)
Definition sv_get (v : string_view) (i : nat) : result Z :=
  match sv_at v i with Some c => Ok c | None => Stop UB end.

Lemma sv_at_Some v i c : sv_at v i = Some c → i < sv_size v ∧ sv_mem v !! i = Some c.
Proof. unfold sv_at. destruct (Nat.ltb_spec i (sv_size v)); [done|done]. Qed.
Lemma sv_at_lt v i : sv_wf v → i < sv_size v → ∃ c, sv_at v i = Some c ∧ sv_mem v !! i = Some c.
Proof.
  intros Hwf Hi. unfold sv_at. rewrite (proj2 (Nat.ltb_lt _ _)) by done.
  destruct (lookup_lt_is_Some_2 (sv_mem v) i) as [c Hc]; [unfold sv_wf in Hwf; lia|].
  eauto.
Qed.
Lemma sv_at_None v i : sv_wf v → sv_at v i = None ↔ sv_size v ≤ i.
Proof.
  intros Hwf. split; [|intros; unfold sv_at; by rewrite (proj2 (Nat.ltb_ge _ _))].
  intros Hn. destruct (decide (sv_size v ≤ i)); [done|].
  destruct (sv_at_lt v i Hwf) as (c & Hc & _); [lia|congruence].
Qed.
Lemma sv_at_text v i : sv_at v i = sv_text v !! i.
Proof.
  unfold sv_at, sv_text. rewrite lookup_take.
  destruct (Nat.ltb_spec i (sv_size v)); by case_decide; try lia.
Qed.
Lemma sv_text_of b : sv_text (sv_of b) = b.
Proof. unfold sv_text, sv_of. simpl. by rewrite take_ge. Qed.
Lemma length_sv_text v : sv_wf v → length (sv_text v) = sv_size v.
Proof. unfold sv_wf, sv_text. intros. rewrite length_take. lia. Qed.
Lemma sv_wf_of b : sv_wf (sv_of b).
Proof. unfold sv_wf, sv_of. simpl. done. Qed.
Lemma sv_wf_substr v pos n : sv_wf v → pos ≤ sv_size v → sv_wf (sv_substr v pos n).
Proof. unfold sv_wf, sv_substr. simpl. rewrite length_drop. lia. Qed.
Lemma sv_text_substr v pos n :
  sv_text (sv_substr v pos n) = take n (drop pos (sv_text v)).
Proof.
  unfold sv_text, sv_substr. simpl. list_lookup_solve.
Qed.

(** ** Bits and bytes *)
Lemma Z_lor_shiftl_add a b n :
  (0 ≤ n)%Z → (0 ≤ b < 2 ^ n)%Z → Z.lor (Z.shiftl a n) b = (a * 2 ^ n + b)%Z.
Proof.
  intros Hn Hb. rewrite <-Z.shiftl_mul_pow2 by done.
  rewrite <-Z.lxor_lor, <-Z.add_nocarry_lxor; [done|..];
    apply Z.bits_inj'; intros i Hi; rewrite Z.land_spec, Z.bits_0;
    (destruct (decide (i < n)%Z);
     [rewrite Z.shiftl_spec_low by lia; done|
      rewrite <-(Z.mod_small b (2 ^ n)) by lia;
      rewrite Z.mod_pow2_bits_high by lia; apply andb_false_r]).
Qed.
