(* ===== verification/Float64.v ===== *)
(** * IEEE 754 binary64 and [strtod]

    The C++ type [double] as the Standard Library's [spec_float] at
    precision 53 and maximal exponent 1024 (round to nearest, ties to even),
    the facts on its comparisons the order book needs, the decimal to binary
    conversion of [strtod], and the conversions to and from integers. *)

From Stdlib Require Import SpecFloat.
From S2P Require Import Prelude.

Abbreviation double := spec_float.

Definition fadd : double → double → double := SFadd 53 1024.
Definition fsub : double → double → double := SFsub 53 1024.
Definition fmul : double → double → double := SFmul 53 1024.
Definition fdiv : double → double → double := SFdiv 53 1024.
Definition fneg : double → double := SFopp.
Definition fabs : double → double := SFabs.
Definition flt : double → double → bool := SFltb.
Definition fgt (x y : double) : bool := SFltb y x.
Definition fle : double → double → bool := SFleb.
Definition feq : double → double → bool := SFeqb.
(** [std::min(a, b)] is [(b < a) ? b : a]. *)
Definition fmin (a b : double) : double := if flt b a then b else a.
(** [static_cast<double>] of an integer. *)
Definition f_of_Z (z : Z) : double := binary_normalize 53 1024 z 0 false.

Definition fzero : double := S754_zero false.
Definition is_nan (x : double) : bool := match x with S754_nan => true | _ => false end.

(** The value of the decimal [(-1)^s * m * 10^e], correctly rounded. *)
Definition f_of_decimal (s : bool) (m e : Z) : double :=
  match m with
  | Zpos p =>
      if (0 <=? e)%Z then binary_round 53 1024 s (Z.to_pos (m * 10 ^ e)) 0
      else
        let '(mz, ez, lz) := SFdiv_core_binary 53 1024 (Zpos p) 0 (10 ^ (- e)) 0 in
        binary_round_aux 53 1024 s mz ez lz
  | _ => S754_zero s
  end.
(** The value of [(-1)^s * m * 2^e], correctly rounded. *)
Definition f_of_binary (s : bool) (m e : Z) : double :=
  match m with Zpos p => binary_round 53 1024 s p e | _ => S754_zero s end.

Example dec_tenth : f_of_decimal false 1 (-1) = S754_finite false 7205759403792794 (-56).
Proof. vm_compute. reflexivity. Qed.
Example dec_sum : feq (fadd (f_of_decimal false 1 (-1)) (f_of_decimal false 2 (-1)))
                      (f_of_decimal false 3 (-1)) = false.
Proof. vm_compute. reflexivity. Qed.

(** ** The order of the doubles that are not NaN

    Each is placed by a triple of integers: sign class, signed exponent,
    signed mantissa; [flt] and [feq] are the lexicographic order and equality
    of the triples. *)
Definition fkey (x : double) : Z * Z * Z :=
  match x with
  | S754_infinity true => (-2, 0, 0)
  | S754_finite true m e => (-1, -e, Zneg m)
  | S754_finite false m e => (1, e, Zpos m)
  | S754_infinity false => (2, 0, 0)
  | _ => (0, 0, 0)
  end%Z.
Definition key_lt (a b : Z * Z * Z) : Prop :=
  let '(a1, a2, a3) := a in let '(b1, b2, b3) := b in
  (a1 < b1 ∨ a1 = b1 ∧ (a2 < b2 ∨ a2 = b2 ∧ a3 < b3))%Z.

Lemma fcompare_key x y :
  is_nan x = false → is_nan y = false →
  match SFcompare x y with
  | Some Lt => key_lt (fkey x) (fkey y)
  | Some Eq => fkey x = fkey y
  | Some Gt => key_lt (fkey y) (fkey x)
  | None => False
  end.
Proof.
  destruct x as [[]|[]| |[] m e], y as [[]|[]| |[] n f]; simpl; try done; intros _ _;
    unfold key_lt; simpl; try lia.
  - destruct (Z.compare_spec e f) as [->| |]; try lia.
    change (Pos.compare_cont Eq m n) with (m ?= n)%positive.
    destruct (Pos.compare_spec m n) as [->| |]; simpl; try lia. done.
  - destruct (Z.compare_spec e f) as [->| |]; try lia.
    change (Pos.compare_cont Eq m n) with (m ?= n)%positive.
    destruct (Pos.compare_spec m n) as [->| |]; simpl; try lia. done.
Qed.

Lemma key_lt_irrefl k : ¬ key_lt k k.
Proof. destruct k as [[??]?]. unfold key_lt. lia. Qed.
Lemma key_lt_trans j k l : key_lt j k → key_lt k l → key_lt j l.
Proof. destruct j as [[??]?], k as [[??]?], l as [[??]?]. unfold key_lt. lia. Qed.

Lemma flt_nan x y : flt x y = true → is_nan x = false ∧ is_nan y = false.
Proof. by destruct x as [[]|[]| |[] ??], y as [[]|[]| |[] ??]. Qed.
Lemma feq_nan x y : feq x y = true → is_nan x = false ∧ is_nan y = false.
Proof. by destruct x as [[]|[]| |[] ??], y as [[]|[]| |[] ??]. Qed.

Lemma flt_key x y :
  flt x y = true ↔ is_nan x = false ∧ is_nan y = false ∧ key_lt (fkey x) (fkey y).
Proof.
  split.
  - intros H. destruct (flt_nan _ _ H) as [Hx Hy]. split_and!; [done..|].
    pose proof (fcompare_key x y Hx Hy) as Hc. unfold flt, SFltb in H.
    by destruct (SFcompare x y) as [[]|].
  - intros (Hx & Hy & Hlt). pose proof (fcompare_key x y Hx Hy) as Hc.
    unfold flt, SFltb. destruct (SFcompare x y) as [[]|]; try done; exfalso.
    + rewrite Hc in Hlt. by apply key_lt_irrefl in Hlt.
    + apply (key_lt_irrefl (fkey x)). by eapply key_lt_trans.
Qed.

Lemma feq_key x y :
  feq x y = true ↔ is_nan x = false ∧ is_nan y = false ∧ fkey x = fkey y.
Proof.
  split.
  - intros H. destruct (feq_nan _ _ H) as [Hx Hy]. split_and!; [done..|].
    pose proof (fcompare_key x y Hx Hy) as Hc. unfold feq, SFeqb in H.
    by destruct (SFcompare x y) as [[]|].
  - intros (Hx & Hy & He). pose proof (fcompare_key x y Hx Hy) as Hc.
    unfold feq, SFeqb. destruct (SFcompare x y) as [[]|]; try done; exfalso;
      rewrite He in Hc; by apply key_lt_irrefl in Hc.
Qed.

Lemma flt_irrefl x : flt x x = false.
Proof.
  apply not_true_iff_false. rewrite flt_key. intros (_ & _ & H). by apply key_lt_irrefl in H.
Qed.
Lemma flt_trans x y z : flt x y = true → flt y z = true → flt x z = true.
Proof. rewrite !flt_key. intros (?&?&?) (?&?&?). eauto using key_lt_trans. Qed.
Lemma flt_feq_l x y z : feq x y = true → flt y z = flt x z.
Proof.
  rewrite feq_key. intros (?&?&He). apply eq_bool_prop_intro.
  rewrite !Is_true_true, !flt_key, He. tauto.
Qed.
Lemma flt_feq_r x y z : feq x y = true → flt z y = flt z x.
Proof.
  rewrite feq_key. intros (?&?&He). apply eq_bool_prop_intro.
  rewrite !Is_true_true, !flt_key, He. tauto.
Qed.
Lemma feq_refl x : is_nan x = false → feq x x = true.
Proof. intros. by apply feq_key. Qed.
Lemma feq_sym x y : feq x y = true → feq y x = true.
Proof. rewrite !feq_key. intros (?&?&->). done. Qed.
Lemma feq_trans x y z : feq x y = true → feq y z = true → feq x z = true.
Proof. rewrite !feq_key. intros (?&?&->) (?&?&->). done. Qed.
Lemma flt_total x y :
  is_nan x = false → is_nan y = false →
  flt x y = false → feq x y = false → flt y x = true.
Proof.
  intros Hx Hy Hl He. pose proof (fcompare_key x y Hx Hy) as Hc.
  apply flt_key. split_and!; [done..|].
  unfold flt, feq, SFltb, SFeqb in *. by destruct (SFcompare x y) as [[]|].
Qed.
Lemma flt_not_feq x y : flt x y = true → feq x y = false.
Proof.
  rewrite flt_key. intros (?&?&H). apply not_true_iff_false. rewrite feq_key.
  intros (_&_&He). rewrite He in H. by apply key_lt_irrefl in H.
Qed.

(** ** [std::strtod] in the "C" locale

    Leading white space, a sign, then an infinity, a NaN, a hexadecimal or a
    decimal number; [None] when no conversion is performed (the end pointer
    is the start).  The conversion is correctly rounded. *)
Definition is_space (c : Z) : bool := (c =? 32)%Z || ((9 <=? c)%Z && (c <=? 13)%Z).
Definition is_digit (c : Z) : bool := (48 <=? c)%Z && (c <=? 57)%Z.
Definition to_lower (c : Z) : Z := if (65 <=? c)%Z && (c <=? 90)%Z then (c + 32)%Z else c.
Definition is_xdigit (c : Z) : bool :=
  is_digit c || ((97 <=? to_lower c)%Z && (to_lower c <=? 102)%Z).
Definition digit_val (c : Z) : Z :=
  if is_digit c then (c - 48)%Z else (to_lower c - 87)%Z.
Definition digits_val (base : Z) (ds : list Z) : Z :=
  fold_left (λ acc c, (acc * base + digit_val c)%Z) ds 0%Z.

Fixpoint span (f : Z → bool) (l : list Z) : list Z * list Z :=
  match l with
  | x :: l' => if f x then let '(a, b) := span f l' in (x :: a, b) else ([], l)
  | [] => ([], [])
  end.
Fixpoint ci_prefix (p l : list Z) : bool :=
  match p, l with
  | [], _ => true
  | _, [] => false
  | x :: p', y :: l' => (x =? to_lower y)%Z && ci_prefix p' l'
  end.
Definition opt_sign (l : list Z) : bool * list Z :=
  match l with
  | c :: l' => if (c =? 45)%Z then (true, l') else if (c =? 43)%Z then (false, l') else (false, l)
  | [] => (false, [])
  end.
(** Digits, then a point and digits when the point is there. *)
Definition scan_fraction (f : Z → bool) (l : list Z) : list Z * list Z * list Z :=
  let '(ip, l1) := span f l in
  match l1 with
  | c :: l2 => if (c =? 46)%Z then let '(fp, l3) := span f l2 in (ip, fp, l3) else (ip, [], l1)
  | [] => (ip, [], [])
  end.
(** An exponent introduced by [mark] (a lower-case letter), or 0. *)
Definition scan_exponent (mark : Z) (l : list Z) : Z :=
  match l with
  | c :: l1 =>
      if (to_lower c =? mark)%Z then
        let '(s, l2) := opt_sign l1 in
        let v := digits_val 10 (span is_digit l2).1 in
        if s then (- v)%Z else v
      else 0%Z
  | [] => 0%Z
  end.
Definition scan_decimal (s : bool) (l : list Z) : option double :=
  let '(ip, fp, l') := scan_fraction is_digit l in
  match ip ++ fp with
  | [] => None
  | ds => Some (f_of_decimal s (digits_val 10 ds)
                  (scan_exponent 101 l' - Z.of_nat (length fp)))
  end.
Definition scan_hex (s : bool) (l : list Z) : option double :=
  let '(ip, fp, l') := scan_fraction is_xdigit l in
  match ip ++ fp with
  | [] => None
  | ds => Some (f_of_binary s (digits_val 16 ds)
                  (scan_exponent 112 l' - 4 * Z.of_nat (length fp)))
  end.
Definition strtod (mem : list Z) : option double :=
  let '(s, l) := opt_sign (span is_space mem).2 in
  if ci_prefix (str "inf") l then Some (S754_infinity s)
  else if ci_prefix (str "nan") l then Some S754_nan
  else
    match (if ci_prefix (str "0x") l then scan_hex s (drop 2 l) else None) with
    | Some v => Some v
    | None => scan_decimal s l
    end.

Example strtod_ex1 : strtod (str " -12.50e1,") = Some (f_of_Z (-125)).
Proof. vm_compute. reflexivity. Qed.
Example strtod_ex2 : strtod (str "0x1.8p1") = Some (f_of_Z 3).
Proof. vm_compute. reflexivity. Qed.
Example strtod_ex3 : strtod (str "e5") = None ∧ strtod (str "0xg") = Some fzero
  ∧ strtod (str "1e400") = Some (S754_infinity false).
Proof. vm_compute. done. Qed.

(** [strtod] does not look past a byte that cannot be part of a number, such
    as the quote, comma or bracket that delimits a JSON value. *)
Definition ends_number (d : Z) : Prop := d ∈ [c_quote; 44; 93; 125]%Z.

Section strtod_delimited.
Context (d : Z) (r : list Z) (Hd : ends_number d).
Abbreviation D := (d :: r).

Lemma span_delimited f c :
  f d = false → span f (c ++ D) = ((span f c).1, (span f c).2 ++ D).
Proof using.
  intros Hf. induction c as [|x c IH]; simpl; [by rewrite Hf|].
  destruct (f x); [|done]. rewrite IH. by destruct (span f c).
Qed.
Lemma ci_prefix_delimited p c :
  to_lower d ∉ p → ci_prefix p (c ++ D) = ci_prefix p c.
Proof using.
  revert c. induction p as [|x p IH]; intros [|y c]; simpl; intros Hp; try done.
  - apply not_elem_of_cons in Hp as [Hx _].
    by rewrite (proj2 (Z.eqb_neq _ _)) by congruence.
  - apply not_elem_of_cons in Hp as [_ Hp]. by rewrite IH.
Qed.

Ltac delim_cases :=
  unfold ends_number, c_quote in Hd;
  repeat (apply elem_of_cons in Hd as [->|Hd]; [done|]); by apply elem_of_nil in Hd.
Lemma delim_not_space : is_space d = false. Proof using Hd. delim_cases. Qed.
Lemma delim_not_digit : is_digit d = false. Proof using Hd. delim_cases. Qed.
Lemma delim_not_xdigit : is_xdigit d = false. Proof using Hd. delim_cases. Qed.
Lemma delim_not_sign : (d =? 45)%Z = false ∧ (d =? 43)%Z = false ∧ (d =? 46)%Z = false.
Proof using Hd. delim_cases. Qed.
Lemma delim_not_mark :
  (to_lower d =? 101)%Z = false ∧ (to_lower d =? 112)%Z = false.
Proof using Hd. delim_cases. Qed.
Lemma delim_not_word :
  ∀ p, p ∈ [str "inf"; str "nan"; str "0x"] → to_lower d ∉ p.
Proof using Hd.
  unfold ends_number, c_quote in Hd. intros p Hp.
  repeat (apply elem_of_cons in Hd as [->|Hd];
    [repeat (apply elem_of_cons in Hp as [->|Hp];
       [by apply (bool_decide_unpack (_ ∉ _))|]); by apply elem_of_nil in Hp|]).
  by apply elem_of_nil in Hd.
Qed.

Lemma opt_sign_delimited c :
  opt_sign (c ++ D) = ((opt_sign c).1, (opt_sign c).2 ++ D).
Proof using Hd.
  destruct c as [|x c]; simpl.
  - destruct delim_not_sign as (-> & -> & _). done.
  - by repeat case_match.
Qed.
Lemma scan_fraction_delimited f c :
  f d = false →
  scan_fraction f (c ++ D) =
    ((scan_fraction f c).1, (scan_fraction f c).2 ++ D).
Proof using Hd.
  intros Hf. unfold scan_fraction. rewrite span_delimited by done.
  destruct (span f c) as [ip [|x l1]]; simpl.
  - destruct delim_not_sign as (_ & _ & ->). done.
  - destruct (x =? 46)%Z; [|done]. rewrite span_delimited by done.
    by destruct (span f l1).
Qed.
Lemma scan_exponent_delimited mark l :
  (to_lower d =? mark)%Z = false → scan_exponent mark (l ++ D) = scan_exponent mark l.
Proof using Hd.
  intros Hm. destruct l as [|x l]; simpl; [by rewrite Hm|].
  destruct (to_lower x =? mark)%Z; [|done]. rewrite opt_sign_delimited.
  destruct (opt_sign l) as [s l']; simpl.
  rewrite span_delimited by apply delim_not_digit. done.
Qed.
Lemma scan_number_delimited s c :
  scan_decimal s (c ++ D) = scan_decimal s c ∧ scan_hex s (c ++ D) = scan_hex s c.
Proof using Hd.
  destruct delim_not_mark. unfold scan_decimal, scan_hex. split.
  - rewrite scan_fraction_delimited by apply delim_not_digit.
    destruct (scan_fraction is_digit c) as [[ip fp] l]; simpl.
    by rewrite scan_exponent_delimited.
  - rewrite scan_fraction_delimited by apply delim_not_xdigit.
    destruct (scan_fraction is_xdigit c) as [[ip fp] l]; simpl.
    by rewrite scan_exponent_delimited.
Qed.

Lemma strtod_delimited c : strtod (c ++ D) = strtod c.
Proof using Hd.
  unfold strtod. rewrite span_delimited by apply delim_not_space.
  cbn [fst snd]. rewrite opt_sign_delimited.
  destruct (opt_sign (span is_space c).2) as [s l]; cbn [fst snd].
  rewrite !ci_prefix_delimited by (apply delim_not_word; rewrite !elem_of_cons; tauto).
  destruct (scan_number_delimited s l) as [-> _].
  destruct (ci_prefix (str "0x") l) eqn:E; [|done].
  destruct l as [|x [|y l]]; [done| |].
  - change (str "0x") with [48; 120]%Z in E. cbn [ci_prefix] in E.
    by rewrite andb_false_r in E.
  - cbn [drop app]. rewrite ?drop_0. by destruct (scan_number_delimited s l) as [_ ->].
Qed.
End strtod_delimited.

(** ** Results that are numbers

    Rounding never makes a NaN; products do only from a NaN or an infinity
    times zero. *)
Lemma shr_1_nonneg mrs : (0 ≤ shr_m mrs)%Z → (0 ≤ shr_m (shr_1 mrs))%Z.
Proof. destruct mrs as [[|[]|[]] r s]; simpl; lia. Qed.
Lemma iter_shr_1_nonneg n mrs : (0 ≤ shr_m mrs)%Z → (0 ≤ shr_m (SpecFloat.iter_pos shr_1 n mrs))%Z.
Proof.
  revert mrs. induction n as [n IH|n IH|]; intros mrs H; simpl.
  - apply IH, IH. by apply shr_1_nonneg.
  - by apply IH, IH.
  - by apply shr_1_nonneg.
Qed.
Lemma shr_fexp_nonneg m e l : (0 ≤ m)%Z → (0 ≤ shr_m (shr_fexp 53 1024 m e l).1)%Z.
Proof.
  intros Hm. unfold shr_fexp, shr.
  assert (0 ≤ shr_m (shr_record_of_loc m l))%Z by (by destruct l as [|[]]).
  destruct (_ - _)%Z; simpl; [done|by apply iter_shr_1_nonneg|done].
Qed.
Lemma round_aux_number s m e l :
  (0 ≤ m)%Z → is_nan (binary_round_aux 53 1024 s m e l) = false.
Proof.
  intros Hm. unfold binary_round_aux.
  pose proof (shr_fexp_nonneg m e l Hm) as H1.
  destruct (shr_fexp 53 1024 m e l) as [r1 e1]; cbn [fst] in H1.
  assert (0 ≤ round_nearest_even (shr_m r1) (loc_of_shr_record r1))%Z as H2.
  { unfold round_nearest_even.
    destruct (loc_of_shr_record r1) as [|[]]; [lia|case_match; lia|lia|lia]. }
  pose proof (shr_fexp_nonneg _ e1 loc_Exact H2) as H3.
  destruct (shr_fexp 53 1024 (round_nearest_even _ _) e1 loc_Exact) as [r2 e2]. cbn [fst] in H3.
  destruct (shr_m r2); [done|by case_match|lia].
Qed.
Lemma f_of_Z_number z : is_nan (f_of_Z z) = false.
Proof.
  unfold f_of_Z, binary_normalize, binary_round.
  destruct z as [|p|p]; [done|..]; destruct (shl_align _ _ _) as [mz ez]; by apply round_aux_number.
Qed.
Lemma fmul_number x s m e : is_nan x = false → is_nan (fmul x (S754_finite s m e)) = false.
Proof. destruct x; [done|done|done|]. intros _. by apply round_aux_number. Qed.

(** On numbers, greater is the negation of less or equal. *)
Lemma fgt_negb_fle x y :
  is_nan x = false → is_nan y = false → fgt x y = negb (fle x y).
Proof.
  intros Hx Hy. unfold fgt, flt, fle, SFltb, SFleb.
  pose proof (fcompare_key x y Hx Hy) as H1. pose proof (fcompare_key y x Hy Hx) as H2.
  destruct (SFcompare x y) as [[]|], (SFcompare y x) as [[]|]; try done; exfalso;
    rewrite ?H1 in H2; rewrite ?H2 in H1; try by (eapply key_lt_irrefl; eassumption).
  - eapply key_lt_irrefl, key_lt_trans; [apply H1|apply H2].
  - eapply key_lt_irrefl, key_lt_trans; [apply H1|apply H2].
Qed.

(** ** Rounding adds little

    A rounded value exceeds the exact one by less than a part in 2^52. *)
Section rounding.
Local Open Scope Z_scope.

Lemma shr_1_div mrs : 0 <= shr_m mrs → shr_m (shr_1 mrs) = shr_m mrs / 2.
Proof.
  destruct mrs as [m r s]. cbn [shr_m]. intros Hm. rewrite <-Z.div2_div.
  by destruct m as [|[]|].
Qed.
Lemma iter_shr_1_div n mrs :
  0 <= shr_m mrs → shr_m (SpecFloat.iter_pos shr_1 n mrs) = shr_m mrs / 2 ^ Zpos n.
Proof.
  revert mrs. induction n as [n IH|n IH|]; intros mrs H; cbn [SpecFloat.iter_pos].
  - rewrite IH by (by apply iter_shr_1_nonneg, shr_1_nonneg). rewrite IH by (by apply shr_1_nonneg).
    rewrite shr_1_div, !Z.div_div by lia. f_equal.
    replace (Zpos n~1) with (1 + Zpos n + Zpos n) by lia. rewrite !Z.pow_add_r by lia. lia.
  - rewrite IH by (by apply iter_shr_1_nonneg). rewrite IH by done. rewrite Z.div_div by lia. f_equal.
    replace (Zpos n~0) with (Zpos n + Zpos n) by lia. by rewrite Z.pow_add_r by lia.
  - by apply shr_1_div.
Qed.
Lemma shr_fexp_div m e l :
  0 <= m →
  let k := Z.max 0 (fexp 53 1024 (Zdigits2 m + e) - e) in
  shr_m (shr_fexp 53 1024 m e l).1 = m / 2 ^ k ∧ (shr_fexp 53 1024 m e l).2 = e + k.
Proof.
  intros Hm k. unfold shr_fexp, shr, k.
  assert (shr_m (shr_record_of_loc m l) = m) as Hl by (by destruct l as [|[]]).
  destruct (_ - e) as [|p|p]; cbn [fst snd]; rewrite ?iter_shr_1_div, Hl by lia.
  - rewrite Z.div_1_r. by split; [|lia].
  - by rewrite Z.max_r by lia.
  - rewrite Z.max_l, Z.div_1_r by lia. by split; [|lia].
Qed.
Lemma digits2_log2 p : Zpos (digits2_pos p) = Z.log2 (Zpos p) + 1.
Proof.
  induction p as [p IH|p IH|]; cbn [digits2_pos]; [..|done]; rewrite Pos2Z.inj_succ, IH.
  - rewrite (Pos2Z.inj_xI p), Z.log2_succ_double by lia. lia.
  - rewrite (Pos2Z.inj_xO p), Z.log2_double by lia. lia.
Qed.

Lemma round_aux_le s m e :
  -1074 <= e →
  binary_round_aux 53 1024 s (Zpos m) e loc_Exact = S754_zero s ∨
  ∃ m' e', e <= e' ∧ Zpos m' * 2 ^ (e' - e) * 2 ^ 52 <= Zpos m * (2 ^ 52 + 1) ∧
    binary_round_aux 53 1024 s (Zpos m) e loc_Exact =
      if e' <=? 971 then S754_finite s m' e' else S754_infinity s.
Proof.
  intros He. unfold binary_round_aux.
  destruct (shr_fexp_div (Zpos m) e loc_Exact ltac:(lia)) as [H1 E1].
  destruct (shr_fexp 53 1024 (Zpos m) e loc_Exact) as [r1 e1] eqn:Er. cbn [fst snd] in *.
  set (k1 := Z.max 0 _) in *. set (r := round_nearest_even _ _).
  assert (0 <= r ∧ r * 2 ^ k1 * 2 ^ 52 <= Zpos m * (2 ^ 52 + 1)) as [Hr0 Hr].
  { assert (shr_m r1 <= r <= shr_m r1 + 1) as Hround.
    { unfold r, round_nearest_even. destruct (loc_of_shr_record r1) as [|[]]; [|case_match| |]; lia. }
    assert (0 <= shr_m r1) by (rewrite H1; apply Z.div_pos; [lia|apply Z.pow_pos_nonneg; lia]).
    split; [lia|]. destruct (Z.eq_dec k1 0) as [Hk|Hk].
    - assert (r = Zpos m) as ->; [|rewrite Hk; lia].
      unfold r. unfold shr_fexp, shr in Er. unfold k1 in Hk.
      destruct (_ - e) as [|p|p]; [|lia|]; injection Er as <- _; done.
    - assert (2 ^ k1 * 2 ^ 52 <= Zpos m) as Hk1.
      { unfold k1, fexp, SpecFloat.emin in *. cbn [Zdigits2] in *. rewrite digits2_log2 in *.
        rewrite <-Z.pow_add_r by lia.
        pose proof (Z.log2_spec (Zpos m) ltac:(lia)) as [Hlog _].
        etrans; [|exact Hlog]. apply Z.pow_le_mono_r; lia. }
      assert (0 < 2 ^ k1) by (apply Z.pow_pos_nonneg; lia).
      pose proof (Z.mul_div_le (Zpos m) (2 ^ k1) ltac:(lia)). rewrite <-H1 in *. nia. }
  destruct (shr_fexp_div r e1 loc_Exact Hr0) as [H2 E2].
  destruct (shr_fexp 53 1024 r e1 loc_Exact) as [r2 e2]. cbn [fst snd] in *.
  set (k2 := Z.max 0 (fexp 53 1024 (Zdigits2 r + e1) - e1)) in *.
  assert (0 < 2 ^ k2) by (apply Z.pow_pos_nonneg; lia).
  pose proof (Z.mul_div_le r (2 ^ k2) ltac:(lia)) as Hle. rewrite <-H2 in Hle.
  assert (0 <= shr_m r2) by (rewrite H2; apply Z.div_pos; lia).
  destruct (shr_m r2) as [|m'|m']; [by left| |lia]. right. exists m', e2. split; [lia|]. split; [|done].
  replace (e2 - e) with (k1 + k2) by lia. rewrite Z.pow_add_r by lia.
  assert (0 < 2 ^ k1) by (apply Z.pow_pos_nonneg; lia). nia.
Qed.

Lemma iter_xO m d : Zpos (Pos.iter xO m d) = Zpos m * 2 ^ Zpos d.
Proof.
  induction d as [|d IH] using Pos.peano_ind; [cbn; lia|].
  rewrite Pos.iter_succ, Pos2Z.inj_xO, IH, Pos2Z.inj_succ, Z.pow_succ_r by lia. lia.
Qed.
(** A 64-bit count as a double. *)
Lemma f_of_Z_le n :
  0 < n < 2 ^ 64 →
  f_of_Z n = S754_zero false ∨
  ∃ m e, f_of_Z n = S754_finite false m e ∧ -52 <= e ∧ Zpos m * 2 ^ (e + 52) <= n * (2 ^ 52 + 1).
Proof.
  intros Hn. destruct n as [|p|p]; [lia| |lia]. unfold f_of_Z, binary_normalize, binary_round.
  assert (0 <= Z.log2 (Zpos p) < 64) as Hlog.
  { split; [apply Z.log2_nonneg|]. apply Z.log2_lt_pow2; lia. }
  assert (∃ m0 e0, shl_align p 0 (fexp 53 1024 (Zpos (digits2_pos p) + 0)) = (m0, e0) ∧
    -52 <= e0 <= 0 ∧ Zpos m0 * 2 ^ (e0 + 52) = Zpos p * 2 ^ 52) as (m0 & e0 & -> & He0 & Hm0).
  { unfold shl_align. rewrite digits2_log2. unfold fexp, SpecFloat.emin.
    destruct (_ - 0) as [|d|d] eqn:Ed; [by exists p, 0|by exists p, 0|].
    eexists _, _. split; [reflexivity|]. split; [lia|]. rewrite iter_xO, <-Z.mul_assoc, <-Z.pow_add_r by lia.
    do 2 f_equal. lia. }
  destruct (round_aux_le false m0 e0 ltac:(lia)) as [->|(m & e & He & Hle & ->)]; [by left|]. right.
  assert (0 < 2 ^ (e0 + 52)) by (apply Z.pow_pos_nonneg; lia).
  assert (Zpos m * 2 ^ (e + 52) <= Zpos p * (2 ^ 52 + 1)) as Hm.
  { replace (e + 52) with ((e - e0) + (e0 + 52)) by lia. rewrite Z.pow_add_r by lia. nia. }
  assert (e <= 971).
  { destruct (Z.le_gt_cases e 971) as [|Hbig]; [done|].
    assert (2 ^ 1023 <= 2 ^ (e + 52)) by (apply Z.pow_le_mono_r; lia).
    assert (2 ^ 64 * (2 ^ 52 + 1) < 2 ^ 1023) by done. nia. }
  rewrite (proj2 (Z.leb_le _ _)) by done. exists m, e. split; [done|]. split; [lia|done].
Qed.
(** A count times a fraction below [1 - 2^-10] with 53 bits. *)
Lemma fmul_count_le n mp :
  0 < n < 2 ^ 64 → Zpos mp <= 2 ^ 53 - 2 ^ 43 →
  fmul (S754_finite false mp (-53)) (f_of_Z n) = S754_zero false ∨
  ∃ m e, fmul (S754_finite false mp (-53)) (f_of_Z n) = S754_finite false m e ∧
    -105 <= e ∧ Zpos m * 2 ^ (e + 105) <= 2 ^ 169 - 2 ^ 150.
Proof.
  intros Hn Hmp. destruct (f_of_Z_le n Hn) as [->|(mx & ex & -> & Hex & Hmx)]; [by left|].
  unfold fmul, SFmul. cbn [xorb].
  destruct (round_aux_le false (mp * mx) (-53 + ex) ltac:(lia)) as [->|(m & e & He & Hle & ->)]; [by left|].
  right. assert (0 < 2 ^ (ex + 52)) by (apply Z.pow_pos_nonneg; lia).
  assert (Zpos m * 2 ^ (e + 105) * 2 ^ 52 <= (2 ^ 53 - 2 ^ 43) * (2 ^ 64 - 1) * (2 ^ 52 + 1) * (2 ^ 52 + 1)) as Hm.
  { replace (e + 105) with ((e - (-53 + ex)) + (ex + 52)) by lia. rewrite Z.pow_add_r by lia.
    rewrite Pos2Z.inj_mul in Hle.
    transitivity (Zpos mp * (Zpos mx * 2 ^ (ex + 52)) * (2 ^ 52 + 1)); [nia|].
    apply Z.mul_le_mono_nonneg_r; [lia|]. rewrite <-Z.mul_assoc. apply Z.mul_le_mono_nonneg; lia. }
  assert (Zpos m * 2 ^ (e + 105) <= 2 ^ 169 - 2 ^ 150) by lia.
  assert (e <= 971).
  { destruct (Z.le_gt_cases e 971) as [|Hbig]; [done|].
    assert (2 ^ 1023 <= 2 ^ (e + 105)) by (apply Z.pow_le_mono_r; lia).
    assert (2 ^ 169 < 2 ^ 1023) by done. nia. }
  rewrite (proj2 (Z.leb_le _ _)) by done. exists m, e. split; [done|]. split; [lia|done].
Qed.
End rounding.
