(* ===== verification/RingBuffer.v ===== *)
(** * The transmit ring: net/ring_buffer.hpp

    [RingBuffer<N>], its abstraction to a bounded FIFO of bytes, and the
    interface [ByteQueue] through which the WebSocket client uses it. *)

From S2P Require Import Prelude.

(** ** Interface: a bounded FIFO of bytes that is read by contiguous chunks *)
Class ByteQueue (Q : Type) := {
  bq_inv : Q → Prop;
  bq_contents : Q → list Z;
  bq_capacity : Q → nat;
  bq_write : list Z → Q → result Q;
  bq_front : Q → list Z;
  bq_commit : nat → Q → Q;
  bq_bound q : bq_inv q → length (bq_contents q) ≤ bq_capacity q;
  bq_write_ok q d : bq_inv q → length (bq_contents q) + length d ≤ bq_capacity q →
    ∃ q', bq_write d q = Ok q' ∧ bq_inv q' ∧ bq_capacity q' = bq_capacity q ∧
      bq_contents q' = bq_contents q ++ d;
  bq_write_full q d : bq_inv q → bq_capacity q < length (bq_contents q) + length d →
    ∃ e, bq_write d q = throw e;
  bq_front_prefix q : bq_inv q → bq_front q `prefix_of` bq_contents q;
  bq_front_nonempty q : bq_inv q → bq_contents q ≠ [] → bq_front q ≠ [];
  bq_commit_ok q n : bq_inv q → n ≤ length (bq_contents q) →
    bq_inv (bq_commit n q) ∧ bq_capacity (bq_commit n q) = bq_capacity q ∧
    bq_contents (bq_commit n q) = drop n (bq_contents q);
}.

Module RingBuffer.
Section ring.
Context (N : nat).

Record t := Mk { data_ : list Z; read_pos_ : nat; size_ : nat }.

Definition empty : t := Mk (replicate N 0%Z) 0 0.

Definition Size (b : t) : nat := size_ b.
Definition FreeSpace (b : t) : nat := usub N (size_ b).

(** The region is given by its start and its length. *)
Definition ContiguousWritableRegion (b : t) : nat * nat :=
  let write_pos := (read_pos_ b + size_ b) mod N in
  let contiguous_free := usub N (size_ b) `min` usub N write_pos in
  (write_pos, contiguous_free).

Definition ContiguousReadableRegion (b : t) : list Z :=
  let contiguous_available := size_ b `min` usub N (read_pos_ b) in
  take contiguous_available (drop (read_pos_ b) (data_ b)).

(** One pass of the copy loop of [Write]. *)
Definition Write_pass (data : list Z) (st : t * nat) : result (t * nat) :=
  let '(b, offset) := st in
  let '(start, len) := ContiguousWritableRegion b in
  let n := len `min` (length data - offset) in
  mem ← blit (data_ b) start (take n (drop offset data));
  Ok (Mk mem (read_pos_ b) (size_ b + n), offset + n).

(** "At most 2 passes to copy into the ring buffer": the budget is 2. *)
Definition Write (data : list Z) (b : t) : result t :=
  if FreeSpace b <? length data then throw (runtime_error "RingBuffer overflow" [])
  else
    '(b', _) ← whileM 2 (λ '(_, offset), offset <? length data) (Write_pass data) (b, 0);
    Ok b'.

Definition CommitRead (n : nat) (b : t) : t :=
  Mk (data_ b) ((read_pos_ b + n) mod N) (usub (size_ b) n).

Definition Reset (b : t) : t := Mk (data_ b) 0 0.

(** ** Abstraction *)
Definition wf (b : t) : Prop :=
  length (data_ b) = N ∧ read_pos_ b < N ∧ size_ b ≤ N.
(** The unread bytes, oldest first. *)
Definition contents (b : t) : list Z :=
  take (size_ b) (drop (read_pos_ b) (data_ b) ++ data_ b).

Lemma ring_length_contents b : wf b → length (contents b) = size_ b.
Proof.
  intros (Hl & Hr & Hs). unfold contents.
  rewrite length_take, length_app, length_drop. lia.
Qed.

Lemma contents_lookup b k :
  wf b → contents b !! k =
    if decide (k < size_ b)
    then data_ b !! (if decide (read_pos_ b + k < N) then read_pos_ b + k
                     else read_pos_ b + k - N)
    else None.
Proof.
  intros (Hl & Hr & Hs). unfold contents. autorewrite with lookups.
  prune_cases; lookup_close.
Qed.

Lemma ring_wf_empty : 0 < N → wf empty ∧ contents empty = [].
Proof. intros. split; [|done]. unfold wf, empty; simpl. rewrite length_replicate. lia. Qed.

Lemma wf_Reset b : wf b → wf (Reset b) ∧ contents (Reset b) = [].
Proof. intros (Hl & Hr & Hs). split; [|done]. unfold wf, Reset; simpl. lia. Qed.

(** The index at which the next byte goes. *)
Lemma write_pos_cases b :
  wf b →
  (read_pos_ b + size_ b < N ∧ (read_pos_ b + size_ b) mod N = read_pos_ b + size_ b) ∨
  (N ≤ read_pos_ b + size_ b ∧ (read_pos_ b + size_ b) mod N = read_pos_ b + size_ b - N).
Proof.
  intros (Hl & Hr & Hs). destruct (decide (read_pos_ b + size_ b < N)).
  - left. split; [done|]. by apply Nat.mod_small.
  - right. split; [lia|]. replace (read_pos_ b + size_ b)
      with (read_pos_ b + size_ b - N + 1 * N) at 1 by lia.
    rewrite Nat.Div0.mod_add. apply Nat.mod_small. lia.
Qed.

(** A pass appends a chunk of the data to the contents; it makes progress,
    and a second pass is needed only when the first one reached the end of
    the array. *)
Lemma Write_pass_spec b data offset :
  wf b → size_ b + (length data - offset) ≤ N → offset < length data →
  ∃ b' n, Write_pass data (b, offset) = Ok (b', offset + n) ∧ wf b' ∧ 0 < n ∧
    size_ b' = size_ b + n ∧ read_pos_ b' = read_pos_ b ∧
    contents b' = contents b ++ take n (drop offset data) ∧ offset + n ≤ length data ∧
    (offset + n < length data → read_pos_ b + size_ b' = N).
Proof.
  intros Hwf Hfit Hoff. pose proof Hwf as (Hl & Hr & Hs).
  unfold Write_pass, ContiguousWritableRegion.
  pose proof (write_pos_cases b Hwf) as Hwp.
  set (wp := (read_pos_ b + size_ b) mod N) in *.
  rewrite !usub_le by lia.
  set (n := ((N - size_ b) `min` (N - wp)) `min` (length data - offset)).
  assert (length (take n (drop offset data)) = n) as Hchunk
    by (rewrite length_take, length_drop; lia).
  unfold blit. rewrite decide_True by lia. cbn [mbind result_bind].
  eexists _, n. split_and!; [done|..]; simpl.
  - unfold wf; simpl. rewrite !length_app, length_take, length_drop. lia.
  - lia.
  - done.
  - done.
  - assert (n ≤ N - size_ b) by lia. assert (n ≤ N - wp) by lia.
    apply list_eq. intros k. rewrite lookup_app_dec, ring_length_contents by done.
    rewrite !contents_lookup; [|done|unfold wf; simpl; autorewrite with lookups; lia].
    simpl. clearbody n. clear Hfit Hoff.
    generalize dependent (take n (drop offset data)). intros chunk Hchunk.
    autorewrite with lookups. rewrite Hchunk.
    destruct Hwp as [[? ->]|[? ->]]; prune_cases; lookup_close.
  - lia.
  - lia.
Qed.

Lemma Write_spec b data :
  wf b → size_ b + length data ≤ N →
  ∃ b', Write data b = Ok b' ∧ wf b' ∧ size_ b' = size_ b + length data ∧
    contents b' = contents b ++ data.
Proof.
  intros Hwf Hfit. pose proof Hwf as (Hl & Hr & Hs).
  unfold Write, FreeSpace. rewrite usub_le by lia.
  rewrite (proj2 (Nat.ltb_ge _ _)) by lia.
  cbn [whileM]. destruct (0 <? length data) eqn:E0.
  2: { apply Nat.ltb_ge in E0. destruct data; simpl in *; [|lia].
       exists b. rewrite app_nil_r. split_and!; [done|done|lia|done]. }
  apply Nat.ltb_lt in E0.
  destruct (Write_pass_spec b data 0) as (b1 & n1 & -> & Hwf1 & Hn1 & Hs1 & Hr1 & Hc1 & Hle1 & Hw1);
    [done|lia|lia|]. cbn [mbind result_bind].
  rewrite drop_0 in Hc1. destruct (0 + n1 <? length data) eqn:E1.
  2: { apply Nat.ltb_ge in E1. exists b1. split_and!; [done|done|lia|].
       rewrite Hc1, take_ge by lia. done. }
  apply Nat.ltb_lt in E1.
  destruct (Write_pass_spec b1 data (0 + n1))
    as (b2 & n2 & -> & Hwf2 & Hn2 & Hs2 & Hr2 & Hc2 & Hle2 & Hw2); [done|lia|lia|].
  cbn [mbind result_bind]. rewrite (proj2 (Nat.ltb_ge _ _)) by lia.
  exists b2. split_and!; [done|done|lia|].
  rewrite Hc2, Hc1, <-app_assoc. f_equal.
  rewrite (take_ge (drop _ _)) by (rewrite length_drop; lia). apply take_drop.
Qed.

Lemma Write_overflow b data :
  wf b → N < size_ b + length data →
  Write data b = throw (runtime_error "RingBuffer overflow" []).
Proof.
  intros (Hl & Hr & Hs) H. unfold Write, FreeSpace. rewrite usub_le by done.
  by rewrite (proj2 (Nat.ltb_lt _ _)) by lia.
Qed.

Lemma Write_read_pos data b b' : Write data b = Ok b' → read_pos_ b' = read_pos_ b.
Proof.
  assert (∀ b o b' o', Write_pass data (b, o) = Ok (b', o') → read_pos_ b' = read_pos_ b) as Hp.
  { intros b1 o b2 o'. unfold Write_pass. destruct (ContiguousWritableRegion b1) as [start len].
    destruct (blit _ _ _); simpl; [|done]. by intros [= <- _]. }
  unfold Write. case_match; [done|]. cbn [whileM].
  destruct (0 <? length data); cbn [mbind result_bind]; [|by intros [= <-]].
  destruct (Write_pass data (b, 0)) as [[b1 o1]|x] eqn:E1; cbn [mbind result_bind]; [|done].
  destruct (o1 <? length data); cbn [mbind result_bind]; [|intros [= <-]; by eapply Hp].
  destruct (Write_pass data (b1, o1)) as [[b2 o2]|x] eqn:E2; cbn [mbind result_bind]; [|done].
  destruct (o2 <? length data); cbn [mbind result_bind]; [done|]. intros [= <-].
  rewrite (Hp _ _ _ _ E2). by eapply Hp.
Qed.
Lemma readable_prefix b : wf b → ContiguousReadableRegion b `prefix_of` contents b.
Proof.
  intros (Hl & Hr & Hs). unfold ContiguousReadableRegion, contents.
  rewrite usub_le by lia.
  exists (drop (N - read_pos_ b) (take (size_ b) (drop (read_pos_ b) (data_ b) ++ data_ b))).
  list_lookup_solve.
Qed.

Lemma length_readable b :
  wf b → length (ContiguousReadableRegion b) = size_ b `min` (N - read_pos_ b).
Proof.
  intros (Hl & Hr & Hs). unfold ContiguousReadableRegion.
  rewrite usub_le, length_take, length_drop by lia. lia.
Qed.

Lemma CommitRead_spec b n :
  wf b → n ≤ size_ b →
  wf (CommitRead n b) ∧ contents (CommitRead n b) = drop n (contents b).
Proof.
  intros (Hl & Hr & Hs) Hn. unfold wf, CommitRead, contents; simpl.
  rewrite usub_le by done.
  assert ((read_pos_ b + n) mod N < N) by (apply Nat.mod_upper_bound; lia).
  split; [lia|].
  destruct (decide (read_pos_ b + n < N)) as [Hlt|Hge].
  - rewrite Nat.mod_small by done. list_lookup_solve.
  - replace (read_pos_ b + n) with (read_pos_ b + n - N + 1 * N) by lia.
    rewrite Nat.Div0.mod_add, Nat.mod_small by lia. list_lookup_solve.
Qed.
End ring.
End RingBuffer.

#[export, refine] Instance ring_queue (N : nat) : ByteQueue RingBuffer.t := {
  bq_inv := RingBuffer.wf N;
  bq_contents := RingBuffer.contents;
  bq_capacity _ := N;
  bq_write := RingBuffer.Write N;
  bq_front := RingBuffer.ContiguousReadableRegion N;
  bq_commit := RingBuffer.CommitRead N;
}.
Proof.
  - intros b Hwf. rewrite (RingBuffer.ring_length_contents N) by done. by destruct Hwf as (_&_&?).
  - intros b d Hwf. rewrite (RingBuffer.ring_length_contents N) by done. intros H.
    destruct (RingBuffer.Write_spec N b d Hwf H) as (b' & ? & ? & _ & ?). eauto 6.
  - intros b d Hwf. rewrite (RingBuffer.ring_length_contents N) by done. intros H.
    eexists. by apply RingBuffer.Write_overflow.
  - apply RingBuffer.readable_prefix.
  - intros b Hwf Hne Hr. pose proof (RingBuffer.length_readable N b Hwf) as Hl.
    rewrite Hr in Hl. simpl in Hl. apply Hne, nil_length_inv.
    rewrite (RingBuffer.ring_length_contents N) by done. destruct Hwf as (?&?&?). lia.
  - intros b n Hwf. rewrite (RingBuffer.ring_length_contents N) by done. intros Hn.
    destruct (RingBuffer.CommitRead_spec N b n Hwf Hn). done.
Defined.

(** ** A client that queues frames and sends the readable region

    [QWrite] queues bytes; [QSend] is one completed write to the socket: the
    contiguous readable region is sent and committed, as
    [OkxWsClient::StartWrite] and its completion handler do. *)
Inductive queue_op :=
  | QWrite (d : list Z)
  | QSend.

Section client.
Context `{ByteQueue Q}.

Definition queue_step (op : queue_op) (st : Q * list Z) : result (Q * list Z) :=
  let '(q, sent) := st in
  match op with
  | QWrite d => q' ← bq_write d q; Ok (q', sent)
  | QSend => Ok (bq_commit (length (bq_front q)) q, sent ++ bq_front q)
  end.
Fixpoint queue_run (ops : list queue_op) (st : Q * list Z) : result (Q * list Z) :=
  match ops with
  | [] => Ok st
  | op :: ops' => st' ← queue_step op st; queue_run ops' st'
  end.
Definition written (ops : list queue_op) : list Z :=
  ops ≫= λ op, match op with QWrite d => d | QSend => [] end.

Lemma front_commit q :
  bq_inv q →
  bq_inv (bq_commit (length (bq_front q)) q) ∧
  bq_front q ++ bq_contents (bq_commit (length (bq_front q)) q) = bq_contents q.
Proof.
  intros Hq. destruct (bq_front_prefix q Hq) as [r Hr].
  destruct (bq_commit_ok q (length (bq_front q))) as (? & _ & Hc); [done|..].
  - rewrite Hr, length_app. lia.
  - split; [done|]. rewrite Hc, Hr, drop_app_length. done.
Qed.

Lemma queue_run_stream ops q sent q' sent' :
  bq_inv q → queue_run ops (q, sent) = Ok (q', sent') →
  bq_inv q' ∧ sent' ++ bq_contents q' = sent ++ bq_contents q ++ written ops.
Proof.
  revert q sent. induction ops as [|op ops IH]; intros q sent Hq; simpl.
  { intros [= <- <-]. by rewrite app_nil_r. }
  destruct op as [d|]; simpl.
  - destruct (decide (length (bq_contents q) + length d ≤ bq_capacity q)) as [Hfit|Hfull].
    + destruct (bq_write_ok q d Hq Hfit) as (q1 & -> & Hq1 & _ & Hc). simpl.
      intros Hrun. destruct (IH _ _ Hq1 Hrun) as [? ->]. split; [done|].
      by rewrite Hc, <-!app_assoc.
    + destruct (bq_write_full q d Hq) as [e ->]; [lia|]. done.
  - intros Hrun. destruct (front_commit q Hq) as [Hq1 Hc].
    destruct (IH _ _ Hq1 Hrun) as [? ->]. split; [done|].
    by rewrite <-Hc, <-!app_assoc.
Qed.
End client.

(** ** Properties *)

(** On a well-formed ring, [Write] appends the bytes to the
    unread contents when they fit, in at most two copy passes and without an
    out-of-range copy, and otherwise throws "RingBuffer overflow". *)
Theorem ring_write_correct (N : nat) (b : RingBuffer.t) (data : list Z) :
  RingBuffer.wf N b →
  (RingBuffer.Size b + length data ≤ N ∧
   ∃ b', RingBuffer.Write N data b = Ok b' ∧ RingBuffer.wf N b' ∧
     RingBuffer.contents b' = RingBuffer.contents b ++ data) ∨
  (N < RingBuffer.Size b + length data ∧
   RingBuffer.Write N data b = throw (runtime_error "RingBuffer overflow" [])).
Proof.
  intros Hwf. unfold RingBuffer.Size.
  destruct (decide (RingBuffer.size_ b + length data ≤ N)).
  - left. destruct (RingBuffer.Write_spec N b data) as (b' & ? & ? & _ & ?); eauto 6.
  - right. split; [lia|]. apply RingBuffer.Write_overflow; [done|lia].
Qed.

Lemma ring_write_correct_witness :
  let b := RingBuffer.CommitRead 4 3 (RingBuffer.Mk [1; 2; 3; 4]%Z 0 4) in
  RingBuffer.wf 4 b ∧ ∃ b', RingBuffer.Write 4 [5; 6]%Z b = Ok b' ∧
    RingBuffer.contents b' = [4; 5; 6]%Z.
Proof.
  assert (RingBuffer.wf 4 (RingBuffer.CommitRead 4 3 (RingBuffer.Mk [1; 2; 3; 4]%Z 0 4)))
    as Hwf by (vm_compute; lia).
  split; [exact Hwf|].
  destruct (ring_write_correct 4 _ [5; 6]%Z Hwf) as [(_ & b' & H & _ & Hc)|[Hbad _]].
  - exists b'. split; [exact H|]. rewrite Hc. reflexivity.
  - vm_compute in Hbad. lia.
Defined.

(** C16. Whatever sequence of writes and completed sends runs on
    an empty ring, if no write overflows then the bytes sent followed by the
    bytes still queued are exactly the bytes written, in order: nothing is
    lost, duplicated or reordered across wrap-around. *)
Theorem ring_stream_integrity (N : nat) (ops : list queue_op) b sent :
  0 < N →
  @queue_run _ (ring_queue N) ops (RingBuffer.empty N, []) = Ok (b, sent) →
  sent ++ RingBuffer.contents b = written ops.
Proof.
  intros HN Hrun. destruct (RingBuffer.ring_wf_empty N HN) as [Hwf _].
  by apply (@queue_run_stream _ (ring_queue N)) in Hrun as [_ Hrun].
Qed.

Lemma ring_stream_integrity_witness :
  ∃ b, @queue_run _ (ring_queue 4)
    [QWrite [1; 2; 3]%Z; QSend; QWrite [4; 5; 6]%Z; QSend] (RingBuffer.empty 4, []) =
    Ok (b, [1; 2; 3; 4]%Z) ∧
  [1; 2; 3; 4]%Z ++ RingBuffer.contents b = [1; 2; 3; 4; 5; 6]%Z.
Proof.
  eexists. split; [vm_compute; reflexivity|].
  apply (ring_stream_integrity 4
    [QWrite [1; 2; 3]%Z; QSend; QWrite [4; 5; 6]%Z; QSend]); [lia|vm_compute; reflexivity].
Defined.

(** Two completed sends empty any ring: the chain of
    [StartWrite] calls in the completion handler ends. *)
Theorem ring_drains_in_two (N : nat) (b : RingBuffer.t) :
  RingBuffer.wf N b →
  ∃ b', @queue_run _ (ring_queue N) [QSend; QSend] (b, []) =
          Ok (b', RingBuffer.contents b) ∧ RingBuffer.Size b' = 0.
Proof.
  intros Hwf. destruct (front_commit (H := ring_queue N) b Hwf) as [Hwf1 H1].
  destruct (front_commit (H := ring_queue N) _ Hwf1) as [Hwf2 H2]. simpl in *.
  set (b1 := RingBuffer.CommitRead N _ b) in *.
  set (b2 := RingBuffer.CommitRead N _ b1) in *.
  assert (RingBuffer.size_ b2 = 0) as Hs2.
  { pose proof (RingBuffer.length_readable N b Hwf) as L1.
    pose proof (RingBuffer.length_readable N b1 Hwf1) as L2.
    destruct Hwf as (? & ? & ?), Hwf1 as (? & ? & ?).
    assert (RingBuffer.size_ b1 = RingBuffer.size_ b -
      length (RingBuffer.ContiguousReadableRegion N b)) by (apply usub_le; lia).
    assert (RingBuffer.size_ b2 = RingBuffer.size_ b1 -
      length (RingBuffer.ContiguousReadableRegion N b1)) by (apply usub_le; lia).
    assert (RingBuffer.read_pos_ b1 = (RingBuffer.read_pos_ b +
      length (RingBuffer.ContiguousReadableRegion N b)) mod N) as Hr1 by done.
    destruct (decide (RingBuffer.size_ b ≤ N - RingBuffer.read_pos_ b)); [lia|].
    replace (RingBuffer.read_pos_ b + _) with N in Hr1 by lia.
    rewrite Nat.Div0.mod_same in Hr1. lia. }
  exists b2. split; [|done]. do 2 f_equal.
  assert (RingBuffer.contents b2 = []) as Hc2
    by (apply nil_length_inv; rewrite (RingBuffer.ring_length_contents N); done).
  by rewrite <-H1, <-H2, Hc2, app_nil_r.
Qed.

Lemma ring_drains_in_two_witness :
  RingBuffer.wf 4 (RingBuffer.Mk [1; 2; 3; 4]%Z 3 3) ∧
  ∃ b', @queue_run _ (ring_queue 4) [QSend; QSend] (RingBuffer.Mk [1; 2; 3; 4]%Z 3 3, []) =
          Ok (b', [4; 1; 2]%Z) ∧ RingBuffer.Size b' = 0.
Proof.
  assert (RingBuffer.wf 4 (RingBuffer.Mk [1; 2; 3; 4]%Z 3 3)) as H by (vm_compute; lia).
  split; [exact H|]. exact (ring_drains_in_two 4 _ H).
Defined.
