(* ===== verification/WebSocketFrame.v ===== *)
(** * RFC 6455 frames: net/websocket_frame.cpp, net/websocket_control.cpp,
      net/websocket_reassembler.hpp

    Decoding of server frames, encoding of masked client frames, control
    responses and the reassembly buffer, checked against reference codecs
    written from the RFC. *)

From S2P Require Import Prelude.
Local Open Scope Z_scope.

Module WebSocketFrame.

(** ** Data *)
Inductive WebSocketOpcode :=
  | kContinuation | kText | kBinary | kClose | kPing | kPong.

#[global] Instance WebSocketOpcode_eq_dec : EqDecision WebSocketOpcode.
Proof. solve_decision. Defined.

Definition opcode_value (op : WebSocketOpcode) : Z :=
  match op with
  | kContinuation => 0 | kText => 1 | kBinary => 2
  | kClose => 8 | kPing => 9 | kPong => 10
  end.
(** [static_cast<WebSocketOpcode>] of a value the table of valid opcodes accepts. *)
Definition opcode_of_value (v : Z) : WebSocketOpcode :=
  match v with
  | 1 => kText | 2 => kBinary | 8 => kClose | 9 => kPing | 10 => kPong
  | _ => kContinuation
  end.

Record WebSocketFrameHeader := Header {
  fin : bool;
  opcode : WebSocketOpcode;
  payload_length : Z;   (* uint64_t *)
  header_size : Z;      (* size_t *)
}.
Record Frame := MkFrame {
  header : WebSocketFrameHeader;
  payload : string_view;
  total_size : Z;       (* size_t *)
}.

Definition kBaseHeaderSize : Z := 2.
Definition kFinBit : Z := 128.
Definition kRsvMask : Z := 112.
Definition kOpcodeMask : Z := 15.
Definition kMaskBit : Z := 128.
Definition kPayloadLengthMask : Z := 127.
Definition kExtended16Marker : Z := 126.
Definition kExtended64Marker : Z := 127.
Definition kExtended16Bytes : Z := 2.
Definition kExtended64Bytes : Z := 8.
Definition kMaskKeyBytes : nat := 4.
Definition kMaxBaseLength : Z := 125.
Definition kMaxExtended16Length : Z := 65535.
Definition kValidOpcodes : list bool :=
  [true; true; true; false; false; false; false; false;
   true; true; true; false; false; false; false; false].

(** ** Big-endian integers *)
Definition ReadBigEndian16 (data : string_view) (offset : nat) : result Z :=
  high ← sv_get data offset;
  low ← sv_get data (offset + 1);
  Ok (wrapU 16 (Z.lor (Z.shiftl high 8) low)).

Definition ReadBigEndian64 (data : string_view) (offset : nat) : result Z :=
  for_up 4 0 (λ k value,
    c ← ReadBigEndian16 data (offset + 2 * k)%nat;
    Ok (Z.lor (wrapU 64 (Z.shiftl value 16)) c)) 0.

Definition AppendBigEndian16 (out : list Z) (value : Z) : list Z :=
  out ++ [wrapU 8 (Z.shiftr value 8); wrapU 8 value].

Definition AppendBigEndian64 (out : list Z) (value : Z) : list Z :=
  fold_left (λ out shift, AppendBigEndian16 out (wrapU 16 (Z.shiftr value shift)))
    [48; 32; 16; 0] out.

(** ** Decoding *)
Definition reserved_bits : exn :=
  runtime_error "WebSocket frame sets reserved bits with no extension negotiated" [].
Definition masked_frame : exn :=
  runtime_error "WebSocket frame from server must not be masked" [].
Definition reserved_opcode : exn :=
  runtime_error "WebSocket frame uses a reserved opcode" [].

Definition DecodeFrameHeader (data : string_view) : result (option WebSocketFrameHeader) :=
  let size := Z.of_nat (sv_size data) in
  if size <? kBaseHeaderSize then Ok None else
  byte0 ← sv_get data 0;
  byte1 ← sv_get data 1;
  if negb (Z.land byte0 kRsvMask =? 0) then throw reserved_bits else
  if negb (Z.land byte1 kMaskBit =? 0) then throw masked_frame else
  let opcode_value := Z.land byte0 kOpcodeMask in
  valid ← aget kValidOpcodes (Z.to_nat opcode_value);
  if negb valid then throw reserved_opcode else
  let length_marker := Z.land byte1 kPayloadLengthMask in
  let header length hs :=
    Header (negb (Z.land byte0 kFinBit =? 0)) (opcode_of_value opcode_value) length hs in
  if length_marker =? kExtended16Marker then
    let header_size := kBaseHeaderSize + kExtended16Bytes in
    if size <? header_size then Ok None else
    length ← ReadBigEndian16 data (Z.to_nat kBaseHeaderSize);
    Ok (Some (header length header_size))
  else if length_marker =? kExtended64Marker then
    let header_size := kBaseHeaderSize + kExtended64Bytes in
    if size <? header_size then Ok None else
    length ← ReadBigEndian64 data (Z.to_nat kBaseHeaderSize);
    Ok (Some (header length header_size))
  else Ok (Some (header length_marker kBaseHeaderSize)).

(** [header_size + payload_length] is computed in [size_t], and [substr]
    clamps its count to the bytes that are there. *)
Definition DecodeFrame (data : string_view) : result (option Frame) :=
  header ← DecodeFrameHeader data;
  match header with
  | None => Ok None
  | Some h =>
      let total_size := wrapU 64 (header_size h + payload_length h) in
      if Z.of_nat (sv_size data) <? total_size then Ok None
      else
        let count := Z.to_nat (Z.min (payload_length h) (Z.of_nat (sv_size data))) in
        Ok (Some (MkFrame h (sv_substr data (Z.to_nat (header_size h)) count) total_size))
  end.

(** ** Encoding

    [rand] is what [RAND_bytes] delivers: four bytes, or a failure. *)
Definition GenerateMaskingKey (rand : option (list Z)) : result (list Z) :=
  match rand with
  | Some key => Ok key
  | None => throw (runtime_error "Failed to generate WebSocket frame masking key" [])
  end.

Definition EncodeFrame (rand : option (list Z)) (op : WebSocketOpcode) (payload : list Z)
    : result (list Z) :=
  let frame := [wrapU 8 (Z.lor kFinBit (opcode_value op))] in
  let payload_length := Z.of_nat (length payload) in
  let frame :=
    if payload_length <=? kMaxBaseLength then
      frame ++ [wrapU 8 (Z.lor kMaskBit (wrapU 8 payload_length))]
    else if payload_length <=? kMaxExtended16Length then
      AppendBigEndian16 (frame ++ [wrapU 8 (Z.lor kMaskBit kExtended16Marker)])
        (wrapU 16 payload_length)
    else
      AppendBigEndian64 (frame ++ [wrapU 8 (Z.lor kMaskBit kExtended64Marker)])
        payload_length in
  mask_key ← GenerateMaskingKey rand;
  let frame := frame ++ mask_key in
  Ok (frame ++ imap (λ i original,
        wrapU 8 (Z.lxor original (mask_key !!! (i mod kMaskKeyBytes)%nat))) payload).

(** ** Control frames *)
Definition kMaxControlPayload : nat := 125.
Definition kCloseStatusCodeBytes : nat := 2.

Definition ValidateControlPayloadSize (size : nat) : result unit :=
  if (kMaxControlPayload <? size)%nat
  then throw (invalid_argument "WebSocket control frame payload exceeds 125-byte limit" [])
  else Ok tt.

Definition EncodeClose (rand : option (list Z)) (status_code : Z) (reason : list Z)
    : result (list Z) :=
  _ ← ValidateControlPayloadSize (kCloseStatusCodeBytes + length reason);
  let body := [wrapU 8 (Z.shiftr status_code 8); wrapU 8 status_code] ++ reason in
  EncodeFrame rand kClose body.

Definition BuildControlResponse (rand : option (list Z)) (frame : Frame)
    : result (option (list Z)) :=
  match opcode (header frame) with
  | kPing => f ← EncodeFrame rand kPong (sv_text (payload frame)); Ok (Some f)
  | kClose => f ← EncodeFrame rand kClose (sv_text (payload frame)); Ok (Some f)
  | _ => Ok None
  end.

(** ** Reference codecs (RFC 6455, section 5.2)

    The length field of a frame, in the shortest form, and a whole unmasked
    frame as a server sends it. *)
Definition be_bytes (n : nat) (v : Z) : list Z :=
  (λ k : nat, (v / 256 ^ Z.of_nat (n - 1 - k)) mod 256) <$> seq 0 n.
Definition rfc_length (len : Z) : list Z :=
  if len <? 126 then [len]
  else if len <? 65536 then 126 :: be_bytes 2 len
  else 127 :: be_bytes 8 len.
Definition rfc_header (f : bool) (op : WebSocketOpcode) (len : Z) : list Z :=
  ((if f then 128 else 0) + opcode_value op) :: rfc_length len.
Definition server_frame (f : bool) (op : WebSocketOpcode) (payload : list Z) : list Z :=
  rfc_header f op (Z.of_nat (length payload)) ++ payload.

(** What a server reads from a client frame: FIN, opcode and the unmasked
    payload, if the masking bit is set and the frame is complete. *)
Definition rfc_unmask (key payload : list Z) : list Z :=
  imap (λ i b, Z.lxor b (key !!! (i mod 4)%nat)) payload.
Definition rfc_decode_length (l : list Z) : option (Z * list Z) :=
  match l with
  | len :: l' =>
      let v n := fold_left (λ acc b, acc * 256 + b) (take n l') 0 in
      if len <? 126 then Some (len, l')
      else if len =? 126 then Some (v 2%nat, drop 2 l')
      else Some (v 8%nat, drop 8 l')
  | [] => None
  end.
Definition rfc_server_decode (l : list Z) : option (bool * Z * list Z) :=
  match l with
  | b0 :: b1 :: l' =>
      if b1 <? 128 then None else
      match rfc_decode_length ((b1 - 128) :: l') with
      | Some (len, body) =>
          let p := drop 4 body in
          if Z.of_nat (length p) =? len
          then Some (128 <=? b0, b0 mod 16, rfc_unmask (take 4 body) p) else None
      | None => None
      end
  | _ => None
  end.

(** ** Lemmas on bytes *)
Lemma sv_get_text v i c : sv_text v !! i = Some c → sv_get v i = Ok c.
Proof. unfold sv_get. rewrite sv_at_text. by intros ->. Qed.

Lemma land_marker x :
  0 ≤ x < 128 → Z.land x kMaskBit = 0 ∧ Z.land x kPayloadLengthMask = x.
Proof.
  assert (Forall (λ x, Z.land x kMaskBit = 0 ∧ Z.land x kPayloadLengthMask = x)
    (seqZ 0 128)) as H by (apply (bool_decide_unpack _); vm_compute; exact I).
  intros Hx. rewrite Forall_forall in H. apply H, elem_of_seqZ. lia.
Qed.

Lemma land_byte0 (f : bool) op :
  let b := (if f then 128 else 0) + opcode_value op in
  Z.land b kRsvMask = 0 ∧ negb (Z.land b kFinBit =? 0) = f ∧
  aget kValidOpcodes (Z.to_nat (Z.land b kOpcodeMask)) = Ok true ∧
  opcode_of_value (Z.land b kOpcodeMask) = op.
Proof. by destruct f, op. Qed.

Lemma ReadBigEndian16_spec v o hi lo :
  sv_text v !! o = Some hi → sv_text v !! (o + 1)%nat = Some lo →
  is_byte hi → is_byte lo → ReadBigEndian16 v o = Ok (hi * 256 + lo).
Proof.
  unfold is_byte. intros Hh Hl ? ?. unfold ReadBigEndian16.
  rewrite (sv_get_text _ _ _ Hh), (sv_get_text _ _ _ Hl). simpl. f_equal.
  rewrite Z_lor_shiftl_add by lia. change (2 ^ 8) with 256. apply wrapU_small. lia.
Qed.

Lemma lor_chunk value c :
  0 ≤ value < 2 ^ 48 → 0 ≤ c < 65536 →
  Z.lor (wrapU 64 (Z.shiftl value 16)) c = value * 65536 + c.
Proof.
  intros Hv Hc. rewrite wrapU_small.
  - rewrite Z_lor_shiftl_add by lia. done.
  - rewrite Z.shiftl_mul_pow2 by lia. change (2 ^ 16) with 65536. lia.
Qed.

Lemma length_be_bytes n v : length (be_bytes n v) = n.
Proof. unfold be_bytes. by rewrite length_fmap, length_seq. Qed.
Lemma be_bytes_byte n v : Forall is_byte (be_bytes n v).
Proof.
  unfold be_bytes. apply Forall_fmap, Forall_forall. intros k _. simpl.
  apply Z.mod_pos_bound. lia.
Qed.

(** The 64-bit value from its eight bytes, most significant first. *)
Lemma be_bytes_8_value v :
  0 ≤ v < 2 ^ 64 →
  ∃ b0 b1 b2 b3 b4 b5 b6 b7, be_bytes 8 v = [b0; b1; b2; b3; b4; b5; b6; b7] ∧
    v = (((((((b0 * 256 + b1) * 256 + b2) * 256 + b3) * 256 + b4) * 256 + b5) * 256 + b6)
          * 256 + b7).
Proof.
  intros Hv. do 8 eexists. split; [reflexivity|].
  repeat match goal with |- context [Z.of_nat ?n] =>
    let m := eval vm_compute in (Z.of_nat n) in change (Z.of_nat n) with m end.
  assert (∀ k j, 0 ≤ k → j = k + 1 →
    v / 256 ^ k = 256 * (v / 256 ^ j) + (v / 256 ^ k) mod 256) as Hstep.
  { intros k j Hk ->. rewrite Z.pow_add_r, Z.pow_1_r, <-Z.div_div by lia.
    apply Z.div_mod. lia. }
  assert (v = v / 256 ^ 0) as H0 by (by rewrite Z.div_1_r).
  pose proof (Hstep 0 1 ltac:(lia) eq_refl). pose proof (Hstep 1 2 ltac:(lia) eq_refl).
  pose proof (Hstep 2 3 ltac:(lia) eq_refl). pose proof (Hstep 3 4 ltac:(lia) eq_refl).
  pose proof (Hstep 4 5 ltac:(lia) eq_refl). pose proof (Hstep 5 6 ltac:(lia) eq_refl).
  pose proof (Hstep 6 7 ltac:(lia) eq_refl). clear Hstep.
  rewrite (Z.mod_small (v / 256 ^ 7))
    by (split; [apply Z.div_pos; lia|apply Z.div_lt_upper_bound; lia]).
  clear Hv. repeat match goal with |- context [?a mod 256] =>
    generalize dependent (a mod 256); intros end.
  repeat match goal with _ : context [v / ?a] |- _ => generalize dependent (v / a); intros end.
  lia.
Qed.

Lemma be_bytes_2_value v :
  0 ≤ v < 65536 → ∃ b0 b1, be_bytes 2 v = [b0; b1] ∧ v = b0 * 256 + b1.
Proof.
  intros Hv. do 2 eexists. split; [reflexivity|].
  change (256 ^ Z.of_nat _) with 256 at 1. change (256 ^ Z.of_nat _) with 1.
  rewrite Z.div_1_r. Z.to_euclidean_division_equations. lia.
Qed.

Ltac be_at := first [done | unfold is_byte; lia | etrans; [|eassumption]; f_equal; lia].
Lemma ReadBigEndian64_spec v o val :
  0 ≤ val < 2 ^ 64 → (∀ k b, be_bytes 8 val !! k = Some b → sv_text v !! (o + k)%nat = Some b) →
  ReadBigEndian64 v o = Ok val.
Proof.
  intros Hval Hb. pose proof (be_bytes_byte 8 val) as Hbytes.
  destruct (be_bytes_8_value val Hval) as (b0&b1&b2&b3&b4&b5&b6&b7&E&Hsum).
  rewrite E in Hb, Hbytes. rewrite !Forall_cons in Hbytes. unfold is_byte in Hbytes.
  destruct Hbytes as (?&?&?&?&?&?&?&?&_).
  pose proof (Hb 0%nat _ eq_refl). pose proof (Hb 1%nat _ eq_refl).
  pose proof (Hb 2%nat _ eq_refl). pose proof (Hb 3%nat _ eq_refl).
  pose proof (Hb 4%nat _ eq_refl). pose proof (Hb 5%nat _ eq_refl).
  pose proof (Hb 6%nat _ eq_refl). pose proof (Hb 7%nat _ eq_refl). clear Hb.
  unfold ReadBigEndian64. cbn [for_up].
  rewrite (ReadBigEndian16_spec v (o + 2 * 0) b0 b1) by be_at.
  cbn [mbind result_bind]. rewrite lor_chunk by lia.
  rewrite (ReadBigEndian16_spec v (o + 2 * 1) b2 b3) by be_at.
  cbn [mbind result_bind]. rewrite lor_chunk by lia.
  rewrite (ReadBigEndian16_spec v (o + 2 * 2) b4 b5) by be_at.
  cbn [mbind result_bind]. rewrite lor_chunk by lia.
  rewrite (ReadBigEndian16_spec v (o + 2 * 3) b6 b7) by be_at.
  cbn [mbind result_bind]. rewrite lor_chunk by lia. f_equal. lia.
Qed.

Lemma length_rfc_header f op len :
  Z.of_nat (length (rfc_header f op len)) =
    if len <? 126 then 2 else if len <? 65536 then 4 else 10.
Proof. unfold rfc_header, rfc_length. by repeat case_match. Qed.

(** ** Decoding a frame header, whole or cut short *)
Definition header_of (f : bool) (op : WebSocketOpcode) (len : Z) : WebSocketFrameHeader :=
  Header f op len (Z.of_nat (length (rfc_header f op len))).

Lemma DecodeFrameHeader_whole v f op len rest :
  0 ≤ len < 2 ^ 64 → sv_wf v → sv_text v = rfc_header f op len ++ rest →
  DecodeFrameHeader v = Ok (Some (header_of f op len)).
Proof.
  intros Hlen Hwf Ht. pose proof (length_sv_text v Hwf) as Hsz.
  rewrite Ht, length_app in Hsz. pose proof (length_rfc_header f op len) as Hh.
  unfold header_of. rewrite Hh.
  unfold DecodeFrameHeader. destruct (land_byte0 f op) as (Hrsv & Hfin & Hval & Hop).
  rewrite (sv_get_text v 0 ((if f then 128 else 0) + opcode_value op)) by (by rewrite Ht).
  unfold rfc_header, rfc_length in Ht. revert Ht Hh.
  destruct (Z.ltb_spec len 126) as [H1|H1];
    [|destruct (Z.ltb_spec len 65536) as [H2|H2]]; intros Ht Hh.
  - rewrite (proj2 (Z.ltb_ge _ _)) by (unfold kBaseHeaderSize; lia).
    rewrite (sv_get_text v 1 len) by (by rewrite Ht).
    cbn [mbind result_bind]. rewrite Hrsv, Hval.
    destruct (land_marker len) as [-> ->]; [lia|]. cbn [mbind result_bind negb Z.eqb].
    rewrite Hfin, Hop. unfold kExtended16Marker, kExtended64Marker.
    destruct (Z.eqb_spec len 126); [lia|]. destruct (Z.eqb_spec len 127); [lia|]. done.
  - rewrite (proj2 (Z.ltb_ge _ _)) by (unfold kBaseHeaderSize; lia).
    rewrite (sv_get_text v 1 126) by (by rewrite Ht).
    cbn [mbind result_bind]. rewrite Hrsv, Hval. cbn [mbind result_bind negb Z.eqb].
    rewrite Hfin, Hop. destruct (land_marker 126) as [-> ->]; [lia|].
    change (126 =? kExtended16Marker) with true. cbn [negb Z.eqb].
    change (kBaseHeaderSize + kExtended16Bytes) with 4. change (Z.to_nat kBaseHeaderSize) with 2%nat.
    rewrite (proj2 (Z.ltb_ge _ _)) by lia.
    pose proof (be_bytes_byte 2 len) as Hbytes.
    destruct (be_bytes_2_value len) as (b0 & b1 & E & Hsum); [lia|].
    rewrite E in Ht, Hbytes. rewrite !Forall_cons in Hbytes.
    destruct Hbytes as (?&?&_).
    rewrite (ReadBigEndian16_spec v 2 b0 b1) by (done || (by rewrite Ht)).
    cbn [mbind result_bind]. by rewrite <-Hsum.
  - rewrite (proj2 (Z.ltb_ge _ _)) by (unfold kBaseHeaderSize; lia).
    rewrite (sv_get_text v 1 127) by (by rewrite Ht).
    cbn [mbind result_bind]. rewrite Hrsv, Hval. cbn [mbind result_bind negb Z.eqb].
    rewrite Hfin, Hop. destruct (land_marker 127) as [-> ->]; [lia|].
    change (127 =? kExtended16Marker) with false. change (127 =? kExtended64Marker) with true.
    cbn [negb Z.eqb]. change (Z.to_nat kBaseHeaderSize) with 2%nat.
    change (kBaseHeaderSize + kExtended64Bytes) with 10.
    rewrite (proj2 (Z.ltb_ge _ _)) by lia.
    rewrite (ReadBigEndian64_spec v 2 len); [done|done|].
    intros k b Hk. rewrite Ht.
    change ((be_bytes 8 len ++ rest) !! k = Some b). rewrite lookup_app_l; [done|].
    rewrite length_be_bytes. apply lookup_lt_Some in Hk. by rewrite length_be_bytes in Hk.
Qed.

Lemma DecodeFrameHeader_short v f op len :
  0 ≤ len < 2 ^ 64 → sv_wf v → sv_text v `prefix_of` rfc_header f op len →
  (sv_size v < length (rfc_header f op len))%nat →
  DecodeFrameHeader v = Ok None.
Proof.
  intros Hlen Hwf [rest Ht] Hs. pose proof (length_sv_text v Hwf) as Hsz.
  pose proof (length_rfc_header f op len) as Hh. unfold DecodeFrameHeader.
  destruct (Z.ltb_spec (Z.of_nat (sv_size v)) kBaseHeaderSize) as [|Hge]; [done|].
  unfold kBaseHeaderSize in *.
  destruct (land_byte0 f op) as (Hrsv & Hfin & Hval & Hop).
  assert (∀ i, (i < 2)%nat → sv_text v !! i = rfc_header f op len !! i) as Hi.
  { intros i ?. rewrite Ht. symmetry. apply lookup_app_l. lia. }
  rewrite (sv_get_text v 0 ((if f then 128 else 0) + opcode_value op)) by (by rewrite Hi by lia).
  pose proof (Hi 1%nat ltac:(lia)) as Hi1. unfold rfc_header, rfc_length in Hi1.
  clear Hi Ht. revert Hi1 Hh.
  destruct (Z.ltb_spec len 126) as [H1|H1]; [intros; lia|].
  destruct (Z.ltb_spec len 65536) as [H2|H2]; intros Hi1 Hh;
    rewrite (sv_get_text v 1 _ Hi1);
    cbn [mbind result_bind]; rewrite Hrsv, Hval; cbn [mbind result_bind negb Z.eqb].
  - destruct (land_marker 126) as [-> ->]; [lia|].
    change (126 =? kExtended16Marker) with true. cbn [negb Z.eqb].
    by rewrite (proj2 (Z.ltb_lt _ _)) by (unfold kBaseHeaderSize, kExtended16Bytes; lia).
  - destruct (land_marker 127) as [-> ->]; [lia|].
    change (127 =? kExtended16Marker) with false. change (127 =? kExtended64Marker) with true.
    cbn [negb Z.eqb].
    by rewrite (proj2 (Z.ltb_lt _ _)) by (unfold kBaseHeaderSize, kExtended64Bytes; lia).
Qed.

(** ** Decoding a frame, whole or cut short *)
Lemma DecodeFrame_whole v f op p rest :
  sv_wf v → Z.of_nat (length p) < 2 ^ 63 → sv_text v = server_frame f op p ++ rest →
  DecodeFrame v = Ok (Some (MkFrame (header_of f op (Z.of_nat (length p)))
    (sv_substr v (length (rfc_header f op (Z.of_nat (length p)))) (length p))
    (Z.of_nat (length (server_frame f op p))))).
Proof.
  intros Hwf Hp Ht. pose proof (length_sv_text v Hwf) as Hsz.
  unfold server_frame in *. rewrite <-app_assoc in Ht.
  unfold DecodeFrame. rewrite (DecodeFrameHeader_whole v f op (Z.of_nat (length p)) (p ++ rest))
    by (done || lia).
  cbn [mbind result_bind header_of header_size payload_length].
  rewrite Ht, !length_app in Hsz. rewrite length_app.
  pose proof (length_rfc_header f op (Z.of_nat (length p))) as Hh.
  assert (Z.of_nat (length (rfc_header f op (Z.of_nat (length p)))) ≤ 10)
    by (rewrite Hh; repeat case_match; lia).
  rewrite wrapU_small by lia. rewrite (proj2 (Z.ltb_ge _ _)) by lia.
  rewrite Nat2Z.id, Z.min_l, Nat2Z.id by lia. by rewrite Nat2Z.inj_add.
Qed.

Lemma DecodeFrame_short v f op p :
  sv_wf v → Z.of_nat (length p) < 2 ^ 63 → sv_text v `prefix_of` server_frame f op p →
  (sv_size v < length (server_frame f op p))%nat →
  DecodeFrame v = Ok None.
Proof.
  intros Hwf Hp [rest Ht] Hs. pose proof (length_sv_text v Hwf) as Hsz.
  unfold server_frame in *. unfold DecodeFrame.
  set (h := rfc_header f op (Z.of_nat (length p))) in *.
  pose proof (length_rfc_header f op (Z.of_nat (length p))) as Hh. fold h in Hh.
  assert (Z.of_nat (length h) ≤ 10) by (rewrite Hh; repeat case_match; lia).
  apply (f_equal (take (sv_size v))) in Ht. rewrite (take_app_length' (sv_text v)) in Ht by done.
  destruct (decide (sv_size v < length h)%nat) as [Hlt|Hge].
  - rewrite (DecodeFrameHeader_short v f op (Z.of_nat (length p))); try done; [lia|].
    rewrite take_app_le in Ht by lia. rewrite <-Ht. exists (drop (sv_size v) h).
    by rewrite take_drop.
  - rewrite take_app_ge in Ht by lia.
    rewrite (DecodeFrameHeader_whole v f op (Z.of_nat (length p)) (take (sv_size v - length h) p))
      by (done || lia).
    cbn [mbind result_bind header_of header_size payload_length].
    rewrite length_app in Hs. fold h. rewrite wrapU_small by lia.
    by rewrite (proj2 (Z.ltb_lt _ _)) by lia.
Qed.

(** ** Decoding arbitrary bytes *)
Lemma ReadBigEndian16_safe v o :
  sv_wf v → Forall is_byte (sv_text v) → (o + 1 < sv_size v)%nat →
  ∃ x, ReadBigEndian16 v o = Ok x ∧ 0 ≤ x < 65536.
Proof.
  intros Hwf Hb Ho. pose proof (length_sv_text v Hwf) as Hl.
  destruct (lookup_lt_is_Some_2 (sv_text v) o) as [hi Hhi]; [lia|].
  destruct (lookup_lt_is_Some_2 (sv_text v) (o + 1)) as [lo Hlo]; [lia|].
  pose proof (Forall_lookup_1 _ _ _ _ Hb Hhi). pose proof (Forall_lookup_1 _ _ _ _ Hb Hlo).
  exists (hi * 256 + lo). split; [by apply ReadBigEndian16_spec|]. unfold is_byte in *. lia.
Qed.

Lemma ReadBigEndian64_safe v o :
  sv_wf v → Forall is_byte (sv_text v) → (o + 7 < sv_size v)%nat →
  ∃ x, ReadBigEndian64 v o = Ok x ∧ 0 ≤ x < 2 ^ 64.
Proof.
  intros Hwf Hb Ho. unfold ReadBigEndian64. cbn [for_up].
  destruct (ReadBigEndian16_safe v (o + 2 * 0) Hwf Hb) as (x0 & -> & ?); [lia|].
  destruct (ReadBigEndian16_safe v (o + 2 * 1) Hwf Hb) as (x1 & -> & ?); [lia|].
  destruct (ReadBigEndian16_safe v (o + 2 * 2) Hwf Hb) as (x2 & -> & ?); [lia|].
  destruct (ReadBigEndian16_safe v (o + 2 * 3) Hwf Hb) as (x3 & -> & ?); [lia|].
  cbn [mbind result_bind]. rewrite (lor_chunk 0 x0) by lia.
  rewrite (lor_chunk _ x1) by lia. rewrite (lor_chunk _ x2) by lia.
  rewrite (lor_chunk _ x3) by lia.
  eexists. split; [done|]. lia.
Qed.

Definition decode_errors : list exn := [reserved_bits; masked_frame; reserved_opcode].

Lemma DecodeFrameHeader_safe v :
  sv_wf v → Forall is_byte (sv_text v) →
  (∃ e, e ∈ decode_errors ∧ DecodeFrameHeader v = throw e) ∨
  DecodeFrameHeader v = Ok None ∨
  ∃ h, DecodeFrameHeader v = Ok (Some h) ∧ 2 ≤ header_size h ≤ 10 ∧
    header_size h ≤ Z.of_nat (sv_size v) ∧ 0 ≤ payload_length h < 2 ^ 64.
Proof.
  intros Hwf Hb. pose proof (length_sv_text v Hwf) as Hl. unfold DecodeFrameHeader.
  unfold kBaseHeaderSize, kExtended16Bytes, kExtended64Bytes in *.
  destruct (Z.ltb_spec (Z.of_nat (sv_size v)) 2) as [|H2]; [tauto|].
  destruct (lookup_lt_is_Some_2 (sv_text v) 0) as [b0 Hb0]; [lia|].
  destruct (lookup_lt_is_Some_2 (sv_text v) 1) as [b1 Hb1]; [lia|].
  rewrite (sv_get_text _ _ _ Hb0), (sv_get_text _ _ _ Hb1). cbn [mbind result_bind].
  assert (∀ e, e ∈ decode_errors → (∃ e', e' ∈ decode_errors ∧
    @throw (option WebSocketFrameHeader) e = throw e')) as Hthrow by eauto.
  case_match; [left; apply Hthrow; apply list_elem_of_In; simpl; tauto|].
  case_match; [left; apply Hthrow; apply list_elem_of_In; simpl; tauto|].
  assert (0 ≤ Z.land b0 kOpcodeMask < 16) as Hop.
  { change kOpcodeMask with (Z.ones 4). rewrite Z.land_ones by lia.
    apply Z.mod_pos_bound. lia. }
  assert (0 ≤ Z.land b1 kPayloadLengthMask < 128) as Hmark.
  { change kPayloadLengthMask with (Z.ones 7). rewrite Z.land_ones by lia.
    apply Z.mod_pos_bound. lia. }
  rewrite (aget_lt kValidOpcodes) by (change (length kValidOpcodes) with 16%nat; lia).
  cbn [mbind result_bind].
  case_match; [left; apply Hthrow; apply list_elem_of_In; simpl; tauto|]. right.
  repeat case_match; try tauto; right.
  - destruct (ReadBigEndian16_safe v 2 Hwf Hb) as (x & Hx & ?); [lia|].
    change (Z.to_nat 2) with 2%nat. rewrite Hx. cbn [mbind result_bind].
    eexists. split; [done|]. simpl. lia.
  - destruct (ReadBigEndian64_safe v 2 Hwf Hb) as (x & Hx & ?); [lia|].
    change (Z.to_nat 2) with 2%nat. rewrite Hx. cbn [mbind result_bind].
    eexists. split; [done|]. simpl. lia.
  - eexists. split; [done|]. simpl. lia.
Qed.

(** ** Encoding *)
Lemma lor_fin op : wrapU 8 (Z.lor kFinBit (opcode_value op)) = 128 + opcode_value op.
Proof. by destruct op. Qed.

Lemma lor_mask x : 0 ≤ x < 128 → wrapU 8 (Z.lor kMaskBit x) = 128 + x.
Proof.
  assert (Forall (λ x, wrapU 8 (Z.lor kMaskBit x) = 128 + x) (seqZ 0 128)) as H
    by (apply (bool_decide_unpack _); vm_compute; exact I).
  intros Hx. rewrite Forall_forall in H. apply H, elem_of_seqZ. lia.
Qed.

Lemma AppendBigEndian16_spec out v : 0 ≤ v < 65536 → AppendBigEndian16 out v = out ++ be_bytes 2 v.
Proof.
  intros Hv. unfold AppendBigEndian16, wrapU. rewrite Z.shiftr_div_pow2 by lia.
  f_equal. unfold be_bytes. cbn [seq fmap list_fmap].
  change (256 ^ Z.of_nat _) with 256 at 1. change (256 ^ Z.of_nat _) with 1.
  by rewrite Z.div_1_r.
Qed.

Lemma AppendBigEndian64_spec out v : 0 ≤ v < 2 ^ 64 → AppendBigEndian64 out v = out ++ be_bytes 8 v.
Proof.
  intros Hv. unfold AppendBigEndian64. cbn [fold_left].
  assert (∀ k, 0 ≤ k → 0 ≤ wrapU 16 (Z.shiftr v k) < 65536) as Hw
    by (intros; apply wrapU_bound; lia).
  rewrite !AppendBigEndian16_spec by (apply Hw; lia). rewrite <-!app_assoc. f_equal.
  unfold be_bytes, wrapU. cbn [seq fmap list_fmap app].
  repeat match goal with |- context [Z.of_nat ?n] =>
    let m := eval vm_compute in (Z.of_nat n) in change (Z.of_nat n) with m end.
  rewrite !Z.shiftr_div_pow2 by lia.
  change (256 ^ 7) with (2 ^ 48 * 256). change (256 ^ 6) with (2 ^ 48 * 1).
  change (256 ^ 5) with (2 ^ 32 * 256). change (256 ^ 4) with (2 ^ 32 * 1).
  change (256 ^ 3) with (2 ^ 16 * 256). change (256 ^ 2) with (2 ^ 16 * 1).
  change (256 ^ 1) with (2 ^ 0 * 256). change (256 ^ 0) with (2 ^ 0 * 1).
  rewrite <-!Z.div_div by lia. rewrite !Z.pow_0_r, !Z.div_1_r.
  assert (∀ x, (x mod 2 ^ 16) / 256 mod 256 = x / 256 mod 256
             ∧ (x mod 2 ^ 16) mod 256 = x mod 256) as Hx.
  { intros x. change (2 ^ 16) with 65536. Z.to_euclidean_division_equations. lia. }
  repeat match goal with |- context [(?x mod 2 ^ 16) / 256 mod 256] =>
    rewrite (proj1 (Hx x)) end.
  repeat match goal with |- context [(?x mod 2 ^ 16) mod 256] =>
    rewrite (proj2 (Hx x)) end.
  done.
Qed.

Lemma lxor_byte a b : is_byte a → is_byte b → wrapU 8 (Z.lxor a b) = Z.lxor a b.
Proof.
  unfold is_byte, wrapU. intros Ha Hb. apply Z.bits_inj'. intros i Hi.
  destruct (decide (i < 8)); [by rewrite Z.mod_pow2_bits_low by lia|].
  rewrite Z.mod_pow2_bits_high, Z.lxor_spec by lia.
  rewrite <-(Z.mod_small a (2 ^ 8)), <-(Z.mod_small b (2 ^ 8)) by lia.
  by rewrite !Z.mod_pow2_bits_high by lia.
Qed.

Lemma mask_unmask key p :
  length key = 4%nat → Forall is_byte key → Forall is_byte p →
  rfc_unmask key (imap (λ i original,
    wrapU 8 (Z.lxor original (key !!! (i mod kMaskKeyBytes)%nat))) p) = p.
Proof.
  intros Hk Hkey Hp. unfold rfc_unmask. apply list_eq. intros i.
  rewrite !list_lookup_imap. destruct (p !! i) as [o|] eqn:E; simpl; [|done].
  f_equal. unfold kMaskKeyBytes.
  assert (is_byte (key !!! (i mod 4)%nat)) as Hb.
  { apply Forall_lookup_total_1; [done|]. rewrite Hk. apply Nat.mod_upper_bound. lia. }
  rewrite lxor_byte by (done || by eapply Forall_lookup_1).
  by rewrite Z.lxor_assoc, Z.lxor_nilpotent, Z.lxor_0_r.
Qed.

(** The frame built: FIN and opcode, masked length, key, masked payload. *)
Lemma EncodeFrame_layout key op p :
  Z.of_nat (length p) < 2 ^ 64 →
  ∃ m ext, rfc_length (Z.of_nat (length p)) = m :: ext ∧ 0 ≤ m < 128 ∧
    EncodeFrame (Some key) op p =
      Ok ([128 + opcode_value op; 128 + m] ++ ext ++ key ++ imap (λ i original,
        wrapU 8 (Z.lxor original (key !!! (i mod kMaskKeyBytes)%nat))) p).
Proof.
  intros Hlen. unfold EncodeFrame, rfc_length, kMaxBaseLength, kMaxExtended16Length.
  set (len := Z.of_nat (length p)) in *. cbn [GenerateMaskingKey mbind result_bind].
  rewrite lor_fin.
  destruct (Z.ltb_spec len 126); [|destruct (Z.ltb_spec len 65536)].
  - rewrite (proj2 (Z.leb_le _ _)) by lia. eexists _, _. split_and!; [done|lia|lia|].
    by rewrite (wrapU_small 8 len), lor_mask by lia.
  - rewrite (proj2 (Z.leb_gt _ _)), (proj2 (Z.leb_le _ _)) by lia.
    eexists _, _. split_and!; [done|lia|lia|].
    rewrite (wrapU_small 16 len), AppendBigEndian16_spec, lor_mask
      by (unfold kExtended16Marker; lia).
    unfold kExtended16Marker. by rewrite <-!app_assoc.
  - rewrite !(proj2 (Z.leb_gt _ _)) by lia.
    eexists _, _. split_and!; [done|lia|lia|].
    rewrite AppendBigEndian64_spec, lor_mask by (unfold kExtended64Marker; lia).
    unfold kExtended64Marker. by rewrite <-!app_assoc.
Qed.

Lemma rfc_decode_length_ok len m ext rest :
  0 ≤ len < 2 ^ 64 → rfc_length len = m :: ext →
  rfc_decode_length (m :: ext ++ rest) = Some (len, rest).
Proof.
  intros Hlen. unfold rfc_length, rfc_decode_length.
  destruct (Z.ltb_spec len 126); [|destruct (Z.ltb_spec len 65536)]; intros [= <- <-].
  - by rewrite (proj2 (Z.ltb_lt _ _)).
  - destruct (be_bytes_2_value len) as (b0 & b1 & -> & ->); [lia|]. cbn.
    rewrite ?drop_0. repeat f_equal; lia.
  - destruct (be_bytes_8_value len) as (b0&b1&b2&b3&b4&b5&b6&b7&->&->); [lia|]. cbn.
    rewrite ?drop_0. repeat f_equal; lia.
Qed.

Lemma EncodeFrame_rfc key op p :
  length key = 4%nat → Forall is_byte key → Forall is_byte p → Z.of_nat (length p) < 2 ^ 64 →
  ∃ bytes, EncodeFrame (Some key) op p = Ok bytes ∧
    rfc_server_decode bytes = Some (true, opcode_value op, p).
Proof.
  intros Hk Hkey Hp Hlen.
  destruct (EncodeFrame_layout key op p Hlen) as (m & ext & Hrfc & Hm & ->).
  eexists. split; [done|]. unfold rfc_server_decode. cbn [app].
  rewrite (proj2 (Z.ltb_ge _ _)) by lia. replace (128 + m - 128) with m by lia.
  rewrite (rfc_decode_length_ok (Z.of_nat (length p))) by (done || lia).
  rewrite drop_app_length', take_app_length' by done.
  rewrite length_imap, Z.eqb_refl, mask_unmask by done.
  repeat f_equal; by destruct op.
Qed.
End WebSocketFrame.

(** * Reassembly of fragmented messages: [WebSocketReassembler<N>] *)
Module Reassembler.
Local Open Scope nat_scope.
Section reassembler.
Context (N : nat).

Record t := Mk { data_ : list Z; size_ : nat; complete_ : bool }.

Definition empty : t := Mk (replicate N 0%Z) 0 false.

Definition Append (payload : list Z) (fin : bool) (r : t) : result t :=
  if usub N (size_ r) <? length payload
  then throw (runtime_error "WebSocket message exceeds reassembly buffer capacity" [])
  else
    mem ← blit (data_ r) (size_ r) payload;
    Ok (Mk mem (size_ r + length payload) fin).
Definition IsComplete (r : t) : bool := complete_ r.
(** The view covers the message; the rest of the array lies behind it. *)
Definition GetMessage (r : t) : string_view := SV (data_ r) (size_ r).
Definition Reset (r : t) : t := Mk (data_ r) 0 false.

Definition wf (r : t) : Prop := length (data_ r) = N ∧ size_ r ≤ N.

Lemma Append_spec p fin r :
  wf r →
  (size_ r + length p ≤ N ∧ ∃ r', Append p fin r = Ok r' ∧ wf r' ∧
     IsComplete r' = fin ∧ sv_text (GetMessage r') = sv_text (GetMessage r) ++ p) ∨
  (N < size_ r + length p ∧
   Append p fin r =
     throw (runtime_error "WebSocket message exceeds reassembly buffer capacity" [])).
Proof.
  intros [Hl Hs]. unfold Append. rewrite usub_le by done.
  destruct (Nat.ltb_spec (N - size_ r) (length p)) as [|Hfit]; [right; split; [lia|done]|].
  left. split; [lia|]. unfold blit. rewrite decide_True by lia. cbn [mbind result_bind].
  eexists. split_and!; [done| |done|].
  - unfold wf; simpl. rewrite !length_app, length_take, length_drop. lia.
  - unfold GetMessage, sv_text; simpl. list_lookup_solve.
Qed.
End reassembler.
End Reassembler.

(** * Properties *)
Import WebSocketFrame.

(** C19. A complete unmasked RFC 6455 frame at the start of the
    receive buffer, whatever follows it, is decoded to its FIN bit, opcode,
    exact payload and exact size, for every length encoding (7, 16, 64 bits). *)
Theorem decode_server_frame (f : bool) (op : WebSocketOpcode) (p rest : list Z) :
  Z.of_nat (length p) < 2 ^ 63 →
  ∃ fr, DecodeFrame (sv_of (server_frame f op p ++ rest)) = Ok (Some fr) ∧
    fin (header fr) = f ∧ opcode (header fr) = op ∧ sv_text (payload fr) = p ∧
    total_size fr = Z.of_nat (length (server_frame f op p)).
Proof.
  intros Hp. eexists. split.
  { apply (DecodeFrame_whole _ f op p rest); [apply sv_wf_of|done|by rewrite sv_text_of]. }
  split_and!; [done|done| |done]. cbn [payload]. rewrite sv_text_substr, sv_text_of.
  unfold server_frame. rewrite <-app_assoc, drop_app_length. by rewrite take_app_length.
Qed.

Lemma decode_server_frame_witness :
  Z.of_nat (length (replicate 200 7)) < 2 ^ 63 ∧
  ∃ fr, DecodeFrame (sv_of (server_frame true kBinary (replicate 200 7) ++ [1; 2])) =
          Ok (Some fr) ∧
    fin (header fr) = true ∧ opcode (header fr) = kBinary ∧
    sv_text (payload fr) = replicate 200 7 ∧
    total_size fr = Z.of_nat (length (server_frame true kBinary (replicate 200 7))).
Proof.
  assert (Z.of_nat (length (replicate 200 7)) < 2 ^ 63) as H by (vm_compute; reflexivity).
  split; [exact H|]. exact (decode_server_frame true kBinary (replicate 200 7) [1; 2] H).
Defined.

(** As long as a frame has arrived only in part, at whatever
    byte it is cut, decoding asks for more data: it neither throws nor
    delivers a frame. *)
Theorem decode_waits_for_frame (f : bool) (op : WebSocketOpcode) (p : list Z) (n : nat) :
  Z.of_nat (length p) < 2 ^ 63 → (n < length (server_frame f op p))%nat →
  DecodeFrame (sv_of (take n (server_frame f op p))) = Ok None.
Proof.
  intros Hp Hn. apply (DecodeFrame_short _ f op p); [apply sv_wf_of|done| |].
  - rewrite sv_text_of. exists (drop n (server_frame f op p)). by rewrite take_drop.
  - cbn [sv_of sv_size]. rewrite length_take. lia.
Qed.

Lemma decode_waits_for_frame_witness :
  Z.of_nat (length [1; 2; 3]) < 2 ^ 63 ∧ (4 < length (server_frame true kText [1; 2; 3]%Z))%nat ∧
  DecodeFrame (sv_of (take 4 (server_frame true kText [1; 2; 3]))) = Ok None.
Proof.
  assert (Z.of_nat (length [1; 2; 3]) < 2 ^ 63) as H by (vm_compute; reflexivity).
  assert (4 < length (server_frame true kText [1; 2; 3]%Z))%nat as H' by (vm_compute; lia).
  split; [exact H|]. split; [exact H'|].
  exact (decode_waits_for_frame true kText [1; 2; 3] 4 H H').
Defined.

(** On any bytes at all, decoding never reads outside the
    buffer; it asks for more, throws one of its three protocol errors, or
    delivers a frame, and a frame whose announced size fits in 64 bits lies
    inside the buffer and has exactly the announced payload length. *)
Theorem decode_frame_safe (data : list Z) :
  Forall is_byte data →
  (∃ e, e ∈ decode_errors ∧ DecodeFrame (sv_of data) = throw e) ∨
  DecodeFrame (sv_of data) = Ok None ∨
  ∃ fr, DecodeFrame (sv_of data) = Ok (Some fr) ∧
    (header_size (header fr) + payload_length (header fr) < 2 ^ 64 →
     total_size fr ≤ Z.of_nat (length data) ∧
     total_size fr = header_size (header fr) + Z.of_nat (length (sv_text (payload fr))) ∧
     Z.of_nat (length (sv_text (payload fr))) = payload_length (header fr)).
Proof.
  intros Hb. unfold DecodeFrame.
  destruct (DecodeFrameHeader_safe (sv_of data)) as [(e & He & ->)|[->|(h & -> & Hhs & Hsz & Hpl)]].
  - apply sv_wf_of.
  - by rewrite sv_text_of.
  - left. eauto.
  - tauto.
  - cbn [mbind result_bind sv_of sv_size].
    destruct (Z.ltb_spec (Z.of_nat (length data)) (wrapU 64 (header_size h + payload_length h)))
      as [|Hfit]; [tauto|].
    right. right. eexists. split; [done|]. simpl. intros Hov.
    rewrite wrapU_small in Hfit |- * by lia. unfold sv_text; simpl.
    rewrite length_take, length_drop. lia.
Qed.

Lemma decode_frame_safe_witness :
  Forall is_byte [129; 1; 65; 7] ∧
  ((∃ e, e ∈ decode_errors ∧ DecodeFrame (sv_of [129; 1; 65; 7]) = throw e) ∨
   DecodeFrame (sv_of [129; 1; 65; 7]) = Ok None ∨
   ∃ fr, DecodeFrame (sv_of [129; 1; 65; 7]) = Ok (Some fr) ∧
    (header_size (header fr) + payload_length (header fr) < 2 ^ 64 →
     total_size fr ≤ 4 ∧
     total_size fr = header_size (header fr) + Z.of_nat (length (sv_text (payload fr))) ∧
     Z.of_nat (length (sv_text (payload fr))) = payload_length (header fr))).
Proof.
  assert (Forall is_byte [129; 1; 65; 7]) as H
    by (repeat constructor; unfold is_byte; lia).
  split; [exact H|]. exact (decode_frame_safe [129; 1; 65; 7] H).
Defined.

(** The size of a frame is added up in 64 bits without a check:
    twelve bytes that announce a payload of 2^64-5 bytes are taken for a
    complete frame of total size 5, smaller than its own 10-byte header. *)
Theorem decode_length_overflow :
  ∃ fr, DecodeFrame (sv_of [129; 127; 255; 255; 255; 255; 255; 255; 255; 251; 65; 66])
          = Ok (Some fr) ∧
    payload_length (header fr) = 2 ^ 64 - 5 ∧ header_size (header fr) = 10 ∧
    total_size fr = 5 ∧ sv_text (payload fr) = [65; 66].
Proof. eexists. split; [vm_compute; reflexivity|]. by vm_compute. Qed.

(** C20. A frame the client encodes is read by an RFC 6455 server
    as a final frame with the same opcode and, once unmasked, the same
    payload, for every payload length and masking key. *)
Theorem encode_frame_rfc (key p : list Z) (op : WebSocketOpcode) :
  length key = 4%nat → Forall is_byte key → Forall is_byte p → Z.of_nat (length p) < 2 ^ 64 →
  ∃ bytes, EncodeFrame (Some key) op p = Ok bytes ∧
    rfc_server_decode bytes = Some (true, opcode_value op, p).
Proof. apply EncodeFrame_rfc. Qed.

Lemma encode_frame_rfc_witness :
  ∃ bytes, EncodeFrame (Some [1; 2; 3; 4]) kText (str "ping") = Ok bytes ∧
    rfc_server_decode bytes = Some (true, 1, str "ping").
Proof.
  apply (encode_frame_rfc [1; 2; 3; 4] (str "ping") kText);
    [reflexivity|repeat constructor; unfold is_byte; lia|
     vm_compute; repeat constructor; discriminate|vm_compute; reflexivity].
Defined.

(** A ping is answered by a pong and a close by a close,
    each a well-formed client frame that carries the same payload; no other
    frame is answered; and without random bytes nothing is sent but an
    exception is thrown. *)
Theorem control_response_correct (key : list Z) (fr : Frame) :
  length key = 4%nat → Forall is_byte key → Forall is_byte (sv_text (payload fr)) →
  Z.of_nat (length (sv_text (payload fr))) < 2 ^ 64 →
  match opcode (header fr) with
  | kPing => ∃ b, BuildControlResponse (Some key) fr = Ok (Some b) ∧
      rfc_server_decode b = Some (true, opcode_value kPong, sv_text (payload fr))
  | kClose => ∃ b, BuildControlResponse (Some key) fr = Ok (Some b) ∧
      rfc_server_decode b = Some (true, opcode_value kClose, sv_text (payload fr))
  | _ => BuildControlResponse (Some key) fr = Ok None
  end.
Proof.
  intros Hk Hkey Hp Hlen. unfold BuildControlResponse.
  destruct (opcode (header fr)); try done.
  - destruct (EncodeFrame_rfc key kClose (sv_text (payload fr))) as (b & -> & ?); eauto.
  - destruct (EncodeFrame_rfc key kPong (sv_text (payload fr))) as (b & -> & ?); eauto.
Qed.

Lemma control_response_correct_witness :
  let fr := MkFrame (Header true kPing 2 2) (sv_of [5; 6]) 4 in
  ∃ b, BuildControlResponse (Some [9; 8; 7; 6]) fr = Ok (Some b) ∧
    rfc_server_decode b = Some (true, 10, [5; 6]).
Proof.
  intros fr.
  apply (control_response_correct [9; 8; 7; 6] fr);
    [reflexivity|repeat constructor; unfold is_byte; lia|
     vm_compute; repeat constructor; discriminate|vm_compute; reflexivity].
Defined.

(** The fragments of a message, appended in order, the last one with FIN. *)
Fixpoint append_all (N : nat) (frags : list (list Z)) (last : list Z) (r : Reassembler.t)
    : result Reassembler.t :=
  match frags with
  | [] => Reassembler.Append N last true r
  | p :: frags' => r' ← Reassembler.Append N p false r; append_all N frags' last r'
  end.

(** After [Reset], the fragments of a message that fits the
    buffer are reassembled into their concatenation, complete exactly when
    the FIN fragment has been appended; a message that does not fit throws. *)
Theorem reassemble_message (N : nat) (frags : list (list Z)) (last : list Z) (r : Reassembler.t) :
  Reassembler.wf N r →
  (length (concat frags ++ last) ≤ N)%nat ∧
    (∃ r', append_all N frags last (Reassembler.Reset r) = Ok r' ∧ Reassembler.wf N r' ∧
      Reassembler.IsComplete r' = true ∧
      sv_text (Reassembler.GetMessage r') = concat frags ++ last) ∨
  (N < length (concat frags ++ last))%nat ∧
    append_all N frags last (Reassembler.Reset r) =
      throw (runtime_error "WebSocket message exceeds reassembly buffer capacity" []).
Proof.
  intros Hr.
  assert (Reassembler.wf N (Reassembler.Reset r)) as Hwf
    by (destruct Hr; split; simpl; lia).
  assert (sv_text (Reassembler.GetMessage (Reassembler.Reset r)) = []) as Ht by done.
  change (concat frags ++ last) with ([] ++ (concat frags ++ last)). rewrite <-Ht.
  generalize dependent (Reassembler.Reset r). clear r Hr. intros r Hwf _.
  revert r Hwf. induction frags as [|p frags IH]; intros r Hwf; simpl.
  - assert (Reassembler.size_ r = length (sv_text (Reassembler.GetMessage r))) as Hsz
      by (destruct Hwf; rewrite length_sv_text; [done|unfold sv_wf; simpl; lia]).
    rewrite length_app, <-Hsz.
    destruct (Reassembler.Append_spec N last true r Hwf)
      as [(? & r' & ? & ? & ? & ?)|[? ?]]; [left|right]; eauto 8.
  - assert (Reassembler.size_ r = length (sv_text (Reassembler.GetMessage r))) as Hsz
      by (destruct Hwf; rewrite length_sv_text; [done|unfold sv_wf; simpl; lia]).
    destruct (Reassembler.Append_spec N p false r Hwf)
      as [(? & r' & -> & Hwf' & _ & Ht)|[? ->]]; cbn [mbind result_bind].
    + destruct (IH r' Hwf') as [IH'|IH']; rewrite Ht in IH';
        rewrite <-!app_assoc in IH'; rewrite <-?app_assoc; [left|right]; exact IH'.
    + right. split; [|done]. rewrite !length_app. lia.
Qed.

Lemma reassemble_message_witness :
  Reassembler.wf 5 (Reassembler.empty 5) ∧
  ∃ r', append_all 5 [[1; 2]; [3]] [4] (Reassembler.Reset (Reassembler.empty 5)) = Ok r' ∧
    sv_text (Reassembler.GetMessage r') = [1; 2; 3; 4].
Proof.
  assert (Reassembler.wf 5 (Reassembler.empty 5)) as H by (vm_compute; lia).
  split; [exact H|].
  destruct (reassemble_message 5 [[1; 2]; [3]] [4] _ H) as [(_ & r' & E & _ & _ & T)|[Hbad _]].
  - exists r'. split; [exact E|exact T].
  - vm_compute in Hbad. lia.
Defined.
