(* ===== verification/OrderBook.v ===== *)
(** * The order book: okx/marketdata/order_book.hpp, order_book.cpp

    [PriceLevels<Compare>], a fixed array of 32 levels kept sorted by a binary
    search, and [OrderBook], one such array for each side.  The array code
    refines [set_ref], the same update on a plain sorted list. *)

From Stdlib Require Import SpecFloat.
From S2P Require Import Prelude Float64.

Record Level := MkLevel { price : double; size : double }.
#[export] Instance Level_inhabited : Inhabited Level := populate (MkLevel fzero fzero).

(** [std::less<>] and [std::greater<>] on prices that are not NaN. *)
Class PriceOrder (Compare : double → double → bool) := {
  po_irrefl x : Compare x x = false;
  po_trans x y z : Compare x y = true → Compare y z = true → Compare x z = true;
  po_feq_l x y z : feq x y = true → Compare y z = Compare x z;
  po_feq_r x y z : feq x y = true → Compare z y = Compare z x;
  po_not_feq x y : Compare x y = true → feq x y = false;
  po_total x y : is_nan x = false → is_nan y = false →
    Compare x y = false → feq x y = false → Compare y x = true;
}.
#[export] Instance less_order : PriceOrder flt := {
  po_irrefl := flt_irrefl; po_trans := flt_trans; po_feq_l := flt_feq_l;
  po_feq_r := flt_feq_r; po_not_feq := flt_not_feq; po_total := flt_total }.
#[export, refine] Instance greater_order : PriceOrder fgt := {
  po_irrefl := flt_irrefl }.
Proof.
  - unfold fgt. intros. by eapply flt_trans.
  - unfold fgt. intros. by apply flt_feq_r.
  - unfold fgt. intros. by apply flt_feq_l.
  - unfold fgt. intros x y H. apply flt_not_feq in H.
    apply not_true_iff_false. intros ?%feq_sym. congruence.
  - unfold fgt. intros x y Hx Hy Hl He. apply flt_total; try done.
    apply not_true_iff_false. intros ?%feq_sym. congruence.
Defined.

Module PriceLevels.
Definition kCapacity : nat := 32.

Record t := Mk { levels_ : list Level; count_ : nat }.
Definition empty : t := Mk (replicate kCapacity (MkLevel fzero fzero)) 0.

Section levels.
Context (Compare : double → double → bool).

Definition Clear (pl : t) : t := Mk (levels_ pl) 0.

Definition LowerBound (p : double) (pl : t) : result nat :=
  lower_bound (count_ pl) (λ mid, l ← aget (levels_ pl) mid; Ok (Compare (price l) p)).

Definition InsertAt (i : nat) (level : Level) (pl : t) : result t :=
  if kCapacity <=? i then Ok pl
  else
    let last := if count_ pl =? kCapacity then count_ pl - 1 else count_ pl in
    levels ← shift_right i last (levels_ pl);
    levels ← aset levels i level;
    Ok (Mk levels (if count_ pl <? kCapacity then count_ pl + 1 else count_ pl)).

Definition RemoveAt (i : nat) (pl : t) : result t :=
  levels ← shift_left i (count_ pl) (levels_ pl);
  Ok (Mk levels (usub (count_ pl) 1)).

Definition Set_ (p s : double) (pl : t) : result t :=
  i ← LowerBound p pl;
  found ← (if i <? count_ pl then l ← aget (levels_ pl) i; Ok (feq (price l) p) else Ok false);
  if found : bool then
    if feq s fzero then RemoveAt i pl
    else
      l ← aget (levels_ pl) i;
      levels ← aset (levels_ pl) i (MkLevel (price l) s);
      Ok (Mk levels (count_ pl))
  else InsertAt i (MkLevel p s) pl.

Definition Best (pl : t) : result (option double) :=
  if count_ pl =? 0 then Ok None else l ← aget (levels_ pl) 0; Ok (Some (price l)).

(** ** Reference: the update on a sorted list *)
Fixpoint set_ref (p s : double) (l : list Level) : list Level :=
  match l with
  | [] => [MkLevel p s]
  | x :: r =>
      if Compare (price x) p then x :: set_ref p s r
      else if feq (price x) p then
        if feq s fzero then r else MkLevel (price x) s :: r
      else MkLevel p s :: x :: r
  end.

Definition contents (pl : t) : list Level := take (count_ pl) (levels_ pl).
Definition before (x y : Level) : Prop := Compare (price x) (price y) = true.
Definition wf (pl : t) : Prop :=
  length (levels_ pl) = kCapacity ∧ count_ pl ≤ kCapacity ∧
  StronglySorted before (contents pl) ∧
  Forall (λ x, is_nan (price x) = false) (contents pl).

Lemma levels_wf_empty : wf empty ∧ contents empty = [].
Proof. split; [|done]. split_and!; [done|simpl; lia|constructor|constructor]. Qed.
Lemma wf_Clear pl : wf pl → wf (Clear pl) ∧ contents (Clear pl) = [].
Proof.
  intros (Hl & Hc & _ & _). split; [|done].
  split_and!; [done|simpl; lia|constructor|constructor].
Qed.

Lemma levels_length_contents pl : wf pl → length (contents pl) = count_ pl.
Proof. intros (Hl & Hc & _). unfold contents. rewrite length_take. lia. Qed.

Context `{!PriceOrder Compare}.

(** ** The reference keeps the list sorted *)
Lemma set_ref_elem p s l x :
  x ∈ set_ref p s l → x ∈ l ∨ price x = p ∨ ∃ y, y ∈ l ∧ price x = price y.
Proof using.
  induction l as [|y l IH]; simpl.
  { intros ->%list_elem_of_singleton. auto. }
  setoid_rewrite elem_of_cons.
  destruct (Compare (price y) p); [|destruct (feq (price y) p); [destruct (feq s fzero)|]];
    rewrite ?elem_of_cons.
  - intros [->|H]; [auto|]. destruct (IH H) as [?|[?|(z & ? & ?)]]; eauto 6.
  - auto.
  - intros [->|H]; [|auto]. right. right. exists y. auto.
  - intros [->|H]; auto.
Qed.

Lemma set_ref_nonan p s l :
  is_nan p = false → Forall (λ x, is_nan (price x) = false) l →
  Forall (λ x, is_nan (price x) = false) (set_ref p s l).
Proof using.
  intros Hp Hl. rewrite Forall_forall in *. intros x Hx.
  destruct (set_ref_elem _ _ _ _ Hx) as [?|[->|(y & ? & ->)]]; auto.
Qed.

Lemma set_ref_sorted p s l :
  is_nan p = false → Forall (λ x, is_nan (price x) = false) l →
  StronglySorted before l → StronglySorted before (set_ref p s l).
Proof.
  intros Hp. induction l as [|x l IH]; simpl; intros Hn Hs; [repeat constructor|].
  apply Forall_cons in Hn as [Hx Hn]. apply StronglySorted_inv in Hs as [Hs Hb].
  destruct (Compare (price x) p) eqn:E.
  - constructor; [auto|]. rewrite Forall_forall in *. intros y Hy.
    destruct (set_ref_elem _ _ _ _ Hy) as [?|[Hy'|(z & Hz & Hy')]]; [auto|..];
      unfold before; rewrite Hy'; [done|by apply Hb].
  - destruct (feq (price x) p) eqn:E'.
    + case_match; [done|]. by constructor.
    + assert (Compare p (price x) = true) by (by apply po_total).
      constructor; [by constructor|]. constructor; [done|].
      eapply Forall_impl; [done|]. intros y Hy. unfold before in *. simpl.
      by eapply po_trans.
Qed.

(** Where the reference acts: at the first level that is not before [p]. *)
Lemma set_ref_split p s l r :
  (∀ i x, i < r → l !! i = Some x → Compare (price x) p = true) →
  (∀ x, l !! r = Some x → Compare (price x) p = false) → r ≤ length l →
  set_ref p s l = take r l ++
    match drop r l with
    | x :: rest =>
        if feq (price x) p then if feq s fzero then rest else MkLevel (price x) s :: rest
        else MkLevel p s :: x :: rest
    | [] => [MkLevel p s]
    end.
Proof using.
  revert r. induction l as [|x l IH]; intros r Hlo Hhi Hr; simpl in *.
  { by destruct r. }
  destruct r as [|r]; simpl.
  - by rewrite (Hhi x eq_refl).
  - rewrite (Hlo 0 x ltac:(lia) eq_refl). f_equal.
    apply IH; [|done|lia]. intros i y Hi Hy. apply (Hlo (S i) y); [lia|done].
Qed.

(** ** The array code refines the reference *)
Lemma LowerBound_spec p pl :
  wf pl → is_nan p = false →
  ∃ r, LowerBound p pl = Ok r ∧ r ≤ count_ pl ∧
    (∀ i x, i < r → contents pl !! i = Some x → Compare (price x) p = true) ∧
    (∀ x, contents pl !! r = Some x → Compare (price x) p = false).
Proof.
  intros (Hl & Hc & Hs & Hn) Hp.
  assert (∀ i, i < count_ pl → levels_ pl !! i = Some (levels_ pl !!! i) ∧
    contents pl !! i = Some (levels_ pl !!! i)) as Hget.
  { intros i Hi. rewrite <-list_lookup_lookup_total_lt by lia. split; [done|].
    unfold contents. by rewrite lookup_take_lt by done. }
  destruct (lower_bound_spec (count_ pl)
    (λ mid, l ← aget (levels_ pl) mid; Ok (Compare (price l) p))
    (λ i, Compare (price (levels_ pl !!! i)) p)) as (r & Hr & Hle & Hlo & Hhi).
  - intros i Hi. destruct (Hget i Hi) as [H _]. by rewrite (aget_Some _ _ _ H).
  - intros i j Hij Hj Hcmp. destruct (decide (i = j)) as [->|]; [done|].
    eapply po_trans; [|done].
    destruct (Hget i ltac:(lia)) as [_ Hi'], (Hget j Hj) as [_ Hj'].
    exact (StronglySorted_lookup_lt _ _ _ _ _ _ Hs Hi' Hj' ltac:(lia)).
  - exists r. split_and!; [done|done|..].
    + intros i x Hi Hx. destruct (Hget i ltac:(lia)) as [_ H]. rewrite Hx in H.
      injection H as ->. by apply Hlo.
    + intros x Hx. assert (r < count_ pl) as Hlt.
      { apply lookup_lt_Some in Hx. unfold contents in Hx. rewrite length_take in Hx. lia. }
      destruct (Hget r Hlt) as [_ H]. rewrite Hx in H. injection H as ->. by apply Hhi.
Qed.

Lemma InsertAt_spec i level pl :
  length (levels_ pl) = kCapacity → count_ pl ≤ kCapacity → i ≤ count_ pl →
  ∃ pl', InsertAt i level pl = Ok pl' ∧ length (levels_ pl') = kCapacity ∧
    count_ pl' ≤ kCapacity ∧
    contents pl' = take kCapacity (take i (contents pl) ++ level :: drop i (contents pl)).
Proof using.
  intros Hl Hc Hi. unfold InsertAt.
  destruct (Nat.leb_spec kCapacity i) as [Hge|Hlt].
  { exists pl. split_and!; [done..|]. unfold contents. list_lookup_solve. }
  destruct (Nat.eqb_spec (count_ pl) kCapacity) as [Hfull|Hroom].
  - rewrite (proj2 (Nat.ltb_ge _ _)) by lia.
    destruct (shift_right_insert i (count_ pl - 1) (levels_ pl) level)
      as (l' & -> & Hl' & Hins); [lia|lia|]. cbn [mbind result_bind].
    rewrite aset_lt by lia. cbn [mbind result_bind]. eexists. split; [done|]. simpl.
    rewrite length_insert. split_and!; [lia|lia|]. unfold contents at 1; simpl.
    replace (count_ pl) with (S (count_ pl - 1)) at 1 by lia. rewrite Hins.
    unfold contents. list_lookup_solve.
  - rewrite (proj2 (Nat.ltb_lt _ _)) by lia.
    destruct (shift_right_insert i (count_ pl) (levels_ pl) level)
      as (l' & -> & Hl' & Hins); [lia|lia|]. cbn [mbind result_bind].
    rewrite aset_lt by lia. cbn [mbind result_bind]. eexists. split; [done|]. simpl.
    rewrite length_insert. split_and!; [lia|lia|]. unfold contents at 1; simpl.
    rewrite Nat.add_1_r, Hins. unfold contents. list_lookup_solve.
Qed.

(** The arrays keep their size and the index stays inside whatever the prices
    are, NaN included. *)
Definition sized (pl : t) : Prop :=
  length (levels_ pl) = kCapacity ∧ count_ pl ≤ kCapacity.
Lemma Set_sized p s pl : sized pl → ∃ pl', Set_ p s pl = Ok pl' ∧ sized pl'.
Proof using.
  intros [Hl Hc]. unfold Set_.
  destruct (lower_bound_le (count_ pl)
    (λ mid, l ← aget (levels_ pl) mid; Ok (Compare (price l) p))) as (r & HLB & Hr).
  { intros i Hi. rewrite aget_lt by lia. by eexists. }
  unfold LowerBound. rewrite HLB. cbn [mbind result_bind].
  destruct (InsertAt_spec r (MkLevel p s) pl Hl Hc Hr) as (pl' & Hins & ? & ? & _).
  destruct (Nat.ltb_spec r (count_ pl)) as [Hlt|Hge]; cbn [mbind result_bind];
    [|rewrite Hins; by exists pl'].
  rewrite aget_lt by lia. cbn [mbind result_bind].
  destruct (feq _ p); [destruct (feq s fzero)|rewrite Hins; by exists pl'].
  - unfold RemoveAt. rewrite usub_le by lia.
    destruct (shift_left_remove r (count_ pl) (levels_ pl)) as (l' & -> & Hl' & _); [lia|lia|].
    cbn [mbind result_bind]. eexists. split; [done|]. split; simpl; lia.
  - rewrite aset_lt by lia. cbn [mbind result_bind]. eexists. split; [done|].
    split; simpl; [by rewrite length_insert|done].
Qed.
Lemma Best_sized pl : sized pl → ∃ r, Best pl = Ok r.
Proof using.
  intros [Hl Hc]. unfold Best. destruct (Nat.eqb_spec (count_ pl) 0); [by eexists|].
  rewrite aget_lt; [by eexists|]. rewrite Hl. unfold kCapacity. lia.
Qed.

Lemma Set_contents p s pl :
  wf pl → is_nan p = false →
  ∃ pl', Set_ p s pl = Ok pl' ∧ length (levels_ pl') = kCapacity ∧ count_ pl' ≤ kCapacity ∧
    contents pl' = take kCapacity (set_ref p s (contents pl)).
Proof.
  intros Hwf Hp. pose proof (levels_length_contents pl Hwf) as Hlc.
  destruct (LowerBound_spec p pl Hwf Hp) as (r & HLB & Hr & Hlo & Hhi).
  pose proof Hwf as (Hl & Hc & Hs & Hn).
  rewrite (set_ref_split p s (contents pl) r Hlo Hhi) by lia.
  unfold Set_. rewrite HLB. cbn [mbind result_bind].
  destruct (Nat.ltb_spec r (count_ pl)) as [Hlt|Hge].
  - destruct (lookup_lt_is_Some_2 (levels_ pl) r) as [x Hx]; [lia|].
    rewrite (aget_Some _ _ _ Hx). cbn [mbind result_bind].
    assert (drop r (contents pl) = x :: drop (S r) (contents pl)) as ->
      by (apply drop_S; unfold contents; by rewrite lookup_take_lt).
    destruct (feq (price x) p); [destruct (feq s fzero)|].
    + unfold RemoveAt. rewrite usub_le by lia.
      destruct (shift_left_remove r (count_ pl) (levels_ pl)) as (l' & -> & Hl' & Hrem);
        [lia|lia|]. cbn [mbind result_bind]. eexists. split; [done|]. simpl.
      split_and!; [lia|lia|]. unfold contents at 1; simpl. rewrite Hrem.
      unfold contents. list_lookup_solve.
    + rewrite aset_lt by lia. cbn [mbind result_bind]. eexists. split; [done|]. simpl.
      rewrite length_insert. split_and!; [lia|lia|]. unfold contents. simpl. list_lookup_solve.
    + destruct (InsertAt_spec r (MkLevel p s) pl Hl Hc Hr) as (pl' & ? & ? & ? & Hins).
      exists pl'. split_and!; [done..|]. rewrite Hins.
      rewrite (drop_S (contents pl) x r); [done|]. unfold contents. by rewrite lookup_take_lt.
  - cbn [mbind result_bind].
    destruct (InsertAt_spec r (MkLevel p s) pl Hl Hc Hr) as (pl' & ? & ? & ? & Hins).
    exists pl'. split_and!; [done..|]. rewrite Hins. by rewrite (drop_ge (contents pl)) by lia.
Qed.

Lemma Set_refines p s pl :
  wf pl → is_nan p = false →
  ∃ pl', Set_ p s pl = Ok pl' ∧ wf pl' ∧
    contents pl' = take kCapacity (set_ref p s (contents pl)).
Proof.
  intros Hwf Hp. destruct (Set_contents p s pl Hwf Hp) as (pl' & ? & ? & ? & Hc).
  exists pl'. split_and!; [done| |done]. pose proof Hwf as (_ & _ & Hs & Hn).
  unfold wf. rewrite Hc. split_and!; [done|done|..].
  - by apply StronglySorted_take, set_ref_sorted.
  - by apply Forall_take, set_ref_nonan.
Qed.

(** ** What a reader of the levels sees *)
Lemma Best_spec pl :
  wf pl → Best pl = Ok (price <$> head (contents pl)).
Proof using.
  intros (Hl & Hc & _). unfold Best, contents.
  destruct (Nat.eqb_spec (count_ pl) 0) as [->|]; [done|].
  destruct (lookup_lt_is_Some_2 (levels_ pl) 0) as [x Hx]; [unfold kCapacity in *; lia|].
  rewrite (aget_Some _ _ _ Hx). cbn [mbind result_bind].
  destruct (levels_ pl) as [|y l]; [done|]. injection Hx as ->.
  by destruct (count_ pl).
Qed.

(** The size shown at a price. *)
Definition level_size (p : double) (l : list Level) : option double :=
  match filter (λ x, feq (price x) p = true) l with x :: _ => Some (size x) | [] => None end.

Lemma level_size_cons p x l :
  level_size p (x :: l) = if feq (price x) p then Some (size x) else level_size p l.
Proof using.
  unfold level_size. rewrite filter_cons. by destruct (feq (price x) p).
Qed.

Lemma level_size_absent p l :
  Forall (λ x, feq (price x) p = false) l → level_size p l = None.
Proof using.
  induction 1 as [|x l Hx _ IH]; [done|]. by rewrite level_size_cons, Hx.
Qed.

Lemma set_ref_size_at p s l :
  is_nan p = false → Forall (λ x, is_nan (price x) = false) l → StronglySorted before l →
  level_size p (set_ref p s l) =
    if feq s fzero && bool_decide (is_Some (level_size p l)) then None else Some s.
Proof.
  intros Hp. induction l as [|x l IH]; intros Hn Hs.
  { simpl. rewrite level_size_cons, feq_refl by done. by destruct (feq s fzero). }
  apply Forall_cons in Hn as [Hx Hn]. apply StronglySorted_inv in Hs as [Hs Hb].
  simpl. destruct (Compare (price x) p) eqn:E.
  { rewrite !level_size_cons. rewrite (po_not_feq _ _ E). auto. }
  rewrite (level_size_cons p x l). destruct (feq (price x) p) eqn:E'.
  - rewrite bool_decide_true by eauto. destruct (feq s fzero); simpl.
    + apply level_size_absent. eapply Forall_impl; [exact Hb|]. intros y Hy.
      apply not_true_iff_false. intros Hyp. apply po_not_feq in Hy.
      by rewrite (feq_trans _ p _ E' (feq_sym _ _ Hyp)) in Hy.
    + rewrite level_size_cons. cbn [price size]. by rewrite E'.
  - rewrite level_size_cons, feq_refl by done.
    rewrite (level_size_absent p l), bool_decide_false.
    + by rewrite andb_false_r.
    + by intros [].
    + eapply Forall_impl; [exact Hb|]. intros y Hy.
      assert (Compare p (price x) = true) as Hpx by (by apply po_total).
      apply not_true_iff_false. intros Hyp%feq_sym.
      pose proof (po_trans _ _ _ Hpx Hy) as Hpy. apply po_not_feq in Hpy. congruence.
Qed.

Lemma set_ref_size_other p q s l :
  feq p q = false → level_size q (set_ref p s l) = level_size q l.
Proof using.
  intros Hpq. induction l as [|x l IH]; simpl.
  { rewrite level_size_cons. cbn [price]. by rewrite Hpq. }
  destruct (Compare (price x) p); [by rewrite !level_size_cons, IH|].
  destruct (feq (price x) p) eqn:E.
  - assert (feq (price x) q = false) as Hxq.
    { apply not_true_iff_false. intros H.
      by rewrite (feq_trans _ _ _ (feq_sym _ _ E) H) in Hpq. }
    destruct (feq s fzero); rewrite !level_size_cons; cbn [price]; by rewrite Hxq.
  - rewrite (level_size_cons q (MkLevel p s)). cbn [price]. by rewrite Hpq.
Qed.

Lemma length_set_ref p s l : length (set_ref p s l) ≤ S (length l).
Proof using. induction l as [|x l IH]; simpl; [lia|]. repeat case_match; simpl; lia. Qed.

Lemma head_best l x y :
  StronglySorted before l → head l = Some x → y ∈ l → Compare (price y) (price x) = false.
Proof.
  intros Hs Hx Hy. destruct l as [|z l]; [done|]. injection Hx as ->.
  apply StronglySorted_inv in Hs as [_ Hb]. apply elem_of_cons in Hy as [->|Hy];
    [apply po_irrefl|].
  rewrite Forall_forall in Hb. specialize (Hb y Hy). unfold before in Hb.
  apply not_true_iff_false. intros H. pose proof (po_trans _ _ _ Hb H) as H'.
  by rewrite po_irrefl in H'.
Qed.
End levels.
End PriceLevels.

(** * [OrderBook] *)
Module OrderBook.
Record t := Mk {
  bids_ : PriceLevels.t;
  asks_ : PriceLevels.t;
  last_seq_id_ : Z;
  has_snapshot_ : bool;
}.
Definition empty : t := Mk PriceLevels.empty PriceLevels.empty (-1) false.

Definition BeginSnapshot (b : t) : t :=
  Mk (PriceLevels.Clear (bids_ b)) (PriceLevels.Clear (asks_ b)) (last_seq_id_ b) true.
Definition SetBid (p s : double) (b : t) : result t :=
  bids ← PriceLevels.Set_ fgt p s (bids_ b);
  Ok (Mk bids (asks_ b) (last_seq_id_ b) (has_snapshot_ b)).
Definition SetAsk (p s : double) (b : t) : result t :=
  asks ← PriceLevels.Set_ flt p s (asks_ b);
  Ok (Mk (bids_ b) asks (last_seq_id_ b) (has_snapshot_ b)).
Definition SetSeqId (seq_id : Z) (b : t) : t :=
  Mk (bids_ b) (asks_ b) seq_id (has_snapshot_ b).
Definition HasSnapshot (b : t) : bool := has_snapshot_ b.
Definition LastSeqId (b : t) : Z := last_seq_id_ b.
Definition BestBid (b : t) : result (option double) := PriceLevels.Best (bids_ b).
Definition BestAsk (b : t) : result (option double) := PriceLevels.Best (asks_ b).

Definition wf (b : t) : Prop :=
  PriceLevels.wf fgt (bids_ b) ∧ PriceLevels.wf flt (asks_ b).
Definition bids (b : t) : list Level := PriceLevels.contents (bids_ b).
Definition asks (b : t) : list Level := PriceLevels.contents (asks_ b).

Lemma book_wf_empty : wf empty.
Proof. split; apply PriceLevels.levels_wf_empty. Qed.
Lemma BeginSnapshot_spec b :
  wf b → wf (BeginSnapshot b) ∧ bids (BeginSnapshot b) = [] ∧ asks (BeginSnapshot b) = [].
Proof.
  intros [Hb Ha]. destruct (PriceLevels.wf_Clear fgt _ Hb), (PriceLevels.wf_Clear flt _ Ha).
  done.
Qed.
Lemma SetBid_spec p s b :
  wf b → is_nan p = false →
  ∃ b', SetBid p s b = Ok b' ∧ wf b' ∧ asks b' = asks b ∧
    bids b' = take PriceLevels.kCapacity (PriceLevels.set_ref fgt p s (bids b)) ∧
    last_seq_id_ b' = last_seq_id_ b ∧ has_snapshot_ b' = has_snapshot_ b.
Proof.
  intros [Hb Ha] Hp. unfold SetBid.
  destruct (PriceLevels.Set_refines fgt p s (bids_ b) Hb Hp) as (pl & -> & ? & ?).
  cbn [mbind result_bind]. eexists. split; [done|]. done.
Qed.
Lemma SetAsk_spec p s b :
  wf b → is_nan p = false →
  ∃ b', SetAsk p s b = Ok b' ∧ wf b' ∧ bids b' = bids b ∧
    asks b' = take PriceLevels.kCapacity (PriceLevels.set_ref flt p s (asks b)) ∧
    last_seq_id_ b' = last_seq_id_ b ∧ has_snapshot_ b' = has_snapshot_ b.
Proof.
  intros [Hb Ha] Hp. unfold SetAsk.
  destruct (PriceLevels.Set_refines flt p s (asks_ b) Ha Hp) as (pl & -> & ? & ?).
  cbn [mbind result_bind]. eexists. split; [done|]. done.
Qed.

(** Memory safety needs the array sizes only. *)
Definition sized (b : t) : Prop :=
  PriceLevels.sized (bids_ b) ∧ PriceLevels.sized (asks_ b).
Lemma sized_wf b : wf b → sized b.
Proof. by intros [(? & ? & _) (? & ? & _)]. Qed.
Lemma BeginSnapshot_sized b : sized b → sized (BeginSnapshot b).
Proof. intros [[? _] [? _]]. by split; split; simpl; try lia. Qed.
Lemma SetBid_sized p s b : sized b → ∃ b', SetBid p s b = Ok b' ∧ sized b'.
Proof.
  intros [Hb Ha]. unfold SetBid. destruct (PriceLevels.Set_sized fgt p s _ Hb) as (pl & -> & ?).
  by eexists.
Qed.
Lemma SetAsk_sized p s b : sized b → ∃ b', SetAsk p s b = Ok b' ∧ sized b'.
Proof.
  intros [Hb Ha]. unfold SetAsk. destruct (PriceLevels.Set_sized flt p s _ Ha) as (pl & -> & ?).
  by eexists.
Qed.

(** ** Sequences of book operations *)
Inductive op :=
  | OpSnapshot | OpBid (p s : double) | OpAsk (p s : double) | OpSeq (n : Z).
Definition step (o : op) (b : t) : result t :=
  match o with
  | OpSnapshot => Ok (BeginSnapshot b)
  | OpBid p s => SetBid p s b
  | OpAsk p s => SetAsk p s b
  | OpSeq n => Ok (SetSeqId n b)
  end.
Fixpoint run (ops : list op) (b : t) : result t :=
  match ops with [] => Ok b | o :: ops' => b' ← step o b; run ops' b' end.
Definition op_ok (o : op) : Prop :=
  match o with OpBid p _ | OpAsk p _ => is_nan p = false | _ => True end.

(** The same on two sorted lists, a number and a flag. *)
Record view := MkView { v_bids : list Level; v_asks : list Level; v_seq_id : Z; v_snapshot : bool }.
Definition view_of (b : t) : view := MkView (bids b) (asks b) (LastSeqId b) (HasSnapshot b).
Definition view_step (x : view) (o : op) : view :=
  match o with
  | OpSnapshot => MkView [] [] (v_seq_id x) true
  | OpBid p s => MkView (take 32 (PriceLevels.set_ref fgt p s (v_bids x))) (v_asks x) (v_seq_id x) (v_snapshot x)
  | OpAsk p s => MkView (v_bids x) (take 32 (PriceLevels.set_ref flt p s (v_asks x))) (v_seq_id x) (v_snapshot x)
  | OpSeq n => MkView (v_bids x) (v_asks x) n (v_snapshot x)
  end.

Lemma view_refines ops b :
  wf b → Forall op_ok ops → ∃ b', run ops b = Ok b' ∧ wf b' ∧ view_of b' = foldl view_step (view_of b) ops.
Proof.
  intros Hb Hops. revert b Hb. induction Hops as [|o ops Ho _ IH]; intros b Hb; [by eexists|].
  assert (∃ b1, step o b = Ok b1 ∧ wf b1 ∧ view_of b1 = view_step (view_of b) o) as (b1 & H1 & Hwf & Hv).
  { destruct o as [|p s|p s|n]; simpl in *.
    - by eexists; split; [done|]; split; [by apply BeginSnapshot_spec|].
    - destruct (SetBid_spec p s b Hb Ho) as (b' & -> & ? & Ha & Hbid & Hn & Hs). exists b'. split; [done|].
      split; [done|]. unfold view_of, LastSeqId, HasSnapshot. by rewrite Ha, Hbid, Hn, Hs.
    - destruct (SetAsk_spec p s b Hb Ho) as (b' & -> & ? & Hbid & Ha & Hn & Hs). exists b'. split; [done|].
      split; [done|]. unfold view_of, LastSeqId, HasSnapshot. by rewrite Ha, Hbid, Hn, Hs.
    - by eexists. }
  cbn [run foldl]. rewrite H1. cbn [mbind result_bind]. rewrite <-Hv. by apply IH.
Qed.
End OrderBook.

(** * Properties *)

(** C27. On sorted levels, [PriceLevels::Set] with either order and a price
    that is not NaN never leaves its array, keeps the levels strictly sorted and holds the 32
    best entries of the reference update on the sorted list of levels. *)
Theorem levels_set_refines (Compare : double → double → bool) `{!PriceOrder Compare}
    (p s : double) (pl : PriceLevels.t) :
  PriceLevels.wf Compare pl → is_nan p = false →
  ∃ pl', PriceLevels.Set_ Compare p s pl = Ok pl' ∧ PriceLevels.wf Compare pl' ∧
    PriceLevels.contents pl' =
      take PriceLevels.kCapacity (PriceLevels.set_ref Compare p s (PriceLevels.contents pl)).
Proof. apply PriceLevels.Set_refines. apply _. Qed.

Lemma levels_set_refines_witness :
  ∃ pl', PriceLevels.Set_ flt (f_of_Z 5) (f_of_Z 2) PriceLevels.empty = Ok pl' ∧
    PriceLevels.wf flt pl' ∧ PriceLevels.contents pl' = [MkLevel (f_of_Z 5) (f_of_Z 2)].
Proof.
  exact (levels_set_refines flt (f_of_Z 5) (f_of_Z 2) PriceLevels.empty
    (proj1 (PriceLevels.levels_wf_empty flt)) eq_refl).
Defined.

(** While fewer than 32 levels are held, setting a price
    shows the new size there (or nothing, when an existing level is set to
    size 0) and leaves the size shown at every other price unchanged. *)
Theorem levels_set_lookup (Compare : double → double → bool) `{!PriceOrder Compare}
    (p s : double) (pl : PriceLevels.t) :
  PriceLevels.wf Compare pl → is_nan p = false →
  PriceLevels.count_ pl < PriceLevels.kCapacity →
  ∃ pl', PriceLevels.Set_ Compare p s pl = Ok pl' ∧
    PriceLevels.level_size p (PriceLevels.contents pl') =
      (if feq s fzero && bool_decide (is_Some (PriceLevels.level_size p (PriceLevels.contents pl)))
       then None else Some s) ∧
    ∀ q, feq p q = false →
      PriceLevels.level_size q (PriceLevels.contents pl') =
      PriceLevels.level_size q (PriceLevels.contents pl).
Proof.
  intros Hwf Hp Hroom. pose proof (PriceLevels.levels_length_contents _ _ Hwf) as Hl.
  destruct (PriceLevels.Set_refines Compare p s pl Hwf Hp) as (pl' & HS & _ & Hc).
  rewrite take_ge in Hc
    by (pose proof (PriceLevels.length_set_ref Compare p s (PriceLevels.contents pl)); lia).
  destruct Hwf as (_ & _ & Hs & Hn).
  exists pl'. rewrite Hc. split_and!; [done|by apply PriceLevels.set_ref_size_at|].
  intros q. apply PriceLevels.set_ref_size_other.
Qed.

Lemma levels_set_lookup_witness :
  ∃ pl', PriceLevels.Set_ fgt (f_of_Z 5) (f_of_Z 2) PriceLevels.empty = Ok pl' ∧
    PriceLevels.level_size (f_of_Z 5) (PriceLevels.contents pl') = Some (f_of_Z 2) ∧
    ∀ q, feq (f_of_Z 5) q = false →
      PriceLevels.level_size q (PriceLevels.contents pl') = None.
Proof.
  apply (levels_set_lookup fgt (f_of_Z 5) (f_of_Z 2) PriceLevels.empty);
    [exact (proj1 (PriceLevels.levels_wf_empty fgt))|reflexivity|vm_compute; lia].
Defined.

(** C28. After any sequence of snapshot, bid, ask and sequence operations with
    prices that are not NaN, no operation has failed, and the book is what the
    same operations make of two lists: a price that its side does not have is
    inserted at its place, whatever its size, one that it has gets the new
    size or, with size 0, is removed (only the 32 best levels of a side are
    kept), and a snapshot empties both.
    The bids are strictly falling and the asks strictly rising, the best bid
    is the highest and the best ask the lowest price of its side. *)
Theorem book_best_correct (ops : list OrderBook.op) :
  Forall OrderBook.op_ok ops →
  ∃ b, OrderBook.run ops OrderBook.empty = Ok b ∧
    OrderBook.view_of b = foldl OrderBook.view_step (OrderBook.MkView [] [] (-1) false) ops ∧
    length (OrderBook.bids b) ≤ 32 ∧ length (OrderBook.asks b) ≤ 32 ∧
    StronglySorted (λ x y, flt (price y) (price x) = true) (OrderBook.bids b) ∧
    StronglySorted (λ x y, flt (price x) (price y) = true) (OrderBook.asks b) ∧
    OrderBook.BestBid b = Ok (price <$> head (OrderBook.bids b)) ∧
    OrderBook.BestAsk b = Ok (price <$> head (OrderBook.asks b)) ∧
    (∀ p x, OrderBook.BestBid b = Ok (Some p) → x ∈ OrderBook.bids b → flt p (price x) = false) ∧
    (∀ p x, OrderBook.BestAsk b = Ok (Some p) → x ∈ OrderBook.asks b → flt (price x) p = false).
Proof.
  intros Hops.
  destruct (OrderBook.view_refines ops _ OrderBook.book_wf_empty Hops) as (b & Hrun & Hwf & Hview).
  pose proof Hwf as [Hwb Hwa]. exists b. unfold OrderBook.BestBid, OrderBook.BestAsk.
  rewrite (PriceLevels.Best_spec fgt _ Hwb), (PriceLevels.Best_spec flt _ Hwa).
  pose proof (PriceLevels.levels_length_contents fgt _ Hwb) as Lb.
  pose proof (PriceLevels.levels_length_contents flt _ Hwa) as La.
  destruct Hwb as (_ & Hcb & Hsb & _), Hwa as (_ & Hca & Hsa & _).
  unfold OrderBook.bids, OrderBook.asks, PriceLevels.kCapacity in *.
  split_and!; [done|done|lia|lia|done|done|done|done|..].
  - intros p x [= Hp] Hx. apply fmap_Some in Hp as (y & Hy & ->).
    apply (PriceLevels.head_best fgt _ y x Hsb Hy Hx).
  - intros p x [= Hp] Hx. apply fmap_Some in Hp as (y & Hy & ->).
    apply (PriceLevels.head_best flt _ y x Hsa Hy Hx).
Qed.

Lemma book_best_correct_witness :
  let ops := [OrderBook.OpSnapshot; OrderBook.OpBid (f_of_Z 99) (f_of_Z 1);
              OrderBook.OpBid (f_of_Z 100) (f_of_Z 1); OrderBook.OpAsk (f_of_Z 101) (f_of_Z 1)] in
  ∃ b, OrderBook.run ops OrderBook.empty = Ok b ∧
    OrderBook.bids b = [MkLevel (f_of_Z 100) (f_of_Z 1); MkLevel (f_of_Z 99) (f_of_Z 1)] ∧
    OrderBook.BestBid b = Ok (price <$> head (OrderBook.bids b)).
Proof.
  intros ops.
  destruct (book_best_correct ops) as (b & Hr & Hv & _ & _ & _ & _ & Hb & _);
    [repeat constructor|]. exists b. split; [exact Hr|]. split; [|exact Hb].
  exact (f_equal OrderBook.v_bids Hv).
Defined.

(** Deleting a level that is not in the book (size 0 at an
    absent price) does not leave the book alone: it inserts a level of size
    0, which can become the best price. *)
Theorem delete_of_absent_level_inserts (Compare : double → double → bool)
    `{!PriceOrder Compare} (p : double) (pl : PriceLevels.t) :
  PriceLevels.wf Compare pl → is_nan p = false →
  PriceLevels.count_ pl < PriceLevels.kCapacity →
  PriceLevels.level_size p (PriceLevels.contents pl) = None →
  ∃ pl', PriceLevels.Set_ Compare p fzero pl = Ok pl' ∧
    PriceLevels.level_size p (PriceLevels.contents pl') = Some fzero ∧
    (Forall (λ x, Compare p (price x) = true) (PriceLevels.contents pl) →
     PriceLevels.Best pl' = Ok (Some p)).
Proof.
  intros Hwf Hp Hroom Habs. pose proof (PriceLevels.levels_length_contents _ _ Hwf) as Hl.
  destruct (PriceLevels.Set_refines Compare p fzero pl Hwf Hp) as (pl' & HS & Hwf' & Hc).
  rewrite take_ge in Hc
    by (pose proof (PriceLevels.length_set_ref Compare p fzero (PriceLevels.contents pl)); lia).
  destruct Hwf as (_ & _ & Hs & Hn).
  exists pl'. split_and!; [done|..].
  - rewrite Hc, PriceLevels.set_ref_size_at by done. rewrite Habs. done.
  - intros Hall. rewrite (PriceLevels.Best_spec _ _ Hwf'), Hc.
    destruct (PriceLevels.contents pl) as [|x l]; [done|].
    apply Forall_cons in Hall as [Hx _]. simpl.
    destruct (Compare (price x) p) eqn:E.
    { pose proof (po_trans _ _ _ Hx E) as Hpp. by rewrite po_irrefl in Hpp. }
    destruct (feq (price x) p) eqn:E'; [|done].
    apply po_not_feq in Hx. by rewrite (feq_sym _ _ E') in Hx.
Qed.

Lemma delete_of_absent_level_inserts_witness :
  ∃ pl', PriceLevels.Set_ flt (f_of_Z 5) fzero PriceLevels.empty = Ok pl' ∧
    PriceLevels.level_size (f_of_Z 5) (PriceLevels.contents pl') = Some fzero ∧
    (Forall (λ x, flt (f_of_Z 5) (price x) = true) [] →
     PriceLevels.Best pl' = Ok (Some (f_of_Z 5))).
Proof.
  apply (delete_of_absent_level_inserts flt (f_of_Z 5) PriceLevels.empty);
    [exact (proj1 (PriceLevels.levels_wf_empty flt))|reflexivity|vm_compute; lia|reflexivity].
Defined.
