(* ===== verification/Json.v ===== *)
(** * The in-place JSON scanner: util/json.cpp

    The scanner works on positions in a [string_view]; each function below is
    the C++ function of the same name, [npos] being [None].  The loops that
    only move the position ([SkipWhitespace], [SkipValue], [FindValueStart])
    are [while] and [loop]: each turn moves it to the right, and they end by
    their own conditions.  The loops that call an action carry a budget of the
    size of the view plus one; the lemmas show that it is never used up,
    except by [ForEachElement] on the malformed arrays on which the C++ loop
    does not terminate either. *)

From S2P Require Import Prelude Float64.

Module json.

Definition IsJsonWhitespace (c : Z) : bool :=
  (c =? 32)%Z || (c =? 9)%Z || (c =? 10)%Z || (c =? 13)%Z.

(** [pos < v.size() && v[pos] == c]. *)
Definition at_char (v : string_view) (pos : nat) (c : Z) : bool :=
  match sv_at v pos with Some x => (x =? c)%Z | None => false end.
(** [pos < v.size() && f(v[pos])]. *)
Definition at_pred (v : string_view) (pos : nat) (f : Z → bool) : bool :=
  match sv_at v pos with Some x => f x | None => false end.

Definition c_comma : Z := 44.
Definition c_colon : Z := 58.
Definition c_lbracket : Z := 91.
Definition c_backslash : Z := 92.
Definition c_rbracket : Z := 93.
Definition c_lbrace : Z := 123.
Definition c_rbrace : Z := 125.

(** Why the loops below end: every turn moves the position to the right, and
    none is made at the end of the view. *)
Definition to_go (v : string_view) (pos : nat) : nat := sv_size v - pos.
Lemma at_pred_lt v pos f : at_pred v pos f = true → pos < sv_size v.
Proof. unfold at_pred. destruct (sv_at v pos) eqn:E; [|done]. intros _. by apply sv_at_Some in E as []. Qed.
Lemma at_char_lt v pos c : at_char v pos c = true → pos < sv_size v.
Proof. apply at_pred_lt. Qed.
Lemma scan_progress v f pos : at_pred v pos f = true → to_go v (S pos) < to_go v pos.
Proof. intros H%at_pred_lt. unfold to_go. lia. Qed.

Definition SkipWhitespace (text : string_view) (pos : nat) : nat :=
  while (λ pos, at_pred text pos IsJsonWhitespace) S (to_go text) (scan_progress text _) pos.

(** The three loops of [SkipValue]. *)
Definition skip_string_cond (json : string_view) (pos : nat) : bool := at_pred json pos (λ c, negb (c =? c_quote)%Z).
Definition skip_string_body (json : string_view) (pos : nat) : nat :=
  if at_char json pos c_backslash then pos + 2 else pos + 1.
Lemma skip_string_progress json pos :
  skip_string_cond json pos = true → to_go json (skip_string_body json pos) < to_go json pos.
Proof. intros H%at_pred_lt. unfold to_go, skip_string_body. destruct (at_char _ _ _); lia. Qed.
Definition skip_string_loop (json : string_view) (pos : nat) : nat :=
  while (skip_string_cond json) (skip_string_body json) (to_go json) (skip_string_progress json) pos.

Definition skip_scalar_loop (json : string_view) (pos : nat) : nat :=
  while
    (λ pos, at_pred json pos (λ c, negb (c =? c_comma)%Z && negb (c =? c_rbrace)%Z &&
       negb (c =? c_rbracket)%Z && negb (IsJsonWhitespace c)))
    S (to_go json) (scan_progress json _) pos.

(** The [int] [depth] is a [Z]: [nested_depth] below shows that it is at most
    the number of bytes read. *)
Definition nested_cond (json : string_view) (st : nat * Z) : bool :=
  (st.1 <? sv_size json) && (0 <? st.2)%Z.
Definition nested_body (json : string_view) (open close : Z) (skip : nat → nat)
    (st : nat * Z) : nat * Z :=
  let '(pos, depth) := st in
  if at_char json pos c_quote then (skip pos, depth)
  else
    let depth :=
      if at_char json pos open then (depth + 1)%Z
      else if at_char json pos close then (depth - 1)%Z else depth in
    (pos + 1, depth).
(** The recursive call goes forward, as it is made on a quoted string only. *)
Definition advances (json : string_view) (skip : nat → nat) : Prop :=
  ∀ pos, at_char json pos c_quote = true → pos < skip pos.
Lemma nested_progress json open close skip (Hskip : advances json skip) st :
  nested_cond json st = true → to_go json (nested_body json open close skip st).1 < to_go json st.1.
Proof.
  destruct st as [pos d]. unfold nested_cond, nested_body, to_go. rewrite andb_true_iff, Nat.ltb_lt. intros [Hp _].
  cbn [fst] in *. destruct (at_char json pos c_quote) eqn:E; cbn [fst]; [specialize (Hskip pos E)|]; lia.
Qed.

(** The body of [SkipValue], with the function it calls on a quoted string. *)
Definition SkipValue_body (json : string_view) (skip : nat → nat) (Hskip : advances json skip) (pos : nat) : nat :=
  let pos := SkipWhitespace json pos in
  match sv_at json pos with
  | None => pos
  | Some c =>
      if (c =? c_quote)%Z then skip_string_loop json (pos + 1) + 1
      else if (c =? c_lbrace)%Z || (c =? c_lbracket)%Z then
        let open := c in
        let close := if (open =? c_lbrace)%Z then c_rbrace else c_rbracket in
        (while (nested_cond json) (nested_body json open close skip) (λ st, to_go json st.1)
          (nested_progress json open close skip Hskip) (pos + 1, 1%Z)).1
      else skip_scalar_loop json pos
  end.

Lemma SkipWhitespace_ge v pos : pos ≤ SkipWhitespace v pos.
Proof. apply (while_mono (λ x, x)); intros ? _; simpl; lia. Qed.
Lemma skip_string_loop_ge v pos : pos ≤ skip_string_loop v pos.
Proof. apply (while_mono (λ x, x)); intros ? _; unfold skip_string_body; destruct (at_char _ _ _); simpl; lia. Qed.
Lemma skip_scalar_loop_ge v pos : pos ≤ skip_scalar_loop v pos.
Proof. apply (while_mono (λ x, x)); intros ? _; simpl; lia. Qed.
Lemma SkipValue_body_advances json skip Hskip : advances json (SkipValue_body json skip Hskip).
Proof.
  intros pos Hq. assert (SkipWhitespace json pos = pos) as Hw.
  { unfold SkipWhitespace. rewrite while_eq. unfold at_char in Hq. unfold at_pred.
    destruct (sv_at json pos) as [c|]; [|done]. apply Z.eqb_eq in Hq. by subst. }
  unfold SkipValue_body. cbv zeta. rewrite Hw. unfold at_char in Hq. destruct (sv_at json pos) as [c|]; [|done].
  rewrite Hq. pose proof (skip_string_loop_ge json (pos + 1)). lia.
Qed.

(** [SkipValue] calls itself only on a quoted string, inside a container, and
    that call does not call again: one level of recursion is enough. *)
Definition SkipString (json : string_view) : nat → nat :=
  SkipValue_body json S (λ pos _, Nat.lt_succ_diag_r pos).
Definition SkipValue (json : string_view) : nat → nat :=
  SkipValue_body json (SkipString json) (SkipValue_body_advances json S _).

Definition key_pattern (key : list Z) : list Z := c_quote :: key ++ [c_quote].
(** One turn of the loop of [FindValueStart]. *)
Definition FindValueStart_step (json : string_view) (key : list Z) (search_from : nat) : nat + option nat :=
  let pattern := key_pattern key in
  match sv_find_sub json pattern search_from with
  | None => inr None
  | Some key_pos =>
      let after_key := SkipWhitespace json (key_pos + length pattern) in
      if at_char json after_key c_colon then inr (Some (SkipWhitespace json (after_key + 1)))
      else inl (key_pos + length pattern)
  end.
Lemma find_sub_fits pat l n : find_sub pat l = Some n → n + length pat ≤ length l.
Proof.
  assert (∀ l, pat = take (length pat) l → length pat ≤ length l) as Htake.
  { intros l' Ht. rewrite Ht, length_take. lia. }
  revert n. induction l as [|x l IH]; intros n; cbn [find_sub].
  - case_decide as Ht; [|done]. intros [= <-]. by apply Htake.
  - case_decide as Ht; [intros [= <-]; by apply Htake|]. destruct (find_sub pat l) as [k|]; [|done].
    intros [= <-]. specialize (IH k eq_refl). simpl. lia.
Qed.
Lemma FindValueStart_progress json key from from' :
  FindValueStart_step json key from = inl from' → to_go json from' < to_go json from.
Proof.
  unfold FindValueStart_step, sv_find_sub. destruct (Nat.leb_spec from (sv_size json)); [|done].
  destruct (find_sub _ _) as [n|] eqn:E; [|done]. apply find_sub_fits in E. cbn [fmap option_fmap option_map].
  destruct (at_char _ _ _); [done|]. intros [= <-]. unfold to_go, key_pattern, sv_text in *.
  rewrite length_drop, length_take in E. cbn [length] in *. lia.
Qed.
Definition FindValueStart (json : string_view) (key : list Z) : option nat :=
  loop (FindValueStart_step json key) (to_go json) (FindValueStart_progress json key) 0.

(** The part of [FindElementAt] after its first loop: the element at [pos]. *)
Definition element_at (array : string_view) (pos : nat) : option string_view :=
  let pos := SkipWhitespace array pos in
  match sv_at array pos with
  | None => None
  | Some c =>
      if (c =? c_rbracket)%Z then None
      else Some (sv_substr array pos (usub (SkipValue array pos) pos))
  end.
Fixpoint FindElementAt_loop (i : nat) (array : string_view) (pos : nat) : option nat :=
  match i with
  | O => Some pos
  | S i' =>
      let pos := SkipWhitespace array pos in
      match sv_at array pos with
      | None => None
      | Some c =>
          if (c =? c_rbracket)%Z then None
          else
            let pos := SkipWhitespace array (SkipValue array pos) in
            FindElementAt_loop i' array (if at_char array pos c_comma then pos + 1 else pos)
      end
  end.
Definition FindElementAt (array : string_view) (index : nat) : option string_view :=
  match FindElementAt_loop index array 1 with
  | None => None
  | Some pos => element_at array pos
  end.

Definition FindString (json : string_view) (key : list Z) : option string_view :=
  match FindValueStart json key with
  | None => None
  | Some value_start =>
      if at_char json value_start c_quote then
        let content_start := value_start + 1 in
        match sv_find json c_quote content_start with
        | None => None
        | Some content_end => Some (sv_substr json content_start (content_end - content_start))
        end
      else None
  end.

Definition is_number_char (c : Z) : bool :=
  is_digit c || (c =? 45)%Z || (c =? 43)%Z || (c =? 46)%Z || (c =? 101)%Z || (c =? 69)%Z.
Definition FindNumber (json : string_view) (key : list Z) : option string_view :=
  match FindValueStart json key with
  | None => None
  | Some value_start =>
      let pos := while (λ pos, at_pred json pos is_number_char) S (to_go json) (scan_progress json _) value_start in
      if pos =? value_start then None
      else Some (sv_substr json value_start (pos - value_start))
  end.

Definition FindArrayElement (json : string_view) (key : list Z) (index : nat)
    : option string_view :=
  match FindValueStart json key with
  | None => None
  | Some value_start =>
      if at_char json value_start c_lbracket
      then FindElementAt (sv_from json value_start) index else None
  end.
Definition FindElement (json_array : string_view) (index : nat) : option string_view :=
  if at_char json_array 0 c_lbracket then FindElementAt json_array index else None.

Section for_each.
Context {S : Type}.

Fixpoint ForEachElement_loop (fuel : nat) (array : string_view)
    (action : string_view → M S unit) (pos : nat) : M S unit :=
  match fuel with
  | O => lift (Stop Fuel)
  | Datatypes.S f =>
      let pos := SkipWhitespace array pos in
      match sv_at array pos with
      | None => mret tt
      | Some c =>
          if (c =? c_rbracket)%Z then mret tt
          else
            let element_start := pos in
            let pos := SkipValue array pos in
            _ ← action (sv_substr array element_start (usub pos element_start));
            let pos := SkipWhitespace array pos in
            ForEachElement_loop f array action
              (if at_char array pos c_comma then pos + 1 else pos)
      end
  end.
Definition ForEachElement (array : string_view) (action : string_view → M S unit)
    : M S unit :=
  ForEachElement_loop (Datatypes.S (sv_size array)) array action 1.

Definition ForEachArrayElement (json : string_view) (key : list Z)
    (action : string_view → M S unit) : M S unit :=
  match FindValueStart json key with
  | None => mret tt
  | Some value_start =>
      if at_char json value_start c_lbracket
      then ForEachElement (sv_from json value_start) action else mret tt
  end.

Fixpoint ForEachField_loop (fuel : nat) (json : string_view)
    (action : string_view → string_view → M S unit) (pos : nat) : M S unit :=
  match fuel with
  | O => lift (Stop Fuel)
  | Datatypes.S f =>
      let pos := SkipWhitespace json pos in
      if negb (at_char json pos c_quote) then mret tt
      else
        let key_start := pos + 1 in
        match sv_find json c_quote key_start with
        | None => mret tt
        | Some key_end =>
            let key := sv_substr json key_start (key_end - key_start) in
            let pos := SkipWhitespace json (key_end + 1) in
            if negb (at_char json pos c_colon) then mret tt
            else
              let pos := SkipWhitespace json (pos + 1) in
              let value_start := pos in
              let pos := SkipValue json pos in
              _ ← action key (sv_substr json value_start (usub pos value_start));
              let pos := SkipWhitespace json pos in
              ForEachField_loop f json action
                (if at_char json pos c_comma then pos + 1 else pos)
        end
  end.
Definition ForEachField (json : string_view)
    (action : string_view → string_view → M S unit) : M S unit :=
  if negb (at_char json 0 c_lbrace) then mret tt
  else ForEachField_loop (Datatypes.S (sv_size json)) json action 1.
End for_each.

(** [strtod] is given the start of the view only. *)
Definition ParseDouble (text : string_view) : result double :=
  match strtod (sv_mem text) with
  | Some value => Ok value
  | None => throw (runtime_error "Failed to parse double" [])
  end.

(** [std::from_chars] for [long long]: an optional minus sign and digits, up
    to the first byte that is no digit; no digits and values outside 64 bits
    are errors. *)
Definition from_chars_ll (l : list Z) : option Z :=
  let '(neg, l') :=
    match l with c :: r => if (c =? 45)%Z then (true, r) else (false, l) | [] => (false, []) end in
  match (span is_digit l').1 with
  | [] => None
  | ds =>
      let v := if neg : bool then (- digits_val 10 ds)%Z else digits_val 10 ds in
      if ((- 2 ^ 63 <=? v) && (v <? 2 ^ 63))%Z then Some v else None
  end.
Definition ParseLL (text : string_view) : result Z :=
  match from_chars_ll (sv_text text) with
  | Some value => Ok value
  | None => throw (runtime_error "Failed to parse long long" [])
  end.

(** ** Scanning lemmas

    Positions are described by how the text splits around them:
    [sv_text v = pre ++ rest] with the position [length pre]. *)
Section scanning.
Context (v : string_view) (Hwf : sv_wf v).

Lemma at_pred_app pre c rest f :
  sv_text v = pre ++ c :: rest → at_pred v (length pre) f = f c.
Proof using. intros H. unfold at_pred. by rewrite sv_at_text, H, list_lookup_middle. Qed.
Lemma at_pred_end pre f : sv_text v = pre → at_pred v (length pre) f = false.
Proof using. intros H. unfold at_pred. by rewrite sv_at_text, H, lookup_ge_None_2. Qed.
Lemma at_char_app pre c rest x :
  sv_text v = pre ++ c :: rest → at_char v (length pre) x = (c =? x)%Z.
Proof using. apply (at_pred_app pre c rest (λ c, (c =? x)%Z)). Qed.
Lemma at_char_end pre x : sv_text v = pre → at_char v (length pre) x = false.
Proof using. apply (at_pred_end pre (λ c, (c =? x)%Z)). Qed.
Lemma sv_at_app pre c rest : sv_text v = pre ++ c :: rest → sv_at v (length pre) = Some c.
Proof using. intros H. by rewrite sv_at_text, H, list_lookup_middle. Qed.
Lemma sv_at_end pre : sv_text v = pre → sv_at v (length pre) = None.
Proof using. intros H. by rewrite sv_at_text, H, lookup_ge_None_2. Qed.
Lemma text_size pre rest : sv_text v = pre ++ rest → length pre + length rest = sv_size v.
Proof using Hwf. intros H. by rewrite <-(length_sv_text v Hwf), H, length_app. Qed.

(** A run of bytes on which [f] holds, up to one on which it does not. *)
Definition stops (f : Z → bool) (rest : list Z) : Prop :=
  match rest with [] => True | c :: _ => f c = false end.

Lemma scan_run f pre run rest :
  sv_text v = pre ++ run ++ rest → Forall (λ c, f c = true) run → stops f rest →
  while (λ pos, at_pred v pos f) S (to_go v) (scan_progress v f) (length pre) = length (pre ++ run).
Proof using.
  intros Ht Hrun Hstop. apply while_steps.
  - clear Hstop. revert pre Ht. induction Hrun as [|c run Hc _ IH]; intros pre Ht.
    { rewrite app_nil_r. constructor. }
    apply steps_once; [by rewrite (at_pred_app _ _ _ _ Ht)|].
    replace (S (length pre)) with (length (pre ++ [c])) by (rewrite length_app; simpl; lia).
    specialize (IH (pre ++ [c])). rewrite <-!app_assoc in IH. by apply IH.
  - destruct rest as [|c rest].
    + apply at_pred_end. by rewrite Ht, app_nil_r.
    + rewrite app_assoc in Ht. by rewrite (at_pred_app _ _ _ _ Ht).
Qed.

Definition is_ws (w : list Z) : bool := forallb IsJsonWhitespace w.

Lemma is_ws_Forall w : is_ws w = true → Forall (λ c, IsJsonWhitespace c = true) w.
Proof using. unfold is_ws. rewrite forallb_forall, Forall_forall. intros H x Hx.
  by apply H, list_elem_of_In.
Qed.

Lemma SkipWhitespace_app pre w rest :
  sv_text v = pre ++ w ++ rest → is_ws w = true → stops IsJsonWhitespace rest →
  SkipWhitespace v (length pre) = length (pre ++ w).
Proof using Hwf. intros ? ?%is_ws_Forall ?. by eapply scan_run. Qed.
Lemma SkipWhitespace_id pre rest :
  sv_text v = pre ++ rest → stops IsJsonWhitespace rest →
  SkipWhitespace v (length pre) = length pre.
Proof using Hwf.
  intros. rewrite (SkipWhitespace_app pre [] rest) by done. by rewrite app_nil_r.
Qed.

(** The content of a string: no quote but after a backslash. *)
Fixpoint well_escaped (l : list Z) : bool :=
  match l with
  | [] => true
  | c :: r =>
      if (c =? c_backslash)%Z then
        match r with [] => false | _ :: r' => well_escaped r' end
      else negb (c =? c_quote)%Z && well_escaped r
  end.

Lemma skip_string_loop_app pre s rest :
  sv_text v = pre ++ s ++ c_quote :: rest → well_escaped s = true →
  skip_string_loop v (length pre) = length (pre ++ s).
Proof using Hwf.
  intros Ht Hs. apply while_steps.
  - remember (length s) as k eqn:Hk. assert (length s ≤ k) as Hle by lia. clear Hk.
    revert pre s Hle Ht Hs. induction k as [|k IH]; intros pre [|c s] Hle Ht Hs; try (simpl in Hle; lia).
    1,2: rewrite app_nil_r; constructor.
    simpl in Hs. apply steps_once.
    { unfold skip_string_cond. rewrite (at_pred_app _ _ _ _ Ht). destruct (Z.eqb_spec c c_backslash) as [->|]; [done|].
      by apply andb_true_iff in Hs as [Hq _]. }
    assert (skip_string_body v (length pre) = if (c =? c_backslash)%Z then length pre + 2 else length pre + 1) as ->
      by (unfold skip_string_body; by rewrite (at_char_app _ _ _ _ Ht)).
    destruct (Z.eqb_spec c c_backslash) as [->|Hbs].
    + destruct s as [|d s]; [done|]. specialize (IH (pre ++ [c_backslash; d]) s).
      rewrite length_app, <-!app_assoc in IH. apply IH; [simpl in *; lia|by rewrite Ht|done].
    + apply andb_true_iff in Hs as [_ Hs]. specialize (IH (pre ++ [c]) s).
      rewrite length_app, <-!app_assoc in IH. apply IH; [simpl in *; lia|by rewrite Ht|done].
  - unfold skip_string_cond. rewrite app_assoc in Ht. by rewrite (at_pred_app _ _ _ _ Ht).
Qed.

(** [SkipValue] at a byte that is no whitespace. *)
Lemma SkipValue_body_at skip Hskip pre c rest :
  sv_text v = pre ++ c :: rest → IsJsonWhitespace c = false →
  SkipValue_body v skip Hskip (length pre) =
    if (c =? c_quote)%Z then skip_string_loop v (length pre + 1) + 1
    else if (c =? c_lbrace)%Z || (c =? c_lbracket)%Z then
      let close := if (c =? c_lbrace)%Z then c_rbrace else c_rbracket in
      (while (nested_cond v) (nested_body v c close skip) (λ st, to_go v st.1)
        (nested_progress v c close skip Hskip) (length pre + 1, 1%Z)).1
    else skip_scalar_loop v (length pre).
Proof using Hwf.
  intros Ht Hc. assert (SkipWhitespace v (length pre) = length pre) as Hw
    by (eapply SkipWhitespace_id; [exact Ht|done]).
  unfold SkipValue_body. by rewrite Hw, (sv_at_app _ _ _ Ht).
Qed.

Lemma SkipValue_string skip Hskip pre s rest :
  sv_text v = pre ++ (c_quote :: s ++ [c_quote]) ++ rest → well_escaped s = true →
  SkipValue_body v skip Hskip (length pre) = length (pre ++ c_quote :: s ++ [c_quote]).
Proof using Hwf.
  intros Ht Hs. rewrite (SkipValue_body_at skip Hskip pre c_quote _ Ht) by done.
  rewrite Z.eqb_refl.
  replace (length pre + 1) with (length (pre ++ [c_quote])) by (rewrite length_app; simpl; lia).
  rewrite (skip_string_loop_app _ s rest) by
    (rewrite ?Ht; simpl; rewrite <-?app_assoc; done).
  rewrite !length_app. simpl. rewrite length_app. simpl. lia.
Qed.

(** Text in which the brackets [o] and [c] are balanced outside strings. *)
Inductive bal (o c : Z) : list Z → Prop :=
  | bal_nil : bal o c []
  | bal_char x t : x ≠ c_quote → x ≠ o → x ≠ c → bal o c t → bal o c (x :: t)
  | bal_str s t : well_escaped s = true → bal o c t →
      bal o c ((c_quote :: s ++ [c_quote]) ++ t)
  | bal_nest t u : bal o c t → bal o c u → bal o c ((o :: t ++ [c]) ++ u).

Lemma nested_cond_app pre x rest d :
  sv_text v = pre ++ x :: rest → (0 < d)%Z → nested_cond v (length pre, d) = true.
Proof using Hwf.
  intros Ht Hd. unfold nested_cond. simpl. pose proof (text_size _ _ Ht) as Hs. simpl in Hs.
  by rewrite (proj2 (Nat.ltb_lt _ _)), (proj2 (Z.ltb_lt _ _)) by lia.
Qed.
Lemma nested_body_app o c skip pre x rest d :
  sv_text v = pre ++ x :: rest → x ≠ c_quote →
  nested_body v o c skip (length pre, d) =
    (length (pre ++ [x]), if (x =? o)%Z then (d + 1)%Z else if (x =? c)%Z then (d - 1)%Z else d).
Proof using.
  intros Ht Hx. unfold nested_body.
  rewrite !(at_char_app _ _ _ _ Ht), (proj2 (Z.eqb_neq x c_quote)) by done. by rewrite length_app.
Qed.
Lemma nested_steps o c t pre rest d :
  o ≠ c → o ≠ c_quote → c ≠ c_quote → bal o c t →
  sv_text v = pre ++ t ++ rest → (0 < d)%Z →
  steps (nested_cond v) (nested_body v o c (SkipString v)) (length pre, d) (length (pre ++ t), d).
Proof using Hwf.
  intros Hoc Ho Hc Hbal. revert pre rest d.
  induction Hbal as [|x t Hq Hxo Hxc _ IH|s t Hs _ IH|t u _ IHt _ IHu];
    intros pre rest d Ht Hd.
  - rewrite app_nil_r. constructor.
  - apply steps_once; [by apply (nested_cond_app _ _ _ _ Ht)|].
    rewrite (nested_body_app _ _ _ _ _ _ _ Ht), !(proj2 (Z.eqb_neq _ _)) by done.
    specialize (IH (pre ++ [x]) rest d). rewrite <-!app_assoc in IH. by apply IH.
  - apply steps_once; [by apply (nested_cond_app _ _ _ _ Ht)|].
    unfold nested_body at 2. rewrite (at_char_app _ _ _ _ Ht), Z.eqb_refl.
    unfold SkipString at 2. rewrite (SkipValue_string _ _ pre s (t ++ rest)) by (rewrite ?Ht, <-?app_assoc; done).
    specialize (IH (pre ++ c_quote :: s ++ [c_quote]) rest d). rewrite <-!app_assoc in IH.
    apply IH; [|done]. by rewrite Ht, <-!app_assoc.
  - assert (sv_text v = ((pre ++ [o]) ++ t) ++ c :: u ++ rest) as Ht'
      by (rewrite Ht; simpl; by rewrite <-!app_assoc).
    apply steps_once; [by apply (nested_cond_app _ _ _ _ Ht)|].
    rewrite (nested_body_app _ _ _ _ _ _ _ Ht), Z.eqb_refl by done.
    eapply steps_app; [apply (IHt (pre ++ [o]) (c :: u ++ rest) (d + 1)%Z); [by rewrite app_assoc|lia]|].
    apply steps_once; [eapply nested_cond_app; [exact Ht'|lia]|].
    rewrite (nested_body_app _ _ _ _ _ _ _ Ht') by done.
    rewrite (proj2 (Z.eqb_neq c o)), Z.eqb_refl by done. replace (d + 1 - 1)%Z with d by lia.
    replace (pre ++ (o :: t ++ [c]) ++ u) with ((((pre ++ [o]) ++ t) ++ [c]) ++ u)
      by (rewrite <-!app_assoc; simpl; by rewrite <-!app_assoc).
    apply (IHu _ rest); [|done]. by rewrite Ht', <-!app_assoc.
Qed.

Lemma SkipValue_container pre o c t rest :
  (o = c_lbrace ∧ c = c_rbrace ∨ o = c_lbracket ∧ c = c_rbracket) →
  sv_text v = pre ++ (o :: t ++ [c]) ++ rest → bal o c t →
  SkipValue v (length pre) = length (pre ++ o :: t ++ [c]).
Proof using Hwf.
  intros Hoc Ht Hbal.
  assert (o ≠ c ∧ o ≠ c_quote ∧ c ≠ c_quote ∧ IsJsonWhitespace o = false) as (? & ? & ? & ?)
    by (by destruct Hoc as [[-> ->]|[-> ->]]).
  unfold SkipValue. rewrite (SkipValue_body_at _ _ pre o _ Ht) by done. cbv zeta.
  assert ((o =? c_quote)%Z = false) as -> by (by apply Z.eqb_neq).
  assert ((o =? c_lbrace)%Z || (o =? c_lbracket)%Z = true) as ->
    by (by destruct Hoc as [[-> ->]|[-> ->]]).
  assert ((if (o =? c_lbrace)%Z then c_rbrace else c_rbracket) = c) as ->
    by (by destruct Hoc as [[-> ->]|[-> ->]]).
  assert (sv_text v = ((pre ++ [o]) ++ t) ++ c :: rest) as Ht'
    by (rewrite Ht; simpl; by rewrite <-!app_assoc).
  replace (length pre + 1) with (length (pre ++ [o])) by (rewrite length_app; simpl; lia).
  rewrite (while_steps _ _ _ _ _ (length (pre ++ o :: t ++ [c]), 0%Z)); [done|..].
  - eapply steps_app; [apply (nested_steps o c t (pre ++ [o]) (c :: rest) 1);
      [done..|by rewrite app_assoc|lia]|].
    apply steps_once; [by eapply nested_cond_app|].
    rewrite (nested_body_app _ _ _ _ _ _ _ Ht') by done.
    rewrite (proj2 (Z.eqb_neq c o)), Z.eqb_refl, <-!app_assoc by done. constructor.
  - unfold nested_cond. apply andb_false_r.
Qed.
End scanning.

(** ** JSON texts

    A JSON value with the whitespace its text has: scalars and strings carry
    their text, an array element and an object field the whitespace around
    them.  [print] is the text of a value. *)
Inductive jval :=
  | JScalar (s : list Z)
  | JString (s : list Z)
  | JArray (w : list Z) (es : list (list Z * jval * list Z))
  | JObject (w : list Z) (fs : list (list Z * list Z * list Z * (list Z * jval * list Z))).

Fixpoint join (l : list (list Z)) : list Z :=
  match l with [] => [] | [x] => x | x :: l' => x ++ c_comma :: join l' end.

Fixpoint print (v : jval) : list Z :=
  match v with
  | JScalar s => s
  | JString s => c_quote :: s ++ [c_quote]
  | JArray w es =>
      c_lbracket :: (w ++ join (map (λ '(b, e, a), b ++ print e ++ a) es)) ++ [c_rbracket]
  | JObject w fs =>
      c_lbrace :: (w ++ join (map (λ '(b, k, m, (m', e, a)),
        b ++ (c_quote :: k ++ [c_quote]) ++ m ++ c_colon :: m' ++ print e ++ a) fs))
        ++ [c_rbrace]
  end.

Definition scalar_char (c : Z) : bool :=
  negb (IsJsonWhitespace c) &&
  forallb (λ d, negb (c =? d)%Z)
    [c_quote; c_comma; c_colon; c_lbracket; c_rbracket; c_lbrace; c_rbrace].
Definition no_quote (l : list Z) : bool := forallb (λ c, negb (c =? c_quote)%Z) l.

(** Well-formed: scalars are runs of bytes without delimiters, strings close
    where they should, keys have no quote, and the gaps are whitespace. *)
Fixpoint jwf (v : jval) : bool :=
  match v with
  | JScalar s => negb (bool_decide (s = [])) && forallb scalar_char s
  | JString s => well_escaped s
  | JArray w es => is_ws w && forallb (λ '(b, e, a), is_ws b && jwf e && is_ws a) es
  | JObject w fs =>
      is_ws w && forallb (λ '(b, k, m, (m', e, a)),
        is_ws b && (no_quote k && well_escaped k) && is_ws m && is_ws m' && jwf e && is_ws a) fs
  end.

Section jval_induction.
Context (P : jval → Prop).
Context (Pscalar : ∀ s, P (JScalar s)) (Pstring : ∀ s, P (JString s)).
Context (Parray : ∀ w es, Forall (λ x, P x.1.2) es → P (JArray w es)).
Context (Pobject : ∀ w fs, Forall (λ x, P x.2.1.2) fs → P (JObject w fs)).

Fixpoint jval_rect' (v : jval) : P v :=
  match v with
  | JScalar s => Pscalar s
  | JString s => Pstring s
  | JArray w es => Parray w es
      ((fix go es : Forall (λ x, P x.1.2) es :=
        match es with
        | [] => Forall_nil_2 _
        | (b, e, a) :: es' => Forall_cons_2 (λ x, P x.1.2) (b, e, a) es' (jval_rect' e) (go es')
        end) es)
  | JObject w fs => Pobject w fs
      ((fix go fs : Forall (λ x, P x.2.1.2) fs :=
        match fs with
        | [] => Forall_nil_2 _
        | (x, (m, e, a)) :: fs' =>
            Forall_cons_2 (λ x, P x.2.1.2) (x, (m, e, a)) fs' (jval_rect' e) (go fs')
        end) fs)
  end.
End jval_induction.

(** *** Every value is balanced *)
Section balanced.
Context (o c : Z).
Context (Hoc : o = c_lbrace ∧ c = c_rbrace ∨ o = c_lbracket ∧ c = c_rbracket).

Lemma bal_app t u : bal o c t → bal o c u → bal o c (t ++ u).
Proof using.
  induction 1 as [|x t Hq Hxo Hxc _ IH|s t Hs _ IH|t t' Ht _ _ IH]; intros Hu.
  - done.
  - simpl. constructor; auto.
  - rewrite <-app_assoc. apply bal_str; auto.
  - rewrite <-app_assoc. apply bal_nest; auto.
Qed.
Definition bal_ok (x : Z) : bool :=
  forallb (λ d, negb (x =? d)%Z) [c_quote; c_lbracket; c_rbracket; c_lbrace; c_rbrace].
Lemma bal_plain t : forallb bal_ok t = true → bal o c t.
Proof using Hoc.
  induction t as [|x t IH]; simpl; [by constructor|]. rewrite andb_true_iff. intros [Hx Ht].
  unfold bal_ok in Hx. simpl in Hx. rewrite !andb_true_iff, !negb_true_iff, !Z.eqb_neq in Hx.
  destruct Hx as (?&?&?&?&?&_). by constructor; [|destruct Hoc as [[-> ->]|[-> ->]]..|auto].
Qed.
Lemma bal_ws w : is_ws w = true → bal o c w.
Proof using Hoc.
  intros H%is_ws_Forall. apply bal_plain, forallb_forall.
  intros x Hx%list_elem_of_In. rewrite Forall_forall in H. specialize (H x Hx). simpl in H.
  unfold IsJsonWhitespace in H. rewrite !orb_true_iff, !Z.eqb_eq in H.
  by destruct H as [[[->| ->]| ->]| ->].
Qed.
Lemma bal_bracket o' c' t :
  (o' = c_lbrace ∧ c' = c_rbrace ∨ o' = c_lbracket ∧ c' = c_rbracket) →
  bal o c t → bal o c (o' :: t ++ [c']).
Proof using Hoc.
  intros Hoc' Ht. destruct (decide (o' = o)) as [->|Hne].
  - assert (c' = c) as -> by (destruct Hoc as [[-> ->]|[-> ->]], Hoc' as [[? ->]|[? ->]]; done).
    rewrite <-(app_nil_r (o :: t ++ [c])). apply bal_nest; [done|constructor].
  - assert (o' ≠ c_quote ∧ o' ≠ c ∧ c' ≠ c_quote ∧ c' ≠ o ∧ c' ≠ c) as (?&?&?&?&?)
      by (destruct Hoc as [[-> ->]|[-> ->]], Hoc' as [[-> ->]|[-> ->]]; done).
    apply bal_char; [done..|]. apply bal_app; [done|].
    apply bal_char; [done..|constructor].
Qed.
Lemma bal_string s : well_escaped s = true → bal o c (c_quote :: s ++ [c_quote]).
Proof using. intros. rewrite <-(app_nil_r (_ :: _)). by apply bal_str; [|constructor]. Qed.
Lemma bal_join l : Forall (bal o c) l → bal o c (join l).
Proof using Hoc.
  induction 1 as [|x l Hx Hl IH]; [constructor|]. simpl. destruct l; [done|].
  apply bal_app; [done|]. by apply bal_char; [|destruct Hoc as [[-> ->]|[-> ->]]..|].
Qed.

Lemma array_bal w es :
  Forall (λ x, jwf x.1.2 = true → bal o c (print x.1.2)) es → jwf (JArray w es) = true →
  bal o c (w ++ join (map (λ '(b, e, a), b ++ print e ++ a) es)).
Proof using Hoc.
  intros IH. simpl. rewrite andb_true_iff. intros [Hw Hes].
  apply bal_app; [by apply bal_ws|]. apply bal_join.
  induction IH as [|[[b e] a] es He _ IHes]; simpl in *; [done|].
  rewrite !andb_true_iff in Hes. destruct Hes as [[[??]?]?].
  constructor; [|auto]. apply bal_app; [by apply bal_ws|].
  apply bal_app; [auto|by apply bal_ws].
Qed.
Lemma object_bal w fs :
  Forall (λ x, jwf x.2.1.2 = true → bal o c (print x.2.1.2)) fs → jwf (JObject w fs) = true →
  bal o c (w ++ join (map (λ '(b, k, m, (m', e, a)),
    b ++ (c_quote :: k ++ [c_quote]) ++ m ++ c_colon :: m' ++ print e ++ a) fs)).
Proof using Hoc.
  intros IH. simpl. rewrite andb_true_iff. intros [Hw Hfs].
  apply bal_app; [by apply bal_ws|]. apply bal_join.
  induction IH as [|[[[b k] m] [[m' e] a]] fs He _ IHfs]; simpl in *; [done|].
  rewrite !andb_true_iff in Hfs. destruct Hfs as [[[[[[? [??]]?]?]?]?]?].
  constructor; [|auto]. apply bal_app; [by apply bal_ws|].
  rewrite (app_comm_cons (k ++ [c_quote])). apply bal_app; [by apply bal_string|].
  apply bal_app; [by apply bal_ws|].
  apply bal_char; [done|by destruct Hoc as [[-> ->]|[-> ->]]..|].
  apply bal_app; [by apply bal_ws|]. apply bal_app; [auto|by apply bal_ws].
Qed.

Lemma print_bal v : jwf v = true → bal o c (print v).
Proof using Hoc.
  revert v. apply (jval_rect' (λ v, jwf v = true → bal o c (print v))).
  - intros s. simpl. rewrite andb_true_iff. intros [_ H]. apply bal_plain.
    rewrite forallb_forall in H |- *. intros x Hx. specialize (H x Hx).
    unfold scalar_char, bal_ok in *. simpl in *.
    rewrite !andb_true_iff in *. naive_solver.
  - intros s. simpl. apply bal_string.
  - intros w es IH H. apply bal_bracket; [by right|]. by apply array_bal.
  - intros w fs IH H. apply bal_bracket; [by left|]. by apply object_bal.
Qed.
End balanced.

(** *** SkipValue passes over exactly one value *)

(** What may follow a value: nothing, a separator, a closing bracket or whitespace. *)
Definition ends_value (c : Z) : bool :=
  (c =? c_comma)%Z || (c =? c_rbrace)%Z || (c =? c_rbracket)%Z || IsJsonWhitespace c.
Definition value_end (rest : list Z) : Prop := stops (λ c, negb (ends_value c)) rest.

Lemma print_cons x : jwf x = true → ∃ c t, print x = c :: t ∧ IsJsonWhitespace c = false ∧
  (c =? c_rbracket)%Z = false.
Proof.
  destruct x as [s|s|w es|w fs]; simpl; intros H; [|by eauto..].
  destruct s as [|c s]; [done|]. exists c, s. simpl in H.
  apply andb_true_iff in H as [H _]. unfold scalar_char in H. simpl in H.
  rewrite !andb_true_iff, !negb_true_iff in H. naive_solver.
Qed.

Section skip_value.
Context (v : string_view) (Hwf : sv_wf v).

Lemma SkipValue_print pre x rest :
  sv_text v = pre ++ print x ++ rest → jwf x = true → value_end rest →
  SkipValue v (length pre) = length (pre ++ print x).
Proof using Hwf.
  intros Ht Hx Hend. destruct x as [s|s|w es|w fs].
  - destruct s as [|c s]; [done|]. simpl in Hx. apply andb_true_iff in Hx as [Hc Hs].
    assert (IsJsonWhitespace c = false ∧ c ≠ c_quote ∧ c ≠ c_lbracket ∧ c ≠ c_lbrace)
      as (Hw & Hq & Ho & Ho').
    { unfold scalar_char in Hc. simpl in Hc.
      rewrite !andb_true_iff, !negb_true_iff, !Z.eqb_neq in Hc. naive_solver. }
    unfold SkipValue. rewrite (SkipValue_body_at v Hwf _ _ pre c _ Ht Hw).
    rewrite !(proj2 (Z.eqb_neq _ _)) by done. simpl. unfold skip_scalar_loop.
    eapply scan_run; [exact Ht|..].
    + simpl. constructor; [|rewrite forallb_forall in Hs; apply Forall_forall;
        intros y Hy%list_elem_of_In; specialize (Hs y Hy); revert Hs].
      1: revert Hc.
      all: unfold scalar_char; simpl; rewrite !andb_true_iff; naive_solver.
    + destruct rest as [|d rest]; [done|]. simpl in *. unfold ends_value in Hend.
      rewrite negb_false_iff, !orb_true_iff in Hend.
      rewrite !andb_false_iff, !negb_false_iff. naive_solver.
  - by apply (SkipValue_string v Hwf _ _ pre s rest).
  - apply (SkipValue_container v Hwf pre _ _ _ rest); [by right|exact Ht|].
    apply array_bal; [by right| |done]. apply Forall_true. intros. by apply print_bal; [right|].
  - apply (SkipValue_container v Hwf pre _ _ _ rest); [by left|exact Ht|].
    apply object_bal; [by left| |done]. apply Forall_true. intros. by apply print_bal; [left|].
Qed.
End skip_value.

(** *** The elements of an array and the fields of an object *)

(** The calls of a callback, one after the other; an exception ends them. *)
Fixpoint visit {S A} (action : A → M S unit) (xs : list A) : M S unit :=
  match xs with
  | [] => mret tt
  | x :: xs' => _ ← action x; visit action xs'
  end.

Definition element_text : list Z * jval * list Z → list Z := λ '(b, e, a), b ++ print e ++ a.
Definition field_text : list Z * list Z * list Z * (list Z * jval * list Z) → list Z :=
  λ '(b, k, m, (m', e, a)),
    b ++ (c_quote :: k ++ [c_quote]) ++ m ++ c_colon :: m' ++ print e ++ a.

(** [join] with what follows it: a comma after [x] when more items come. *)
Definition after_item (l : list (list Z)) (t : list Z) : list Z :=
  match l with [] => t | _ => c_comma :: join l ++ t end.
Lemma join_cons x l t : join (x :: l) ++ t = x ++ after_item l t.
Proof. destruct l; simpl; [done|]. by rewrite <-app_assoc. Qed.

Lemma stops_ws_print x rest : jwf x = true → stops IsJsonWhitespace (print x ++ rest).
Proof. intros (c & t & -> & ? & _)%print_cons. done. Qed.
Lemma is_ws_app a b : is_ws a = true → is_ws b = true → is_ws (a ++ b) = true.
Proof. unfold is_ws. rewrite forallb_app. by intros -> ->. Qed.
Lemma value_end_ws a c rest : is_ws a = true → ends_value c = true → value_end (a ++ c :: rest).
Proof.
  unfold value_end. destruct a as [|d a]; simpl; [by intros _ ->|].
  rewrite andb_true_iff. intros [H _] _. unfold ends_value. by rewrite H, !orb_true_r.
Qed.

Section children.
Context (v : string_view) (Hwf : sv_wf v).

(** The view of the bytes [t] that follow [pre]. *)
Lemma sub_text pre t rest :
  sv_text v = pre ++ t ++ rest →
  sv_text (sv_substr v (length pre) (usub (length (pre ++ t)) (length pre))) = t.
Proof using.
  intros Ht. rewrite sv_text_substr, Ht, drop_app_length.
  rewrite usub_le by (rewrite length_app; lia).
  replace (length (pre ++ t) - length pre) with (length t) by (rewrite length_app; lia).
  apply take_app_length.
Qed.

Lemma sub_wf pre rest n : sv_text v = pre ++ rest → sv_wf (sv_substr v (length pre) n).
Proof using Hwf.
  intros Ht. apply sv_wf_substr; [done|]. pose proof (text_size v Hwf _ _ Ht). lia.
Qed.

Lemma find_byte_no_quote k rest :
  no_quote k = true → find_byte c_quote (k ++ c_quote :: rest) = Some (length k).
Proof using.
  induction k as [|c k IH]; simpl; [done|].
  rewrite andb_true_iff, negb_true_iff. intros [-> Hk]. by rewrite IH.
Qed.
Lemma sv_find_quote pre k rest :
  sv_text v = pre ++ k ++ c_quote :: rest → no_quote k = true →
  sv_find v c_quote (length pre) = Some (length (pre ++ k)).
Proof using.
  intros Ht Hk. unfold sv_find. rewrite Ht, drop_app_length, find_byte_no_quote by done.
  simpl. by rewrite length_app.
Qed.

(** After an element or field: whitespace, then a comma (which is consumed)
    or the closing bracket. *)
Lemma after_value pre a l close rest :
  sv_text v = pre ++ a ++ after_item l (close :: rest) →
  is_ws a = true → ends_value close = true → close ≠ c_comma → IsJsonWhitespace close = false →
  value_end (a ++ after_item l (close :: rest)) ∧
  ∃ pre', sv_text v = pre' ++ join l ++ close :: rest ∧
    (if at_char v (SkipWhitespace v (length pre)) c_comma
     then SkipWhitespace v (length pre) + 1 else SkipWhitespace v (length pre)) = length pre'.
Proof using Hwf.
  intros Ht Ha Hend Hne Hws.
  destruct l as [|x l]; cbn [after_item] in *.
  - split; [by apply value_end_ws|]. exists (pre ++ a). split; [by rewrite Ht, <-app_assoc|].
    rewrite (SkipWhitespace_app v Hwf _ _ _ Ht Ha) by done. rewrite app_assoc in Ht.
    rewrite (at_char_app v _ _ _ _ Ht). by rewrite (proj2 (Z.eqb_neq _ _)).
  - split; [by apply value_end_ws|]. exists ((pre ++ a) ++ [c_comma]).
    split; [by rewrite Ht, <-!app_assoc|].
    rewrite (SkipWhitespace_app v Hwf _ _ _ Ht Ha) by done. rewrite app_assoc in Ht.
    rewrite (at_char_app v _ _ _ _ Ht), Z.eqb_refl. by rewrite (length_app _ [_]).
Qed.

Lemma elements_loop es pre w rest :
  sv_text v = pre ++ w ++ join (map element_text es) ++ c_rbracket :: rest →
  is_ws w = true → forallb (λ '(b, e, a), is_ws b && jwf e && is_ws a) es = true →
  ∃ views, sv_text <$> views = (λ x, print x.1.2) <$> es ∧ Forall sv_wf views ∧
    (∀ S fuel (action : string_view → M S unit) s, length es < fuel →
       ForEachElement_loop fuel v action (length pre) s = visit action views s) ∧
    (∀ i, match FindElementAt_loop i v (length pre) with
          | Some p => element_at v p | None => None end = views !! i).
Proof using Hwf.
  revert pre w. induction es as [|[[b e] a] es IH]; intros pre w Ht Hw Hes.
  - exists []. simpl in Ht. pose proof (SkipWhitespace_app v Hwf _ _ _ Ht Hw eq_refl) as Hsk.
    rewrite app_assoc in Ht. split_and!; [done|done|..].
    + intros S [|fuel] action s Hf; [simpl in Hf; lia|]. cbn [ForEachElement_loop].
      by rewrite Hsk, (sv_at_app v _ _ _ Ht).
    + intros i. rewrite lookup_nil. destruct i; cbn [FindElementAt_loop];
        unfold element_at; by rewrite Hsk, (sv_at_app v _ _ _ Ht).
  - simpl in Hes. rewrite !andb_true_iff in Hes. destruct Hes as [[[Hb He] Ha] Hes].
    cbn [map] in Ht. rewrite join_cons in Ht. unfold element_text at 1 in Ht.
    assert (sv_text v = pre ++ (w ++ b) ++ print e ++ a ++
      after_item (map element_text es) (c_rbracket :: rest)) as Ht'
      by (rewrite Ht, <-!app_assoc; done).
    pose proof (SkipWhitespace_app v Hwf _ _ _ Ht' (is_ws_app _ _ Hw Hb) (stops_ws_print _ _ He))
      as Hsk.
    rewrite app_assoc in Ht'. set (p := pre ++ w ++ b) in *.
    assert (sv_text v = (p ++ print e) ++ a ++
      after_item (map element_text es) (c_rbracket :: rest)) as Ht''
      by (rewrite Ht', <-!app_assoc; done).
    destruct (after_value _ _ _ _ _ Ht'' Ha) as (Hve & pre' & Hp' & Hpos); [done..|].
    destruct (IH pre' [] Hp' eq_refl Hes) as (views & Htx & Hvwf & Hloop & Hfind).
    pose proof (SkipValue_print v Hwf _ _ _ Ht' He Hve) as Hsv.
    destruct (print_cons e He) as (c & t & Hc & _ & Hnb).
    assert (sv_at v (length p) = Some c) as Hat
      by (rewrite Hc in Ht'; exact (sv_at_app v _ _ _ Ht')).
    eexists (sv_substr v (length p) (usub (length (p ++ print e)) (length p)) :: views).
    split_and!.
    + cbn [fmap list_fmap]. f_equal; [|done]. simpl. by eapply sub_text.
    + constructor; [|done]. by eapply sub_wf.
    + intros S [|fuel] action s Hf; [simpl in Hf; lia|].
      cbn [ForEachElement_loop visit]. rewrite Hsk, Hat, Hnb, Hsv, Hpos.
      unfold mbind, M_bind. destruct (action _ s) as [[[]|] s']; [|done].
      apply Hloop. simpl in Hf. lia.
    + intros [|i].
      * cbn [FindElementAt_loop]. unfold element_at. by rewrite Hsk, Hat, Hnb, Hsv.
      * cbn [FindElementAt_loop]. rewrite Hsk, Hat, Hnb, Hsv, Hpos. apply Hfind.
Qed.

(** One turn of the loop over the fields. *)
Lemma field_step pre w b k m m' e a l rest :
  sv_text v = pre ++ w ++ field_text (b, k, m, (m', e, a)) ++ after_item l (c_rbrace :: rest) →
  is_ws (w ++ b) = true → no_quote k = true → is_ws m = true → is_ws m' = true → jwf e = true → is_ws a = true →
  ∃ x pre', prod_map sv_text sv_text x = (k, print e) ∧ sv_wf x.1 ∧ sv_wf x.2 ∧
    sv_text v = pre' ++ join l ++ c_rbrace :: rest ∧
    ∀ S fuel (action : string_view → string_view → M S unit) s,
      ForEachField_loop (Datatypes.S fuel) v action (length pre) s =
      (_ ← action x.1 x.2; ForEachField_loop fuel v action (length pre')) s.
Proof using Hwf.
  intros Ht Hb Hk Hm Hm' He Ha. unfold field_text in Ht. set (tail := after_item _ _) in Ht.
  assert (sv_text v = pre ++ (w ++ b) ++ c_quote :: k ++ c_quote :: m ++ c_colon :: m' ++
    print e ++ a ++ tail) as Ht1 by (rewrite Ht, <-!app_assoc; simpl; by rewrite <-!app_assoc).
  pose proof (SkipWhitespace_app v Hwf _ _ _ Ht1 Hb eq_refl) as Hsk1.
  rewrite app_assoc in Ht1. set (p1 := pre ++ w ++ b) in *. set (p2 := p1 ++ [c_quote]).
  assert (sv_text v = p2 ++ k ++ c_quote :: m ++ c_colon :: m' ++ print e ++ a ++ tail) as Ht2
    by (unfold p2; rewrite Ht1, <-!app_assoc; done).
  set (p3 := p2 ++ k ++ [c_quote]).
  assert (sv_text v = p3 ++ m ++ c_colon :: m' ++ print e ++ a ++ tail) as Ht3
    by (unfold p3; rewrite Ht2, <-!app_assoc; done).
  pose proof (SkipWhitespace_app v Hwf _ _ _ Ht3 Hm eq_refl) as Hsk3. set (p4 := (p3 ++ m) ++ [c_colon]).
  assert (sv_text v = p4 ++ m' ++ print e ++ a ++ tail) as Ht4 by (unfold p4; rewrite Ht3, <-!app_assoc; done).
  pose proof (SkipWhitespace_app v Hwf _ _ _ Ht4 Hm' (stops_ws_print _ _ He)) as Hsk4.
  rewrite app_assoc in Ht3, Ht4. set (p5 := p4 ++ m') in *.
  assert (sv_text v = (p5 ++ print e) ++ a ++ tail) as Ht5 by (rewrite Ht4, <-!app_assoc; done).
  destruct (after_value _ _ _ _ _ Ht5 Ha) as (Hve & pre' & Hp' & Hpos); [done..|].
  pose proof (SkipValue_print v Hwf _ _ _ Ht4 He Hve) as Hsv.
  exists (sv_substr v (length p2) (usub (length (p2 ++ k)) (length p2)),
    sv_substr v (length p5) (usub (length (p5 ++ print e)) (length p5))), pre'.
  split; [|split; [by eapply sub_wf|split; [by eapply sub_wf|split; [done|]]]].
  { simpl. f_equal; by eapply sub_text. }
  intros S fuel action s. cbn [ForEachField_loop].
  rewrite Hsk1, (at_char_app v _ _ _ _ Ht1), Z.eqb_refl. cbn [negb].
  replace (length p1 + 1) with (length p2) by (unfold p2; rewrite length_app; simpl; lia).
  rewrite (sv_find_quote _ _ _ Ht2 Hk), <-(usub_le _ (length p2)) by (rewrite length_app; lia).
  replace (length (p2 ++ k) + 1) with (length p3) by (unfold p3; rewrite !length_app; simpl; lia).
  rewrite Hsk3, (at_char_app v _ _ _ _ Ht3), Z.eqb_refl. cbn [negb].
  replace (length (p3 ++ m) + 1) with (length p4) by (unfold p4; rewrite !length_app; simpl; lia).
  by rewrite Hsk4, Hsv, Hpos.
Qed.

Lemma fields_loop fs pre w rest :
  sv_text v = pre ++ w ++ join (map field_text fs) ++ c_rbrace :: rest →
  is_ws w = true →
  forallb (λ '(b, k, m, (m', e, a)),
    is_ws b && (no_quote k && well_escaped k) && is_ws m && is_ws m' && jwf e && is_ws a) fs
    = true →
  ∃ views, prod_map sv_text sv_text <$> views = (λ x, (x.1.1.2, print x.2.1.2)) <$> fs ∧
    Forall (λ x, sv_wf x.1 ∧ sv_wf x.2) views ∧
    ∀ S fuel (action : string_view → string_view → M S unit) s, length fs < fuel →
      ForEachField_loop fuel v action (length pre) s = visit (λ x, action x.1 x.2) views s.
Proof using Hwf.
  revert pre w. induction fs as [|[[[b k] m] [[m' e] a]] fs IH]; intros pre w Ht Hw Hfs.
  - exists []. simpl in Ht. pose proof (SkipWhitespace_app v Hwf _ _ _ Ht Hw eq_refl) as Hsk.
    rewrite app_assoc in Ht. split; [done|]. split; [done|].
    intros S [|fuel] action s Hf; [simpl in Hf; lia|]. cbn [ForEachField_loop].
    by rewrite Hsk, (at_char_app v _ _ _ _ Ht).
  - simpl in Hfs. rewrite !andb_true_iff in Hfs.
    destruct Hfs as [[[[[[Hb [Hk Hk']] Hm] Hm'] He] Ha] Hfs].
    cbn [map] in Ht. rewrite join_cons in Ht.
    destruct (field_step pre w b k m m' e a (map field_text fs) rest) as (x & pre' & Hx & Hx1 & Hx2 & Hp' & Hstep);
      [done|by apply is_ws_app|done..|].
    destruct (IH pre' [] Hp' eq_refl Hfs) as (views & Htx & Hvwf & Hloop). exists (x :: views).
    split; [cbn [fmap list_fmap]; by f_equal|]. split; [by constructor|].
    intros S [|fuel] action s Hf; [simpl in Hf; lia|]. rewrite Hstep. cbn [visit]. unfold mbind, M_bind.
    destruct (action _ _ s) as [[[]|] s']; [|done]. apply Hloop. simpl in Hf. lia.
Qed.
End children.

(** The whole text of an array, and of an object. *)
Lemma array_elements v w es rest :
  sv_wf v → sv_text v = print (JArray w es) ++ rest → jwf (JArray w es) = true →
  ∃ views, sv_text <$> views = (λ x, print x.1.2) <$> es ∧ Forall sv_wf views ∧
    (∀ S (action : string_view → M S unit) s, ForEachElement v action s = visit action views s) ∧
    (∀ i, FindElement v i = views !! i).
Proof.
  intros Hwf Ht Hx. simpl in Ht, Hx. rewrite <-app_assoc in Ht.
  apply andb_true_iff in Hx as [Hw Hes].
  assert (sv_text v = [c_lbracket] ++ w ++ join (map element_text es) ++ c_rbracket :: rest)
    as Ht' by (rewrite Ht, <-app_assoc; done).
  destruct (elements_loop v Hwf es _ _ _ Ht' Hw Hes) as (views & Htx & Hvwf & Hloop & Hfind).
  exists views. split_and!; [done|done|..].
  - intros S action s. apply Hloop. pose proof (text_size v Hwf _ _ Ht') as Hsz.
    assert (length es ≤ length (join (map element_text es))).
    { clear - Hes. induction es as [|[[b e] a] es IH]; [simpl; lia|].
      simpl in Hes. rewrite !andb_true_iff in Hes. destruct Hes as [[[_ He] _] Hes].
      cbn [map]. rewrite <-(app_nil_r (join _)), join_cons. specialize (IH Hes).
      destruct (print_cons e He) as (c & t & Hp & _). unfold element_text at 1. rewrite Hp.
      destruct es as [|x es]; cbn [map after_item] in *;
        rewrite !length_app; simpl; rewrite ?length_app; simpl; [lia|].
      simpl in IH. lia. }
    rewrite !length_app in Hsz. simpl in Hsz. lia.
  - intros i. unfold FindElement. rewrite (at_char_app v [] _ _ _ Ht'). apply Hfind.
Qed.

Lemma object_fields v w fs rest :
  sv_wf v → sv_text v = print (JObject w fs) ++ rest → jwf (JObject w fs) = true →
  ∃ views, prod_map sv_text sv_text <$> views = (λ x, (x.1.1.2, print x.2.1.2)) <$> fs ∧
    Forall (λ x, sv_wf x.1 ∧ sv_wf x.2) views ∧
    ∀ S (action : string_view → string_view → M S unit) s,
      ForEachField v action s = visit (λ x, action x.1 x.2) views s.
Proof.
  intros Hwf Ht Hx. simpl in Ht, Hx. rewrite <-app_assoc in Ht.
  apply andb_true_iff in Hx as [Hw Hfs].
  assert (sv_text v = [c_lbrace] ++ w ++ join (map field_text fs) ++ c_rbrace :: rest)
    as Ht' by (rewrite Ht, <-app_assoc; done).
  destruct (fields_loop v Hwf fs _ _ _ Ht' Hw Hfs) as (views & Htx & Hvwf & Hloop).
  exists views. split; [done|]. split; [done|]. intros S action s.
  unfold ForEachField. rewrite (at_char_app v [] _ _ _ Ht'). apply Hloop.
  pose proof (text_size v Hwf _ _ Ht') as Hsz.
  assert (length fs ≤ length (join (map field_text fs))).
  { clear. induction fs as [|[[[b k] m] [[m' e] a]] fs IH]; [simpl; lia|].
    cbn [map]. rewrite <-(app_nil_r (join _)), join_cons.
    destruct fs as [|x fs]; cbn [map after_item field_text] in *;
      rewrite !length_app; simpl; rewrite ?length_app; simpl; [lia|].
    simpl in IH. lia. }
  rewrite !length_app in Hsz. simpl in Hsz. lia.
Qed.

(** The array behind a key of a larger message. *)
Lemma array_of_key message key p w es rest :
  FindValueStart message key = Some p → sv_wf (sv_from message p) →
  sv_text (sv_from message p) = print (JArray w es) ++ rest → jwf (JArray w es) = true →
  ∃ views, sv_text <$> views = (λ x, print x.1.2) <$> es ∧ Forall sv_wf views ∧
    ∀ S (action : string_view → M S unit) s,
      ForEachArrayElement message key action s = visit action views s.
Proof.
  intros Hp Hwf Ht Hx.
  destruct (array_elements _ _ _ _ Hwf Ht Hx) as (views & Htx & Hvwf & Hloop & _).
  exists views. split; [done|]. split; [done|]. intros S action s.
  unfold ForEachArrayElement. rewrite Hp.
  simpl in Ht. rewrite <-app_assoc in Ht.
  pose proof (sv_at_app (sv_from message p) [] c_lbracket _ Ht) as Hat.
  apply sv_at_Some in Hat as [Hlt Hmem]. simpl in Hlt, Hmem.
  rewrite lookup_drop, Nat.add_0_r in Hmem.
  assert (at_char message p c_lbracket = true) as ->; [|done].
  unfold at_char, sv_at. rewrite (proj2 (Nat.ltb_lt _ _)) by lia. by rewrite Hmem.
Qed.

(** *** Key lookup

    A message without escaped quotes is a sequence of gaps and quoted
    strings: [g0 "s1" g1 "s2" g2 ...]. *)
Fixpoint segs_text (l : list (list Z * list Z)) : list Z :=
  match l with
  | [] => []
  | (s, g) :: l' => c_quote :: s ++ c_quote :: g ++ segs_text l'
  end.

Fixpoint drop_ws (l : list Z) : list Z :=
  match l with [] => [] | c :: r => if IsJsonWhitespace c then drop_ws r else l end.

(** A gap that starts with a colon, and what follows the colon. *)
Definition after_colon (g : list Z) : option (list Z) :=
  match drop_ws g with
  | c :: r => if (c =? c_colon)%Z then Some (drop_ws r) else None
  | [] => None
  end.

(** The first string equal to [key] that a colon follows, and what is after it. *)
Fixpoint key_split (key : list Z) (l : list (list Z * list Z))
    : option (list Z * list (list Z * list Z)) :=
  match l with
  | [] => None
  | (s, g) :: l' =>
      if decide (s = key) then
        match after_colon g with
        | Some r => Some (r, l')
        | None => key_split key l'
        end
      else key_split key l'
  end.

(** The string value of [key]. *)
Definition string_of_key (key : list Z) (l : list (list Z * list Z)) : option (list Z) :=
  match key_split key l with
  | Some ([], (s, _) :: _) => Some s
  | _ => None
  end.

Definition segs_ok (key g0 : list Z) (l : list (list Z * list Z)) : Prop :=
  no_quote key = true ∧ no_quote g0 = true ∧
  Forall (λ x, no_quote x.1 = true ∧ no_quote x.2 = true ∧ x.2 ≠ key) l.

Lemma quote_split a b x y :
  no_quote a = true → no_quote b = true →
  a ++ c_quote :: x = b ++ c_quote :: y → a = b ∧ x = y.
Proof.
  intros Ha Hb Heq. pose proof (find_byte_no_quote a x Ha) as H1.
  rewrite Heq, find_byte_no_quote in H1 by done. injection H1 as Hlen.
  apply app_inj_1 in Heq as [? ?]; [|done]. by simplify_eq.
Qed.
Lemma no_quote_find a : no_quote a = true → find_byte c_quote a = None.
Proof.
  induction a as [|c a IH]; simpl; [done|].
  rewrite andb_true_iff, negb_true_iff. intros [-> H]. by rewrite IH.
Qed.

(** [find_sub] at a quote, with the closing quote at hand or missing. *)
Lemma pattern_at key s rest :
  no_quote key = true → no_quote s = true →
  key_pattern key = take (length (key_pattern key)) (c_quote :: s ++ c_quote :: rest) ↔ key = s.
Proof.
  intros Hk Hs. unfold key_pattern. split.
  - intros Heq. assert (c_quote :: s ++ c_quote :: rest =
      (c_quote :: key ++ [c_quote]) ++
      drop (length (c_quote :: key ++ [c_quote])) (c_quote :: s ++ c_quote :: rest)) as H
      by (rewrite Heq at 1; by rewrite take_drop).
    generalize dependent (drop (length (c_quote :: key ++ [c_quote]))
      (c_quote :: s ++ c_quote :: rest)). intros t H.
    simpl in H. injection H as H. rewrite <-app_assoc in H. simpl in H.
    by apply quote_split in H as [-> _].
  - intros ->. simpl. f_equal. rewrite length_app. simpl.
    replace (s ++ c_quote :: rest) with ((s ++ [c_quote]) ++ rest) by (by rewrite <-app_assoc).
    symmetry. apply take_app_length'. rewrite length_app. simpl. lia.
Qed.
Lemma pattern_not_at key g :
  no_quote g = true →
  key_pattern key ≠ take (length (key_pattern key)) (c_quote :: g).
Proof.
  intros Hg Heq. unfold key_pattern in Heq. simpl in Heq. injection Heq as Heq.
  assert (no_quote (take (length (key ++ [c_quote])) g) = true) as H.
  { unfold no_quote in *. rewrite forallb_forall in Hg |- *. intros x Hx%list_elem_of_In.
    apply Hg, list_elem_of_In. by eapply elem_of_take in Hx as (? & ? & ?); eapply list_elem_of_lookup_2. }
  rewrite <-Heq in H. unfold no_quote in H. rewrite forallb_app in H. simpl in H.
  by rewrite andb_false_r in H.
Qed.

Lemma find_sub_skip key g t :
  no_quote g = true →
  find_sub (key_pattern key) (g ++ t) = Nat.add (length g) <$> find_sub (key_pattern key) t.
Proof.
  induction g as [|c g IH]; intros Hg; [simpl; by destruct (find_sub _ t)|].
  simpl in Hg. apply andb_true_iff in Hg as [Hc Hg]. apply negb_true_iff, Z.eqb_neq in Hc.
  cbn [find_sub app length]. rewrite decide_False, IH by
    (try done; unfold key_pattern; simpl; congruence).
  by destruct (find_sub _ t).
Qed.

Lemma find_sub_segs key g0 l :
  segs_ok key g0 l →
  find_sub (key_pattern key) (g0 ++ segs_text l) =
    match l with
    | [] => None
    | (s, g) :: l' =>
        if decide (s = key) then Some (length g0)
        else Nat.add (length (g0 ++ c_quote :: s ++ [c_quote])) <$>
          find_sub (key_pattern key) (g ++ segs_text l')
    end.
Proof.
  intros (Hk & Hg0 & Hl). rewrite find_sub_skip by done. destruct l as [|[s g] l'].
  - done.
  - inversion_clear Hl as [|? ? (Hs & Hg & Hne) Hl']. simpl in Hs, Hg, Hne.
    cbn [segs_text find_sub].
    case_decide as H1; rewrite pattern_at in H1 by done; case_decide as H2; try congruence.
    { simpl. f_equal. lia. }
    change (s ++ c_quote :: g ++ segs_text l') with (s ++ (c_quote :: g ++ segs_text l')).
    rewrite find_sub_skip by done. cbn [find_sub].
    rewrite decide_False; [|].
    { rewrite <-!option_fmap_compose. apply option_fmap_ext. intros n. simpl.
      rewrite !length_app. simpl. rewrite length_app. simpl. lia. }
    destruct l' as [|[s' g'] l'']; simpl.
    + rewrite app_nil_r. by apply pattern_not_at.
    + intros H. by apply (pattern_at key g) in H.
Qed.

Lemma drop_ws_split l :
  ∃ w, l = w ++ drop_ws l ∧ is_ws w = true ∧ stops IsJsonWhitespace (drop_ws l).
Proof.
  induction l as [|c l (w & Hl & Hw & Hs)]; [by exists []|]. simpl.
  destruct (IsJsonWhitespace c) eqn:Hc; [|by exists []].
  exists (c :: w). split_and!; [simpl; by f_equal|simpl; by rewrite Hc|done].
Qed.
Lemma no_quote_drop_ws l : no_quote l = true → no_quote (drop_ws l) = true.
Proof.
  induction l as [|c l IH]; simpl; [done|]. rewrite andb_true_iff. intros [Hc Hl].
  destruct (IsJsonWhitespace c); [auto|]. simpl. by rewrite Hc.
Qed.
Lemma key_split_ok g0 key l r l' :
  segs_ok key g0 l → key_split key l = Some (r, l') →
  no_quote r = true ∧ Forall (λ x : list Z * list Z, no_quote x.1 = true) l'.
Proof.
  intros (_ & _ & Hl). induction Hl as [|[s g] l (Hs & Hg & _) Hl IH]; [done|].
  cbn [key_split]. case_decide; [|done]. unfold after_colon.
  pose proof (no_quote_drop_ws g Hg) as Hg'. destruct (drop_ws g) as [|c q]; [done|].
  destruct (c =? c_colon)%Z; [|done]. intros [= <- <-]. simpl in Hg'.
  apply andb_true_iff in Hg' as [_ Hq]. split; [by apply no_quote_drop_ws|].
  eapply Forall_impl; [exact Hl|]. by intros ? (? & _).
Qed.
Lemma stops_app_segs r l : stops IsJsonWhitespace r → stops IsJsonWhitespace (r ++ segs_text l).
Proof. destruct r; [|done]. by destruct l as [|[??]?]. Qed.

Section key_lookup.
Context (v : string_view) (Hwf : sv_wf v) (key : list Z).

(** The gap after a matching string decides: with a colon the value is found,
    without one the search goes on behind the string. *)
Lemma colon_check pre g l :
  sv_text v = pre ++ g ++ segs_text l →
  match after_colon g with
  | Some r => at_char v (SkipWhitespace v (length pre)) c_colon = true ∧
      ∃ pre', sv_text v = pre' ++ r ++ segs_text l ∧
        SkipWhitespace v (SkipWhitespace v (length pre) + 1) = length pre'
  | None => at_char v (SkipWhitespace v (length pre)) c_colon = false
  end.
Proof using Hwf.
  intros Ht. destruct (drop_ws_split g) as (w & Hg & Hw & Hs). unfold after_colon.
  rewrite Hg, <-app_assoc in Ht.
  rewrite (SkipWhitespace_app v Hwf _ _ _ Ht Hw (stops_app_segs _ _ Hs)).
  rewrite app_assoc in Ht. destruct (drop_ws g) as [|c r]; simpl in Ht.
  - destruct l as [|[s' g'] l]; simpl in Ht.
    + apply at_char_end. by rewrite Ht, app_nil_r.
    + by rewrite (at_char_app v _ _ _ _ Ht).
  - rewrite (at_char_app v _ _ _ _ Ht). destruct (c =? c_colon)%Z; [|done].
    split; [done|]. destruct (drop_ws_split r) as (w' & Hr & Hw' & Hs').
    assert (sv_text v = ((pre ++ w) ++ [c]) ++ w' ++ drop_ws r ++ segs_text l) as Ht'.
    { rewrite Ht, <-!app_assoc. rewrite Hr at 1. simpl. by rewrite <-!app_assoc. }
    exists (((pre ++ w) ++ [c]) ++ w'). split; [by rewrite Ht', <-!app_assoc|].
    rewrite <-(SkipWhitespace_app v Hwf _ _ _ Ht' Hw' (stops_app_segs _ _ Hs')).
    by rewrite (length_app _ [c]).
Qed.

Notation find_from := (loop (FindValueStart_step v key) (to_go v) (FindValueStart_progress v key)).
Lemma find_from_segs pre g0 l :
  sv_text v = pre ++ g0 ++ segs_text l → segs_ok key g0 l →
  match key_split key l with
  | None => find_from (length pre) = None
  | Some (r, l') => ∃ pre', sv_text v = pre' ++ r ++ segs_text l' ∧ find_from (length pre) = Some (length pre')
  end.
Proof using Hwf.
  assert (∀ pre rest, sv_text v = pre ++ rest →
    sv_find_sub v (key_pattern key) (length pre) =
    Nat.add (length pre) <$> find_sub (key_pattern key) rest) as Hfind.
  { intros p rest Hp. unfold sv_find_sub. pose proof (text_size v Hwf _ _ Hp).
    rewrite (proj2 (Nat.leb_le _ _)) by lia. by rewrite Hp, drop_app_length. }
  revert pre g0. induction l as [|[s g] l IH]; intros pre g0 Ht Hok;
    pose proof (find_sub_segs _ _ _ Hok) as Hsub; cbn [key_split].
  - rewrite loop_eq. unfold FindValueStart_step at 1. by rewrite (Hfind _ _ Ht), Hsub.
  - assert (segs_ok key g l) as Hok'.
    { destruct Hok as (? & _ & Hl). inversion_clear Hl as [|? ? (?&?&?) ?]. done. }
    set (pre' := pre ++ g0 ++ c_quote :: s ++ [c_quote]).
    assert (sv_text v = pre' ++ g ++ segs_text l) as Ht'.
    { unfold pre'. rewrite Ht, <-!app_assoc. simpl. by rewrite <-!app_assoc. }
    case_decide as Hs.
    + subst s.
      assert (find_from (length pre) = if at_char v (SkipWhitespace v (length pre')) c_colon
        then Some (SkipWhitespace v (SkipWhitespace v (length pre') + 1)) else find_from (length pre')) as ->.
      { rewrite loop_eq. unfold FindValueStart_step at 1. rewrite (Hfind _ _ Ht), Hsub, decide_True by done.
        cbn [fmap option_fmap option_map].
        replace (length pre + length g0 + length (key_pattern key)) with (length pre')
          by (unfold pre', key_pattern; rewrite !length_app; lia). by destruct (at_char _ _ _). }
      pose proof (colon_check _ _ _ Ht') as Hc. destruct (after_colon g) as [r|].
      * destruct Hc as [-> (q & Hq & ->)]. by exists q.
      * rewrite Hc. by apply (IH pre' g).
    + replace (find_from (length pre)) with (find_from (length pre')); [by apply (IH pre' g)|].
      rewrite (loop_eq _ _ _ (length pre)), (loop_eq _ _ _ (length pre')). unfold FindValueStart_step at 1 3.
      rewrite (Hfind _ _ Ht), (Hfind _ _ Ht'), Hsub, decide_False by done.
      replace (length pre') with (length pre + length (g0 ++ c_quote :: s ++ [c_quote]))
        by (symmetry; apply length_app).
      destruct (find_sub _ (g ++ segs_text l)) as [n|]; [|done].
      cbn [fmap option_fmap option_map].
      by rewrite <-(Nat.add_assoc (length pre) _ n).
Qed.

Lemma FindValueStart_segs g0 l :
  sv_text v = g0 ++ segs_text l → segs_ok key g0 l →
  match key_split key l with
  | None => FindValueStart v key = None
  | Some (r, l') => ∃ pre', sv_text v = pre' ++ r ++ segs_text l' ∧
      FindValueStart v key = Some (length pre')
  end.
Proof using Hwf. intros Ht Hok. by apply (find_from_segs [] g0 l). Qed.

Lemma FindString_segs g0 l :
  sv_text v = g0 ++ segs_text l → segs_ok key g0 l →
  sv_text <$> FindString v key = string_of_key key l.
Proof using Hwf.
  intros Ht Hok. pose proof (FindValueStart_segs g0 l Ht Hok) as H.
  unfold FindString, string_of_key.
  assert (∀ r l', key_split key l = Some (r, l') → no_quote r = true ∧
    Forall (λ x : list Z * list Z, no_quote x.1 = true) l') as Hns.
  { intros r l'. by apply (key_split_ok g0). }
  destruct (key_split key l) as [[r l']|]; [|by rewrite H].
  destruct H as (pre' & Hp & ->). destruct (Hns r l' eq_refl) as [Hr Hl'].
  destruct r as [|c r]; simpl in Hp.
  - destruct l' as [|[s g] l']; simpl in Hp.
    + rewrite at_char_end; [done|]. by rewrite Hp, app_nil_r.
    + rewrite (at_char_app v _ _ _ _ Hp), Z.eqb_refl.
      inversion_clear Hl' as [|? ? Hs _]. simpl in Hs.
      assert (sv_text v = (pre' ++ [c_quote]) ++ s ++ c_quote :: g ++ segs_text l') as Hp'
        by (by rewrite Hp, <-app_assoc).
      replace (length pre' + 1) with (length (pre' ++ [c_quote]))
        by (rewrite length_app; simpl; lia).
      rewrite (sv_find_quote v _ _ _ Hp' Hs). simpl. f_equal.
      rewrite <-(usub_le (length (_ ++ s))) by (rewrite (length_app _ s); lia).
      by eapply sub_text.
  - rewrite (at_char_app v _ _ _ _ Hp). simpl in Hr.
    apply andb_true_iff in Hr as [Hc _]. apply negb_true_iff in Hc. by rewrite Hc.
Qed.
End key_lookup.

(** *** Progress and termination *)
Lemma SkipValue_body_ge v skip Hskip pos : (∀ q, q ≤ skip q) → pos ≤ SkipValue_body v skip Hskip pos.
Proof.
  intros Hge. unfold SkipValue_body. cbv zeta. etrans; [apply (SkipWhitespace_ge v)|].
  destruct (sv_at v _) as [c|]; [|done]. set (p := SkipWhitespace v pos). destruct (c =? c_quote)%Z.
  { pose proof (skip_string_loop_ge v (p + 1)). lia. }
  destruct (_ || _); [|apply skip_scalar_loop_ge]. etrans; [apply (Nat.le_add_r p 1)|].
  apply (while_mono fst _ _ _ _ (p + 1, 1%Z)). intros [q d] _. unfold nested_body.
  destruct (at_char _ _ _); simpl; [apply Hge|lia].
Qed.
Lemma SkipValue_ge v pos : pos ≤ SkipValue v pos.
Proof. apply SkipValue_body_ge. intros q. apply SkipValue_body_ge. lia. Qed.
(** The depth is at most the number of bytes read. *)
Lemma nested_depth v open close skip pos st :
  (∀ q, q ≤ skip q) → steps (nested_cond v) (nested_body v open close skip) (pos + 1, 1%Z) st →
  (0 ≤ st.2 ≤ Z.max 1 (Z.of_nat (sv_size v)))%Z.
Proof.
  intros Hskip. remember (pos + 1, 1%Z) as st0 eqn:H0.
  assert ((0 ≤ st0.2 ≤ Z.of_nat (st0.1 - pos))%Z ∧ pos < st0.1 ∧ (st0.2 ≤ Z.max 1 (Z.of_nat (sv_size v)))%Z) as Hst
    by (subst; simpl; lia). clear H0.
  induction 1 as [|[p d] st' Hc _ IH]; [lia|]. apply IH. clear IH. unfold nested_cond in Hc. cbn [fst snd] in *.
  apply andb_true_iff in Hc as [Hp%Nat.ltb_lt Hd%Z.ltb_lt]. unfold nested_body. specialize (Hskip p).
  destruct (at_char v p c_quote), (at_char v p open), (at_char v p close); simpl; lia.
Qed.

Lemma SkipWhitespace_stops v pos : at_pred v (SkipWhitespace v pos) IsJsonWhitespace = false.
Proof.
  exact (proj2 (while_reached (λ pos, at_pred v pos IsJsonWhitespace) S (to_go v) (scan_progress v _) pos)).
Qed.
(** How [SkipValue] goes through a container. *)
Lemma SkipValue_nested v pos c :
  sv_at v pos = Some c → c = c_lbrace ∨ c = c_lbracket →
  ∃ st, steps (nested_cond v) (nested_body v c (if (c =? c_lbrace)%Z then c_rbrace else c_rbracket) (SkipString v))
      (pos + 1, 1%Z) st ∧
    SkipValue v pos = st.1 ∧ (sv_size v ≤ st.1 ∨ st.2 = 0%Z) ∧
    ((Z.of_nat (sv_size v) < 2 ^ 31)%Z → (0 ≤ st.2 < 2 ^ 31)%Z).
Proof.
  intros Hc Hopen.
  assert (SkipWhitespace v pos = pos) as Hw.
  { unfold SkipWhitespace. rewrite while_eq. unfold at_pred. rewrite Hc. by destruct Hopen as [-> | ->]. }
  set (body := nested_body v c _ (SkipString v)).
  pose proof (while_reached (nested_cond v) body (λ st, to_go v st.1)
    (nested_progress v c _ _ (SkipValue_body_advances v S _)) (pos + 1, 1%Z)) as [Hst Hend].
  set (st := while _ _ _ _ _) in *. exists st. split; [done|].
  pose proof (nested_depth v c _ (SkipString v) pos st ltac:(intros q; apply SkipValue_body_ge; lia) Hst) as Hd.
  split; [|split; [|lia]].
  - unfold SkipValue, SkipValue_body. cbv zeta. rewrite Hw, Hc. by destruct Hopen as [-> | ->].
  - unfold nested_cond in Hend. apply andb_false_iff in Hend as [Hend%Nat.ltb_ge|Hend%Z.ltb_ge]; [by left|right; lia].
Qed.

Lemma sv_find_ge v c from n : sv_find v c from = Some n → from ≤ n.
Proof. unfold sv_find. destruct (find_byte _ _); [|done]. intros [= <-]. lia. Qed.
Lemma skip_comma_ge v pos : pos ≤ if at_char v pos c_comma then pos + 1 else pos.
Proof. destruct (at_char _ _ _); lia. Qed.

Section for_each_upholds.
Context {S : Type} (I : S → Prop) (Q : stop → Prop).

Lemma ForEachField_loop_upholds fuel v (action : string_view → string_view → M S unit) pos :
  (∀ k x, upholds I Q (action k x)) → fuel ≠ 0 → sv_size v < pos + fuel →
  upholds I Q (ForEachField_loop fuel v action pos).
Proof.
  intros Hact. revert pos. induction fuel as [|fuel IH]; intros pos Hnz Hf; [done|].
  cbn [ForEachField_loop].
  pose proof (SkipWhitespace_ge v pos) as H0.
  destruct (at_char v (SkipWhitespace v pos) c_quote) eqn:Hq; cbn [negb]; [|auto with upholds].
  apply at_char_lt in Hq.
  destruct (sv_find v c_quote _) as [ke|] eqn:Hke; [|auto with upholds]. apply sv_find_ge in Hke.
  pose proof (SkipWhitespace_ge v (ke + 1)) as H1.
  destruct (at_char v (SkipWhitespace v (ke + 1)) c_colon); cbn [negb]; [|auto with upholds].
  set (p2 := SkipWhitespace v (_ + 1)). set (p3 := SkipValue v p2).
  pose proof (SkipWhitespace_ge v _ : _ ≤ p2) as H2. pose proof (SkipValue_ge v p2 : _ ≤ p3) as H3.
  pose proof (SkipWhitespace_ge v p3) as H4.
  pose proof (skip_comma_ge v (SkipWhitespace v p3)) as H5.
  apply upholds_bind; [apply Hact|]. intros _. apply IH; lia.
Qed.

(** An element callback that rejects empty elements keeps the loop going
    forward; one that accepts them does not, on a closing brace. *)
Lemma ForEachElement_loop_upholds fuel v (action : string_view → M S unit) pos :
  (∀ x, upholds I Q (action x)) →
  (∀ x s, sv_size x = 0 → ∀ s', action x s ≠ (Ok tt, s')) →
  fuel ≠ 0 → sv_size v < pos + fuel →
  upholds I Q (ForEachElement_loop fuel v action pos).
Proof.
  intros Hact Hempty. revert pos. induction fuel as [|fuel IH]; intros pos Hnz Hf; [done|].
  cbn [ForEachElement_loop].
  pose proof (SkipWhitespace_ge v pos) as H0.
  destruct (sv_at v (SkipWhitespace v pos)) as [c|] eqn:Hc; [|auto with upholds].
  apply sv_at_Some in Hc as [Hlt _].
  destruct (c =? c_rbracket)%Z; [auto with upholds|].
  set (p1 := SkipWhitespace v pos) in *.
  pose proof (SkipValue_ge v p1) as H1. set (p2 := SkipValue v p1) in *.
  pose proof (SkipWhitespace_ge v p2) as H2.
  pose proof (skip_comma_ge v (SkipWhitespace v p2)) as H3.
  assert (p1 = p2 → sv_size (sv_substr v p1 (usub p2 p1)) = 0) as Hz.
  { intros Heq. unfold sv_substr. cbn [sv_size]. rewrite usub_le by done. lia. }
  set (x := sv_substr _ _ _) in *. intros s Hs. specialize (Hact x s Hs).
  specialize (Hempty x s). unfold mbind, M_bind.
  destruct (action x s) as [[[]|y] s'] eqn:Ea; [|done].
  assert (p1 ≠ p2) by (intros Heq; by apply (Hempty (Hz Heq) s')).
  apply IH; [lia|lia|done].
Qed.

Lemma ForEachField_upholds v (action : string_view → string_view → M S unit) :
  (∀ k x, upholds I Q (action k x)) → upholds I Q (ForEachField v action).
Proof.
  intros Ha. unfold ForEachField. destruct (at_char v 0 c_lbrace); cbn [negb]; [|auto with upholds].
  apply ForEachField_loop_upholds; [done|lia|lia].
Qed.
Lemma ForEachElement_upholds v (action : string_view → M S unit) :
  (∀ x, upholds I Q (action x)) →
  (∀ x s, sv_size x = 0 → ∀ s', action x s ≠ (Ok tt, s')) →
  upholds I Q (ForEachElement v action).
Proof. intros Ha He. apply ForEachElement_loop_upholds; [done|done|lia|lia]. Qed.
Lemma ForEachArrayElement_upholds v key (action : string_view → M S unit) :
  (∀ x, upholds I Q (action x)) →
  (∀ x s, sv_size x = 0 → ∀ s', action x s ≠ (Ok tt, s')) →
  upholds I Q (ForEachArrayElement v key action).
Proof.
  intros Ha He. unfold ForEachArrayElement. destruct (FindValueStart v key); [|auto with upholds].
  destruct (at_char _ _ _); [|auto with upholds]. by apply ForEachElement_upholds.
Qed.
End for_each_upholds.

Lemma ForEachElement_loop_stuck {S} fuel v (action : string_view → M S unit) pre rest s :
  sv_wf v → sv_text v = pre ++ c_rbrace :: rest →
  (∀ x s, ∃ s', action x s = (Ok tt, s')) →
  (ForEachElement_loop fuel v action (length pre) s).1 = Stop Fuel.
Proof.
  intros Hwf Ht Hact. revert s. induction fuel as [|fuel IH]; intros s;
    cbn [ForEachElement_loop]; [done|].
  assert (SkipWhitespace v (length pre) = length pre) as Hw
    by (eapply SkipWhitespace_id; [done|exact Ht|done]).
  rewrite Hw, (sv_at_app v _ _ _ Ht). change (c_rbrace =? c_rbracket)%Z with false. cbv iota.
  assert (SkipValue v (length pre) = length pre) as ->.
  { unfold SkipValue. rewrite (SkipValue_body_at v Hwf _ _ pre c_rbrace _ Ht) by done.
    change (skip_scalar_loop v (length pre) = length pre). unfold skip_scalar_loop.
    rewrite (scan_run v _ pre [] (c_rbrace :: rest)); [by rewrite app_nil_r|done..]. }
  rewrite Hw, (at_char_app v _ _ _ _ Ht). change (c_rbrace =? c_comma)%Z with false. cbv iota.
  set (x := sv_substr _ _ _). destruct (Hact x s) as (s' & Hs').
  unfold mbind, M_bind. rewrite Hs'. apply IH.
Qed.
(** *** Views that [FindString] returns *)
Lemma FindString_wf v key x : sv_wf v → FindString v key = Some x → sv_wf x.
Proof.
  intros Hwf. unfold FindString. destruct (FindValueStart v key) as [start|]; [|done].
  destruct (at_char v start c_quote) eqn:Hq; [|done]. apply at_char_lt in Hq.
  destruct (sv_find v c_quote (start + 1)) as [e|]; [|done]. intros [= <-].
  apply sv_wf_substr; [done|lia].
Qed.
Lemma FindString_empty v key : sv_size v = 0 → FindString v key = None.
Proof.
  intros Hz. unfold FindString, FindValueStart. rewrite loop_eq. unfold FindValueStart_step at 1.
  unfold sv_find_sub, sv_text. rewrite Hz. done.
Qed.
Lemma ParseDouble_FindString v key x :
  sv_wf v → FindString v key = Some x → ParseDouble x = ParseDouble (sv_of (sv_text x)).
Proof.
  intros Hwf. unfold FindString. destruct (FindValueStart v key) as [start|]; [|done].
  destruct (at_char v start c_quote); [|done].
  destruct (sv_find v c_quote (start + 1)) as [e|] eqn:Hfind; [|done]. intros [= <-].
  unfold sv_find in Hfind. destruct (find_byte _ _) as [n|] eqn:Hn; [|done].
  simplify_eq/=. replace (start + 1 + n - (start + 1)) with n by lia.
  assert (drop (start + 1) (sv_text v) !! n = Some c_quote) as Hq.
  { revert Hn. generalize (drop (start + 1) (sv_text v)). intros l. revert n.
    induction l as [|c l IH]; intros n; simpl; [done|].
    destruct (Z.eqb_spec c c_quote) as [->|]; [by intros [= <-]|].
    destruct (find_byte c_quote l); [|done]. intros [= <-]. simpl. by apply IH. }
  unfold sv_text in Hq. rewrite lookup_drop, lookup_take in Hq. case_decide; [|done].
  unfold ParseDouble, sv_of, sv_text, sv_substr. cbn [sv_mem sv_size].
  rewrite Nat.min_l by lia. rewrite <-lookup_drop in Hq.
  rewrite <-(take_drop_middle _ _ _ Hq) at 1. rewrite strtod_delimited; [done|].
  unfold ends_number. set_solver.
Qed.
(** *** Lookups depend on the text of the view only *)
Section same_text.
Context (v v' : string_view) (Ht : sv_text v = sv_text v') (Hs : sv_size v = sv_size v').

Lemma at_pred_text pos f : at_pred v pos f = at_pred v' pos f.
Proof. unfold at_pred. by rewrite !sv_at_text, Ht. Qed.
Lemma at_char_text pos c : at_char v pos c = at_char v' pos c.
Proof. unfold at_char. by rewrite !sv_at_text, Ht. Qed.
Lemma SkipWhitespace_text pos : SkipWhitespace v pos = SkipWhitespace v' pos.
Proof. apply while_ext; [|done]. intros p. apply at_pred_text. Qed.
Lemma FindValueStart_text key : FindValueStart v key = FindValueStart v' key.
Proof.
  apply loop_ext. intros from. unfold FindValueStart_step, sv_find_sub. rewrite Hs, Ht. case_match; [|done].
  by rewrite SkipWhitespace_text, at_char_text, SkipWhitespace_text.
Qed.
Lemma FindString_text key : sv_text <$> FindString v key = sv_text <$> FindString v' key.
Proof.
  unfold FindString. rewrite FindValueStart_text. case_match; [|done].
  rewrite at_char_text. case_match; [|done]. unfold sv_find. rewrite Ht. case_match; [|done].
  simpl. f_equal. by rewrite !sv_text_substr, Ht.
Qed.
Lemma SkipValue_body_text skip skip' Hskip Hskip' pos :
  (∀ q, skip q = skip' q) → SkipValue_body v skip Hskip pos = SkipValue_body v' skip' Hskip' pos.
Proof.
  intros Heq. unfold SkipValue_body. cbv zeta. rewrite SkipWhitespace_text, !sv_at_text, Ht.
  case_match; [|done]. case_match; [|case_match; [f_equal|]]; [f_equal| |]; apply while_ext.
  - intros p. apply at_pred_text.
  - intros p. unfold skip_string_body. by rewrite at_char_text.
  - intros st. unfold nested_cond. by rewrite Hs.
  - intros [p d]. unfold nested_body. by rewrite !at_char_text, Heq.
  - intros p. apply at_pred_text.
  - done.
Qed.
Lemma SkipValue_text pos : SkipValue v pos = SkipValue v' pos.
Proof. apply SkipValue_body_text. intros q. by apply SkipValue_body_text. Qed.
Lemma element_at_text pos : sv_text <$> element_at v pos = sv_text <$> element_at v' pos.
Proof.
  unfold element_at. rewrite SkipWhitespace_text, sv_at_text, sv_at_text, Ht.
  case_match; [|done]. case_match; [done|]. cbn [fmap option_fmap option_map].
  by rewrite !sv_text_substr, Ht, SkipValue_text.
Qed.
End same_text.

Lemma sv_text_from v pos : sv_text (sv_from v pos) = drop pos (sv_text v).
Proof. unfold sv_text, sv_from. simpl. by rewrite skipn_firstn_comm. Qed.
Lemma element_at_wf v pos e : sv_wf v → element_at v pos = Some e → sv_wf e.
Proof.
  unfold element_at. intros Hv. destruct (sv_at v _) eqn:Ha; [|done]. case_match; [done|].
  intros [= <-]. apply sv_wf_substr; [done|]. unfold sv_at in Ha. case_match; [|done].
  match goal with H : (_ <? _) = true |- _ => apply Nat.ltb_lt in H; lia end.
Qed.
(** The first element of an array depends on the text of the view only. *)
Lemma FindArrayElement_text v v' key e :
  sv_wf v → sv_text v = sv_text v' → sv_size v = sv_size v' → FindArrayElement v' key 0 = Some e →
  ∃ e', FindArrayElement v key 0 = Some e' ∧ sv_wf e' ∧ sv_text e' = sv_text e.
Proof.
  intros Hv Ht Hs. unfold FindArrayElement.
  rewrite (FindValueStart_text v v') by done. destruct (FindValueStart v' key) as [n|]; [|done].
  rewrite (at_char_text v v') by done. destruct (at_char v' n c_lbracket) eqn:Ec; [|done].
  unfold FindElementAt. cbn [FindElementAt_loop]. intros He.
  pose proof (element_at_text (sv_from v n) (sv_from v' n) ltac:(by rewrite !sv_text_from, Ht)
    ltac:(simpl; by rewrite Hs) 1) as Heq. rewrite He in Heq.
  destruct (element_at (sv_from v n) 1) as [e'|] eqn:He'; [|done]. injection Heq as Heq.
  exists e'. split; [done|]. split; [|done]. eapply element_at_wf; [|exact He'].
  unfold sv_wf, sv_from in *. simpl. rewrite length_drop. lia.
Qed.

End json.

Import json.

(** ** Properties *)

(** [SkipValue] called in front of a JSON value, behind any whitespace,
    returns the position just behind that value, whatever the value is
    (nested containers, strings with escaped quotes and with brackets in
    them) and whatever follows it, as long as it is one of the bytes that
    may follow a value. *)
Theorem skip_value_correct v pre x rest :
  sv_wf v → sv_text v = pre ++ print x ++ rest → jwf x = true → value_end rest →
  SkipValue v (length pre) = length (pre ++ print x).
Proof. intros Hwf. by apply SkipValue_print. Qed.

Definition sample : jval :=
  JObject (str " ") [([], str "a", [], ([], JArray [] [([], JString (qstr "x]\'}"), str " ")], []));
                     (str " ", str "b", str " ", (str " ", JScalar (str "-1.5e3"), []))].
Lemma skip_value_correct_witness :
  jwf sample = true ∧
  SkipValue (sv_of (str "[1," ++ print sample ++ str ",2]")) 3 = length (str "[1," ++ print sample).
Proof.
  split; [reflexivity|].
  apply (skip_value_correct _ (str "[1,") sample (str ",2]"));
    [apply sv_wf_of|apply sv_text_of|reflexivity|reflexivity].
Defined.

(** On the text of an array, with anything behind it, [ForEachElement]
    calls its action on exactly the elements, in order, each time with the
    view of that element's text, and stops at the first exception; and
    [FindElement] with index [i] returns the [i]-th of these views, or nothing
    when there are not that many. *)
Theorem for_each_element_correct v w es rest :
  sv_wf v → sv_text v = print (JArray w es) ++ rest → jwf (JArray w es) = true →
  ∃ views, sv_text <$> views = (λ x, print x.1.2) <$> es ∧ Forall sv_wf views ∧
    (∀ S (action : string_view → M S unit) s, ForEachElement v action s = visit action views s) ∧
    (∀ i, FindElement v i = views !! i).
Proof. apply array_elements. Qed.

Definition sample_array : list (list Z * jval * list Z) :=
  [([], JArray [] [([], JString (str "8.5"), []); ([], JString (str "0"), [])], []);
   (str " ", JScalar (str "7"), [])].
Lemma for_each_element_correct_witness :
  jwf (JArray [] sample_array) = true ∧
  ∃ views, sv_text <$> views = [qstr "['8.5','0']"; str "7"] ∧
    FindElement (sv_of (print (JArray [] sample_array) ++ str "}")) 1 = views !! 1 ∧
    (∀ s, ForEachElement (sv_of (print (JArray [] sample_array) ++ str "}"))
      (λ x, modify (λ n, n + sv_size x)) s = visit (λ x, modify (λ n, n + sv_size x)) views s).
Proof.
  split; [reflexivity|].
  destruct (for_each_element_correct (sv_of (print (JArray [] sample_array) ++ str "}"))
    [] sample_array (str "}")) as (views & Htx & _ & Hloop & Hfind);
    [apply sv_wf_of|apply sv_text_of|reflexivity|].
  exists views. split; [rewrite Htx; reflexivity|]. split; [apply Hfind|]. intros s. apply Hloop.
Defined.

(** On the text of an object, with anything behind it, [ForEachField]
    calls its action on exactly the fields, in order, with the views of the
    key's content and of the value's text. *)
Theorem for_each_field_correct v w fs rest :
  sv_wf v → sv_text v = print (JObject w fs) ++ rest → jwf (JObject w fs) = true →
  ∃ views, prod_map sv_text sv_text <$> views = (λ x, (x.1.1.2, print x.2.1.2)) <$> fs ∧
    Forall (λ x, sv_wf x.1 ∧ sv_wf x.2) views ∧
    ∀ S (action : string_view → string_view → M S unit) s,
      ForEachField v action s = visit (λ x, action x.1 x.2) views s.
Proof. apply object_fields. Qed.

Lemma for_each_field_correct_witness :
  jwf sample = true ∧
  ∃ views, prod_map sv_text sv_text <$> views =
      [(str "a", qstr "['x]\'}' ]"); (str "b", str "-1.5e3")] ∧
    ∀ s, ForEachField (sv_of (print sample ++ str ",")) (λ k x, modify (λ n, n + sv_size x)) s =
      visit (λ x, modify (λ n, n + sv_size x.2)) views s.
Proof.
  split; [reflexivity|].
  edestruct (for_each_field_correct (sv_of (print sample ++ str ","))) as (views & Htx & _ & Hloop);
    [apply sv_wf_of|apply sv_text_of|reflexivity|].
  exists views. split; [rewrite Htx; reflexivity|]. intros s.
  apply (Hloop nat (λ k x, modify (λ n, n + sv_size x))).
Defined.

(** In a message without escaped quotes, [FindString] returns the string
    value of the first occurrence of the key: the first quoted string that
    equals the key and is followed by a colon decides, a string value that
    looks like the key does not; and it returns nothing when there is no such
    key or its value is not a string. *)
Theorem find_string_correct v key g0 l :
  sv_wf v → sv_text v = g0 ++ segs_text l → segs_ok key g0 l →
  sv_text <$> FindString v key = string_of_key key l.
Proof. intros Hwf. by apply FindString_segs. Qed.

Definition sample_segs : list (list Z * list Z) :=
  [(str "op", str ":"); (str "id", str ", "); (str "id", str " : "); (str "42", str "}")].
Lemma find_string_correct_witness :
  str "{" ++ segs_text sample_segs = qstr "{'op':'id', 'id' : '42'}" ∧
  sv_text <$> FindString (sv_of (str "{" ++ segs_text sample_segs)) (str "id") = Some (str "42").
Proof.
  split; [reflexivity|].
  apply (find_string_correct _ (str "id") (str "{") sample_segs);
    [apply sv_wf_of|apply sv_text_of|].
  split_and!; [reflexivity..|]. repeat (constructor; [done|]). constructor.
Defined.

(** [ParseDouble] on a view that [FindString] returned gives what
    [strtod] gives on the content alone: although [strtod] is handed a bare
    pointer, it cannot read past the closing quote. *)
Theorem parse_double_of_field v key x :
  sv_wf v → FindString v key = Some x → ParseDouble x = ParseDouble (sv_of (sv_text x)).
Proof. apply ParseDouble_FindString. Qed.

Lemma parse_double_of_field_witness :
  let x := SV (qstr "0.25'}") 4 in
  FindString (sv_of (qstr "{'px':'0.25'}")) (str "px") = Some x ∧
  ParseDouble x = ParseDouble (sv_of (str "0.25")).
Proof.
  split; [reflexivity|].
  exact (parse_double_of_field (sv_of (qstr "{'px':'0.25'}")) (str "px") _ (sv_wf_of _) eq_refl).
Defined.

(** C38. The scanner terminates on every input, well formed or not.
    [ForEachField] returns when its action does, and [ForEachElement] when its
    action also rejects empty elements by an exception: neither runs out of a
    budget of one turn per byte.  The loops inside them stop because their
    condition has become false: behind [SkipWhitespace] there is no
    whitespace, and [SkipValue] leaves a container at the end of the text or
    at depth zero.  In a text below 2 GiB the [int] that counts the depth does
    not overflow. *)
Theorem for_each_terminates S v (on_field : string_view → string_view → M S unit)
    (on_element : string_view → M S unit) s :
  (∀ k x s, (on_field k x s).1 ≠ Stop Fuel) →
  (∀ x s, (on_element x s).1 ≠ Stop Fuel) →
  (∀ x s, sv_size x = 0 → ∀ s', on_element x s ≠ (Ok tt, s')) →
  (ForEachField v on_field s).1 ≠ Stop Fuel ∧ (ForEachElement v on_element s).1 ≠ Stop Fuel ∧
  (∀ pos, at_pred v (SkipWhitespace v pos) IsJsonWhitespace = false) ∧
  ∀ pos c, sv_at v pos = Some c → c = c_lbrace ∨ c = c_lbracket →
    ∃ st, steps (nested_cond v) (nested_body v c (if (c =? c_lbrace)%Z then c_rbrace else c_rbracket) (SkipString v))
        (pos + 1, 1%Z) st ∧
      SkipValue v pos = st.1 ∧ (sv_size v ≤ st.1 ∨ st.2 = 0%Z) ∧
      ((Z.of_nat (sv_size v) < 2 ^ 31)%Z → (0 ≤ st.2 < 2 ^ 31)%Z).
Proof.
  intros Hf He Hempty.
  assert (∀ (m : M S unit), upholds (λ _, True) (λ x, x ≠ Fuel) m → (m s).1 ≠ Stop Fuel) as Hends.
  { intros m Hm. specialize (Hm s Logic.I). destruct (m s) as [[|x] ?]; [done|].
    simpl. intros [= ->]. by destruct Hm as [_ ?]. }
  assert (∀ (m : M S unit), (∀ s, (m s).1 ≠ Stop Fuel) → upholds (λ _, True) (λ x, x ≠ Fuel) m)
    as Hconv.
  { intros m Hm s0 _. specialize (Hm s0). destruct (m s0) as [[|x] ?]; [done|].
    split; [done|]. intros ->. done. }
  split_and!; [apply Hends, ForEachField_upholds; auto|apply Hends, ForEachElement_upholds; auto|..].
  - intros pos. apply SkipWhitespace_stops.
  - intros pos c Hc Hopen. by apply SkipValue_nested.
Qed.

Lemma for_each_terminates_witness :
  let on_element := λ x : string_view, if sv_size x =? 0
    then throwM (runtime_error "empty" []) else modify (λ n, n + 1) in
  (ForEachField (sv_of (qstr "{'a':[,'b'")) (λ _ _, modify (λ n, n + 1)) 0).1 ≠ Stop Fuel ∧
  (ForEachElement (sv_of (qstr "[1}")) on_element 0).1 ≠ Stop Fuel.
Proof.
  assert (∀ v, (ForEachField v (λ _ _, modify (λ n, n + 1)) 0).1 ≠ Stop Fuel ∧
    (ForEachElement v (λ x : string_view, if sv_size x =? 0
      then throwM (runtime_error "empty" []) else modify (λ n, n + 1)) 0).1 ≠ Stop Fuel) as H.
  { intros v. destruct (for_each_terminates nat v (λ _ _, modify (λ n, n + 1)) (λ x : string_view, if sv_size x =? 0
      then throwM (runtime_error "empty" []) else modify (λ n, n + 1)) 0) as (H1 & H2 & _); [..|exact (conj H1 H2)].
    - intros k x s. discriminate.
    - intros x s. destruct (sv_size x =? 0); discriminate.
    - intros x s Hx s'. rewrite Hx. discriminate. }
  exact (conj (proj1 (H (sv_of (qstr "{'a':[,'b'")))) (proj2 (H (sv_of (qstr "[1}"))))).
Defined.

(** [ForEachElement] never returns on an array in which a closing brace
    stands where an element should start, if its action accepts the empty
    element it is then called with: whatever the budget, it is used up. *)
Theorem for_each_element_diverges S fuel v (action : string_view → M S unit) rest s :
  sv_wf v → sv_text v = c_lbracket :: c_rbrace :: rest →
  (∀ x s, ∃ s', action x s = (Ok tt, s')) →
  (ForEachElement_loop fuel v action 1 s).1 = Stop Fuel.
Proof. intros Hwf Ht. by apply (ForEachElement_loop_stuck fuel v action [c_lbracket] rest). Qed.

Lemma for_each_element_diverges_witness :
  (ForEachElement_loop 1000 (sv_of (str "[}]")) (λ _, modify S) 1 0).1 = Stop Fuel.
Proof.
  apply (for_each_element_diverges nat 1000 (sv_of (str "[}]")) (λ _, modify S) (str "]"));
    [apply sv_wf_of|reflexivity|]. intros x s. by exists (S s).
Defined.
