(* ===== verification/Rules.v ===== *)
(** * Rules for computations

    Computations are functions of a state (the monad of Prelude.v).  Four
    judgements on them are used by the files that speak of whole handlers:
    [upholds], that an invariant is kept; [triple], from a precondition to a
    postcondition; [makes], which entries are added to a log; [spares], where
    undefined behaviour can come from.  Each has its
    rules for binding, and [uphold] takes a computation apart. *)

From S2P Require Import Prelude Json.

(** ** Invariants *)
Abbreviation any := (λ _ : stop, True).

Lemma upholds_zoom {S T A} (I : S → Prop) (proj : S → T) upd (m : M T A) :
  (∀ s, I s → I (upd (m (proj s)).2 s)) → upholds I any (zoom proj upd m).
Proof.
  intros H s Hs. specialize (H s Hs). unfold zoom. by destruct (m (proj s)) as [[] ?].
Qed.
Lemma upholds_lift_any {S A} (I : S → Prop) (r : result A) : upholds I any (lift r).
Proof. by apply upholds_lift. Qed.
Lemma upholds_state {S A} (I : S → Prop) (m : M S A) s : upholds I any m → I s → I (m s).2.
Proof. intros Hm Hs. specialize (Hm s Hs). destruct (m s) as [[] ?]; [done|]. apply Hm. Qed.
Lemma upholds_assoc {S A B C} (I : S → Prop) (m : M S A) (f : A → M S B) (g : B → M S C) :
  upholds I any (y ← (x ← m; f x); g y) → upholds I any (x ← m; y ← f x; g y).
Proof. intros Hm s Hs. rewrite bind_assoc. by apply Hm. Qed.
Lemma upholds_visit {S X} (I : S → Prop) (f : X → M S unit) l :
  (∀ x, upholds I any (f x)) → upholds I any (json.visit f l).
Proof.
  intros Hf. induction l as [|x l IH]; cbn [json.visit]; [by apply upholds_ret|].
  apply upholds_bind; [done|]. intros _. exact IH.
Qed.

Lemma upholds_each {S} (I : S → Prop) v key (f : string_view → M S unit) :
  (∀ x, upholds I any (f x)) → upholds I any (json.ForEachArrayElement v key f).
Proof.
  intros Hf. unfold json.ForEachArrayElement.
  destruct (json.FindValueStart v key); [|by apply upholds_ret].
  destruct (json.at_char _ _ _); [|by apply upholds_ret]. unfold json.ForEachElement.
  generalize (Datatypes.S (sv_size (sv_from v n))) as fuel. generalize 1.
  intros pos fuel. revert pos. induction fuel as [|fuel IH]; intros pos; [by apply upholds_lift|].
  cbn [json.ForEachElement_loop]. destruct (sv_at _ _) as [c|]; [|by apply upholds_ret].
  destruct (c =? _)%Z; [by apply upholds_ret|]. apply upholds_bind; [apply Hf|]. intros _. apply IH.
Qed.

(** Take a computation apart into the operations that [Hint Resolve] knows. *)
Create HintDb parts.
#[export] Hint Resolve upholds_ret upholds_get upholds_lift_any : parts.
#[export] Hint Extern 1 (upholds _ _ (throwM _)) => (apply upholds_throw; exact Logic.I) : parts.
Ltac uphold_step :=
  match goal with
  | |- ∀ _, _ => intro
  | |- upholds _ _ (_ ≫= _) => apply upholds_bind
  | |- upholds _ _ (let '(_, _) := ?x in _) => destruct x
  | |- upholds _ _ (match ?x with _ => _ end) => destruct x
  | |- _ => solve [eauto with parts]
  end.
Ltac uphold := repeat uphold_step.

(** A bind whose first part says something about its result. *)
Definition yields {S A} (m : M S A) (P : A → Prop) : Prop := ∀ s a s', m s = (Ok a, s') → P a.
Lemma upholds_bind_post {S A B} (I : S → Prop) (P : A → Prop) (m : M S A) (f : A → M S B) :
  upholds I any m → yields m P → (∀ a, P a → upholds I any (f a)) → upholds I any (m ≫= f).
Proof.
  intros Hm Hp Hf s Hs. unfold mbind, M_bind. specialize (Hm s Hs).
  destruct (m s) as [[a|x] s'] eqn:E; [|done]. by apply (Hf a (Hp _ _ _ E)).
Qed.
Lemma yields_zoom {S T A} (proj : S → T) upd (m : M T A) P : yields m P → yields (zoom proj upd m) P.
Proof.
  intros Hm s a s'. unfold zoom. destruct (m (proj s)) as [r t] eqn:E. intros [= -> _]. by eapply Hm.
Qed.
Lemma yields_last {S A B} (m : M S A) (f : A → B) (P : B → Prop) :
  (∀ a, P (f a)) → yields (x ← m; mret (f x)) P.
Proof.
  intros Hf s b s'. unfold mbind, M_bind. destruct (m s) as [[a|] ?]; [|done]. by intros [= <- _].
Qed.
(** ** Triples *)

(** A computation from [P] to [Q], with [E] if it throws. *)
Definition triple {S A} (P : S → Prop) (Q : A → S → Prop) (E : S → Prop) (m : M S A) : Prop :=
  ∀ s, P s → match m s with (Ok a, s') => Q a s' | (Stop _, s') => E s' end.
Lemma triple_bind {S A B} (P : S → Prop) (R : A → S → Prop) (Q : B → S → Prop) E m k :
  triple P R E m → (∀ a, triple (R a) Q E (k a)) → triple P Q E (m ≫= k).
Proof.
  intros Hm Hk s Hs. specialize (Hm s Hs). unfold mbind, M_bind.
  destruct (m s) as [[a|x] s1]; [|done]. by apply Hk.
Qed.
Lemma triple_upholds {S A} (I E : S → Prop) (m : M S A) :
  upholds I any m → (∀ s, I s → E s) → triple I (λ _, I) E m.
Proof. intros Hm HE s Hs. specialize (Hm s Hs). destruct (m s) as [[] ?]; [done|]. apply HE, Hm. Qed.
Lemma upholds_triple {S A} (I : S → Prop) (m : M S A) : triple I (λ _, I) I m → upholds I any m.
Proof. intros Hm s Hs. specialize (Hm s Hs). by destruct (m s) as [[] ?]. Qed.

(** ** Logs *)

(** [m] adds entries to a log that meet [ps], one after the other; all of
    them, with a result in [Q], if it returns. *)
Definition makes {S A X} (log : S → list X) (ps : list (X → Prop)) (Q : A → Prop)
    (m : M S A) : Prop :=
  ∀ s, let '(r, s') := m s in
  ∃ new, log s' = log s ++ new ∧ Forall2 (λ p o, p o) (take (length new) ps) new ∧
    match r with Ok a => length new = length ps ∧ Q a | Stop _ => True end.

Section makes.
Context {S X : Type} (log : S → list X).

Lemma makes_none {A} (Q : A → Prop) (m : M S A) :
  (∀ s, log (m s).2 = log s) → (∀ s a, (m s).1 = Ok a → Q a) → makes log [] Q m.
Proof.
  intros Hl HQ s. specialize (Hl s). specialize (HQ s). destruct (m s) as [r s']. exists [].
  split; [by rewrite app_nil_r|]. split; [by rewrite take_0|]. destruct r; [|done].
  by split; [|apply HQ].
Qed.
Lemma makes_ret {A} (Q : A → Prop) a : Q a → makes log [] Q (mret a).
Proof. intros HQ. apply makes_none; [done|]. by intros s b [= <-]. Qed.
Lemma makes_lift {A} (r : result A) : makes log [] (λ _, True) (lift r).
Proof. by apply makes_none. Qed.
Lemma makes_bind {A B} ps ps' (Q : A → Prop) (Q' : B → Prop) (m : M S A) (k : A → M S B) :
  makes log ps Q m → (∀ a, Q a → makes log ps' Q' (k a)) → makes log (ps ++ ps') Q' (m ≫= k).
Proof.
  intros Hm Hk s. specialize (Hm s). unfold mbind, M_bind.
  destruct (m s) as [[a|x] s1]; destruct Hm as (new & Hl & Hf & Hr).
  - destruct Hr as [Hn HQ]. specialize (Hk a HQ s1). destruct (k a s1) as [r s2].
    destruct Hk as (new' & Hl' & Hf' & Hr'). exists (new ++ new'). split.
    { by rewrite Hl', Hl, app_assoc. }
    rewrite Hn, firstn_all in Hf. split.
    + rewrite length_app, Hn, take_app_add. by apply Forall2_app.
    + destruct r; [|done]. destruct Hr' as [Hn' HQ']. rewrite !length_app. by split; [lia|].
  - exists new. split; [done|]. split; [|done]. rewrite take_app_le; [done|].
    pose proof (Forall2_length _ _ _ Hf) as Hlen. rewrite length_take in Hlen. lia.
Qed.
Lemma makes_post {A} ps (Q Q' : A → Prop) (m : M S A) :
  makes log ps Q m → (∀ s a, (m s).1 = Ok a → Q' a) → makes log ps Q' m.
Proof.
  intros Hm HQ s. specialize (Hm s). specialize (HQ s). destruct (m s) as [r s'].
  destruct Hm as (new & Hl & Hf & Hr). exists new. split; [done|]. split; [done|].
  destruct r; [|done]. split; [apply Hr|by apply HQ].
Qed.
Lemma makes_eq {A} ps (Q : A → Prop) (m m' : M S A) :
  (∀ s, m s = m' s) → makes log ps Q m' → makes log ps Q m.
Proof. intros Heq Hm s. rewrite Heq. apply Hm. Qed.
Lemma makes_bind_none {A B} ps (Q' : B → Prop) (m : M S A) (k : A → M S B) :
  makes log ps (λ _, True) m → (∀ a, makes log [] Q' (k a)) → makes log ps Q' (m ≫= k).
Proof. intros Hm Hk. rewrite <-(app_nil_r ps). by eapply makes_bind. Qed.
Lemma makes_none_bind {A B} ps (Q' : B → Prop) (m : M S A) (k : A → M S B) :
  makes log [] (λ _, True) m → (∀ a, makes log ps Q' (k a)) → makes log ps Q' (m ≫= k).
Proof. intros Hm Hk. rewrite <-(app_nil_l ps). by eapply makes_bind. Qed.
End makes.


(** ** Undefined behaviour

    [spares I E m]: from a state with the invariant [I], [m] ends in one, and
    if it runs into undefined behaviour then in a state with [E]. *)
Definition spares {S A} (I E : S → Prop) (m : M S A) : Prop :=
  ∀ s, I s → match m s with (Ok _, s') => I s' | (Stop x, s') => I s' ∧ (x = UB → E s') end.
(** Never. *)
Abbreviation clean I m := (spares I (λ _, False) m).
Definition defined {A} (r : result A) : Prop := r ≠ Stop UB.
(** [m], started with [I], only returns values in [P]. *)
Definition returns {S A} (I : S → Prop) (m : M S A) (P : A → Prop) : Prop :=
  ∀ s a s', I s → m s = (Ok a, s') → P a.

Lemma defined_Ok {A} (r : result A) : (∃ a, r = Ok a) → defined r.
Proof. unfold defined. by intros [a ->]. Qed.
Lemma defined_fuel {A} : defined (Stop (A:=A) Fuel).
Proof. unfold defined. done. Qed.
Lemma defined_bind {A B} (r : result A) (f : A → result B) :
  defined r → (∀ a, defined (f a)) → defined (r ≫= f).
Proof. unfold defined. destruct r as [a|x]; cbn; [intros _ Hf; apply Hf|congruence]. Qed.
Lemma defined_fmap {A B} (f : A → B) (r : result A) : defined r → defined (f <$> r).
Proof. unfold defined. destruct r; cbn; congruence. Qed.
Lemma defined_exn {A} (r : result A) : (∀ x, r = Stop x → exn_only x) → defined r.
Proof. unfold defined. intros Hr Hu. by destruct (Hr _ Hu). Qed.
Ltac definite := unfold defined; repeat (case_match; simplify_eq/=); done.

Section spares.
Context {S : Type} (I E : S → Prop).

Lemma spares_ret {A} (a : A) : spares I E (mret a).
Proof. by intros s Hs. Qed.
Lemma spares_get : spares I E get.
Proof. by intros s Hs. Qed.
Lemma spares_throw {A} e : spares I E (throwM (A:=A) e).
Proof. by intros s Hs. Qed.
Lemma spares_lift {A} (r : result A) : defined r → spares I E (lift r).
Proof. unfold defined. intros Hr s Hs. destruct r as [|x]; [done|]. split; [done|]. by intros ->. Qed.
Lemma spares_modify f : (∀ s, I s → I (f s)) → spares I E (modify f).
Proof. intros Hf s Hs. by apply Hf. Qed.
Lemma spares_bind_post {A B} (P : A → Prop) (m : M S A) (f : A → M S B) :
  spares I E m → returns I m P → (∀ a, P a → spares I E (f a)) → spares I E (m ≫= f).
Proof.
  intros Hm Hp Hf s Hs. unfold mbind, M_bind. specialize (Hm s Hs).
  destruct (m s) as [[a|x] s'] eqn:Em; [|done]. by apply (Hf a (Hp _ _ _ Hs Em)).
Qed.
Lemma spares_bind {A B} (m : M S A) (f : A → M S B) :
  spares I E m → (∀ a, spares I E (f a)) → spares I E (m ≫= f).
Proof. intros Hm Hf. by apply (spares_bind_post (λ _, True)). Qed.
(** A pure part, with what its value satisfies. *)
Lemma spares_lift_bind {A B} (P : A → Prop) (r : result A) (f : A → M S B) :
  match r with Ok a => P a | Stop x => x ≠ UB end → (∀ a, P a → spares I E (f a)) →
  spares I E (x ← lift r; f x).
Proof.
  intros Hr Hf. apply (spares_bind_post P); [| |done].
  - apply spares_lift. unfold defined. destruct r; [done|]. congruence.
  - intros s a s' _ [= -> _]. done.
Qed.
Lemma spares_zoom {T A} (J F : T → Prop) (proj : S → T) upd (m : M T A) :
  (∀ s, I s → J (proj s)) → (∀ s t, I s → J t → I (upd t s)) →
  (∀ s t, I s → F t → E (upd t s)) → spares J F m → spares I E (zoom proj upd m).
Proof.
  intros HJ HI HF Hm s Hs. specialize (Hm (proj s) (HJ s Hs)). unfold zoom.
  destruct (m (proj s)) as [[a|x] t]; [by apply HI|]. destruct Hm as [Ht Hx].
  split; [by apply HI|]. intros ->. by apply HF, Hx.
Qed.
Lemma spares_visit {X} (P : X → Prop) (f : X → M S unit) l :
  Forall P l → (∀ x, P x → spares I E (f x)) → spares I E (json.visit f l).
Proof.
  intros Hl Hf. induction Hl as [|x l Hx _ IH]; cbn [json.visit]; [by apply spares_ret|].
  apply spares_bind; [by apply Hf|]. intros _. exact IH.
Qed.
Lemma spares_each v key (f : string_view → M S unit) :
  (∀ x, spares I E (f x)) → spares I E (json.ForEachArrayElement v key f).
Proof.
  intros Hf. unfold json.ForEachArrayElement.
  destruct (json.FindValueStart v key); [|by apply spares_ret].
  destruct (json.at_char _ _ _); [|by apply spares_ret]. unfold json.ForEachElement.
  generalize (Datatypes.S (sv_size (sv_from v n))) as fuel. generalize 1.
  intros pos fuel. revert pos. induction fuel as [|fuel IH]; intros pos; [by apply spares_lift, defined_fuel|].
  cbn [json.ForEachElement_loop]. destruct (sv_at _ _) as [c|]; [|by apply spares_ret].
  destruct (c =? _)%Z; [by apply spares_ret|]. apply spares_bind; [apply Hf|]. intros _. apply IH.
Qed.
End spares.

Lemma clean_upholds {S A} (I : S → Prop) (m : M S A) : upholds I exn_only m → clean I m.
Proof.
  intros Hm s Hs. specialize (Hm s Hs). destruct (m s) as [[|x] s']; [done|].
  destruct Hm as [? [Hx _]]. split; [done|]. by intros ->.
Qed.

Create HintDb spare.
#[export] Hint Resolve spares_ret spares_get spares_throw : spare.
Ltac spare_step :=
  match goal with
  | |- ∀ _, _ => intro
  | |- spares _ _ (_ ≫= _) => apply spares_bind
  | |- spares _ _ (let '(_, _) := ?x in _) => destruct x
  | |- spares _ _ (match ?x with _ => _ end) => destruct x
  | |- _ => solve [eauto with spare]
  end.
Ltac spare := repeat spare_step.
