(* ===== verification/PriceText.v ===== *)
(** * Prices as text: the number formatting of okx/strategy/naive_quoter.cpp

    [std::round] and [std::to_chars] with a fixed number of decimals, as
    [NaiveQuoter::FormatPrice] uses them, and what a printed price reads
    back as. *)

From Stdlib Require Import SpecFloat.
From S2P Require Import Prelude Float64 Json.

(** [std::round]: to the nearest integer, halves away from zero. *)
Definition fround (x : double) : double :=
  match x with
  | S754_finite s m e =>
      if (0 <=? e)%Z then x
      else f_of_binary s ((2 * Zpos m + 2 ^ (- e)) / (2 * 2 ^ (- e))) 0
  | _ => x
  end.

(** The integer nearest to [m * 2^e * 10^p], ties to even. *)
Definition scaled (m e : Z) (p : nat) : Z :=
  let a := (m * 10 ^ Z.of_nat p)%Z in
  if (0 <=? e)%Z then (a * 2 ^ e)%Z
  else
    let d := (2 ^ (- e))%Z in
    let q := (a / d)%Z in
    let r := (a mod d)%Z in
    if (2 * r <? d)%Z then q
    else if (d <? 2 * r)%Z then (q + 1)%Z
    else if Z.even q then q else (q + 1)%Z.

(** [n / 10^p] written out with [p] decimals. *)
Definition fixed_text (s : bool) (n : Z) (p : nat) : list Z :=
  (if s then str "-" else []) ++ to_string (n / 10 ^ Z.of_nat p) ++
  match p with O => [] | _ => str "." ++ digits p (n mod 10 ^ Z.of_nat p) end.

(** What [std::to_chars] leaves open: the text of a NaN, whose sign is not
    modelled, and the contents of a buffer that is too small. *)
Class ToChars := { nan_text : list Z; too_small : nat → list Z → list Z }.

(** [std::to_chars(first, last, x, std::chars_format::fixed, p)] into a buffer
    of [size] bytes, and the bytes up to the returned pointer. *)
Definition to_chars_fixed `{!ToChars} (size : nat) (x : double) (p : nat) : list Z :=
  let text := match x with
    | S754_zero s => fixed_text s 0 p
    | S754_infinity s => (if s then str "-" else []) ++ str "inf"
    | S754_nan => nan_text
    | S754_finite s m e => fixed_text s (scaled (Zpos m) e p) p
    end in
  if decide (length text ≤ size) then text else too_small size text.

(** [DecimalPlaces]. *)
Definition find_byte (c : Z) (l : list Z) : option nat := fst <$> list_find (λ x, x = c) l.
Definition DecimalPlaces (tick_sz : list Z) : nat :=
  match find_byte 46 tick_sz with None => 0 | Some dot => length tick_sz - dot - 1 end.

(** [FormatPrice], given the tick size and its decimal places. *)
Definition FormatPrice `{!ToChars} (tick_sz : double) (tick_decimal_places : nat) (px : double)
    : list Z :=
  let rounded := fmul (fround (fdiv px tick_sz)) tick_sz in
  to_chars_fixed 32 rounded tick_decimal_places.

Definition sample_chars : ToChars :=
  {| nan_text := str "nan"; too_small := λ n text, take n text |}.
Example format_price_sample :
  @FormatPrice sample_chars (f_of_decimal false 1 (-2)) (DecimalPlaces (str "0.01"))
    (f_of_decimal false 312345678 (-5)) = str "3123.46" ∧
  @FormatPrice sample_chars (f_of_decimal false 5 (-1)) (DecimalPlaces (str "0.5"))
    (f_of_decimal false 312324 (-2)) = str "3123.0" ∧
  @FormatPrice sample_chars (f_of_Z 1) (DecimalPlaces (str "1")) (f_of_decimal false 25 (-1)) =
    str "3".
Proof. vm_compute. done. Qed.

(** ** Decimal numerals *)
Lemma digits_val_app ds ds' :
  digits_val 10 (ds ++ ds') = fold_left (λ acc c, (acc * 10 + digit_val c)%Z) ds' (digits_val 10 ds).
Proof. apply fold_left_app. Qed.
Lemma digit_val_char (z : Z) : (0 ≤ z < 10)%Z → digit_val (48 + z) = z ∧ is_digit (48 + z) = true.
Proof. intros H. unfold digit_val, is_digit. destruct (_ && _) eqn:E; lia. Qed.

Lemma fold_digits n z acc :
  fold_left (λ acc c, (acc * 10 + digit_val c)%Z) (digits n z) acc =
    (acc * 10 ^ Z.of_nat n + z mod 10 ^ Z.of_nat n)%Z.
Proof.
  revert z. induction n as [|n IH]; intros z; [simpl; rewrite Z.mod_1_r; lia|].
  cbn [digits]. rewrite fold_left_app, IH. cbn [fold_left].
  rewrite (proj1 (digit_val_char (z mod 10) ltac:(apply Z.mod_pos_bound; lia))).
  assert (0 < 10 ^ Z.of_nat n)%Z by (apply Z.pow_pos_nonneg; lia).
  rewrite Nat2Z.inj_succ, Z.pow_succ_r, (Z.rem_mul_r z 10 (10 ^ Z.of_nat n)) by lia. lia.
Qed.
Lemma digits_digits n z : Forall (λ c, is_digit c = true) (digits n z).
Proof.
  revert z. induction n as [|n IH]; intros z; cbn [digits]; [constructor|].
  apply Forall_app. split; [apply IH|]. constructor; [|done].
  apply digit_val_char, Z.mod_pos_bound. lia.
Qed.
Lemma length_digits n z : length (digits n z) = n.
Proof. revert z. induction n as [|n IH]; intros z; cbn [digits]; [done|]. rewrite length_app, IH. simpl. lia. Qed.

Lemma pretty_char_spec (n : N) :
  (n < 10)%N → chr (pretty_N_char n) = (48 + Z.of_N n)%Z.
Proof.
  intros H. assert (n = 0 ∨ n = 1 ∨ n = 2 ∨ n = 3 ∨ n = 4 ∨ n = 5 ∨ n = 6 ∨ n = 7 ∨ n = 8 ∨ n = 9)%N
    as Hn by lia. by destruct_or! Hn; subst.
Qed.
Lemma str_cons c s : str (String c s) = chr c :: str s.
Proof. done. Qed.
Notation read_digits := (fold_left (λ acc c, (acc * 10 + digit_val c)%Z)).
Lemma pretty_N_go_digits x s :
  Forall (λ c, is_digit c = true) (str s) →
  Forall (λ c, is_digit c = true) (str (pretty_N_go x s)) ∧
  read_digits (str (pretty_N_go x s)) 0%Z = read_digits (str s) (Z.of_N x).
Proof.
  revert s. induction (N.lt_wf_0 x) as [x _ IH]. intros s Hs.
  destruct (decide (0 < x)%N) as [Hx|Hx].
  - rewrite pretty_N_go_step by done. pose proof (N.mod_lt x 10 ltac:(lia)) as Hm.
    destruct (digit_val_char (Z.of_N (x mod 10))) as [Hv Hd].
    { split; [apply N2Z.is_nonneg|exact (proj1 (N2Z.inj_lt _ _) Hm)]. }
    destruct (IH (x / 10)%N (N.div_lt x 10 Hx eq_refl) (String (pretty_N_char (x mod 10)) s))
      as [Hall Hr].
    { rewrite str_cons, pretty_char_spec by done. by constructor. }
    split; [done|]. rewrite Hr, str_cons, pretty_char_spec by done. cbn [fold_left]. rewrite Hv.
    f_equal. pose proof (f_equal Z.of_N (N.div_mod' x 10)) as Hx'.
    rewrite N2Z.inj_add, N2Z.inj_mul in Hx'. rewrite Hx'. apply (f_equal (λ y, (y + _)%Z)), Z.mul_comm.
  - assert (x = 0%N) as -> by lia. by rewrite pretty_N_go_0.
Qed.

(** A natural number in decimal. *)
Lemma to_string_digits z :
  (0 ≤ z)%Z → Forall (λ c, is_digit c = true) (to_string z) ∧ to_string z ≠ [] ∧
  digits_val 10 (to_string z) = z.
Proof.
  intros Hz. assert (∀ n : N, Forall (λ c, is_digit c = true) (str (pretty n)) ∧ str (pretty n) ≠ [] ∧
    digits_val 10 (str (pretty n)) = Z.of_N n) as Hn.
  { intros n. unfold pretty, pretty_N. case_decide as H0; [subst; by repeat constructor|].
    destruct (pretty_N_go_digits n EmptyString) as [Hd Hv]; [constructor|].
    split; [done|]. split; [|exact Hv]. intros Hnil. rewrite Hnil in Hv. simpl in Hv. lia. }
  destruct z as [|q|q]; [exact (Hn 0%N)|exact (Hn (N.pos q))|lia].
Qed.

Lemma span_all f l r :
  Forall (λ c, f c = true) l → match r with [] => True | c :: _ => f c = false end →
  span f (l ++ r) = (l, r).
Proof.
  intros Hl Hr. induction Hl as [|c l Hc _ IH]; simpl; [destruct r; simpl; [done|by rewrite Hr]|].
  by rewrite Hc, IH.
Qed.

(** Reading a fixed-point text back. *)
Lemma strtod_fixed s n p :
  (0 ≤ n)%Z → strtod (fixed_text s n p) = Some (f_of_decimal s n (- Z.of_nat p)).
Proof.
  intros Hn. set (P := (10 ^ Z.of_nat p)%Z).
  assert (0 < P)%Z as HP by (apply Z.pow_pos_nonneg; lia).
  destruct (to_string_digits (n / P)) as (Hd & Hne & Hv); [by apply Z.div_pos|].
  unfold fixed_text. fold P. remember (to_string (n / P)) as ip0 eqn:Eip0. clear Eip0.
  set (tl := match p with O => [] | _ => str "." ++ digits p (n mod P) end).
  destruct ip0 as [|c ip]; [done|]. apply Forall_cons in Hd as [Hc Hip].
  assert (48 ≤ c ≤ 57)%Z as Hc' by (unfold is_digit in Hc; lia).
  unfold strtod.
  assert (opt_sign (span is_space ((if s then str "-" else []) ++ (c :: ip) ++ tl)).2 =
          (s, (c :: ip) ++ tl)) as ->.
  { destruct s; [done|]. cbn [app span]. replace (is_space c) with false by (unfold is_space; lia).
    cbn [snd opt_sign]. by rewrite !(proj2 (Z.eqb_neq _ _)) by lia. }
  assert (∀ x y, (x < 48 ∨ 57 < x)%Z → ci_prefix (x :: y) ((c :: ip) ++ tl) = false) as Hword.
  { intros x y Hx. cbn [ci_prefix app]. unfold to_lower.
    rewrite (proj2 (Z.leb_gt 65 c)) by lia. cbn [andb]. by rewrite (proj2 (Z.eqb_neq x c)) by lia. }
  change (str "inf") with (105 :: str "nf")%Z. change (str "nan") with (110 :: str "an")%Z.
  rewrite !Hword by lia.
  assert (span is_digit ((c :: ip) ++ tl) = (c :: ip, tl)) as Hspan.
  { apply span_all; [by constructor|]. unfold tl. by destruct p. }
  assert (ci_prefix (str "0x") ((c :: ip) ++ tl) = false) as ->.
  { change (str "0x") with [48; 120]%Z. cbn [ci_prefix app]. destruct (48 =? to_lower c)%Z; [|done].
    destruct ip as [|y ip]; cbn [app].
    - unfold tl. by destruct p.
    - apply Forall_cons in Hip as [Hy _]. unfold is_digit in Hy. unfold to_lower.
      rewrite (proj2 (Z.leb_gt 65 y)) by lia. cbn [andb]. by rewrite (proj2 (Z.eqb_neq 120 y)) by lia. }
  unfold scan_decimal, scan_fraction. rewrite Hspan. unfold tl. destruct p as [|p].
  - cbn [app length]. rewrite app_nil_r. f_equal. unfold P in *. simpl Z.of_nat in *.
    rewrite Z.pow_0_r, Z.div_1_r in Hv. by rewrite Hv.
  - change (str ".") with [46%Z]. cbn [app]. rewrite Z.eqb_refl.
    rewrite (surjective_pairing (span is_digit (digits (S p) (n mod P)))).
    pose proof (span_all is_digit (digits (S p) (n mod P)) [] (digits_digits _ _) I) as Hsp.
    rewrite app_nil_r in Hsp. rewrite Hsp. cbn [fst snd app]. f_equal. f_equal.
    + change (c :: ip ++ digits (S p) (n mod P)) with ((c :: ip) ++ digits (S p) (n mod P)).
      rewrite digits_val_app, Hv, fold_digits. fold P. rewrite Z.mod_mod by lia.
      rewrite (Z.div_mod n P) at 3 by lia. lia.
    + by rewrite length_digits.
Qed.

(** [m * 2^e * 10^p] as a fraction. *)
Definition num (m e : Z) (p : nat) : Z := (m * 10 ^ Z.of_nat p * 2 ^ Z.max e 0)%Z.
Definition den (e : Z) : Z := (2 ^ Z.max (- e) 0)%Z.
(** [n] is a nearest integer to [a / b]. *)
Definition nearest (n a b : Z) : Prop := (2 * Z.abs (n * b - a) ≤ b)%Z.

Lemma scaled_nearest m e p : nearest (scaled m e p) (num m e p) (den e).
Proof.
  unfold nearest, scaled, num, den. destruct (Z.leb_spec 0 e) as [He|He].
  - rewrite (Z.max_l e), (Z.max_r (- e)), Z.pow_0_r, Z.mul_1_r, Z.sub_diag by lia. done.
  - rewrite (Z.max_r e), (Z.max_l (- e)), Z.pow_0_r, Z.mul_1_r by lia.
    set (a := (m * 10 ^ Z.of_nat p)%Z). set (d := (2 ^ (- e))%Z).
    assert (0 < d)%Z as Hd by (apply Z.pow_pos_nonneg; lia).
    pose proof (Z.div_mod a d ltac:(lia)) as Ha. pose proof (Z.mod_pos_bound a d Hd).
    generalize dependent (a / d)%Z. generalize dependent (a mod d)%Z. intros r Hr q Ha.
    destruct (Z.ltb_spec (2 * r) d); [lia|]. destruct (Z.ltb_spec d (2 * r)); [lia|].
    destruct (Z.even q); lia.
Qed.
Lemma scaled_nonneg m e p : (0 ≤ m)%Z → (0 ≤ scaled m e p)%Z.
Proof.
  intros Hm. unfold scaled. assert (0 < 10 ^ Z.of_nat p)%Z by (apply Z.pow_pos_nonneg; lia).
  destruct (Z.leb_spec 0 e).
  - assert (0 < 2 ^ e)%Z by (apply Z.pow_pos_nonneg; lia). nia.
  - assert (0 ≤ m * 10 ^ Z.of_nat p / 2 ^ (- e))%Z.
    { apply Z.div_pos; [nia|]. apply Z.pow_pos_nonneg; lia. }
    repeat case_match; lia.
Qed.
Lemma fround_nearest s m e :
  (e < 0)%Z → ∃ k, fround (S754_finite s m e) = f_of_binary s k 0 ∧ nearest k (Zpos m) (2 ^ (- e)).
Proof.
  intros He. unfold fround. rewrite (proj2 (Z.leb_gt 0 e)) by lia. eexists. split; [done|].
  unfold nearest. set (d := (2 ^ (- e))%Z).
  assert (0 < d)%Z as Hd by (apply Z.pow_pos_nonneg; lia).
  pose proof (Z.div_mod (2 * Zpos m + d) (2 * d) ltac:(lia)).
  pose proof (Z.mod_pos_bound (2 * Zpos m + d) (2 * d) ltac:(lia)).
  generalize dependent ((2 * Zpos m + d) / (2 * d))%Z. intros q. lia.
Qed.

(** What [fround] gives: a finite value is whole already, or goes to a
    nearest whole number. *)
Definition whole_nearest (x : double) : Prop :=
  match x with
  | S754_finite s m e =>
      if (0 <=? e)%Z then fround x = x
      else ∃ k, fround x = f_of_binary s k 0 ∧ nearest k (Zpos m) (2 ^ (- e))
  | _ => fround x = x
  end.
Lemma fround_whole x : whole_nearest x.
Proof.
  destruct x as [| | |s m e]; [done..|]. unfold whole_nearest. destruct (Z.leb_spec 0 e) as [He|He].
  - unfold fround. by rewrite (proj2 (Z.leb_le 0 e)).
  - by apply fround_nearest.
Qed.
(** [n / 10^p], with the sign [s], is a decimal with [p] places nearest to
    [x]. *)
Definition decimal_nearest (x : double) (p : nat) (s : bool) (n : Z) : Prop :=
  match x with
  | S754_zero s' => s = s' ∧ n = 0%Z
  | S754_finite s' m e => s = s' ∧ nearest n (num (Zpos m) e p) (den e)
  | _ => False
  end.
Definition is_finite (x : double) : bool :=
  match x with S754_zero _ | S754_finite _ _ _ => true | _ => false end.

(** A finite value that fits is printed as a nearest decimal, and read back. *)
Lemma to_chars_reads_back `{!ToChars} size x p :
  is_finite x = true →
  ∃ s n, decimal_nearest x p s n ∧ (length (fixed_text s n p) ≤ size →
    to_chars_fixed size x p = fixed_text s n p ∧
    json.ParseDouble (sv_of (fixed_text s n p)) = Ok (f_of_decimal s n (- Z.of_nat p))).
Proof.
  assert (∀ s n, (0 ≤ n)%Z →
    json.ParseDouble (sv_of (fixed_text s n p)) = Ok (f_of_decimal s n (- Z.of_nat p))) as Hread.
  { intros s n Hn. unfold json.ParseDouble. cbn [sv_of sv_mem]. by rewrite strtod_fixed. }
  destruct x as [s| | |s m e]; [|done..|]; intros _.
  - exists s, 0%Z. split; [done|]. intros Hl. unfold to_chars_fixed. rewrite decide_True by done. split; [done|].
    by apply Hread.
  - exists s, (scaled (Zpos m) e p). split; [split; [done|apply scaled_nearest]|]. intros Hl.
    unfold to_chars_fixed. rewrite decide_True by done. split; [done|]. apply Hread, scaled_nonneg. lia.
Qed.

(** The decimals of a number that is written out with [p] of them. *)
Lemma DecimalPlaces_fixed n p : (0 ≤ n)%Z → DecimalPlaces (fixed_text false n p) = p.
Proof.
  intros Hn. unfold DecimalPlaces, find_byte, fixed_text. cbn [app].
  destruct (to_string_digits (n / 10 ^ Z.of_nat p)) as (Hd & _ & _); [apply Z.div_pos; [done|apply Z.pow_pos_nonneg; lia]|].
  set (ip := to_string _) in *.
  assert (Forall (λ c, c ≠ 46%Z) ip) as Hip.
  { eapply Forall_impl; [exact Hd|]. intros c Hc ->. by vm_compute in Hc. }
  destruct p as [|p].
  - rewrite app_nil_r. destruct (list_find (λ x, x = 46%Z) ip) as [[i x]|] eqn:E; [|done].
    apply list_find_Some in E as (Hi & -> & _). rewrite Forall_lookup in Hip. by destruct (Hip _ _ Hi).
  - assert (list_find (λ x, x = 46%Z) (ip ++ str "." ++ digits (S p) (n mod 10 ^ Z.of_nat (S p))) =
      Some (length ip, 46%Z)) as ->.
    { apply list_find_Some. split; [by apply list_lookup_middle|]. split; [done|].
      intros j y Hj Hlt. rewrite lookup_app_l in Hj by done. rewrite Forall_lookup in Hip. by apply (Hip j). }
    cbn [fmap option_fmap option_map fst]. rewrite !length_app, length_digits. simpl. lia.
Qed.
