(* ===== verification/Perf.v ===== *)
(** * Latency measurement: perf/clock.hpp, perf/latency_histogram.*,
      perf/tick_to_trade_stats.*, perf/tick_to_trade_trace.hpp

    [LatencyHistogram] counts durations in buckets whose width doubles every
    64 buckets.  The counter frequency, which the code reads from a register,
    is the section variable [freq]; 64-bit integers are kept in [Z] with
    their wrap-around. *)

From Stdlib Require Import SpecFloat.
From S2P Require Import Prelude Float64.

Record TickToTradeTrace := MkTrace {
  wire_arrival_ticks : Z; message_decoded_ticks : Z; book_consistent_ticks : Z;
  order_located_ticks : Z; rate_limit_checked_ticks : Z; price_formatted_ticks : Z;
  message_built_ticks : Z; send_ticks : Z }.
Definition set_book_consistent (n : Z) (tr : TickToTradeTrace) : TickToTradeTrace :=
  MkTrace (wire_arrival_ticks tr) (message_decoded_ticks tr) n (order_located_ticks tr)
    (rate_limit_checked_ticks tr) (price_formatted_ticks tr) (message_built_ticks tr) (send_ticks tr).

(** [static_cast<std::uint64_t>(std::ceil(x))]; a value that does not fit is
    undefined behaviour. *)
Definition ceil_u64 (x : double) : result Z :=
  match x with
  | S754_zero _ => Ok 0%Z
  | S754_finite s m e =>
      let v := if s then Zneg m else Zpos m in
      let c := if (0 <=? e)%Z then (v * 2 ^ e)%Z else (- (- v / 2 ^ (- e)))%Z in
      if ((0 <=? c) && (c <? 2 ^ 64))%Z then Ok c else Stop UB
  | _ => Stop UB
  end.

Module LatencyHistogram.
Open Scope Z_scope.

Definition kSubBucketBits : Z := 6.
Definition kSubBucketCount : Z := Z.shiftl 1 kSubBucketBits.
Definition kNumOctaves : Z := 28.
Definition kNumBuckets : Z := kSubBucketCount + kNumOctaves * kSubBucketCount.

Record t := Mk { counts_ : list Z; total_count_ : Z; max_ : Z }.
Definition empty : t := Mk (replicate (Z.to_nat kNumBuckets) 0) 0 0.

(** [std::countl_zero] on 64 bits. *)
Definition countl_zero (n : Z) : Z := if n =? 0 then 64 else 63 - Z.log2 n.

Definition BucketIndex (nanos : Z) : Z :=
  if nanos <? kSubBucketCount then nanos
  else
    let msb := 63 - countl_zero nanos in
    let octave := msb - kSubBucketBits + 1 in
    if kNumOctaves <? octave then kNumBuckets - 1
    else
      let shift := octave - 1 in
      let sub_offset := Z.shiftr nanos shift - kSubBucketCount in
      kSubBucketCount + (octave - 1) * kSubBucketCount + sub_offset.

Definition BucketUpperBound (index : Z) : Z :=
  if index <? kSubBucketCount then index
  else
    let offset_from_base := index - kSubBucketCount in
    let octave := offset_from_base / kSubBucketCount + 1 in
    let sub_offset := offset_from_base mod kSubBucketCount in
    let shift := octave - 1 in
    let lower := Z.shiftl (kSubBucketCount + sub_offset) shift in
    lower + Z.shiftl 1 shift - 1.

Definition TicksToNanos (freq ticks : Z) : Z := wrapU 64 (ticks * 1000000000) / freq.

Definition RecordTicks (freq ticks : Z) (h : t) : result t :=
  let nanos := TicksToNanos freq ticks in
  let i := Z.to_nat (BucketIndex nanos) in
  c ← aget (counts_ h) i;
  counts ← aset (counts_ h) i (wrapU 64 (c + 1));
  Ok (Mk counts (wrapU 64 (total_count_ h + 1)) (Z.max (max_ h) nanos)).

Definition Max (h : t) : Z := max_ h.
Definition Count (h : t) : Z := total_count_ h.

(** The loop of [Percentile] from bucket [i] on, [n] buckets being left. *)
Fixpoint percentile_scan (n : nat) (i : nat) (cumulative target : Z) (h : t) : result Z :=
  match n with
  | O => Ok (max_ h)
  | S n' =>
      c ← aget (counts_ h) i;
      let cumulative := wrapU 64 (cumulative + c) in
      if target <=? cumulative then Ok (BucketUpperBound (Z.of_nat i))
      else percentile_scan n' (S i) cumulative target h
  end.

Definition Percentile (p : double) (h : t) : result Z :=
  if total_count_ h =? 0 then Ok 0
  else
    c ← ceil_u64 (fmul p (f_of_Z (total_count_ h)));
    percentile_scan (Z.to_nat kNumBuckets) 0 0 (Z.max 1 c) h.

(** ** Buckets *)
Lemma BucketIndex_small n : n < 64 → BucketIndex n = n.
Proof. intros. unfold BucketIndex. by rewrite (proj2 (Z.ltb_lt n kSubBucketCount)). Qed.

Lemma BucketIndex_octave n :
  64 <= n < 2 ^ 34 →
  ∃ s, 0 <= s <= 27 ∧ 2 ^ s * 64 <= n < 2 ^ s * 128 ∧ BucketIndex n = 64 * s + n / 2 ^ s ∧
    64 <= n / 2 ^ s < 128.
Proof.
  intros [Hlo Hhi]. exists (Z.log2 n - 6).
  assert (6 <= Z.log2 n < 34) as Hlog.
  { split; [change 6 with (Z.log2 64); by apply Z.log2_le_mono|].
    apply Z.log2_lt_pow2; lia. }
  pose proof (Z.log2_spec n ltac:(lia)) as [H1 H2].
  replace (2 ^ Z.log2 n) with (2 ^ (Z.log2 n - 6) * 64) in H1
    by (change 64 with (2 ^ 6); rewrite <-Z.pow_add_r by lia; f_equal; lia).
  replace (2 ^ Z.succ (Z.log2 n)) with (2 ^ (Z.log2 n - 6) * 128) in H2
    by (change 128 with (2 ^ 7); rewrite <-Z.pow_add_r by lia; f_equal; lia).
  assert (0 < 2 ^ (Z.log2 n - 6)) by (apply Z.pow_pos_nonneg; lia).
  split_and!; [lia..| | |].
  - unfold BucketIndex, countl_zero. change kSubBucketCount with 64.
    rewrite (proj2 (Z.ltb_ge n 64)), (proj2 (Z.eqb_neq n 0)) by lia.
    unfold kSubBucketBits, kNumOctaves. rewrite (proj2 (Z.ltb_ge 28 _)) by lia.
    rewrite Z.shiftr_div_pow2 by lia.
    replace (63 - (63 - Z.log2 n) - 6 + 1 - 1) with (Z.log2 n - 6) by lia. lia.
  - apply Z.div_le_lower_bound; lia.
  - apply Z.div_lt_upper_bound; lia.
Qed.

Lemma BucketIndex_overflow n : 2 ^ 34 <= n → BucketIndex n = kNumBuckets - 1.
Proof.
  intros Hn. unfold BucketIndex, countl_zero. change kSubBucketCount with 64.
  assert (34 <= Z.log2 n) by (change 34 with (Z.log2 (2 ^ 34)); by apply Z.log2_le_mono).
  rewrite (proj2 (Z.ltb_ge n 64)), (proj2 (Z.eqb_neq n 0)) by lia.
  unfold kSubBucketBits, kNumOctaves. by rewrite (proj2 (Z.ltb_lt 28 _)) by lia.
Qed.

Lemma BucketIndex_range n : 0 <= n → 0 <= BucketIndex n < kNumBuckets.
Proof.
  intros Hn. change kNumBuckets with 1856. destruct (Z.lt_ge_cases n 64).
  { rewrite BucketIndex_small by done. lia. }
  destruct (Z.lt_ge_cases n (2 ^ 34)).
  - destruct (BucketIndex_octave n) as (s & ? & ? & -> & ?); lia.
  - rewrite BucketIndex_overflow by done. by change kNumBuckets with 1856.
Qed.

Lemma BucketIndex_mono a b : 0 <= a <= b → BucketIndex a <= BucketIndex b.
Proof.
  intros Hab. destruct (Z.lt_ge_cases b (2 ^ 34)) as [Hb|Hb].
  2:{ rewrite (BucketIndex_overflow b Hb). pose proof (BucketIndex_range a). lia. }
  destruct (Z.lt_ge_cases a 64) as [Ha|Ha].
  - rewrite BucketIndex_small by done. destruct (Z.lt_ge_cases b 64).
    + rewrite BucketIndex_small by done. lia.
    + destruct (BucketIndex_octave b) as (s & ? & ? & -> & ?); lia.
  - destruct (BucketIndex_octave a) as (s & Hs & Hsa & -> & Ha'); [lia|].
    destruct (BucketIndex_octave b) as (u & Hu & Hub & -> & Hb'); [lia|].
    destruct (Z.lt_trichotomy s u) as [?|[->|Hlt]]; [lia| |].
    + assert (0 < 2 ^ u) by (apply Z.pow_pos_nonneg; lia).
      pose proof (Z.div_le_mono a b (2 ^ u)). lia.
    + exfalso. assert (2 ^ u * 2 <= 2 ^ s).
      { assert (2 ^ (u + 1) <= 2 ^ s) as H by (apply Z.pow_le_mono_r; lia).
        by rewrite Z.pow_add_r in H by lia. }
      lia.
Qed.

Lemma BucketUpperBound_index n :
  0 <= n < 2 ^ 34 →
  n <= BucketUpperBound (BucketIndex n) ∧ 64 * (BucketUpperBound (BucketIndex n) - n) <= n.
Proof.
  intros Hn. destruct (Z.lt_ge_cases n 64).
  { rewrite BucketIndex_small by done. unfold BucketUpperBound. change kSubBucketCount with 64.
    rewrite (proj2 (Z.ltb_lt n 64)) by lia. lia. }
  destruct (BucketIndex_octave n) as (s & Hs & Hsn & -> & Hq); [lia|].
  unfold BucketUpperBound. change kSubBucketCount with 64.
  rewrite (proj2 (Z.ltb_ge _ 64)) by lia.
  replace (64 * s + n / 2 ^ s - 64) with ((n / 2 ^ s - 64) + s * 64) by lia.
  rewrite Z.div_add, Z.mod_add by lia.
  rewrite (Z.div_small (n / 2 ^ s - 64)), (Z.mod_small (n / 2 ^ s - 64)) by lia.
  rewrite !Z.shiftl_mul_pow2 by lia.
  replace (0 + s + 1 - 1) with s by lia.
  assert (0 < 2 ^ s) by (apply Z.pow_pos_nonneg; lia).
  pose proof (Z.div_mod n (2 ^ s) ltac:(lia)). pose proof (Z.mod_pos_bound n (2 ^ s) ltac:(lia)).
  replace (64 + (n / 2 ^ s - 64)) with (n / 2 ^ s) by lia. nia.
Qed.

(** ** The counts *)
Definition in_bucket (i : Z) (xs : list Z) : nat :=
  length (filter (λ x, BucketIndex x = i) xs).
Definition up_to_bucket (i : Z) (xs : list Z) : nat :=
  length (filter (λ x, BucketIndex x < i) xs).

(** [h] holds the durations [xs]. *)
Definition records (xs : list Z) (h : t) : Prop :=
  length (counts_ h) = Z.to_nat kNumBuckets ∧
  (∀ i, (i < Z.to_nat kNumBuckets)%nat →
     counts_ h !! i = Some (Z.of_nat (in_bucket (Z.of_nat i) xs))) ∧
  total_count_ h = Z.of_nat (length xs) ∧ max_ h = foldr Z.max 0 xs.

Lemma records_empty : records [] empty.
Proof.
  split_and!; [apply length_replicate| |done|done].
  intros i Hi. cbn [counts_ empty]. by apply lookup_replicate_2.
Qed.

Lemma in_bucket_cons x i xs :
  in_bucket i (x :: xs) =
    (if decide (BucketIndex x = i) then S (in_bucket i xs) else in_bucket i xs).
Proof. unfold in_bucket. rewrite filter_cons. by case_decide. Qed.
Lemma in_bucket_le i xs : (in_bucket i xs <= length xs)%nat.
Proof. apply length_filter. Qed.
Lemma up_to_bucket_le i xs : (up_to_bucket i xs <= length xs)%nat.
Proof. apply length_filter. Qed.
Lemma up_to_bucket_S i xs :
  up_to_bucket (i + 1) xs = (up_to_bucket i xs + in_bucket i xs)%nat.
Proof.
  unfold up_to_bucket, in_bucket. induction xs as [|x xs IH]; [done|].
  rewrite !filter_cons. repeat case_decide; simpl; lia.
Qed.

Lemma up_to_bucket_mono i j xs : i <= j → (up_to_bucket i xs <= up_to_bucket j xs)%nat.
Proof.
  intros Hij. unfold up_to_bucket. induction xs as [|x xs IH]; [done|].
  rewrite !filter_cons. repeat case_decide; simpl; lia.
Qed.
Lemma up_to_bucket_perm i xs ys : xs ≡ₚ ys → up_to_bucket i xs = up_to_bucket i ys.
Proof. intros H. unfold up_to_bucket. by rewrite H. Qed.

Lemma TicksToNanos_nonneg freq ticks : 0 < freq → 0 <= TicksToNanos freq ticks.
Proof.
  intros. apply Z.div_pos; [|done]. by apply wrapU_bound.
Qed.

Lemma RecordTicks_spec freq ticks xs h :
  0 < freq → records xs h → Z.of_nat (length xs) + 1 < 2 ^ 64 →
  ∃ h', RecordTicks freq ticks h = Ok h' ∧ records (TicksToNanos freq ticks :: xs) h'.
Proof.
  intros Hf (Hl & Hc & Ht & Hm) Hlen. unfold RecordTicks.
  pose proof (TicksToNanos_nonneg freq ticks Hf) as Hn.
  set (n := TicksToNanos freq ticks) in *. pose proof (BucketIndex_range n Hn) as Hr.
  assert ((Z.to_nat (BucketIndex n) < Z.to_nat kNumBuckets)%nat) as Hi by lia.
  rewrite (aget_Some _ _ _ (Hc _ Hi)). cbn [mbind result_bind].
  rewrite aset_lt by lia. cbn [mbind result_bind]. eexists. split; [done|].
  rewrite Z2Nat.id by lia. pose proof (in_bucket_le (BucketIndex n) xs).
  split_and!; cbn [counts_ total_count_ max_].
  - by rewrite length_insert.
  - intros i Hi'. rewrite list_lookup_insert, in_bucket_cons, Hl.
    destruct (decide (BucketIndex n = Z.of_nat i)) as [Heq|Hne].
    + rewrite decide_True by lia. f_equal. rewrite wrapU_small by lia. rewrite Heq. lia.
    + rewrite decide_False by lia. by apply Hc.
  - rewrite Ht, wrapU_small by lia. simpl. lia.
  - simpl. rewrite Hm. lia.
Qed.

(** ** Percentiles *)
Lemma percentile_scan_spec xs h n i target v :
  records xs h → Z.of_nat (length xs) < 2 ^ 64 →
  (i + n = Z.to_nat kNumBuckets)%nat → Z.of_nat i <= BucketIndex v < kNumBuckets →
  Z.of_nat (up_to_bucket (BucketIndex v) xs) < target <=
    Z.of_nat (up_to_bucket (BucketIndex v + 1) xs) →
  percentile_scan n i (Z.of_nat (up_to_bucket (Z.of_nat i) xs)) target h =
    Ok (BucketUpperBound (BucketIndex v)).
Proof.
  intros (Hl & Hc & _) Hlen Hin Hv Ht. revert i Hin Hv.
  induction n as [|n IH]; intros i Hin Hv; [lia|].
  cbn [percentile_scan]. rewrite (aget_Some _ _ _ (Hc i ltac:(lia))). cbn [mbind result_bind].
  pose proof (up_to_bucket_S (Z.of_nat i) xs) as HS.
  pose proof (up_to_bucket_le (Z.of_nat i + 1) xs).
  rewrite <-Nat2Z.inj_add, <-HS, wrapU_small by lia.
  replace (Z.of_nat i + 1) with (Z.of_nat (S i)) by lia.
  destruct (decide (Z.of_nat i = BucketIndex v)) as [Heq|Hne].
  - rewrite (proj2 (Z.leb_le _ _)); [by rewrite Heq|].
    rewrite <-Heq in Ht. replace (Z.of_nat (S i)) with (Z.of_nat i + 1) by lia. lia.
  - assert (up_to_bucket (Z.of_nat (S i)) xs <= up_to_bucket (BucketIndex v) xs)%nat.
    { apply up_to_bucket_mono. lia. }
    rewrite (proj2 (Z.leb_gt _ _)) by lia. apply IH; lia.
Qed.

(** The bucket of the [k]-th smallest duration is the first one at which the
    running count reaches [k]. *)
Lemma rank_bucket xs ys k v :
  ys ≡ₚ xs → StronglySorted Z.le ys → Forall (λ x, 0 <= x) xs → ys !! k = Some v →
  Z.of_nat (up_to_bucket (BucketIndex v) xs) < Z.of_nat (S k) <=
    Z.of_nat (up_to_bucket (BucketIndex v + 1) xs).
Proof.
  intros Hperm Hs Hpos Hk. rewrite <-!(up_to_bucket_perm _ _ _ Hperm), <-Hperm in *.
  rewrite <-(take_drop_middle _ _ _ Hk) in Hs, Hpos |- *.
  pose proof (lookup_lt_Some _ _ _ Hk) as Hlt.
  assert (length (take k ys) = k) as Htk by (rewrite length_take; lia).
  revert Htk Hs Hpos. generalize (take k ys) (drop (S k) ys). clear. intros l1 l2 Hl1 Hs Hpos.
  unfold up_to_bucket. rewrite !filter_app, !filter_cons, !length_app.
  apply Forall_app in Hpos as [Hp1 Hp2]. apply Forall_cons in Hp2 as [Hpv Hp2].
  assert (Forall (λ x, x <= v) l1) as Hle.
  { apply Forall_forall. intros x Hx.
    eapply (StronglySorted_app_1_elem_of Z.le l1); [exact Hs|done|left]. }
  assert (Forall (λ x, v <= x) l2) as Hge.
  { apply StronglySorted_app_1_r in Hs. by apply StronglySorted_inv in Hs as [_ ?]. }
  split.
  - rewrite decide_False by lia.
    assert (filter (λ x, BucketIndex x < BucketIndex v) l2 = []) as ->.
    { apply filter_none. rewrite Forall_forall in *. intros x Hx Hlt.
      pose proof (BucketIndex_mono v x (conj Hpv (Hge x Hx))). lia. }
    pose proof (length_filter (λ x, BucketIndex x < BucketIndex v) l1). simpl. lia.
  - rewrite decide_True by lia.
    assert (filter (λ x, BucketIndex x < BucketIndex v + 1) l1 = l1) as ->.
    { apply filter_all. rewrite Forall_forall in *. intros x Hx.
      pose proof (BucketIndex_mono x v (conj (Hp1 x Hx) (Hle x Hx))). lia. }
    simpl. lia.
Qed.
(** ** Recording and reading stay inside the array *)
Definition tallied (h : t) : Prop :=
  length (counts_ h) = Z.to_nat kNumBuckets ∧ 0 <= total_count_ h < 2 ^ 64.

Lemma tallied_empty : tallied empty.
Proof. split; [apply length_replicate|]. cbn. lia. Qed.
Lemma RecordTicks_tallied freq ticks h :
  0 < freq → tallied h → ∃ h', RecordTicks freq ticks h = Ok h' ∧ tallied h'.
Proof.
  intros Hf [Hl Ht]. unfold RecordTicks.
  assert (Z.to_nat (BucketIndex (TicksToNanos freq ticks)) < length (counts_ h))%nat as Hi.
  { pose proof (BucketIndex_range (TicksToNanos freq ticks) ltac:(by apply TicksToNanos_nonneg)). lia. }
  rewrite aget_lt by done. cbn [mbind result_bind]. rewrite aset_lt by done. cbn [mbind result_bind].
  eexists. split; [done|]. split; cbn [counts_ total_count_]; [by rewrite length_insert|]. by apply wrapU_bound.
Qed.
Lemma percentile_scan_Ok n i cumulative target h :
  (i + n <= length (counts_ h))%nat → ∃ v, percentile_scan n i cumulative target h = Ok v.
Proof.
  revert i cumulative. induction n as [|n IH]; intros i cumulative Hi; cbn [percentile_scan]; [by eexists|].
  rewrite aget_lt by lia. cbn [mbind result_bind]. case_match; [by eexists|]. apply IH. lia.
Qed.
Lemma ceil_count n mp :
  0 < n < 2 ^ 64 → Zpos mp <= 2 ^ 53 - 2 ^ 43 →
  ∃ c, ceil_u64 (fmul (S754_finite false mp (-53)) (f_of_Z n)) = Ok c.
Proof.
  intros Hn Hmp. destruct (fmul_count_le n mp Hn Hmp) as [->|(m & e & -> & He & Hle)]; [by eexists|].
  unfold ceil_u64. destruct (Z.leb_spec 0 e) as [Hpos|Hneg].
  - rewrite Z.pow_add_r in Hle by lia. assert (0 <= Zpos m * 2 ^ e < 2 ^ 64) by nia.
    rewrite (proj2 (Z.leb_le _ _)), (proj2 (Z.ltb_lt _ _)) by lia. by eexists.
  - assert (0 < 2 ^ (- e)) by (apply Z.pow_pos_nonneg; lia).
    assert (Zpos m * 2 ^ 105 <= (2 ^ 169 - 2 ^ 150) * 2 ^ (- e)) as Hm.
    { replace (2 ^ 105) with (2 ^ (e + 105) * 2 ^ (- e)); [nia|].
      rewrite <-Z.pow_add_r by lia. f_equal. lia. }
    assert (- (2 ^ 64 - 1) <= - Zpos m / 2 ^ (- e) <= 0).
    { split; [apply Z.div_le_lower_bound; nia|]. apply Z.div_le_upper_bound; lia. }
    rewrite (proj2 (Z.leb_le _ _)), (proj2 (Z.ltb_lt _ _)) by lia. by eexists.
Qed.
Lemma Percentile_Ok mp h :
  tallied h → Zpos mp <= 2 ^ 53 - 2 ^ 43 → ∃ v, Percentile (S754_finite false mp (-53)) h = Ok v.
Proof.
  intros [Hl Ht] Hmp. unfold Percentile. destruct (Z.eqb_spec (total_count_ h) 0); [by eexists|].
  destruct (ceil_count (total_count_ h) mp ltac:(lia) Hmp) as [c ->]. cbn [mbind result_bind].
  apply percentile_scan_Ok. lia.
Qed.
End LatencyHistogram.

Module TickToTradeStats.
Record t := Mk {
  ws_decode_histogram_ : LatencyHistogram.t; book_update_histogram_ : LatencyHistogram.t;
  order_lookup_histogram_ : LatencyHistogram.t; rate_limit_check_histogram_ : LatencyHistogram.t;
  price_format_histogram_ : LatencyHistogram.t; message_build_histogram_ : LatencyHistogram.t;
  send_histogram_ : LatencyHistogram.t; tick_to_trade_histogram_ : LatencyHistogram.t }.
Definition empty : t :=
  let h := LatencyHistogram.empty in Mk h h h h h h h h.

(** [a - b] on 64-bit ticks. *)
Definition ticks_between (a b : Z) : Z := wrapU 64 (a - b).

Definition Record_ (freq : Z) (trace : TickToTradeTrace) (s : t) : result t :=
  let rec := LatencyHistogram.RecordTicks freq in
  h1 ← rec (ticks_between (message_decoded_ticks trace) (wire_arrival_ticks trace))
         (ws_decode_histogram_ s);
  h2 ← rec (ticks_between (book_consistent_ticks trace) (message_decoded_ticks trace))
         (book_update_histogram_ s);
  h3 ← rec (ticks_between (order_located_ticks trace) (book_consistent_ticks trace))
         (order_lookup_histogram_ s);
  h4 ← rec (ticks_between (rate_limit_checked_ticks trace) (order_located_ticks trace))
         (rate_limit_check_histogram_ s);
  h5 ← rec (ticks_between (price_formatted_ticks trace) (rate_limit_checked_ticks trace))
         (price_format_histogram_ s);
  h6 ← rec (ticks_between (message_built_ticks trace) (price_formatted_ticks trace))
         (message_build_histogram_ s);
  h7 ← rec (ticks_between (send_ticks trace) (message_built_ticks trace)) (send_histogram_ s);
  h8 ← rec (ticks_between (send_ticks trace) (wire_arrival_ticks trace))
         (tick_to_trade_histogram_ s);
  Ok (Mk h1 h2 h3 h4 h5 h6 h7 h8).

(** The lines that [LogSummary] logs. *)
Definition log_stage (name : list Z) (hist : LatencyHistogram.t) : result (list Z) :=
  let percentile p := LatencyHistogram.Percentile p hist in
  p50 ← percentile (f_of_decimal false 5 (-1));
  p75 ← percentile (f_of_decimal false 75 (-2));
  p99 ← percentile (f_of_decimal false 99 (-2));
  p999 ← percentile (f_of_decimal false 999 (-3));
  Ok (name ++ str ": count=" ++ to_string (LatencyHistogram.Count hist) ++
      str " p50=" ++ to_string p50 ++ str " ns p75=" ++ to_string p75 ++
      str " ns p99=" ++ to_string p99 ++ str " ns p99.9=" ++ to_string p999 ++
      str " ns max=" ++ to_string (LatencyHistogram.Max hist) ++ str " ns").
Fixpoint log_stages (l : list (string * LatencyHistogram.t)) : result (list (list Z)) :=
  match l with
  | [] => Ok []
  | (name, hist) :: l' => line ← log_stage (str name) hist; lines ← log_stages l'; Ok (line :: lines)
  end.
Definition LogSummary (s : t) : result (list (list Z)) :=
  log_stages [("WS decode"%string, ws_decode_histogram_ s);
    ("Book update"%string, book_update_histogram_ s);
    ("Order lookup"%string, order_lookup_histogram_ s);
    ("Rate limit check"%string, rate_limit_check_histogram_ s);
    ("Price format"%string, price_format_histogram_ s);
    ("Message build"%string, message_build_histogram_ s);
    ("Send (encode+write)"%string, send_histogram_ s);
    ("Tick-to-trade (total)"%string, tick_to_trade_histogram_ s)].

(** The stamps of a trace in the order in which the hot path takes them, and
    the intervals between neighbours and from the first to the last. *)
Definition stamps (trace : TickToTradeTrace) : list Z :=
  [wire_arrival_ticks trace; message_decoded_ticks trace; book_consistent_ticks trace;
   order_located_ticks trace; rate_limit_checked_ticks trace; price_formatted_ticks trace;
   message_built_ticks trace; send_ticks trace].
Definition intervals (trace : TickToTradeTrace) : list Z :=
  zip_with ticks_between (tail (stamps trace)) (stamps trace) ++
  [ticks_between (List.last (stamps trace) 0%Z) (List.hd 0%Z (stamps trace))].
(** *** Every operation returns *)
Definition histograms (s : t) : list LatencyHistogram.t :=
  [ws_decode_histogram_ s; book_update_histogram_ s; order_lookup_histogram_ s;
   rate_limit_check_histogram_ s; price_format_histogram_ s; message_build_histogram_ s;
   send_histogram_ s; tick_to_trade_histogram_ s].
Definition tallied (s : t) : Prop := Forall LatencyHistogram.tallied (histograms s).

Lemma stats_tallied_empty : tallied empty.
Proof. repeat first [apply Forall_nil_2 | apply Forall_cons_2; [apply LatencyHistogram.tallied_empty|]]. Qed.
Lemma Record_tallied freq trace s :
  (0 < freq)%Z → tallied s → ∃ s', Record_ freq trace s = Ok s' ∧ tallied s'.
Proof.
  intros Hf Hs. unfold tallied, histograms in Hs. rewrite !Forall_cons in Hs.
  destruct Hs as (H1 & H2 & H3 & H4 & H5 & H6 & H7 & H8 & _). unfold Record_. cbv zeta.
  repeat match goal with
  | H : LatencyHistogram.tallied ?h |- context [LatencyHistogram.RecordTicks freq ?n ?h] =>
      destruct (LatencyHistogram.RecordTicks_tallied freq n h Hf H) as (? & -> & ?); clear H;
      cbn [mbind result_bind]
  end.
  eexists. split; [done|]. repeat first [apply Forall_nil_2 | apply Forall_cons_2; [done|]].
Qed.
Lemma quantile_Ok m e h :
  (Zpos match f_of_decimal false m e with S754_finite false m _ => m | _ => 1 end <= 2 ^ 53 - 2 ^ 43)%Z →
  match f_of_decimal false m e with S754_finite false _ (-53) => true | _ => false end = true →
  LatencyHistogram.tallied h → ∃ v, LatencyHistogram.Percentile (f_of_decimal false m e) h = Ok v.
Proof.
  intros Hm He Hh. destruct (f_of_decimal false m e) as [| | |[] m' e']; try done.
  assert (e' = (-53)%Z) as -> by (repeat (case_match; try done)). by apply LatencyHistogram.Percentile_Ok.
Qed.
Lemma log_stage_Ok name h : LatencyHistogram.tallied h → ∃ line, log_stage name h = Ok line.
Proof.
  intros Hh. unfold log_stage. cbv zeta.
  destruct (quantile_Ok 5 (-1) h) as [p50 ->]; [by vm_compute|by vm_compute|done|].
  destruct (quantile_Ok 75 (-2) h) as [p75 ->]; [by vm_compute|by vm_compute|done|].
  destruct (quantile_Ok 99 (-2) h) as [p99 ->]; [by vm_compute|by vm_compute|done|].
  destruct (quantile_Ok 999 (-3) h) as [p999 ->]; [by vm_compute|by vm_compute|done|].
  by eexists.
Qed.
Lemma LogSummary_Ok s : tallied s → ∃ lines, LogSummary s = Ok lines.
Proof.
  intros Hs. unfold LogSummary.
  assert (∀ l, Forall (λ x, LatencyHistogram.tallied x.2) l → ∃ lines, log_stages l = Ok lines) as Hl.
  { induction 1 as [|[name h] l Hh _ [lines IH]]; cbn [log_stages]; [by eexists|].
    destruct (log_stage_Ok (str name) h Hh) as [line ->]. cbn [mbind result_bind]. rewrite IH. by eexists. }
  apply Hl. unfold tallied, histograms in Hs. rewrite !Forall_cons in Hs.
  repeat first [apply Forall_nil_2 | apply Forall_cons_2; [cbn [snd]; tauto|]].
Qed.
End TickToTradeStats.

(** ** Properties *)

(** A run of [RecordTicks]. *)
Fixpoint record_all (freq : Z) (ticks : list Z) (h : LatencyHistogram.t)
    : result LatencyHistogram.t :=
  match ticks with
  | [] => Ok h
  | x :: ticks' => h' ← LatencyHistogram.RecordTicks freq x h; record_all freq ticks' h'
  end.

Lemma record_all_spec freq ticks xs h :
  (0 < freq)%Z → LatencyHistogram.records xs h →
  (Z.of_nat (length xs + length ticks) < 2 ^ 64)%Z →
  ∃ h', record_all freq ticks h = Ok h' ∧
    LatencyHistogram.records
      (reverse (LatencyHistogram.TicksToNanos freq <$> ticks) ++ xs) h'.
Proof.
  intros Hf. revert xs h. induction ticks as [|x ticks IH]; intros xs h Hr Hlen.
  { by exists h. }
  simpl in Hlen. destruct (LatencyHistogram.RecordTicks_spec freq x xs h Hf Hr)
    as (h1 & Hh1 & Hr1); [lia|].
  cbn [record_all]. rewrite Hh1. cbn [mbind result_bind].
  destruct (IH _ _ Hr1) as (h' & -> & Hr'); [simpl; lia|].
  exists h'. split; [done|]. by rewrite fmap_cons, reverse_cons, <-app_assoc.
Qed.

Lemma max_is_last xs ys v k :
  ys ≡ₚ xs → StronglySorted Z.le ys → Forall (λ x, 0 ≤ x)%Z xs → ys !! k = Some v →
  Some (foldr Z.max 0%Z xs) = last ys.
Proof.
  intros Hp Hs Hpos Hk. destruct (last ys) as [w|] eqn:Hw.
  2:{ apply last_None in Hw. by subst. }
  apply last_Some in Hw as [l ->]. f_equal.
  assert (w ∈ xs) as Hin by (rewrite <-Hp; set_solver).
  assert (∀ x, x ∈ xs → x ≤ w)%Z as Hle.
  { intros x Hx. rewrite <-Hp in Hx. apply elem_of_app in Hx as [Hx|Hx]; [|set_solver].
    eapply (StronglySorted_app_1_elem_of Z.le l); [exact Hs|done|set_solver]. }
  clear - Hin Hle Hpos.
  assert (foldr Z.max 0 xs ≤ w)%Z.
  { assert (0 ≤ w)%Z by (rewrite Forall_forall in Hpos; auto).
    clear Hin Hpos. induction xs as [|x xs IH]; simpl; [done|].
    pose proof (Hle x ltac:(set_solver)). pose proof (IH ltac:(set_solver)). lia. }
  assert (w ≤ foldr Z.max 0 xs)%Z; [|lia].
  clear - Hin. induction xs as [|x xs IH]; [set_solver|]. simpl.
  apply elem_of_cons in Hin as [->|Hin]; [lia|]. pose proof (IH Hin). lia.
Qed.

(** C36. A duration below 2^34 ns (17.2 s) falls into one of the 1856 buckets
    whose upper bound is at least the duration and above it by at most one
    part in 64; longer ones all fall into the last bucket; and longer
    durations never fall into lower buckets. *)
Theorem bucket_accuracy (n m : Z) :
  (0 ≤ n ≤ m)%Z →
  (0 ≤ LatencyHistogram.BucketIndex n < LatencyHistogram.kNumBuckets)%Z ∧
  (LatencyHistogram.BucketIndex n ≤ LatencyHistogram.BucketIndex m)%Z ∧
  if decide (n < 2 ^ 34)%Z then
    (n ≤ LatencyHistogram.BucketUpperBound (LatencyHistogram.BucketIndex n) ≤ n + n / 64)%Z
  else LatencyHistogram.BucketIndex n = (LatencyHistogram.kNumBuckets - 1)%Z.
Proof.
  intros Hn. split; [apply LatencyHistogram.BucketIndex_range; lia|].
  split; [by apply LatencyHistogram.BucketIndex_mono|]. case_decide.
  - destruct (LatencyHistogram.BucketUpperBound_index n) as [? Hle]; [lia|]. split; [done|].
    apply (Z.div_le_lower_bound n 64) in Hle; lia.
  - apply LatencyHistogram.BucketIndex_overflow. lia.
Qed.

Lemma bucket_accuracy_witness :
  LatencyHistogram.BucketIndex 1000 = 317%Z ∧
  LatencyHistogram.BucketUpperBound 317 = 1007%Z ∧ (1000 ≤ 1007 ≤ 1000 + 1000 / 64)%Z.
Proof.
  split; [reflexivity|]. split; [reflexivity|].
  exact (proj2 (proj2 (bucket_accuracy 1000 1000 ltac:(lia)))).
Defined.

(** After any sequence of [RecordTicks], [Percentile(p)] returns the
    upper bound of the bucket that holds the duration of rank
    max(1, ceil(p * count)) among the recorded ones, [Count] their number and
    [Max] the largest. *)
Theorem percentile_is_rank (freq : Z) (ticks ys : list Z) (p : double) (c v : Z) :
  (0 < freq)%Z → (Z.of_nat (length ticks) < 2 ^ 64)%Z →
  ys ≡ₚ (LatencyHistogram.TicksToNanos freq <$> ticks) → StronglySorted Z.le ys →
  ceil_u64 (fmul p (f_of_Z (Z.of_nat (length ticks)))) = Ok c →
  ys !! (Z.to_nat (Z.max 1 c) - 1) = Some v →
  ∃ h, record_all freq ticks LatencyHistogram.empty = Ok h ∧
    LatencyHistogram.Percentile p h =
      Ok (LatencyHistogram.BucketUpperBound (LatencyHistogram.BucketIndex v)) ∧
    LatencyHistogram.Count h = Z.of_nat (length ticks) ∧ Some (LatencyHistogram.Max h) = last ys.
Proof.
  intros Hf Hlen Hperm Hs Hc Hv.
  destruct (record_all_spec freq ticks [] _ Hf LatencyHistogram.records_empty)
    as (h & -> & Hr); [simpl; lia|].
  rewrite app_nil_r in Hr. set (xs := reverse _) in *.
  assert (length xs = length ticks) as Hxl by (unfold xs; by rewrite length_reverse, length_fmap).
  assert (ys ≡ₚ xs) as Hp by (unfold xs; by rewrite reverse_Permutation).
  assert (Forall (λ x, 0 ≤ x)%Z xs) as Hpos.
  { unfold xs. apply Forall_reverse, Forall_fmap, Forall_true. intros x. simpl.
    by apply LatencyHistogram.TicksToNanos_nonneg. }
  exists h. split; [done|]. pose proof Hr as (_ & _ & Ht & Hm).
  split; [|split; [unfold LatencyHistogram.Count; by rewrite Ht, Hxl|]].
  2:{ unfold LatencyHistogram.Max. rewrite Hm. by eapply max_is_last. }
  pose proof (LatencyHistogram.rank_bucket _ _ _ _ Hp Hs Hpos Hv) as Hrank.
  assert (0 ≤ v)%Z as Hv0.
  { rewrite <-Hp in Hpos. rewrite Forall_lookup in Hpos. exact (Hpos _ _ Hv). }
  pose proof (LatencyHistogram.BucketIndex_range v Hv0).
  unfold LatencyHistogram.Percentile. rewrite Ht, Hxl.
  rewrite (proj2 (Z.eqb_neq _ _)); [|].
  - rewrite Hc. cbn [mbind result_bind].
    replace (Z.max 1 c) with (Z.of_nat (S (Z.to_nat (Z.max 1 c) - 1))) by lia.
    assert (LatencyHistogram.up_to_bucket (Z.of_nat 0) xs = 0) as H0.
    { unfold LatencyHistogram.up_to_bucket. rewrite filter_none; [done|].
      eapply Forall_impl; [exact Hpos|]. intros x Hx%LatencyHistogram.BucketIndex_range. simpl. lia. }
    pose proof (LatencyHistogram.percentile_scan_spec xs h (Z.to_nat LatencyHistogram.kNumBuckets) 0
      (Z.of_nat (S (Z.to_nat (Z.max 1 c) - 1))) v Hr) as Hscan.
    rewrite H0 in Hscan. apply Hscan; [lia|done|lia|done].
  - apply lookup_lt_Some in Hv. rewrite (Permutation_length Hp) in Hv. lia.
Qed.

Lemma percentile_is_rank_witness :
  ∃ h, record_all 1000000000 [900; 70; 1000; 30]%Z LatencyHistogram.empty = Ok h ∧
    LatencyHistogram.Percentile (f_of_decimal false 75 (-2)) h = Ok 903%Z ∧
    LatencyHistogram.Count h = 4%Z ∧ Some (LatencyHistogram.Max h) = Some 1000%Z.
Proof.
  assert ([30; 70; 900; 1000]%Z ≡ₚ (LatencyHistogram.TicksToNanos 1000000000 <$> [900; 70; 1000; 30]%Z))
    as Hp.
  { change (LatencyHistogram.TicksToNanos 1000000000 <$> [900; 70; 1000; 30]%Z)
      with [900; 70; 1000; 30]%Z. solve_Permutation. }
  refine (percentile_is_rank 1000000000 [900; 70; 1000; 30]%Z [30; 70; 900; 1000]%Z
    (f_of_decimal false 75 (-2)) 3 900 ltac:(lia) ltac:(simpl; lia) Hp _ _ _);
    [|vm_compute; reflexivity|reflexivity].
  repeat (constructor; [|repeat constructor; lia]). constructor.
Defined.

(** [TickToTradeStats::Record] adds each interval of the trace, between
    two consecutive stamps and from the first to the last, to its own
    histogram and to no other. *)
Theorem stats_record_correct (freq : Z) (trace : TickToTradeTrace) (s : TickToTradeStats.t)
    (recs : list (list Z)) :
  let hists := λ s, [TickToTradeStats.ws_decode_histogram_ s;
    TickToTradeStats.book_update_histogram_ s; TickToTradeStats.order_lookup_histogram_ s;
    TickToTradeStats.rate_limit_check_histogram_ s; TickToTradeStats.price_format_histogram_ s;
    TickToTradeStats.message_build_histogram_ s; TickToTradeStats.send_histogram_ s;
    TickToTradeStats.tick_to_trade_histogram_ s] in
  (0 < freq)%Z →
  Forall2 LatencyHistogram.records recs (hists s) →
  Forall (λ xs, Z.of_nat (length xs) + 1 < 2 ^ 64)%Z recs →
  ∃ s', TickToTradeStats.Record_ freq trace s = Ok s' ∧
    Forall2 LatencyHistogram.records
      (zip_with (λ i xs, LatencyHistogram.TicksToNanos freq i :: xs)
         (TickToTradeStats.intervals trace) recs) (hists s').
Proof.
  intros hists Hf Hrec Hlen. unfold hists in Hrec.
  repeat match goal with H : Forall2 _ _ (_ :: _) |- _ => apply Forall2_cons_inv_r in H as (?&?&?&?&->) end.
  match goal with H : Forall2 _ _ [] |- _ => apply Forall2_nil_inv_r in H as -> end.
  repeat match goal with H : Forall _ (_ :: _) |- _ => apply Forall_cons in H as [? H] end.
  unfold TickToTradeStats.Record_.
  repeat match goal with
  | H : LatencyHistogram.records ?xs ?h |- context [LatencyHistogram.RecordTicks freq ?t ?h] =>
      destruct (LatencyHistogram.RecordTicks_spec freq t xs h Hf H) as (? & -> & ?);
        [assumption|cbn [mbind result_bind]; clear H]
  end.
  eexists. split; [done|]. simpl. repeat (constructor; [done|]). constructor.
Qed.

Lemma stats_record_correct_witness :
  ∃ s', TickToTradeStats.Record_ 1000000000 (MkTrace 10 20 40 70 110 160 220 290)
          TickToTradeStats.empty = Ok s' ∧
    LatencyHistogram.records [280%Z] (TickToTradeStats.tick_to_trade_histogram_ s').
Proof.
  destruct (stats_record_correct 1000000000 (MkTrace 10 20 40 70 110 160 220 290)
    TickToTradeStats.empty (replicate 8 [])) as (s' & Hs & Hall).
  - lia.
  - repeat (constructor; [apply LatencyHistogram.records_empty|]). constructor.
  - repeat (constructor; [simpl; lia|]). constructor.
  - exists s'. split; [exact Hs|].
    exact (Forall2_lookup_lr _ _ _ 7 _ _ Hall eq_refl eq_refl).
Defined.
