(* ===== verification/SbeBbo.v ===== *)
(** * The SBE best-bid-offer feed: okx/marketdata/sbe_bbo.*, sbe_bbo_source.cpp

    [DecodeBboTbt] reads a fixed little-endian layout out of a message;
    [SbeBboSource::OnMessage] drops stale messages and replaces the book by
    the one level on each side that the message carries. *)

From Stdlib Require Import SpecFloat.
From S2P Require Import Prelude Float64 OrderBook Perf.

Module sbe.

Definition kHeaderSize : nat := 8.
Definition kSchemaId : Z := 1.
Definition kBboTbtTemplateId : Z := 1000.
Definition kBboTbtBlockLength : Z := 74.

Record MessageHeader := MkHeader {
  block_length : Z; template_id : Z; schema_id : Z; version : Z }.
Record BboTbt := MkBbo {
  inst_id_code : Z; ts_us : Z; out_time : Z; seq_id : Z;
  ask_px : double; ask_sz : double; bid_px : double; bid_sz : double;
  ask_ord_count : Z; bid_ord_count : Z }.

Definition kBlockLengthOffset : nat := 0.
Definition kTemplateIdOffset : nat := 2.
Definition kSchemaIdOffset : nat := 4.
Definition kVersionOffset : nat := 6.
Definition kInstIdCodeOffset : nat := 0.
Definition kTsUsOffset : nat := 8.
Definition kOutTimeOffset : nat := 16.
Definition kSeqIdOffset : nat := 24.
Definition kAskPxMantissaOffset : nat := 32.
Definition kAskSzMantissaOffset : nat := 40.
Definition kBidPxMantissaOffset : nat := 48.
Definition kBidSzMantissaOffset : nat := 56.
Definition kAskOrdCountOffset : nat := 64.
Definition kBidOrdCountOffset : nat := 68.
Definition kPxExponentOffset : nat := 72.
Definition kSzExponentOffset : nat := 73.

Definition kMinExponent : Z := -18.
Definition kMaxExponent : Z := 18.
Definition kPow10Size : nat := Z.to_nat (kMaxExponent - kMinExponent + 1).

(** One entry of the table: the inner loop multiplies by ten [|exponent|] times. *)
Definition pow10_entry (i : nat) : double :=
  let exponent := (Z.of_nat i + kMinExponent)%Z in
  let magnitude := Nat.iter (Z.to_nat (Z.abs exponent)) (λ m, fmul m (f_of_Z 10)) (f_of_Z 1) in
  if (exponent <? 0)%Z then fdiv (f_of_Z 1) magnitude else magnitude.
Definition MakePow10Table : list double := pow10_entry <$> seq 0 kPow10Size.
Definition kPow10 : list double := Eval vm_compute in MakePow10Table.

(** [Load<T>] for an unsigned [T] of [n] bytes on a little-endian host; a read
    outside the message is undefined behaviour. *)
Fixpoint Load (n : nat) (source : string_view) (offset : nat) : result Z :=
  match n with
  | O => Ok 0%Z
  | S n' =>
      b ← sv_get source offset;
      r ← Load n' source (offset + 1);
      Ok (b + 256 * r)%Z
  end.
(** [Load<T>] for a signed [T] of [n] bytes. *)
Definition LoadS (n : nat) (source : string_view) (offset : nat) : result Z :=
  wrapS (8 * Z.of_nat n) <$> Load n source offset.

Definition ExponentInRange (exponent : Z) : bool :=
  (kMinExponent <=? exponent)%Z && (exponent <=? kMaxExponent)%Z.

Definition Scale (mantissa exponent : Z) : result double :=
  p ← aget kPow10 (Z.to_nat (exponent - kMinExponent));
  Ok (fmul (f_of_Z mantissa) p).

Definition DecodeHeader (message : string_view) : result (option MessageHeader) :=
  if sv_size message <? kHeaderSize then Ok None
  else
    bl ← Load 2 message kBlockLengthOffset;
    tid ← Load 2 message kTemplateIdOffset;
    sid ← Load 2 message kSchemaIdOffset;
    ver ← Load 2 message kVersionOffset;
    Ok (Some (MkHeader bl tid sid ver)).

Definition DecodeBboTbt (message : string_view) : result (option BboTbt) :=
  header ← DecodeHeader message;
  match header with
  | None => Ok None
  | Some header =>
      if negb (schema_id header =? kSchemaId)%Z ||
         negb (template_id header =? kBboTbtTemplateId)%Z then Ok None
      else if (block_length header <? kBboTbtBlockLength)%Z ||
         (Z.of_nat (sv_size message) <? Z.of_nat kHeaderSize + block_length header)%Z then Ok None
      else
        let block := kHeaderSize in
        px_exponent ← LoadS 1 message (block + kPxExponentOffset);
        sz_exponent ← LoadS 1 message (block + kSzExponentOffset);
        if negb (ExponentInRange px_exponent) || negb (ExponentInRange sz_exponent) then Ok None
        else
          inst ← LoadS 8 message (block + kInstIdCodeOffset);
          ts ← LoadS 8 message (block + kTsUsOffset);
          out ← LoadS 8 message (block + kOutTimeOffset);
          seq ← LoadS 8 message (block + kSeqIdOffset);
          apm ← LoadS 8 message (block + kAskPxMantissaOffset);
          apx ← Scale apm px_exponent;
          asm ← LoadS 8 message (block + kAskSzMantissaOffset);
          asz ← Scale asm sz_exponent;
          bpm ← LoadS 8 message (block + kBidPxMantissaOffset);
          bpx ← Scale bpm px_exponent;
          bsm ← LoadS 8 message (block + kBidSzMantissaOffset);
          bsz ← Scale bsm sz_exponent;
          aoc ← LoadS 4 message (block + kAskOrdCountOffset);
          boc ← LoadS 4 message (block + kBidOrdCountOffset);
          Ok (Some (MkBbo inst ts out seq apx asz bpx bsz aoc boc))
  end.

(** ** Loads *)
Lemma Load_Ok n v off :
  sv_wf v → off + n ≤ sv_size v → ∃ z, Load n v off = Ok z.
Proof.
  intros Hwf. revert off. induction n as [|n IH]; intros off Hle; [by eexists|].
  simpl. unfold sv_get. destruct (sv_at_lt v off Hwf) as (c & -> & _); [lia|].
  cbn [mbind result_bind]. destruct (IH (off + 1)) as [z ->]; [lia|]. by eexists.
Qed.
(** A load depends on the text of the message only. *)
Lemma Load_text v v' n off : sv_text v = sv_text v' → Load n v off = Load n v' off.
Proof.
  intros Ht. revert off. induction n as [|n IH]; intros off; [done|].
  simpl. unfold sv_get. by rewrite !sv_at_text, Ht, IH.
Qed.
Lemma DecodeBboTbt_text v v' :
  sv_text v = sv_text v' → sv_size v = sv_size v' → DecodeBboTbt v = DecodeBboTbt v'.
Proof.
  intros Ht Hs. unfold DecodeBboTbt, DecodeHeader, LoadS. rewrite Hs.
  repeat first
    [ reflexivity
    | rewrite (Load_text v v') by exact Ht
    | match goal with |- mbind _ ?r = mbind _ ?r => destruct r; [cbn [mbind result_bind]|reflexivity] end
    | case_match ].
Qed.
Lemma LoadS_Ok n v off :
  sv_wf v → off + n ≤ sv_size v → ∃ z, LoadS n v off = Ok z.
Proof. intros. unfold LoadS. destruct (Load_Ok n v off) as [z ->]; [done..|]. by eexists. Qed.

(** The [n] bytes of an integer, least significant first. *)
Fixpoint le_bytes (n : nat) (z : Z) : list Z :=
  match n with O => [] | S n' => (z mod 256)%Z :: le_bytes n' (z / 256)%Z end.
Lemma length_le_bytes n z : length (le_bytes n z) = n.
Proof. revert z. induction n; intros; simpl; [done|]. by f_equal. Qed.

Lemma Load_le_bytes n v pre z rest :
  sv_text v = pre ++ le_bytes n z ++ rest →
  Load n v (length pre) = Ok (wrapU (8 * Z.of_nat n) z).
Proof.
  revert pre z. induction n as [|n IH]; intros pre z Ht.
  { cbn [Load]. f_equal. change (8 * Z.of_nat 0)%Z with 0%Z. unfold wrapU.
    by rewrite Z.mod_1_r. }
  cbn [Load le_bytes app] in *. unfold sv_get. rewrite sv_at_text, Ht, list_lookup_middle by done.
  cbn [mbind result_bind].
  replace (length pre + 1) with (length (pre ++ [(z mod 256)%Z])) by (rewrite length_app; done).
  rewrite (IH _ (z / 256)%Z) by (by rewrite Ht, <-app_assoc). cbn [mbind result_bind]. f_equal.
  unfold wrapU. replace (8 * Z.of_nat (S n))%Z with (8 + 8 * Z.of_nat n)%Z by lia.
  rewrite Z.pow_add_r by lia. change (2 ^ 8)%Z with 256%Z.
  rewrite (Z.rem_mul_r z 256) by (try apply Z.pow_nonzero; lia). lia.
Qed.
Lemma wrapS_wrapU w z : (0 < w)%Z → wrapS w (wrapU w z) = wrapS w z.
Proof.
  intros. unfold wrapS, wrapU. by rewrite Zplus_mod_idemp_l.
Qed.
Lemma wrapS_small w z :
  (0 < w)%Z → (- 2 ^ (w - 1) ≤ z < 2 ^ (w - 1))%Z → wrapS w z = z.
Proof.
  intros Hw Hz. unfold wrapS.
  assert (2 ^ w = 2 * 2 ^ (w - 1))%Z.
  { rewrite <-(Z.pow_succ_r 2 (w - 1)) by lia. f_equal. lia. }
  rewrite Z.mod_small by lia. lia.
Qed.
Lemma LoadS_le_bytes n v pre z rest :
  n ≠ 0 → sv_text v = pre ++ le_bytes n z ++ rest →
  (- 2 ^ (8 * Z.of_nat n - 1) ≤ z < 2 ^ (8 * Z.of_nat n - 1))%Z →
  LoadS n v (length pre) = Ok z.
Proof.
  intros Hn Ht Hz. unfold LoadS. rewrite (Load_le_bytes _ _ _ _ _ Ht). simpl. f_equal.
  rewrite wrapS_wrapU, wrapS_small by lia. done.
Qed.

(** ** Scaling *)
Lemma kPow10_table : kPow10 = MakePow10Table.
Proof. vm_compute. reflexivity. Qed.
(** Each entry of the table is the double nearest to its power of ten. *)
Lemma kPow10_nearest :
  kPow10 = (λ i, f_of_decimal false 1 (Z.of_nat i + kMinExponent)) <$> seq 0 kPow10Size.
Proof. vm_compute. reflexivity. Qed.
Lemma kPow10_finite i p : kPow10 !! i = Some p → ∃ m e, p = S754_finite false m e.
Proof.
  intros H. assert (Forall (λ p, match p with S754_finite false _ _ => True | _ => False end) kPow10)
    as Hall by (repeat constructor).
  rewrite Forall_lookup in Hall. specialize (Hall _ _ H). destruct p as [| | |[] m e]; naive_solver.
Qed.
Lemma Scale_spec m e :
  ExponentInRange e = true →
  ∃ x, Scale m e = Ok x ∧ is_nan x = false ∧ x = fmul (f_of_Z m) (f_of_decimal false 1 e).
Proof.
  intros He. unfold ExponentInRange, kMinExponent, kMaxExponent in He. unfold Scale.
  assert (Z.to_nat (e - kMinExponent) < kPow10Size) as Hi
    by (change kPow10Size with 37; unfold kMinExponent; lia).
  assert (kPow10 !! Z.to_nat (e - kMinExponent) = Some (f_of_decimal false 1 e)) as Hp.
  { rewrite kPow10_nearest, list_lookup_fmap, lookup_seq_lt by done.
    cbn [fmap option_fmap option_map]. unfold kMinExponent.
    by replace (Z.of_nat (0 + Z.to_nat (e - -18)) + -18)%Z with e by lia. }
  rewrite (aget_Some _ _ _ Hp). cbn [mbind result_bind]. eexists. split_and!; [done| |done].
  apply kPow10_finite in Hp as (? & ? & ->). apply fmul_number, f_of_Z_number.
Qed.

(** ** The wire format

    A bbo-tbt message (template 1000 of schema 1) as its schema lays it out: the
    fields with their widths in bytes, in order. *)
Record wire := MkWire {
  w_block_length : Z; w_version : Z;
  w_inst_id_code : Z; w_ts_us : Z; w_out_time : Z; w_seq_id : Z;
  w_ask_px : Z; w_ask_sz : Z; w_bid_px : Z; w_bid_sz : Z;
  w_ask_ord_count : Z; w_bid_ord_count : Z; w_px_exponent : Z; w_sz_exponent : Z }.
Definition wire_fields (w : wire) : list (nat * Z) :=
  [(2, w_block_length w); (2, 1000%Z); (2, 1%Z); (2, w_version w);
   (8, w_inst_id_code w); (8, w_ts_us w); (8, w_out_time w); (8, w_seq_id w);
   (8, w_ask_px w); (8, w_ask_sz w); (8, w_bid_px w); (8, w_bid_sz w);
   (4, w_ask_ord_count w); (4, w_bid_ord_count w); (1, w_px_exponent w); (1, w_sz_exponent w)].
Fixpoint wire_bytes (fs : list (nat * Z)) : list Z :=
  match fs with [] => [] | (n, z) :: fs' => le_bytes n z ++ wire_bytes fs' end.
Definition offset_of (i : nat) (fs : list (nat * Z)) : nat := sum_list (fst <$> take i fs).

Definition signed_fits (n : nat) (z : Z) : Prop :=
  (- 2 ^ (8 * Z.of_nat n - 1) ≤ z < 2 ^ (8 * Z.of_nat n - 1))%Z.
(** The fields fit their types. *)
Definition wire_ok (w : wire) : Prop :=
  (0 ≤ w_block_length w < 2 ^ 16)%Z ∧ Forall (λ x, signed_fits x.1 x.2) (drop 4 (wire_fields w)).
(** In a message of [size] bytes: the block has the 74 bytes of the fields and
    is complete, and the exponents lie between -18 and 18. *)
Definition decodable (size : nat) (w : wire) : Prop :=
  (74 ≤ w_block_length w)%Z ∧ (8 + w_block_length w ≤ Z.of_nat size)%Z ∧
  (-18 ≤ w_px_exponent w ≤ 18)%Z ∧ (-18 ≤ w_sz_exponent w ≤ 18)%Z.
#[export] Instance decodable_dec size w : Decision (decodable size w).
Proof. unfold decodable. apply _. Defined.

Lemma wire_split fs i n z :
  fs !! i = Some (n, z) →
  ∃ pre rest, wire_bytes fs = pre ++ le_bytes n z ++ rest ∧ length pre = offset_of i fs.
Proof.
  revert i. induction fs as [|[m y] fs IH]; intros [|i] Hi; simplify_eq/=.
  - by exists [], (wire_bytes fs).
  - destruct (IH i Hi) as (pre & rest & -> & Hlen).
    exists (le_bytes m y ++ pre), rest. rewrite <-app_assoc. split; [done|].
    rewrite length_app, length_le_bytes, Hlen. done.
Qed.
Lemma Load_field v fs tail i n z :
  sv_text v = wire_bytes fs ++ tail → fs !! i = Some (n, z) →
  Load n v (offset_of i fs) = Ok (wrapU (8 * Z.of_nat n) z).
Proof.
  intros Ht Hi. destruct (wire_split _ _ _ _ Hi) as (pre & rest & Hw & <-).
  rewrite Hw, <-!app_assoc in Ht. by eapply Load_le_bytes.
Qed.
Lemma LoadS_field v fs tail i n z :
  sv_text v = wire_bytes fs ++ tail → fs !! i = Some (n, z) → n ≠ 0 → signed_fits n z →
  LoadS n v (offset_of i fs) = Ok z.
Proof.
  intros Ht Hi Hn Hz. unfold LoadS. rewrite (Load_field _ _ _ _ _ _ Ht Hi). simpl. f_equal.
  rewrite wrapS_wrapU, wrapS_small by (unfold signed_fits in Hz; lia). done.
Qed.

(** What the message says: mantissas scaled by the power of ten. *)
Definition scaled (m e : Z) : double := fmul (f_of_Z m) (f_of_decimal false 1 e).
Definition wire_bbo (w : wire) : BboTbt :=
  MkBbo (w_inst_id_code w) (w_ts_us w) (w_out_time w) (w_seq_id w)
    (scaled (w_ask_px w) (w_px_exponent w)) (scaled (w_ask_sz w) (w_sz_exponent w))
    (scaled (w_bid_px w) (w_px_exponent w)) (scaled (w_bid_sz w) (w_sz_exponent w))
    (w_ask_ord_count w) (w_bid_ord_count w).

Lemma Scale_scaled m e : ExponentInRange e = true → Scale m e = Ok (scaled m e).
Proof. intros He. by destruct (Scale_spec m e He) as (x & -> & _ & ->). Qed.
Lemma scaled_number m e : ExponentInRange e = true → is_nan (scaled m e) = false.
Proof. intros He. unfold scaled. by destruct (Scale_spec m e He) as (x & _ & ? & <-). Qed.

Lemma DecodeHeader_wire v w tail :
  sv_wf v → wire_ok w → sv_text v = wire_bytes (wire_fields w) ++ tail →
  DecodeHeader v = Ok (Some (MkHeader (w_block_length w) kBboTbtTemplateId kSchemaId
    (wrapU 16 (w_version w)))).
Proof.
  intros Hwf (Hbl & _) Ht. unfold DecodeHeader.
  pose proof (length_sv_text v Hwf) as Hsz. rewrite Ht in Hsz. simpl in Hsz.
  rewrite (proj2 (Nat.ltb_ge _ _)) by (unfold kHeaderSize; lia).
  pose proof (λ i n z, Load_field v _ _ i n z Ht) as HL.
  assert (Load 2 v kBlockLengthOffset = Ok (w_block_length w)) as ->.
  { rewrite <-(wrapU_small 16 (w_block_length w)) by lia.
    exact (HL 0 2 _ eq_refl). }
  assert (Load 2 v kTemplateIdOffset = Ok kBboTbtTemplateId) as -> by exact (HL 1 2 _ eq_refl).
  assert (Load 2 v kSchemaIdOffset = Ok kSchemaId) as -> by exact (HL 2 2 _ eq_refl).
  assert (Load 2 v kVersionOffset = Ok (wrapU 16 (w_version w))) as -> by exact (HL 3 2 _ eq_refl).
  done.
Qed.

Lemma DecodeBboTbt_wire v w tail :
  sv_wf v → wire_ok w → sv_text v = wire_bytes (wire_fields w) ++ tail →
  DecodeBboTbt v = Ok (if decide (decodable (sv_size v) w) then Some (wire_bbo w) else None).
Proof.
  intros Hwf Hok Ht. unfold DecodeBboTbt. rewrite (DecodeHeader_wire v w tail) by done.
  cbn [mbind result_bind block_length template_id schema_id]. rewrite !Z.eqb_refl. cbn [negb orb].
  destruct Hok as [Hbl Hfit]. change (Z.of_nat kHeaderSize) with 8%Z. unfold kBboTbtBlockLength.
  destruct (Z.ltb_spec (w_block_length w) 74), (Z.ltb_spec (Z.of_nat (sv_size v)) (8 + w_block_length w));
    cbn [orb]; [by rewrite decide_False by (unfold decodable; lia)..|].
  assert (∀ i n z, drop 4 (wire_fields w) !! i = Some (n, z) → n ≠ 0 →
    LoadS n v (offset_of (4 + i) (wire_fields w)) = Ok z) as HL.
  { intros i n z Hi Hn. eapply LoadS_field; [exact Ht|by rewrite <-lookup_drop|done|].
    rewrite Forall_lookup in Hfit. exact (Hfit _ _ Hi). }
  assert (LoadS 1 v (kHeaderSize + kPxExponentOffset) = Ok (w_px_exponent w)) as ->
    by exact (HL 10 1 _ eq_refl ltac:(done)).
  assert (LoadS 1 v (kHeaderSize + kSzExponentOffset) = Ok (w_sz_exponent w)) as ->
    by exact (HL 11 1 _ eq_refl ltac:(done)).
  cbn [mbind result_bind].
  destruct (ExponentInRange (w_px_exponent w)) eqn:Hpx, (ExponentInRange (w_sz_exponent w)) eqn:Hszx; cbn [negb orb];
    unfold ExponentInRange, kMinExponent, kMaxExponent in Hpx, Hszx;
    [rewrite decide_True by (unfold decodable; lia)|by rewrite decide_False by (unfold decodable; lia)..].
  assert (LoadS 8 v (kHeaderSize + kInstIdCodeOffset) = Ok (w_inst_id_code w)) as ->
    by exact (HL 0 8 _ eq_refl ltac:(done)).
  assert (LoadS 8 v (kHeaderSize + kTsUsOffset) = Ok (w_ts_us w)) as ->
    by exact (HL 1 8 _ eq_refl ltac:(done)).
  assert (LoadS 8 v (kHeaderSize + kOutTimeOffset) = Ok (w_out_time w)) as ->
    by exact (HL 2 8 _ eq_refl ltac:(done)).
  assert (LoadS 8 v (kHeaderSize + kSeqIdOffset) = Ok (w_seq_id w)) as ->
    by exact (HL 3 8 _ eq_refl ltac:(done)).
  assert (LoadS 8 v (kHeaderSize + kAskPxMantissaOffset) = Ok (w_ask_px w)) as ->
    by exact (HL 4 8 _ eq_refl ltac:(done)).
  assert (LoadS 8 v (kHeaderSize + kAskSzMantissaOffset) = Ok (w_ask_sz w)) as ->
    by exact (HL 5 8 _ eq_refl ltac:(done)).
  assert (LoadS 8 v (kHeaderSize + kBidPxMantissaOffset) = Ok (w_bid_px w)) as ->
    by exact (HL 6 8 _ eq_refl ltac:(done)).
  assert (LoadS 8 v (kHeaderSize + kBidSzMantissaOffset) = Ok (w_bid_sz w)) as ->
    by exact (HL 7 8 _ eq_refl ltac:(done)).
  assert (LoadS 4 v (kHeaderSize + kAskOrdCountOffset) = Ok (w_ask_ord_count w)) as ->
    by exact (HL 8 4 _ eq_refl ltac:(done)).
  assert (LoadS 4 v (kHeaderSize + kBidOrdCountOffset) = Ok (w_bid_ord_count w)) as ->
    by exact (HL 9 4 _ eq_refl ltac:(done)).
  cbn [mbind result_bind]. rewrite !Scale_scaled by done. done.
Qed.

(** ** Safety *)
Lemma DecodeHeader_Ok v : sv_wf v →
  ∃ h, DecodeHeader v = Ok h ∧ (is_Some h → kHeaderSize ≤ sv_size v).
Proof.
  intros Hwf. unfold DecodeHeader. destruct (Nat.ltb_spec (sv_size v) kHeaderSize) as [|Hge].
  { eexists. split; [done|]. by intros []. }
  unfold kHeaderSize in Hge.
  destruct (Load_Ok 2 v kBlockLengthOffset) as [a ->]; [done|unfold kBlockLengthOffset; lia|].
  destruct (Load_Ok 2 v kTemplateIdOffset) as [b ->]; [done|unfold kTemplateIdOffset; lia|].
  destruct (Load_Ok 2 v kSchemaIdOffset) as [c ->]; [done|unfold kSchemaIdOffset; lia|].
  destruct (Load_Ok 2 v kVersionOffset) as [d ->]; [done|unfold kVersionOffset; lia|].
  eexists. split; [done|]. done.
Qed.

Lemma DecodeBboTbt_Ok v :
  sv_wf v → ∃ r, DecodeBboTbt v = Ok r ∧
    match r with Some b => is_nan (ask_px b) = false ∧ is_nan (bid_px b) = false | None => True end.
Proof.
  intros Hwf. unfold DecodeBboTbt. destruct (DecodeHeader_Ok v Hwf) as (h & -> & Hh).
  cbn [mbind result_bind]. destruct h as [h|]; [|by eexists].
  destruct (_ || _); [by eexists|].
  destruct (Z.ltb_spec (block_length h) kBboTbtBlockLength) as [|Hbl]; [by eexists|].
  destruct (Z.ltb_spec (Z.of_nat (sv_size v)) (Z.of_nat kHeaderSize + block_length h)) as [|Hsz];
    [by eexists|]. cbn [orb]. unfold kBboTbtBlockLength, kHeaderSize in *.
  assert (∀ n off, off + n ≤ 74 → ∃ z, LoadS n v (8 + off) = Ok z) as HL
    by (intros; apply LoadS_Ok; [done|lia]).
  destruct (HL 1 kPxExponentOffset) as [px ->]; [unfold kPxExponentOffset; lia|].
  destruct (HL 1 kSzExponentOffset) as [sz ->]; [unfold kSzExponentOffset; lia|].
  cbn [mbind result_bind].
  destruct (ExponentInRange px) eqn:Epx; [|by eexists].
  destruct (ExponentInRange sz) eqn:Esz; [|by eexists]. cbn [negb orb].
  destruct (HL 8 kInstIdCodeOffset) as [? ->]; [unfold kInstIdCodeOffset; lia|].
  destruct (HL 8 kTsUsOffset) as [? ->]; [unfold kTsUsOffset; lia|].
  destruct (HL 8 kOutTimeOffset) as [? ->]; [unfold kOutTimeOffset; lia|].
  destruct (HL 8 kSeqIdOffset) as [? ->]; [unfold kSeqIdOffset; lia|].
  destruct (HL 8 kAskPxMantissaOffset) as [ap ->]; [unfold kAskPxMantissaOffset; lia|].
  destruct (HL 8 kAskSzMantissaOffset) as [? ->]; [unfold kAskSzMantissaOffset; lia|].
  destruct (HL 8 kBidPxMantissaOffset) as [bp ->]; [unfold kBidPxMantissaOffset; lia|].
  destruct (HL 8 kBidSzMantissaOffset) as [? ->]; [unfold kBidSzMantissaOffset; lia|].
  destruct (HL 4 kAskOrdCountOffset) as [? ->]; [unfold kAskOrdCountOffset; lia|].
  destruct (HL 4 kBidOrdCountOffset) as [? ->]; [unfold kBidOrdCountOffset; lia|].
  cbn [mbind result_bind]. rewrite !Scale_scaled by done. cbn [mbind result_bind].
  eexists. split; [done|]. by split; apply scaled_number.
Qed.
End sbe.

Module SbeBboSource.
(** The source's own state; [on_book_update_] is set or not, and a call of it
    is an output: the book at that moment and the trace. *)
Record t := Mk { book_ : OrderBook.t; last_seq_id_ : Z; on_book_update_ : bool }.
Definition initial (handler : bool) : t := Mk OrderBook.empty (-1) handler.

(** The member [subscribe_msg_], which never changes. *)
Definition subscribe_msg_ (inst_id_code : Z) : list Z :=
  qstr "{'op':'subscribe','args':[{'channel':'bbo-tbt','instIdCode':" ++ to_string inst_id_code ++
  qstr "}]}".
(** The handler that [Start] installs for a new connection: what it sends. *)
Definition OnConnected (inst_id_code : Z) : list Z := subscribe_msg_ inst_id_code.

Definition set_book (b : OrderBook.t) (s : t) : t := Mk b (last_seq_id_ s) (on_book_update_ s).
Definition on_book {A} : M OrderBook.t A → M t A := zoom book_ set_book.

(** [arrival] and [decoded] are the stamps of the socket, [now] the counter
    read when the book is consistent. *)
Definition OnMessage (arrival decoded now : Z) (message : string_view)
    : M t (option (OrderBook.t * TickToTradeTrace)) :=
  bbo ← lift (sbe.DecodeBboTbt message);
  match bbo with
  | None => mret None
  | Some bbo =>
      s ← get;
      if (sbe.seq_id bbo <=? last_seq_id_ s)%Z then mret None
      else
        _ ← modify (λ s, Mk (book_ s) (sbe.seq_id bbo) (on_book_update_ s));
        _ ← on_book (modify OrderBook.BeginSnapshot);
        _ ← on_book (runS (OrderBook.SetBid (sbe.bid_px bbo) (sbe.bid_sz bbo)));
        _ ← on_book (runS (OrderBook.SetAsk (sbe.ask_px bbo) (sbe.ask_sz bbo)));
        _ ← on_book (modify (OrderBook.SetSeqId (sbe.seq_id bbo)));
        s ← get;
        mret (if on_book_update_ s
              then Some (book_ s, MkTrace arrival decoded now 0 0 0 0 0) else None)
  end.

(** The book that a message stands for. *)
Definition shows (b : OrderBook.t) (bbo : sbe.BboTbt) : Prop :=
  OrderBook.wf b ∧
  OrderBook.bids b = [MkLevel (sbe.bid_px bbo) (sbe.bid_sz bbo)] ∧
  OrderBook.asks b = [MkLevel (sbe.ask_px bbo) (sbe.ask_sz bbo)] ∧
  OrderBook.BestBid b = Ok (Some (sbe.bid_px bbo)) ∧
  OrderBook.BestAsk b = Ok (Some (sbe.ask_px bbo)) ∧
  OrderBook.LastSeqId b = sbe.seq_id bbo ∧ OrderBook.HasSnapshot b = true.

Lemma Best_singleton pl p q :
  length (PriceLevels.levels_ pl) = PriceLevels.kCapacity →
  PriceLevels.contents pl = [MkLevel p q] → PriceLevels.Best pl = Ok (Some p).
Proof.
  intros Hl Hc. unfold PriceLevels.contents in Hc. unfold PriceLevels.Best.
  destruct (PriceLevels.levels_ pl) as [|x l] eqn:E; [done|].
  destruct (PriceLevels.count_ pl) as [|n]; [done|]. simpl in Hc. by simplify_eq/=.
Qed.

Lemma OnMessage_newer a d n message s bbo :
  sv_wf message → OrderBook.wf (book_ s) → sbe.DecodeBboTbt message = Ok (Some bbo) →
  (last_seq_id_ s < sbe.seq_id bbo)%Z →
  ∃ b, OnMessage a d n message s =
    (Ok (if on_book_update_ s then Some (b, MkTrace a d n 0 0 0 0 0) else None),
     Mk b (sbe.seq_id bbo) (on_book_update_ s)) ∧ shows b bbo.
Proof.
  intros Hwf Hb Hdec Hlt. destruct (sbe.DecodeBboTbt_Ok message Hwf) as (r & Hr & Hnum).
  rewrite Hdec in Hr. injection Hr as <-. destruct Hnum as [Hask Hbid].
  unfold OnMessage, mbind, M_bind, lift, get. rewrite Hdec.
  rewrite (proj2 (Z.leb_gt _ _)) by done.
  unfold modify, on_book, zoom, runS. cbn [book_ set_book].
  destruct (OrderBook.BeginSnapshot_spec (book_ s) Hb) as (Hwf0 & Hb0 & Ha0).
  set (b0 := OrderBook.BeginSnapshot (book_ s)) in *.
  destruct (OrderBook.SetBid_spec (sbe.bid_px bbo) (sbe.bid_sz bbo) b0 Hwf0 Hbid)
    as (b1 & -> & Hwf1 & Ha1 & Hb1 & Hq1 & Hsn1).
  cbn [book_ set_book].
  destruct (OrderBook.SetAsk_spec (sbe.ask_px bbo) (sbe.ask_sz bbo) b1 Hwf1 Hask)
    as (b2 & -> & Hwf2 & Hb2 & Ha2 & Hq2 & Hsn2).
  cbn [book_ set_book last_seq_id_ on_book_update_].
  eexists. split; [reflexivity|].
  assert (OrderBook.wf (OrderBook.SetSeqId (sbe.seq_id bbo) b2)) as Hwf3 by exact Hwf2.
  assert (OrderBook.bids (OrderBook.SetSeqId (sbe.seq_id bbo) b2) =
    [MkLevel (sbe.bid_px bbo) (sbe.bid_sz bbo)]) as Hbids by (etrans; [exact Hb2|]; by rewrite Hb1, Hb0).
  assert (OrderBook.asks (OrderBook.SetSeqId (sbe.seq_id bbo) b2) =
    [MkLevel (sbe.ask_px bbo) (sbe.ask_sz bbo)]) as Hasks by (etrans; [exact Ha2|]; by rewrite Ha1, Ha0).
  unfold shows. split_and!; [done..| | | |].
  - apply (Best_singleton _ _ (sbe.bid_sz bbo)); [apply Hwf3|exact Hbids].
  - apply (Best_singleton _ _ (sbe.ask_sz bbo)); [apply Hwf3|exact Hasks].
  - done.
  - change (OrderBook.has_snapshot_ b2 = true). by rewrite Hsn2, Hsn1.
Qed.

(** ** Streams of messages *)

(** The messages that are newer than everything before them. *)
Fixpoint newer (last : Z) (bbos : list (option sbe.BboTbt)) : list sbe.BboTbt :=
  match bbos with
  | [] => []
  | None :: l => newer last l
  | Some b :: l =>
      if (sbe.seq_id b <=? last)%Z then newer last l else b :: newer (sbe.seq_id b) l
  end.

(** A message is dropped, or it is newer and replaces the book. *)
Lemma OnMessage_cases a d n message s r :
  sv_wf message → OrderBook.wf (book_ s) → sbe.DecodeBboTbt message = Ok r →
  (OnMessage a d n message s = (Ok None, s) ∧
     ∀ l, newer (last_seq_id_ s) (r :: l) = newer (last_seq_id_ s) l) ∨
  ∃ bbo b, r = Some bbo ∧ (last_seq_id_ s < sbe.seq_id bbo)%Z ∧
    OnMessage a d n message s =
    (Ok (if on_book_update_ s then Some (b, MkTrace a d n 0 0 0 0 0) else None),
     Mk b (sbe.seq_id bbo) (on_book_update_ s)) ∧ shows b bbo.
Proof.
  intros Hwf Hb Hr. destruct r as [bbo|].
  2:{ left. unfold OnMessage, mbind, M_bind, lift. by rewrite Hr. }
  destruct (Z.leb_spec (sbe.seq_id bbo) (last_seq_id_ s)) as [Hle|Hlt].
  - left. split.
    + unfold OnMessage, mbind, M_bind, lift, get. by rewrite Hr, (proj2 (Z.leb_le _ _)).
    + intros l. simpl. by rewrite (proj2 (Z.leb_le _ _)).
  - right. destruct (OnMessage_newer a d n message s bbo Hwf Hb Hr Hlt) as (b & ? & ?). eauto 6.
Qed.

(** The sequence number that the next message must exceed. *)
Definition newest (last : Z) (bbos : list (option sbe.BboTbt)) : Z :=
  foldl (λ x b, match b with Some b => Z.max x (sbe.seq_id b) | None => x end) last bbos.
Lemma newer_app last l l' : newer last (l ++ l') = newer last l ++ newer (newest last l) l'.
Proof.
  revert last. induction l as [|[b|] l IH]; intros last; cbn [app newer newest foldl]; [done| |apply IH].
  destruct (Z.leb_spec (sbe.seq_id b) last).
  - rewrite IH. unfold newest. by rewrite Z.max_l.
  - rewrite IH. unfold newest. by rewrite Z.max_r by lia.
Qed.

Lemma newest_app last l l' : newest last (l ++ l') = newest (newest last l) l'.
Proof. apply foldl_app. Qed.
Lemma newest_nil last r : newer last [r] = [] → newest last [r] = last.
Proof. destruct r as [b|]; [|done]. simpl. destruct (Z.leb_spec (sbe.seq_id b) last); [lia|done]. Qed.
Lemma newest_newer last b :
  (last < sbe.seq_id b)%Z → newer last [Some b] = [b] ∧ newest last [Some b] = sbe.seq_id b.
Proof. intros H. simpl. rewrite (proj2 (Z.leb_gt _ _)) by done. split; [done|lia]. Qed.

Lemma newer_increasing last bbos :
  StronglySorted Z.lt (last :: (sbe.seq_id <$> newer last bbos)).
Proof.
  revert last. induction bbos as [|[b|] l IH]; intros last; simpl; [repeat constructor| |done].
  destruct (Z.leb_spec (sbe.seq_id b) last); [done|]. simpl. specialize (IH (sbe.seq_id b)).
  constructor; [done|]. apply StronglySorted_inv in IH as [_ Hall].
  constructor; [done|]. eapply Forall_impl; [exact Hall|]. simpl. lia.
Qed.
End SbeBboSource.

(** ** Properties *)

(** [DecodeBboTbt] never reads outside the message it is given,
    whatever its bytes, never indexes outside the power-of-ten table, and
    never yields a price that is not a number. *)
Theorem decode_bbo_safe (message : string_view) :
  sv_wf message →
  ∃ r, sbe.DecodeBboTbt message = Ok r ∧
    match r with
    | Some b => is_nan (sbe.ask_px b) = false ∧ is_nan (sbe.bid_px b) = false
    | None => True
    end.
Proof. apply sbe.DecodeBboTbt_Ok. Qed.

Lemma decode_bbo_safe_witness :
  ∃ r, sbe.DecodeBboTbt (sv_of (str "xxxxxxxxxxxx")) = Ok r ∧
    match r with
    | Some b => is_nan (sbe.ask_px b) = false ∧ is_nan (sbe.bid_px b) = false
    | None => True
    end.
Proof. exact (decode_bbo_safe (sv_of (str "xxxxxxxxxxxx")) (sv_wf_of _)). Defined.

(** C33. Decoding the bytes of a bbo-tbt message, with any field values of the
    types of the schema: if the block has at least the 74 bytes of the known
    fields, is complete in the message, and both exponents lie between -18 and
    18, the fields are given back, the prices and sizes scaled by the correctly
    rounded power of ten; the block may be longer and anything may follow it.
    In all other cases nothing is decoded, and nothing outside the message is
    read. *)
Theorem decode_bbo_roundtrip (message : string_view) (w : sbe.wire) (tail : list Z) :
  sv_wf message → sbe.wire_ok w →
  sv_text message = sbe.wire_bytes (sbe.wire_fields w) ++ tail →
  sbe.DecodeBboTbt message =
    Ok (if decide (sbe.decodable (sv_size message) w) then Some (sbe.wire_bbo w) else None).
Proof. apply sbe.DecodeBboTbt_wire. Qed.

Definition sample_wire : sbe.wire :=
  sbe.MkWire 76 0 7 1700000000000000 1700000000000001 42 300015 25 300005 (-1) 3 4 (-2) 1.
Definition sample_bbo_message : string_view :=
  sv_of (sbe.wire_bytes (sbe.wire_fields sample_wire) ++ [1; 2; 3]%Z).
Lemma decode_bbo_roundtrip_witness :
  sbe.wire_ok sample_wire ∧
  sbe.DecodeBboTbt sample_bbo_message = Ok (Some (sbe.wire_bbo sample_wire)).
Proof.
  assert (sbe.wire_ok sample_wire) as Hok.
  { split; [split; vm_compute; congruence|].
    cbn. unfold sbe.signed_fits. repeat (constructor; [cbn; lia|]). constructor. }
  split; [exact Hok|].
  pose proof (decode_bbo_roundtrip sample_bbo_message sample_wire [1; 2; 3]%Z (sv_wf_of _) Hok (sv_text_of _)) as H.
  rewrite decide_True in H; [exact H|]. vm_compute. repeat split; discriminate.
Defined.
