(* ===== verification/Okx.v ===== *)
(** * Shared OKX vocabulary: okx/common/okx_constants.hpp, okx/common/response_utils.cpp

    The field names and codes of the exchange's messages, and the two helpers
    that look into a response. *)

From S2P Require Import Prelude Float64 Json.

Definition kCode := str "code".
Definition kMsg := str "msg".
Definition kData := str "data".
Definition kOrdId := str "ordId".
Definition kClOrdId := str "clOrdId".
Definition kSCode := str "sCode".
Definition kSMsg := str "sMsg".
Definition kSuccessCode := str "0".
Definition kTs := str "ts".
Definition kTickSz := str "tickSz".
Definition kLotSz := str "lotSz".
Definition kMinSz := str "minSz".
Definition kCash := str "cash".
Definition kBuy := str "buy".
Definition kSell := str "sell".
Definition kLimit := str "limit".
Definition kMarket := str "market".
Definition kInstIdCode := str "instIdCode".
Definition kOkxPingText := str "ping".
Definition kOkxPongText := str "pong".
Definition kEvent := str "event".
Definition kLoginEvent := str "login".
Definition kChannel := str "channel".
Definition kBooksChannel := str "books".
Definition kSeqId := str "seqId".
Definition kPrevSeqId := str "prevSeqId".
Definition kSnapshotSeqId : Z := -1.
Definition kAsks := str "asks".
Definition kBids := str "bids".
Definition kBooksLevelPriceIdx : nat := 0.
Definition kBooksLevelSizeIdx : nat := 1.
Definition kOrdersChannel := str "orders".
Definition kInstId := str "instId".
Definition kSide := str "side".
Definition kPx := str "px".
Definition kSz := str "sz".
Definition kAccFillSz := str "accFillSz".
Definition kAvgPx := str "avgPx".
Definition kFillPx := str "fillPx".
Definition kFillSz := str "fillSz".
Definition kState := str "state".
Definition kStateLive := str "live".
Definition kStatePartiallyFilled := str "partially_filled".
Definition kStateFilled := str "filled".
Definition kStateCanceled := str "canceled".
Definition kStateMmpCanceled := str "mmp_canceled".
Definition kAccountChannel := str "account".
Definition kDetails := str "details".
Definition kCcy := str "ccy".
Definition kCashBal := str "cashBal".
Definition kAvailBal := str "availBal".
Definition kId := str "id".
Definition kOp := str "op".
Definition kOrderOp := str "order".
Definition kCancelOrderOp := str "cancel-order".
Definition kAmendOrderOp := str "amend-order".

(** [optional<string_view> == string_view]. *)
Definition opt_eqb (o : option string_view) (b : list Z) : bool :=
  match o with Some v => sv_eqb v b | None => false end.

Definition FindData (json : string_view) : option string_view :=
  json.FindArrayElement json kData 0.

Definition IsRequestAccepted (response : string_view) : bool :=
  match FindData response with
  | Some data => opt_eqb (json.FindString data kSCode) kSuccessCode
  | None => false
  end.

Lemma opt_eqb_text o o' b : sv_text <$> o = sv_text <$> o' → opt_eqb o b = opt_eqb o' b.
Proof. destruct o, o'; simpl; unfold sv_eqb; try done. by intros [= ->]. Qed.
