(* ===== verification/MarketData.v ===== *)
(** * The books channel: okx/marketdata/market_data.cpp, json_book_source.cpp

    [ApplyBookMessage] turns a message of the books channel into updates of
    the order book; [JsonBookSource::OnMessage] passes a consistent book on
    and asks for a new snapshot after a gap. *)

From S2P Require Import Prelude Float64 OrderBook Json Perf Okx.

Inductive BookMessageResult := kIgnored | kApplied | kGapDetected.
#[export] Instance BookMessageResult_eq_dec : EqDecision BookMessageResult.
Proof. solve_decision. Defined.

Definition kDoubleQuote : Z := c_quote.

Definition StripQuotes (text : string_view) : string_view :=
  if (2 <=? sv_size text) && json.at_char text 0 kDoubleQuote &&
     json.at_char text (sv_size text - 1) kDoubleQuote
  then sv_substr text 1 (sv_size text - 2) else text.

(** The callback of [ApplyLevels]. *)
Definition apply_level (key : list Z) (level : string_view) : M OrderBook.t unit :=
  match json.FindElement level kBooksLevelPriceIdx, json.FindElement level kBooksLevelSizeIdx with
  | Some price_text, Some size_text =>
      price ← lift (json.ParseDouble (StripQuotes price_text));
      size ← lift (json.ParseDouble (StripQuotes size_text));
      runS (if decide (key = kBids) then OrderBook.SetBid price size
            else OrderBook.SetAsk price size)
  | _, _ => throwM (runtime_error "Malformed order book price level" [])
  end.
Definition ApplyLevels (array : string_view) (key : list Z) : M OrderBook.t unit :=
  json.ForEachElement array (apply_level key).

(** The locals of [ApplyBookMessage] that its field callback fills in. *)
Record BookFields := MkFields {
  seq_id_text : option string_view; prev_seq_id_text : option string_view;
  bids_text : option string_view; asks_text : option string_view }.
Definition no_fields : BookFields := MkFields None None None None.
Definition book_field (key value : string_view) : M BookFields unit :=
  modify (λ f,
    if sv_eqb key kSeqId then
      MkFields (Some value) (prev_seq_id_text f) (bids_text f) (asks_text f)
    else if sv_eqb key kPrevSeqId then
      MkFields (seq_id_text f) (Some value) (bids_text f) (asks_text f)
    else if sv_eqb key kBids then
      MkFields (seq_id_text f) (prev_seq_id_text f) (Some value) (asks_text f)
    else if sv_eqb key kAsks then
      MkFields (seq_id_text f) (prev_seq_id_text f) (bids_text f) (Some value)
    else f).

(** [ApplyLevels] on one side of the message, when it is present. *)
Definition apply_side (side : option string_view) (key : list Z) : M OrderBook.t unit :=
  match side with Some array => ApplyLevels array key | None => mret tt end.

Definition ApplyBookMessage (message : string_view) : M OrderBook.t BookMessageResult :=
  if negb (opt_eqb (json.FindString message kChannel) kBooksChannel) then mret kIgnored
  else
    match FindData message with
    | None => mret kIgnored
    | Some data =>
        let '(r, f) := json.ForEachField data book_field no_fields in
        _ ← lift r;
        match seq_id_text f, prev_seq_id_text f with
        | Some seq_text, Some prev_text =>
            prev_seq_id ← lift (json.ParseLL prev_text);
            let is_snapshot := (prev_seq_id =? kSnapshotSeqId)%Z in
            book ← get;
            if negb is_snapshot && OrderBook.HasSnapshot book &&
               negb (prev_seq_id =? OrderBook.LastSeqId book)%Z then mret kGapDetected
            else
              _ ← (if is_snapshot then modify OrderBook.BeginSnapshot else mret tt);
              _ ← apply_side (bids_text f) kBids;
              _ ← apply_side (asks_text f) kAsks;
              seq_id ← lift (json.ParseLL seq_text);
              _ ← modify (OrderBook.SetSeqId seq_id);
              mret kApplied
        | _, _ => throwM (runtime_error "Malformed books channel message: {}" [sv_text data])
        end
    end.

Module JsonBookSource.
(** What the source does to the outside: frames it sends, calls of its handler. *)
Inductive output :=
  | Send (message : list Z)
  | BookUpdate (book : OrderBook.t) (trace : TickToTradeTrace).

Record t := Mk {
  book_ : OrderBook.t; on_book_update_ : bool;
  subscribe_msg_ : list Z; unsubscribe_msg_ : list Z; resubscribe_msg_ : list Z }.

Definition initial (handler : bool) (inst_id : list Z) : t :=
  Mk OrderBook.empty handler
    (qstr "{'op':'subscribe','args':[{'channel':'books','instId':'" ++ inst_id ++
     qstr "'},{'channel':'trades','instId':'" ++ inst_id ++ qstr "'}]}")
    (qstr "{'op':'unsubscribe','args':[{'channel':'books','instId':'" ++ inst_id ++ qstr "'}]}")
    (qstr "{'op':'subscribe','args':[{'channel':'books','instId':'" ++ inst_id ++ qstr "'}]}").

Definition set_book (b : OrderBook.t) (s : t) : t :=
  Mk b (on_book_update_ s) (subscribe_msg_ s) (unsubscribe_msg_ s) (resubscribe_msg_ s).

(** The handler that [Start] installs for a new connection. *)
Definition OnConnected (s : t) : list output := [Send (subscribe_msg_ s)].

Definition OnMessage (arrival decoded now : Z) (message : string_view) : M t (list output) :=
  r ← zoom book_ set_book (ApplyBookMessage message);
  s ← get;
  match r with
  | kApplied =>
      (* the debug line evaluates both best prices *)
      _ ← lift (OrderBook.BestBid (book_ s));
      _ ← lift (OrderBook.BestAsk (book_ s));
      mret (if on_book_update_ s
            then [BookUpdate (book_ s) (MkTrace arrival decoded now 0 0 0 0 0)] else [])
  | kGapDetected => mret [Send (unsubscribe_msg_ s); Send (resubscribe_msg_ s)]
  | kIgnored => mret []
  end.
End JsonBookSource.

(** ** Safety *)
Lemma ParseDouble_exn v x : json.ParseDouble v = Stop x → exn_only x.
Proof. unfold json.ParseDouble. destruct (strtod _); [done|]. by intros [= <-]. Qed.
Lemma ParseLL_exn v x : json.ParseLL v = Stop x → exn_only x.
Proof. unfold json.ParseLL. destruct (json.from_chars_ll _); [done|]. by intros [= <-]. Qed.

Lemma apply_level_upholds (I : OrderBook.t → Prop) Q key level :
  (∀ e, Q (Exn e)) →
  (∀ p s b, I b → match OrderBook.SetBid p s b with Ok b' => I b' | Stop x => Q x end) →
  (∀ p s b, I b → match OrderBook.SetAsk p s b with Ok b' => I b' | Stop x => Q x end) →
  upholds I Q (apply_level key level).
Proof.
  intros HQ Hbid Hask. unfold apply_level.
  destruct (json.FindElement level _) as [pt|]; [|by apply upholds_throw].
  destruct (json.FindElement level _) as [st|]; [|by apply upholds_throw].
  assert (∀ v, upholds I Q (lift (json.ParseDouble v))) as Hparse.
  { intros v. apply upholds_lift. unfold json.ParseDouble. destruct (strtod _); [done|].
    intros x [= <-]. apply HQ. }
  apply upholds_bind; [done|intros price]. apply upholds_bind; [done|intros size].
  apply upholds_runS. intros b Hb. case_decide; [by apply Hbid|by apply Hask].
Qed.
Lemma apply_level_rejects_empty key x s s' :
  sv_size x = 0 → apply_level key x s ≠ (Ok tt, s').
Proof.
  intros Hz. unfold apply_level, json.FindElement, json.at_char, sv_at. by rewrite Hz.
Qed.
Lemma apply_side_upholds (I : OrderBook.t → Prop) Q side key :
  (∀ e, Q (Exn e)) →
  (∀ p s b, I b → match OrderBook.SetBid p s b with Ok b' => I b' | Stop x => Q x end) →
  (∀ p s b, I b → match OrderBook.SetAsk p s b with Ok b' => I b' | Stop x => Q x end) →
  upholds I Q (apply_side side key).
Proof.
  intros HQ Hbid Hask. destruct side as [array|]; [|apply upholds_ret].
  apply json.ForEachElement_upholds.
  - intros x. by apply apply_level_upholds.
  - intros x s Hz s'. by apply apply_level_rejects_empty.
Qed.

Lemma book_fields_Ok data f : ∃ f', json.ForEachField data book_field f = (Ok tt, f').
Proof.
  assert (upholds (λ _, True) (λ _, False) (json.ForEachField data book_field)) as H.
  { apply json.ForEachField_upholds. intros k x. by apply upholds_modify. }
  specialize (H f Logic.I). destruct (json.ForEachField data book_field f) as [[[]|] f']; [by exists f'|].
  by destruct H.
Qed.

Lemma SetBid_sized_upholds p s b :
  OrderBook.sized b →
  match OrderBook.SetBid p s b with Ok b' => OrderBook.sized b' | Stop x => exn_only x end.
Proof. intros Hb. by destruct (OrderBook.SetBid_sized p s b Hb) as (b' & -> & ?). Qed.
Lemma SetAsk_sized_upholds p s b :
  OrderBook.sized b →
  match OrderBook.SetAsk p s b with Ok b' => OrderBook.sized b' | Stop x => exn_only x end.
Proof. intros Hb. by destruct (OrderBook.SetAsk_sized p s b Hb) as (b' & -> & ?). Qed.

Lemma ApplyBookMessage_upholds message : upholds OrderBook.sized exn_only (ApplyBookMessage message).
Proof.
  unfold ApplyBookMessage. destruct (negb _); [apply upholds_ret|].
  destruct (FindData message) as [data|]; [|apply upholds_ret].
  destruct (book_fields_Ok data no_fields) as (f & ->).
  apply upholds_bind; [by apply upholds_lift|intros _].
  destruct (seq_id_text f) as [seq_text|]; [|by apply upholds_throw].
  destruct (prev_seq_id_text f) as [prev_text|]; [|by apply upholds_throw].
  apply upholds_bind; [apply upholds_lift, ParseLL_exn|intros prev].
  apply upholds_bind; [apply upholds_get|intros book].
  destruct (_ && _ && _); [apply upholds_ret|].
  apply upholds_bind; [|intros _].
  { destruct (prev =? kSnapshotSeqId)%Z; [|apply upholds_ret].
    apply upholds_modify, OrderBook.BeginSnapshot_sized. }
  apply upholds_bind; [|intros _].
  { apply apply_side_upholds; [done|apply SetBid_sized_upholds|apply SetAsk_sized_upholds]. }
  apply upholds_bind; [|intros _].
  { apply apply_side_upholds; [done|apply SetBid_sized_upholds|apply SetAsk_sized_upholds]. }
  apply upholds_bind; [apply upholds_lift, ParseLL_exn|intros seq].
  apply upholds_bind; [by apply upholds_modify|intros _]. apply upholds_ret.
Qed.

(** ** Sequence numbers *)

(** The two sequence numbers a message carries, as the code reads them. *)
Definition message_seqs (message : string_view) : option (Z * Z) :=
  data ← FindData message;
  let f := (json.ForEachField data book_field no_fields).2 in
  prev ← prev_seq_id_text f ≫= λ t, json.from_chars_ll (sv_text t);
  seq ← seq_id_text f ≫= λ t, json.from_chars_ll (sv_text t);
  Some (prev, seq).

Lemma ParseLL_inv t z : json.ParseLL t = Ok z → json.from_chars_ll (sv_text t) = Some z.
Proof. unfold json.ParseLL. destruct (json.from_chars_ll _); [|done]. by intros [= ->]. Qed.

Lemma apply_side_flags side key q h :
  upholds (λ b, OrderBook.LastSeqId b = q ∧ OrderBook.HasSnapshot b = h) (λ _, True)
    (apply_side side key).
Proof.
  apply apply_side_upholds; [done|..]; intros p s b Hb;
    [unfold OrderBook.SetBid|unfold OrderBook.SetAsk];
    by destruct (PriceLevels.Set_ _ p s _).
Qed.

Lemma bind_Ok {S A B} (m : M S A) (f : A → M S B) s b s' :
  (m ≫= f) s = (Ok b, s') → ∃ a s1, m s = (Ok a, s1) ∧ f a s1 = (Ok b, s').
Proof. unfold mbind, M_bind. destruct (m s) as [[a|x] s1]; [eauto|done]. Qed.

Lemma ApplyBookMessage_cases message b r b' :
  ApplyBookMessage message b = (Ok r, b') →
  match r with
  | kIgnored => b' = b
  | kGapDetected => b' = b ∧ OrderBook.HasSnapshot b = true
  | kApplied => ∃ prev seq, message_seqs message = Some (prev, seq) ∧
      (prev = kSnapshotSeqId ∨ OrderBook.HasSnapshot b = false ∨ prev = OrderBook.LastSeqId b) ∧
      OrderBook.LastSeqId b' = seq ∧
      OrderBook.HasSnapshot b' = (prev =? kSnapshotSeqId)%Z || OrderBook.HasSnapshot b
  end.
Proof.
  unfold ApplyBookMessage. destruct (negb _); [by intros [= <- <-]|].
  destruct (FindData message) as [data|] eqn:Hdata; [|by intros [= <- <-]].
  destruct (book_fields_Ok data no_fields) as (f & Hf). rewrite Hf.
  intros H. apply bind_Ok in H as ([] & b0 & [= <-] & H).
  destruct (seq_id_text f) as [st|] eqn:Hst; [|done].
  destruct (prev_seq_id_text f) as [pt|] eqn:Hpt; [|done].
  apply bind_Ok in H as (prev & b1 & Hprev & H). injection Hprev as Hprev <-.
  apply ParseLL_inv in Hprev.
  apply bind_Ok in H as (b1 & b2 & [= <- <-] & H).
  destruct (negb _ && _ && _) eqn:Hgap.
  { injection H as <- <-. rewrite !andb_true_iff in Hgap. by destruct Hgap as [[_ ?] _]. }
  apply bind_Ok in H as ([] & b1 & Hsnap & H). apply bind_Ok in H as ([] & b2 & Hb2 & H).
  apply bind_Ok in H as ([] & b3 & Hb3 & H). apply bind_Ok in H as (seq & b4 & Hseq & H).
  injection Hseq as Hseq <-. apply ParseLL_inv in Hseq.
  apply bind_Ok in H as ([] & b5 & [= <-] & [= <- <-]).
  exists prev, seq. split_and!; [| |done|].
  - unfold message_seqs. rewrite Hdata. cbn [mbind option_bind]. rewrite Hf. cbn [snd].
    rewrite Hpt, Hst. cbn [mbind option_bind]. by rewrite Hprev, Hseq.
  - destruct (Z.eqb_spec prev kSnapshotSeqId); [by left|].
    destruct (OrderBook.HasSnapshot b); [|by right; left].
    destruct (Z.eqb_spec prev (OrderBook.LastSeqId b)); [by right; right|done].
  - pose proof (apply_side_flags (bids_text f) kBids _ _ b1 (conj eq_refl eq_refl)) as F1.
    rewrite Hb2 in F1.
    pose proof (apply_side_flags (asks_text f) kAsks _ _ b2 (conj eq_refl eq_refl)) as F2.
    rewrite Hb3 in F2. destruct F1 as [_ F1], F2 as [_ F2].
    change (OrderBook.HasSnapshot b3 = (prev =? kSnapshotSeqId)%Z || OrderBook.HasSnapshot b).
    rewrite F2, F1. destruct (prev =? kSnapshotSeqId)%Z; by injection Hsnap as <-.
Qed.

(** ** What a message means

    The levels of one side as the JSON value holds them, each a price and a
    size in quotes with more columns behind them. *)
Definition level_value (e : json.jval) : option Level :=
  match e with
  | json.JArray _ ((_, json.JString p, _) :: (_, json.JString s, _) :: _) =>
      if json.no_quote p && json.no_quote s then
        price ← strtod p; size ← strtod s; Some (MkLevel price size)
      else None
  | _ => None
  end.
Definition side_levels (side : option json.jval) : option (list Level) :=
  match side with
  | None => Some []
  | Some (json.JArray _ es) => mapM (λ x, level_value x.1.2) es
  | Some _ => None
  end.

Abbreviation field := (list Z * list Z * list Z * (list Z * json.jval * list Z))%type.
(** The value of the last field with a given key. *)
Definition last_field (k : list Z) (fs : list field) : option json.jval :=
  foldl (λ o x, if decide (x.1.1.2 = k) then Some x.2.1.2 else o) None fs.

(** A level set on one side, the 32 best kept. *)
Definition set_level (before : double → double → bool) (l : list Level) (lv : Level) : list Level :=
  take PriceLevels.kCapacity (PriceLevels.set_ref before (price lv) (size lv) l).
Definition sides (b : OrderBook.t) : list Level * list Level :=
  (OrderBook.bids b, OrderBook.asks b).
Definition set_side (key : list Z) (lvs : list Level) (b : list Level * list Level)
    : list Level * list Level :=
  if decide (key = kBids) then (foldl (set_level fgt) b.1 lvs, b.2)
  else (b.1, foldl (set_level flt) b.2 lvs).

(** *** One level *)
Lemma view_mem v t : sv_text v = t → sv_mem v = t ++ drop (sv_size v) (sv_mem v).
Proof. intros <-. unfold sv_text. by rewrite take_drop. Qed.

Lemma ParseDouble_quoted v s :
  sv_wf v → sv_text v = json.print (json.JString s) →
  json.ParseDouble (StripQuotes v) =
    match strtod s with Some x => Ok x | None => throw (runtime_error "Failed to parse double" []) end.
Proof.
  intros Hwf Ht. pose proof (length_sv_text v Hwf) as Hsz. rewrite Ht in Hsz. simpl in Hsz.
  rewrite length_app in Hsz. simpl in Hsz.
  assert (StripQuotes v = sv_substr v 1 (sv_size v - 2)) as ->.
  { unfold StripQuotes. rewrite (proj2 (Nat.leb_le 2 _)) by lia.
    change (json.at_char v 0 kDoubleQuote) with (json.at_char v (length (A:=Z) []) kDoubleQuote).
    rewrite (json.at_char_app v [] c_quote (s ++ [c_quote])) by done.
    replace (sv_size v - 1) with (length (c_quote :: s)) by (simpl; lia).
    rewrite (json.at_char_app v (c_quote :: s) c_quote []) by done. done. }
  unfold json.ParseDouble, sv_substr. cbn [sv_mem]. rewrite (view_mem _ _ Ht). simpl.
  rewrite drop_0, <-app_assoc. simpl. rewrite strtod_delimited; [done|].
  unfold ends_number. set_solver.
Qed.

Lemma apply_level_value key level e lv :
  sv_wf level → sv_text level = json.print e → json.jwf e = true → level_value e = Some lv →
  apply_level key level =
    runS (if decide (key = kBids) then OrderBook.SetBid (price lv) (size lv)
          else OrderBook.SetAsk (price lv) (size lv)).
Proof.
  intros Hwf Ht He Hlv.
  destruct e as [| |w [|[[b0 [|p| |]] a0] [|[[b1 [|s| |]] a1] es]]|]; try done.
  cbn [level_value] in Hlv. destruct (_ && _); [|done].
  destruct (strtod p) as [pd|] eqn:Hp; [|done]. destruct (strtod s) as [sd|] eqn:Hs; [|done].
  injection Hlv as <-. cbn [price size].
  rewrite <-(app_nil_r (json.print _)) in Ht.
  destruct (json.array_elements level _ _ _ Hwf Ht He) as (views & Htx & Hvwf & _ & Hfind).
  destruct views as [|v0 [|v1 views]]; [done..|]. cbn [fmap list_fmap] in Htx.
  injection Htx as Ht0 Ht1 _. simpl in Ht0, Ht1.
  apply Forall_cons in Hvwf as [Hw0 Hvwf]. apply Forall_cons in Hvwf as [Hw1 _].
  unfold apply_level. rewrite !Hfind. cbn [lookup list_lookup kBooksLevelPriceIdx kBooksLevelSizeIdx].
  rewrite (ParseDouble_quoted v0 p Hw0 Ht0), (ParseDouble_quoted v1 s Hw1 Ht1), Hp, Hs.
  done.
Qed.

(** *** One side *)
Lemma set_one key lv b :
  OrderBook.wf b → is_nan (price lv) = false →
  ∃ b', runS (if decide (key = kBids) then OrderBook.SetBid (price lv) (size lv)
              else OrderBook.SetAsk (price lv) (size lv)) b = (Ok tt, b') ∧
    OrderBook.wf b' ∧ sides b' = set_side key [lv] (sides b) ∧
    OrderBook.LastSeqId b' = OrderBook.LastSeqId b ∧
    OrderBook.HasSnapshot b' = OrderBook.HasSnapshot b.
Proof.
  intros Hb Hn. unfold runS, set_side, sides. case_decide.
  - destruct (OrderBook.SetBid_spec (price lv) (size lv) b Hb Hn) as (b' & -> & ? & Ha & Hbid & ? & ?).
    exists b'. split_and!; [done..| |done|done]. simpl. by rewrite Ha, Hbid.
  - destruct (OrderBook.SetAsk_spec (price lv) (size lv) b Hb Hn) as (b' & -> & ? & Hbid & Ha & ? & ?).
    exists b'. split_and!; [done..| |done|done]. simpl. by rewrite Ha, Hbid.
Qed.
Lemma set_side_cons key lv lvs b :
  set_side key lvs (set_side key [lv] b) = set_side key (lv :: lvs) b.
Proof. unfold set_side. by case_decide. Qed.

Lemma visit_levels key views es lvs b :
  sv_text <$> views = (λ x, json.print x.1.2) <$> es → Forall sv_wf views →
  Forall (λ x : list Z * json.jval * list Z, json.jwf x.1.2 = true) es →
  mapM (λ x : list Z * json.jval * list Z, level_value x.1.2) es = Some lvs →
  Forall (λ lv, is_nan (price lv) = false) lvs → OrderBook.wf b →
  ∃ b', json.visit (apply_level key) views b = (Ok tt, b') ∧ OrderBook.wf b' ∧
    sides b' = set_side key lvs (sides b) ∧
    OrderBook.LastSeqId b' = OrderBook.LastSeqId b ∧
    OrderBook.HasSnapshot b' = OrderBook.HasSnapshot b.
Proof.
  intros Htx Hvwf Hes Hlv Hn. revert views lvs b Htx Hvwf Hlv Hn.
  induction Hes as [|[[w0 e] a0] es He _ IH]; intros [|v views] lvs b Htx Hvwf Hlv Hn Hb; try done.
  { injection Hlv as <-. exists b. split_and!; [done..| |done|done]. unfold set_side. by case_decide. }
  cbn [fmap list_fmap] in Htx. injection Htx as Hv Htx. simpl in He, Hv.
  apply Forall_cons in Hvwf as [Hvw Hvwf].
  apply mapM_Some in Hlv. inversion Hlv as [|? lv ? lvs' Hlv0 Hlvs]; subst. simpl in Hlv0.
  apply mapM_Some in Hlvs. apply Forall_cons in Hn as [Hn0 Hn].
  destruct (set_one key lv b Hb Hn0) as (b1 & H1 & Hwf1 & Hs1 & Hq1 & Hh1).
  destruct (IH views lvs' b1 Htx Hvwf Hlvs Hn Hwf1) as (b' & H2 & Hwf2 & Hs2 & Hq2 & Hh2).
  exists b'. split.
  { cbn [json.visit]. unfold mbind, M_bind.
    by rewrite (apply_level_value key v e lv Hvw Hv He Hlv0), H1. }
  split; [done|]. rewrite Hs2, Hs1, set_side_cons, Hq2, Hh2. done.
Qed.

Definition view_of (o : option string_view) (e : option json.jval) : Prop :=
  option_Forall2 (λ v e, sv_wf v ∧ sv_text v = json.print e ∧ json.jwf e = true) o e.

Lemma apply_side_value key side e lvs b :
  view_of side e → side_levels e = Some lvs →
  Forall (λ lv, is_nan (price lv) = false) lvs → OrderBook.wf b →
  ∃ b', apply_side side key b = (Ok tt, b') ∧ OrderBook.wf b' ∧
    sides b' = set_side key lvs (sides b) ∧
    OrderBook.LastSeqId b' = OrderBook.LastSeqId b ∧
    OrderBook.HasSnapshot b' = OrderBook.HasSnapshot b.
Proof.
  intros Hview Hlv Hn Hb. inversion Hview as [v x (Hwf & Ht & Hx)|]; subst.
  - destruct x as [| |w es|]; try done. cbn [side_levels] in Hlv.
    assert (Forall (λ x : list Z * json.jval * list Z, json.jwf x.1.2 = true) es) as Hes.
    { simpl in Hx. apply andb_true_iff in Hx as [_ Hes]. rewrite forallb_forall in Hes.
      apply Forall_forall. intros [[w0 e0] a0] Hin. apply list_elem_of_In in Hin.
      specialize (Hes _ Hin). simpl in Hes. rewrite !andb_true_iff in Hes. naive_solver. }
    rewrite <-(app_nil_r (json.print _)) in Ht.
    destruct (json.array_elements v _ _ _ Hwf Ht Hx) as (views & Htx & Hvwf & Hloop & _).
    destruct (visit_levels key views es lvs b Htx Hvwf Hes Hlv Hn Hb) as (b' & Hv & Hrest).
    exists b'. split; [|done]. cbn [apply_side]. unfold ApplyLevels. by rewrite Hloop.
  - injection Hlv as <-. exists b. split_and!; [done..| |done|done]. unfold set_side. by case_decide.
Qed.

(** *** The fields *)
Definition fields_match (f : BookFields) (look : list Z → option json.jval) : Prop :=
  view_of (seq_id_text f) (look kSeqId) ∧ view_of (prev_seq_id_text f) (look kPrevSeqId) ∧
  view_of (bids_text f) (look kBids) ∧ view_of (asks_text f) (look kAsks).

Lemma visit_fields views (fs : list field) f look :
  prod_map sv_text sv_text <$> views = (λ x, (x.1.1.2, json.print x.2.1.2)) <$> fs →
  Forall (λ x, sv_wf x.1 ∧ sv_wf x.2) views →
  Forall (λ x : field, json.jwf x.2.1.2 = true) fs →
  fields_match f look →
  ∃ f', json.visit (λ x, book_field x.1 x.2) views f = (Ok tt, f') ∧
    fields_match f' (λ k, foldl (λ o (x : field), if decide (x.1.1.2 = k) then Some x.2.1.2 else o)
      (look k) fs).
Proof.
  intros Htx Hvwf Hfs. revert views f look Htx Hvwf.
  induction Hfs as [|[[[w0 k] m] [[m' e] a]] fs He _ IH]; intros [|[kv vv] views] f look Htx Hvwf Hm;
    try done.
  { by exists f. }
  cbn [fmap list_fmap prod_map fst snd] in Htx. injection Htx as Hk Hv Htx.
  apply Forall_cons in Hvwf as [[_ Hvw] Hvwf]. simpl in He, Hvw.
  assert (∀ q, sv_eqb kv q = bool_decide (k = q)) as Hkey by (intros; unfold sv_eqb; by rewrite Hk).
  assert (view_of (Some vv) (Some e)) as Hve by (by constructor).
  cbn [json.visit foldl fst snd]. unfold mbind, M_bind.
  unfold book_field, modify at 1. rewrite !Hkey.
  apply IH; [done|done|]. destruct Hm as (H1 & H2 & H3 & H4).
  unfold fields_match. cbn [fst snd].
  do 4 (let E := fresh in case_bool_decide as E;
    [rewrite E; decide_keys; by split_and!|]).
  decide_keys. done.
Qed.

Lemma book_fields_value data w fs rest :
  sv_wf data → sv_text data = json.print (json.JObject w fs) ++ rest →
  json.jwf (json.JObject w fs) = true →
  ∃ f, json.ForEachField data book_field no_fields = (Ok tt, f) ∧
    fields_match f (λ k, last_field k fs).
Proof.
  intros Hwf Ht Hx.
  destruct (json.object_fields data w fs rest Hwf Ht Hx) as (views & Htx & Hvwf & Hloop).
  assert (Forall (λ x : field, json.jwf x.2.1.2 = true) fs) as Hfs.
  { simpl in Hx. apply andb_true_iff in Hx as [_ Hfs]. rewrite forallb_forall in Hfs.
    apply Forall_forall. intros [[[w0 k] m] [[m' e] a]] Hin. apply list_elem_of_In in Hin.
    specialize (Hfs _ Hin). simpl in Hfs. rewrite !andb_true_iff in Hfs. naive_solver. }
  rewrite Hloop. apply visit_fields; [done..|]. by split_and!; constructor.
Qed.

(** What a books message says: sequence numbers and the levels of each side. *)
Record BookUpdateMsg := MkUpdate {
  u_prev : Z; u_seq : Z; u_bids : list Level; u_asks : list Level }.
Definition scalar_ll (e : option json.jval) : option Z :=
  match e with Some (json.JScalar s) => json.from_chars_ll s | _ => None end.
Definition book_update (fs : list field) : option BookUpdateMsg :=
  prev ← scalar_ll (last_field kPrevSeqId fs);
  seq ← scalar_ll (last_field kSeqId fs);
  bids ← side_levels (last_field kBids fs);
  asks ← side_levels (last_field kAsks fs);
  Some (MkUpdate prev seq bids asks).
Definition update_ok (u : BookUpdateMsg) : Prop :=
  Forall (λ lv, is_nan (price lv) = false) (u_bids u ++ u_asks u).

(** The effect of an update on the two sides. *)
Definition update_sides (u : BookUpdateMsg) (b : list Level * list Level)
    : list Level * list Level :=
  let b := if (u_prev u =? kSnapshotSeqId)%Z then ([], []) else b in
  set_side kAsks (u_asks u) (set_side kBids (u_bids u) b).
Definition is_gap (u : BookUpdateMsg) (b : OrderBook.t) : bool :=
  negb (u_prev u =? kSnapshotSeqId)%Z && OrderBook.HasSnapshot b &&
  negb (u_prev u =? OrderBook.LastSeqId b)%Z.

Lemma scalar_ll_view o e z :
  view_of o e → scalar_ll e = Some z → ∃ t, o = Some t ∧ json.ParseLL t = Ok z.
Proof.
  intros Hv Hz. inversion Hv as [v x (Hwf & Ht & _)|]; subst; [|done].
  destruct x as [s| | |]; try done. exists v. split; [done|].
  unfold json.ParseLL. rewrite Ht. simpl in *. by rewrite Hz.
Qed.

Lemma ApplyBookMessage_value message data w fs rest u b :
  opt_eqb (json.FindString message kChannel) kBooksChannel = true →
  FindData message = Some data → sv_wf data →
  sv_text data = json.print (json.JObject w fs) ++ rest →
  json.jwf (json.JObject w fs) = true → book_update fs = Some u → update_ok u →
  OrderBook.wf b → is_gap u b = false →
  ∃ b', ApplyBookMessage message b = (Ok kApplied, b') ∧ OrderBook.wf b' ∧
    sides b' = update_sides u (sides b) ∧ OrderBook.LastSeqId b' = u_seq u ∧
    OrderBook.HasSnapshot b' = (u_prev u =? kSnapshotSeqId)%Z || OrderBook.HasSnapshot b.
Proof.
  intros Hch Hdata Hwf Ht Hx Hu Hok Hb Hgap.
  destruct (book_fields_value data w fs rest Hwf Ht Hx) as (f & Hf & H1 & H2 & H3 & H4).
  unfold book_update in Hu. cbn [mbind option_bind] in Hu.
  destruct (scalar_ll (last_field kPrevSeqId fs)) as [prev|] eqn:Ep; [|done].
  destruct (scalar_ll (last_field kSeqId fs)) as [seq|] eqn:Es; [|done].
  destruct (side_levels (last_field kBids fs)) as [bl|] eqn:Eb; [|done].
  destruct (side_levels (last_field kAsks fs)) as [al|] eqn:Ea; [|done].
  injection Hu as <-. unfold update_ok, is_gap, update_sides in *. cbn [u_prev u_seq u_bids u_asks] in *.
  apply Forall_app in Hok as [Hnb Hna].
  destruct (scalar_ll_view _ _ _ H1 Es) as (st & Hst & Pst).
  destruct (scalar_ll_view _ _ _ H2 Ep) as (pt & Hpt & Ppt).
  set (b0 := if (prev =? kSnapshotSeqId)%Z then OrderBook.BeginSnapshot b else b).
  assert (OrderBook.wf b0 ∧ sides b0 = (if (prev =? kSnapshotSeqId)%Z then ([], []) else sides b) ∧
    OrderBook.HasSnapshot b0 = (prev =? kSnapshotSeqId)%Z || OrderBook.HasSnapshot b)
    as (Hb0 & Hs0 & Hh0).
  { unfold b0. destruct (prev =? kSnapshotSeqId)%Z; [|done].
    destruct (OrderBook.BeginSnapshot_spec b Hb) as (? & Hbb & Haa).
    split; [done|]. split; [unfold sides; by rewrite Hbb, Haa|done]. }
  destruct (apply_side_value kBids _ _ _ b0 H3 Eb Hnb Hb0) as (b1 & A1 & Hb1 & Hs1 & _ & Hh1).
  destruct (apply_side_value kAsks _ _ _ b1 H4 Ea Hna Hb1) as (b2 & A2 & Hb2 & Hs2 & _ & Hh2).
  exists (OrderBook.SetSeqId seq b2). split.
  - unfold ApplyBookMessage. rewrite Hch, Hdata, Hf. cbn [negb]. rewrite Hst, Hpt, Ppt, Pst.
    unfold mbind, M_bind, lift, get. rewrite Hgap.
    assert ((if (prev =? kSnapshotSeqId)%Z then modify OrderBook.BeginSnapshot else mret tt) b =
      (Ok tt, b0)) as -> by (unfold b0; by destruct (prev =? kSnapshotSeqId)%Z).
    by rewrite A1, A2.
  - split; [done|]. change (sides (OrderBook.SetSeqId seq b2)) with (sides b2).
    change (OrderBook.HasSnapshot (OrderBook.SetSeqId seq b2)) with (OrderBook.HasSnapshot b2).
    rewrite Hs2, Hs1, Hs0, Hh2, Hh1, Hh0. by split.
Qed.

Lemma ApplyBookMessage_gap message data w fs rest u b :
  opt_eqb (json.FindString message kChannel) kBooksChannel = true →
  FindData message = Some data → sv_wf data →
  sv_text data = json.print (json.JObject w fs) ++ rest →
  json.jwf (json.JObject w fs) = true → book_update fs = Some u → is_gap u b = true →
  ApplyBookMessage message b = (Ok kGapDetected, b).
Proof.
  intros Hch Hdata Hwf Ht Hx Hu Hgap.
  destruct (book_fields_value data w fs rest Hwf Ht Hx) as (f & Hf & H1 & H2 & _).
  unfold book_update in Hu. cbn [mbind option_bind] in Hu.
  destruct (scalar_ll (last_field kPrevSeqId fs)) as [prev|] eqn:Ep; [|done].
  destruct (scalar_ll (last_field kSeqId fs)) as [seq|] eqn:Es; [|done].
  destruct (side_levels (last_field kBids fs)); [|done].
  destruct (side_levels (last_field kAsks fs)); [|done]. injection Hu as <-.
  destruct (scalar_ll_view _ _ _ H1 Es) as (st & Hst & Pst).
  destruct (scalar_ll_view _ _ _ H2 Ep) as (pt & Hpt & Ppt).
  unfold ApplyBookMessage. rewrite Hch, Hdata, Hf. cbn [negb]. rewrite Hst, Hpt, Ppt.
  unfold mbind, M_bind, lift, get. unfold is_gap in Hgap. cbn [u_prev] in Hgap. by rewrite Hgap.
Qed.

(** ** Properties *)

(** C1. On the text of a books message with levels given as quoted decimal
    numbers, [ApplyBookMessage] detects a gap exactly when the message is no
    snapshot, the book has one and the message does not chain onto the book's
    sequence number, and then changes nothing; otherwise the book's sides
    become those of the message (a snapshot) or are updated level by level
    (an increment), in the order of the message, and the sequence number is
    the message's. *)
Theorem book_message_correct message data w fs rest u b :
  opt_eqb (json.FindString message kChannel) kBooksChannel = true →
  FindData message = Some data → sv_wf data →
  sv_text data = json.print (json.JObject w fs) ++ rest →
  json.jwf (json.JObject w fs) = true → book_update fs = Some u → update_ok u →
  OrderBook.wf b →
  if is_gap u b then ApplyBookMessage message b = (Ok kGapDetected, b)
  else ∃ b', ApplyBookMessage message b = (Ok kApplied, b') ∧ OrderBook.wf b' ∧
    sides b' = update_sides u (sides b) ∧ OrderBook.LastSeqId b' = u_seq u ∧
    OrderBook.HasSnapshot b' = (u_prev u =? kSnapshotSeqId)%Z || OrderBook.HasSnapshot b.
Proof.
  intros. destruct (is_gap u b) eqn:E; [by eapply ApplyBookMessage_gap|].
  by eapply ApplyBookMessage_value.
Qed.

Definition sample_level (p s : string) : list Z * json.jval * list Z :=
  ([], json.JArray [] [([], json.JString (str p), []); ([], json.JString (str s), []);
    ([], json.JString (str "0"), [])], []).
Definition sample_field (k : string) (e : json.jval) : field := ([], str k, [], ([], e, [])).
Definition sample_fields : list field :=
  [sample_field "asks" (json.JArray [] [sample_level "8477" "7"; sample_level "8476.5" "415"]);
   sample_field "bids" (json.JArray [] [sample_level "8476" "256"]);
   sample_field "prevSeqId" (json.JScalar (str "-1"));
   sample_field "seqId" (json.JScalar (str "123456"))].
Definition sample_message : string_view :=
  sv_of (qstr "{'arg':{'channel':'books','instId':'ETH-USDT'},'data':[" ++
         json.print (json.JObject [] sample_fields) ++ str "]}").
Definition sample_data : string_view := default (sv_of []) (FindData sample_message).
Lemma book_message_correct_witness :
  ∃ b', ApplyBookMessage sample_message OrderBook.empty = (Ok kApplied, b') ∧ OrderBook.wf b' ∧
    price <$> (sides b').2 = [f_of_decimal false 84765 (-1); f_of_Z 8477] ∧
    OrderBook.LastSeqId b' = 123456%Z.
Proof.
  destruct (book_message_correct sample_message sample_data [] sample_fields []
    (default (MkUpdate 0 0 [] []) (book_update sample_fields)) OrderBook.empty)
    as (b' & Hb & Hwf & Hs & Hq & _).
  - vm_compute. reflexivity.
  - vm_compute. reflexivity.
  - unfold sv_wf. vm_compute. lia.
  - vm_compute. reflexivity.
  - vm_compute. reflexivity.
  - vm_compute. reflexivity.
  - unfold update_ok. vm_compute. repeat (constructor; [reflexivity|]). constructor.
  - apply OrderBook.book_wf_empty.
  - exists b'. split; [exact Hb|]. split; [exact Hwf|].
    rewrite Hs. split; [vm_compute; reflexivity|]. rewrite Hq. vm_compute. reflexivity.
Defined.

(** Whatever bytes a message holds, [ApplyBookMessage] on a book whose
    arrays have their sizes stays inside its arrays and terminates, with a
    result or an exception, and the arrays keep their sizes. *)
Theorem book_message_safe message :
  upholds OrderBook.sized exn_only (ApplyBookMessage message).
Proof. apply ApplyBookMessage_upholds. Qed.

(** Whatever a message holds, a message that is ignored or shows a gap
    leaves the book as it was; a message that is applied to a book with a
    snapshot is a snapshot itself or chains directly onto the book's last
    sequence number, and its own becomes the book's. *)
Theorem book_message_chains message b r b' :
  ApplyBookMessage message b = (Ok r, b') →
  match r with
  | kIgnored => b' = b
  | kGapDetected => b' = b ∧ OrderBook.HasSnapshot b = true
  | kApplied => ∃ prev seq, message_seqs message = Some (prev, seq) ∧
      (prev = kSnapshotSeqId ∨ OrderBook.HasSnapshot b = false ∨ prev = OrderBook.LastSeqId b) ∧
      OrderBook.LastSeqId b' = seq ∧
      OrderBook.HasSnapshot b' = (prev =? kSnapshotSeqId)%Z || OrderBook.HasSnapshot b
  end.
Proof. apply ApplyBookMessage_cases. Qed.

Lemma book_message_chains_witness :
  let '(r, b') := ApplyBookMessage sample_message OrderBook.empty in
  r = Ok kApplied ∧ OrderBook.LastSeqId b' = 123456%Z ∧ OrderBook.HasSnapshot b' = true.
Proof.
  destruct (ApplyBookMessage sample_message OrderBook.empty) as [r b'] eqn:E.
  assert (r = Ok kApplied) as -> by (apply (f_equal fst) in E; vm_compute in E; by rewrite <-E).
  destruct (book_message_chains _ _ _ _ E) as (prev & seq & Hm & _ & Hq & Hh).
  vm_compute in Hm. injection Hm as <- <-. exact (conj eq_refl (conj Hq Hh)).
Defined.

(** A message handled by [JsonBookSource] reaches the strategy only as a
    book that the message was applied to, stamped with the times of this
    message; on a gap the source sends the unsubscribe and then the subscribe
    request and keeps the book; otherwise it does nothing. *)
Theorem json_source_outputs (a d n : Z) message s outs s' :
  JsonBookSource.OnMessage a d n message s = (Ok outs, s') →
  ∃ r, ApplyBookMessage message (JsonBookSource.book_ s) = (Ok r, JsonBookSource.book_ s') ∧
    s' = JsonBookSource.set_book (JsonBookSource.book_ s') s ∧
    outs = match r with
      | kApplied => if JsonBookSource.on_book_update_ s
          then [JsonBookSource.BookUpdate (JsonBookSource.book_ s') (MkTrace a d n 0 0 0 0 0)] else []
      | kGapDetected => [JsonBookSource.Send (JsonBookSource.unsubscribe_msg_ s);
                         JsonBookSource.Send (JsonBookSource.resubscribe_msg_ s)]
      | kIgnored => []
      end ∧
    (r ≠ kApplied → s' = s).
Proof.
  unfold JsonBookSource.OnMessage. intros H. apply bind_Ok in H as (r & s1 & Hz & H).
  unfold zoom in Hz. destruct (ApplyBookMessage message _) as [r0 b'] eqn:E.
  injection Hz as -> <-. apply bind_Ok in H as (s2 & s3 & [= <- <-] & H).
  pose proof (ApplyBookMessage_cases _ _ _ _ E) as Hc.
  assert (JsonBookSource.set_book (JsonBookSource.book_ s) s = s) as Hsame by (by destruct s).
  exists r. destruct r; simpl in *.
  - injection H as <- <-. subst b'. by rewrite Hsame.
  - apply bind_Ok in H as (x & s4 & Hx & H). injection Hx as _ <-.
    apply bind_Ok in H as (y & s5 & Hy & H). injection Hy as _ <-.
    injection H as <- <-. done.
  - injection H as <- <-. destruct Hc as [-> _]. by rewrite Hsame.
Qed.

Lemma json_source_outputs_witness :
  ∃ outs s', JsonBookSource.OnMessage 1 2 3 sample_message
      (JsonBookSource.initial true (str "ETH-USDT")) = (Ok outs, s') ∧
    outs = [JsonBookSource.BookUpdate (JsonBookSource.book_ s') (MkTrace 1 2 3 0 0 0 0 0)].
Proof.
  destruct (JsonBookSource.OnMessage 1 2 3 sample_message
    (JsonBookSource.initial true (str "ETH-USDT"))) as [r s'] eqn:E.
  assert (∃ outs, r = Ok outs ∧ length outs = 1) as (outs & -> & Hlen).
  { apply (f_equal fst) in E. vm_compute in E. rewrite <-E. eauto. }
  exists outs, s'. split; [reflexivity|].
  destruct (json_source_outputs _ _ _ _ _ _ _ E) as (r & _ & _ & Houts & _).
  clear E. destruct r; rewrite Houts in Hlen |- *; [discriminate Hlen|reflexivity|discriminate Hlen].
Defined.
