(* ===== verification/OrderLifecycle.v ===== *)
(** * Order events and the order state machine: okx/orders/order_events.*,
      okx/orders/order_lifecycle.*

    [ForEachOrderEvent] turns a message of the orders channel into events;
    [Order] is the state machine that follows them.  The string views of an
    event are represented by their contents, which the order copies. *)

From S2P Require Import Prelude Float64 Json Okx.

(** ** Events *)
Inductive OrderEventType := kLive | kPartialFill | kFill | kCancel.
#[export] Instance OrderEventType_eq_dec : EqDecision OrderEventType.
Proof. solve_decision. Defined.

Record OrderFill := MkFill { fill_px : double; fill_sz : double }.
Record OrderEvent := MkEvent {
  ev_type : OrderEventType;
  ev_ord_id : list Z; ev_cl_ord_id : list Z; ev_inst_id : list Z; ev_side : list Z;
  ev_px : list Z; ev_sz : list Z; ev_acc_fill_sz : list Z; ev_avg_px : list Z;
  ev_fill : option OrderFill }.

Module order_events.
Definition ClassifyState (state : list Z) : result OrderEventType :=
  if decide (state = kStateLive) then Ok kLive
  else if decide (state = kStatePartiallyFilled) then Ok kPartialFill
  else if decide (state = kStateFilled) then Ok kFill
  else if decide (state = kStateCanceled ∨ state = kStateMmpCanceled) then Ok kCancel
  else throw (runtime_error "Unrecognized order state: {}" [state]).

Definition ClassifyFill (order : string_view) : result (option OrderFill) :=
  match json.FindString order kFillPx with
  | None => Ok None
  | Some fill_px_str =>
      if sv_size fill_px_str =? 0 then Ok None
      else
        fill_px ← json.ParseDouble fill_px_str;
        if fle fill_px fzero then Ok None
        else
          match json.FindString order kFillSz with
          | None => Ok None
          | Some fill_sz_str =>
              if sv_size fill_sz_str =? 0 then Ok None
              else
                fill_sz ← json.ParseDouble fill_sz_str;
                if fle fill_sz fzero then Ok None
                else Ok (Some (MkFill fill_px fill_sz))
          end
  end.

(** [json::FindString(order, key).value_or(kEmpty)]. *)
Definition find_or_empty (order : string_view) (key : list Z) : list Z :=
  match json.FindString order key with Some v => sv_text v | None => [] end.

(** The event that the callback of [ForEachOrderEvent] builds. *)
Definition order_event (order : string_view) : result OrderEvent :=
  match json.FindString order kState with
  | None => throw (runtime_error "Malformed orders channel message: {}" [sv_text order])
  | Some state =>
      type ← ClassifyState (sv_text state);
      fill ← ClassifyFill order;
      Ok (MkEvent type
        (find_or_empty order kOrdId) (find_or_empty order kClOrdId)
        (find_or_empty order kInstId) (find_or_empty order kSide)
        (find_or_empty order kPx) (find_or_empty order kSz)
        (find_or_empty order kAccFillSz) (find_or_empty order kAvgPx) fill)
  end.

Definition ForEachOrderEvent {S} (message : string_view) (action : OrderEvent → M S unit)
    : M S unit :=
  if negb (opt_eqb (json.FindString message kChannel) kOrdersChannel) then mret tt
  else json.ForEachArrayElement message kData
    (λ order, event ← lift (order_event order); action event).

Definition ToString (type : OrderEventType) : list Z :=
  match type with
  | kLive => str "live"
  | kPartialFill => str "partial-fill"
  | kFill => str "fill"
  | kCancel => str "cancel"
  end.
End order_events.

(** ** The order *)
Inductive OrderState :=
  | kPendingNew | kNew | kPartiallyFilled | kFilled | kCanceled | kRejected
  | kPendingCancel | kPendingAmend.
#[export] Instance OrderState_eq_dec : EqDecision OrderState.
Proof. solve_decision. Defined.

Definition ToString (state : OrderState) : list Z :=
  match state with
  | kPendingNew => str "PendingNew"
  | kNew => str "New"
  | kPartiallyFilled => str "PartiallyFilled"
  | kFilled => str "Filled"
  | kCanceled => str "Canceled"
  | kRejected => str "Rejected"
  | kPendingCancel => str "PendingCancel"
  | kPendingAmend => str "PendingAmend"
  end.
Definition IsTerminal (state : OrderState) : bool :=
  bool_decide (state = kFilled) || bool_decide (state = kCanceled) ||
  bool_decide (state = kRejected).
Definition IsPending (state : OrderState) : bool :=
  bool_decide (state = kPendingNew) || bool_decide (state = kPendingCancel) ||
  bool_decide (state = kPendingAmend).

Module Order.
Record t := Mk {
  ord_id_ : list Z; cl_ord_id_ : list Z; inst_id_ : list Z; side_ : list Z;
  px_ : list Z; sz_ : list Z; acc_fill_sz_ : list Z; avg_px_ : list Z;
  state_ : OrderState; pre_pending_state_ : OrderState; pending_since_ : Z }.

(** The constructor; [now] is the steady clock when it runs. *)
Definition make (now : Z) (cl_ord_id inst_id side px sz : list Z) : t :=
  Mk [] cl_ord_id inst_id side px sz [] [] kPendingNew kPendingNew now.

Definition TransitionTo (next : OrderState) : M t unit := modify (λ o,
  Mk (ord_id_ o) (cl_ord_id_ o) (inst_id_ o) (side_ o) (px_ o) (sz_ o) (acc_fill_sz_ o)
     (avg_px_ o) next (pre_pending_state_ o) (pending_since_ o)).
Definition set_px (px : list Z) : M t unit := modify (λ o,
  Mk (ord_id_ o) (cl_ord_id_ o) (inst_id_ o) (side_ o) px (sz_ o) (acc_fill_sz_ o)
     (avg_px_ o) (state_ o) (pre_pending_state_ o) (pending_since_ o)).
(** The assignments at the start of [ApplyEvent]. *)
Definition copy_event (event : OrderEvent) : M t unit := modify (λ o,
  Mk (if decide (ord_id_ o = []) then ev_ord_id event else ord_id_ o)
     (cl_ord_id_ o) (inst_id_ o) (side_ o) (px_ o) (sz_ o) (ev_acc_fill_sz event)
     (ev_avg_px event) (state_ o) (pre_pending_state_ o) (pending_since_ o)).
(** The assignments that note a pending request. *)
Definition set_pending (pre : OrderState) (now : Z) : M t unit := modify (λ o,
  Mk (ord_id_ o) (cl_ord_id_ o) (inst_id_ o) (side_ o) (px_ o) (sz_ o) (acc_fill_sz_ o)
     (avg_px_ o) (state_ o) pre now).

Definition unexpected (what : string) (o : t) : M t unit :=
  throwM (runtime_error what [cl_ord_id_ o; ToString (state_ o)]).

Definition ApplyEvent (event : OrderEvent) : M t unit :=
  _ ← copy_event event;
  o ← get;
  match ev_type event with
  | kLive =>
      if decide (state_ o = kPendingNew) then TransitionTo kNew
      else if decide (state_ o = kPendingAmend) then
        _ ← set_px (ev_px event);
        TransitionTo (if decide (pre_pending_state_ o = kPendingNew) then kNew
                      else pre_pending_state_ o)
      else if decide (state_ o = kNew ∨ state_ o = kPartiallyFilled ∨ state_ o = kPendingCancel)
        then set_px (ev_px event)
      else unexpected "Order {}: unexpected {} -> kLive transition" o
  | kPartialFill =>
      if decide (state_ o = kFilled ∨ state_ o = kCanceled ∨ state_ o = kRejected)
      then unexpected "Order {}: unexpected {} -> kPartialFill transition" o
      else TransitionTo kPartiallyFilled
  | kFill =>
      if decide (state_ o = kFilled ∨ state_ o = kCanceled ∨ state_ o = kRejected)
      then unexpected "Order {}: unexpected {} -> kFill transition" o
      else TransitionTo kFilled
  | kCancel =>
      if decide (state_ o = kFilled ∨ state_ o = kCanceled ∨ state_ o = kRejected)
      then unexpected "Order {}: unexpected {} -> kCancel transition" o
      else if decide (state_ o = kPendingNew) then TransitionTo kRejected
      else TransitionTo kCanceled
  end.

Definition OnCancelRequested (now : Z) : M t unit :=
  o ← get;
  if decide (state_ o ≠ kPendingNew ∧ state_ o ≠ kNew ∧ state_ o ≠ kPartiallyFilled ∧
             state_ o ≠ kPendingAmend)
  then unexpected "Order {}: cancel requested from state {}" o
  else
    _ ← set_pending (if decide (state_ o ≠ kPendingAmend) then state_ o
                     else pre_pending_state_ o) now;
    TransitionTo kPendingCancel.

Definition OnAmendRequested (now : Z) : M t unit :=
  o ← get;
  if decide (state_ o ≠ kPendingNew ∧ state_ o ≠ kNew ∧ state_ o ≠ kPartiallyFilled ∧
             state_ o ≠ kPendingCancel)
  then unexpected "Order {}: amend requested from state {}" o
  else
    _ ← set_pending (if decide (state_ o ≠ kPendingCancel) then state_ o
                     else pre_pending_state_ o) now;
    TransitionTo kPendingAmend.

Definition OnRequestRejected : M t unit :=
  o ← get;
  if decide (state_ o ≠ kPendingCancel ∧ state_ o ≠ kPendingAmend)
  then unexpected "Order {}: request-rejected event from state {}" o
  else TransitionTo (pre_pending_state_ o).

(** ** The state machine *)
Inductive input :=
  | Event (event : OrderEvent)
  | CancelRequested (now : Z)
  | AmendRequested (now : Z)
  | RequestRejected.
Definition step (i : input) : M t unit :=
  match i with
  | Event event => ApplyEvent event
  | CancelRequested now => OnCancelRequested now
  | AmendRequested now => OnAmendRequested now
  | RequestRejected => OnRequestRejected
  end.

(** The life of an order as a transition system: the state, and the live
    state that a rejected request falls back to.  An order is pending until
    the exchange shows it, may carry one pending request, and ends filled,
    canceled or (never seen live) rejected. *)
Definition live (s : OrderState) : Prop := s = kPendingNew ∨ s = kNew ∨ s = kPartiallyFilled.
Definition acked (s : OrderState) : OrderState := if decide (s = kPendingNew) then kNew else s.

Inductive trans : input → OrderState * OrderState → OrderState * OrderState → Prop :=
  | t_ack ev p : ev_type ev = kLive → trans (Event ev) (kPendingNew, p) (kNew, p)
  | t_amended ev p : ev_type ev = kLive → trans (Event ev) (kPendingAmend, p) (acked p, p)
  | t_refresh ev s p : ev_type ev = kLive →
      s = kNew ∨ s = kPartiallyFilled ∨ s = kPendingCancel → trans (Event ev) (s, p) (s, p)
  | t_part ev s p : ev_type ev = kPartialFill → IsTerminal s = false →
      trans (Event ev) (s, p) (kPartiallyFilled, p)
  | t_fill ev s p : ev_type ev = kFill → IsTerminal s = false →
      trans (Event ev) (s, p) (kFilled, p)
  | t_reject ev p : ev_type ev = kCancel → trans (Event ev) (kPendingNew, p) (kRejected, p)
  | t_cancel ev s p : ev_type ev = kCancel → IsTerminal s = false → s ≠ kPendingNew →
      trans (Event ev) (s, p) (kCanceled, p)
  | t_req_cancel now s p : live s → trans (CancelRequested now) (s, p) (kPendingCancel, s)
  | t_req_cancel_amending now p :
      trans (CancelRequested now) (kPendingAmend, p) (kPendingCancel, p)
  | t_req_amend now s p : live s → trans (AmendRequested now) (s, p) (kPendingAmend, s)
  | t_req_amend_canceling now p :
      trans (AmendRequested now) (kPendingCancel, p) (kPendingAmend, p)
  | t_rejected s p : s = kPendingCancel ∨ s = kPendingAmend → trans RequestRejected (s, p) (p, p).

Definition view (o : t) : OrderState * OrderState := (state_ o, pre_pending_state_ o).

Lemma order_step_refines i o :
  match step i o with
  | (Ok _, o') => trans i (view o) (view o')
  | (Stop x, o') => exn_only x ∧ view o' = view o ∧ ∀ v, ¬ trans i (view o) v
  end.
Proof.
  unfold view. destruct o as [oi ci ii sd px sz af ap st pre ps], i as [ev|now|now|];
    cbn [step].
  - unfold ApplyEvent, mbind, M_bind, copy_event, modify, get. cbn [state_ pre_pending_state_].
    destruct (ev_type ev) eqn:Et; destruct st; cbn; try (by econstructor; eauto);
      try (by constructor; auto);
      (split; [done|]; split; [done|]; intros v Hv; inversion Hv; subst;
        try congruence; naive_solver).
  - unfold OnCancelRequested, mbind, M_bind, get. cbn [state_ pre_pending_state_].
    destruct st; cbn; try (by constructor; unfold live; auto);
      (split; [done|]; split; [done|]; intros v Hv; inversion Hv; subst; unfold live in *; naive_solver).
  - unfold OnAmendRequested, mbind, M_bind, get. cbn [state_ pre_pending_state_].
    destruct st; cbn; try (by constructor; unfold live; auto);
      (split; [done|]; split; [done|]; intros v Hv; inversion Hv; subst; unfold live in *; naive_solver).
  - unfold OnRequestRejected, mbind, M_bind, get. cbn [state_ pre_pending_state_].
    destruct st; cbn; try (by constructor; auto);
      (split; [done|]; split; [done|]; intros v Hv; inversion Hv; subst; naive_solver).
Qed.
End Order.

(** ** Reading events *)
Module event_reference.
Import order_events.

Definition order_keys : list (list Z) :=
  [kState; kOrdId; kClOrdId; kInstId; kSide; kPx; kSz; kAccFillSz; kAvgPx; kFillPx; kFillSz].

(** The event of an order with the string fields [f], [text] being its JSON. *)
Definition positive (s : option (list Z)) : result (option double) :=
  match s with
  | None | Some [] => Ok None
  | Some s =>
      match strtod s with
      | Some x => Ok (if fle x fzero then None else Some x)
      | None => throw (runtime_error "Failed to parse double" [])
      end
  end.
Definition fill_of (f : list Z → option (list Z)) : result (option OrderFill) :=
  px ← positive (f kFillPx);
  match px with
  | None => Ok None
  | Some px =>
      sz ← positive (f kFillSz);
      Ok (match sz with Some sz => Some (MkFill px sz) | None => None end)
  end.
Definition event_of (text : list Z) (f : list Z → option (list Z)) : result OrderEvent :=
  match f kState with
  | None => throw (runtime_error "Malformed orders channel message: {}" [text])
  | Some state =>
      type ← ClassifyState state;
      fill ← fill_of f;
      let g k := default [] (f k) in
      Ok (MkEvent type (g kOrdId) (g kClOrdId) (g kInstId) (g kSide) (g kPx) (g kSz)
        (g kAccFillSz) (g kAvgPx) fill)
  end.

Section order.
Context (order : string_view) (Hwf : sv_wf order).

Lemma parse_positive key :
  (match json.FindString order key with
   | None => Ok None
   | Some x => if sv_size x =? 0 then Ok None
       else v ← json.ParseDouble x; Ok (if fle v fzero then None else Some v)
   end) = positive (sv_text <$> json.FindString order key).
Proof using Hwf.
  destruct (json.FindString order key) as [x|] eqn:E; [|done].
  pose proof (json.FindString_wf _ _ _ Hwf E) as Hx.
  pose proof (length_sv_text x Hx) as Hlen.
  rewrite (json.ParseDouble_FindString _ _ _ Hwf E). cbn [fmap option_fmap option_map].
  unfold json.ParseDouble, sv_of. cbn [sv_mem].
  destruct (Nat.eqb_spec (sv_size x) 0) as [Hz|Hz].
  - rewrite Hz in Hlen. by destruct (sv_text x).
  - destruct (sv_text x) as [|c t] eqn:Et; [simpl in Hlen; lia|]. cbn [positive].
    by destruct (strtod (c :: t)).
Qed.

Lemma ClassifyFill_fields f :
  (∀ k, k ∈ order_keys → sv_text <$> json.FindString order k = f k) →
  ClassifyFill order = fill_of f.
Proof using Hwf.
  intros Hf. unfold fill_of. rewrite <-!Hf by (unfold order_keys; set_solver).
  rewrite <-!parse_positive. unfold ClassifyFill.
  destruct (json.FindString order kFillPx) as [x|]; [|done].
  destruct (sv_size x =? 0); [done|].
  destruct (json.ParseDouble x) as [px|]; [|done]. cbn [mbind result_bind].
  destruct (fle px fzero); [done|].
  destruct (json.FindString order kFillSz) as [y|]; [|done].
  destruct (sv_size y =? 0); [done|].
  destruct (json.ParseDouble y) as [sz|]; [|done]. cbn [mbind result_bind].
  by destruct (fle sz fzero).
Qed.

Lemma order_event_fields f :
  (∀ k, k ∈ order_keys → sv_text <$> json.FindString order k = f k) →
  order_event order = event_of (sv_text order) f.
Proof using Hwf.
  intros Hf. unfold order_event, event_of. rewrite (ClassifyFill_fields f Hf).
  assert (∀ k, k ∈ order_keys → find_or_empty order k = default [] (f k)) as Hg.
  { intros k Hk. rewrite <-Hf by done. unfold find_or_empty. by destruct (json.FindString order k). }
  rewrite !Hg by (unfold order_keys; set_solver).
  rewrite <-(Hf kState) by (unfold order_keys; set_solver).
  by destruct (json.FindString order kState).
Qed.
End order.
End event_reference.

Lemma order_event_empty x e : sv_size x = 0 → order_events.order_event x ≠ Ok e.
Proof. intros Hz. unfold order_events.order_event. by rewrite json.FindString_empty. Qed.
Lemma order_event_exn order x : order_events.order_event order = Stop x → exn_only x.
Proof.
  unfold order_events.order_event, order_events.ClassifyState, order_events.ClassifyFill.
  destruct (json.FindString order kState); [|by intros [= <-]].
  repeat case_decide; cbn [mbind result_bind throw]; try (by intros [= <-]);
    (destruct (json.FindString order kFillPx) as [y|]; [|done]);
    (destruct (sv_size y =? 0); [done|]); unfold json.ParseDouble;
    (destruct (strtod (sv_mem y)) as [px|]; cbn [mbind result_bind throw]; [|by intros [= <-]]);
    (destruct (fle px fzero); [done|]);
    (destruct (json.FindString order kFillSz) as [z|]; [|done]);
    (destruct (sv_size z =? 0); [done|]); cbn [mbind result_bind];
    (destruct (strtod (sv_mem z)) as [sz|]; cbn [mbind result_bind throw]; [|by intros [= <-]]);
    by destruct (fle sz fzero).
Qed.

Lemma ForEachOrderEvent_upholds {S} (I : S → Prop) Q message (action : OrderEvent → M S unit) :
  (∀ e, Q (Exn e)) → (∀ event, upholds I Q (action event)) →
  upholds I Q (order_events.ForEachOrderEvent message action).
Proof.
  intros HQ Ha. unfold order_events.ForEachOrderEvent. destruct (negb _); [apply upholds_ret|].
  apply json.ForEachArrayElement_upholds.
  - intros x. apply upholds_bind; [|done]. apply upholds_lift.
    intros y Hy. apply order_event_exn in Hy as [H1 H2]. by destruct y.
  - intros x s Hz s' Hok. unfold mbind, M_bind, lift in Hok.
    destruct (order_events.order_event x) eqn:E; [|done]. by eapply order_event_empty.
Qed.

(** ** Histories of an order *)
Module OrderHistory.
Import Order.

(** Orders that the operations can produce, exceptions included. *)
Inductive reachable : t → Prop :=
  | r_make now cl inst side px sz : reachable (make now cl inst side px sz)
  | r_step i o : reachable o → reachable (step i o).2.

(** A sequence of operations, none of which throws. *)
Fixpoint run (reqs : list input) : M t unit :=
  match reqs with [] => mret tt | i :: reqs' => _ ← step i; run reqs' end.

Definition is_request (i : input) : Prop :=
  match i with CancelRequested _ | AmendRequested _ => True | _ => False end.

(** The fields that identify an order. *)
Definition identity (o : t) := (cl_ord_id_ o, inst_id_ o, side_ o, sz_ o).
(** Everything but the state machine and the time of the last request. *)
Definition body (o : t) := (ord_id_ o, identity o, px_ o, acc_fill_sz_ o, avg_px_ o).

Lemma step_fallback i o : live (pre_pending_state_ o) → live (pre_pending_state_ (step i o).2).
Proof.
  intros Hp. pose proof (order_step_refines i o) as H. destruct (step i o) as [[[]|x] o'].
  - simpl. unfold view in H.
    inversion H; subst; unfold live in *; simplify_eq/=; naive_solver.
  - destruct H as (_ & Hv & _). unfold view in Hv. simpl. by injection Hv as _ ->.
Qed.

Lemma step_identity i o :
  identity (step i o).2 = identity o ∧ (ord_id_ o ≠ [] → ord_id_ (step i o).2 = ord_id_ o).
Proof.
  destruct o as [oi ci ii sd px sz af ap st pre ps], i as [ev|now|now|]; cbn [step].
  - unfold ApplyEvent, mbind, M_bind, copy_event, modify, get. cbn [ord_id_ state_ pre_pending_state_].
    destruct (decide (oi = [])); destruct (ev_type ev), st; cbn; done.
  - unfold OnCancelRequested, mbind, M_bind, get. destruct st; cbn; done.
  - unfold OnAmendRequested, mbind, M_bind, get. destruct st; cbn; done.
  - unfold OnRequestRejected, mbind, M_bind, get. destruct st; cbn; done.
Qed.

Lemma request_view i o o' :
  is_request i → step i o = (Ok tt, o') →
  body o' = body o ∧
  pre_pending_state_ o' = (if decide (state_ o = kPendingAmend ∨ state_ o = kPendingCancel)
                           then pre_pending_state_ o else state_ o) ∧
  (state_ o' = kPendingAmend ∨ state_ o' = kPendingCancel).
Proof.
  destruct o as [oi ci ii sd px sz af ap st pre ps], i as [ev|now|now|]; cbn [is_request step];
    try done; intros _.
  - unfold OnCancelRequested, mbind, M_bind, get. destruct st; cbn; try done;
      intros [= <-]; cbn; auto.
  - unfold OnAmendRequested, mbind, M_bind, get. destruct st; cbn; try done;
      intros [= <-]; cbn; auto.
Qed.

Lemma requests_view reqs o o' :
  Forall is_request reqs → reqs ≠ [] → live (state_ o) → run reqs o = (Ok tt, o') →
  body o' = body o ∧ pre_pending_state_ o' = state_ o ∧
  (state_ o' = kPendingAmend ∨ state_ o' = kPendingCancel).
Proof.
  intros His Hne Hlive. destruct His as [|i reqs Hi His]; [done|]. clear Hne.
  cbn [run]. unfold mbind, M_bind. destruct (step i o) as [[[]|] o1] eqn:E1; [|done].
  destruct (request_view i o o1 Hi E1) as (Hb1 & Hp1 & Hs1).
  rewrite decide_False in Hp1
    by (destruct Hlive as [?|[?|?]]; intros [?|?]; congruence).
  clear E1. revert o1 Hb1 Hp1 Hs1. induction His as [|j js Hj _ IH]; intros o1 Hb1 Hp1 Hs1 Hrun.
  { by injection Hrun as <-. }
  cbn [run] in Hrun. unfold mbind, M_bind in Hrun.
  destruct (step j o1) as [[[]|] o2] eqn:E2; [|done].
  destruct (request_view j o1 o2 Hj E2) as (Hb2 & Hp2 & Hs2).
  rewrite decide_True in Hp2 by done. apply (IH o2); [by rewrite Hb2|by rewrite Hp2|done|done].
Qed.
End OrderHistory.

(** ** Properties *)

(** C4. Each operation of [Order] performs exactly the transitions of the
    state machine [trans]: when it returns, the transition it made is one of
    them; when it throws, the state is unchanged and no transition for this
    input exists. *)
Theorem order_refines_machine i o :
  match Order.step i o with
  | (Ok _, o') => Order.trans i (Order.view o) (Order.view o')
  | (Stop x, o') => exn_only x ∧ Order.view o' = Order.view o ∧
      ∀ v, ¬ Order.trans i (Order.view o) v
  end.
Proof. apply Order.order_step_refines. Qed.

(** In every reachable order the state that a rejected request falls
    back to is a live one, never a terminal or a pending one; and no operation
    changes the client order id, the instrument, the side or the size, nor
    the exchange's order id once it is known. *)
Theorem order_invariant i o :
  OrderHistory.reachable o →
  Order.live (Order.pre_pending_state_ o) ∧
  OrderHistory.identity (Order.step i o).2 = OrderHistory.identity o ∧
  (Order.ord_id_ o ≠ [] → Order.ord_id_ (Order.step i o).2 = Order.ord_id_ o).
Proof.
  intros Hr. split; [|apply OrderHistory.step_identity].
  induction Hr as [|j o _ IH]; [by left|by apply OrderHistory.step_fallback].
Qed.

Definition sample_event (t : OrderEventType) : OrderEvent :=
  MkEvent t (str "77") (str "1") (str "ETH-USDT") kBuy (str "10") (str "1") (str "0.5") (str "10") None.
Definition sample_order : Order.t :=
  (Order.step (Order.Event (sample_event kLive))
    (Order.make 0 (str "1") (str "ETH-USDT") kBuy (str "10") (str "1"))).2.
Lemma order_invariant_witness :
  Order.live (Order.pre_pending_state_ sample_order) ∧
  OrderHistory.identity (Order.step (Order.AmendRequested 5) sample_order).2 =
    OrderHistory.identity sample_order ∧
  (Order.ord_id_ sample_order ≠ [] →
   Order.ord_id_ (Order.step (Order.AmendRequested 5) sample_order).2 = Order.ord_id_ sample_order).
Proof. apply (order_invariant (Order.AmendRequested 5)). apply OrderHistory.r_step, OrderHistory.r_make. Defined.

(** An order that is filled, canceled or rejected stays so: every
    operation throws and leaves its state as it is.  (A late event still
    overwrites the filled size and the average price before it throws.) *)
Theorem terminal_absorbing i o :
  IsTerminal (Order.state_ o) = true →
  ∃ e, Order.step i o = (Stop (Exn e),
    match i with Order.Event ev => (Order.copy_event ev o).2 | _ => o end) ∧
    Order.state_ (Order.step i o).2 = Order.state_ o.
Proof.
  destruct o as [oi ci ii sd px sz af ap st pre ps]. intros Ht.
  destruct i as [ev|now|now|]; [destruct (ev_type ev) eqn:Et|..]; cbn [Order.step];
    unfold Order.ApplyEvent, Order.OnCancelRequested, Order.OnAmendRequested,
      Order.OnRequestRejected, mbind, M_bind, get, Order.copy_event, modify;
    rewrite ?Et; destruct st; try done; eexists; done.
Qed.

Lemma terminal_absorbing_witness :
  let o := (Order.step (Order.Event (sample_event kFill)) sample_order).2 in
  IsTerminal (Order.state_ o) = true ∧
  ∃ e, Order.step (Order.Event (sample_event kLive)) o =
      (Stop (Exn e), (Order.copy_event (sample_event kLive) o).2) ∧
    Order.state_ (Order.step (Order.Event (sample_event kLive)) o).2 = Order.state_ o.
Proof.
  split; [reflexivity|].
  exact (terminal_absorbing (Order.Event (sample_event kLive))
    (Order.step (Order.Event (sample_event kFill)) sample_order).2 eq_refl).
Defined.

(** A rejected request undoes it: after any series of amend and cancel
    requests on a live order, the rejection puts the order back into the live
    state it had before the first of them, with everything but the time stamp
    of the request as it was. *)
Theorem reject_restores reqs o o1 :
  Order.live (Order.state_ o) → reqs ≠ [] → Forall OrderHistory.is_request reqs →
  OrderHistory.run reqs o = (Ok tt, o1) →
  ∃ o2, Order.OnRequestRejected o1 = (Ok tt, o2) ∧
    Order.state_ o2 = Order.state_ o ∧ OrderHistory.body o2 = OrderHistory.body o.
Proof.
  intros Hlive Hne His Hrun.
  destruct (OrderHistory.requests_view reqs o o1 His Hne Hlive Hrun) as (Hb & Hp & Hs).
  unfold Order.OnRequestRejected, mbind, M_bind, get.
  rewrite decide_False by (intros [? ?]; destruct Hs; congruence).
  eexists. split; [done|]. by rewrite <-Hp, <-Hb.
Qed.

Lemma reject_restores_witness :
  ∃ o1 o2, OrderHistory.run [Order.AmendRequested 5; Order.CancelRequested 6] sample_order = (Ok tt, o1) ∧
    Order.OnRequestRejected o1 = (Ok tt, o2) ∧
    Order.state_ o2 = Order.state_ sample_order ∧
    OrderHistory.body o2 = OrderHistory.body sample_order.
Proof.
  eexists.
  edestruct (reject_restores [Order.AmendRequested 5; Order.CancelRequested 6] sample_order)
    as (o2 & H); [by right; left|discriminate|repeat constructor|reflexivity|].
  exists o2. split; [reflexivity|exact H].
Defined.

(** When a fill arrives while a request is pending, the order leaves the
    pending state, so that the rejection of the request, which is then the
    exchange's answer, throws. *)
Theorem reject_after_fill_throws ev o o1 :
  Order.state_ o = kPendingCancel ∨ Order.state_ o = kPendingAmend →
  ev_type ev = kPartialFill ∨ ev_type ev = kFill →
  Order.ApplyEvent ev o = (Ok tt, o1) →
  ∃ e, Order.OnRequestRejected o1 = (Stop (Exn e), o1).
Proof.
  intros Hs He Hev. pose proof (Order.order_step_refines (Order.Event ev) o) as H.
  cbn [Order.step] in H. rewrite Hev in H. unfold Order.view in H.
  assert (Order.state_ o1 = kPartiallyFilled ∨ Order.state_ o1 = kFilled) as Hs1.
  { inversion H; subst; destruct Hs as [Hs|Hs], He as [He|He]; (congruence || auto). }
  unfold Order.OnRequestRejected, mbind, M_bind, get.
  rewrite decide_True by (destruct Hs1 as [-> | ->]; done). by eexists.
Qed.

Lemma reject_after_fill_throws_witness :
  ∃ o1 e, Order.ApplyEvent (sample_event kPartialFill)
      (Order.step (Order.AmendRequested 5) sample_order).2 = (Ok tt, o1) ∧
    Order.OnRequestRejected o1 = (Stop (Exn e), o1).
Proof.
  eexists. edestruct (reject_after_fill_throws (sample_event kPartialFill)
    (Order.step (Order.AmendRequested 5) sample_order).2) as (e & H);
    [right; reflexivity|left; reflexivity|reflexivity|].
  exists e. split; [reflexivity|exact H].
Defined.

(** A message of the orders channel whose data is an array of orders
    (each without escaped quotes) calls the action once for each order, in
    order, with the event that its fields say; an order without a known state
    or with an unreadable fill ends the calls with an exception.  A fill is
    reported only with a positive price and size. *)
Theorem order_events_delivered message p w es rest segs S (action : OrderEvent → M S unit) s :
  opt_eqb (json.FindString message kChannel) kOrdersChannel = true →
  json.FindValueStart message kData = Some p → sv_wf (sv_from message p) →
  sv_text (sv_from message p) = json.print (json.JArray w es) ++ rest →
  json.jwf (json.JArray w es) = true →
  Forall2 (λ e x, json.print e.1.2 = x.1 ++ json.segs_text x.2 ∧
    ∀ k, k ∈ event_reference.order_keys → json.segs_ok k x.1 x.2) es segs →
  order_events.ForEachOrderEvent message action s =
    json.visit (λ x, ev ← lift (event_reference.event_of (x.1 ++ json.segs_text x.2)
      (λ k, json.string_of_key k x.2)); action ev) segs s.
Proof.
  intros Hch Hp Hwf Ht Hx Hsegs.
  destruct (json.array_of_key message kData p w es rest Hp Hwf Ht Hx) as (views & Htx & Hvwf & Hloop).
  unfold order_events.ForEachOrderEvent. rewrite Hch. cbn [negb].
  rewrite Hloop. clear Hloop Ht Hx. revert views segs s Htx Hvwf Hsegs.
  induction es as [|e es IH]; intros [|v views] [|x segs] s Htx Hvwf Hsegs; try done;
    try (by inversion Hsegs).
  cbn [fmap list_fmap] in Htx. injection Htx as Hv Htx.
  apply Forall2_cons in Hsegs as [[Hpr Hok] Hsegs]. apply Forall_cons in Hvwf as [Hvw Hvwf].
  cbn [json.visit].
  assert (order_events.order_event v = event_reference.event_of (x.1 ++ json.segs_text x.2)
    (λ k, json.string_of_key k x.2)) as ->.
  { rewrite <-Hpr, <-Hv. apply event_reference.order_event_fields; [done|].
    intros k Hk. apply json.FindString_segs with (g0 := x.1); [done| |by apply Hok].
    by rewrite Hv, Hpr. }
  unfold mbind, M_bind, lift. destruct (event_reference.event_of _ _) as [ev|]; [|done].
  destruct (action ev s) as [[[]|] s1]; [|done]. by apply IH.
Qed.

Definition sample_order_segs : list Z * list (list Z * list Z) :=
  (str "{", [(str "ordId", str ":"); (str "77", str ","); (str "clOrdId", str ":"); (str "1", str ",");
    (str "state", str ":"); (str "partially_filled", str ","); (str "fillPx", str ":");
    (str "10.5", str ","); (str "fillSz", str ":"); (str "2", str "}")]).
Definition sample_order_json : json.jval :=
  json.JObject [] ((λ '(k, v), ([], str k, [], ([], json.JString (str v), []))) <$>
    [("ordId", "77"); ("clOrdId", "1"); ("state", "partially_filled"); ("fillPx", "10.5");
     ("fillSz", "2")]%string).
Definition sample_orders_message : string_view :=
  sv_of (qstr "{'arg':{'channel':'orders'},'data':[" ++ json.print sample_order_json ++ str "]}").
Lemma order_events_delivered_witness :
  order_events.ForEachOrderEvent sample_orders_message (λ ev, modify (λ l, l ++ [ev])) [] =
    (Ok tt, [MkEvent kPartialFill (str "77") (str "1") [] [] [] [] [] []
      (Some (MkFill (f_of_decimal false 105 (-1)) (f_of_Z 2)))]).
Proof.
  rewrite (order_events_delivered sample_orders_message
    (default 0 (json.FindValueStart sample_orders_message kData)) []
    [([], sample_order_json, [])] (str "}") [sample_order_segs]).
  - vm_compute. reflexivity.
  - vm_compute. reflexivity.
  - vm_compute. reflexivity.
  - unfold sv_wf. vm_compute. lia.
  - vm_compute. reflexivity.
  - vm_compute. reflexivity.
  - constructor; [|constructor]. split; [vm_compute; reflexivity|].
    intros k Hk. unfold event_reference.order_keys in Hk.
    repeat (apply elem_of_cons in Hk as [->|Hk];
      [split; [reflexivity|split; [reflexivity|]];
       repeat (constructor; [split; [reflexivity|split; [reflexivity|discriminate]]|]);
       constructor|]).
    by apply elem_of_nil in Hk.
Defined.
