(* ===== verification/OrderStore.v ===== *)
(** * The order store: okx/orders/order_store.*

    A fixed array of 1024 slots whose first [count_] hold the open orders,
    sorted by client order id.  A pointer to an order is its slot index.  The
    array code refines a finite map from client order ids to orders. *)

From S2P Require Import Prelude Float64 Json Okx OrderLifecycle.

Module OrderStore.
Definition kCapacity : nat := 1024.

(** [on_remove_] is set or not; a call of it is an output of [Remove]. *)
Record t := Mk { slots_ : list (option Order.t); count_ : nat; on_remove_ : bool }.
Definition empty : t := Mk (replicate kCapacity None) 0 false.
Definition SetOnRemove (s : t) : t := Mk (slots_ s) (count_ s) true.
Definition Size (s : t) : nat := count_ s.

Definition At (i : nat) (s : t) : result Order.t :=
  slot ← aget (slots_ s) i;
  match slot with
  | None => throw (runtime_error "OrderStore slot {} unexpectedly empty" [to_string (Z.of_nat i)])
  | Some o => Ok o
  end.

Definition LowerBound (cl_ord_id : list Z) (s : t) : result nat :=
  lower_bound (count_ s) (λ mid, o ← At mid s; Ok (bytes_ltb (Order.cl_ord_id_ o) cl_ord_id)).

Definition Add (now : Z) (cl_ord_id inst_id side px sz : list Z) : M t unit :=
  s ← get;
  if kCapacity <=? count_ s then throwM (runtime_error "OrderStore is full" [])
  else
    i ← lift (LowerBound cl_ord_id s);
    slots ← lift (shift_right i (count_ s) (slots_ s));
    slots ← lift (aset slots i (Some (Order.make now cl_ord_id inst_id side px sz)));
    put (Mk slots (count_ s + 1) (on_remove_ s)).

(** [At(i).ClOrdId() == cl_ord_id], for an [i] below [count_]. *)
Definition holds_at (i : nat) (cl_ord_id : list Z) (s : t) : result bool :=
  if count_ s <=? i then Ok false
  else o ← At i s; Ok (bool_decide (Order.cl_ord_id_ o = cl_ord_id)).

(** Returns the id that the listener is called with. *)
Definition Remove (cl_ord_id : list Z) : M t (option (list Z)) :=
  s ← get;
  i ← lift (LowerBound cl_ord_id s);
  found ← lift (holds_at i cl_ord_id s);
  if negb found then mret None
  else
    let notified := if on_remove_ s then Some cl_ord_id else None in
    slots ← lift (shift_left i (count_ s) (slots_ s));
    slots ← lift (aset slots (usub (count_ s) 1) None);
    _ ← put (Mk slots (usub (count_ s) 1) (on_remove_ s));
    mret notified.

(** The callbacks of the code read the orders they are given; [X] is what
    they change. *)
Fixpoint ForEach_loop {X} (n i : nat) (action : Order.t → M X unit) (s : t) : M X unit :=
  match n with
  | O => mret tt
  | S n' => o ← lift (At i s); _ ← action o; ForEach_loop n' (S i) action s
  end.
Definition ForEach {X} (action : Order.t → M X unit) (s : t) : M X unit :=
  ForEach_loop (count_ s) 0 action s.

Definition FindByClOrdId (cl_ord_id : list Z) (s : t) : result (option nat) :=
  i ← LowerBound cl_ord_id s;
  found ← holds_at i cl_ord_id s;
  Ok (if found : bool then Some i else None).

Fixpoint FindByOrdId_loop (n i : nat) (ord_id : list Z) (s : t) : result (option nat) :=
  match n with
  | O => Ok None
  | S n' =>
      o ← At i s;
      if decide (Order.ord_id_ o = ord_id) then Ok (Some i)
      else FindByOrdId_loop n' (S i) ord_id s
  end.
Definition FindByOrdId (ord_id : list Z) (s : t) : result (option nat) :=
  FindByOrdId_loop (count_ s) 0 ord_id s.

(** An operation on the order behind a pointer. *)
Definition with_order {A} (i : nat) (m : M Order.t A) : M t A := λ s,
  match At i s with
  | Ok o => let '(r, o') := m o in
      (r, Mk (<[i := Some o']> (slots_ s)) (count_ s) (on_remove_ s))
  | Stop x => (Stop x, s)
  end.

(** ** What a store represents *)
Definition cl (o : Order.t) : list Z := Order.cl_ord_id_ o.
Definition slots_of (os : list Order.t) : list (option Order.t) :=
  (Some <$> os) ++ replicate (kCapacity - length os) None.
Definition before (a b : Order.t) : Prop := bytes_ltb (cl a) (cl b) = true.
Definition wf (s : t) (os : list Order.t) : Prop :=
  slots_ s = slots_of os ∧ count_ s = length os ∧ length os ≤ kCapacity ∧
  StronglySorted before os.
(** The same without the order of the keys. *)
Definition rep (s : t) (os : list Order.t) : Prop :=
  slots_ s = slots_of os ∧ count_ s = length os ∧ length os ≤ kCapacity.
Definition orders (os : list Order.t) : gmap (list Z) Order.t :=
  list_to_map ((λ o, (cl o, o)) <$> os).

Lemma store_wf_empty : wf empty [].
Proof. split_and!; [done|done|simpl; lia|constructor]. Qed.

Lemma lookup_slots_of os i :
  slots_of os !! i = if decide (i < length os) then Some (os !! i)
    else if decide (i < kCapacity) then Some None else None.
Proof.
  unfold slots_of. rewrite lookup_app_dec, length_fmap. case_decide.
  - rewrite list_lookup_fmap. destruct (lookup_lt_is_Some_2 os i) as [o ->]; [done|done].
  - case_decide; [apply lookup_replicate_2; lia|apply lookup_replicate_None; lia].
Qed.
Lemma length_slots_of os : length os ≤ kCapacity → length (slots_of os) = kCapacity.
Proof. intros. unfold slots_of. rewrite length_app, length_fmap, length_replicate. lia. Qed.

Lemma wf_rep s os : wf s os → rep s os.
Proof. intros (? & ? & ? & _). by split_and!. Qed.
Lemma At_rep s os i o : rep s os → os !! i = Some o → At i s = Ok o.
Proof.
  intros (Hs & _) Hi. unfold At.
  rewrite (aget_Some _ _ (Some o)); [done|]. rewrite Hs, lookup_slots_of, Hi.
  by rewrite decide_True by (by apply lookup_lt_Some in Hi).
Qed.

Section represented.
Context (s : t) (os : list Order.t) (Hwf : wf s os).

Lemma At_wf i o : os !! i = Some o → At i s = Ok o.
Proof using Hwf. apply At_rep. by apply wf_rep. Qed.

Lemma LowerBound_wf k :
  ∃ r, LowerBound k s = Ok r ∧ r ≤ length os ∧
    (∀ i o, i < r → os !! i = Some o → bytes_ltb (cl o) k = true) ∧
    (∀ i o, r ≤ i → os !! i = Some o → bytes_ltb (cl o) k = false).
Proof using Hwf.
  pose proof Hwf as (Hs & Hc & Hlen & Hsort).
  assert (∀ i, i < length os → ∃ o, os !! i = Some o) as Hget
    by (intros; by apply lookup_lt_is_Some_2).
  destruct (lower_bound_spec (count_ s) (λ mid, o ← At mid s; Ok (bytes_ltb (cl o) k))
    (λ i, match os !! i with Some o => bytes_ltb (cl o) k | None => false end))
    as (r & HLB & Hr & Hlo & Hhi).
  - intros i Hi. destruct (Hget i) as [o Ho]; [lia|]. by rewrite (At_wf _ _ Ho), Ho.
  - intros i j Hij Hj. destruct (Hget i) as [a Ha]; [lia|].
    destruct (Hget j) as [b Hb]; [lia|]. rewrite Ha, Hb.
    destruct (decide (i = j)) as [->|]; [congruence|]. intros H.
    eapply bytes_ltb_trans; [|exact H].
    exact (StronglySorted_lookup_lt before os i j a b Hsort Ha Hb ltac:(lia)).
  - exists r. split_and!; [done|lia|..].
    + intros i o Hi Ho. specialize (Hlo i Hi). by rewrite Ho in Hlo.
    + intros i o Hi Ho. assert (i < count_ s) by (apply lookup_lt_Some in Ho; lia).
      specialize (Hhi i Hi ltac:(done)). by rewrite Ho in Hhi.
Qed.

(** The index that [LowerBound] finds holds the key exactly when it is present. *)
Lemma key_at k r :
  r ≤ length os →
  (∀ i o, i < r → os !! i = Some o → bytes_ltb (cl o) k = true) →
  (∀ i o, r ≤ i → os !! i = Some o → bytes_ltb (cl o) k = false) →
  holds_at r k s = Ok (bool_decide (cl <$> os !! r = Some k)) ∧
  ∀ i o, os !! i = Some o → cl o = k → i = r.
Proof using Hwf.
  intros Hr Hlo Hhi. pose proof Hwf as (Hs & Hc & Hlen & Hsort). split.
  - unfold holds_at. rewrite Hc. destruct (Nat.leb_spec (length os) r) as [Hge|Hlt].
    + rewrite (lookup_ge_None_2 os r) by done. done.
    + destruct (lookup_lt_is_Some_2 os r Hlt) as [o Ho]. rewrite (At_wf _ _ Ho), Ho.
      cbn [mbind result_bind fmap option_fmap option_map]. f_equal. unfold cl.
      by destruct (decide (Order.cl_ord_id_ o = k)) as [Hk|Hk];
        [rewrite !bool_decide_true by congruence|rewrite !bool_decide_false by congruence].
  - intros i o Ho Hk. destruct (lt_eq_lt_dec i r) as [[Hlt|]|Hgt]; [|done|].
    + specialize (Hlo i o Hlt Ho). rewrite Hk in Hlo. by rewrite bytes_ltb_irrefl in Hlo.
    + assert (r < length os) as Hr' by (apply lookup_lt_Some in Ho; lia).
      destruct (lookup_lt_is_Some_2 os r Hr') as [x Hx].
      specialize (Hhi r x ltac:(done) Hx).
      pose proof (StronglySorted_lookup_lt before os r i x o Hsort Hx Ho Hgt) as Hb.
      unfold before in Hb. rewrite Hk in Hb. congruence.
Qed.
End represented.

(** ** Operations on the represented list *)

(** Insertion and removal at the index that the search returns. *)
Lemma Add_at s os now k inst side px sz r :
  rep s os → length os < kCapacity → LowerBound k s = Ok r → r ≤ length os →
  ∃ s', Add now k inst side px sz s = (Ok tt, s') ∧
    slots_ s' = slots_of (take r os ++ Order.make now k inst side px sz :: drop r os) ∧
    count_ s' = S (length os) ∧ on_remove_ s' = on_remove_ s.
Proof.
  intros (Hs & Hc & Hlen) Hroom HLB Hr.
  unfold Add, mbind, M_bind, get, lift. rewrite Hc, (proj2 (Nat.leb_gt _ _)) by done. rewrite HLB.
  pose proof (length_slots_of os Hlen) as Hsl.
  destruct (shift_right_lookup r (length os) (slots_ s)) as (l' & Hsh & Hl' & Hlook);
    [done|rewrite Hs; lia|].
  rewrite Hsh, aset_lt by (rewrite Hl', Hs; lia). eexists. split; [done|].
  split_and!; [|simpl; lia|done]. cbn [slots_].
  apply list_eq. intros i. rewrite list_lookup_insert, Hlook, Hl', Hs, !lookup_slots_of.
  rewrite length_app, length_take. cbn [length]. rewrite length_drop.
  autorewrite with lookups. prune_cases; try first [lookup_close | f_equal; lookup_close].
Qed.
Lemma Remove_at s os k r o :
  rep s os → LowerBound k s = Ok r → holds_at r k s = Ok true → os !! r = Some o →
  ∃ s', Remove k s = (Ok (if on_remove_ s then Some k else None), s') ∧
    on_remove_ s' = on_remove_ s ∧
    slots_ s' = slots_of (take r os ++ drop (S r) os) ∧ count_ s' = length os - 1.
Proof.
  intros (Hs & Hc & Hlen) HLB Hat Ho.
  unfold Remove, mbind, M_bind, get, lift. rewrite HLB, Hat. cbn [negb].
  assert (r < length os) as Hrl by (by apply lookup_lt_Some in Ho).
  pose proof (length_slots_of os Hlen) as Hsl. rewrite Hc.
  destruct (shift_left_lookup r (length os) (slots_ s)) as (l' & Hsh & Hl' & Hlook);
    [done|rewrite Hs; lia|].
  rewrite Hsh, usub_le, aset_lt by (rewrite ?Hl', ?Hs; lia).
  eexists. split; [done|]. split; [done|]. split_and!; [|done].
  cbn [slots_]. apply list_eq. intros i.
  rewrite list_lookup_insert, Hlook, Hl', Hs, !lookup_slots_of.
  rewrite length_app, length_take, length_drop.
  autorewrite with lookups. prune_cases; try first [lookup_close | f_equal; lookup_close].
Qed.

Lemma Add_list s os now k inst side px sz :
  wf s os → length os < kCapacity →
  ∃ r s', Add now k inst side px sz s = (Ok tt, s') ∧ r ≤ length os ∧
    (∀ i o, i < r → os !! i = Some o → bytes_ltb (cl o) k = true) ∧
    (∀ i o, r ≤ i → os !! i = Some o → bytes_ltb (cl o) k = false) ∧
    slots_ s' = slots_of (take r os ++ Order.make now k inst side px sz :: drop r os) ∧
    count_ s' = S (length os) ∧ on_remove_ s' = on_remove_ s.
Proof.
  intros Hwf Hroom. destruct (LowerBound_wf s os Hwf k) as (r & HLB & Hr & Hlo & Hhi).
  destruct (Add_at s os now k inst side px sz r (wf_rep _ _ Hwf) Hroom HLB Hr) as (s' & ? & ? & ? & ?).
  by exists r, s'.
Qed.

Lemma Remove_list s os k :
  wf s os →
  ∃ n s', Remove k s = (Ok n, s') ∧ on_remove_ s' = on_remove_ s ∧
    ((∀ o, o ∈ os → cl o ≠ k) ∧ n = None ∧ s' = s ∨
     ∃ r o, os !! r = Some o ∧ cl o = k ∧ n = (if on_remove_ s then Some k else None) ∧
       slots_ s' = slots_of (take r os ++ drop (S r) os) ∧ count_ s' = length os - 1).
Proof.
  intros Hwf. destruct (LowerBound_wf s os Hwf k) as (r & HLB & Hr & Hlo & Hhi).
  destruct (key_at s os Hwf k r Hr Hlo Hhi) as [Hat Huniq].
  case_bool_decide as Hk.
  - destruct (os !! r) as [o|] eqn:Ho; [|done]. simpl in Hk. injection Hk as Hk.
    destruct (Remove_at s os k r o (wf_rep _ _ Hwf) HLB Hat Ho) as (s' & HR & Hon & Hsl & Hct).
    eexists _, s'. split; [done|]. split; [done|]. right. by exists r, o.
  - unfold Remove, mbind, M_bind, get, lift. rewrite HLB, Hat. cbn [negb].
    eexists None, s. split; [done|]. split; [done|]. left. split; [|done].
    intros o Ho Hko. apply list_elem_of_lookup in Ho as [i Hi].
    pose proof (Huniq i o Hi Hko) as ->. by rewrite Hi in Hk; simpl in Hk; congruence.
Qed.

Lemma FindByClOrdId_list s os k :
  wf s os →
  ∃ r, FindByClOrdId k s = Ok r ∧
    match r with
    | Some i => ∃ o, os !! i = Some o ∧ cl o = k
    | None => ∀ o, o ∈ os → cl o ≠ k
    end.
Proof.
  intros Hwf. destruct (LowerBound_wf s os Hwf k) as (r & HLB & Hr & Hlo & Hhi).
  destruct (key_at s os Hwf k r Hr Hlo Hhi) as [Hat Huniq].
  unfold FindByClOrdId. rewrite HLB. cbn [mbind result_bind]. rewrite Hat. cbn [mbind result_bind].
  eexists. split; [done|]. case_bool_decide as Hk.
  - destruct (os !! r) as [o|] eqn:Ho; [|done]. simpl in Hk. injection Hk as Hk. eauto.
  - intros o Ho Hko. apply list_elem_of_lookup in Ho as [i Hi].
    pose proof (Huniq i o Hi Hko) as ->. by rewrite Hi in Hk; simpl in Hk; congruence.
Qed.

Lemma FindByOrdId_list s os q :
  wf s os →
  ∃ r, FindByOrdId q s = Ok r ∧
    match r with
    | Some i => ∃ o, os !! i = Some o ∧ Order.ord_id_ o = q
    | None => ∀ o, o ∈ os → Order.ord_id_ o ≠ q
    end.
Proof.
  intros Hwf. pose proof Hwf as (_ & Hc & _). unfold FindByOrdId. rewrite Hc.
  assert (∀ n i, i + n = length os → (∀ j o, j < i → os !! j = Some o → Order.ord_id_ o ≠ q) →
    ∃ r, FindByOrdId_loop n i q s = Ok r ∧
    match r with
    | Some i => ∃ o, os !! i = Some o ∧ Order.ord_id_ o = q
    | None => ∀ o, o ∈ os → Order.ord_id_ o ≠ q
    end) as Hloop.
  { induction n as [|n IH]; intros i Hin Hlo; cbn [FindByOrdId_loop].
    - exists None. split; [done|]. intros o [j Hj]%list_elem_of_lookup.
      apply (Hlo j); [|done]. apply lookup_lt_Some in Hj. lia.
    - destruct (lookup_lt_is_Some_2 os i) as [o Ho]; [lia|].
      rewrite (At_wf s os Hwf i o Ho). cbn [mbind result_bind]. case_decide as Hq.
      { exists (Some i). eauto. }
      apply IH; [lia|]. intros j x Hj Hx. destruct (decide (j = i)) as [->|]; [congruence|].
      apply (Hlo j); [lia|done]. }
  apply Hloop; [lia|]. intros; lia.
Qed.

Lemma ForEach_list {X} s os (action : Order.t → M X unit) x :
  wf s os → ForEach action s x = json.visit action os x.
Proof.
  intros Hwf. pose proof Hwf as (_ & Hc & _). unfold ForEach. rewrite Hc.
  assert (∀ n i x, i + n = length os →
    ForEach_loop n i action s x = json.visit action (drop i os) x) as Hloop.
  { induction n as [|n IH]; intros i y Hin.
    - rewrite drop_ge by lia. done.
    - destruct (lookup_lt_is_Some_2 os i) as [o Ho]; [lia|].
      rewrite (drop_S os o i Ho).
      cbn [ForEach_loop json.visit]. unfold mbind, M_bind, lift.
      rewrite (At_wf s os Hwf i o Ho). destruct (action o y) as [[[]|] y']; [|done].
      apply IH. lia. }
  apply Hloop. lia.
Qed.

Lemma with_order_list {A} s os i o (m : M Order.t A) :
  wf s os → os !! i = Some o → cl (m o).2 = cl o →
  ∃ s', with_order i m s = ((m o).1, s') ∧ wf s' (<[i := (m o).2]> os) ∧
    on_remove_ s' = on_remove_ s.
Proof.
  intros Hwf Ho Hcl. unfold with_order. rewrite (At_wf s os Hwf i o Ho).
  destruct (m o) as [r o'] eqn:Em. cbn [fst snd] in *. eexists. split; [done|]. split; [|done].
  destruct Hwf as (Hs & Hc & Hlen & Hsort).
  pose proof (lookup_lt_Some _ _ _ Ho) as Hi.
  split_and!; cbn [slots_ count_]; [|by rewrite length_insert|by rewrite length_insert|].
  - apply list_eq. intros j. rewrite list_lookup_insert, Hs, length_slots_of by done.
    rewrite !lookup_slots_of, length_insert, list_lookup_insert. prune_cases; try first [lookup_close | f_equal; lookup_close].
  - clear - Hsort Ho Hcl. revert i Ho. induction Hsort as [|x os Hs IH Hx]; intros [|i] Ho; try done.
    + injection Ho as ->. constructor; [done|]. eapply Forall_impl; [exact Hx|].
      intros y. unfold before. by rewrite Hcl.
    + constructor; [by apply IH|]. apply Forall_insert; [done|].
      rewrite Forall_lookup in Hx. unfold before. rewrite Hcl. by apply (Hx i).
Qed.

(** ** Keys *)
Lemma sorted_keys os : StronglySorted before os → NoDup (cl <$> os).
Proof.
  induction 1 as [|x os Hs IH Hx]; [constructor|]. rewrite fmap_cons. constructor; [|done].
  intros (y & Hy & Hin)%list_elem_of_fmap. rewrite Forall_forall in Hx. specialize (Hx y Hin).
  unfold before in Hx. rewrite Hy in Hx. by rewrite bytes_ltb_irrefl in Hx.
Qed.
Lemma orders_lookup os k o :
  StronglySorted before os → orders os !! k = Some o ↔ o ∈ os ∧ cl o = k.
Proof.
  intros Hs. unfold orders. rewrite <-elem_of_list_to_map.
  2:{ rewrite <-list_fmap_compose. by apply sorted_keys. }
  rewrite list_elem_of_fmap. split.
  - intros (x & [= -> ->] & Hx). done.
  - intros [Ho <-]. by exists o.
Qed.
Lemma orders_None os k : orders os !! k = None ↔ ∀ o, o ∈ os → cl o ≠ k.
Proof.
  unfold orders. rewrite <-not_elem_of_list_to_map, list_elem_of_fmap. split.
  - intros H o Ho Hk. apply H. exists (k, o). split; [done|].
    apply list_elem_of_fmap. exists o. by rewrite Hk.
  - intros H ([k' o] & -> & (x & Heq & Hx)%list_elem_of_fmap). injection Heq as -> ->.
    by apply (H x).
Qed.


(** ** Operations on the map *)
Lemma orders_size os : StronglySorted before os → size (orders os) = length os.
Proof.
  intros Hs. unfold orders. rewrite <-(length_fmap (λ o, (cl o, o)) os).
  apply map_size_list_to_map. rewrite <-list_fmap_compose. by apply sorted_keys.
Qed.
Lemma orders_index os i o :
  StronglySorted before os → os !! i = Some o → orders os !! cl o = Some o.
Proof. intros Hs Ho. apply orders_lookup; [done|]. split; [|done]. by eapply list_elem_of_lookup_2. Qed.

Section map_operations.
Context (s : t) (os : list Order.t) (Hwf : wf s os).

Lemma FindByClOrdId_orders k o :
  orders os !! k = Some o → ∃ i, FindByClOrdId k s = Ok (Some i) ∧ os !! i = Some o ∧ cl o = k.
Proof using Hwf.
  intros Ho. destruct (FindByClOrdId_list s os k Hwf) as (r & Hr & Hi). pose proof Hwf as (_ & _ & _ & Hsort).
  destruct r as [i|]; [|apply orders_None in Hi; congruence]. destruct Hi as (x & Hx & Hk). exists i.
  pose proof (orders_index os i x Hsort Hx) as H. rewrite Hk, Ho in H. by injection H as ->.
Qed.
Lemma Add_spec now k inst side px sz :
  orders os !! k = None → length os < kCapacity →
  ∃ s' os', Add now k inst side px sz s = (Ok tt, s') ∧ wf s' os' ∧
    orders os' = <[k := Order.make now k inst side px sz]> (orders os) ∧
    on_remove_ s' = on_remove_ s.
Proof using Hwf.
  intros Hfresh Hroom. rewrite orders_None in Hfresh.
  destruct (Add_list s os now k inst side px sz Hwf Hroom)
    as (r & s' & HAdd & Hr & Hlo & Hhi & Hsl & Hc & Hon).
  set (o := Order.make now k inst side px sz) in *.
  set (os' := take r os ++ o :: drop r os) in *.
  destruct Hwf as (Hs & Hcount & Hlen & Hsort).
  assert (StronglySorted before os') as Hsort'.
  { rewrite <-(take_drop r os) in Hsort.
    assert (∀ x, x ∈ take r os → before x o) as H1.
    { intros x (i & Hi)%list_elem_of_lookup. rewrite lookup_take in Hi. case_decide; [|done].
      by apply (Hlo i). }
    assert (∀ x, x ∈ drop r os → before o x) as H2.
    { intros x Hx. pose proof Hx as (i & Hi)%list_elem_of_lookup. rewrite lookup_drop in Hi.
      apply bytes_ltb_total; [by apply (Hhi (r + i)); [lia|]|].
      apply Hfresh. by eapply list_elem_of_lookup_2. }
    apply StronglySorted_app_2.
    - intros x y Hx [->|Hy]%elem_of_cons; [by apply H1|].
      by eapply (StronglySorted_app_1_elem_of before).
    - by apply StronglySorted_app_1_l in Hsort.
    - constructor; [by apply StronglySorted_app_1_r in Hsort|]. by apply Forall_forall. }
  exists s', os'. split; [done|]. split; [|split; [|done]].
  - split_and!; [done| | |done]; unfold os'; rewrite ?Hc, length_app, length_take; simpl;
      rewrite length_drop; lia.
  - apply map_eq. intros k'. destruct (decide (k' = k)) as [->|Hne].
    + rewrite lookup_insert_eq. apply orders_lookup; [done|]. unfold os'. split; [set_solver|done].
    + rewrite lookup_insert_ne by done. apply option_eq. intros x.
      rewrite !orders_lookup by done. unfold os'. rewrite <-(take_drop r os) at 3.
      rewrite !elem_of_app, elem_of_cons. naive_solver.
Qed.

Lemma Add_full now k inst side px sz :
  length os = kCapacity →
  Add now k inst side px sz s = (Stop (Exn (runtime_error "OrderStore is full" [])), s).
Proof using Hwf.
  intros Hfull. destruct Hwf as (_ & Hc & _). unfold Add, mbind, M_bind, get.
  by rewrite Hc, Hfull, (proj2 (Nat.leb_le _ _)) by done.
Qed.

Lemma Remove_spec k :
  ∃ s' os', Remove k s =
      (Ok (if on_remove_ s && bool_decide (is_Some (orders os !! k)) then Some k else None), s') ∧
    wf s' os' ∧ orders os' = delete k (orders os) ∧ on_remove_ s' = on_remove_ s.
Proof using Hwf.
  destruct (Remove_list s os k Hwf) as (n & s' & HR & Hon & [(Hno & -> & ->)|(r & o & Ho & Hk & -> & Hsl & Hc)]);
    destruct Hwf as (Hs & Hcount & Hlen & Hsort).
  - exists s, os. apply orders_None in Hno.
    rewrite bool_decide_false by (rewrite Hno; by intros []). rewrite andb_false_r.
    split; [done|]. split; [done|]. split; [by rewrite delete_id|done].
  - set (os' := take r os ++ drop (S r) os) in *. exists s', os'.
    rewrite bool_decide_true by (rewrite <-Hk, (orders_index os r o) by done; by eexists).
    rewrite andb_true_r. pose proof (lookup_lt_Some _ _ _ Ho) as Hr.
    assert (StronglySorted before os') as Hsort'.
    { rewrite <-(take_drop_middle _ _ _ Ho) in Hsort. apply StronglySorted_app_2.
      - intros x y Hx Hy. eapply (StronglySorted_app_1_elem_of before); [exact Hsort|done|by right].
      - by apply StronglySorted_app_1_l in Hsort.
      - apply StronglySorted_app_1_r in Hsort. by apply StronglySorted_inv in Hsort as [? _]. }
    split; [done|]. split; [|split; [|done]].
    + split_and!; [done| | |done]; unfold os'; rewrite ?Hc, length_app, length_take, length_drop; lia.
    + apply map_eq. intros k'. destruct (decide (k' = k)) as [->|Hne].
      * rewrite lookup_delete_eq. apply orders_None. intros x Hx Hkx.
        apply sorted_keys in Hsort. rewrite <-(take_drop_middle _ _ _ Ho), fmap_app, fmap_cons in Hsort.
        apply NoDup_app in Hsort as (_ & Hdis & [Hnin _]%NoDup_cons).
        unfold os' in Hx. apply elem_of_app in Hx as [Hx|Hx].
        -- apply (Hdis (cl o)); [|left]. rewrite Hk, <-Hkx. by apply list_elem_of_fmap_2.
        -- apply Hnin. rewrite Hk, <-Hkx. by apply list_elem_of_fmap_2.
      * rewrite lookup_delete_ne by done. apply option_eq. intros x.
        rewrite !orders_lookup by done. unfold os'. rewrite <-(take_drop_middle _ _ _ Ho) at 3.
        rewrite !elem_of_app, elem_of_cons. naive_solver.
Qed.

Lemma FindByClOrdId_spec k :
  ∃ r, FindByClOrdId k s = Ok r ∧ orders os !! k = r ≫= λ i, os !! i.
Proof using Hwf.
  destruct (FindByClOrdId_list s os k Hwf) as (r & -> & Hr). exists r. split; [done|].
  destruct r as [i|]; simpl; [|by apply orders_None].
  destruct Hr as (o & Ho & <-). rewrite Ho. apply (orders_index os i); [apply Hwf|done].
Qed.

Lemma with_order_spec {A} i o (m : M Order.t A) :
  os !! i = Some o → cl (m o).2 = cl o →
  ∃ s' os', with_order i m s = ((m o).1, s') ∧ wf s' os' ∧
    orders os' = <[cl o := (m o).2]> (orders os) ∧ on_remove_ s' = on_remove_ s.
Proof using Hwf.
  intros Ho Hcl. destruct (with_order_list s os i o m Hwf Ho Hcl) as (s' & -> & Hwf' & Hon).
  exists s', (<[i := (m o).2]> os). split; [done|]. split; [done|]. split; [|done].
  destruct Hwf as (_ & _ & _ & Hsort), Hwf' as (_ & _ & _ & Hsort').
  pose proof (lookup_lt_Some _ _ _ Ho) as Hi.
  apply map_eq. intros k. destruct (decide (k = cl o)) as [->|Hne].
  - rewrite lookup_insert_eq, <-Hcl. apply (orders_index _ i); [done|].
    by rewrite list_lookup_insert_eq.
  - rewrite lookup_insert_ne by done. apply option_eq. intros x. rewrite !orders_lookup by done.
    split; intros [Hx Hk]; (split; [|done]).
    + apply list_elem_of_lookup in Hx as [j Hj]. rewrite list_lookup_insert in Hj.
      case_decide; [naive_solver congruence|]. by eapply list_elem_of_lookup_2.
    + apply list_elem_of_lookup in Hx as [j Hj]. apply list_elem_of_lookup. exists j.
      rewrite list_lookup_insert_ne; [done|]. intros ->. congruence.
Qed.
End map_operations.

(** ** Sequences of operations, on the array and on the map *)
Inductive op :=
  | OpAdd (now : Z) (cl_ord_id inst_id side px sz : list Z)
  | OpRemove (cl_ord_id : list Z)
  | OpUpdate (cl_ord_id : list Z) (i : Order.input)
  | OpFind (cl_ord_id : list Z).
Inductive answer :=
  | Done
  | Notified (cl_ord_id : option (list Z))
  | Found (o : option Order.t).

(** The order that [FindByClOrdId] points to. *)
Definition find_order (k : list Z) (s : t) : result (option Order.t) :=
  r ← FindByClOrdId k s;
  match r with None => Ok None | Some i => Some <$> At i s end.

Definition step (o : op) : M t answer :=
  match o with
  | OpAdd now k inst side px sz => _ ← Add now k inst side px sz; mret Done
  | OpRemove k => n ← Remove k; mret (Notified n)
  | OpUpdate k i =>
      s ← get;
      r ← lift (FindByClOrdId k s);
      match r with
      | None => mret Done
      | Some j => _ ← with_order j (Order.step i); mret Done
      end
  | OpFind k => s ← get; r ← lift (find_order k s); mret (Found r)
  end.

(** The same operations on a finite map that holds at most 1024 orders;
    [listen] says whether a listener is set. *)
Definition abs_step (listen : bool) (o : op) : M (gmap (list Z) Order.t) answer :=
  m ← get;
  match o with
  | OpAdd now k inst side px sz =>
      if decide (size m = kCapacity) then throwM (runtime_error "OrderStore is full" [])
      else _ ← put (<[k := Order.make now k inst side px sz]> m); mret Done
  | OpRemove k =>
      _ ← put (delete k m);
      mret (Notified (if listen && bool_decide (is_Some (m !! k)) then Some k else None))
  | OpUpdate k i =>
      match m !! k with
      | None => mret Done
      | Some x => let '(r, x') := Order.step i x in
          _ ← put (<[k := x']> m); _ ← lift r; mret Done
      end
  | OpFind k => mret (Found (m !! k))
  end.

(** Client order ids are generated fresh. *)
Definition op_ok (m : gmap (list Z) Order.t) (o : op) : Prop :=
  match o with OpAdd _ k _ _ _ _ => m !! k = None | _ => True end.

Lemma find_order_spec s os k : wf s os → find_order k s = Ok (orders os !! k).
Proof.
  intros Hwf. unfold find_order. destruct (FindByClOrdId_list s os k Hwf) as (r & -> & Hr).
  cbn [mbind result_bind]. destruct r as [i|].
  - destruct Hr as (o & Ho & <-). rewrite (At_wf s os Hwf i o Ho).
    by rewrite (orders_index os i o) by (done || apply Hwf).
  - apply orders_None in Hr. by rewrite Hr.
Qed.

Lemma store_step_refines s os o :
  wf s os → op_ok (orders os) o →
  ∃ s' os', step o s = ((abs_step (on_remove_ s) o (orders os)).1, s') ∧ wf s' os' ∧
    orders os' = (abs_step (on_remove_ s) o (orders os)).2 ∧ on_remove_ s' = on_remove_ s.
Proof.
  intros Hwf Hok. pose proof Hwf as (_ & _ & Hlen & Hsort).
  destruct o as [now k inst side px sz|k|k i|k]; cbn [step];
    unfold abs_step, mbind, M_bind, get, lift, put, throwM, mret, M_ret.
  - rewrite orders_size by done. case_decide as Hfull.
    + rewrite (Add_full s os Hwf) by done. by exists s, os.
    + destruct (Add_spec s os Hwf now k inst side px sz Hok) as (s' & os' & -> & ? & ? & ?); [lia|].
      by exists s', os'.
  - destruct (Remove_spec s os Hwf k) as (s' & os' & -> & ? & ? & ?). by exists s', os'.
  - destruct (FindByClOrdId_list s os k Hwf) as (r & -> & Hr). destruct r as [j|].
    + destruct Hr as (x & Hx & Hk). rewrite <-Hk, (orders_index os j x Hsort Hx).
      destruct (OrderHistory.step_identity i x) as [Hid _].
      destruct (with_order_spec s os Hwf j x (Order.step i) Hx) as (s' & os' & -> & Hwf' & Ho & Hon).
      { unfold cl, OrderHistory.identity in *. congruence. }
      destruct (Order.step i x) as [r x'] eqn:Es. cbn [fst snd] in *.
      exists s', os'. destruct r as [[]|y]; done.
    + apply orders_None in Hr. rewrite Hr. by exists s, os.
  - rewrite (find_order_spec s os k Hwf). by exists s, os.
Qed.

(** A run of operations; an exception is an answer, and the run goes on. *)
Fixpoint run {S} (step : op → M S answer) (ops : list op) (s : S) : list (result answer) * S :=
  match ops with
  | [] => ([], s)
  | o :: ops' =>
      let '(a, s') := step o s in
      let '(l, s'') := run step ops' s' in (a :: l, s'')
  end.
Fixpoint ops_ok (listen : bool) (ops : list op) (m : gmap (list Z) Order.t) : Prop :=
  match ops with
  | [] => True
  | o :: ops' => op_ok m o ∧ ops_ok listen ops' (abs_step listen o m).2
  end.

Lemma run_refines s os ops :
  wf s os → ops_ok (on_remove_ s) ops (orders os) →
  ∃ s' os', run step ops s = ((run (abs_step (on_remove_ s)) ops (orders os)).1, s') ∧
    wf s' os' ∧ orders os' = (run (abs_step (on_remove_ s)) ops (orders os)).2.
Proof.
  revert s os. induction ops as [|o ops IH]; intros s os Hwf Hok; [by exists s, os|].
  destruct Hok as [Ho Hok]. destruct (store_step_refines s os o Hwf Ho) as (s1 & os1 & H1 & Hwf1 & Ho1 & Hon).
  cbn [run]. rewrite H1. destruct (abs_step (on_remove_ s) o (orders os)) as [a m1]. cbn [fst snd] in *.
  subst m1. rewrite <-Hon in Hok. destruct (IH s1 os1 Hwf1 Hok) as (s2 & os2 & -> & Hwf2 & Ho2).
  rewrite Hon in *. exists s2, os2. by destruct (run (abs_step (on_remove_ s)) ops (orders os1)).
Qed.
End OrderStore.

(** ** Properties *)

(** C2. The store behaves as a finite map from client order ids to orders
    with room for 1024 of them: on any sequence of additions of fresh ids,
    removals, updates through the pointer [FindByClOrdId] returns, and
    lookups, it gives the answers of the map, exceptions included, and ends
    holding the map's orders, sorted, in its first slots. *)
Theorem store_refines_map ops :
  OrderStore.ops_ok true ops ∅ →
  ∃ s os, OrderStore.run OrderStore.step ops (OrderStore.SetOnRemove OrderStore.empty) =
      ((OrderStore.run (OrderStore.abs_step true) ops ∅).1, s) ∧
    OrderStore.wf s os ∧
    OrderStore.orders os = (OrderStore.run (OrderStore.abs_step true) ops ∅).2.
Proof. apply (OrderStore.run_refines (OrderStore.SetOnRemove OrderStore.empty) []), OrderStore.store_wf_empty. Qed.

Definition sample_ops : list OrderStore.op :=
  [OrderStore.OpAdd 0 (str "2") (str "ETH-USDT") kBuy (str "10") (str "1");
   OrderStore.OpAdd 0 (str "1") (str "ETH-USDT") kSell (str "12") (str "1");
   OrderStore.OpUpdate (str "2") (Order.Event (sample_event kLive));
   OrderStore.OpRemove (str "1"); OrderStore.OpRemove (str "1");
   OrderStore.OpFind (str "2")].
Lemma store_refines_map_witness :
  OrderStore.ops_ok true sample_ops ∅ ∧
  ∃ s os, OrderStore.run OrderStore.step sample_ops (OrderStore.SetOnRemove OrderStore.empty) =
      ((OrderStore.run (OrderStore.abs_step true) sample_ops ∅).1, s) ∧
    OrderStore.wf s os ∧
    OrderStore.orders os = (OrderStore.run (OrderStore.abs_step true) sample_ops ∅).2.
Proof.
  assert (OrderStore.ops_ok true sample_ops ∅) as Hok by (repeat split; vm_compute; reflexivity).
  split; [exact Hok|]. exact (store_refines_map sample_ops Hok).
Defined.

(** [FindByOrdId] on a store finds an order with the exchange's id when
    one is there, and [ForEach] calls its action on every order, in the order
    of the client order ids. *)
Theorem store_scans s os (q : list Z) X (action : Order.t → M X unit) x :
  OrderStore.wf s os →
  (∃ r, OrderStore.FindByOrdId q s = Ok r ∧
    match r with
    | Some i => ∃ o, os !! i = Some o ∧ Order.ord_id_ o = q
    | None => ∀ o, o ∈ os → Order.ord_id_ o ≠ q
    end) ∧
  OrderStore.ForEach action s x = json.visit action os x.
Proof. intros Hwf. split; [by apply OrderStore.FindByOrdId_list|by apply OrderStore.ForEach_list]. Qed.

Lemma store_scans_witness :
  let s := OrderStore.Mk (OrderStore.slots_of [sample_order]) 1 true in
  (∃ r, OrderStore.FindByOrdId (str "77") s = Ok r ∧
    match r with
    | Some i => ∃ o, [sample_order] !! i = Some o ∧ Order.ord_id_ o = str "77"
    | None => ∀ o, o ∈ [sample_order] → Order.ord_id_ o ≠ str "77"
    end) ∧
  OrderStore.ForEach (λ o, modify (cons (Order.cl_ord_id_ o))) s [] = (Ok tt, [str "1"]).
Proof.
  apply (store_scans (OrderStore.Mk (OrderStore.slots_of [sample_order]) 1 true) [sample_order]
    (str "77") _ (λ o, modify (cons (Order.cl_ord_id_ o))) []).
  split; [reflexivity|]. split; [reflexivity|]. split; [vm_compute; lia|].
  repeat constructor.
Defined.
