(* ===== verification/World.v ===== *)
(** * The outside world, and the thin layers over it: rest/rest_client.*,
    okx/connectivity/auth.*, util/base64.*, util/sha1.*

    [World] lists what the program calls outside its own sources: clocks, the
    cycle counter, OpenSSL and libcurl.  An instance is a type of states of
    the outside world with these calls on it; everything below, and every
    theorem about it, is stated for all instances. *)

From S2P Require Import Prelude.

(** ** What is called *)

(** The options that are set on a curl handle when [curl_easy_perform] runs;
    a request with a body is a POST. *)
Record CurlOptions := MkCurl {
  curl_url : list Z; curl_post : option (list Z); curl_headers : list (list Z);
  curl_timeout_ms : Z; curl_connect_timeout_ms : Z }.
(** Its outcome: an error, or the chunks of the body in the order in which
    the write callback receives them, with the status. *)
Inductive CurlOutcome := CurlFailed (strerror : list Z) | CurlOk (chunks : list (list Z)) (status : Z).

(** The options that are set on the socket, on its TLS stream and on the TLS
    context. *)
Inductive TlsOption :=
  | DefaultVerifyPaths | NoDelay | VerifyPeer | HostNameVerification (host : list Z).

Class World (W : Type) := {
  steady_clock_now : W → Z * W;                     (* nanoseconds *)
  system_clock_now : W → Z * W;                     (* nanoseconds since the epoch *)
  ReadCounter : W → Z * W;
  RAND_bytes : nat → W → option (list Z) * W;
  uniform_int : Z → Z → W → Z * W;                  (* std::uniform_int_distribution *)
  (* the TLS stream: [inl] is the message of an exception *)
  resolver_resolve : list Z → list Z → W → (list Z + list (list Z)) * W;
  socket_connect : list (list Z) → W → (list Z + unit) * W;
  stream_set : TlsOption → W → (list Z + unit) * W;
  SSL_set_tlsext_host_name : list Z → W → bool * W;
  stream_handshake : W → (list Z + unit) * W;
  stream_write : list Z → W → (list Z + unit) * W;
  stream_read_some : nat → W → (list Z + list Z) * W;
  curl_easy_perform : CurlOptions → W → CurlOutcome * W;
  EVP_MAC_fetch : bool; EVP_MAC_CTX_new : bool;     (* the calls succeed *)
  EVP_MAC_hmac_sha256 : list Z → list Z → option (list Z);
  EVP_sha1 : list Z → option (list Z);
  EVP_EncodeBlock : list Z → list Z }.

(** A call as an effect, and one that can throw. *)
Definition ask {W A} (f : W → A * W) : M W A := λ w, let '(a, w') := f w in (Ok a, w').
Definition ask_or_throw {W A} (f : W → (list Z + A) * W) : M W A := λ w,
  match f w with
  | (inr a, w') => (Ok a, w')
  | (inl what, w') => (throw (runtime_error "{}" [what]), w')
  end.

Section layers.
Context {W : Type} `{!World W}.

Definition Base64Encode (data : list Z) : list Z := EVP_EncodeBlock data.

Definition Sha1 (message : list Z) : result (list Z) :=
  match EVP_sha1 message with
  | Some digest => Ok digest
  | None => throw (runtime_error "SHA-1 computation failed" [])
  end.

Definition HmacSha256 (message secret : list Z) : result (list Z) :=
  if negb EVP_MAC_fetch then throw (runtime_error "Failed to fetch HMAC implementation" [])
  else if negb EVP_MAC_CTX_new then throw (runtime_error "Failed to create HMAC context" [])
  else match EVP_MAC_hmac_sha256 secret message with
       | Some digest => Ok digest
       | None => throw (runtime_error "HMAC-SHA256 computation failed" [])
       end.
Definition HmacSha256Base64 (message secret : list Z) : result (list Z) :=
  Base64Encode <$> HmacSha256 message secret.

(** ** Time stamps *)

(** The proleptic Gregorian date of a day since 1970-01-01. *)
Definition civil_of_days (days : Z) : Z * Z * Z :=
  let z := (days + 719468)%Z in
  let era := (z / 146097)%Z in
  let doe := (z - era * 146097)%Z in
  let yoe := ((doe - doe / 1460 + doe / 36524 - doe / 146096) / 365)%Z in
  let doy := (doe - (365 * yoe + yoe / 4 - yoe / 100))%Z in
  let mp := ((5 * doy + 2) / 153)%Z in
  let d := (doy - (153 * mp + 2) / 5 + 1)%Z in
  let m := if (mp <? 10)%Z then (mp + 3)%Z else (mp - 9)%Z in
  ((yoe + era * 400 + if (m <=? 2)%Z then 1 else 0)%Z, m, d).

Definition iso_of_ms (ms : Z) : list Z :=
  let '(y, m, d) := civil_of_days (ms / 86400000) in
  let t := (ms mod 86400000)%Z in
  digits 4 y ++ str "-" ++ digits 2 m ++ str "-" ++ digits 2 d ++ str "T" ++
  digits 2 (t / 3600000) ++ str ":" ++ digits 2 (t / 60000 mod 60) ++ str ":" ++
  digits 2 (t / 1000 mod 60) ++ str "." ++ digits 3 (t mod 1000) ++ str "Z".

Definition IsoTimestampNow : M W (list Z) :=
  now ← ask system_clock_now; mret (iso_of_ms (now / 1000000)).
Definition UnixTimestampSecondsNow : M W (list Z) :=
  now ← ask system_clock_now; mret (to_string (now / 1000000000)).

(** ** Credentials *)
Inductive HttpMethod := kGet | kPost.
Definition method_name (m : HttpMethod) : list Z :=
  match m with kGet => str "GET" | kPost => str "POST" end.

Record OkxAuth := MkAuth { api_key_ : list Z; api_secret_ : list Z; passphrase_ : list Z }.

Definition SignHeaders (auth : OkxAuth) (method : HttpMethod) (request_path body : list Z)
    : M W (list (list Z)) :=
  timestamp ← IsoTimestampNow;
  let prehash := timestamp ++ method_name method ++ request_path ++ body in
  signature ← lift (HmacSha256Base64 prehash (api_secret_ auth));
  mret [str "OK-ACCESS-KEY: " ++ api_key_ auth; str "OK-ACCESS-SIGN: " ++ signature;
        str "OK-ACCESS-TIMESTAMP: " ++ timestamp; str "OK-ACCESS-PASSPHRASE: " ++ passphrase_ auth;
        str "Content-Type: application/json"; str "x-simulated-trading: 1"].

Definition kWsLoginPath := str "/users/self/verify".
Definition kWsLoginMethod := str "GET".
Definition SignWsLogin (auth : OkxAuth) : M W (list Z * list Z) :=
  timestamp ← UnixTimestampSecondsNow;
  let prehash := timestamp ++ kWsLoginMethod ++ kWsLoginPath in
  signature ← lift (HmacSha256Base64 prehash (api_secret_ auth));
  mret (timestamp, signature).
Definition BuildPrivateWsLoginMessage (auth : OkxAuth) : M W (list Z) :=
  x ← SignWsLogin auth;
  mret (qstr "{'op':'login','args':[{'apiKey':'" ++ api_key_ auth ++ qstr "','passphrase':'" ++
        passphrase_ auth ++ qstr "','timestamp':'" ++ x.1 ++ qstr "','sign':'" ++ x.2 ++ qstr "'}]}").
Definition SbeWsLoginHeaders (auth : OkxAuth) : M W (list (list Z)) :=
  x ← SignWsLogin auth;
  mret [str "OK-ACCESS-KEY: " ++ api_key_ auth; str "OK-ACCESS-SIGN: " ++ x.2;
        str "OK-ACCESS-TIMESTAMP: " ++ x.1; str "OK-ACCESS-PASSPHRASE: " ++ passphrase_ auth].

(** ** REST requests *)
Record HttpResponse := MkResponse { status_code : Z; body : list Z }.
Record RestClient := MkRest { base_url_ : list Z }.
Definition kTimeoutMs : Z := 5000.
Definition kConnectTimeoutMs : Z := 3000.

(** The callback that builds the body up from its chunks. *)
Definition WriteCallback (chunk body : list Z) : list Z := body ++ chunk.

Definition Perform (c : RestClient) (post : option (list Z)) (path : list Z)
    (headers : list (list Z)) : M W HttpResponse :=
  outcome ← ask (curl_easy_perform
    (MkCurl (base_url_ c ++ path) post headers kTimeoutMs kConnectTimeoutMs));
  match outcome with
  | CurlFailed e => throwM (runtime_error "Curl request failed: " [e])
  | CurlOk chunks status => mret (MkResponse (wrapS 32 status) (foldl (flip WriteCallback) [] chunks))
  end.
Definition Get (c : RestClient) (path : list Z) (headers : list (list Z)) : M W HttpResponse :=
  Perform c None path headers.
Definition Post (c : RestClient) (path body : list Z) (headers : list (list Z)) : M W HttpResponse :=
  Perform c (Some body) path headers.
End layers.

Example iso_sample : iso_of_ms 1785920937715 = str "2026-08-05T09:08:57.715Z".
Proof. vm_compute. reflexivity. Qed.

(** ** Recording

    A world that also keeps the list of the REST requests made. *)
Definition on_fst {W L A} (f : W → A * W) (w : W * L) : A * (W * L) :=
  let '(a, w') := f w.1 in (a, (w', w.2)).
Definition recording {W} (wo : World W) : World (W * list CurlOptions) := {|
  steady_clock_now := on_fst steady_clock_now; system_clock_now := on_fst system_clock_now;
  ReadCounter := on_fst ReadCounter; RAND_bytes := λ n, on_fst (RAND_bytes n);
  uniform_int := λ a b, on_fst (uniform_int a b);
  resolver_resolve := λ h p, on_fst (resolver_resolve h p);
  socket_connect := λ e, on_fst (socket_connect e); stream_set := λ o, on_fst (stream_set o);
  SSL_set_tlsext_host_name := λ h, on_fst (SSL_set_tlsext_host_name h);
  stream_handshake := on_fst stream_handshake; stream_write := λ d, on_fst (stream_write d);
  stream_read_some := λ n, on_fst (stream_read_some n);
  curl_easy_perform := λ o w,
    let '(r, w') := curl_easy_perform o w.1 in (r, (w', w.2 ++ [o]));
  EVP_MAC_fetch := EVP_MAC_fetch; EVP_MAC_CTX_new := EVP_MAC_CTX_new;
  EVP_MAC_hmac_sha256 := EVP_MAC_hmac_sha256; EVP_sha1 := EVP_sha1;
  EVP_EncodeBlock := EVP_EncodeBlock |}.

(** A world for examples: clocks that stand still, a digest that is the
    message, an exchange that answers [reply]. *)
Definition sample_world (clock : Z) (reply : list Z) : World unit := {|
  steady_clock_now := λ w, (clock, w); system_clock_now := λ w, (clock, w);
  ReadCounter := λ w, (clock, w); RAND_bytes := λ n w, (Some (replicate n 7%Z), w);
  uniform_int := λ a b w, (b, w); resolver_resolve := λ host _ w, (inr [host], w);
  socket_connect := λ _ w, (inr tt, w); stream_set := λ _ w, (inr tt, w);
  SSL_set_tlsext_host_name := λ _ w, (true, w); stream_handshake := λ w, (inr tt, w);
  stream_write := λ _ w, (inr tt, w); stream_read_some := λ _ w, (inr reply, w);
  curl_easy_perform := λ _ w, (CurlOk [reply] 200, w);
  EVP_MAC_fetch := true; EVP_MAC_CTX_new := true; EVP_MAC_hmac_sha256 := λ _ m, Some m;
  EVP_sha1 := Some; EVP_EncodeBlock := id |}.

(** What the exchange checks of a request: with the time stamp of the
    request, the signature is that of time stamp, method, path and body. *)
Definition header (name : list Z) (hs : list (list Z)) : option (list Z) :=
  drop (length name + 2) <$>
    List.find (λ h, bool_decide (take (length name + 2) h = name ++ str ": ")) hs.
Definition verifies {W} `{!World W} (rest : RestClient) (auth : OkxAuth) (o : CurlOptions) : Prop :=
  ∃ path timestamp signature,
    curl_url o = base_url_ rest ++ path ∧
    header (str "OK-ACCESS-KEY") (curl_headers o) = Some (api_key_ auth) ∧
    header (str "OK-ACCESS-PASSPHRASE") (curl_headers o) = Some (passphrase_ auth) ∧
    header (str "OK-ACCESS-TIMESTAMP") (curl_headers o) = Some timestamp ∧
    header (str "OK-ACCESS-SIGN") (curl_headers o) = Some signature ∧
    HmacSha256Base64 (timestamp ++ method_name (if curl_post o then kPost else kGet) ++
      path ++ default [] (curl_post o)) (api_secret_ auth) = Ok signature.

Lemma header_here name v hs : header name ((name ++ str ": " ++ v) :: hs) = Some v.
Proof.
  unfold header. cbn [List.find]. rewrite app_assoc.
  replace (length name + 2) with (length (name ++ str ": ")) by (rewrite length_app; done).
  rewrite take_app_length, bool_decide_true by done. simpl. by rewrite drop_app_length.
Qed.
Lemma header_skip name h hs :
  take (length name + 2) h ≠ name ++ str ": " → header name (h :: hs) = header name hs.
Proof. intros H. unfold header. cbn [List.find]. by rewrite bool_decide_false. Qed.

(** Requests made by one call: at most one, for this path and body, that
    verifies; and one if the call returns. *)
Definition made {W} `{!World W} (rest : RestClient) (auth : OkxAuth) (path : list Z)
    (post : option (list Z)) (returns : Prop) (new : list CurlOptions) : Prop :=
  length new ≤ 1 ∧
  Forall (λ o, verifies rest auth o ∧ curl_url o = base_url_ rest ++ path ∧ curl_post o = post) new ∧
  (returns → length new = 1).

(** Sign, then perform. *)
Lemma signed_perform {W} {wo : World W} rest auth method path (post : option (list Z)) w log r w' log' :
  let _ := recording wo in
  method = (if post then kPost else kGet) →
  (headers ← SignHeaders auth method path (default [] post); Perform rest post path headers)
    (w, log) = (r, (w', log')) →
  ∃ new, log' = log ++ new ∧ made rest auth path post (∃ a, r = Ok a) new.
Proof.
  intros wr Hm. unfold SignHeaders, IsoTimestampNow, Perform, mbind, M_bind, ask, lift.
  cbn [system_clock_now recording wr on_fst fst snd]. unfold on_fst. cbn [fst snd].
  destruct (system_clock_now w) as [now w1]. cbn [mret M_ret].
  destruct (HmacSha256Base64 _ _) as [sig|x] eqn:Hs.
  2:{ intros Heq. exists []. rewrite app_nil_r.
      split; [exact (eq_sym (f_equal (λ x, x.2.2) Heq))|].
      split; [simpl; lia|]. split; [done|]. apply (f_equal fst) in Heq. simpl in Heq. subst r.
      by intros [a Ha]. }
  cbn [mret M_ret curl_easy_perform recording wr fst snd].
  destruct (curl_easy_perform _ w1) as [outcome w2].
  generalize dependent (iso_of_ms (now / 1000000)). intros ts Hs Heq. eexists [_]. split; [|split; [done|]].
  { destruct outcome; exact (eq_sym (f_equal (λ x, x.2.2) Heq)). }
  split; [|done]. constructor; [|done]. split; [|by split].
  exists path, ts, sig. clear Heq.
  cbn [curl_url curl_headers curl_post]. split; [done|].
  split; [exact (header_here (str "OK-ACCESS-KEY") _ _)|].
  split; [rewrite !header_skip by (vm_compute; congruence);
          exact (header_here (str "OK-ACCESS-PASSPHRASE") _ _)|].
  split; [rewrite !header_skip by (vm_compute; congruence);
          exact (header_here (str "OK-ACCESS-TIMESTAMP") _ _)|].
  split; [rewrite header_skip by (vm_compute; congruence);
          exact (header_here (str "OK-ACCESS-SIGN") _ _)|].
  subst method. exact Hs.
Qed.
