(* ===== verification/Transport.v ===== *)
(** * The TLS transport: net/transport.*

    A TCP socket under a TLS stream of Boost.Asio.  The calls of Asio and
    OpenSSL are operations of [World]; the reads and writes that complete
    later are effects of the WebSocket client. *)

From S2P Require Import Prelude World.

Module Transport.
Section transport.
Context {W : Type} `{!World W}.

(** The constructor; the members are those of the client. *)
Definition make : M W unit := ask_or_throw (stream_set DefaultVerifyPaths).

Definition Connect (host_ port_ : list Z) : M W unit :=
  endpoints ← ask_or_throw (resolver_resolve host_ port_);
  _ ← ask_or_throw (socket_connect endpoints);
  _ ← ask_or_throw (stream_set NoDelay);
  sni ← ask (SSL_set_tlsext_host_name host_);
  if negb sni then throwM (runtime_error "Failed to set SNI hostname" [])
  else
    _ ← ask_or_throw (stream_set VerifyPeer);
    _ ← ask_or_throw (stream_set (HostNameVerification host_));
    ask_or_throw stream_handshake.

Definition ReadSome (size : nat) : M W (list Z) := ask_or_throw (stream_read_some size).
Definition Write (data : list Z) : M W unit := ask_or_throw (stream_write data).
End transport.
End Transport.
