(* ===== verification/Logger.v ===== *)
(** * The asynchronous logger: log/async_logger.*

    The main thread formats a message and puts it into a ring of records; a
    writer thread takes the records out and prints them.  The two threads
    share two indices, a counter and a flag, all atomic.  The model runs the
    threads in any interleaving of their shared accesses; an atomic load with
    acquire ordering may return any value of the location's modification
    order that is not older than the one the thread saw last.  The records
    themselves are not atomic: they are written and read field by field, and
    that no field is read while it is written is one of the results. *)

From S2P Require Import Prelude Float64 World.

(** ** Levels *)

(** A value of [enum class LogLevel : std::uint8_t] is its number. *)
Definition LogLevel := Z.
Definition kDebug : LogLevel := 0%Z.
Definition kInfo : LogLevel := 1%Z.
Definition kWarn : LogLevel := 2%Z.
Definition kError : LogLevel := 3%Z.

(** The functions of [LogProxy], and the level that each stands for. *)
Inductive proxy := Debug | Info | Warn | Error.
Definition proxy_level (p : proxy) : LogLevel :=
  match p with Debug => kDebug | Info => kInfo | Warn => kWarn | Error => kError end.

(** [strtol] in base 10, which saturates. *)
Fixpoint skip_space (l : list Z) : list Z :=
  match l with [] => [] | c :: l' => if is_space c then skip_space l' else l end.
Definition strtol (text : list Z) : Z :=
  let l := skip_space text in
  let '(neg, l) := match l with
    | c :: l' => if (c =? 45)%Z then (true, l') else if (c =? 43)%Z then (false, l') else (false, l)
    | [] => (false, [])
    end in
  let v := digits_val 10 (span is_digit l).1 in
  Z.max (- 2 ^ 63) (Z.min (2 ^ 63 - 1) (if neg : bool then - v else v))%Z.

Definition ReadLogLevelFromEnv (value : option (list Z)) : LogLevel :=
  match value with None => kInfo | Some text => wrapU 8 (strtol text) end.

Module AsyncLogger.
Definition kRingCapacity : nat := Z.to_nat 4096.
Definition kMaxMessageLen : nat := Z.to_nat 256.

(** ** Records *)
Record Record_ := MkRecord {
  timestamp : Z; function_name : list Z; level : LogLevel; len : Z; data : list Z }.
Definition blank : Record_ := MkRecord 0 [] kInfo 0 (replicate kMaxMessageLen 0%Z).

(** A call of [Emit]: the level, the formatted message, the function that
    logs. *)
Record call := MkCall { c_level : LogLevel; c_message : list Z; c_function : list Z }.

Inductive field := FTimestamp | FFunction | FLevel | FData | FLen.

(** The assignments of [Emit] to the record, [now] being the time. *)
Definition emit_fields : list field := [FTimestamp; FFunction; FLevel; FData; FLen].
Definition store_field (now : Z) (c : call) (f : field) (r : Record_) : result Record_ :=
  let n := Nat.min (length (c_message c)) kMaxMessageLen in
  match f with
  | FTimestamp => Ok (MkRecord now (function_name r) (level r) (len r) (data r))
  | FFunction => Ok (MkRecord (timestamp r) (c_function c) (level r) (len r) (data r))
  | FLevel => Ok (MkRecord (timestamp r) (function_name r) (c_level c) (len r) (data r))
  | FData =>
      d ← blit (data r) 0 (take n (c_message c));
      Ok (MkRecord (timestamp r) (function_name r) (level r) (len r) d)
  | FLen => Ok (MkRecord (timestamp r) (function_name r) (level r) (wrapU 16 (Z.of_nat n)) (data r))
  end.

(** What the writer reads of a record, in its order. *)
Definition print_fields : list field := [FTimestamp; FLevel; FFunction; FData; FLen].
Definition load_field (f : field) (src dst : Record_) : Record_ :=
  match f with
  | FTimestamp => MkRecord (timestamp src) (function_name dst) (level dst) (len dst) (data dst)
  | FFunction => MkRecord (timestamp dst) (function_name src) (level dst) (len dst) (data dst)
  | FLevel => MkRecord (timestamp dst) (function_name dst) (level src) (len dst) (data dst)
  | FData => MkRecord (timestamp dst) (function_name dst) (level dst) (len dst) (data src)
  | FLen => MkRecord (timestamp dst) (function_name dst) (level dst) (len src) (data dst)
  end.

Definition LevelName (level : LogLevel) : result (list Z) :=
  match level with
  | 0%Z => Ok (str "DEBUG")
  | 1%Z => Ok (str "INFO")
  | 2%Z => Ok (str "WARN")
  | 3%Z => Ok (str "ERROR")
  | _ => throw (runtime_error "Unrecognized LogLevel" [])
  end.

(** [std::format] with the pattern %Y-%m-%d %H:%M:%S of a time in milliseconds. *)
Definition format_ms (ms : Z) : list Z :=
  let '(y, m, d) := civil_of_days (ms / 86400000) in
  let t := (ms mod 86400000)%Z in
  digits 4 y ++ str "-" ++ digits 2 m ++ str "-" ++ digits 2 d ++ str " " ++
  digits 2 (t / 3600000) ++ str ":" ++ digits 2 (t / 60000 mod 60) ++ str ":" ++
  digits 2 (t / 1000 mod 60) ++ str "." ++ digits 3 (t mod 1000).

(** The line printed for a record; the clock counts nanoseconds. *)
Definition record_line (r : Record_) : result (list Z) :=
  name ← LevelName (level r);
  let ms := Z.quot (timestamp r + 8 * 3600 * 1000000000)%Z 1000000 in
  bytes ← (if decide (Z.to_nat (len r) ≤ length (data r)) then Ok (take (Z.to_nat (len r)) (data r))
           else Stop UB);
  Ok (format_ms ms ++ str " " ++ name ++ str " " ++ function_name r ++ str " " ++ bytes ++ [10%Z]).
Definition dropped_line (dropped : Z) : list Z :=
  str "AsyncLogger: dropped " ++ to_string dropped ++ str " log message(s) (ring full)" ++ [10%Z].

(** ** The two threads *)

(** Where the main thread stands: outside the logger; in [Emit] before its
    loads, before counting a drop, or with fields still to be stored; in the
    destructor. *)
Inductive producer :=
  | PIdle
  | PEmit (c : call)
  | PDrop
  | PStore (now : Z) (c : call) (rest : list field)
  | PJoin
  | PGone.

(** Where the writer stands: at the top of its loop, before loading the
    indices, before loading the flag, with fields of a record still to be
    read, before storing [head_], returned. *)
Inductive consumer :=
  | WTop
  | WIndices
  | WFlag
  | WRead (rest : list field) (r : Record_)
  | WAdvance
  | WDone.

(** An atomic location is its modification order, oldest value first.
    [prod_head], [writer_tail] and [writer_running] are the positions of the
    values that the threads saw last. *)
Record state := Mk {
  min_level : LogLevel; ring_ : list Record_;
  head_ : list nat; tail_ : list nat; dropped_count_ : Z; running_ : list bool;
  prod : producer; prod_head : nat;
  writer : consumer; writer_tail : nat; writer_running : nat }.

Definition initial (lvl : LogLevel) : state :=
  Mk lvl (replicate kRingCapacity blank) [0] [0] 0 [true] PIdle 0 WTop 0 0.

(** What an observer sees of a step. *)
Inductive label :=
  | Silent
  | Called (c : call)                 (* [Emit] is called *)
  | Accepted (now : Z) (c : call)     (* [Emit] has published the record *)
  | Dropped                           (* [Emit] has counted a drop *)
  | Printed (line : list Z)
  | PrintedDrops (dropped : Z)
  | Fault.                            (* an exception or undefined behaviour *)

(** A step of the schedule.  [i] is the position of the value that a load
    returns, [now] the time that [Emit] reads. *)
Inductive move :=
  | Log (p : proxy) (message function : list Z)
  | Destroy
  | Main (i : nat) (now : Z)
  | Writer (i : nat).

Definition set_prod (p : producer) (s : state) : state :=
  Mk (min_level s) (ring_ s) (head_ s) (tail_ s) (dropped_count_ s) (running_ s) p (prod_head s)
    (writer s) (writer_tail s) (writer_running s).
Definition set_writer (w : consumer) (s : state) : state :=
  Mk (min_level s) (ring_ s) (head_ s) (tail_ s) (dropped_count_ s) (running_ s) (prod s)
    (prod_head s) w (writer_tail s) (writer_running s).
Definition set_dropped (n : Z) (s : state) : state :=
  Mk (min_level s) (ring_ s) (head_ s) (tail_ s) n (running_ s) (prod s)
    (prod_head s) (writer s) (writer_tail s) (writer_running s).
Definition set_record (i : nat) (r : Record_) (s : state) : state :=
  Mk (min_level s) (<[i := r]> (ring_ s)) (head_ s) (tail_ s) (dropped_count_ s) (running_ s) (prod s)
    (prod_head s) (writer s) (writer_tail s) (writer_running s).

(** The latest value of a location, which its only writer reads back. *)
Definition latest {A} (d : A) (l : list A) : A := List.last l d.

(** A load that returns the value at position [i]. *)
Definition load {A} (seen i : nat) (l : list A) : option A :=
  if decide (seen ≤ i) then l !! i else None.

(** The main thread inside [Emit] and the destructor. *)
Definition main_step (i : nat) (now : Z) (s : state) : option (label * state) :=
  let tail := latest 0 (tail_ s) in
  let next_tail := (tail + 1) mod kRingCapacity in
  match prod s with
  | PIdle | PGone => None
  | PEmit c =>
      head ← load (prod_head s) i (head_ s);
      Some (Silent, Mk (min_level s) (ring_ s) (head_ s) (tail_ s) (dropped_count_ s) (running_ s)
        (if decide (next_tail = head) then PDrop else PStore now c emit_fields) i
        (writer s) (writer_tail s) (writer_running s))
  | PDrop => Some (Dropped, set_prod PIdle (set_dropped (wrapU 64 (dropped_count_ s + 1)) s))
  | PStore now c (f :: rest) =>
      match (r ← aget (ring_ s) tail; store_field now c f r) with
      | Ok r => Some (Silent, set_prod (PStore now c rest) (set_record tail r s))
      | Stop _ => Some (Fault, s)
      end
  | PStore now c [] =>
      Some (Accepted now c, Mk (min_level s) (ring_ s) (head_ s) (tail_ s ++ [next_tail])
        (dropped_count_ s) (running_ s) PIdle (prod_head s) (writer s) (writer_tail s)
        (writer_running s))
  | PJoin => match writer s with WDone => Some (Silent, set_prod PGone s) | _ => None end
  end.

(** [WriterLoop]. *)
Definition writer_step (i : nat) (s : state) : option (label * state) :=
  let head := latest 0 (head_ s) in
  match writer s with
  | WTop =>
      let dropped := dropped_count_ s in
      Some (if (0 <? dropped)%Z then PrintedDrops dropped else Silent,
            set_writer WIndices (set_dropped 0 s))
  | WIndices =>
      tail ← load (writer_tail s) i (tail_ s);
      Some (Silent, Mk (min_level s) (ring_ s) (head_ s) (tail_ s) (dropped_count_ s) (running_ s)
        (prod s) (prod_head s) (if decide (head = tail) then WFlag else WRead print_fields blank)
        i (writer_running s))
  | WFlag =>
      running ← load (writer_running s) i (running_ s);
      Some (Silent, Mk (min_level s) (ring_ s) (head_ s) (tail_ s) (dropped_count_ s) (running_ s)
        (prod s) (prod_head s) (if running : bool then WTop else WDone) (writer_tail s) i)
  | WRead (f :: rest) r =>
      match aget (ring_ s) head with
      | Ok src => Some (Silent, set_writer (WRead rest (load_field f src r)) s)
      | Stop _ => Some (Fault, s)
      end
  | WRead [] r =>
      match record_line r with
      | Ok line => Some (Printed line, set_writer WAdvance s)
      | Stop _ => Some (Fault, s)
      end
  | WAdvance =>
      Some (Silent, Mk (min_level s) (ring_ s) (head_ s ++ [(head + 1) mod kRingCapacity]) (tail_ s)
        (dropped_count_ s) (running_ s) (prod s) (prod_head s) WTop (writer_tail s)
        (writer_running s))
  | WDone => None
  end.

Definition exec (m : move) (s : state) : option (label * state) :=
  match m with
  | Log p message function =>
      match prod s with
      | PIdle =>
          if (proxy_level p <? min_level s)%Z then Some (Silent, s)
          else let c := MkCall (proxy_level p) message function in
               Some (Called c, set_prod (PEmit c) s)
      | _ => None
      end
  | Destroy =>
      match prod s with
      | PIdle => Some (Silent, Mk (min_level s) (ring_ s) (head_ s) (tail_ s) (dropped_count_ s)
          (running_ s ++ [false]) PJoin (prod_head s) (writer s) (writer_tail s) (writer_running s))
      | _ => None
      end
  | Main i now => main_step i now s
  | Writer i => writer_step i s
  end.

(** Executions. *)
Inductive runs (lvl : LogLevel) : list label → state → Prop :=
  | runs_start : runs lvl [] (initial lvl)
  | runs_step ls s m l s' : runs lvl ls s → exec m s = Some (l, s') → runs lvl (ls ++ [l]) s'.

Fixpoint exec_all (ms : list move) (s : state) : option (list label * state) :=
  match ms with
  | [] => Some ([], s)
  | m :: ms' =>
      x ← exec m s;
      y ← exec_all ms' x.2;
      Some (x.1 :: y.1, y.2)
  end.

(** ** What an execution has done *)
Definition accepted (ls : list label) : list (Z * call) :=
  omap (λ l, match l with Accepted now c => Some (now, c) | _ => None end) ls.
Definition called (ls : list label) : list call :=
  omap (λ l, match l with Called c => Some c | _ => None end) ls.
Definition printed (ls : list label) : list (list Z) :=
  omap (λ l, match l with Printed x => Some x | _ => None end) ls.
Definition drops (ls : list label) : nat :=
  length (omap (λ l, match l with Dropped => Some tt | _ => None end) ls).
(** The line that a message should give. *)
Definition expected (x : Z * call) : list Z :=
  let '(now, c) := x in
  format_ms (Z.quot (now + 8 * 3600 * 1000000000)%Z 1000000) ++ str " " ++
  default [] (match LevelName (c_level c) with Ok n => Some n | Stop _ => None end) ++ str " " ++
  c_function c ++ str " " ++ take kMaxMessageLen (c_message c) ++ [10%Z].

(** ** The indices *)
Lemma capacity_gt : 1 < kRingCapacity.
Proof. unfold kRingCapacity. lia. Qed.
#[global] Opaque kRingCapacity.
Local Notation N := kRingCapacity.

Definition counts (n : nat) : list nat := (λ k, k mod N) <$> seq 0 (S n).

Lemma counts_0 : counts 0 = [0].
Proof. unfold counts. simpl. rewrite Nat.mod_small; [done|]. pose proof capacity_gt. lia. Qed.
Lemma length_counts n : length (counts n) = S n.
Proof. unfold counts. by rewrite length_fmap, length_seq. Qed.
Lemma counts_S n : counts (S n) = counts n ++ [S n mod N].
Proof. unfold counts. by rewrite (seq_S (S n)), fmap_app. Qed.
Lemma lookup_counts n i v : counts n !! i = Some v → i ≤ n ∧ v = i mod N.
Proof.
  unfold counts. rewrite list_lookup_fmap. intros (k & Hk & ->)%fmap_Some.
  apply lookup_seq in Hk as [-> Hi]. split; [lia|done].
Qed.
Lemma latest_counts n : latest 0 (counts n) = n mod N.
Proof.
  unfold latest. destruct n as [|n]; [by rewrite counts_0, Nat.Div0.mod_0_l|].
  by rewrite counts_S, List.last_last.
Qed.
Lemma succ_mod k : (k mod N + 1) mod N = S k mod N.
Proof. rewrite Nat.Div0.add_mod_idemp_l. f_equal. lia. Qed.
(** Positions that differ by less than the capacity have different slots. *)
Lemma slot_inj a b : a ≤ b → b < a + N → a mod N = b mod N → a = b.
Proof.
  intros Hle Hlt Heq. pose proof capacity_gt.
  pose proof (Nat.div_mod a N ltac:(lia)) as Ha. pose proof (Nat.div_mod b N ltac:(lia)) as Hb.
  rewrite Heq in Ha. assert (a / N = b / N) as Hd; [|lia].
  assert (a / N ≤ b / N) by (apply Nat.Div0.div_le_mono; lia). nia.
Qed.

(** ** The invariant *)
Definition level_ok (c : call) : Prop := ∃ p, c_level c = proxy_level p.

(** The field holds what [Emit] puts there. *)
Definition field_ok (x : Z * call) (f : field) (r : Record_) : Prop :=
  let '(now, c) := x in
  let n := Nat.min (length (c_message c)) kMaxMessageLen in
  match f with
  | FTimestamp => timestamp r = now
  | FFunction => function_name r = c_function c
  | FLevel => level r = c_level c
  | FData => take n (data r) = take n (c_message c)
  | FLen => len r = Z.of_nat n
  end.

(** The shared state, after the messages [acc] have been published and the
    lines [out] printed. *)
Record inv (acc : list (Z * call)) (out : list (list Z)) (h : nat) (s : state) : Prop := {
  inv_ring : length (ring_ s) = N;
  inv_data : Forall (λ r, length (data r) = kMaxMessageLen) (ring_ s);
  inv_head : head_ s = counts h;
  inv_tail : tail_ s = counts (length acc);
  inv_writer_tail : h ≤ writer_tail s ≤ length acc;
  inv_prod_head : prod_head s ≤ h ∧ length acc < prod_head s + N;
  inv_running : writer_running s < length (running_ s);
  inv_levels : Forall (λ x, level_ok x.2) acc;
  inv_records : ∀ k x, h ≤ k → acc !! k = Some x →
    ∃ r, ring_ s !! (k mod N) = Some r ∧ ∀ f, field_ok x f r;
  inv_prod : match prod s with
    | PEmit c => level_ok c
    | PStore now c rest => level_ok c ∧ S (length acc) < prod_head s + N ∧
        ∃ r done, ring_ s !! (length acc mod N) = Some r ∧ emit_fields = done ++ rest ∧
          ∀ f, f ∈ done → field_ok (now, c) f r
    | _ => True
    end;
  inv_writer : match writer s with
    | WRead rest r => h < writer_tail s ∧ length (data r) = kMaxMessageLen ∧
        ∃ x done, acc !! h = Some x ∧ print_fields = done ++ rest ∧
          ∀ f, f ∈ done → field_ok x f r
    | WAdvance => h < writer_tail s
    | _ => True
    end;
  inv_out : out = expected <$> take (h + match writer s with WAdvance => 1 | _ => 0 end) acc }.

Lemma inv_initial lvl : inv [] [] 0 (initial lvl).
Proof.
  pose proof capacity_gt. split; simpl; try done; try lia.
  apply Forall_replicate, length_replicate.
Qed.

(** *** Fields *)
Lemma store_field_ok now c f r :
  length (data r) = kMaxMessageLen →
  ∃ r', store_field now c f r = Ok r' ∧ length (data r') = kMaxMessageLen ∧
    field_ok (now, c) f r' ∧
    ∀ g, (f = FData → g ≠ FData) → field_ok (now, c) g r → field_ok (now, c) g r'.
Proof.
  intros Hd. destruct f; cbn [store_field].
  1,2,3: (eexists; split; [reflexivity|]; split; [done|]; split; [done|]; intros [] _ Hg; exact Hg || done).
  - unfold blit. rewrite decide_True.
    2:{ rewrite length_take. lia. }
    cbn [mbind result_bind]. eexists. split; [reflexivity|]. cbn [data field_ok].
    rewrite take_0, app_nil_l, Nat.add_0_l. split; [|split].
    + rewrite length_app, length_drop. rewrite length_take. lia.
    + rewrite take_app_le by (rewrite length_take; lia). by rewrite take_take, Nat.min_id.
    + intros [] Hg Hk; try exact Hk. by specialize (Hg eq_refl).
  - eexists. split; [reflexivity|]. split; [done|]. split; [|intros [] _ Hg; try exact Hg].
    all: cbn [field_ok len]; unfold wrapU; apply Z.mod_small; unfold kMaxMessageLen; lia.
Qed.
Lemma load_field_ok x f src dst :
  (∀ g, field_ok x g src) →
  field_ok x f (load_field f src dst) ∧
  ∀ g, field_ok x g dst → field_ok x g (load_field f src dst).
Proof.
  destruct x as [now c]. intros Hs. split.
  - pose proof (Hs f) as Hf. by destruct f.
  - intros g Hg. pose proof (Hs g) as Hsg. destruct f, g; first [exact Hg | exact Hsg].
Qed.
Lemma record_line_ok x r :
  length (data r) = kMaxMessageLen → level_ok x.2 → (∀ f, field_ok x f r) →
  record_line r = Ok (expected x).
Proof.
  destruct x as [now c]. intros Hd [p Hp] Hf. pose proof (Hf FTimestamp) as Ht.
  pose proof (Hf FFunction) as Hn. pose proof (Hf FLevel) as Hv. pose proof (Hf FData) as Ha.
  pose proof (Hf FLen) as Hl. cbn [field_ok snd] in *. clear Hf.
  unfold record_line, expected. rewrite Hv, Hl, Ht, Hn, Nat2Z.id.
  rewrite decide_True by lia. rewrite Ha, Hp. cbn [mbind result_bind].
  replace (take (Nat.min (length (c_message c)) kMaxMessageLen) (c_message c))
    with (take kMaxMessageLen (c_message c)).
  2:{ rewrite <-(firstn_all (c_message c)) at 1. by rewrite take_take, Nat.min_comm. }
  by destruct p.
Qed.
Lemma all_emit_fields f : f ∈ emit_fields.
Proof. unfold emit_fields. destruct f; set_solver. Qed.
Lemma all_print_fields f : f ∈ print_fields.
Proof. unfold print_fields. destruct f; set_solver. Qed.

(** *** Steps *)

(** [l] extends what has been published and printed. *)
Definition pub (l : label) : list (Z * call) :=
  match l with Accepted now c => [(now, c)] | _ => [] end.
Definition line (l : label) : list (list Z) := match l with Printed x => [x] | _ => [] end.

Ltac inv_same H := destruct H; split; simpl in *; eauto; try lia.

Lemma store_step acc out h s now c f rest :
  inv acc out h s → prod s = PStore now c (f :: rest) →
  ∃ r, (r ← aget (ring_ s) (length acc mod N); store_field now c f r) = Ok r ∧
    inv acc out h (set_prod (PStore now c rest) (set_record (length acc mod N) r s)).
Proof.
  intros [Hr Hd Hh Ht Hw Hp Hrun Hl Hrec Hprod Hwr Hout] Eprod. rewrite Eprod in Hprod.
  destruct Hprod as (Hlev & Hroom & r & dn & Hget & Hsplit & Hdone).
  rewrite (aget_Some _ _ _ Hget). cbn [mbind result_bind].
  rewrite Forall_lookup in Hd. destruct (store_field_ok now c f r (Hd _ _ Hget))
    as (r' & -> & Hlen' & Hf & Hkeep).
  exists r'. split; [done|].
  assert (length acc mod N < N) as Hlt by (apply Nat.mod_upper_bound; pose proof capacity_gt; lia).
  split; simpl; rewrite ?length_insert; try done.
  - apply Forall_insert; [by apply Forall_lookup|done].
  - intros k x Hk Hx. destruct (Hrec k x Hk Hx) as (rk & Hrk & Hfk). exists rk. split; [|done].
    rewrite list_lookup_insert_ne; [done|]. intros Heq.
    pose proof (lookup_lt_Some _ _ _ Hx). apply symmetry, slot_inj in Heq; lia.
  - split; [done|]. split; [done|]. exists r', (dn ++ [f]).
    rewrite list_lookup_insert_eq by lia. split; [done|]. split; [by rewrite <-app_assoc|].
    intros g [Hg| ->%list_elem_of_singleton]%elem_of_app; [|done].
    apply Hkeep; [|by apply Hdone]. intros -> ->.
    assert (NoDup emit_fields) as Hnd by (unfold emit_fields; repeat constructor; set_solver).
    rewrite Hsplit in Hnd. apply NoDup_app in Hnd as (_ & Hnd & _). apply (Hnd FData Hg). set_solver.
Qed.

Lemma main_step_inv acc out h s i now l s' :
  inv acc out h s → main_step i now s = Some (l, s') →
  l ≠ Fault ∧ line l = [] ∧ inv (acc ++ pub l) out h s'.
Proof.
  intros Hi Hs. pose proof Hi as [Hr Hd Hh Ht Hw Hp Hrun Hl Hrec Hprod Hwr Hout].
  unfold main_step in Hs. rewrite Ht, latest_counts, succ_mod in Hs.
  destruct (prod s) as [|c| |nw c rest| |] eqn:Eprod; try done.
  - destruct (load _ _ _) as [hd|] eqn:El; [|done]. injection Hs as <- <-.
    unfold load in El. case_decide as Hseen; [|done]. rewrite Hh in El.
    apply lookup_counts in El as [Hih ->]. rewrite app_nil_r.
    split; [done|]. split; [done|]. split; simpl; try done; [lia|].
    case_decide as Hfull; [done|]. split; [done|].
    assert (S (length acc) ≠ i + N) as Hne.
    { intros Heq. apply Hfull. replace (S (length acc)) with (i + 1 * N) by lia.
      apply Nat.Div0.mod_add. }
    split; [lia|].
    destruct (lookup_lt_is_Some_2 (ring_ s) (length acc mod N)) as [r Hget].
    { rewrite Hr. apply Nat.mod_upper_bound. pose proof capacity_gt. lia. }
    exists r, []. split; [done|]. split; [done|]. intros f Hf. set_solver.
  - injection Hs as <- <-. rewrite app_nil_r. split; [done|]. split; [done|]. by split; simpl.
  - destruct rest as [|f rest].
    + injection Hs as <- <-. split; [done|]. split; [done|].
      destruct Hprod as (Hlev & Hroom & r & dn & Hget & Hsplit & Hdone).
      rewrite app_nil_r in Hsplit. subst dn.
      assert (length (acc ++ [(nw, c)]) = S (length acc)) as Hlen by (rewrite length_app; simpl; lia).
      split; cbn [pub]; simpl; rewrite ?Hlen; try done; try lia.
      * by rewrite counts_S.
      * apply Forall_app. split; [done|]. by constructor.
      * intros k x Hk [Hx|[Hge Hx]]%lookup_app_Some; [by apply Hrec|].
        apply list_lookup_singleton_Some in Hx as [Hk0 <-].
        assert (k = length acc) as -> by lia. exists r. split; [done|].
        intros f. apply Hdone, all_emit_fields.
      * destruct (writer s); try done. destruct Hwr as (? & ? & x & dn & Hx & ?).
        split; [done|]. split; [done|]. exists x, dn. split; [by apply lookup_app_l_Some|done].
      * rewrite Hout. rewrite take_app_le; [done|]. destruct (writer s); lia.
    + destruct (store_step _ _ _ _ _ _ _ _ Hi Eprod) as (r & Er & Hi'). rewrite Er in Hs.
      injection Hs as <- <-. rewrite app_nil_r. done.
  - assert (s' = set_prod PGone s ∧ l = Silent) as [-> ->] by (destruct (writer s); naive_solver).
    rewrite app_nil_r. split; [done|]. split; [done|]. by split.
Qed.

Lemma writer_step_inv acc out h s i l s' :
  inv acc out h s → writer_step i s = Some (l, s') →
  l ≠ Fault ∧ pub l = [] ∧
  inv acc (out ++ line l) (match writer s with WAdvance => S h | _ => h end) s'.
Proof.
  intros [Hr Hd Hh Ht Hw Hp Hrun Hl Hrec Hprod Hwr Hout] Hs.
  unfold writer_step in Hs. rewrite Hh, latest_counts in Hs.
  destruct (writer s) as [| | |rest r| |] eqn:Ew; try done.
  - injection Hs as <- <-.
    assert (∀ n, line (if (0 <? n)%Z then PrintedDrops n else Silent) = [] ∧
                 pub (if (0 <? n)%Z then PrintedDrops n else Silent) = []) as Hline.
    { intros n. by destruct (0 <? n)%Z. }
    destruct (Hline (dropped_count_ s)) as [-> ->]. rewrite app_nil_r.
    split; [by destruct (0 <? _)%Z|]. split; [done|]. by split.
  - destruct (load _ _ _) as [tl|] eqn:El; [|done]. injection Hs as <- <-.
    unfold load in El. case_decide as Hseen; [|done]. rewrite Ht in El.
    apply lookup_counts in El as [Hit ->]. rewrite app_nil_r.
    split; [done|]. split; [done|]. split; simpl; try done; [lia| |].
    + case_decide as Heq; [done|].
      assert (h < i) as Hlt by (destruct (decide (h = i)) as [->|]; [done|lia]).
      split; [done|]. split; [apply length_replicate|].
      destruct (lookup_lt_is_Some_2 acc h) as [x Hx]; [lia|].
      exists x, []. split; [done|]. split; [done|]. intros f Hf. set_solver.
    + rewrite Hout. by case_decide.
  - destruct (load _ _ _) as [b|] eqn:El; [|done]. injection Hs as <- <-. rewrite app_nil_r.
    unfold load in El. case_decide; [|done]. apply lookup_lt_Some in El.
    split; [done|]. split; [done|]. split; simpl; try done; by destruct b.
  - destruct Hwr as (Hlt & Hlen & x & dn & Hx & Hsplit & Hdone). destruct rest as [|f rest].
    + rewrite app_nil_r in Hsplit. subst dn. rewrite Forall_lookup in Hl.
      rewrite (record_line_ok x r Hlen (Hl _ _ Hx)) in Hs
        by (intros f; apply Hdone, all_print_fields).
      injection Hs as <- <-. split; [done|]. split; [done|]. split; simpl; try done.
      * by apply Forall_lookup.
      * rewrite Hout, Nat.add_0_r, Nat.add_1_r. rewrite (take_S_r _ _ x) by done. by rewrite fmap_app.
    + destruct (Hrec h x (le_n h) Hx) as (src & Hsrc & Hf). rewrite (aget_Some _ _ _ Hsrc) in Hs.
      injection Hs as <- <-. rewrite app_nil_r. split; [done|]. split; [done|].
      destruct (load_field_ok x f src r Hf) as [Hnew Hkeep]. rewrite Forall_lookup in Hd.
      split; simpl; try done; [by apply Forall_lookup|]. split; [done|]. split.
      { destruct f; simpl; try done. by apply (Hd _ _ Hsrc). }
      exists x, (dn ++ [f]). split; [done|]. split; [by rewrite <-app_assoc|].
      intros g [Hg| ->%list_elem_of_singleton]%elem_of_app; [by apply Hkeep, Hdone|done].
  - injection Hs as <- <-. rewrite app_nil_r, succ_mod. split; [done|]. split; [done|].
    split; simpl; try done; try lia.
    + by rewrite counts_S.
    + intros k x Hk. apply Hrec. lia.
    + rewrite Hout, Nat.add_0_r, Nat.add_1_r. done.
Qed.

Lemma exec_inv m acc out h s l s' :
  inv acc out h s → exec m s = Some (l, s') →
  l ≠ Fault ∧ ∃ h', inv (acc ++ pub l) (out ++ line l) h' s'.
Proof.
  intros Hi. destruct m as [p msg fn| |i now|i]; cbn [exec].
  - destruct Hi as [Hr Hd Hh Ht Hw Hp Hrun Hl Hrec Hprod Hwr Hout].
    destruct (prod s) eqn:Ep; try done. destruct (_ <? _)%Z; intros [= <- <-]; (split; [done|]);
      exists h; rewrite !app_nil_r; split; simpl; try done; [by rewrite Ep|by exists p].
  - destruct Hi as [Hr Hd Hh Ht Hw Hp Hrun Hl Hrec Hprod Hwr Hout].
    destruct (prod s); try done. intros [= <- <-]. split; [done|]. exists h.
    rewrite !app_nil_r. split; simpl; try done. rewrite length_app. simpl. lia.
  - intros Hs. destruct (main_step_inv _ _ _ _ _ _ _ _ Hi Hs) as (? & -> & ?).
    split; [done|]. exists h. by rewrite app_nil_r.
  - intros Hs. destruct (writer_step_inv _ _ _ _ _ _ _ Hi Hs) as (? & -> & ?).
    split; [done|]. eexists. by rewrite app_nil_r.
Qed.

Lemma omap_snoc {A B} (f : A → option B) l x :
  omap f (l ++ [x]) = omap f l ++ match f x with Some y => [y] | None => [] end.
Proof. rewrite omap_app. simpl. by destruct (f x). Qed.

Lemma runs_inv lvl ls s :
  runs lvl ls s → Fault ∉ ls ∧ ∃ h, inv (accepted ls) (printed ls) h s.
Proof.
  induction 1 as [|ls s m l s' _ [Hnf [h Hi]] Hs].
  { split; [set_solver|]. exists 0. apply inv_initial. }
  destruct (exec_inv _ _ _ _ _ _ _ Hi Hs) as [Hl [h' Hi']]. split; [set_solver|]. exists h'.
  unfold accepted, printed. rewrite !omap_snoc. by destruct l.
Qed.

(** ** Counting calls *)
Definition in_hand (s : state) : list call :=
  match prod s with PEmit c | PStore _ c _ => [c] | _ => [] end.
Definition busy (s : state) : nat :=
  match prod s with PEmit _ | PStore _ _ _ | PDrop => 1 | _ => 0 end.
(** The drops that have been reported. *)
Definition reported (ls : list label) : Z :=
  foldr Z.add 0%Z (omap (λ l, match l with PrintedDrops n => Some n | _ => None end) ls).

Lemma sum_snoc l x : foldr Z.add 0%Z (l ++ [x]) = (foldr Z.add 0 l + x)%Z.
Proof. induction l as [|y l IH]; simpl; [lia|]. rewrite IH. lia. Qed.
Lemma reported_snoc ls l :
  reported (ls ++ [l]) = (reported ls + match l with PrintedDrops n => n | _ => 0 end)%Z.
Proof.
  unfold reported. rewrite omap_snoc. destruct l; rewrite ?app_nil_r, ?sum_snoc; lia.
Qed.

Definition counted (ls : list label) (s : state) : Prop :=
  (accepted ls).*2 ++ in_hand s `sublist_of` called ls ∧
  length (called ls) = length (accepted ls) + drops ls + busy s ∧
  wrapU 64 (Z.of_nat (drops ls)) = wrapU 64 (reported ls + dropped_count_ s) ∧
  (0 ≤ dropped_count_ s)%Z.

Lemma counted_more ls l s s' :
  counted ls s →
  (((pub l).*2 ++ in_hand s') `sublist_of` (in_hand s ++ called [l])) →
  length (called [l]) + busy s = length (pub l) + drops [l] + busy s' →
  wrapU 64 (Z.of_nat (drops [l]) + (reported ls + dropped_count_ s)) =
    wrapU 64 (reported (ls ++ [l]) + dropped_count_ s') →
  (0 ≤ dropped_count_ s')%Z →
  counted (ls ++ [l]) s'.
Proof.
  intros (Hsub & Hlen & Hd & H0) Hsub' Hlen' Hd' H0'.
  assert (accepted (ls ++ [l]) = accepted ls ++ pub l) as Ha.
  { unfold accepted. rewrite omap_snoc. by destruct l. }
  assert (called (ls ++ [l]) = called ls ++ called [l]) as Hc by apply omap_app.
  assert (drops (ls ++ [l]) = drops ls + drops [l]) as Hdr.
  { unfold drops. by rewrite omap_app, length_app. }
  split; [|split; [|split; [|done]]].
  - rewrite Ha, Hc, fmap_app, <-app_assoc. etrans; [by apply sublist_app|]. rewrite app_assoc.
    by apply sublist_app.
  - rewrite Ha, Hc, Hdr, !length_app. lia.
  - rewrite Hdr, Nat2Z.inj_add, Z.add_comm, <-Hd'. unfold wrapU in *.
    rewrite Zplus_mod, Hd, <-Zplus_mod. done.
Qed.

Lemma exec_counted m ls s l s' :
  counted ls s → exec m s = Some (l, s') → l ≠ Fault → counted (ls ++ [l]) s'.
Proof.
  intros Hc Hs Hl. pose proof Hc as (_ & _ & _ & H0).
  apply (counted_more ls l s); [done|..]; destruct m as [p msg fn| |i now|i]; cbn [exec] in Hs;
    unfold main_step, writer_step in Hs; rewrite ?reported_snoc.
  all: repeat (case_match; simplify_eq/=; try done);
       unfold in_hand, busy, mbind, option_bind in *; simpl in *;
       repeat (case_match; simplify_eq/=; try done).
  all: try lia; try set_solver; try apply sublist_nil_l; try (apply Z.mod_pos_bound; lia).
  all: unfold drops, wrapU; cbn [omap list_omap length]; rewrite ?Zplus_mod_idemp_r; f_equal; lia.
Qed.

Lemma runs_counted lvl ls s : runs lvl ls s → counted ls s.
Proof.
  induction 1 as [|ls s m l s' Hr IH Hs]; [by repeat split|].
  destruct (runs_inv _ _ _ Hr) as [_ [h Hi]].
  destruct (exec_inv _ _ _ _ _ _ _ Hi Hs) as [Hl _]. by apply (exec_counted m ls s).
Qed.

(** ** Draining *)

(** The writer's steps when its loads return the latest values. *)
Definition fresh (s : state) : nat :=
  match writer s with WFlag => length (running_ s) - 1 | _ => length (tail_ s) - 1 end.
Inductive writes : state → list label → state → Prop :=
  | writes_nil s : writes s [] s
  | writes_cons s l s1 ls s2 : writer_step (fresh s) s = Some (l, s1) → writes s1 ls s2 →
      writes s (l :: ls) s2.

Lemma writes_app s ls s1 ls' s2 : writes s ls s1 → writes s1 ls' s2 → writes s (ls ++ ls') s2.
Proof. induction 1; [done|]. intros. simpl. eapply writes_cons; eauto. Qed.
Lemma writes_runs lvl ls s ls' s' : runs lvl ls s → writes s ls' s' → runs lvl (ls ++ ls') s'.
Proof.
  intros Hr Hw. revert ls Hr. induction Hw as [s|s l s1 ls' s2 Hs _ IH]; intros ls Hr.
  { by rewrite app_nil_r. }
  rewrite cons_middle, app_assoc. apply IH. by apply (runs_step _ _ _ (Writer (fresh s)) _ _ Hr).
Qed.

(** With nothing of the main thread in between, [tail_] and [running_] stay. *)
Lemma writer_step_keeps i s l s' : writer_step i s = Some (l, s') → running_ s' = running_ s.
Proof.
  unfold writer_step, mbind, option_bind. intros H.
  repeat (case_match; simplify_eq/=; try done).
Qed.

Lemma fresh_step acc out h s l s' :
  inv acc out h s → writer_step (fresh s) s = Some (l, s') →
  writes s [l] s' ∧ running_ s' = running_ s ∧
  inv acc (out ++ line l) (match writer s with WAdvance => S h | _ => h end) s'.
Proof.
  intros Hi Hs. split; [by eapply writes_cons; [|constructor]|].
  split; [by eapply writer_step_keeps|]. by apply (writer_step_inv _ _ _ _ _ _ _ Hi Hs).
Qed.

(** The single steps, at each place of the loop. *)
Lemma top_step acc out h s :
  inv acc out h s → writer s = WTop →
  ∃ l s', writes s [l] s' ∧ running_ s' = running_ s ∧ printed [l] = [] ∧ writer s' = WIndices ∧
    inv acc out h s'.
Proof.
  intros Hi Hw. destruct (writer_step (fresh s) s) as [[l s1]|] eqn:Hs.
  2:{ unfold writer_step in Hs. by rewrite Hw in Hs. }
  destruct (fresh_step _ _ _ _ _ _ Hi Hs) as (Hws & Hk & Hi1). rewrite Hw in Hi1.
  exists l, s1. split; [done|]. split; [done|]. unfold writer_step in Hs. rewrite Hw in Hs.
  injection Hs as <- <-. destruct (0 <? _)%Z; rewrite app_nil_r in Hi1; by split.
Qed.
Lemma indices_step acc out h s :
  inv acc out h s → writer s = WIndices →
  ∃ s', writes s [Silent] s' ∧ running_ s' = running_ s ∧ inv acc out h s' ∧
    writer s' = if decide (h = length acc) then WFlag else WRead print_fields blank.
Proof.
  intros Hi Hw. pose proof (inv_writer_tail _ _ _ _ Hi). pose proof (inv_prod_head _ _ _ _ Hi).
  pose proof (inv_head _ _ _ _ Hi) as Hh. pose proof (inv_tail _ _ _ _ Hi) as Ht.
  assert (load (writer_tail s) (fresh s) (tail_ s) = Some (length acc mod N)) as Hld.
  { unfold load, fresh. rewrite Hw, Ht, length_counts, decide_True by lia.
    destruct (lookup_lt_is_Some_2 (counts (length acc)) (S (length acc) - 1)) as [v Hv];
      [rewrite length_counts; lia|].
    rewrite Hv. apply lookup_counts in Hv as [_ ->]. do 2 f_equal. lia. }
  destruct (writer_step (fresh s) s) as [[l s1]|] eqn:Hs.
  2:{ unfold writer_step in Hs. by rewrite Hw, Hld in Hs. }
  destruct (fresh_step _ _ _ _ _ _ Hi Hs) as (Hws & Hk & Hi1). rewrite Hw in Hi1.
  unfold writer_step in Hs. rewrite Hw, Hld, Hh, latest_counts in Hs.
  injection Hs as <- <-. rewrite app_nil_r in Hi1. eexists. split; [done|]. split; [done|].
  split; [done|]. simpl. destruct (decide (h = length acc)) as [->|Hne]; [by rewrite decide_True|].
  rewrite decide_False; [done|]. intros Heq. apply slot_inj in Heq; lia.
Qed.
Lemma flag_step acc out h s :
  inv acc out h s → writer s = WFlag →
  ∃ s', writes s [Silent] s' ∧ running_ s' = running_ s ∧ inv acc out h s' ∧
    writer s' = if latest true (running_ s) then WTop else WDone.
Proof.
  intros Hi Hw. pose proof (inv_running _ _ _ _ Hi) as Hrun.
  assert (load (writer_running s) (fresh s) (running_ s) = Some (latest true (running_ s))) as Hld.
  { unfold load, fresh. rewrite Hw, decide_True by lia. unfold latest.
    destruct (running_ s) as [|b l] using rev_ind; [simpl in Hrun; lia|].
    rewrite List.last_last, length_app, Nat.add_sub. by apply list_lookup_middle. }
  destruct (writer_step (fresh s) s) as [[l s1]|] eqn:Hs.
  2:{ unfold writer_step in Hs. by rewrite Hw, Hld in Hs. }
  destruct (fresh_step _ _ _ _ _ _ Hi Hs) as (Hws & Hk & Hi1). rewrite Hw in Hi1.
  unfold writer_step in Hs. rewrite Hw, Hld in Hs. injection Hs as <- <-.
  rewrite app_nil_r in Hi1. by eexists.
Qed.
Lemma advance_step acc out h s :
  inv acc out h s → writer s = WAdvance →
  ∃ s', writes s [Silent] s' ∧ running_ s' = running_ s ∧ inv acc out (S h) s' ∧ writer s' = WTop.
Proof.
  intros Hi Hw. destruct (writer_step (fresh s) s) as [[l s1]|] eqn:Hs.
  2:{ unfold writer_step in Hs. by rewrite Hw in Hs. }
  destruct (fresh_step _ _ _ _ _ _ Hi Hs) as (Hws & Hk & Hi1). rewrite Hw in Hi1.
  unfold writer_step in Hs. rewrite Hw in Hs. injection Hs as <- <-.
  rewrite app_nil_r in Hi1. by eexists.
Qed.

(** Reading a record to its end. *)
Lemma read_drains acc out h s rest r :
  inv acc out h s → writer s = WRead rest r →
  ∃ ls s', writes s ls s' ∧ length ls = length rest + 2 ∧ running_ s' = running_ s ∧
    writer s' = WTop ∧ inv acc (out ++ printed ls) (S h) s'.
Proof.
  revert s r. induction rest as [|f rest IH]; intros s r Hi Hw.
  - pose proof (inv_writer _ _ _ _ Hi) as Hwr. pose proof (inv_levels _ _ _ _ Hi) as Hl.
    rewrite Hw in Hwr. destruct Hwr as (_ & Hlen & x & dn & Hx & Hsplit & Hdone).
    rewrite app_nil_r in Hsplit. subst dn. rewrite Forall_lookup in Hl.
    assert (writer_step (fresh s) s = Some (Printed (expected x), set_writer WAdvance s)) as Hs.
    { unfold writer_step. rewrite Hw, (record_line_ok x r Hlen (Hl _ _ Hx)); [done|].
      intros f. apply Hdone, all_print_fields. }
    destruct (fresh_step _ _ _ _ _ _ Hi Hs) as (Hw1 & Hk1 & Hi1). rewrite Hw in Hi1.
    destruct (advance_step _ _ _ _ Hi1 eq_refl) as (s2 & Hw2 & Hk2 & Hi2 & Ht2).
    exists [Printed (expected x); Silent], s2. split; [exact (writes_app _ _ _ _ _ Hw1 Hw2)|].
    split; [done|]. split; [congruence|]. done.
  - destruct (writer_step (fresh s) s) as [[l s1]|] eqn:Hs.
    2:{ unfold writer_step in Hs. rewrite Hw in Hs. by destruct (aget _ _). }
    destruct (writer_step_inv _ _ _ _ _ _ _ Hi Hs) as (Hf & _ & _).
    destruct (fresh_step _ _ _ _ _ _ Hi Hs) as (Hw1 & Hk1 & Hi1). rewrite Hw in Hi1.
    unfold writer_step in Hs. rewrite Hw in Hs. destruct (aget _ _); simplify_eq/=.
    rewrite app_nil_r in Hi1.
    destruct (IH _ _ Hi1 eq_refl) as (ls & s' & Hws & Hl & Hr & Hw' & Hi').
    exists (Silent :: ls), s'. split; [exact (writes_app _ _ _ _ _ Hw1 Hws)|]. simpl. by rewrite Hl, Hr.
Qed.

(** From the loads of the indices: a record is printed, or the ring is empty
    and the flag decides. *)
Lemma indices_drain acc out h s :
  inv acc out h s → writer s = WIndices →
  if decide (h = length acc) then
    ∃ ls s', writes s ls s' ∧ length ls = 2 ∧ printed ls = [] ∧ inv acc out h s' ∧
      writer s' = if latest true (running_ s) then WTop else WDone
  else
    ∃ ls s', writes s ls s' ∧ length ls = 8 ∧ running_ s' = running_ s ∧ writer s' = WTop ∧
      inv acc (out ++ printed ls) (S h) s'.
Proof.
  intros Hi Hw. destruct (indices_step _ _ _ _ Hi Hw) as (s1 & Hw1 & Hk1 & Hi1 & Hp1).
  case_decide as Hh.
  - destruct (flag_step _ _ _ _ Hi1 Hp1) as (s2 & Hw2 & Hk2 & Hi2 & Hp2).
    exists [Silent; Silent], s2. split; [exact (writes_app _ _ _ _ _ Hw1 Hw2)|]. by rewrite <-Hk1.
  - destruct (read_drains _ _ _ _ _ _ Hi1 Hp1) as (ls & s2 & Hw2 & Hl2 & Hk2 & Hp2 & Hi2).
    exists (Silent :: ls), s2. split; [exact (writes_app _ _ _ _ _ Hw1 Hw2)|]. simpl.
    rewrite Hl2. split; [done|]. split; [congruence|]. done.
Qed.

Lemma top_drains acc out h s :
  inv acc out h s → writer s = WTop →
  ∃ ls s', writes s ls s' ∧ length ls = 9 * (length acc - h) + 3 ∧
    writer s' = (if latest true (running_ s) then WTop else WDone) ∧
    inv acc (out ++ printed ls) (length acc) s'.
Proof.
  remember (length acc - h) as n eqn:Hn. revert out h s Hn.
  induction n as [|n IH]; intros out h s Hn Hi Hw; pose proof (inv_writer_tail _ _ _ _ Hi);
    destruct (top_step _ _ _ _ Hi Hw) as (l1 & s1 & Hw1 & Hk1 & Hl1 & Hp1 & Hi1);
    pose proof (indices_drain _ _ _ _ Hi1 Hp1) as Hd; rewrite Hk1 in Hd.
  - rewrite decide_True in Hd by lia. destruct Hd as (ls & s2 & Hw2 & Hl2 & Hn2 & Hi2 & Hp2).
    exists (l1 :: ls), s2. split; [exact (writes_app _ _ _ _ _ Hw1 Hw2)|].
    split; [by rewrite length_cons, Hl2|]. split; [done|].
    replace (printed (l1 :: ls)) with (printed ([l1] ++ ls)) by done.
    unfold printed in *. rewrite omap_app, Hl1, Hn2, !app_nil_r. by replace (length acc) with h by lia.
  - rewrite decide_False in Hd by lia. destruct Hd as (ls & s2 & Hw2 & Hl2 & Hk2 & Hp2 & Hi2).
    destruct (IH _ (S h) _ ltac:(lia) Hi2 Hp2) as (l3 & s3 & Hw3 & Hl3 & Hp3 & Hi3).
    exists ([l1] ++ ls ++ l3), s3.
    split; [exact (writes_app _ _ _ _ _ Hw1 (writes_app _ _ _ _ _ Hw2 Hw3))|].
    split; [rewrite !length_app, Hl2, Hl3; simpl; lia|]. split; [by rewrite Hp3, Hk2|].
    unfold printed in *. by rewrite !omap_app, Hl1, app_nil_l, app_assoc.
Qed.

Lemma top_drains' acc out h s pre s0 m :
  inv acc out h s → writer s = WTop → writes s0 pre s → running_ s = running_ s0 →
  length pre + 9 * (length acc - h) + 3 ≤ m →
  ∃ ls s', writes s0 (pre ++ ls) s' ∧ length (pre ++ ls) ≤ m ∧
    writer s' = (if latest true (running_ s0) then WTop else WDone) ∧
    inv acc (out ++ printed ls) (length acc) s'.
Proof.
  intros Hi Hw Hpre Hk Hm. destruct (top_drains _ _ _ _ Hi Hw) as (ls & s' & Hws & Hl & Hp & Hi').
  exists ls, s'. split; [by eapply writes_app|]. rewrite length_app, <-Hk. split; [lia|done].
Qed.

Lemma writer_drains acc out h s :
  inv acc out h s → writer s ≠ WDone → (writer s = WFlag → latest true (running_ s) = true) →
  ∃ ls s', writes s ls s' ∧ length ls ≤ 9 * (length acc - h) + 11 ∧
    writer s' = (if latest true (running_ s) then WTop else WDone) ∧
    inv acc (out ++ printed ls) (length acc) s'.
Proof.
  intros Hi Hd Hf. pose proof (inv_writer_tail _ _ _ _ Hi) as Ht.
  destruct (writer s) as [| | |rest r| |] eqn:Hw; [| | | | |done].
  - destruct (top_drains' _ _ _ _ [] s (9 * (length acc - h) + 11) Hi Hw)
      as (ls & s' & ? & ?); [constructor|done|simpl; lia|]. by exists ls, s'.
  - pose proof (indices_drain _ _ _ _ Hi Hw) as Hx. case_decide as Hh.
    + destruct Hx as (ls & s' & Hws & Hl & Hn & Hi' & Hp). exists ls, s'. rewrite Hn, app_nil_r.
      split; [done|]. split; [lia|]. split; [done|]. by subst h.
    + destruct Hx as (ls & s1 & Hws & Hl & Hk & Hp & Hi1).
      destruct (top_drains' _ _ _ _ ls s (9 * (length acc - h) + 11) Hi1 Hp)
        as (ls2 & s' & Hws2 & Hl2 & Hp2 & Hi2); [done|done|lia|].
      exists (ls ++ ls2), s'. unfold printed in *. by rewrite omap_app, app_assoc.
  - destruct (flag_step _ _ _ _ Hi Hw) as (s1 & Hws & Hk & Hi1 & Hp). rewrite Hf in Hp by done.
    destruct (top_drains' _ _ _ _ [Silent] s (9 * (length acc - h) + 11) Hi1 Hp)
      as (ls2 & s' & ?); [done|done|simpl; lia|]. by exists ([Silent] ++ ls2), s'.
  - assert (length rest ≤ 5) as Hlr.
    { pose proof (inv_writer _ _ _ _ Hi) as Hwr. rewrite Hw in Hwr.
      destruct Hwr as (_ & _ & x & dn & _ & Hsplit & _). apply (f_equal length) in Hsplit.
      rewrite length_app in Hsplit. simpl in Hsplit. lia. }
    destruct (read_drains _ _ _ _ _ _ Hi Hw) as (ls & s1 & Hws & Hl & Hk & Hp & Hi1).
    destruct (top_drains' _ _ _ _ ls s (9 * (length acc - h) + 11) Hi1 Hp)
      as (ls2 & s' & Hws2 & Hl2 & Hp2 & Hi2); [done|done|lia|].
    exists (ls ++ ls2), s'. unfold printed in *. by rewrite omap_app, app_assoc.
  - destruct (advance_step _ _ _ _ Hi Hw) as (s1 & Hws & Hk & Hi1 & Hp).
    destruct (top_drains' _ _ _ _ [Silent] s (9 * (length acc - h) + 11) Hi1 Hp)
      as (ls2 & s' & ?); [done|done|simpl; lia|]. by exists ([Silent] ++ ls2), s'.
Qed.

(** No record is written while it is read. *)
Definition racing (s : state) : Prop :=
  ∃ now c f rest f' rest' r, prod s = PStore now c (f :: rest) ∧ writer s = WRead (f' :: rest') r ∧
    latest 0 (tail_ s) = latest 0 (head_ s).

Lemma inv_no_race acc out h s : inv acc out h s → ¬ racing s.
Proof.
  intros [_ _ Hh Ht Hw Hp _ _ _ Hprod Hwr _] (now & c & f & rest & f' & rest' & r & Ep & Ew & Heq).
  rewrite Ep in Hprod. rewrite Ew in Hwr. destruct Hprod as (_ & Hroom & _), Hwr as (Hlt & _).
  rewrite Hh, Ht, !latest_counts in Heq. apply eq_sym, slot_inj in Heq; lia.
Qed.

Lemma exec_all_runs lvl ms ls s ls' s' :
  runs lvl ls s → exec_all ms s = Some (ls', s') → runs lvl (ls ++ ls') s'.
Proof.
  revert ls s ls'. induction ms as [|m ms IH]; intros ls s ls' Hr; cbn [exec_all].
  { intros [= <- <-]. by rewrite app_nil_r. }
  destruct (exec m s) as [[l s1]|] eqn:Hs; cbn [mbind option_bind fst snd]; [|done].
  destruct (exec_all ms s1) as [[ls2 s2]|] eqn:Hms; cbn [mbind option_bind fst snd]; [|done].
  intros [= <- <-]. rewrite cons_middle, app_assoc. by eapply IH; [eapply runs_step|].
Qed.

(** For examples: one message is published; one round of the writer. *)
Definition publish (p : proxy) (message function : list Z) (now : Z) : list move :=
  Log p message function :: replicate 7 (Main 0 now).
Definition print_round (i : nat) : list move := replicate 9 (Writer i).
Definition outcome (ms : list move) : list label * state :=
  default ([], initial kInfo) (exec_all ms (initial kInfo)).
Definition enabled (ms : list move) : bool :=
  match exec_all ms (initial kInfo) with Some _ => true | None => false end.
Lemma outcome_runs ms : enabled ms = true → runs kInfo (outcome ms).1 (outcome ms).2.
Proof.
  unfold enabled, outcome. destruct (exec_all ms (initial kInfo)) as [[ls s]|] eqn:H; [|done].
  intros _. by apply (exec_all_runs kInfo ms [] (initial kInfo)); [constructor|].
Qed.
End AsyncLogger.

(** ** Properties *)

(** C23. The logger under every interleaving of its two threads, with loads that
    may return outdated values: there is no exception and no access outside
    an array; no record is written while it is read; what is printed is a
    prefix of the published messages, in their order, each cut at 256 bytes;
    and every call of [Emit] is published, counted as dropped, or still
    running, in the order of the calls, and drops are reported or still in
    the counter (modulo 2^64). *)
Theorem logger_prints_in_order lvl ls s :
  AsyncLogger.runs lvl ls s →
  AsyncLogger.Fault ∉ ls ∧ ¬ AsyncLogger.racing s ∧
  AsyncLogger.printed ls `prefix_of` (AsyncLogger.expected <$> AsyncLogger.accepted ls) ∧
  (AsyncLogger.accepted ls).*2 `sublist_of` AsyncLogger.called ls ∧
  length (AsyncLogger.called ls) =
    length (AsyncLogger.accepted ls) + AsyncLogger.drops ls + AsyncLogger.busy s ∧
  wrapU 64 (Z.of_nat (AsyncLogger.drops ls)) =
    wrapU 64 (AsyncLogger.reported ls + AsyncLogger.dropped_count_ s).
Proof.
  intros Hr. destruct (AsyncLogger.runs_inv _ _ _ Hr) as [Hf [h Hi]].
  destruct (AsyncLogger.runs_counted _ _ _ Hr) as (Hsub & Hlen & Hd & _).
  split; [done|]. split; [by eapply AsyncLogger.inv_no_race|]. split_and!; [|..|done|done].
  - rewrite (AsyncLogger.inv_out _ _ _ _ Hi). rewrite fmap_take. apply prefix_take.
  - etrans; [|exact Hsub]. apply sublist_inserts_r. done.
Qed.

Definition sample_logging : list AsyncLogger.move :=
  AsyncLogger.publish Warn (str "disconnected") (str "Run") 1785920937715000000 ++
  AsyncLogger.Log Debug (str "not shown") (str "Run") ::
  AsyncLogger.print_round 1 ++
  AsyncLogger.publish Info (str "connected") (str "Run") 1785920938000000000.

Example sample_logging_prints :
  AsyncLogger.printed (AsyncLogger.outcome sample_logging).1 =
    [str "2026-08-05 17:08:57.715 WARN Run disconnected" ++ [10%Z]].
Proof. vm_compute. reflexivity. Qed.

Lemma logger_prints_in_order_witness :
  let '(ls, s) := AsyncLogger.outcome sample_logging in
  length (AsyncLogger.accepted ls) = 2 ∧
  AsyncLogger.printed ls `prefix_of` (AsyncLogger.expected <$> AsyncLogger.accepted ls).
Proof.
  assert (AsyncLogger.runs kInfo (AsyncLogger.outcome sample_logging).1
    (AsyncLogger.outcome sample_logging).2) as Hr.
  { apply AsyncLogger.outcome_runs. vm_compute. reflexivity. }
  assert (length (AsyncLogger.accepted (AsyncLogger.outcome sample_logging).1) = 2) as Hl
    by (vm_compute; reflexivity).
  destruct (AsyncLogger.outcome sample_logging) as [ls s]. split; [done|].
  exact (proj1 (proj2 (proj2 (logger_prints_in_order kInfo ls s Hr)))).
Defined.

(** C24. Whatever the main thread has left in the ring, the writer alone prints all
    of it within nine steps per message and twenty more, when its loads
    return the latest values; then it waits, or returns if the logger is
    being destroyed.  It must not have returned before, and not stand between
    finding the ring empty and seeing the flag cleared. *)
Theorem logger_drains lvl ls s :
  AsyncLogger.runs lvl ls s → AsyncLogger.writer s ≠ AsyncLogger.WDone →
  (AsyncLogger.writer s = AsyncLogger.WFlag →
    AsyncLogger.latest true (AsyncLogger.running_ s) = true) →
  ∃ ls' s', AsyncLogger.writes s ls' s' ∧ AsyncLogger.runs lvl (ls ++ ls') s' ∧
    length ls' ≤
      9 * (length (AsyncLogger.accepted ls) - length (AsyncLogger.printed ls)) + 20 ∧
    AsyncLogger.printed (ls ++ ls') = AsyncLogger.expected <$> AsyncLogger.accepted ls ∧
    AsyncLogger.writer s' = if AsyncLogger.latest true (AsyncLogger.running_ s)
                            then AsyncLogger.WTop else AsyncLogger.WDone.
Proof.
  intros Hr Hd Hf. destruct (AsyncLogger.runs_inv _ _ _ Hr) as [_ [h Hi]].
  destruct (AsyncLogger.writer_drains _ _ _ _ Hi Hd Hf) as (ls' & s' & Hw & Hl & Hp & Hi').
  exists ls', s'. split; [done|]. split; [by eapply AsyncLogger.writes_runs|]. split.
  - pose proof (AsyncLogger.inv_out _ _ _ _ Hi) as Ho. apply (f_equal length) in Ho.
    rewrite length_fmap, length_take in Ho.
    assert (length (AsyncLogger.printed ls) ≤ h + 1) by (destruct (AsyncLogger.writer s); lia). lia.
  - split; [|done]. unfold AsyncLogger.printed in *. rewrite omap_app.
    rewrite (AsyncLogger.inv_out _ _ _ _ Hi'). by rewrite take_ge by lia.
Qed.

Lemma logger_drains_witness :
  let '(ls, s) := AsyncLogger.outcome sample_logging in
  length (AsyncLogger.printed ls) = 1 ∧
  ∃ ls' s', AsyncLogger.writes s ls' s' ∧
    AsyncLogger.printed (ls ++ ls') = AsyncLogger.expected <$> AsyncLogger.accepted ls.
Proof.
  assert (AsyncLogger.runs kInfo (AsyncLogger.outcome sample_logging).1
    (AsyncLogger.outcome sample_logging).2) as Hr.
  { apply AsyncLogger.outcome_runs. vm_compute. reflexivity. }
  assert (length (AsyncLogger.printed (AsyncLogger.outcome sample_logging).1) = 1) as Hl
    by (vm_compute; reflexivity).
  assert (AsyncLogger.writer (AsyncLogger.outcome sample_logging).2 = AsyncLogger.WTop) as Hw
    by (vm_compute; reflexivity).
  destruct (AsyncLogger.outcome sample_logging) as [ls s]. simpl in Hw. split; [done|].
  destruct (logger_drains kInfo ls s Hr) as (ls' & s' & Hws & _ & _ & Hp & _).
  - by rewrite Hw.
  - by rewrite Hw.
  - by exists ls', s'.
Defined.

(** The exit loses messages: the writer finds the ring empty, the main thread
    then logs a last message and destroys the logger, the writer sees the
    cleared flag and returns.  The message was accepted and is never printed;
    both threads have ended. *)
Definition exit_schedule : list AsyncLogger.move :=
  [AsyncLogger.Writer 0; AsyncLogger.Writer 0] ++
  AsyncLogger.publish Error (str "Fatal exception") (str "main") 1785920937715000000 ++
  [AsyncLogger.Destroy; AsyncLogger.Writer 1; AsyncLogger.Main 0 0].

Theorem logger_loses_at_exit :
  ∃ ls s, AsyncLogger.runs kInfo ls s ∧
    AsyncLogger.accepted ls =
      [(1785920937715000000%Z, AsyncLogger.MkCall kError (str "Fatal exception") (str "main"))] ∧
    AsyncLogger.printed ls = [] ∧ AsyncLogger.drops ls = 0 ∧
    ∀ m, AsyncLogger.exec m s = None.
Proof.
  exists (AsyncLogger.outcome exit_schedule).1, (AsyncLogger.outcome exit_schedule).2.
  split; [apply AsyncLogger.outcome_runs; vm_compute; reflexivity|].
  split; [vm_compute; reflexivity|]. split; [vm_compute; reflexivity|].
  split; [vm_compute; reflexivity|].
  assert (AsyncLogger.prod (AsyncLogger.outcome exit_schedule).2 = AsyncLogger.PGone ∧
          AsyncLogger.writer (AsyncLogger.outcome exit_schedule).2 = AsyncLogger.WDone) as [Hp Hw].
  { vm_compute. split; reflexivity. }
  intros [p m f| |i now|i]; cbn [AsyncLogger.exec]; unfold AsyncLogger.main_step,
    AsyncLogger.writer_step; by rewrite ?Hp, ?Hw.
Qed.
