(* ===== verification/OrderEntry.v ===== *)
(** * Order entry: okx/orders/order_types.*, ws_orders.*, rest_orders.*

    Request ids, the messages that place, amend and cancel orders over the
    WebSocket, and the same requests over REST with the reading of their
    responses. *)

From S2P Require Import Prelude Json Okx World.

Record OrderRequest := MkRequest {
  rq_inst_id : list Z; rq_side : list Z; rq_ord_type : list Z; rq_px : list Z; rq_sz : list Z;
  rq_inst_id_code : Z }.

Record WsOrderRequest := MkWsOrder { wo_id : list Z; wo_message : list Z }.
Record WsBatchOrderRequest := MkWsBatch {
  wb_id : list Z; wb_message : list Z; wb_cl_ord_ids : list (list Z) }.

Record OrderResult := MkResult {
  or_accepted : bool; or_ord_id : list Z; or_cl_ord_id : list Z; or_code : list Z;
  or_s_code : list Z; or_s_msg : list Z }.

Section order_entry.
Context {W : Type} `{!World W}.

(** ** Ids

    The state is the static [last_id] and the world.  [last_id + 1] is
    computed in 64 bits, where overflow is undefined. *)
Definition on_world {A} : M W A → M (Z * W) A := zoom snd (λ w st, (st.1, w)).

Definition GenerateId : M (Z * W) (list Z) :=
  now ← on_world (ask system_clock_now);
  let now_ms := Z.quot now 1000000 in
  st ← get;
  if (2 ^ 63 <=? st.1 + 1)%Z then lift (Stop UB)
  else
    let last_id := Z.max (st.1 + 1) now_ms in
    _ ← put (last_id, st.2);
    mret (to_string last_id).

(** ** WebSocket messages *)
Definition FormatOrderArg (request : OrderRequest) (cl_ord_id : list Z) : result (list Z) :=
  if decide (rq_ord_type request = kMarket)
  then throw (invalid_argument "Market orders are not yet supported" [])
  else Ok (qstr "{'instIdCode':" ++ to_string (rq_inst_id_code request) ++
    qstr ",'tdMode':'" ++ kCash ++ qstr "','side':'" ++ rq_side request ++
    qstr "','ordType':'" ++ rq_ord_type request ++ qstr "','px':'" ++ rq_px request ++
    qstr "','sz':'" ++ rq_sz request ++ qstr "','clOrdId':'" ++ cl_ord_id ++ qstr "'}").

Definition BuildWsOrderMessage (request : OrderRequest) : M (Z * W) WsOrderRequest :=
  id ← GenerateId;
  arg ← lift (FormatOrderArg request id);
  mret (MkWsOrder id
    (qstr "{'id':'" ++ id ++ qstr "','op':'order','args':[" ++ arg ++ qstr "]}")).

Definition BuildWsCancelOrderMessage (inst_id_code : Z) (ord_id : list Z)
    : M (Z * W) WsOrderRequest :=
  id ← GenerateId;
  mret (MkWsOrder id
    (qstr "{'id':'" ++ id ++ qstr "','op':'cancel-order','args':[{'instIdCode':" ++
     to_string inst_id_code ++ qstr ",'ordId':'" ++ ord_id ++ qstr "'}]}")).

Definition BuildWsAmendOrderMessage (inst_id_code : Z) (ord_id new_px new_sz : list Z)
    : M (Z * W) WsOrderRequest :=
  id ← GenerateId;
  mret (MkWsOrder id
    (qstr "{'id':'" ++ id ++ qstr "','op':'amend-order','args':[{'instIdCode':" ++
     to_string inst_id_code ++ qstr ",'ordId':'" ++ ord_id ++ qstr "','newPx':'" ++ new_px ++
     qstr "','newSz':'" ++ new_sz ++ qstr "'}]}")).

(** The loop over the requests: the arguments, a comma behind each, and the
    ids. *)
Fixpoint batch_args (requests : list OrderRequest) : M (Z * W) (list Z * list (list Z)) :=
  match requests with
  | [] => mret ([], [])
  | request :: requests' =>
      cl_ord_id ← GenerateId;
      arg ← lift (FormatOrderArg request cl_ord_id);
      x ← batch_args requests';
      mret (arg ++ str "," ++ x.1, cl_ord_id :: x.2)
  end.
Definition BuildWsBatchOrdersMessage (requests : list OrderRequest)
    : M (Z * W) WsBatchOrderRequest :=
  if decide (requests = [])
  then throwM (invalid_argument "Batch order request must include at least one order" [])
  else
    x ← batch_args requests;
    let args_json := take (length x.1 - 1) x.1 in
    id ← GenerateId;
    mret (MkWsBatch id
      (qstr "{'id':'" ++ id ++ qstr "','op':'batch-orders','args':[" ++ args_json ++ qstr "]}")
      x.2).

(** ** REST requests *)
Definition kOrderPath := str "/api/v5/trade/order".
Definition kCancelOrderPath := str "/api/v5/trade/cancel-order".
Definition kPendingOrdersPath := str "/api/v5/trade/orders-pending".

Definition ValueOrEmpty (value : option string_view) : list Z :=
  match value with Some v => sv_text v | None => [] end.

Definition ParseOrderResult (response : HttpResponse) : OrderResult :=
  let json := sv_of (body response) in
  let code := ValueOrEmpty (json.FindString json kCode) in
  match FindData json with
  | None => MkResult false [] [] code [] []
  | Some data =>
      let s_code := ValueOrEmpty (json.FindString data kSCode) in
      MkResult (bool_decide (code = kSuccessCode) && bool_decide (s_code = kSuccessCode))
        (ValueOrEmpty (json.FindString data kOrdId)) (ValueOrEmpty (json.FindString data kClOrdId))
        code s_code (ValueOrEmpty (json.FindString data kSMsg))
  end.

Definition order_body (request : OrderRequest) (cl_ord_id : list Z) : list Z :=
  qstr "{'instId':'" ++ rq_inst_id request ++ qstr "','tdMode':'" ++ kCash ++
  qstr "','side':'" ++ rq_side request ++ qstr "','ordType':'" ++ rq_ord_type request ++
  qstr "','px':'" ++ rq_px request ++ qstr "','sz':'" ++ rq_sz request ++
  qstr "','clOrdId':'" ++ cl_ord_id ++ qstr "'}".
Definition PlaceOrder (rest : RestClient) (auth : OkxAuth) (request : OrderRequest)
    : M (Z * W) OrderResult :=
  if decide (rq_ord_type request = kMarket)
  then throwM (invalid_argument "Market orders are not yet supported" [])
  else
    cl_ord_id ← GenerateId;
    let body := order_body request cl_ord_id in
    headers ← on_world (SignHeaders auth kPost kOrderPath body);
    response ← on_world (Post rest kOrderPath body headers);
    mret (ParseOrderResult response).

Definition cancel_body (inst_id ord_id : list Z) : list Z :=
  qstr "{'instId':'" ++ inst_id ++ qstr "','ordId':'" ++ ord_id ++ qstr "'}".
Definition CancelOrder (rest : RestClient) (auth : OkxAuth) (inst_id ord_id : list Z)
    : M W OrderResult :=
  let body := cancel_body inst_id ord_id in
  headers ← SignHeaders auth kPost kCancelOrderPath body;
  response ← Post rest kCancelOrderPath body headers;
  mret (ParseOrderResult response).

Definition GetPendingOrders (rest : RestClient) (auth : OkxAuth) : M W HttpResponse :=
  headers ← SignHeaders auth kGet kPendingOrdersPath [];
  Get rest kPendingOrdersPath headers.
End order_entry.

(** ** Ids are unique *)
Lemma no_quote_app a b : json.no_quote (a ++ b) = json.no_quote a && json.no_quote b.
Proof. apply forallb_app. Qed.
Lemma pretty_N_go_no_quote x s :
  json.no_quote (str s) = true → json.no_quote (str (pretty_N_go x s)) = true.
Proof.
  revert s. induction (N.lt_wf_0 x) as [x _ IH]. intros s Hs.
  destruct (decide (0 < x)%N) as [Hx|Hx].
  - rewrite pretty_N_go_step by done. apply IH; [by apply N.div_lt|].
    unfold str in *. cbn [String.list_ascii_of_string fmap list_fmap json.no_quote forallb].
    apply andb_true_iff. split; [|exact Hs].
    pose proof (N.mod_lt x 10 ltac:(lia)). unfold pretty_N_char. repeat case_match; done.
  - assert (x = 0%N) as -> by lia. by rewrite pretty_N_go_0.
Qed.
Lemma pretty_N_no_quote n : json.no_quote (str (pretty (n : N))) = true.
Proof. unfold pretty, pretty_N. case_decide; [done|]. by apply pretty_N_go_no_quote. Qed.
Lemma to_string_no_quote z : json.no_quote (to_string z) = true.
Proof.
  destruct z as [|p|p]; [done|exact (pretty_N_no_quote (N.pos p))|exact (pretty_N_no_quote (N.pos p))].
Qed.
Lemma str_inj a b : str a = str b → a = b.
Proof.
  unfold str. intros H.
  rewrite <-(String.string_of_list_ascii_of_string a), <-(String.string_of_list_ascii_of_string b).
  f_equal. revert H. generalize (String.list_ascii_of_string b).
  induction (String.list_ascii_of_string a) as [|x l IH]; intros [|y l']; simpl; try done.
  intros [= Hc Hl]. f_equal; [|by apply IH].
  unfold chr in Hc. rewrite <-(Ascii.ascii_N_embedding x), <-(Ascii.ascii_N_embedding y).
  f_equal. lia.
Qed.
#[global] Instance to_string_inj : Inj eq eq to_string.
Proof. intros a b H. by apply (inj pretty), str_inj. Qed.

Section ids.
Context {W : Type} `{!World W}.

Fixpoint generate (n : nat) : M (Z * W) (list (list Z)) :=
  match n with O => mret [] | S n' => id ← GenerateId; ids ← generate n'; mret (id :: ids) end.

Lemma GenerateId_spec last (w : W) :
  (last + 1 < 2 ^ 63)%Z →
  GenerateId (last, w) =
    (let '(now, w') := system_clock_now w in
     let z := Z.max (last + 1) (Z.quot now 1000000) in (Ok (to_string z), (z, w'))).
Proof.
  intros Hl. unfold GenerateId, on_world, zoom, mbind, M_bind, ask. cbn [fst snd].
  destruct (system_clock_now w) as [now w']. unfold get. cbn [fst snd].
  by rewrite (proj2 (Z.leb_gt _ _)) by lia.
Qed.

Lemma generate_spec n last (w : W) :
  (∀ w, Z.quot (system_clock_now w).1 1000000 < 2 ^ 62)%Z →
  (Z.max last (2 ^ 62) + Z.of_nat n < 2 ^ 63 - 1)%Z →
  ∃ zs st, generate n (last, w) = (Ok (to_string <$> zs), st) ∧ length zs = n ∧
    StronglySorted Z.lt (last :: zs).
Proof.
  intros Hclock. revert last w. induction n as [|n IH]; intros last w Hb.
  { exists [], (last, w). split_and!; [done|done|by repeat constructor]. }
  cbn [generate]. unfold mbind at 1, M_bind at 1. rewrite GenerateId_spec by lia.
  pose proof (Hclock w) as Hw. destruct (system_clock_now w) as [now w']. cbn [fst] in Hw.
  set (z := Z.max (last + 1) (Z.quot now 1000000)). destruct (IH z w') as (zs & st & Hg & Hn & Hs); [lia|].
  exists (z :: zs), st. cbv zeta. unfold mbind, M_bind. rewrite Hg. split; [done|].
  split; [by rewrite <-Hn|]. apply SSorted_cons; [done|]. constructor; [lia|].
  apply StronglySorted_inv in Hs as [_ Hs]. eapply Forall_impl; [exact Hs|]. simpl. lia.
Qed.
End ids.

(** ** Reading the messages back *)
Lemma string_of_key_field key v g l :
  json.string_of_key key ((key, str ":") :: (v, g) :: l) = Some v.
Proof. unfold json.string_of_key. cbn [json.key_split]. by rewrite decide_True. Qed.
Lemma string_of_key_skip key s g l :
  json.after_colon g = None ∨ s ≠ key →
  json.string_of_key key ((s, g) :: l) = json.string_of_key key l.
Proof.
  intros H. unfold json.string_of_key. cbn [json.key_split]. case_decide; [|done].
  by destruct H as [->|?].
Qed.
(** Find a field among segments whose keys are known. *)
Ltac find_field :=
  repeat first
    [ apply string_of_key_field
    | rewrite string_of_key_skip by (first [left; reflexivity | right; vm_compute; congruence]) ].

(** Segments whose gaps start with a delimiter: no key is taken for a gap. *)
Definition delimited (x : list Z * list Z) : Prop :=
  json.no_quote x.1 = true ∧ json.no_quote x.2 = true ∧
  bool_decide (head x.2 ∈ [Some 58; Some 44; Some 125; Some 93]%Z) = true.
Lemma find_in_segs v key g0 l :
  json.no_quote g0 = true → Forall delimited l →
  sv_wf v → sv_text v = g0 ++ json.segs_text l → json.no_quote key = true →
  bool_decide (head key ∈ [Some 58; Some 44; Some 125; Some 93]%Z) = false →
  sv_text <$> json.FindString v key = json.string_of_key key l.
Proof.
  intros Hg Hl Hv Ht Hk Hh. apply (json.FindString_segs v Hv key g0 l Ht).
  split; [done|]. split; [done|]. eapply Forall_impl; [exact Hl|]. intros [s g] (?&?&Hd).
  split; [done|]. split; [done|]. intros Heq. rewrite Heq, Hh in Hd. done.
Qed.

(** ** Properties *)

(** C30. However often and however fast ids are generated, and even when the
    clock is set back in between, no two are the same: they are the decimals
    of a strictly increasing sequence of numbers (while the clock shows less
    than 2^62 ms since the epoch). *)
Theorem generated_ids_unique {W} `{!World W} (n : nat) (w : W) :
  (∀ w, Z.quot (system_clock_now w).1 1000000 < 2 ^ 62)%Z → (Z.of_nat n < 2 ^ 61)%Z →
  ∃ zs st, generate n (0%Z, w) = (Ok (to_string <$> zs), st) ∧ length zs = n ∧
    StronglySorted Z.lt zs ∧ NoDup (to_string <$> zs).
Proof.
  intros Hclock Hn. destruct (generate_spec n 0 w Hclock) as (zs & st & Hg & Hl & Hs); [lia|].
  exists zs, st. split; [done|]. split; [done|]. apply StronglySorted_inv in Hs as [Hs _].
  split; [done|]. apply NoDup_fmap_2; [apply _|]. clear -Hs.
  induction Hs as [|z zs Hs IH Hz]; constructor; [|done].
  intros Hin. rewrite Forall_forall in Hz. specialize (Hz z Hin). lia.
Qed.

Lemma generated_ids_unique_witness :
  ∃ zs st, @generate unit (sample_world 5000000 []) 3 (0%Z, tt) = (Ok (to_string <$> zs), st) ∧
    length zs = 3 ∧ StronglySorted Z.lt zs ∧ NoDup (to_string <$> zs).
Proof. apply generated_ids_unique; [intros w; vm_compute; reflexivity|vm_compute; reflexivity]. Defined.

(** C29. A message that places an order can be read back: its id, its
    operation, and the side, type, price, size and client order id of the
    order, when none of them contains a double quote; the client order id is
    the id of the request.  A market order is refused. *)
Theorem order_message_reads_back {W} `{!World W} request last (w : W) :
  (last + 1 < 2 ^ 63)%Z →
  Forall (λ x, json.no_quote x = true)
    [rq_side request; rq_ord_type request; rq_px request; rq_sz request] →
  ∃ id st, (last < st.1)%Z ∧ id = to_string st.1 ∧
  if decide (rq_ord_type request = kMarket)
  then BuildWsOrderMessage request (last, w) =
    (throw (invalid_argument "Market orders are not yet supported" []), st)
  else ∃ message, BuildWsOrderMessage request (last, w) = (Ok (MkWsOrder id message), st) ∧
    let field k := sv_text <$> json.FindString (sv_of message) (str k) in
    field "id"%string = Some id ∧ field "op"%string = Some kOrderOp ∧
    field "side"%string = Some (rq_side request) ∧
    field "ordType"%string = Some (rq_ord_type request) ∧
    field "px"%string = Some (rq_px request) ∧ field "sz"%string = Some (rq_sz request) ∧
    field "clOrdId"%string = Some id.
Proof.
  intros Hlast Hq. rewrite !Forall_cons in Hq. destruct Hq as (Q1 & Q2 & Q3 & Q4 & _).
  unfold BuildWsOrderMessage, mbind, M_bind. rewrite GenerateId_spec by done.
  destruct (system_clock_now w) as [now w']. cbv zeta.
  set (z := Z.max (last + 1) (Z.quot now 1000000)). exists (to_string z), (z, w').
  split; [simpl; lia|]. split; [done|]. unfold FormatOrderArg. case_decide as Hm; [done|].
  unfold lift. cbn [mret M_ret]. eexists. split; [reflexivity|].
  pose proof (to_string_no_quote z) as Qz. pose proof (to_string_no_quote (rq_inst_id_code request)) as Qc.
  generalize dependent (to_string z). intros id Qz.
  generalize dependent (to_string (rq_inst_id_code request)). intros code Qc.
  set (l := [(str "id", str ":"); (id, str ","); (str "op", str ":"); (kOrderOp, str ",");
    (str "args", str ":[{"); (str "instIdCode", str ":" ++ code ++ str ",");
    (str "tdMode", str ":"); (kCash, str ","); (str "side", str ":"); (rq_side request, str ",");
    (str "ordType", str ":"); (rq_ord_type request, str ","); (str "px", str ":");
    (rq_px request, str ","); (str "sz", str ":"); (rq_sz request, str ",");
    (str "clOrdId", str ":"); (id, str "}]}")]).
  assert (Forall delimited l) as Hl.
  { repeat apply Forall_cons_2; try apply Forall_nil_2; (split; [done|split; [|done]]);
      cbn [fst snd]; rewrite ?no_quote_app, ?Qc; done. }
  pose proof (λ v key, find_in_segs v key (str "{") l eq_refl Hl) as Hfind. clear Hl.
  split_and!; (erewrite Hfind; [unfold l; find_field|apply sv_wf_of| |reflexivity|reflexivity]);
    rewrite sv_text_of; unfold l; cbn [json.segs_text]; rewrite <-?app_assoc; reflexivity.
Qed.

Definition sample_place : OrderRequest :=
  MkRequest (str "ETH-USDT") kBuy kLimit (str "100") (str "0.01") 7.
Lemma order_message_reads_back_witness :
  ∃ id st message,
    @BuildWsOrderMessage unit (sample_world 5000000 []) sample_place (3%Z, tt) =
      (Ok (MkWsOrder id message), st) ∧
    sv_text <$> json.FindString (sv_of message) kClOrdId = Some id.
Proof.
  destruct (@order_message_reads_back unit (sample_world 5000000 []) sample_place 3 tt)
    as (id & st & _ & _ & H); [reflexivity|repeat constructor|].
  change (∃ message, @BuildWsOrderMessage unit (sample_world 5000000 []) sample_place (3%Z, tt) =
      (Ok (MkWsOrder id message), st) ∧
    let field k := sv_text <$> json.FindString (sv_of message) (str k) in
    field "id"%string = Some id ∧ field "op"%string = Some kOrderOp ∧
    field "side"%string = Some (rq_side sample_place) ∧
    field "ordType"%string = Some (rq_ord_type sample_place) ∧
    field "px"%string = Some (rq_px sample_place) ∧ field "sz"%string = Some (rq_sz sample_place) ∧
    field "clOrdId"%string = Some id) in H.
  destruct H as (message & Hb & H). exists id, st, message.
  exact (conj Hb (proj2 (proj2 (proj2 (proj2 (proj2 (proj2 H))))))).
Defined.

Lemma GenerateId_log {W} (wo : World W) last w log :
  (@GenerateId _ (recording wo) (last, (w, log))).2.2.2 = log.
Proof.
  unfold GenerateId, on_world, zoom, mbind, M_bind, ask. cbn [fst snd system_clock_now recording].
  unfold on_fst. cbn [fst snd]. destruct (system_clock_now w). unfold get. cbn [fst snd].
  by destruct (_ <=? _)%Z.
Qed.
(** A call that signs and performs one request, whatever it does with the
    answer. *)
Lemma signed_call {W} {wo : World W} {A} rest auth method path (post : option (list Z))
    (f : HttpResponse → A) (w : W) log r w' log' :
  let _ := recording wo in
  method = (if post then kPost else kGet) →
  (headers ← SignHeaders auth method path (default [] post);
   response ← Perform rest post path headers; mret (f response)) (w, log) = (r, (w', log')) →
  ∃ new, log' = log ++ new ∧ made rest auth path post (∃ a, r = Ok a) new.
Proof.
  intros wr Hm. rewrite bind_assoc. unfold mbind at 1, M_bind at 1.
  match goal with |- context [match ?m (w, log) with _ => _ end] =>
    destruct (m (w, log)) as [r1 [w1 log1]] eqn:E end.
  destruct (signed_perform rest auth method path post w log r1 w1 log1 Hm E) as (new & -> & H1 & H2 & H3).
  intros Heq. exists new. split; [destruct r1; exact (eq_sym (f_equal (λ x, x.2.2) Heq))|].
  split; [done|]. split; [done|]. intros [a Ha]. apply H3. apply (f_equal fst) in Heq.
  destruct r1; simpl in Heq; [by eexists|]. congruence.
Qed.

Lemma on_world_seq {W A B C} (m : M W A) (p : A → M W B) (f : B → C) last w :
  (h ← on_world m; r ← on_world (p h); mret (f r)) (last, w) =
    (let '(r, w') := (h ← m; r ← p h; mret (f r)) w in (r, (last, w'))).
Proof.
  unfold on_world, zoom, mbind, M_bind. cbn [fst snd]. destruct (m w) as [[a|x] w1]; [|done].
  cbn [fst snd]. destruct (p a w1) as [[b|x] w2]; reflexivity.
Qed.
Lemma PlaceOrder_made {W} (wo : World W) rest auth request last (w : W) log r last' w' log' :
  @PlaceOrder _ (recording wo) rest auth request (last, (w, log)) = (r, (last', (w', log'))) →
  ∃ id new, log' = log ++ new ∧
    @made _ (recording wo) rest auth kOrderPath (Some (order_body request id)) (∃ a, r = Ok a) new.
Proof.
  assert (∀ p b x, @made _ (recording wo) rest auth p b (∃ a : OrderResult, Stop x = Ok a) []) as Hnone.
  { intros p b x. split; [simpl; lia|]. split; [done|]. by intros [a ?]. }
  unfold PlaceOrder. case_decide.
  { intros [= <- _ _ <-]. exists [], []. rewrite app_nil_r. by split; [|apply Hnone]. }
  unfold mbind at 1, M_bind at 1. pose proof (GenerateId_log wo last w log) as Hlog.
  destruct (GenerateId (last, (w, log))) as [[id|x] [l2 [w2 log2]]]; simpl in Hlog; subst log2.
  2:{ intros [= <- _ _ <-]. exists [], []. rewrite app_nil_r. by split; [|apply Hnone]. }
  cbv zeta. rewrite on_world_seq. 
  match goal with |- context [let '(_, _) := ?m (w2, log) in _] =>
    destruct (m (w2, log)) as [r1 [w1 log1]] eqn:E end.
  intros [= <- Hl Hw <-]. exists id.
  exact (signed_call rest auth kPost kOrderPath (Some (order_body request id)) ParseOrderResult
    w2 log r1 w1 log1 eq_refl E).
Qed.

(** C31. Every REST request about orders (placing one, canceling one, listing
    the pending ones) is signed so that the exchange accepts it: with the
    time stamp in its headers, the signature in them is the HMAC of time
    stamp, method, path and body of this very request.  Each call makes at
    most one request. *)
Theorem order_requests_signed {W} (wo : World W) rest auth request inst_id ord_id last (w : W) log :
  let signed_in path post {A} (r : result A) (log' : list CurlOptions) :=
    ∃ new, log' = log ++ new ∧ @made _ (recording wo) rest auth path post (∃ a, r = Ok a) new in
  (let '(r, (last', (_, log'))) := @PlaceOrder _ (recording wo) rest auth request (last, (w, log)) in
   ∃ id, signed_in kOrderPath (Some (order_body request id)) r log') ∧
  (let '(r, (_, log')) := @CancelOrder _ (recording wo) rest auth inst_id ord_id (w, log) in
   signed_in kCancelOrderPath (Some (cancel_body inst_id ord_id)) r log') ∧
  (let '(r, (_, log')) := @GetPendingOrders _ (recording wo) rest auth (w, log) in
   signed_in kPendingOrdersPath None r log').
Proof.
  intros signed_in. split; [|split].
  - destruct (PlaceOrder rest auth request (last, (w, log))) as [r [last' [w' log']]] eqn:E.
    exact (PlaceOrder_made wo rest auth request last w log r last' w' log' E).
  - destruct (CancelOrder rest auth inst_id ord_id (w, log)) as [r [w' log']] eqn:E.
    exact (signed_call rest auth kPost kCancelOrderPath (Some (cancel_body inst_id ord_id))
      ParseOrderResult w log r w' log' eq_refl E).
  - destruct (GetPendingOrders rest auth (w, log)) as [r [w' log']] eqn:E.
    exact (signed_perform rest auth kGet kPendingOrdersPath None w log r w' log' eq_refl E).
Qed.
