(* ===== verification/Handshake.v ===== *)
(** * The WebSocket opening handshake: net/websocket_handshake.cpp

    The request with its random key, the reading of the response up to the
    end of its header block, and the check of status and accept key. *)

From S2P Require Import Prelude Float64 World Transport.

Definition kWebSocketGuid := str "258EAFA5-E914-47DA-95CA-C5AB0DC85B11".
Definition kCrLf : list Z := [13; 10]%Z.
Definition kExpectedStatusLine := str "HTTP/1.1 101".
Definition kAcceptHeaderName := str "sec-websocket-accept".
Definition kColon : Z := 58.
Definition kWhitespace : Z := 32.
Definition kHeaderTerminator : list Z := kCrLf ++ kCrLf.
(** [std::string_view::npos]. *)
Definition npos : Z := 2 ^ 64 - 1.

Definition ToLower (text : list Z) : list Z := to_lower <$> text.

(** [text.find(pat, pos)] and [text.substr(pos, n)] at the width of [size_t],
    for [pos] in range. *)
Definition find_from (text pat : list Z) (pos : Z) : Z :=
  match find_sub pat (drop (Z.to_nat pos) text) with
  | Some i => (pos + Z.of_nat i)%Z
  | None => npos
  end.
Definition substr_from (text : list Z) (pos n : Z) : list Z :=
  take (Z.to_nat (Z.min n (Z.of_nat (length text)))) (drop (Z.to_nat pos) text).

Fixpoint skip_spaces (line : list Z) : list Z :=
  match line with
  | c :: line' => if (c =? kWhitespace)%Z then skip_spaces line' else line
  | [] => []
  end.

(** [line_end + kCrLf.size()] wraps around when there is no line end; the
    budget counts the lines. *)
Fixpoint FindHeader_loop (fuel : nat) (response name : list Z) (pos : Z)
    : result (option (list Z)) :=
  if negb (pos <? Z.of_nat (length response))%Z then Ok None
  else
    match fuel with
    | O => Stop Fuel
    | S fuel' =>
        let line_end := find_from response kCrLf pos in
        let line := substr_from response pos (wrapU 64 (line_end - pos)) in
        if decide (line = []) then Ok None
        else
          match find_byte kColon line with
          | Some colon =>
              if decide (ToLower (take colon line) = name)
              then Ok (Some (skip_spaces (drop (colon + 1) line)))
              else FindHeader_loop fuel' response name (wrapU 64 (line_end + 2))
          | None => FindHeader_loop fuel' response name (wrapU 64 (line_end + 2))
          end
    end.
Definition FindHeader (response name : list Z) : result (option (list Z)) :=
  FindHeader_loop (S (length response)) response name 0.

Section handshake.
Context {W : Type} `{!World W}.

Definition GenerateWebSocketKey : M W (list Z) :=
  nonce ← ask (RAND_bytes 16);
  match nonce with
  | Some nonce => mret (Base64Encode nonce)
  | None => throwM (runtime_error "Failed to generate random Sec-WebSocket-Key" [])
  end.
Definition ComputeExpectedAccept (key : list Z) : result (list Z) :=
  Base64Encode <$> Sha1 (key ++ kWebSocketGuid).

(** The budget bounds the number of reads; the loop itself does not. *)
Fixpoint ReadHandshakeResponse (fuel : nat) (response : list Z) : M W (list Z) :=
  match find_sub kHeaderTerminator response with
  | Some _ => mret response
  | None =>
      match fuel with
      | O => lift (Stop Fuel)
      | S fuel' =>
          chunk ← Transport.ReadSome 512;
          ReadHandshakeResponse fuel' (response ++ chunk)
      end
  end.

Definition request_text (host path key : list Z) (extra_headers : list (list Z)) : list Z :=
  str "GET " ++ path ++ str " HTTP/1.1" ++ kCrLf ++ str "Host: " ++ host ++ kCrLf ++
  str "Upgrade: websocket" ++ kCrLf ++ str "Connection: Upgrade" ++ kCrLf ++
  str "Sec-WebSocket-Key: " ++ key ++ kCrLf ++ str "Sec-WebSocket-Version: 13" ++ kCrLf ++
  concat ((λ header, header ++ kCrLf) <$> extra_headers) ++ kCrLf.

(** What is checked of the response. *)
Definition CheckResponse (key response : list Z) : result unit :=
  if negb (bool_decide (take (length kExpectedStatusLine) response = kExpectedStatusLine))
  then throw (runtime_error "WebSocket handshake failed with error: {}"
    [substr_from response 0 (find_from response kCrLf 0)])
  else
    accept_header ← FindHeader response kAcceptHeaderName;
    match accept_header with
    | None => throw (runtime_error
        "WebSocket handshake failed: missing Sec-WebSocket-Accept header" [])
    | Some accept_header =>
        expected ← ComputeExpectedAccept key;
        if decide (accept_header = expected) then Ok tt
        else throw (runtime_error
          "WebSocket handshake failed: Sec-WebSocket-Accept did not verify" [])
    end.

Definition PerformWebSocketHandshake (fuel : nat) (host path : list Z)
    (extra_headers : list (list Z)) : M W unit :=
  key ← GenerateWebSocketKey;
  _ ← Transport.Write (request_text host path key extra_headers);
  response ← ReadHandshakeResponse fuel [];
  lift (CheckResponse key response).
End handshake.

(** ** Header lines *)
Definition header_of (name line : list Z) : option (list Z) :=
  match find_byte kColon line with
  | Some colon => if decide (ToLower (take colon line) = name)
      then Some (skip_spaces (drop (colon + 1) line)) else None
  | None => None
  end.
Fixpoint first_header (name : list Z) (lines : list (list Z)) : option (list Z) :=
  match lines with
  | [] => None
  | line :: lines' =>
      match header_of name line with Some v => Some v | None => first_header name lines' end
  end.
(** A response: its lines, the blank line, and whatever follows. *)
Definition response_text (lines : list (list Z)) (rest : list Z) : list Z :=
  concat ((λ line, line ++ kCrLf) <$> lines) ++ kCrLf ++ rest.
Definition line_ok (line : list Z) : Prop := line ≠ [] ∧ Forall (λ c, c ≠ 13%Z) line.

Lemma find_crlf line rest :
  Forall (λ c, c ≠ 13%Z) line → find_sub kCrLf (line ++ kCrLf ++ rest) = Some (length line).
Proof.
  induction 1 as [|c line Hc _ IH]; [reflexivity|]. cbn [app find_sub length].
  rewrite decide_False by (unfold kCrLf; simpl; congruence). by rewrite IH.
Qed.

Lemma line_at pre line rest :
  Forall (λ c, c ≠ 13%Z) line →
  let response := pre ++ line ++ kCrLf ++ rest in
  (Z.of_nat (length response) < 2 ^ 63)%Z →
  let pos := Z.of_nat (length pre) in
  find_from response kCrLf pos = (pos + Z.of_nat (length line))%Z ∧
  substr_from response pos (wrapU 64 (pos + Z.of_nat (length line) - pos)) = line ∧
  wrapU 64 (pos + Z.of_nat (length line) + 2) = Z.of_nat (length (pre ++ line ++ kCrLf)).
Proof.
  intros Hl response Hb pos. unfold response, pos in *. rewrite !length_app in Hb. simpl in Hb.
  unfold find_from, substr_from. rewrite Nat2Z.id, drop_app_length, find_crlf by done.
  split; [done|]. rewrite !wrapU_small by lia. split.
  - rewrite take_app_le by (rewrite !length_app; lia). rewrite take_ge; [done|].
    rewrite !length_app. simpl. lia.
  - rewrite !length_app. simpl. lia.
Qed.

Lemma FindHeader_loop_lines name lines rest pre fuel :
  Forall line_ok lines → length lines < fuel →
  (Z.of_nat (length (pre ++ response_text lines rest)) < 2 ^ 63)%Z →
  FindHeader_loop fuel (pre ++ response_text lines rest) name (Z.of_nat (length pre)) =
    Ok (first_header name lines).
Proof.
  intros Hl. revert pre fuel. induction Hl as [|line lines [Hne Hok] Hl IH]; intros pre fuel Hf Hb;
    (destruct fuel as [|fuel]; [simpl in Hf; lia|]); cbn [FindHeader_loop].
  - rewrite (proj2 (Z.ltb_lt _ _)) by (rewrite !length_app; simpl; lia). cbn [negb].
    destruct (line_at pre [] rest (Forall_nil_2 _) Hb) as (H1 & H2 & _).
    change (response_text [] rest) with ([] ++ kCrLf ++ rest).
    rewrite H1, H2. by rewrite decide_True.
  - assert (response_text (line :: lines) rest = line ++ kCrLf ++ response_text lines rest) as Heq
      by (unfold response_text; cbn [fmap list_fmap concat]; by rewrite <-!app_assoc).
    rewrite Heq in Hb |- *.
    rewrite (proj2 (Z.ltb_lt _ _)) by (rewrite !length_app; simpl; lia). cbn [negb].
    destruct (line_at pre line _ Hok Hb) as (H1 & H2 & H3). rewrite H1, H2, H3, decide_False by done.
    specialize (IH (pre ++ line ++ kCrLf) fuel). rewrite <-!app_assoc in IH.
    cbn [first_header]. unfold header_of. simpl in Hf.
    destruct (find_byte kColon line) as [colon|]; [case_decide; [done|]|]; rewrite IH; (done || lia).
Qed.

(** ** Properties *)

(** C32. What the check of the server's response comes to, for a response
    whose lines are not empty, contain no carriage return and end in CRLF, up
    to a blank line: it is accepted if and only if it starts with
    "HTTP/1.1 101" and the first of the lines that is a Sec-WebSocket-Accept
    header (the name in any case, spaces before the value) gives the Base64
    form of the SHA-1 digest of the key that was sent followed by the GUID of
    RFC 6455.  Everything else is refused by an exception.  The Upgrade and
    Connection headers, which the RFC also wants to be checked, and the bytes
    behind the blank line play no part. *)
Theorem handshake_check_correct {W} `{!World W} key lines rest digest :
  Forall line_ok lines → (Z.of_nat (length (response_text lines rest)) < 2 ^ 63)%Z →
  Sha1 (key ++ str "258EAFA5-E914-47DA-95CA-C5AB0DC85B11") = Ok digest →
  (CheckResponse key (response_text lines rest) = Ok tt ↔
    str "HTTP/1.1 101" `prefix_of` response_text lines rest ∧
    first_header (str "sec-websocket-accept") lines = Some (Base64Encode digest)) ∧
  (CheckResponse key (response_text lines rest) = Ok tt ∨
   ∃ e, CheckResponse key (response_text lines rest) = throw e).
Proof.
  intros Hl Hb Hsha.
  assert (str "HTTP/1.1 101" `prefix_of` response_text lines rest ↔
    take (length kExpectedStatusLine) (response_text lines rest) = kExpectedStatusLine) as ->.
  { split; [intros [r ->]; by rewrite take_app_length|]. intros Ht.
    exists (drop (length kExpectedStatusLine) (response_text lines rest)).
    rewrite <-(take_drop (length kExpectedStatusLine) (response_text lines rest)) at 1. by rewrite Ht. }
  change (str "258EAFA5-E914-47DA-95CA-C5AB0DC85B11") with kWebSocketGuid in Hsha.
  change (str "sec-websocket-accept") with kAcceptHeaderName.
  unfold CheckResponse, FindHeader, ComputeExpectedAccept.
  rewrite (FindHeader_loop_lines _ lines rest [] _ Hl); [|simpl|done].
  2:{ unfold response_text. rewrite length_app.
      assert (length lines ≤ length (concat ((λ line, line ++ kCrLf) <$> lines))); [|lia]. clear.
      induction lines as [|l lines IH]; [done|]. cbn [fmap list_fmap concat length].
      rewrite !length_app. simpl in *. lia. }
  case_bool_decide as Hs; cbn [negb]; [|split; [naive_solver|right; eauto]].
  cbn [mbind result_bind]. rewrite Hsha. destruct (first_header _ _) as [v|]; cbn [fmap result_fmap mbind result_bind].
  - case_decide as Hv; [|split; [naive_solver|right; eauto]]. subst v. split; [naive_solver|by left].
  - split; [naive_solver|right; eauto].
Qed.

Lemma handshake_check_correct_witness :
  let world := sample_world 0 [] in
  CheckResponse (str "k") (response_text
    [str "HTTP/1.1 101 Switching Protocols"; str "SEC-WebSocket-Accept:  k" ++ kWebSocketGuid] [129%Z]) = Ok tt.
Proof.
  intros world.
  apply (@handshake_check_correct unit world (str "k")
    [str "HTTP/1.1 101 Switching Protocols"; str "SEC-WebSocket-Accept:  k" ++ kWebSocketGuid] [129%Z]
    (str "k" ++ kWebSocketGuid)).
  - repeat constructor; discriminate.
  - vm_compute. reflexivity.
  - vm_compute. reflexivity.
  - split; [eexists; reflexivity|vm_compute; reflexivity].
Defined.
