(* ===== verification/WsClient.v ===== *)
(** * The WebSocket client: okx/connectivity/okx_ws_client.*, heartbeat.*

    The client as a state that callbacks run on: the calls of the program
    ([Send], [BeginBatch], [EndBatch], [Start]), the completions of reads and
    writes and the expiries of timers.  The message, connection and trace
    handlers are arguments; they may change the client and the program's own
    state [App].  A handler that is not set is one that does nothing. *)

From S2P Require Import Prelude RingBuffer WebSocketFrame Perf Json Okx World Transport Handshake.

Inductive WsEndpointKind := kJson | kSbe.
#[export] Instance WsEndpointKind_eq_dec : EqDecision WsEndpointKind.
Proof. solve_decision. Defined.

Module heartbeat.
Definition EncodeOkxPing (rand : option (list Z)) : result (list Z) :=
  WebSocketFrame.EncodeFrame rand WebSocketFrame.kText kOkxPingText.
Definition IsOkxPong (frame : WebSocketFrame.Frame) : bool :=
  bool_decide (WebSocketFrame.opcode (WebSocketFrame.header frame) = WebSocketFrame.kText) &&
  sv_eqb (WebSocketFrame.payload frame) kOkxPongText.
End heartbeat.

Module OkxWsClient.
Definition kBaseBackoff : Z := 500.
Definition kMaxBackoff : Z := 30000.
Definition kReadChunkSize : nat := 4096.
Definition kMaxMessageSize : nat := Nat.pow 2 20.
Definition kTxRingCapacity : nat := Nat.pow 2 14.

Lemma tx_capacity_pos : 0 < kTxRingCapacity.
Proof. unfold kTxRingCapacity. apply Nat.neq_0_lt_0, Nat.pow_nonzero. lia. Qed.
Lemma message_size_small : (Z.of_nat kMaxMessageSize < 2 ^ 63)%Z.
Proof. unfold kMaxMessageSize. rewrite Nat2Z.inj_pow. reflexivity. Qed.
Lemma message_size_small_nat : 1000 ≤ kMaxMessageSize.
Proof. apply Nat2Z.inj_le. unfold kMaxMessageSize. rewrite Nat2Z.inj_pow. discriminate. Qed.
Lemma tx_capacity_large : 1000 ≤ kTxRingCapacity.
Proof. apply Nat2Z.inj_le. unfold kTxRingCapacity. rewrite Nat2Z.inj_pow. discriminate. Qed.
#[global] Opaque kMaxMessageSize kTxRingCapacity.

(** [transport_] is engaged or not. *)
Record t := Mk {
  host_ : list Z; port_ : list Z; path_ : list Z; auth_ : option OkxAuth; kind_ : WsEndpointKind;
  authenticated_ : bool; transport_ : bool; reconnect_attempt_ : Z; rx_buffer_ : list Z;
  last_message_arrival_ticks_ : Z; last_message_decoded_ticks_ : Z;
  tx_ring_ : RingBuffer.t; write_in_flight_ : bool; batching_ : bool;
  reassembler_ : Reassembler.t; pending_send_traces_ : list TickToTradeTrace }.

Definition make (host port path : list Z) (auth : option OkxAuth) (kind : WsEndpointKind) : t :=
  Mk host port path auth kind false false 0 [] 0 0 (RingBuffer.empty kTxRingCapacity) false false
    (Reassembler.empty kMaxMessageSize) [].

(** What is asked of Boost.Asio: a read, a write of the bytes that lie in
    front of the ring, a timer, in the order of the calls. *)
Inductive effect :=
  | AsyncReadSome | AsyncWrite (n : nat) | ReconnectTimer (delay : Z) | HeartbeatTimer
  | CancelHeartbeat.

Record St (App W : Type) := MkSt { client : t; app : App; world : W; effects : list effect }.
Arguments MkSt {App W}.
Arguments client {App W}.
Arguments app {App W}.
Arguments world {App W}.
Arguments effects {App W}.

Definition set_authenticated (b : bool) (c : t) : t :=
  Mk (host_ c) (port_ c) (path_ c) (auth_ c) (kind_ c) b (transport_ c) (reconnect_attempt_ c)
    (rx_buffer_ c) (last_message_arrival_ticks_ c) (last_message_decoded_ticks_ c) (tx_ring_ c)
    (write_in_flight_ c) (batching_ c) (reassembler_ c) (pending_send_traces_ c).
Definition set_transport (b : bool) (c : t) : t :=
  Mk (host_ c) (port_ c) (path_ c) (auth_ c) (kind_ c) (authenticated_ c) b (reconnect_attempt_ c)
    (rx_buffer_ c) (last_message_arrival_ticks_ c) (last_message_decoded_ticks_ c) (tx_ring_ c)
    (write_in_flight_ c) (batching_ c) (reassembler_ c) (pending_send_traces_ c).
Definition set_attempt (n : Z) (c : t) : t :=
  Mk (host_ c) (port_ c) (path_ c) (auth_ c) (kind_ c) (authenticated_ c) (transport_ c) n
    (rx_buffer_ c) (last_message_arrival_ticks_ c) (last_message_decoded_ticks_ c) (tx_ring_ c)
    (write_in_flight_ c) (batching_ c) (reassembler_ c) (pending_send_traces_ c).
Definition set_rx (b : list Z) (c : t) : t :=
  Mk (host_ c) (port_ c) (path_ c) (auth_ c) (kind_ c) (authenticated_ c) (transport_ c)
    (reconnect_attempt_ c) b (last_message_arrival_ticks_ c) (last_message_decoded_ticks_ c)
    (tx_ring_ c) (write_in_flight_ c) (batching_ c) (reassembler_ c) (pending_send_traces_ c).
Definition set_arrival (n : Z) (c : t) : t :=
  Mk (host_ c) (port_ c) (path_ c) (auth_ c) (kind_ c) (authenticated_ c) (transport_ c)
    (reconnect_attempt_ c) (rx_buffer_ c) n (last_message_decoded_ticks_ c)
    (tx_ring_ c) (write_in_flight_ c) (batching_ c) (reassembler_ c) (pending_send_traces_ c).
Definition set_decoded (n : Z) (c : t) : t :=
  Mk (host_ c) (port_ c) (path_ c) (auth_ c) (kind_ c) (authenticated_ c) (transport_ c)
    (reconnect_attempt_ c) (rx_buffer_ c) (last_message_arrival_ticks_ c) n
    (tx_ring_ c) (write_in_flight_ c) (batching_ c) (reassembler_ c) (pending_send_traces_ c).
Definition set_ring (r : RingBuffer.t) (c : t) : t :=
  Mk (host_ c) (port_ c) (path_ c) (auth_ c) (kind_ c) (authenticated_ c) (transport_ c)
    (reconnect_attempt_ c) (rx_buffer_ c) (last_message_arrival_ticks_ c)
    (last_message_decoded_ticks_ c) r (write_in_flight_ c) (batching_ c) (reassembler_ c)
    (pending_send_traces_ c).
Definition set_in_flight (b : bool) (c : t) : t :=
  Mk (host_ c) (port_ c) (path_ c) (auth_ c) (kind_ c) (authenticated_ c) (transport_ c)
    (reconnect_attempt_ c) (rx_buffer_ c) (last_message_arrival_ticks_ c)
    (last_message_decoded_ticks_ c) (tx_ring_ c) b (batching_ c) (reassembler_ c)
    (pending_send_traces_ c).
Definition set_batching (b : bool) (c : t) : t :=
  Mk (host_ c) (port_ c) (path_ c) (auth_ c) (kind_ c) (authenticated_ c) (transport_ c)
    (reconnect_attempt_ c) (rx_buffer_ c) (last_message_arrival_ticks_ c)
    (last_message_decoded_ticks_ c) (tx_ring_ c) (write_in_flight_ c) b (reassembler_ c)
    (pending_send_traces_ c).
Definition set_reassembler (r : Reassembler.t) (c : t) : t :=
  Mk (host_ c) (port_ c) (path_ c) (auth_ c) (kind_ c) (authenticated_ c) (transport_ c)
    (reconnect_attempt_ c) (rx_buffer_ c) (last_message_arrival_ticks_ c)
    (last_message_decoded_ticks_ c) (tx_ring_ c) (write_in_flight_ c) (batching_ c) r
    (pending_send_traces_ c).
Definition set_traces (l : list TickToTradeTrace) (c : t) : t :=
  Mk (host_ c) (port_ c) (path_ c) (auth_ c) (kind_ c) (authenticated_ c) (transport_ c)
    (reconnect_attempt_ c) (rx_buffer_ c) (last_message_arrival_ticks_ c)
    (last_message_decoded_ticks_ c) (tx_ring_ c) (write_in_flight_ c) (batching_ c)
    (reassembler_ c) l.

Definition set_send_ticks (n : Z) (tr : TickToTradeTrace) : TickToTradeTrace :=
  MkTrace (wire_arrival_ticks tr) (message_decoded_ticks tr) (book_consistent_ticks tr)
    (order_located_ticks tr) (rate_limit_checked_ticks tr) (price_formatted_ticks tr)
    (message_built_ticks tr) n.

Section operations.
Context {App W : Type} `{!World W}.
Notation S := (St App W).
Context (on_connected : M S unit) (on_message : string_view → M S unit)
        (on_trace_resolved : TickToTradeTrace → M S unit).

Definition on_client {A} (m : M t A) : M S A :=
  zoom client (λ c s, MkSt c (app s) (world s) (effects s)) m.
Definition on_world {A} (m : M W A) : M S A :=
  zoom world (λ w s, MkSt (client s) (app s) w (effects s)) m.
Definition update (f : t → t) : M S unit := on_client (modify f).
Definition read {A} (f : t → A) : M S A := s ← get; mret (f (client s)).
Definition emit (e : effect) : M S unit :=
  modify (λ s, MkSt (client s) (app s) (world s) (effects s ++ [e])).
(** A call that masks a frame, with the random bytes it draws. *)
Definition with_mask {A} (f : option (list Z) → result A) : M S A :=
  rand ← on_world (ask (RAND_bytes 4)); lift (f rand).

(** [try { m } catch (const std::exception&) { h }]. *)
Definition try_catch (m h : M S unit) : M S unit := λ s,
  match m s with (Stop (Exn _), s') => h s' | r => r end.

Definition ComputeBackoff (attempt : Z) : M S Z :=
  let exponential := (kBaseBackoff * Z.shiftl 1 (Z.min attempt 10))%Z in
  let capped := Z.min kMaxBackoff exponential in
  on_world (ask (uniform_int 0 capped)).

(** *** Writing *)

(** The traces of the frames that are about to be sent, oldest first. *)
Fixpoint resolve_traces (send_ticks : Z) (traces : list TickToTradeTrace) : M S unit :=
  match traces with
  | [] => mret tt
  | tr :: traces' =>
      _ ← update (set_traces traces');
      _ ← on_trace_resolved (set_send_ticks send_ticks tr);
      resolve_traces send_ticks traces'
  end.

Definition StartWrite : M S unit :=
  connected ← read transport_;
  if negb connected then mret tt
  else
    send_ticks ← on_world (ask ReadCounter);
    traces ← read pending_send_traces_;
    _ ← resolve_traces send_ticks traces;
    _ ← update (set_in_flight true);
    ring ← read tx_ring_;
    emit (AsyncWrite (length (RingBuffer.ContiguousReadableRegion kTxRingCapacity ring))).

Definition WriteRaw (frame : list Z) (trace : option TickToTradeTrace) : M S unit :=
  _ ← on_client (λ c, match RingBuffer.Write kTxRingCapacity frame (tx_ring_ c) with
                      | Ok r => (Ok tt, set_ring r c) | Stop x => (Stop x, c) end);
  _ ← match trace with
      | Some tr => update (λ c, set_traces (pending_send_traces_ c ++ [tr]) c)
      | None => mret tt
      end;
  in_flight ← read write_in_flight_;
  batching ← read batching_;
  if negb in_flight && negb batching then StartWrite else mret tt.

Definition Send (payload : list Z) (trace : option TickToTradeTrace) : M S unit :=
  frame ← with_mask (λ rand, WebSocketFrame.EncodeFrame rand WebSocketFrame.kText payload);
  WriteRaw frame trace.

Definition BeginBatch : M S unit := update (set_batching true).
Definition EndBatch : M S unit :=
  _ ← update (set_batching false);
  in_flight ← read write_in_flight_;
  if negb in_flight then StartWrite else mret tt.

(** *** Reconnection *)
(** The largest [int]; incrementing [reconnect_attempt_] beyond it overflows. *)
Definition kIntMax : Z := 2 ^ 31 - 1.
Definition ScheduleReconnect : M S unit :=
  _ ← update (set_transport false);
  _ ← update (set_authenticated false);
  _ ← emit CancelHeartbeat;
  _ ← update (λ c, set_ring (RingBuffer.Reset (tx_ring_ c)) c);
  _ ← update (set_in_flight false);
  attempt ← read reconnect_attempt_;
  delay ← ComputeBackoff attempt;
  _ ← (if decide (attempt = kIntMax) then lift (Stop UB) else update (set_attempt (attempt + 1)%Z));
  emit (ReconnectTimer delay).

(** The completion handler of a write. *)
Definition OnWrite (bytes_written : option nat) : M S unit :=
  match bytes_written with
  | None => ScheduleReconnect
  | Some n =>
      _ ← update (λ c, set_ring (RingBuffer.CommitRead kTxRingCapacity n (tx_ring_ c)) c);
      ring ← read tx_ring_;
      if 0 <? RingBuffer.Size ring then StartWrite else update (set_in_flight false)
  end.

Definition ScheduleHeartbeat : M S unit :=
  kind ← read kind_;
  if decide (kind = kSbe) then mret tt else emit HeartbeatTimer.
(** The heartbeat timer expires. *)
Definition OnHeartbeat : M S unit :=
  frame ← with_mask heartbeat.EncodeOkxPing;
  _ ← WriteRaw frame None;
  ScheduleHeartbeat.

(** *** Reading *)
Definition DispatchMessage (message : string_view) : M S unit :=
  ticks ← on_world (ask ReadCounter);
  _ ← update (set_decoded ticks);
  auth ← read auth_;
  authenticated ← read authenticated_;
  _ ← (if bool_decide (is_Some auth) && negb authenticated &&
          opt_eqb (json.FindString message kEvent) kLoginEvent
       then update (set_authenticated (opt_eqb (json.FindString message kCode) kSuccessCode))
       else mret tt);
  on_message message.

(** Random bytes are drawn only for a frame that is answered. *)
Definition control_response (frame : WebSocketFrame.Frame) : M S (option (list Z)) :=
  match WebSocketFrame.opcode (WebSocketFrame.header frame) with
  | WebSocketFrame.kPing | WebSocketFrame.kClose =>
      with_mask (λ rand, WebSocketFrame.BuildControlResponse rand frame)
  | _ => lift (WebSocketFrame.BuildControlResponse None frame)
  end.

Definition append_fragment (payload : list Z) (fin : bool) : M S unit :=
  on_client (λ c, match Reassembler.Append kMaxMessageSize payload fin (reassembler_ c) with
                  | Ok r => (Ok tt, set_reassembler r c) | Stop x => (Stop x, c) end).

Definition HandleFrame (frame : WebSocketFrame.Frame) : M S unit :=
  let header := WebSocketFrame.header frame in
  let payload := WebSocketFrame.payload frame in
  response ← control_response frame;
  match response with
  | Some bytes => WriteRaw bytes None
  | None =>
      if bool_decide (WebSocketFrame.opcode header = WebSocketFrame.kPong) ||
         heartbeat.IsOkxPong frame
      then mret tt
      else if decide (WebSocketFrame.opcode header = WebSocketFrame.kContinuation) then
        _ ← append_fragment (sv_text payload) (WebSocketFrame.fin header);
        reassembler ← read reassembler_;
        if Reassembler.IsComplete reassembler then
          _ ← DispatchMessage (Reassembler.GetMessage reassembler);
          update (λ c, set_reassembler (Reassembler.Reset (reassembler_ c)) c)
        else mret tt
      else if negb (WebSocketFrame.fin header) then append_fragment (sv_text payload) false
      else DispatchMessage payload
  end.

(** The loop over the frames that have arrived; the budget counts frames. *)
Fixpoint frame_loop (fuel : nat) : M S unit :=
  rx ← read rx_buffer_;
  frame ← lift (WebSocketFrame.DecodeFrame (sv_of rx));
  match frame with
  | None => mret tt
  | Some frame =>
      match fuel with
      | O => lift (Stop Fuel)
      | Datatypes.S fuel' =>
          _ ← HandleFrame frame;
          _ ← update (λ c, set_rx (drop (Z.to_nat (WebSocketFrame.total_size frame)) (rx_buffer_ c)) c);
          frame_loop fuel'
      end
  end.

Definition ReadLoop : M S unit :=
  connected ← read transport_;
  if negb connected then mret tt else emit AsyncReadSome.

(** The completion handler of a read: every frame takes at least two bytes. *)
Definition OnRead (chunk : option (list Z)) : M S unit :=
  match chunk with
  | None => ScheduleReconnect
  | Some chunk =>
      ticks ← on_world (ask ReadCounter);
      _ ← update (set_arrival ticks);
      _ ← update (λ c, set_rx (rx_buffer_ c ++ chunk) c);
      rx ← read rx_buffer_;
      _ ← frame_loop (length rx);
      ReadLoop
  end.

(** *** Connecting *)
Definition SendLogin : M S unit :=
  auth ← read auth_;
  match auth with
  | None => throwM (runtime_error "OkxWsClient::SendLogin called without auth" [])
  | Some auth =>
      message ← on_world (BuildPrivateWsLoginMessage auth);
      Send message None
  end.

(** [fuel] bounds the reads of the handshake. *)
Definition Connect (fuel : nat) : M S unit :=
  try_catch
    (c ← read id;
     _ ← on_world Transport.make;
     _ ← update (set_transport true);
     _ ← on_world (Transport.Connect (host_ c) (port_ c));
     handshake_headers ← match kind_ c, auth_ c with
       | kSbe, Some auth => on_world (SbeWsLoginHeaders auth)
       | _, _ => mret []
       end;
     _ ← on_world (PerformWebSocketHandshake fuel (host_ c) (path_ c) handshake_headers);
     _ ← update (set_attempt 0%Z);
     _ ← update (set_rx []);
     _ ← update (set_authenticated false);
     _ ← match kind_ c, auth_ c with
       | kSbe, _ => update (set_authenticated true)
       | kJson, Some _ => SendLogin
       | kJson, None => mret tt
       end;
     _ ← on_connected;
     _ ← ScheduleHeartbeat;
     ReadLoop)
    ScheduleReconnect.

Lemma read_eq {A} (f : t → A) (s : S) : read f s = (Ok (f (client s)), s).
Proof. done. Qed.
Lemma update_eq f (s : S) :
  update f s = (Ok tt, MkSt (f (client s)) (app s) (world s) (effects s)).
Proof. done. Qed.

(** *** Operations that do not look at the receive buffer *)
Definition put_rx (b : list Z) (s : S) : S :=
  MkSt (set_rx b (client s)) (app s) (world s) (effects s).
Definition blind {A} (m : M S A) : Prop :=
  ∀ b s, m (put_rx b s) = (let '(r, s') := m s in (r, put_rx b s')).

Lemma blind_ret {A} (a : A) : blind (mret a).
Proof. done. Qed.
Lemma blind_lift {A} (r : result A) : blind (lift r).
Proof. done. Qed.
Lemma blind_bind {A B} (m : M S A) (k : A → M S B) :
  blind m → (∀ a, blind (k a)) → blind (x ← m; k x).
Proof.
  intros Hm Hk b s. unfold mbind, M_bind. rewrite Hm. destruct (m s) as [[a|x] s']; [apply Hk|done].
Qed.
Lemma blind_read {A} (f : t → A) : (∀ b c, f (set_rx b c) = f c) → blind (read f).
Proof. intros Hf b s. unfold read, get, mbind, M_bind. cbn. by rewrite Hf. Qed.
Lemma blind_update f : (∀ b c, f (set_rx b c) = set_rx b (f c)) → blind (update f).
Proof.
  intros Hf b s. unfold update, on_client, zoom, modify, put_rx. cbn [client app world effects].
  by rewrite Hf.
Qed.
Lemma blind_on_world {A} (m : M W A) : blind (on_world m).
Proof. intros b s. unfold on_world, zoom. cbn. by destruct (m (world s)). Qed.
Lemma blind_emit e : blind (emit e).
Proof. done. Qed.
Lemma blind_ring frame :
  blind (on_client (λ c, match RingBuffer.Write kTxRingCapacity frame (tx_ring_ c) with
                         | Ok r => (Ok tt, set_ring r c) | Stop x => (Stop x, c) end)).
Proof. intros b s. unfold on_client, zoom. cbn. by destruct (RingBuffer.Write _ _ _). Qed.
Lemma blind_fragment p fin : blind (append_fragment p fin).
Proof. intros b s. unfold append_fragment, on_client, zoom. cbn. by destruct (Reassembler.Append _ _ _ _). Qed.
Lemma blind_visit {A} (f : A → M S unit) l : (∀ x, blind (f x)) → blind (json.visit f l).
Proof.
  intros Hf. induction l as [|x l IH]; cbn [json.visit]; [apply blind_ret|]. by apply blind_bind.
Qed.
(** Handlers that do not look at the receive buffer, and look at a message
    only within its bounds. *)
Context (Htrace : ∀ tr, blind (on_trace_resolved tr))
        (Hmsg : ∀ v, blind (on_message v))
        (Htext : ∀ v v', sv_wf v → sv_wf v' → sv_text v = sv_text v' → on_message v = on_message v').

Ltac solve_blind :=
  repeat first
    [ done
    | apply blind_bind; [|intros ?] | apply blind_ret | apply blind_lift | apply blind_on_world
    | apply blind_emit | apply blind_ring | apply blind_fragment
    | apply blind_read; intros ??; reflexivity | apply blind_update; intros ??; reflexivity
    | case_match ].

Lemma blind_resolve n trs : blind (resolve_traces n trs).
Proof. induction trs as [|tr trs IH]; cbn [resolve_traces]; solve_blind. Qed.
Lemma blind_StartWrite : blind StartWrite.
Proof. pose proof blind_resolve. unfold StartWrite. solve_blind. Qed.
Lemma blind_WriteRaw frame trace : blind (WriteRaw frame trace).
Proof. pose proof blind_StartWrite. unfold WriteRaw. solve_blind. Qed.
Lemma blind_with_mask {A} (f : option (list Z) → result A) : blind (with_mask f).
Proof. unfold with_mask. solve_blind. Qed.
Lemma blind_Dispatch v : blind (DispatchMessage v).
Proof. unfold DispatchMessage. solve_blind. Qed.
Lemma blind_HandleFrame fr : blind (HandleFrame fr).
Proof.
  unfold HandleFrame. apply blind_bind.
  - unfold control_response. case_match; (apply blind_with_mask || apply blind_lift).
  - intros [bytes|]; [apply blind_WriteRaw|].
    pose proof blind_Dispatch. solve_blind.
Qed.

(** The state up to the receive buffer. *)
Definition forget {A} (x : result A * S) : result A * S := (x.1, put_rx [] x.2).
Lemma put_rx_put b b' s : put_rx b (put_rx b' s) = put_rx b s.
Proof. done. Qed.
Lemma forget_blind {A} (m : M S A) b s : blind m → forget (m (put_rx b s)) = forget (m s).
Proof. intros Hm. rewrite Hm. destruct (m s) as [r s']. done. Qed.
Lemma forget_bind {A B} (m : M S A) (k k' : A → M S B) s s1 :
  blind m → (∀ a s s1, put_rx [] s = put_rx [] s1 → forget (k a s) = forget (k' a s1)) →
  put_rx [] s = put_rx [] s1 → forget ((x ← m; k x) s) = forget ((x ← m; k' x) s1).
Proof.
  intros Hm Hk Hs. pose proof (Hm [] s) as H1. pose proof (Hm [] s1) as H2. rewrite Hs, H2 in H1.
  unfold mbind, M_bind. destruct (m s) as [r s'], (m s1) as [r1 s1'].   assert (r1 = r) as -> by exact (f_equal fst H1).
  assert (put_rx [] s' = put_rx [] s1') as Hs' by exact (eq_sym (f_equal snd H1)).
  destruct r as [a|x]; [by apply Hk|]. unfold forget. cbn [fst snd]. by rewrite Hs'.
Qed.

(** *** Frames of the server *)
Definition sframe : Type := bool * WebSocketFrame.WebSocketOpcode * list Z.
Definition sframe_text : sframe → list Z := λ '(f, op, p), WebSocketFrame.server_frame f op p.
Definition sframe_frame : sframe → WebSocketFrame.Frame := λ '(f, op, p),
  WebSocketFrame.MkFrame (WebSocketFrame.header_of f op (Z.of_nat (length p))) (sv_of p)
    (Z.of_nat (length (WebSocketFrame.server_frame f op p))).
Definition sframe_ok (x : sframe) : Prop := (Z.of_nat (length x.2) < 2 ^ 63)%Z.
Definition frames_text (fs : list sframe) : list Z := concat (sframe_text <$> fs).

(** Handling depends on a frame's fields and the text of its payload. *)
Lemma HandleFrame_text fr fr' :
  WebSocketFrame.header fr = WebSocketFrame.header fr' →
  sv_wf (WebSocketFrame.payload fr) → sv_wf (WebSocketFrame.payload fr') →
  sv_text (WebSocketFrame.payload fr) = sv_text (WebSocketFrame.payload fr') →
  HandleFrame fr = HandleFrame fr'.
Proof.
  intros Hh Hw Hw' Ht. destruct fr as [h v n], fr' as [h' v' n']. simpl in *. subst h'.
  assert (sv_size v = sv_size v') as Hsz by (by rewrite <-!length_sv_text, Ht).
  unfold HandleFrame, control_response, heartbeat.IsOkxPong, WebSocketFrame.BuildControlResponse,
    sv_eqb, DispatchMessage. cbn [WebSocketFrame.header WebSocketFrame.payload]. rewrite Ht.
  rewrite (opt_eqb_text _ _ _ (json.FindString_text v v' Ht Hsz kEvent)).
  rewrite (opt_eqb_text _ _ _ (json.FindString_text v v' Ht Hsz kCode)).
  by rewrite (Htext v v' Hw Hw' Ht).
Qed.

(** The frames that are complete in what has arrived, and the rest. *)
Lemma split_frames fs data rest :
  data ++ rest = frames_text fs →
  ∃ g fs' tail, fs = g ++ fs' ∧ data = frames_text g ++ tail ∧ tail ++ rest = frames_text fs' ∧
    match fs' with [] => tail = [] | f :: _ => length tail < length (sframe_text f) end.
Proof.
  revert data. induction fs as [|f fs IH]; intros data Hd.
  { apply app_eq_nil in Hd as [-> ->]. by exists [], [], []. }
  destruct (decide (length data < length (sframe_text f))) as [Hlt|Hge].
  { by exists [], (f :: fs), data. }
  unfold frames_text in Hd. cbn [fmap list_fmap concat] in Hd.
  assert (data = sframe_text f ++ drop (length (sframe_text f)) data) as Heq.
  { rewrite <-(take_drop (length (sframe_text f)) data) at 1. f_equal.
    apply (f_equal (take (length (sframe_text f)))) in Hd.
    rewrite take_app_le, take_app_length in Hd by lia. done. }
  rewrite Heq, <-app_assoc in Hd. apply app_inv_head in Hd.
  destruct (IH _ Hd) as (g & fs' & tail & -> & Hdrop & Htl & Hlen).
  exists (f :: g), fs', tail. split; [done|]. split; [|done].
  unfold frames_text. cbn [fmap list_fmap concat]. rewrite <-app_assoc, Heq at 1. f_equal. done.
Qed.

Lemma sframe_length f : 2 ≤ length (sframe_text f).
Proof.
  destruct f as [[f op] p]. unfold sframe_text, WebSocketFrame.server_frame. rewrite length_app.
  pose proof (WebSocketFrame.length_rfc_header f op (Z.of_nat (length p))). repeat case_match; lia.
Qed.

Definition handle_frames (fs : list sframe) : M S unit :=
  json.visit (λ f, HandleFrame (sframe_frame f)) fs.
Lemma blind_handle_frames fs : blind (handle_frames fs).
Proof. apply blind_visit. intros f. apply blind_HandleFrame. Qed.
Lemma put_rx_self s : put_rx (rx_buffer_ (client s)) s = s.
Proof. by destruct s as [[] ? ? ?]. Qed.
Lemma blind_keeps {A} (m : M S A) s : blind m → rx_buffer_ (client (m s).2) = rx_buffer_ (client s).
Proof.
  intros Hm. rewrite <-(put_rx_self s) at 1. rewrite Hm. by destruct (m s) as [r s'].
Qed.

Lemma frame_loop_step fuel s fr :
  WebSocketFrame.DecodeFrame (sv_of (rx_buffer_ (client s))) = Ok (Some fr) →
  frame_loop (Datatypes.S fuel) s =
    match HandleFrame fr s with
    | (Ok _, s1) => frame_loop fuel (put_rx
        (drop (Z.to_nat (WebSocketFrame.total_size fr)) (rx_buffer_ (client s))) s1)
    | (Stop x, s1) => (Stop x, s1)
    end.
Proof.
  intros Hdec. cbn [frame_loop]. unfold mbind at 1, M_bind at 1, read at 1, get at 1, mbind at 1, M_bind at 1.
  cbn [mret M_ret]. unfold mbind at 1, M_bind at 1, lift at 1. rewrite Hdec.
  unfold mbind, M_bind. pose proof (blind_keeps (HandleFrame fr) s (blind_HandleFrame _)) as Hk.
  destruct (HandleFrame fr s) as [[[]|x] s1]; [|done]. cbn [snd] in Hk.
  unfold update, on_client, zoom, modify. by rewrite Hk.
Qed.
Lemma frame_loop_wait fuel s :
  WebSocketFrame.DecodeFrame (sv_of (rx_buffer_ (client s))) = Ok None → frame_loop fuel s = (Ok tt, s).
Proof.
  intros Hd. destruct fuel; cbn [frame_loop];
    unfold mbind, M_bind, read, get, lift, mbind, M_bind; cbn [mret M_ret]; by rewrite Hd.
Qed.

Lemma frame_loop_frames g tail fuel s :
  Forall sframe_ok g → rx_buffer_ (client s) = frames_text g ++ tail →
  WebSocketFrame.DecodeFrame (sv_of tail) = Ok None → length g ≤ fuel →
  forget (frame_loop fuel s) = forget (handle_frames g s) ∧
  ((handle_frames g s).1 = Ok tt → rx_buffer_ (client (frame_loop fuel s).2) = tail).
Proof.
  intros Hg. revert fuel s. induction Hg as [|f g Hf Hg IH]; intros fuel s Hrx Hd Hfuel.
  - change (frames_text [] ++ tail) with tail in Hrx. by rewrite frame_loop_wait by (by rewrite Hrx).
  - destruct fuel as [|fuel]; [simpl in Hfuel; lia|]. destruct f as [[fin op] p].
    unfold frames_text in Hrx. cbn [fmap list_fmap concat] in Hrx. rewrite <-app_assoc in Hrx.
    fold (frames_text g) in Hrx.
    set (rx := rx_buffer_ (client s)) in *.
    pose proof (WebSocketFrame.DecodeFrame_whole (sv_of rx) fin op p (frames_text g ++ tail)
      (sv_wf_of _) Hf) as Hdec. rewrite sv_text_of in Hdec. specialize (Hdec Hrx).
    set (fr := WebSocketFrame.MkFrame _ _ _) in Hdec.
    assert (HandleFrame fr = HandleFrame (sframe_frame (fin, op, p))) as Hfr.
    { apply HandleFrame_text; [done|apply sv_wf_substr; [apply sv_wf_of|]|apply sv_wf_of|].
      { cbn [sv_size sv_of]. rewrite Hrx. unfold sframe_text, WebSocketFrame.server_frame.
        rewrite !length_app. lia. }
      cbn [WebSocketFrame.payload sframe_frame fr]. rewrite sv_text_substr, !sv_text_of, Hrx.
      unfold sframe_text, WebSocketFrame.server_frame. rewrite <-app_assoc.
      by rewrite drop_app_length, take_app_length. }
    rewrite (frame_loop_step fuel s fr Hdec), Hfr. fold rx.
    assert (drop (Z.to_nat (WebSocketFrame.total_size fr)) rx = frames_text g ++ tail) as Hdrop.
    { rewrite Hrx. cbn [WebSocketFrame.total_size fr]. rewrite Nat2Z.id. apply drop_app_length. }
    rewrite Hdrop.
    change (handle_frames ((fin, op, p) :: g)) with
      (_ ← HandleFrame (sframe_frame (fin, op, p)); handle_frames g : M S unit).
    unfold mbind, M_bind.
    destruct (HandleFrame (sframe_frame (fin, op, p)) s) as [[[]|x] s1]; [|by split].
    destruct (IH fuel (put_rx (frames_text g ++ tail) s1) eq_refl Hd) as [IH1 IH2]; [simpl in Hfuel; lia|].
    rewrite (forget_blind _ _ _ (blind_handle_frames g)) in IH1. split; [exact IH1|].
    intros Hok. apply IH2. pose proof (blind_handle_frames g (frames_text g ++ tail) s1) as Hb.
    rewrite Hb. by destruct (handle_frames g s1).
Qed.

(** One completed read, in terms of the frames that it completes. *)
Definition read_frames (g : list sframe) : M S unit :=
  ticks ← on_world (ask ReadCounter);
  _ ← update (set_arrival ticks);
  _ ← handle_frames g;
  ReadLoop.
Lemma blind_read_frames g : blind (read_frames g).
Proof. pose proof blind_handle_frames. unfold read_frames, ReadLoop. solve_blind. Qed.

Lemma length_frames_text g : length g ≤ length (frames_text g).
Proof.
  unfold frames_text. induction g as [|f g IH]; [done|]. cbn [fmap list_fmap concat length].
  rewrite length_app. pose proof (sframe_length f). lia.
Qed.

Lemma OnRead_frames g tail c s :
  Forall sframe_ok g → rx_buffer_ (client s) ++ c = frames_text g ++ tail →
  WebSocketFrame.DecodeFrame (sv_of tail) = Ok None →
  forget (OnRead (Some c) s) = forget (read_frames g s) ∧
  ((read_frames g s).1 = Ok tt → rx_buffer_ (client (OnRead (Some c) s).2) = tail).
Proof.
  intros Hg Hrx Hd. set (b := rx_buffer_ (client s) ++ c) in *.
  destruct (ReadCounter (world s)) as [ticks w1] eqn:Ec.
  set (s0 := MkSt (set_arrival ticks (client s)) (app s) w1 (effects s)).
  assert (OnRead (Some c) s = match frame_loop (length b) (put_rx b s0) with
    | (Ok _, s1) => ReadLoop s1 | (Stop x, s1) => (Stop x, s1) end) as ->.
  { unfold OnRead, on_world, zoom, ask, mbind, M_bind. rewrite Ec. reflexivity. }
  assert (read_frames g s = match handle_frames g s0 with
    | (Ok _, s1) => ReadLoop s1 | (Stop x, s1) => (Stop x, s1) end) as ->.
  { unfold read_frames, on_world, zoom, ask, mbind, M_bind. rewrite Ec. reflexivity. }
  destruct (frame_loop_frames g tail (length b) (put_rx b s0) Hg Hrx Hd) as [H1 H2].
  { rewrite Hrx, length_app. pose proof (length_frames_text g). lia. }
  rewrite (forget_blind _ _ _ (blind_handle_frames g)) in H1.
  rewrite (blind_handle_frames g b s0) in H2.
  destruct (frame_loop (length b) (put_rx b s0)) as [r1 s1], (handle_frames g s0) as [r2 s2].
  assert (r1 = r2) as -> by exact (f_equal fst H1).
  assert (put_rx [] s1 = put_rx [] s2) as Hs by exact (f_equal snd H1). cbn [fst snd] in H2.
  assert (blind ReadLoop) as HR by (unfold ReadLoop; solve_blind).
  destruct r2 as [[]|x]; [|split; [unfold forget; cbn [fst snd]; by rewrite Hs|done]]. split.
  - rewrite <-(forget_blind ReadLoop [] s1 HR), <-(forget_blind ReadLoop [] s2 HR). by rewrite Hs.
  - intros _. rewrite (blind_keeps ReadLoop s1 HR). by apply H2.
Qed.

Lemma decode_rest tail rest fs :
  Forall sframe_ok fs → tail ++ rest = frames_text fs →
  match fs with [] => tail = [] | f :: _ => length tail < length (sframe_text f) end →
  WebSocketFrame.DecodeFrame (sv_of tail) = Ok None.
Proof.
  intros Hok Ht Hlen. destruct fs as [|[[fin op] p] fs]; [by subst|].
  apply Forall_cons in Hok as [Hp _].
  apply (WebSocketFrame.DecodeFrame_short _ fin op p); [apply sv_wf_of|done| |done].
  rewrite sv_text_of. unfold frames_text in Ht. cbn [fmap list_fmap concat] in Ht.
  apply (prefix_app_cut tail (sframe_text (fin, op, p)) (concat (sframe_text <$> fs))); [|lia].
  exists rest. done.
Qed.

(** Any way to cut the stream of the server into reads. *)
Lemma chunks_frames chunks fs s :
  Forall sframe_ok fs → rx_buffer_ (client s) ++ concat chunks = frames_text fs →
  match fs with [] => rx_buffer_ (client s) = []
              | f :: _ => length (rx_buffer_ (client s)) < length (sframe_text f) end →
  ∃ groups, concat groups = fs ∧ length groups = length chunks ∧
    forget (json.visit (λ c, OnRead (Some c)) chunks s) = forget (json.visit read_frames groups s).
Proof.
  revert fs s. induction chunks as [|c chunks IH]; intros fs s Hok Hrx Hlen.
  { exists []. split; [|by split]. destruct fs as [|f fs]; [done|exfalso].
    rewrite app_nil_r in Hrx. rewrite Hrx in Hlen. unfold frames_text in Hlen.
    cbn [fmap list_fmap concat] in Hlen. rewrite length_app in Hlen. lia. }
  cbn [concat] in Hrx. rewrite app_assoc in Hrx.
  destruct (split_frames fs _ _ Hrx) as (g & fs' & tail & -> & Hdata & Htail & Hl).
  apply Forall_app in Hok as [Hg Hok].
  destruct (OnRead_frames g tail c s Hg Hdata (decode_rest _ _ _ Hok Htail Hl)) as [H1 H2].
  cbn [json.visit]. unfold mbind, M_bind.
  destruct (OnRead (Some c) s) as [r1 s1]. 
  destruct (IH fs' (put_rx tail s1) Hok Htail Hl) as (groups & Hc & Hn & Hrun).
  exists (g :: groups). split; [by rewrite <-Hc|]. split; [simpl; by rewrite Hn|].
  cbn [json.visit]. unfold mbind, M_bind. destruct (read_frames g s) as [r2 s2].
  assert (r1 = r2) as -> by exact (f_equal fst H1).
  assert (put_rx [] s1 = put_rx [] s2) as Hs by exact (f_equal snd H1). cbn [fst snd] in H2.
  destruct r2 as [[]|x]; [|unfold forget; cbn [fst snd]; by rewrite Hs].
  assert (put_rx tail s1 = s1) as Hs1 by (rewrite <-(H2 eq_refl); apply put_rx_self).
  rewrite Hs1 in Hrun. rewrite Hrun.
  assert (blind (json.visit read_frames groups)) as HB.
  { apply blind_visit, blind_read_frames. }
  rewrite <-(forget_blind _ [] s1 HB), <-(forget_blind _ [] s2 HB). by rewrite Hs.
Qed.
End operations.

(** *** Delivery of messages

    [P] says what the handler has made of the messages it was called with;
    [ok] which lists of messages it can deal with. *)
(** What a frame does to the fragments collected so far and to the messages. *)
Definition is_pong (op : WebSocketFrame.WebSocketOpcode) (p : list Z) : bool :=
  bool_decide (op = WebSocketFrame.kPong) ||
  (bool_decide (op = WebSocketFrame.kText) && bool_decide (p = kOkxPongText)).
Definition feed (x : list Z * list (list Z)) (f : sframe) : list Z * list (list Z) :=
  let '(acc, out) := x in let '(fin, op, p) := f in
  if is_pong op p then (acc, out)
  else if decide (op = WebSocketFrame.kContinuation)
       then if fin : bool then ([], out ++ [acc ++ p]) else (acc ++ p, out)
       else if fin : bool then (acc, out ++ [p]) else (acc ++ p, out).
(** Frames that are not answered and do not overflow the buffer. *)
Fixpoint feedable (acc : list Z) (fs : list sframe) : Prop :=
  match fs with
  | [] => True
  | (fin, op, p) :: fs' =>
      op ≠ WebSocketFrame.kPing ∧ op ≠ WebSocketFrame.kClose ∧
      length (acc ++ p) ≤ kMaxMessageSize ∧ feedable (feed (acc, []) (fin, op, p)).1 fs'
  end.
Lemma feed_prefix x g : x.2 `prefix_of` (foldl feed x g).2.
Proof.
  revert x. induction g as [|f g IH]; intros x; [done|]. cbn [foldl]. etrans; [|apply IH].
  destruct x as [acc out], f as [[fin op] p]. unfold feed. repeat case_match; cbn [snd]; by try apply prefix_app_r.
Qed.
Lemma feed_acc acc out f : (feed (acc, out) f).1 = (feed (acc, []) f).1.
Proof. destruct f as [[fin op] p]. unfold feed. by repeat case_match. Qed.

Section delivery.
Context {App W : Type} `{!World W}.
Notation S := (St App W).
Context (on_message : string_view → M S unit) (on_trace : TickToTradeTrace → M S unit).
Context (P : list (list Z) → App → Prop) (ok : list (list Z) → Prop).
Context (Hprefix : ∀ l l', l `prefix_of` l' → ok l' → ok l).
Context (Hmessage : ∀ v out s, sv_wf v → ok (out ++ [sv_text v]) → P out (app s) →
  ∃ s', on_message v s = (Ok tt, s') ∧ P (out ++ [sv_text v]) (app s') ∧
    reassembler_ (client s') = reassembler_ (client s) ∧ rx_buffer_ (client s') = rx_buffer_ (client s)).

Definition collected (acc : list Z) (out : list (list Z)) (s : S) : Prop :=
  Reassembler.wf kMaxMessageSize (reassembler_ (client s)) ∧
  sv_text (Reassembler.GetMessage (reassembler_ (client s))) = acc ∧ P out (app s).

Lemma Dispatch_delivers v acc out (s : S) :
  sv_wf v → ok (out ++ [sv_text v]) → collected acc out s →
  ∃ s', DispatchMessage on_message v s = (Ok tt, s') ∧ collected acc (out ++ [sv_text v]) s' ∧
    reassembler_ (client s') = reassembler_ (client s) ∧ rx_buffer_ (client s') = rx_buffer_ (client s).
Proof using Hmessage.
  intros Hv Hok (Hwf & Hacc & Hout). unfold DispatchMessage, on_world, zoom, ask, read, get, mbind, M_bind.
  destruct (ReadCounter (world s)) as [ticks w1].
  unfold update, on_client, zoom, modify. cbn [mret M_ret client app world effects].
  match goal with |- context [if ?b then _ else _] => destruct b end; cbn [mret M_ret];
    match goal with |- context [on_message v ?s0] =>
      destruct (Hmessage v out s0 Hv Hok Hout) as (s' & -> & HP & Hr & Hx) end;
    exists s'; (split; [done|]); (split; [|done]); (split; [by rewrite Hr|]); (split; [by rewrite Hr|done]).
Qed.

Lemma append_collected acc out p fin (s : S) :
  collected acc out s → length (acc ++ p) ≤ kMaxMessageSize →
  ∃ s', append_fragment p fin s = (Ok tt, s') ∧ collected (acc ++ p) out s' ∧
    Reassembler.IsComplete (reassembler_ (client s')) = fin ∧
    rx_buffer_ (client s') = rx_buffer_ (client s).
Proof.
  intros (Hwf & Hacc & Hout) Hl. unfold append_fragment, on_client, zoom.
  destruct (Reassembler.Append_spec kMaxMessageSize p fin _ Hwf) as [(_ & r & -> & Hwr & Hcr & Htr)|[Hbig _]].
  - eexists. split; [reflexivity|]. split; [|done]. split_and!; cbn [client app reassembler_ set_reassembler]; [done| |done].
    by rewrite Htr, Hacc.
  - exfalso. rewrite length_app in Hl. rewrite <-Hacc, length_sv_text in Hl; [simpl in Hl; lia|].
    destruct Hwf as [H1 H2]. unfold sv_wf, Reassembler.GetMessage. simpl. lia.
Qed.

(** A frame with the fields and the payload of [f], wherever it lies. *)
Definition stands_for (fr : WebSocketFrame.Frame) (f : sframe) : Prop :=
  let '(fin, op, p) := f in
  WebSocketFrame.fin (WebSocketFrame.header fr) = fin ∧ WebSocketFrame.opcode (WebSocketFrame.header fr) = op ∧
  sv_wf (WebSocketFrame.payload fr) ∧ sv_text (WebSocketFrame.payload fr) = p.
Lemma HandleFrame_feed fr f acc out (s : S) fs :
  stands_for fr f → collected acc out s → feedable acc (f :: fs) → ok (feed (acc, out) f).2 →
  ∃ s', HandleFrame on_message on_trace fr s = (Ok tt, s') ∧
    collected (feed (acc, out) f).1 (feed (acc, out) f).2 s' ∧ feedable (feed (acc, out) f).1 fs ∧
    rx_buffer_ (client s') = rx_buffer_ (client s).
Proof using Hmessage.
  destruct f as [[fin op] p]. intros (Hfin & Hop' & Hwf & Ht) Hc (Hping & Hclose & Hlen & Hfs) Hok.
  rewrite <-(feed_acc acc out) in Hfs.
  cut (∃ s', HandleFrame on_message on_trace fr s = (Ok tt, s') ∧
    collected (feed (acc, out) (fin, op, p)).1 (feed (acc, out) (fin, op, p)).2 s' ∧
    rx_buffer_ (client s') = rx_buffer_ (client s)).
  { intros (s' & H1 & H2 & H3). eauto. }
  clear Hfs. unfold HandleFrame. cbv zeta.
  assert (control_response fr s = (Ok None, s)) as Hctl.
  { unfold control_response, WebSocketFrame.BuildControlResponse. rewrite Hop'. by destruct op. }
  unfold mbind at 1, M_bind at 1. rewrite Hctl. unfold heartbeat.IsOkxPong, sv_eqb. rewrite Hop', Hfin, Ht.
  fold (is_pong op p). unfold feed in *. destruct (is_pong op p); [by exists s|].
  case_decide as Hop.
  - destruct (append_collected acc out p fin s Hc Hlen) as (s1 & H1 & Hc1 & Hcomp & Hx1).
    unfold mbind at 1, M_bind at 1. rewrite H1. unfold mbind at 1, M_bind at 1.
    change (read reassembler_ s1) with (Ok (reassembler_ (client s1)), s1). cbn [fst snd]. rewrite Hcomp.
    destruct fin; [|by exists s1]. cbn [snd] in Hok. pose proof Hc1 as ([Hl1 Hs1] & Ht1 & _).
    destruct (Dispatch_delivers (Reassembler.GetMessage (reassembler_ (client s1))) _ _ s1
      ltac:(unfold sv_wf, Reassembler.GetMessage; simpl; lia) ltac:(by rewrite Ht1) Hc1)
      as (s2 & H2 & (Hwf2 & Ht2 & Ho2) & Hr2 & Hx2).
    unfold mbind, M_bind. rewrite H2. eexists. split; [reflexivity|]. split; [split; [|split]|].
    + destruct Hwf2 as [Hl _]. split; [exact Hl|apply Nat.le_0_l].
    + done.
    + cbn. by rewrite <-Ht1.
    + cbn. by rewrite Hx2.
  - destruct fin; cbn [negb].
    + cbn [snd] in Hok. rewrite <-Ht in Hok.
      destruct (Dispatch_delivers (WebSocketFrame.payload fr) acc out s Hwf Hok Hc) as (s1 & H1 & Hc1 & _ & Hx1).
      exists s1. rewrite Ht in Hc1. by split.
    + destruct (append_collected acc out p false s Hc Hlen) as (s1 & H1 & Hc1 & _ & Hx1). by exists s1.
Qed.

(** The frames at the front of the receive buffer. *)
Lemma frame_loop_feed g tail fuel acc out (s : S) fs :
  Forall sframe_ok g → rx_buffer_ (client s) = frames_text g ++ tail →
  WebSocketFrame.DecodeFrame (sv_of tail) = Ok None → length g ≤ fuel →
  collected acc out s → feedable acc (g ++ fs) →
  let x := foldl feed (acc, out) g in ok x.2 →
  ∃ s', frame_loop on_message on_trace fuel s = (Ok tt, s') ∧ collected x.1 x.2 s' ∧ feedable x.1 fs ∧
    rx_buffer_ (client s') = tail.
Proof using Hmessage Hprefix.
  intros Hg. revert fuel acc out s. induction Hg as [|f g Hf Hg IH]; intros fuel acc out s Hrx Hd Hfuel Hc Hfd x Hok.
  { change (frames_text [] ++ tail) with tail in Hrx. exists s. by rewrite frame_loop_wait by (by rewrite Hrx). }
  destruct fuel as [|fuel]; [simpl in Hfuel; lia|]. destruct f as [[fin op] p].
  unfold frames_text in Hrx. cbn [fmap list_fmap concat] in Hrx. rewrite <-app_assoc in Hrx.
  fold (frames_text g) in Hrx. set (rx := rx_buffer_ (client s)) in *.
  pose proof (WebSocketFrame.DecodeFrame_whole (sv_of rx) fin op p (frames_text g ++ tail)
    (sv_wf_of _) Hf) as Hdec. rewrite sv_text_of in Hdec. specialize (Hdec Hrx).
  set (fr := WebSocketFrame.MkFrame _ _ _) in Hdec.
  assert (stands_for fr (fin, op, p)) as Hfr.
  { split; [done|]. split; [done|]. split.
    - apply sv_wf_substr; [apply sv_wf_of|]. cbn [sv_size sv_of]. rewrite Hrx.
      unfold sframe_text, WebSocketFrame.server_frame. rewrite !length_app. lia.
    - cbn [WebSocketFrame.payload fr]. rewrite sv_text_substr, !sv_text_of, Hrx.
      unfold sframe_text, WebSocketFrame.server_frame. rewrite <-app_assoc.
      by rewrite drop_app_length, take_app_length. }
  assert (ok (feed (acc, out) (fin, op, p)).2) as Hok1.
  { eapply Hprefix; [|exact Hok]. apply (feed_prefix (feed (acc, out) (fin, op, p)) g). }
  destruct (HandleFrame_feed fr _ acc out s (g ++ fs) Hfr Hc Hfd Hok1) as (s1 & H1 & Hc1 & Hf1 & Hx1).
  cbn [frame_loop]. rewrite (bindM_Ok _ _ _ _ _ (read_eq rx_buffer_ s)). fold rx.
  unfold mbind at 1, M_bind at 1, lift at 1. rewrite Hdec.
  rewrite (bindM_Ok _ _ _ _ _ H1), (bindM_Ok _ _ _ _ _ (update_eq _ s1)), Hx1. fold rx.
  assert (drop (Z.to_nat (WebSocketFrame.total_size fr)) rx = frames_text g ++ tail) as ->.
  { rewrite Hrx. cbn [WebSocketFrame.total_size fr]. rewrite Nat2Z.id. apply drop_app_length. }
  unfold x in *. cbn [foldl] in *. destruct (feed (acc, out) (fin, op, p)) as [acc1 out1].
  apply IH; try done. simpl in Hfuel. lia.
Qed.

(** Any way to cut the stream of the server into reads. *)
Lemma chunks_feed chunks fs acc out (s : S) :
  Forall sframe_ok fs → rx_buffer_ (client s) ++ concat chunks = frames_text fs →
  match fs with [] => rx_buffer_ (client s) = []
              | f :: _ => length (rx_buffer_ (client s)) < length (sframe_text f) end →
  collected acc out s → feedable acc fs →
  let x := foldl feed (acc, out) fs in ok x.2 →
  ∃ s', json.visit (λ c, OnRead on_message on_trace (Some c)) chunks s = (Ok tt, s') ∧ collected x.1 x.2 s'.
Proof using Hmessage Hprefix.
  revert fs acc out s. induction chunks as [|c chunks IH]; intros fs acc out s Hfs Hrx Hlen Hc Hfd x Hok.
  { exists s. split; [done|]. destruct fs as [|f fs]; [done|exfalso].
    rewrite app_nil_r in Hrx. rewrite Hrx in Hlen. unfold frames_text in Hlen.
    cbn [fmap list_fmap concat] in Hlen. rewrite length_app in Hlen. lia. }
  cbn [concat] in Hrx. rewrite app_assoc in Hrx.
  destruct (split_frames fs _ _ Hrx) as (g & fs' & tail & -> & Hdata & Htail & Hl).
  apply Forall_app in Hfs as [Hg Hfs]. pose proof (decode_rest _ _ _ Hfs Htail Hl) as Hd.
  unfold x in *. rewrite foldl_app in *.
  assert (ok (foldl feed (acc, out) g).2) as Hok1 by (eapply Hprefix; [apply feed_prefix|exact Hok]).
  cbn [json.visit]. destruct (ReadCounter (world s)) as [ticks w1] eqn:Ec.
  set (b := rx_buffer_ (client s) ++ c) in *.
  set (s0 := MkSt (set_rx b (set_arrival ticks (client s))) (app s) w1 (effects s)).
  destruct (frame_loop_feed g tail (length b) acc out s0 fs' Hg Hdata Hd) as (s1 & H1 & Hc1 & Hf1 & Hx1);
    [rewrite Hdata, length_app; pose proof (length_frames_text g); lia|done|done|done|].
  set (s2 := if transport_ (client s1) then MkSt (client s1) (app s1) (world s1) (effects s1 ++ [AsyncReadSome]) else s1).
  assert (client s2 = client s1 ∧ app s2 = app s1) as [Hc2 Ha2] by (unfold s2; by destruct (transport_ _)).
  rewrite (bindM_Ok _ _ _ tt s2).
  - destruct (foldl feed (acc, out) g) as [acc1 out1]. apply (IH fs'); [done|by rewrite Hc2, Hx1|by rewrite Hc2, Hx1| |done|done].
    unfold collected. by rewrite Hc2, Ha2.
  - transitivity (match frame_loop on_message on_trace (length b) s0 with
      | (Ok _, s1) => ReadLoop s1 | (Stop x, s1) => (Stop x, s1) end).
    { unfold OnRead, on_world, zoom, ask, mbind, M_bind. rewrite Ec. reflexivity. }
    rewrite H1. unfold ReadLoop, read, get, mbind, M_bind, s2. cbn [mret M_ret]. by destruct (transport_ (client s1)).
Qed.
End delivery.

(** The handler that keeps the messages it is called with. *)
Definition keep_message {W} (v : string_view) : M (St (list (list Z)) W) unit :=
  modify (λ s, MkSt (client s) (app s ++ [sv_text v]) (world s) (effects s)).
Definition no_trace {App W} (tr : TickToTradeTrace) : M (St App W) unit := mret tt.

Lemma blind_keep {W} v : blind (keep_message (W:=W) v).
Proof. done. Qed.
Lemma blind_no_trace {App W} tr : blind (no_trace (App:=App) (W:=W) tr).
Proof. done. Qed.
Lemma keep_text {W} v v' :
  sv_wf v → sv_wf v' → sv_text v = sv_text v' → keep_message (W:=W) v = keep_message v'.
Proof. intros _ _ Ht. unfold keep_message. by rewrite Ht. Qed.

(** What a server sends: messages, whole or in fragments, and pongs. *)
Inductive item :=
  | Pong (p : list Z)
  | Message (op : WebSocketFrame.WebSocketOpcode) (frags : list (list Z)) (last : list Z).
Definition item_frames (x : item) : list sframe :=
  match x with
  | Pong p => [(true, WebSocketFrame.kPong, p)]
  | Message op [] last => [(true, op, last)]
  | Message op (frag :: frags) last =>
      (false, op, frag) :: ((λ x, (false, WebSocketFrame.kContinuation, x)) <$> frags) ++
      [(true, WebSocketFrame.kContinuation, last)]
  end.
(** What the handler gets: the text of the message, but a frame of type text
    with the payload "pong", the answer to a heartbeat, is dropped, also when
    it is the first fragment of a longer message. *)
Definition item_message (x : item) : list (list Z) :=
  match x with
  | Pong _ => []
  | Message op [] last => if is_pong op last then [] else [last]
  | Message op (frag :: frags) last => [(if is_pong op frag then [] else frag) ++ concat frags ++ last]
  end.
Definition item_ok (x : item) : Prop :=
  match x with
  | Pong p => (length p ≤ kMaxMessageSize)%nat
  | Message op frags last =>
      (op = WebSocketFrame.kText ∨ op = WebSocketFrame.kBinary) ∧
      length (concat frags ++ last) ≤ kMaxMessageSize
  end.

Lemma fragments_feed frags last acc out fs :
  length (acc ++ concat frags ++ last) ≤ kMaxMessageSize → feedable [] fs →
  let l := ((λ x, (false, WebSocketFrame.kContinuation, x)) <$> frags) ++
    [(true, WebSocketFrame.kContinuation, last)] in
  foldl feed (acc, out) l = ([], out ++ [acc ++ concat frags ++ last]) ∧ feedable acc (l ++ fs).
Proof.
  revert acc. induction frags as [|frag frags IH]; intros acc Hl Hf; cbn [fmap list_fmap concat app foldl].
  - split; [done|]. cbn [feedable]. split; [done|]. split; [done|]. by split.
  - cbn [concat] in Hl. rewrite <-app_assoc in Hl. destruct (IH (acc ++ frag)) as [H1 H2]; [by rewrite <-app_assoc|done|].
    rewrite <-!app_assoc in H1. split; [rewrite <-app_assoc; exact H1|].
    cbn [feedable]. split; [done|]. split; [done|]. split; [|exact H2].
    rewrite !length_app in *. lia.
Qed.
Lemma item_feed x out fs :
  item_ok x → feedable [] fs →
  foldl feed ([], out) (item_frames x) = ([], out ++ item_message x) ∧ feedable [] (item_frames x ++ fs).
Proof.
  destruct x as [p|op [|frag frags] last]; intros Hok Hf; cbn [item_frames item_message foldl app feedable].
  - rewrite app_nil_r. split; [done|]. split; [done|]. split; [done|]. split; [exact Hok|exact Hf].
  - destruct Hok as [Hop Hl]. cbn [concat] in Hl.
    assert (op ≠ WebSocketFrame.kContinuation) as Hc by (by destruct Hop as [-> | ->]).
    assert (∀ o, feed ([], o) (true, op, last) = ([], o ++ if is_pong op last then [] else [last])) as Hfeed.
    { intros o. unfold feed. destruct (is_pong op last); [by rewrite app_nil_r|]. by rewrite decide_False. }
    rewrite (Hfeed out). split; [done|]. split; [by destruct Hop as [-> | ->]|].
    split; [by destruct Hop as [-> | ->]|]. split; [exact Hl|]. rewrite (Hfeed []). exact Hf.
  - destruct Hok as [Hop Hl]. cbn [concat] in Hl. rewrite <-app_assoc in Hl.
    assert (op ≠ WebSocketFrame.kContinuation) as Hc by (by destruct Hop as [-> | ->]).
    set (start := if is_pong op frag then [] else frag).
    assert (∀ o, feed ([], o) (false, op, frag) = (start, o)) as Hfeed.
    { intros o. unfold feed, start. destruct (is_pong op frag); [done|]. by rewrite decide_False. }
    assert (length start ≤ length frag) as Hst by (unfold start; destruct (is_pong op frag); simpl; lia).
    rewrite (Hfeed out).
    destruct (fragments_feed frags last start out fs) as [H1 H2]; [rewrite !length_app in *; lia|done|].
    split; [exact H1|].
    split; [by destruct Hop as [-> | ->]|]. split; [by destruct Hop as [-> | ->]|].
    split; [simpl; rewrite !length_app in Hl; lia|]. rewrite (Hfeed []). exact H2.
Qed.
Lemma items_feed items out :
  Forall item_ok items →
  foldl feed ([], out) (items ≫= item_frames) = ([], out ++ (items ≫= item_message)) ∧
  feedable [] (items ≫= item_frames).
Proof.
  intros Hok. revert out. induction Hok as [|x items Hx _ IH]; intros out; [by rewrite app_nil_r|].
  cbn [mbind list_bind]. fold (items ≫= item_frames) (items ≫= item_message).
  destruct (item_feed x out (items ≫= item_frames) Hx (proj2 (IH []))) as [H1 H2].
  split; [|done]. rewrite foldl_app, H1, (proj1 (IH _)). by rewrite app_assoc.
Qed.
Lemma feedable_ok acc fs : feedable acc fs → Forall sframe_ok fs.
Proof.
  revert acc. induction fs as [|[[fin op] p] fs IH]; intros acc; [constructor|].
  intros (_ & _ & Hl & Hfs). constructor; [|by eapply IH].
  unfold sframe_ok. cbn [snd]. rewrite length_app in Hl. pose proof message_size_small. lia.
Qed.
(** The handler is called with the messages of a stream of items. *)
Lemma chunks_items {App W} `{!World W} (on_message : string_view → M (St App W) unit) on_trace
    (P : list (list Z) → App → Prop) (ok : list (list Z) → Prop) chunks items out (s : St App W) :
  (∀ l l', l `prefix_of` l' → ok l' → ok l) →
  (∀ v out s, sv_wf v → ok (out ++ [sv_text v]) → P out (app s) →
    ∃ s', on_message v s = (Ok tt, s') ∧ P (out ++ [sv_text v]) (app s') ∧
      reassembler_ (client s') = reassembler_ (client s) ∧ rx_buffer_ (client s') = rx_buffer_ (client s)) →
  Forall item_ok items → collected P [] out s → rx_buffer_ (client s) = [] →
  concat chunks = frames_text (items ≫= item_frames) → ok (out ++ (items ≫= item_message)) →
  ∃ s', json.visit (λ c, OnRead on_message on_trace (Some c)) chunks s = (Ok tt, s') ∧
    P (out ++ (items ≫= item_message)) (app s').
Proof.
  intros Hprefix Hmessage Hok Hcol Hrx Hc Hall. destruct (items_feed items out Hok) as [Hfeed Hfd].
  destruct (chunks_feed on_message on_trace P ok Hprefix Hmessage chunks (items ≫= item_frames) [] out s
    (feedable_ok _ _ Hfd)) as (s' & H1 & (_ & _ & HP)); [by rewrite Hrx| |done|done|by rewrite Hfeed|].
  { rewrite Hrx. case_match; [done|]. match goal with |- _ < length (sframe_text ?f) =>
      pose proof (sframe_length f) end. simpl. lia. }
  rewrite Hfeed in HP. by exists s'.
Qed.

(** *** The bytes on the wire

    The transmit side as a machine: frames are queued, batches opened and
    closed, writes completed.  [outstanding] holds the bytes of every
    [async_write] that has been started and not completed, the oldest first,
    as they lay in front of the ring when it was started; [wire] is what the
    completed writes have sent. *)
Section transmit.
Context {App W : Type} `{!World W}.
Notation S := (St App W).
Context (on_trace_resolved : TickToTradeTrace → M S unit)
  (Htrace : ∀ tr s, ∃ s', on_trace_resolved tr s = (Ok tt, s') ∧
     client s' = client s ∧ effects s' = effects s).

Inductive tx_event := TxFrame (frame : list Z) (trace : option TickToTradeTrace)
  | TxBegin | TxEnd | TxDone.
Record tx := MkTx { tx_state : S; wire : list Z; outstanding : list (list Z) }.

Notation readable c := (RingBuffer.ContiguousReadableRegion kTxRingCapacity (tx_ring_ c)).
(** The writes that some effects start, with the bytes in front of the ring. *)
Definition writes_of (region : list Z) (new : list effect) : list (list Z) :=
  omap (λ e, match e with AsyncWrite n => Some (take n region) | _ => None end) new.
Definition tx_run1 (old : list (list Z)) (sent : list Z) (m : M S unit) (x : tx) : result tx :=
  match m (tx_state x) with
  | (Ok _, s') => Ok (MkTx s' (wire x ++ sent)
      (old ++ writes_of (readable (client s')) (drop (length (effects (tx_state x))) (effects s'))))
  | (Stop y, _) => Stop y
  end.
Definition tx_step (e : tx_event) (x : tx) : result tx :=
  match e with
  | TxFrame frame trace => tx_run1 (outstanding x) [] (WriteRaw on_trace_resolved frame trace) x
  | TxBegin => tx_run1 (outstanding x) [] BeginBatch x
  | TxEnd => tx_run1 (outstanding x) [] (EndBatch on_trace_resolved) x
  | TxDone =>
      match outstanding x with
      | [] => Ok x
      | bytes :: later => tx_run1 later bytes (OnWrite on_trace_resolved (Some (length bytes))) x
      end
  end.
Fixpoint tx_run (es : list tx_event) (x : tx) : result tx :=
  match es with [] => Ok x | e :: es' => x' ← tx_step e x; tx_run es' x' end.
Definition queued (es : list tx_event) : list Z :=
  es ≫= λ e, match e with TxFrame frame _ => frame | _ => [] end.

Definition contents (x : tx) : list Z := RingBuffer.contents (tx_ring_ (client (tx_state x))).
(** [sent]: all bytes queued so far. *)
Definition tx_inv (sent : list Z) (x : tx) : Prop :=
  let c := client (tx_state x) in
  RingBuffer.wf kTxRingCapacity (tx_ring_ c) ∧ transport_ c = true ∧
  (if write_in_flight_ c then ∃ bytes, outstanding x = [bytes] ∧ bytes `prefix_of` contents x
   else outstanding x = []) ∧
  wire x ++ contents x = sent ∧
  (batching_ c = false → contents x ≠ [] → write_in_flight_ c = true).

Definition same_queue (c c' : t) : Prop :=
  tx_ring_ c' = tx_ring_ c ∧ transport_ c' = transport_ c ∧ batching_ c' = batching_ c.

Lemma resolve_quiet n trs (s : S) :
  ∃ s', resolve_traces on_trace_resolved n trs s = (Ok tt, s') ∧ same_queue (client s) (client s') ∧
    effects s' = effects s.
Proof.
  revert s. induction trs as [|tr trs IH]; intros s; [by exists s|].
  cbn [resolve_traces]. unfold mbind, M_bind, update at 1, on_client, zoom, modify.
  match goal with |- context [on_trace_resolved ?a ?b] => destruct (Htrace a b) as (s1 & -> & Hc & He) end.
  destruct (IH s1) as (s2 & -> & (H1 & H2 & H3) & He2). exists s2. split; [done|].
  rewrite Hc in H1, H2, H3. rewrite He in He2. by split.
Qed.
Lemma StartWrite_spec (s : S) :
  transport_ (client s) = true →
  ∃ s', StartWrite on_trace_resolved s = (Ok tt, s') ∧ same_queue (client s) (client s') ∧
    write_in_flight_ (client s') = true ∧
    effects s' = effects s ++
      [AsyncWrite (length (RingBuffer.ContiguousReadableRegion kTxRingCapacity (tx_ring_ (client s))))].
Proof.
  intros Ht. unfold StartWrite. rewrite (bindM_Ok _ _ _ _ _ (read_eq transport_ s)), Ht. cbn [negb].
  destruct (ReadCounter (world s)) as [ticks w1] eqn:Ec.
  set (s0 := MkSt (client s) (app s) w1 (effects s)).
  rewrite (bindM_Ok _ _ _ ticks s0) by (unfold on_world, zoom, ask; by rewrite Ec).
  rewrite (bindM_Ok _ _ _ _ _ (read_eq pending_send_traces_ s0)).
  destruct (resolve_quiet ticks (pending_send_traces_ (client s0)) s0) as (s1 & H1 & (Hr & Htr & Hb) & He).
  rewrite (bindM_Ok _ _ _ _ _ H1).
  rewrite (bindM_Ok _ _ _ _ _ (update_eq (set_in_flight true) s1)).
  rewrite (bindM_Ok _ _ _ _ _ (read_eq tx_ring_ _)).
  eexists. split; [reflexivity|]. cbn [client effects tx_ring_ set_in_flight].
  split; [done|]. split; [done|]. by rewrite He, Hr.
Qed.

(** A step that ends with [StartWrite], or without a new write. *)
Lemma tx_started old sent m x s1 :
  m (tx_state x) = StartWrite on_trace_resolved s1 → transport_ (client s1) = true →
  effects s1 = effects (tx_state x) →
  ∃ s', tx_run1 old sent m x = Ok (MkTx s' (wire x ++ sent) (old ++ [readable (client s1)])) ∧
    same_queue (client s1) (client s') ∧ write_in_flight_ (client s') = true.
Proof.
  intros Hm Ht He. unfold tx_run1. rewrite Hm. destruct (StartWrite_spec s1 Ht) as (s' & -> & Hq & Hf & He').
  exists s'. split; [|done]. rewrite He', He, drop_app_length, (proj1 Hq). unfold writes_of. cbn [omap list_omap].
  by rewrite take_ge.
Qed.
Lemma tx_quiet old sent m x s1 :
  m (tx_state x) = (Ok tt, s1) → effects s1 = effects (tx_state x) →
  tx_run1 old sent m x = Ok (MkTx s1 (wire x ++ sent) old).
Proof.
  intros Hm He. unfold tx_run1. rewrite Hm, He, drop_all. unfold writes_of. by rewrite app_nil_r.
Qed.

Lemma contents_eq (s : S) w o : contents (MkTx s w o) = RingBuffer.contents (tx_ring_ (client s)).
Proof. done. Qed.
Lemma started_inv sent (s1 s' : S) w :
  same_queue (client s1) (client s') → write_in_flight_ (client s') = true →
  RingBuffer.wf kTxRingCapacity (tx_ring_ (client s1)) → transport_ (client s1) = true →
  w ++ RingBuffer.contents (tx_ring_ (client s1)) = sent →
  tx_inv sent (MkTx s' w [readable (client s1)]).
Proof.
  intros (Hr & Ht & Hb) Hf Hwf Htr Hw. unfold tx_inv. rewrite contents_eq.
  cbn [tx_state wire outstanding]. rewrite Hr, Ht, Hf. split; [done|]. split; [done|].
  split; [|done]. eexists. split; [done|]. by apply RingBuffer.readable_prefix.
Qed.

Lemma tx_frame_inv frame trace sent x :
  tx_inv sent x → length (contents x) + length frame ≤ kTxRingCapacity →
  ∃ x', tx_step (TxFrame frame trace) x = Ok x' ∧ tx_inv (sent ++ frame) x'.
Proof.
  intros (Hwf & Htr & Hfl & Hw & Hidle) Hfit. unfold tx_step. destruct x as [s w o].
  rewrite contents_eq in Hfit, Hfl, Hw, Hidle. cbn [tx_state wire outstanding] in *.
  rewrite (RingBuffer.ring_length_contents _ _ Hwf) in Hfit.
  destruct (RingBuffer.Write_spec kTxRingCapacity _ frame Hwf Hfit) as (ring & HW & Hwf' & Hsz & Hc).
  set (s1 := MkSt (set_ring ring (client s)) (app s) (world s) (effects s)).
  set (s2 := match trace with
    | Some tr => MkSt (set_traces (pending_send_traces_ (client s1) ++ [tr]) (client s1)) (app s1) (world s1) (effects s1)
    | None => s1 end).
  assert (WriteRaw on_trace_resolved frame trace s =
    (if negb (write_in_flight_ (client s)) && negb (batching_ (client s))
     then StartWrite on_trace_resolved s2 else (Ok tt, s2))) as HWR.
  { unfold WriteRaw. rewrite (bindM_Ok _ _ _ tt s1) by (unfold on_client, zoom; by rewrite HW).
    rewrite (bindM_Ok _ _ _ tt s2) by (by unfold s2; destruct trace).
    rewrite (bindM_Ok _ _ _ _ _ (read_eq write_in_flight_ s2)).
    rewrite (bindM_Ok _ _ _ _ _ (read_eq batching_ s2)).
    assert (write_in_flight_ (client s2) = write_in_flight_ (client s)) as -> by (by unfold s2; destruct trace).
    assert (batching_ (client s2) = batching_ (client s)) as -> by (by unfold s2; destruct trace).
    by destruct (negb _ && negb _). }
  assert (tx_ring_ (client s2) = ring ∧ transport_ (client s2) = true ∧ effects s2 = effects s ∧
    write_in_flight_ (client s2) = write_in_flight_ (client s) ∧ batching_ (client s2) = batching_ (client s))
    as (R2 & T2 & E2 & F2 & B2) by (unfold s2; by destruct trace).
  assert (w ++ RingBuffer.contents (tx_ring_ (client s2)) = sent ++ frame) as Hw2
    by (rewrite R2, Hc, app_assoc; by f_equal).
  destruct (negb (write_in_flight_ (client s)) && negb (batching_ (client s))) eqn:Eb.
  - apply andb_true_iff in Eb as [Ef%negb_true_iff _]. rewrite Ef in Hfl. subst o.
    destruct (tx_started [] [] (WriteRaw on_trace_resolved frame trace) (MkTx s w []) s2 HWR T2 E2)
      as (s' & -> & Hq & Hf). eexists. split; [done|]. cbn [wire]. rewrite app_nil_r.
    apply (started_inv _ s2); [done|done|by rewrite R2|done|done].
  - rewrite (tx_quiet o [] _ (MkTx s w o) s2 HWR E2). eexists. split; [done|]. cbn [wire].
    rewrite app_nil_r. unfold tx_inv. rewrite contents_eq. cbn [tx_state wire outstanding].
    split; [by rewrite R2|]. split; [done|]. rewrite F2, R2, Hc. split; [|split; [by rewrite <-Hc, <-R2|]].
    + destruct (write_in_flight_ (client s)); [|done]. destruct Hfl as (bytes & -> & Hp). exists bytes.
      split; [done|]. by apply prefix_app_r.
    + rewrite B2. intros Hbt _. rewrite Hbt, andb_true_r in Eb. by apply negb_false_iff in Eb.
Qed.

Lemma tx_end_inv sent x :
  tx_inv sent x → ∃ x', tx_step TxEnd x = Ok x' ∧ tx_inv sent x'.
Proof.
  intros (Hwf & Htr & Hfl & Hw & Hidle). unfold tx_step. destruct x as [s w o].
  rewrite contents_eq in Hfl, Hw, Hidle. cbn [tx_state wire outstanding] in *.
  set (s1 := MkSt (set_batching false (client s)) (app s) (world s) (effects s)).
  assert (EndBatch on_trace_resolved s =
    if negb (write_in_flight_ (client s)) then StartWrite on_trace_resolved s1 else (Ok tt, s1)) as HE.
  { unfold EndBatch. rewrite (bindM_Ok _ _ _ _ _ (update_eq (set_batching false) s)).
    rewrite (bindM_Ok _ _ _ _ _ (read_eq write_in_flight_ _)). fold s1.
    change (write_in_flight_ (client s1)) with (write_in_flight_ (client s)). by destruct (negb _). }
  destruct (negb (write_in_flight_ (client s))) eqn:Eb.
  - apply negb_true_iff in Eb. rewrite Eb in Hfl. subst o.
    destruct (tx_started [] [] (EndBatch on_trace_resolved) (MkTx s w []) s1 HE Htr eq_refl)
      as (s' & -> & Hq & Hf). eexists. split; [done|]. cbn [wire]. rewrite app_nil_r.
    by apply (started_inv _ s1).
  - rewrite (tx_quiet o [] _ (MkTx s w o) s1 HE eq_refl). eexists. split; [done|]. cbn [wire].
    rewrite app_nil_r. unfold tx_inv. rewrite contents_eq. cbn [tx_state wire outstanding].
    split; [done|]. split; [done|]. split; [done|]. split; [done|]. intros _ _. by apply negb_false_iff in Eb.
Qed.

Lemma tx_done_inv sent x bytes :
  tx_inv sent x → outstanding x = [bytes] →
  ∃ x', tx_step TxDone x = Ok x' ∧ tx_inv sent x' ∧ contents x' = drop (length bytes) (contents x) ∧
    batching_ (client (tx_state x')) = batching_ (client (tx_state x)) ∧
    (contents x' ≠ [] → ∃ bytes', outstanding x' = [bytes'] ∧ bytes' ≠ []).
Proof.
  intros Hinv Ho. pose proof Hinv as (Hwf & Htr & Hfl & Hw & Hidle). unfold tx_step.
  destruct x as [s w o]. rewrite contents_eq in *. cbn [tx_state wire outstanding] in *. subst o.
  destruct (write_in_flight_ (client s)); [|done]. destruct Hfl as (bytes' & [= <-] & rest & Hp).
  set (n := length bytes). assert (n ≤ RingBuffer.size_ (tx_ring_ (client s))) as Hn.
  { rewrite <-(RingBuffer.ring_length_contents _ _ Hwf), Hp, length_app. lia. }
  destruct (RingBuffer.CommitRead_spec kTxRingCapacity _ n Hwf Hn) as [Hwf1 Hc1].
  set (s1 := MkSt (set_ring (RingBuffer.CommitRead kTxRingCapacity n (tx_ring_ (client s))) (client s))
    (app s) (world s) (effects s)).
  assert ((w ++ bytes) ++ RingBuffer.contents (tx_ring_ (client s1)) = sent) as Hw1.
  { cbn [client s1 tx_ring_ set_ring]. rewrite Hc1, Hp. unfold n. by rewrite drop_app_length, <-app_assoc, <-Hp. }
  assert (OnWrite on_trace_resolved (Some n) s =
    if 0 <? RingBuffer.Size (tx_ring_ (client s1)) then StartWrite on_trace_resolved s1
    else (Ok tt, MkSt (set_in_flight false (client s1)) (app s1) (world s1) (effects s1))) as HO.
  { unfold OnWrite. rewrite (bindM_Ok _ _ _ _ _ (update_eq _ s)).
    rewrite (bindM_Ok _ _ _ _ _ (read_eq tx_ring_ _)). fold s1. by destruct (0 <? _). }
  destruct (Nat.ltb_spec 0 (RingBuffer.Size (tx_ring_ (client s1)))) as [Hsz|Hsz].
  - destruct (tx_started [] bytes (OnWrite on_trace_resolved (Some n)) (MkTx s w [bytes]) s1 HO Htr eq_refl)
      as (s' & -> & Hq & Hf). eexists. split; [done|]. cbn [wire].
    split; [by apply (started_inv _ s1)|]. rewrite contents_eq. destruct Hq as (Hr & _ & Hb).
    split; [rewrite Hr; exact Hc1|]. split; [exact Hb|]. intros _. eexists. split; [reflexivity|].
    intros He%(f_equal length). rewrite RingBuffer.length_readable in He by exact Hwf1.
    destruct Hwf1 as (_ & Hpos & _). unfold RingBuffer.Size in Hsz. simpl in *. lia.
  - rewrite (tx_quiet [] bytes _ (MkTx s w [bytes]) _ HO eq_refl). eexists. split; [done|]. cbn [wire].
    rewrite contents_eq. change (tx_ring_ (client (MkSt (set_in_flight false (client s1)) _ _ _)))
      with (RingBuffer.CommitRead kTxRingCapacity n (tx_ring_ (client s))).
    assert (RingBuffer.contents (RingBuffer.CommitRead kTxRingCapacity n (tx_ring_ (client s))) = []) as Hnil.
    { apply nil_length_inv. etrans; [exact (RingBuffer.ring_length_contents _ _ Hwf1)|].
      change (RingBuffer.Size (tx_ring_ (client s1)) = 0). lia. }
    split; [|split; [done|]; split; [done|]; by rewrite Hnil].
    unfold tx_inv. rewrite contents_eq. cbn [tx_state wire outstanding].
    split; [done|]. split; [done|]. split; [done|]. split; [done|]. intros _ Hne. by destruct Hne.
Qed.

Lemma tx_at_most_one sent x : tx_inv sent x → outstanding x = [] ∨ ∃ bytes, outstanding x = [bytes].
Proof. intros (_ & _ & Hfl & _). destruct (write_in_flight_ _); [destruct Hfl as (? & ? & _)|]; eauto. Qed.
Lemma tx_step_inv e sent x :
  tx_inv sent x →
  match tx_step e x with
  | Ok x' => tx_inv (sent ++ queued [e]) x'
  | Stop y => y = Exn (runtime_error "RingBuffer overflow" [])
  end.
Proof.
  intros Hinv. destruct e as [frame trace| | |]; unfold queued; cbn [mbind list_bind]; rewrite app_nil_r.
  - destruct (decide (length (contents x) + length frame ≤ kTxRingCapacity)) as [Hfit|Hbig].
    + by destruct (tx_frame_inv frame trace sent x Hinv Hfit) as (x' & -> & ?).
    + destruct Hinv as (Hwf & _). destruct x as [s w o]. rewrite contents_eq in Hbig.
      cbn [tx_state] in *. rewrite (RingBuffer.ring_length_contents _ _ Hwf) in Hbig.
      unfold tx_step, tx_run1. cbn [tx_state]. unfold WriteRaw, mbind, M_bind, on_client, zoom.
      by rewrite RingBuffer.Write_overflow by (done || lia).
  - destruct Hinv as (Hwf & Htr & Hfl & Hw & Hidle). destruct x as [s w o].
    unfold tx_step. cbn [outstanding]. rewrite (tx_quiet o [] BeginBatch (MkTx s w o) _ (update_eq _ s) eq_refl). cbn [wire].
    rewrite app_nil_r. unfold tx_inv. rewrite contents_eq. cbn [tx_state wire outstanding].
    by repeat (split; [done|]).
  - by destruct (tx_end_inv sent x Hinv) as (x' & -> & ?).
  - destruct (tx_at_most_one sent x Hinv) as [Ho|[bytes Ho]].
    + unfold tx_step. by rewrite Ho.
    + by destruct (tx_done_inv sent x bytes Hinv Ho) as (x' & -> & ? & _).
Qed.
Lemma tx_run_inv es sent x :
  tx_inv sent x →
  match tx_run es x with
  | Ok x' => tx_inv (sent ++ queued es) x'
  | Stop y => y = Exn (runtime_error "RingBuffer overflow" [])
  end.
Proof.
  revert sent x. induction es as [|e es IH]; intros sent x Hinv; cbn [tx_run].
  { unfold queued. simpl. by rewrite app_nil_r. }
  pose proof (tx_step_inv e sent x Hinv) as He. destruct (tx_step e x) as [x'|y]; [|done].
  cbn [mbind result_bind]. specialize (IH _ _ He). destruct (tx_run es x'); [|done].
  assert (queued (e :: es) = queued [e] ++ queued es) as -> by
    (unfold queued; cbn [mbind list_bind]; by rewrite app_nil_r).
  by rewrite app_assoc.
Qed.

(** Completions empty the ring. *)
Lemma tx_drains sent x :
  tx_inv sent x → batching_ (client (tx_state x)) = false →
  ∃ k x', tx_run (replicate k TxDone) x = Ok x' ∧ wire x' = sent.
Proof.
  remember (2 * length (contents x) + if decide (outstanding x = [[]]) then 1 else 0) as m eqn:Hm.
  assert (2 * length (contents x) + (if decide (outstanding x = [[]]) then 1 else 0) ≤ m) as Hle by lia.
  clear Hm. revert x Hle. induction m as [m IH] using lt_wf_ind. intros x Hle Hinv Hb.
  destruct (decide (contents x = [])) as [Hnil|Hne].
  { exists 0, x. split; [done|]. destruct Hinv as (_ & _ & _ & Hw & _).
    by rewrite Hnil, app_nil_r in Hw. }
  pose proof Hinv as (_ & _ & Hfl & _ & Hidle). rewrite (Hidle Hb Hne) in Hfl. destruct Hfl as (bytes & Ho & _).
  destruct (tx_done_inv sent x bytes Hinv Ho) as (x' & Hstep & Hinv' & Hc & Hb' & Hpos).
  assert (0 < length (contents x)) as Hl0 by (destruct (contents x); [done|simpl; lia]).
  assert (length (contents x') = length (contents x) - length bytes) as Hl' by (by rewrite Hc, length_drop).
  assert (2 * length (contents x') + (if decide (outstanding x' = [[]]) then 1 else 0) < m) as Hlt.
  { destruct (decide (contents x' = [])) as [Hn'|Hn'].
    - assert (length (contents x') = 0) as -> by (by rewrite Hn').
      destruct (decide (outstanding x' = [[]])); lia.
    - destruct (Hpos Hn') as (k & Hk & Hk0). rewrite (decide_False (P := outstanding x' = [[]])) by (rewrite Hk; congruence).
      rewrite Ho in Hle. destruct bytes as [|b bytes]; [rewrite decide_True in Hle by done; simpl in *; lia|].
      rewrite decide_False in Hle by done. simpl in *. lia. }
  destruct (IH _ Hlt x' (le_n _) Hinv' ltac:(by rewrite Hb')) as (k & x2 & Hrun & Hw).
  exists (Datatypes.S k), x2. split; [|done]. cbn [replicate tx_run]. by rewrite Hstep.
Qed.
End transmit.
End OkxWsClient.

(** ** Properties *)
Import OkxWsClient.

(** C21. However the bytes of the server arrive, cut anywhere into reads, the
    read handler handles exactly the frames of the stream, each once and in
    order: the run over the reads is the run over the frames, exceptions and
    all, for every message handler that stays within the message it is given
    (and for every outcome of it). *)
Theorem read_handles_stream {App W} `{!World W} (on_message : string_view → M (St App W) unit)
    (on_trace : TickToTradeTrace → M (St App W) unit) (chunks : list (list Z)) (fs : list sframe)
    (s : St App W) :
  (∀ tr, blind (on_trace tr)) → (∀ v, blind (on_message v)) →
  (∀ v v', sv_wf v → sv_wf v' → sv_text v = sv_text v' → on_message v = on_message v') →
  Forall sframe_ok fs → rx_buffer_ (client s) = [] → concat chunks = frames_text fs →
  ∃ groups, concat groups = fs ∧ length groups = length chunks ∧
    forget (json.visit (λ c, OnRead on_message on_trace (Some c)) chunks s) =
    forget (json.visit (read_frames on_message on_trace) groups s).
Proof.
  intros Htr Hmsg Htext Hfs Hrx Hc.
  apply (chunks_frames on_message on_trace Htr Hmsg Htext chunks fs s Hfs); rewrite Hrx; [done|].
  destruct fs as [|f fs]; [done|]. pose proof (sframe_length f). simpl. lia.
Qed.

Definition sample_client : t := make (str "host") (str "8443") (str "/ws") None kJson.
Lemma read_handles_stream_witness :
  let world := sample_world 0 [] in
  let s : St (list (list Z)) unit := MkSt sample_client [] tt [] in
  let f := (true, WebSocketFrame.kText, str "hi") in
  ∃ groups, concat groups = [f] ∧ length groups = 2 ∧
    forget (json.visit (λ c, OnRead keep_message no_trace (Some c))
      [take 1 (sframe_text f); drop 1 (sframe_text f)] s) =
    forget (json.visit (read_frames keep_message no_trace) groups s).
Proof.
  intros world s f.
  apply (@read_handles_stream _ unit world keep_message no_trace
    [take 1 (sframe_text f); drop 1 (sframe_text f)] [f] s).
  - intros tr. exact (blind_no_trace tr).
  - intros v. exact (blind_keep v).
  - exact keep_text.
  - repeat constructor.
  - reflexivity.
  - reflexivity.
Defined.

(** C17. Messages of up to 1 MiB, whole or in fragments, with pongs between
    them, reach the message handler once each and in order, whatever the reads
    look like, and completely, with one exception: a text frame whose whole
    payload is "pong", the answer to the client's own heartbeat, is dropped.
    This is checked before the fragments are put together, so that a
    fragmented message that starts with such a frame arrives without it. *)
Theorem client_delivers_messages {W} `{!World W} (chunks : list (list Z)) (items : list item)
    (s : St (list (list Z)) W) :
  Forall item_ok items → collected eq [] (app s) s → rx_buffer_ (client s) = [] →
  concat chunks = frames_text (items ≫= item_frames) →
  ∃ s', json.visit (λ c, OnRead keep_message no_trace (Some c)) chunks s = (Ok tt, s') ∧
    app s' = app s ++ (items ≫= item_message).
Proof.
  intros Hok Hcol Hrx Hc.
  destruct (chunks_items keep_message no_trace eq (λ _, True) chunks items (app s) s) as (s' & Hrun & Heq);
    try done; [|by exists s'].
  intros v out s0 _ _ ->. by eexists.
Qed.

Lemma client_delivers_messages_witness :
  let world := sample_world 0 [] in
  let s : St (list (list Z)) unit := MkSt sample_client [] tt [] in
  let items := [Message WebSocketFrame.kText [str "he"; str "l"] (str "lo"); Pong [];
                Message WebSocketFrame.kText [] (str "pong")] in
  ∃ s', json.visit (λ c, OnRead keep_message no_trace (Some c))
      [take 5 (frames_text (items ≫= item_frames)); drop 5 (frames_text (items ≫= item_frames))] s = (Ok tt, s') ∧
    app s' = [str "hello"].
Proof.
  intros world s items.
  apply (@client_delivers_messages unit world
    [take 5 (frames_text (items ≫= item_frames)); drop 5 (frames_text (items ≫= item_frames))] items s).
  - pose proof message_size_small_nat as Hs. repeat constructor; simpl; lia.
  - split; [split; [apply length_replicate|apply Nat.le_0_l]|]. by split.
  - reflexivity.
  - reflexivity.
Defined.

(** C18. On a connection, whatever the interleaving of queued frames, opened
    and closed batches and completed writes: at no time is more than one
    write outstanding; the bytes that the completed writes have sent, each
    write those it was started with, followed by the bytes still in the ring,
    are the queued frames in order; and while bytes wait outside a batch a
    write is outstanding, so that a number of completions puts everything on
    the wire.  The only exception is the overflow of the ring. *)
Theorem tx_stream_correct {App W} `{!World W} (on_trace : TickToTradeTrace → M (St App W) unit)
    (es : list tx_event) (s : St App W) :
  (∀ tr s, ∃ s', on_trace tr s = (Ok tt, s') ∧ client s' = client s ∧ effects s' = effects s) →
  RingBuffer.wf kTxRingCapacity (tx_ring_ (client s)) → RingBuffer.contents (tx_ring_ (client s)) = [] →
  transport_ (client s) = true → write_in_flight_ (client s) = false →
  match tx_run on_trace es (MkTx s [] []) with
  | Ok x => length (outstanding x) ≤ 1 ∧ wire x ++ contents x = queued es ∧
      (batching_ (client (tx_state x)) = false →
        (contents x ≠ [] → length (outstanding x) = 1) ∧
        ∃ k x', tx_run on_trace (replicate k TxDone) x = Ok x' ∧ wire x' = queued es)
  | Stop y => y = Exn (runtime_error "RingBuffer overflow" [])
  end.
Proof.
  intros Htr Hwf Hc Ht Hf.
  assert (tx_inv [] (MkTx s [] [])) as Hinv.
  { unfold tx_inv. rewrite contents_eq. cbn [tx_state wire outstanding]. by rewrite Hc, Hf. }
  pose proof (tx_run_inv on_trace Htr es [] _ Hinv) as H.
  destruct (tx_run on_trace es (MkTx s [] [])) as [x|y]; [|done].
  pose proof H as (_ & _ & Hfl & Hw & Hidle).
  split; [by destruct (tx_at_most_one _ x H) as [-> |[? ->]]; simpl; lia|]. split; [done|]. intros Hb.
  split; [|exact (tx_drains on_trace Htr _ x H Hb)].
  intros Hne. rewrite (Hidle Hb Hne) in Hfl. by destruct Hfl as (? & -> & _).
Qed.

Lemma tx_stream_correct_witness :
  let world := sample_world 0 [] in
  let s : St unit unit := MkSt (set_transport true sample_client) tt tt [] in
  let on_trace : TickToTradeTrace → M (St unit unit) unit := λ _, mret tt in
  match tx_run on_trace [TxBegin; TxFrame [1%Z] None; TxFrame [2%Z] None; TxEnd; TxFrame [3%Z] None; TxDone]
    (MkTx s [] []) with
  | Ok x => length (outstanding x) ≤ 1 ∧ wire x ++ contents x = [1; 2; 3]%Z ∧
      (batching_ (client (tx_state x)) = false →
        (contents x ≠ [] → length (outstanding x) = 1) ∧
        ∃ k x', tx_run on_trace (replicate k TxDone) x = Ok x' ∧ wire x' = [1; 2; 3]%Z)
  | Stop y => y = Exn (runtime_error "RingBuffer overflow" [])
  end.
Proof.
  intros world s on_trace.
  destruct (RingBuffer.ring_wf_empty kTxRingCapacity tx_capacity_pos) as [Hwf Hc].
  exact (@tx_stream_correct unit unit world on_trace
    [TxBegin; TxFrame [1%Z] None; TxFrame [2%Z] None; TxEnd; TxFrame [3%Z] None; TxDone] s
    (λ tr s, ex_intro _ s (conj eq_refl (conj eq_refl eq_refl))) Hwf Hc eq_refl eq_refl).
Defined.

Lemma Dispatch_ok {App W} `{!World W} (on_message : string_view → M (St App W) unit) v s :
  (∀ v s, ∃ s', on_message v s = (Ok tt, s')) → ∃ s', DispatchMessage on_message v s = (Ok tt, s').
Proof.
  intros Hok. unfold DispatchMessage. destruct (ReadCounter (world s)) as [ticks w1] eqn:Ec.
  rewrite (bindM_Ok _ _ _ ticks (MkSt (client s) (app s) w1 (effects s)))
    by (unfold on_world, zoom, ask; by rewrite Ec).
  rewrite (bindM_Ok _ _ _ _ _ (update_eq (set_decoded ticks) _)).
  rewrite (bindM_Ok _ _ _ _ _ (read_eq auth_ _)), (bindM_Ok _ _ _ _ _ (read_eq authenticated_ _)).
  destruct (bool_decide _ && _ && _).
  - rewrite (bindM_Ok _ _ _ _ _ (update_eq _ _)). apply Hok.
  - rewrite (bindM_Ok (mret tt) _ _ tt _ eq_refl). apply Hok.
Qed.

(** C39. A single frame header of ten bytes that announces 2^64-10 bytes
    stops the client: its size is computed as 0, it is handled as a complete
    empty frame, no byte of it is removed, and the loop over the received
    frames never ends, whatever its budget. *)
Theorem read_loop_diverges {App W} `{!World W} (on_message : string_view → M (St App W) unit)
    (on_trace : TickToTradeTrace → M (St App W) unit) (fuel : nat) (s : St App W) :
  (∀ tr, blind (on_trace tr)) → (∀ v, blind (on_message v)) →
  (∀ v s, ∃ s', on_message v s = (Ok tt, s')) →
  rx_buffer_ (client s) = [129; 127; 255; 255; 255; 255; 255; 255; 255; 246]%Z →
  (frame_loop on_message on_trace fuel s).1 = Stop Fuel.
Proof.
  intros Htr Hmsg Hok. revert s. induction fuel as [|fuel IH]; intros s Hrx;
    pose (fr := WebSocketFrame.MkFrame (WebSocketFrame.Header true WebSocketFrame.kText (2 ^ 64 - 10) 10)
      (SV [] 0) 0);
    assert (WebSocketFrame.DecodeFrame (sv_of (rx_buffer_ (client s))) = Ok (Some fr)) as Hdec
      by (rewrite Hrx; vm_compute; reflexivity).
  { cbn [frame_loop]. rewrite (bindM_Ok _ _ _ _ _ (read_eq rx_buffer_ s)).
    unfold mbind, M_bind, lift. by rewrite Hdec. }
  rewrite (frame_loop_step on_message on_trace Htr Hmsg fuel s fr Hdec).
  pose proof (blind_keeps _ s (blind_HandleFrame on_message on_trace Htr Hmsg fr)) as Hk.
  assert (∃ s1, HandleFrame on_message on_trace fr s = (Ok tt, s1)) as [s1 H1].
  { unfold HandleFrame. rewrite (bindM_Ok _ _ _ None s) by reflexivity. cbn [fr].
    change (if _ || _ then _ else _) with (DispatchMessage on_message (SV [] 0)).
    by apply Dispatch_ok. }
  rewrite H1 in Hk |- *. apply IH. cbn [put_rx client rx_buffer_ set_rx]. exact Hrx.
Qed.

Lemma read_loop_diverges_witness :
  let world := sample_world 0 [] in
  let c := set_rx [129; 127; 255; 255; 255; 255; 255; 255; 255; 246]%Z sample_client in
  (frame_loop (App := list (list Z)) keep_message no_trace 100 (MkSt c [] tt [])).1 = Stop Fuel.
Proof.
  intros world c.
  exact (@read_loop_diverges _ unit world keep_message no_trace 100 (MkSt c [] tt [])
    blind_no_trace blind_keep (λ v s, ex_intro _ _ eq_refl) eq_refl).
Defined.
