(* ===== verification/Connection.v ===== *)
(** * A connection is secured before it is used

    The WebSocket client connects through the TLS transport and then makes the
    HTTP upgrade.  A world that logs the calls on the TLS stream shows that no
    byte is written or read before the server's name and certificate have been
    set up for verification and the TLS handshake has succeeded. *)

From S2P Require Import Prelude Json Rules Perf WebSocketFrame World Transport Handshake WsClient.

(** ** Logging the calls on the stream *)
Inductive TlsCall :=
  | Resolve (host port : list Z) | ConnectSocket (endpoints : list (list Z))
  | SetOption (o : TlsOption) | SetSni (host : list Z) | TlsHandshake
  | StreamWrite (data : list Z) | StreamRead (size : nat).
(** A call is made; it succeeds. *)
Inductive TlsEvent := Try (c : TlsCall) | Succeed (c : TlsCall).

Definition logged {W A} (c : TlsCall) (ok : A → bool) (f : W → A * W) (w : W * list TlsEvent)
    : A * (W * list TlsEvent) :=
  let '(a, w') := f w.1 in (a, (w', w.2 ++ Try c :: if ok a then [Succeed c] else [])).
Definition is_inr {A B} (x : A + B) : bool := match x with inl _ => false | inr _ => true end.

Definition tapping {W} (wo : World W) : World (W * list TlsEvent) := {|
  steady_clock_now := on_fst steady_clock_now; system_clock_now := on_fst system_clock_now;
  ReadCounter := on_fst ReadCounter; RAND_bytes := λ n, on_fst (RAND_bytes n);
  uniform_int := λ a b, on_fst (uniform_int a b);
  resolver_resolve := λ h p, logged (Resolve h p) is_inr (resolver_resolve h p);
  socket_connect := λ e, logged (ConnectSocket e) is_inr (socket_connect e);
  stream_set := λ o, logged (SetOption o) is_inr (stream_set o);
  SSL_set_tlsext_host_name := λ h, logged (SetSni h) id (SSL_set_tlsext_host_name h);
  stream_handshake := logged TlsHandshake is_inr stream_handshake;
  stream_write := λ d, logged (StreamWrite d) is_inr (stream_write d);
  stream_read_some := λ n, logged (StreamRead n) is_inr (stream_read_some n);
  curl_easy_perform := λ o, on_fst (curl_easy_perform o);
  EVP_MAC_fetch := EVP_MAC_fetch; EVP_MAC_CTX_new := EVP_MAC_CTX_new;
  EVP_MAC_hmac_sha256 := EVP_MAC_hmac_sha256; EVP_sha1 := EVP_sha1;
  EVP_EncodeBlock := EVP_EncodeBlock |}.

(** The calls that secure a connection to [host], each of which succeeds. *)
Definition secured (host port : list Z) (endpoints : list (list Z)) : list TlsEvent :=
  concat ((λ c, [Try c; Succeed c]) <$>
    [SetOption DefaultVerifyPaths; Resolve host port; ConnectSocket endpoints; SetOption NoDelay;
     SetSni host; SetOption VerifyPeer; SetOption (HostNameVerification host); TlsHandshake]).
Definition carries_data (e : TlsEvent) : bool :=
  match e with Try (StreamWrite _) | Try (StreamRead _) => true | _ => false end.

(** ** The set-up *)
Section setup.
Context {W : Type} (wo : World W).
#[local] Existing Instance tapping.
Notation tls_log := (snd : W * list TlsEvent → list TlsEvent).

Lemma logged_eq {A} c (f : W → A * W) ok w :
  logged c ok f w = ((f w.1).1, ((f w.1).2, w.2 ++ Try c :: if ok (f w.1).1 then [Succeed c] else [])).
Proof. unfold logged. by destruct (f w.1). Qed.

(** The next call is made; the set-up ends after [n] entries. *)
Ltac next_call := cbn [fst snd is_inr id negb]; rewrite logged_eq; cbn [fst snd].
Ltac ends_after eps n :=
  cbn [fst snd is_inr id negb]; exists eps; eexists;
  (split; [rewrite <-?app_assoc; reflexivity|]); first [done | by exists n].
Lemma setup_makes host port s :
  let '(r, s') := (_ ← Transport.make; Transport.Connect host port) s in
  ∃ endpoints new, tls_log s' = tls_log s ++ new ∧
    match r with
    | Ok _ => new = secured host port endpoints
    | Stop _ => ∃ n, new = take n (secured host port endpoints)
    end.
Proof.
  destruct s as [w0 l0].
  unfold Transport.make, Transport.Connect, ask_or_throw, ask, mbind, M_bind.
  cbn [resolver_resolve socket_connect stream_set SSL_set_tlsext_host_name stream_handshake tapping].
  next_call; destruct (stream_set DefaultVerifyPaths w0) as [[e|[]] w1]; [ends_after (@nil (list Z)) 1|].
  next_call; destruct (resolver_resolve host port w1) as [[e|eps] w2]; [ends_after (@nil (list Z)) 3|].
  next_call; destruct (socket_connect eps w2) as [[e|[]] w3]; [ends_after eps 5|].
  next_call; destruct (stream_set NoDelay w3) as [[e|[]] w4]; [ends_after eps 7|].
  next_call; destruct (SSL_set_tlsext_host_name host w4) as [[|] w5]; [|ends_after eps 9].
  next_call; destruct (stream_set VerifyPeer w5) as [[e|[]] w6]; [ends_after eps 11|].
  next_call; destruct (stream_set (HostNameVerification host) w6) as [[e|[]] w7]; [ends_after eps 13|].
  next_call; destruct (stream_handshake w7) as [[e|[]] w8]; ends_after eps 15.
Qed.
End setup.

(** ** What happens afterwards only adds to the log *)
Section growth.
Context {App W : Type} (wo : World W).
#[local] Existing Instance tapping.
Notation S := (OkxWsClient.St App (W * list TlsEvent)).
Definition grown (l : list TlsEvent) (w : W * list TlsEvent) : Prop := l `prefix_of` w.2.
Definition grows (l : list TlsEvent) (s : S) : Prop := grown l (OkxWsClient.world s).

Lemma grown_ask {A} l (f : W → A * W) : upholds (grown l) any (ask (on_fst f)).
Proof. intros w Hw. unfold ask, on_fst. by destruct (f w.1). Qed.
Lemma grown_call {A} l c (f : W → (list Z + A) * W) :
  upholds (grown l) any (ask_or_throw (logged c is_inr f)).
Proof.
  intros w Hw. unfold ask_or_throw. rewrite logged_eq. cbn [fst snd].
  destruct (f w.1) as [[e|a] w']; [split; [|done]|]; by apply prefix_app_r.
Qed.
#[local] Hint Resolve grown_ask grown_call : parts.
#[local] Hint Extern 1 (upholds _ _ (Transport.ReadSome _)) => apply grown_call : parts.
#[local] Hint Extern 1 (upholds _ _ (Transport.Write _)) => apply grown_call : parts.
Lemma grown_response l fuel r : upholds (grown l) any (ReadHandshakeResponse fuel r).
Proof. revert r. induction fuel as [|fuel IH]; intros r; cbn [ReadHandshakeResponse]; uphold. Qed.
#[local] Hint Resolve grown_response : parts.
Lemma grown_handshake l fuel host path headers :
  upholds (grown l) any (PerformWebSocketHandshake fuel host path headers).
Proof.
  unfold PerformWebSocketHandshake, GenerateWebSocketKey. uphold. apply (grown_ask l (RAND_bytes 16)).
Qed.
Lemma grown_sign l a : upholds (grown l) any (SignWsLogin a).
Proof.
  unfold SignWsLogin, UnixTimestampSecondsNow. uphold. apply (grown_ask l system_clock_now).
Qed.
#[local] Hint Resolve grown_sign : parts.
Lemma grown_login l a : upholds (grown l) any (BuildPrivateWsLoginMessage a).
Proof. unfold BuildPrivateWsLoginMessage. uphold. Qed.
Lemma grown_sbe_login l a : upholds (grown l) any (SbeWsLoginHeaders a).
Proof. unfold SbeWsLoginHeaders. uphold. Qed.
#[local] Hint Resolve grown_handshake grown_login grown_sbe_login : parts.

Lemma grows_world {A} l (m : M (W * list TlsEvent) A) :
  upholds (grown l) any m → upholds (grows l) any (OkxWsClient.on_world (App:=App) m).
Proof. intros Hm. apply upholds_zoom. intros s Hs. exact (upholds_state _ _ _ Hm Hs). Qed.
Lemma grows_ask {A} l (f : W → A * W) :
  upholds (grows l) any (OkxWsClient.on_world (App:=App) (ask (on_fst f))).
Proof. apply grows_world, grown_ask. Qed.
Lemma grows_client {A} l (m : M OkxWsClient.t A) :
  upholds (grows l) any (OkxWsClient.on_client (App:=App) m).
Proof. by apply upholds_zoom. Qed.
Lemma grows_update l f : upholds (grows l) any (OkxWsClient.update (App:=App) f).
Proof. apply grows_client. Qed.
Lemma grows_read {A} l (f : OkxWsClient.t → A) : upholds (grows l) any (OkxWsClient.read f).
Proof. by intros s Hs. Qed.
Lemma grows_emit l e : upholds (grows l) any (OkxWsClient.emit e).
Proof. by intros s Hs. Qed.
#[local] Hint Resolve grows_world grows_client grows_update grows_read grows_emit : parts.

Context (on_connected : M S unit) (on_trace : TickToTradeTrace → M S unit).
Context (Hconnected : ∀ l, upholds (grows l) any on_connected).
Context (Htrace : ∀ l t, upholds (grows l) any (on_trace t)).

Lemma grows_resolve l n ts : upholds (grows l) any (OkxWsClient.resolve_traces on_trace n ts).
Proof. induction ts; cbn [OkxWsClient.resolve_traces]; uphold. Qed.
#[local] Hint Resolve grows_resolve : parts.
Lemma grows_start_write l : upholds (grows l) any (OkxWsClient.StartWrite on_trace).
Proof. unfold OkxWsClient.StartWrite. uphold. apply (grows_ask l ReadCounter). Qed.
#[local] Hint Resolve grows_start_write : parts.
Lemma grows_send l p t : upholds (grows l) any (OkxWsClient.Send on_trace p t).
Proof.
  unfold OkxWsClient.Send, OkxWsClient.with_mask, OkxWsClient.WriteRaw. uphold.
  apply (grows_ask l (RAND_bytes 4)).
Qed.
#[local] Hint Resolve grows_send : parts.

(** What follows the set-up in [Connect]. *)
Definition after_setup (c : OkxWsClient.t) (fuel : nat) : M S unit :=
  handshake_headers ← match OkxWsClient.kind_ c, OkxWsClient.auth_ c with
    | kSbe, Some auth => OkxWsClient.on_world (SbeWsLoginHeaders auth)
    | _, _ => mret []
    end;
  _ ← OkxWsClient.on_world (PerformWebSocketHandshake fuel (OkxWsClient.host_ c)
        (OkxWsClient.path_ c) handshake_headers);
  _ ← OkxWsClient.update (OkxWsClient.set_attempt 0%Z);
  _ ← OkxWsClient.update (OkxWsClient.set_rx []);
  _ ← OkxWsClient.update (OkxWsClient.set_authenticated false);
  _ ← match OkxWsClient.kind_ c, OkxWsClient.auth_ c with
    | kSbe, _ => OkxWsClient.update (OkxWsClient.set_authenticated true)
    | kJson, Some _ => OkxWsClient.SendLogin on_trace
    | kJson, None => mret tt
    end;
  _ ← on_connected;
  _ ← OkxWsClient.ScheduleHeartbeat;
  OkxWsClient.ReadLoop.
Lemma grows_after l c fuel : upholds (grows l) any (after_setup c fuel).
Proof.
  unfold after_setup, OkxWsClient.SendLogin, OkxWsClient.ScheduleHeartbeat, OkxWsClient.ReadLoop.
  uphold.
Qed.
Lemma reconnect_silent (s : S) :
  (OkxWsClient.world (OkxWsClient.ScheduleReconnect s).2).2 = (OkxWsClient.world s).2.
Proof.
  destruct s as [c a [w l] ef]. unfold OkxWsClient.ScheduleReconnect, OkxWsClient.ComputeBackoff,
    OkxWsClient.update, OkxWsClient.on_client, OkxWsClient.on_world, OkxWsClient.emit,
    OkxWsClient.read, zoom, modify, mbind, M_bind, get.
  cbn [mret M_ret OkxWsClient.client OkxWsClient.world uniform_int tapping].
  unfold ask, on_fst. cbn [fst snd]. destruct (uniform_int _ _ w). by case_decide.
Qed.

Lemma bind_eq {T A B} (m : M T A) (k : A → M T B) s :
  (m ≫= k) s = match m s with (Ok a, s') => k a s' | (Stop x, s') => (Stop x, s') end.
Proof. done. Qed.
(** [Connect], with the set-up of the transport taken together. *)
Lemma Connect_setup fuel (s : S) :
  ∃ up : bool, OkxWsClient.Connect on_connected on_trace fuel s =
  OkxWsClient.try_catch (λ s,
    let '(r, w') := (_ ← Transport.make; Transport.Connect (OkxWsClient.host_ (OkxWsClient.client s))
      (OkxWsClient.port_ (OkxWsClient.client s))) (OkxWsClient.world s) in
    let s' := OkxWsClient.MkSt
      (if up then OkxWsClient.set_transport true (OkxWsClient.client s) else OkxWsClient.client s)
      (OkxWsClient.app s) w' (OkxWsClient.effects s) in
    match r with
    | Ok _ => after_setup (OkxWsClient.client s) fuel s'
    | Stop x => (Stop x, s')
    end) OkxWsClient.ScheduleReconnect s.
Proof.
  destruct s as [c a w ef].
  exists (match Transport.make w with (Ok _, _) => true | _ => false end).
  unfold OkxWsClient.Connect, OkxWsClient.try_catch.
  cbn [OkxWsClient.client OkxWsClient.world OkxWsClient.app OkxWsClient.effects].
  rewrite (bind_eq Transport.make). rewrite bind_eq, OkxWsClient.read_eq, bind_eq.
  unfold OkxWsClient.on_world at 1, zoom at 1. cbn [OkxWsClient.client OkxWsClient.world id].
  destruct (Transport.make w) as [[[]|x] w1]; [|done].
  rewrite bind_eq, OkxWsClient.update_eq, bind_eq.
  unfold OkxWsClient.on_world at 1, zoom at 1.
  cbn [OkxWsClient.client OkxWsClient.world OkxWsClient.app OkxWsClient.effects].
  destruct (Transport.Connect _ _ w1) as [[[]|x] w2]; done.
Qed.
End growth.

Lemma secured_quiet host port eps i e :
  secured host port eps !! i = Some e → carries_data e = false.
Proof.
  intros Hi. assert (Forall (λ e, carries_data e = false) (secured host port eps)) as Hall
    by repeat constructor.
  rewrite Forall_lookup in Hall. by apply (Hall i).
Qed.

(** ** The property *)

(** C22. Whatever [Connect] of the WebSocket client does, and however the
    network and the TLS library behave: before the first byte is written to
    or read from the stream, the trusted roots have been loaded, the
    configured host has been resolved and connected to, the server name
    indication and the verification of the certificate against this very host
    have been set, and the TLS handshake has succeeded. *)
Theorem connection_secured {App W} (wo : World W) on_connected on_trace fuel
    (s : OkxWsClient.St App (W * list TlsEvent)) :
  (∀ l, upholds (grows l) any on_connected) → (∀ l t, upholds (grows l) any (on_trace t)) →
  let c := OkxWsClient.client s in
  let s' := (@OkxWsClient.Connect _ _ (tapping wo) on_connected on_trace fuel s).2 in
  ∃ new, (OkxWsClient.world s').2 = (OkxWsClient.world s).2 ++ new ∧
    ∀ i e, new !! i = Some e → carries_data e = true →
      ∃ endpoints, secured (OkxWsClient.host_ c) (OkxWsClient.port_ c) endpoints `prefix_of` take i new.
Proof.
  intros Hc Ht c s'. subst s'.
  destruct (Connect_setup wo on_connected on_trace fuel s) as [up ->].
  unfold OkxWsClient.try_catch.
  pose proof (setup_makes wo (OkxWsClient.host_ c) (OkxWsClient.port_ c) (OkxWsClient.world s)) as Hsetup.
  fold c. destruct ((_ ← Transport.make; Transport.Connect _ _) (OkxWsClient.world s)) as [r w'].
  destruct Hsetup as (eps & new & Hl & Hr). destruct r as [[]|x].
  - subst new. set (s1 := OkxWsClient.MkSt _ _ w' _).
    assert (grows w'.2 (after_setup wo on_connected on_trace c fuel s1).2) as Hgrow.
    { apply (upholds_state _ _ s1 (grows_after wo on_connected on_trace Hc Ht w'.2 c fuel)).
      exists []. by rewrite app_nil_r. }
    assert (∃ rest, (OkxWsClient.world (match after_setup wo on_connected on_trace c fuel s1 with
      | (Stop (Exn _), s') => @OkxWsClient.ScheduleReconnect _ _ (tapping wo) s' | r => r end).2).2 =
      (w'.2 ++ rest)) as [rest Hrest].
    { destruct (after_setup wo on_connected on_trace c fuel s1) as [r2 s2]. destruct Hgrow as [rest Hr].
      exists rest. rewrite <-Hr. destruct r2 as [|[]]; [done| |done|done]. apply reconnect_silent. }
    exists (secured (OkxWsClient.host_ c) (OkxWsClient.port_ c) eps ++ rest). split.
    { rewrite app_assoc, <-Hl. exact Hrest. }
    intros i e Hi He. exists eps.
    destruct (decide (i < length (secured (OkxWsClient.host_ c) (OkxWsClient.port_ c) eps))) as [Hlt|Hge].
    + rewrite lookup_app_l in Hi by done. apply secured_quiet in Hi. congruence.
    + rewrite take_app_ge by lia. by apply prefix_app_r.
  - destruct Hr as [n ->]. eexists (take n _). split.
    { destruct x as [e| |]; cbn [snd]; [rewrite reconnect_silent|..]; exact Hl. }
    intros i e Hi He. rewrite lookup_take in Hi. case_decide; [|done].
    apply secured_quiet in Hi. congruence.
Qed.

(** The private connection of a client that logs in. *)
Definition sample_tls_client : OkxWsClient.t :=
  OkxWsClient.make (str "ws.okx.com") (str "8443") (str "/ws/v5/private")
    (Some (MkAuth (str "k") (str "s") (str "p"))) kJson.
Lemma connection_secured_witness :
  ∃ new, (OkxWsClient.world (@OkxWsClient.Connect _ _ (tapping (sample_world 5000000000 kHeaderTerminator))
      (mret tt) (λ _, mret tt) 5 (OkxWsClient.MkSt sample_tls_client tt (tt, []) [])).2).2 = [] ++ new ∧
    ∃ i data, new !! i = Some (Try (StreamWrite data)) ∧
      ∃ eps, secured (str "ws.okx.com") (str "8443") eps `prefix_of` take i new.
Proof.
  destruct (connection_secured (sample_world 5000000000 kHeaderTerminator) (mret tt) (λ _, mret tt) 5
    (OkxWsClient.MkSt sample_tls_client tt (tt, []) [])) as (new & Hnew & H);
    [intros l; apply upholds_ret|intros l t; apply upholds_ret|].
  exists new. split; [exact Hnew|]. vm_compute in Hnew. subst new. eexists 16, _.
  split; [vm_compute; reflexivity|]. eapply H; [vm_compute; reflexivity|reflexivity].
Defined.
