(* ===== verification/ClientSafety.v ===== *)
(** * The WebSocket client stays within its buffers

    The client keeps a transmit ring, a receive buffer and a buffer for
    fragments.  Whatever the network sends and whatever the handlers do, its
    operations access them only within their bounds, as long as a write is
    reported as complete for no more bytes than it was started with.  The
    handlers' own state is followed by a predicate [J]. *)

From S2P Require Import Prelude RingBuffer WebSocketFrame Json Rules Perf World Transport Handshake WsClient.

(** ** The outside world *)
Section world.
Context {W : Type} `{!World W}.
Notation T := (λ _ : W, True).

Lemma clean_ask {A} (f : W → A * W) : clean T (ask f).
Proof. intros w _. unfold ask. by destruct (f w). Qed.
Lemma clean_ask_or_throw {A} (f : W → (list Z + A) * W) : clean T (ask_or_throw f).
Proof. intros w _. unfold ask_or_throw. by destruct (f w) as [[] ?]. Qed.
#[local] Hint Resolve clean_ask clean_ask_or_throw : spare.

Lemma clean_hmac prehash secret : defined (HmacSha256Base64 prehash secret).
Proof. apply defined_fmap. unfold HmacSha256. definite. Qed.
Lemma clean_sign auth method path body : clean T (SignHeaders auth method path body).
Proof. unfold SignHeaders, IsoTimestampNow. spare. apply spares_lift, clean_hmac. Qed.
Lemma clean_sign_login auth : clean T (SignWsLogin auth).
Proof. unfold SignWsLogin, UnixTimestampSecondsNow. spare. apply spares_lift, clean_hmac. Qed.
#[local] Hint Resolve clean_sign_login : spare.
Lemma clean_login auth : clean T (BuildPrivateWsLoginMessage auth).
Proof. unfold BuildPrivateWsLoginMessage. spare. Qed.
Lemma clean_sbe_login auth : clean T (SbeWsLoginHeaders auth).
Proof. unfold SbeWsLoginHeaders. spare. Qed.

Lemma clean_transport : clean T Transport.make.
Proof. apply clean_ask_or_throw. Qed.
Lemma clean_transport_connect host port : clean T (Transport.Connect host port).
Proof. unfold Transport.Connect. spare. Qed.
Lemma clean_response fuel r : clean T (ReadHandshakeResponse fuel r).
Proof.
  revert r. induction fuel as [|fuel IH]; intros r; cbn [ReadHandshakeResponse]; spare.
  apply spares_lift, defined_fuel.
Qed.
#[local] Hint Resolve clean_response : spare.
Lemma check_defined key response : defined (CheckResponse key response).
Proof.
  unfold CheckResponse. case_match; [done|]. apply defined_bind.
  - unfold FindHeader. generalize 0%Z as pos. induction (S (length response)) as [|fuel IH]; intros pos;
      cbn [FindHeader_loop]; [definite|]. repeat case_match; try done; apply IH.
  - intros [accept|]; [|done]. apply defined_bind; [|intros; definite].
    apply defined_fmap. unfold Sha1. definite.
Qed.
Lemma clean_handshake fuel host path headers : clean T (PerformWebSocketHandshake fuel host path headers).
Proof. unfold PerformWebSocketHandshake, GenerateWebSocketKey. spare.
  apply spares_lift, check_defined.
Qed.
End world.

(** ** The client *)
Import OkxWsClient.

(** The write that is under way after an effect: a reconnection, the only
    operation that cancels the heartbeat, closes the stream. *)
Definition await (o : option nat) (e : effect) : option nat :=
  match e with AsyncWrite n => Some n | CancelHeartbeat => None | _ => o end.
Definition sound_client (c : t) : Prop :=
  RingBuffer.wf kTxRingCapacity (tx_ring_ c) ∧ Reassembler.wf kMaxMessageSize (reassembler_ c) ∧
  Forall is_byte (rx_buffer_ c).

Lemma sound_make host port path auth kind : sound_client (make host port path auth kind).
Proof.
  split; [apply RingBuffer.ring_wf_empty, tx_capacity_pos|]. split; [|constructor].
  split; cbn; [apply length_replicate|lia].
Qed.

Section client.
Context {App W : Type} `{!World W} (J E : App → Prop) (o : option nat) (k : nat).
Notation S := (St App W).
(** The buffers are well formed and the write under way, which was [o] when
    [k] effects had been asked for, lies in the ring. *)
Definition sound (s : S) : Prop :=
  sound_client (client s) ∧ J (app s) ∧ k ≤ length (effects s) ∧
  ∀ n, foldl await o (drop k (effects s)) = Some n → n ≤ RingBuffer.Size (tx_ring_ (client s)).
(** Undefined behaviour is left where [E] allows it, and where the number of
    consecutive reconnections overflows. *)
Definition bad (s : S) : Prop := E (app s) ∨ reconnect_attempt_ (client s) = kIntMax.
Notation safe := (spares sound bad).

(** *** Parts *)
Lemma safe_read {A} (f : t → A) : safe (read f).
Proof. by intros s Hs. Qed.
Lemma returns_read {A} (f : t → A) (P : A → Prop) :
  (∀ c, sound_client c → P (f c)) → returns sound (read f) P.
Proof. intros Hf s a s' [Hc _] [= <- _]. by apply Hf. Qed.
Lemma safe_world {A} (m : M W A) : clean (λ _, True) m → safe (on_world m).
Proof. apply spares_zoom; [done|by intros ?|done]. Qed.
Lemma safe_ask {A} (f : W → A * W) : safe (on_world (ask f)).
Proof. apply safe_world, clean_ask. Qed.
Lemma safe_client {A} (m : M t A) :
  (∀ c, sound_client c →
     match m c with (Stop UB, _) => False | (_, c') =>
       sound_client c' ∧ RingBuffer.Size (tx_ring_ c) ≤ RingBuffer.Size (tx_ring_ c') end) →
  safe (on_client m).
Proof.
  intros Hm s (Hc & Ha & Hk & Hn). specialize (Hm (client s) Hc). unfold on_client, zoom.
  assert (∀ c', sound_client c' → RingBuffer.Size (tx_ring_ (client s)) ≤ RingBuffer.Size (tx_ring_ c') →
    sound (MkSt c' (app s) (world s) (effects s))) as Hs.
  { intros c' Hc' Hle. split; [done|]. split; [done|]. split; [done|]. intros n Hf.
    etrans; [by apply Hn|done]. }
  destruct (m (client s)) as [[a|x] c'].
  - by apply Hs; apply Hm.
  - destruct x; [|done|]; (split; [by apply Hs; apply Hm|done]).
Qed.
Lemma safe_update f :
  (∀ c, sound_client c → sound_client (f c)) → (∀ c, tx_ring_ (f c) = tx_ring_ c) → safe (update f).
Proof. intros Hf Hr. apply safe_client. intros c Hc. cbn. rewrite Hr. by split; [apply Hf|]. Qed.
Lemma safe_emit e : match e with AsyncWrite _ => False | _ => True end → safe (emit e).
Proof.
  intros He s (Hc & Ha & Hk & Hn). split; [done|]. split; [done|]. cbn [effects client].
  split; [rewrite length_app; lia|]. intros n. rewrite drop_app_le, foldl_app by done. cbn [foldl].
  destruct e; try done; apply Hn.
Qed.
(** A write of what lies in front of the ring. *)
Lemma safe_emit_write :
  safe (ring ← read tx_ring_;
        emit (AsyncWrite (length (RingBuffer.ContiguousReadableRegion kTxRingCapacity ring)))).
Proof.
  intros s (Hc & Ha & Hk & Hn). split; [done|]. split; [done|]. cbn [effects client].
  split; [rewrite length_app; lia|]. intros n. rewrite drop_app_le, foldl_app by done.
  cbn [foldl await]. intros [= <-]. rewrite RingBuffer.length_readable by apply Hc.
  unfold RingBuffer.Size. lia.
Qed.
(** The stream is closed, then the ring is emptied. *)
Lemma safe_reset (m : M S unit) :
  safe m → safe (_ ← emit CancelHeartbeat; _ ← update (λ c, set_ring (RingBuffer.Reset (tx_ring_ c)) c); m).
Proof.
  intros Hm s ((Hr & Hra & Hb) & Ha & Hk & Hn). apply Hm. cbn [app].
  split; [|split; [done|]].
  - split; [by apply RingBuffer.wf_Reset|by split].
  - cbn [effects client]. split; [rewrite length_app; lia|].
    intros n. by rewrite drop_app_le, foldl_app by done.
Qed.
Lemma safe_mask {A} (f : option (list Z) → result A) :
  (∀ rand, defined (f rand)) → safe (with_mask f).
Proof.
  intros Hf. apply spares_bind; [apply safe_ask|]. intros rand. by apply spares_lift.
Qed.
Lemma encode_defined rand op payload : defined (WebSocketFrame.EncodeFrame rand op payload).
Proof. unfold WebSocketFrame.EncodeFrame, WebSocketFrame.GenerateMaskingKey. by destruct rand. Qed.
Lemma control_defined rand frame : defined (WebSocketFrame.BuildControlResponse rand frame).
Proof.
  unfold WebSocketFrame.BuildControlResponse.
  destruct (WebSocketFrame.opcode _); try done; apply defined_bind; (apply encode_defined || done).
Qed.
#[local] Hint Resolve safe_read safe_world safe_ask : spare.
#[local] Hint Extern 1 (spares _ _ (update _)) => (apply safe_update; [by intros ? (? & ? & ?)|done]) : spare.
#[local] Hint Extern 1 (spares _ _ (emit _)) => (apply safe_emit; exact Logic.I) : spare.

(** *** Operations *)
Context (on_message : string_view → M S unit) (on_trace : TickToTradeTrace → M S unit).
Context (Hmessage : ∀ m, safe (on_message m)) (Htrace : ∀ tr, safe (on_trace tr)).

Lemma safe_resolve n l : safe (resolve_traces on_trace n l).
Proof using Htrace. induction l; cbn [resolve_traces]; spare. Qed.
#[local] Hint Resolve safe_resolve : spare.
Lemma safe_start_write : safe (StartWrite on_trace).
Proof using Htrace.
  unfold StartWrite. do 3 (apply spares_bind; [spare|intros ?]; try (case_match; [spare|])).
  do 2 (apply spares_bind; [spare|intros _]). apply safe_emit_write.
Qed.
#[local] Hint Resolve safe_start_write : spare.
Lemma safe_ring_write frame :
  safe (on_client (λ c, match RingBuffer.Write kTxRingCapacity frame (tx_ring_ c) with
                        | Ok r => (Ok tt, set_ring r c) | Stop x => (Stop x, c) end)).
Proof.
  apply safe_client. intros c Hc. pose proof Hc as (Hr & Hra & Hb).
  destruct (decide (RingBuffer.size_ (tx_ring_ c) + length frame ≤ kTxRingCapacity)) as [Hfit|Hbig].
  - destruct (RingBuffer.Write_spec _ _ frame Hr Hfit) as (r & -> & Hr' & Hsz & _).
    split; [by split|]. unfold RingBuffer.Size. cbn. lia.
  - rewrite RingBuffer.Write_overflow by (done || lia). by cbn.
Qed.
#[local] Hint Resolve safe_ring_write : spare.
Lemma safe_write_raw frame tr : safe (WriteRaw on_trace frame tr).
Proof using Htrace. unfold WriteRaw. spare. Qed.
#[local] Hint Resolve safe_write_raw : spare.
Lemma safe_send payload tr : safe (Send on_trace payload tr).
Proof using Htrace. unfold Send. spare. apply safe_mask. intros. apply encode_defined. Qed.
#[local] Hint Resolve safe_send : spare.
Lemma safe_begin_batch : safe BeginBatch.
Proof. unfold BeginBatch. spare. Qed.
Lemma safe_end_batch : safe (EndBatch on_trace).
Proof using Htrace. unfold EndBatch. spare. Qed.
Lemma safe_count :
  safe (attempt ← read reconnect_attempt_; d ← ComputeBackoff attempt;
        _ ← (if decide (attempt = kIntMax) then lift (Stop UB) else update (set_attempt (attempt + 1)%Z));
        emit (ReconnectTimer d)).
Proof.
  intros s Hs. rewrite (bindM_Ok _ _ _ _ _ (read_eq reconnect_attempt_ s)).
  remember (reconnect_attempt_ (client s)) as a eqn:Ha. destruct (decide (a = kIntMax)) as [Hmax|Hmax].
  2:{ clear Ha. revert s Hs. unfold ComputeBackoff. apply spares_bind; spare. }
  unfold ComputeBackoff, on_world, ask, zoom, mbind, M_bind, lift. destruct (uniform_int _ _ _) as [d w].
  split; [exact Hs|]. intros _. right. exact (eq_trans (eq_sym Ha) Hmax).
Qed.
Lemma safe_reconnect : safe ScheduleReconnect.
Proof.
  unfold ScheduleReconnect. do 2 (apply spares_bind; [spare|intros _]). apply safe_reset.
  apply spares_bind; [spare|intros _]. apply safe_count.
Qed.
#[local] Hint Resolve safe_reconnect : spare.
Lemma safe_heartbeat : safe (OnHeartbeat on_trace).
Proof using Htrace.
  unfold OnHeartbeat, ScheduleHeartbeat. spare. apply safe_mask. intros. apply encode_defined.
Qed.
Lemma safe_dispatch m : safe (DispatchMessage on_message m).
Proof using Hmessage. unfold DispatchMessage. spare. Qed.
#[local] Hint Resolve safe_dispatch : spare.
Lemma safe_fragment p fin : safe (append_fragment p fin).
Proof.
  apply safe_client. intros c Hc. pose proof Hc as (Hr & Hra & Hb).
  destruct (Reassembler.Append_spec kMaxMessageSize p fin _ Hra) as [(_ & r & -> & Hr' & _)|[_ ->]]; by cbn.
Qed.
#[local] Hint Resolve safe_fragment : spare.
Lemma safe_control frame : safe (control_response frame).
Proof.
  unfold control_response. destruct (WebSocketFrame.opcode _);
    first [apply safe_mask; intros; apply control_defined | apply spares_lift, control_defined].
Qed.
#[local] Hint Resolve safe_control : spare.
Lemma safe_frame frame : safe (HandleFrame on_message on_trace frame).
Proof using Hmessage Htrace.
  unfold HandleFrame. cbv zeta. spare. apply safe_update; [|done].
  intros c (Hr & [Hl Hs] & Hb). split; [done|]. split; [|done]. split; cbn; [done|lia].
Qed.
#[local] Hint Resolve safe_frame : spare.
Lemma decode_defined rx : Forall is_byte rx → defined (WebSocketFrame.DecodeFrame (sv_of rx)).
Proof.
  intros Hb. unfold WebSocketFrame.DecodeFrame. apply defined_bind; [|intros; definite].
  destruct (WebSocketFrame.DecodeFrameHeader_safe (sv_of rx)) as [(e & _ & ->)|[->|(h & -> & _)]];
    [apply sv_wf_of|by rewrite sv_text_of|done..].
Qed.
Lemma safe_frame_loop fuel : safe (frame_loop on_message on_trace fuel).
Proof using Hmessage Htrace.
  induction fuel as [|fuel IH]; cbn [frame_loop];
    (apply (spares_bind_post _ _ (Forall is_byte)); [spare|apply returns_read; by intros c (_ & _ & ?)|]);
    intros rx Hrx; (apply spares_bind; [by apply spares_lift, decode_defined|]); intros [frame|]; spare.
  - apply spares_lift, defined_fuel.
  - apply safe_update; [|done]. intros c (Hr & Hra & Hb). split; [done|]. split; [done|]. by apply Forall_drop.
Qed.
#[local] Hint Resolve safe_frame_loop : spare.
Lemma safe_on_read chunk :
  match chunk with Some bs => Forall is_byte bs | None => True end → safe (OnRead on_message on_trace chunk).
Proof using Hmessage Htrace.
  intros Hchunk. unfold OnRead, ReadLoop. spare. apply safe_update; [|done].
  intros c (Hr & Hra & Hb). split; [done|]. split; [done|]. by apply Forall_app.
Qed.
Lemma safe_try m h : safe m → safe h → safe (try_catch m h).
Proof.
  intros Hm Hh s Hs. unfold try_catch. specialize (Hm s Hs). destruct (m s) as [[|[]] s']; [done| |done|done].
  by apply Hh, Hm.
Qed.
Lemma safe_connect fuel : safe (Connect (mret tt) on_trace fuel).
Proof using Htrace.
  unfold Connect, SendLogin, ScheduleHeartbeat, ReadLoop. apply safe_try; [|spare]. spare; try apply safe_world;
    first [apply clean_transport | apply clean_transport_connect | apply clean_sbe_login
          | apply clean_handshake | apply clean_login].
Qed.
End client.

(** A write is complete: the ring had its bytes. *)
Lemma safe_on_write {App W} `{!World W} (J E : App → Prop) on_trace (s : St App W) o k n :
  (∀ tr, spares (sound J None (length (effects s))) (bad E) (on_trace tr)) →
  sound J o k s → foldl await o (drop k (effects s)) = Some n →
  match OnWrite on_trace (Some n) s with
  | (Ok _, s') => sound J None (length (effects s)) s'
  | (Stop x, s') => sound J None (length (effects s)) s' ∧ (x = UB → bad E s')
  end.
Proof.
  intros Htrace ((Hr & Hra & Hb) & Ha & Hk & Hn) Hw. specialize (Hn n Hw). unfold OnWrite.
  rewrite (bindM_Ok _ _ _ _ _ (update_eq _ s)). rewrite (bindM_Ok _ _ _ _ _ (read_eq tx_ring_ _)).
  set (s1 := MkSt _ _ _ _).
  assert (sound J None (length (effects s)) s1) as Hs1.
  { split; [|split; [done|]]; cbn [client effects s1].
    - split; [|by split]. by apply RingBuffer.CommitRead_spec.
    - split; [done|]. intros m. by rewrite drop_all. }
  destruct (0 <? _); [by apply safe_start_write|]. by apply safe_update.
Qed.

(** A write that completes although the client has given up the connection in
    the meantime (its handler was queued before the read failed) takes its
    bytes out of a ring that is already empty: the size wraps around. *)
Theorem stale_completion_wraps {App W} `{!World W} on_trace (s : St App W) n :
  0 < n → n ≤ kTxRingCapacity →
  let s' := (OnWrite on_trace (Some n) (ScheduleReconnect s).2).2 in
  RingBuffer.Size (tx_ring_ (client s')) = Z.to_nat (2 ^ 64 - Z.of_nat n).
Proof.
  intros Hn Hle s'. subst s'. destruct s as [c a w ef].
  unfold ScheduleReconnect, ComputeBackoff, OnWrite, StartWrite, update, on_client, on_world, emit, read, zoom,
    modify, ask, mbind, M_bind, get.
  cbn [mret M_ret client world app effects]. destruct (uniform_int _ _ w) as [delay w'].
  cbn [mret M_ret client world app effects snd].
  assert (usub 0 n = Z.to_nat (2 ^ 64 - Z.of_nat n)) as Hu.
  { unfold usub. by rewrite (proj2 (Nat.leb_gt _ _)) by lia. }
  case_decide; destruct (0 <? _); exact Hu.
Qed.
