(* ===== verification/Reconciliation.v ===== *)
(** * Reconciliation: okx/orders/reconciliation.cpp, order_timeout_monitor.cpp

    [ReconcileOrders] makes the store agree with the exchange's list of
    pending orders: unknown ones are adopted, local ones that are not listed
    are dropped.  [OrderTimeoutMonitor] calls it when a request has been
    pending for too long. *)

From S2P Require Import Prelude Float64 Json Okx OrderLifecycle OrderStore World OrderEntry.
Import order_events.

Module reconciliation.
Definition ClassifyPendingState (state : list Z) : result OrderEventType :=
  if decide (state = kStateLive) then Ok kLive
  else if decide (state = kStatePartiallyFilled) then Ok kPartialFill
  else throw (runtime_error "Unexpected pending-order state: {}" [state]).

(** The store and the set of ids the exchange has listed so far. *)
Definition St : Type := OrderStore.t * gset (list Z).
Definition on_store {A} : M OrderStore.t A → M St A := zoom fst (λ s st, (s, st.2)).

(** The callback on one pending order; [now] gives the reading of the steady
    clock when the order with this client order id is constructed. *)
Definition reconcile_order (now : list Z → Z) (order : string_view) : M St unit :=
  match json.FindString order kClOrdId, json.FindString order kState with
  | Some cl_ord_id, Some state =>
      let k := sv_text cl_ord_id in
      _ ← modify (λ st : St, (st.1, {[ k ]} ∪ st.2));
      st ← get;
      known ← lift (OrderStore.FindByClOrdId k st.1);
      match known with
      | Some _ => mret tt
      | None =>
          type ← lift (ClassifyPendingState (sv_text state));
          let event := MkEvent type (find_or_empty order kOrdId) k
            (find_or_empty order kInstId) (find_or_empty order kSide) (find_or_empty order kPx)
            (find_or_empty order kSz) (find_or_empty order kAccFillSz)
            (find_or_empty order kAvgPx) None in
          _ ← on_store (OrderStore.Add (now (ev_cl_ord_id event)) (ev_cl_ord_id event) (ev_inst_id event)
                 (ev_side event) (ev_px event) (ev_sz event));
          st ← get;
          adopted ← lift (OrderStore.FindByClOrdId k st.1);
          match adopted with
          | None => throwM (runtime_error
              "Order {} vanished immediately after Add during reconciliation" [k])
          | Some i => on_store (OrderStore.with_order i (Order.ApplyEvent event))
          end
      end
  | _, _ => throwM (runtime_error "Malformed pending order: {}" [sv_text order])
  end.

(** The ids that the exchange has not listed. *)
Definition collect_drop (ids : gset (list Z)) (o : Order.t) : M (list (list Z)) unit :=
  modify (λ l, if decide (Order.cl_ord_id_ o ∈ ids) then l else l ++ [Order.cl_ord_id_ o]).

Fixpoint remove_all (ks : list (list Z)) : M OrderStore.t (list (list Z)) :=
  match ks with
  | [] => mret []
  | k :: ks' => n ← OrderStore.Remove k; l ← remove_all ks'; mret (option_list n ++ l)
  end.

(** Returns the ids that the removal listener is called with. *)
Definition ReconcileOrders (now : list Z → Z) (pending_orders_response : string_view)
    : M OrderStore.t (list (list Z)) := λ s,
  let '(r, (s1, ids)) :=
    json.ForEachArrayElement pending_orders_response kData (reconcile_order now) (s, ∅) in
  match r with
  | Stop x => (Stop x, s1)
  | Ok _ =>
      let '(r, to_drop) := OrderStore.ForEach (collect_drop ids) s1 [] in
      match r with Stop x => (Stop x, s1) | Ok _ => remove_all to_drop s1 end
  end.

(** ** What reconciliation amounts to *)

(** The event of a pending order with the string fields [f]. *)
Definition pending_event (f : list Z → option (list Z)) : option OrderEvent :=
  k ← f kClOrdId;
  state ← f kState;
  type ← (if decide (state = kStateLive) then Some kLive
          else if decide (state = kStatePartiallyFilled) then Some kPartialFill else None);
  let g key := default [] (f key) in
  Some (MkEvent type (g kOrdId) k (g kInstId) (g kSide) (g kPx) (g kSz) (g kAccFillSz)
    (g kAvgPx) None).

(** A new order that has seen its first event. *)
Definition adopted (now : list Z → Z) (ev : OrderEvent) : Order.t :=
  (Order.ApplyEvent ev (Order.make (now (ev_cl_ord_id ev)) (ev_cl_ord_id ev) (ev_inst_id ev) (ev_side ev)
    (ev_px ev) (ev_sz ev))).2.
Definition adopt (now : list Z → Z) (m : gmap (list Z) Order.t) (ev : OrderEvent) : gmap (list Z) Order.t :=
  match m !! ev_cl_ord_id ev with
  | Some _ => m
  | None => <[ev_cl_ord_id ev := adopted now ev]> m
  end.
Definition listed (evs : list OrderEvent) : gset (list Z) := list_to_set (ev_cl_ord_id <$> evs).

Lemma pending_event_type f ev :
  pending_event f = Some ev → ev_type ev = kLive ∨ ev_type ev = kPartialFill.
Proof.
  unfold pending_event. destruct (f kClOrdId); [|done]. destruct (f kState); [|done]. simpl.
  repeat case_decide; intros [= <-]; simpl; auto.
Qed.
Lemma ApplyEvent_new now ev :
  ev_type ev = kLive ∨ ev_type ev = kPartialFill →
  Order.ApplyEvent ev (Order.make (now (ev_cl_ord_id ev)) (ev_cl_ord_id ev) (ev_inst_id ev) (ev_side ev)
    (ev_px ev) (ev_sz ev)) = (Ok tt, adopted now ev).
Proof.
  intros Ht. unfold adopted, Order.ApplyEvent, mbind, M_bind, Order.copy_event, modify, get.
  destruct (ev_type ev); [done|done|naive_solver..].
Qed.

(** The fields of an order that the callback reads. *)
Definition reads (order : string_view) (f : list Z → option (list Z)) : Prop :=
  ∀ k, k ∈ event_reference.order_keys → sv_text <$> json.FindString order k = f k.
Lemma reads_find order f k :
  reads order f → k ∈ event_reference.order_keys → find_or_empty order k = default [] (f k).
Proof.
  intros Hr Hk. rewrite <-Hr by done. unfold find_or_empty. by destruct (json.FindString order k).
Qed.

(** An order is added, found and shown its first event. *)
Lemma add_apply now ev s os :
  let k := ev_cl_ord_id ev in
  ev_type ev = kLive ∨ ev_type ev = kPartialFill → OrderStore.wf s os →
  OrderStore.orders os !! k = None → length os < OrderStore.kCapacity →
  ∃ s1 i s2 os2,
    OrderStore.Add (now k) k (ev_inst_id ev) (ev_side ev) (ev_px ev) (ev_sz ev) s = (Ok tt, s1) ∧
    OrderStore.FindByClOrdId k s1 = Ok (Some i) ∧
    OrderStore.with_order i (Order.ApplyEvent ev) s1 = (Ok tt, s2) ∧
    OrderStore.wf s2 os2 ∧ OrderStore.orders os2 = <[k := adopted now ev]> (OrderStore.orders os) ∧
    OrderStore.on_remove_ s2 = OrderStore.on_remove_ s ∧ length os2 = S (length os).
Proof.
  intros k Htype Hwf Hnone Hroom.
  destruct (OrderStore.Add_spec s os Hwf (now k) k (ev_inst_id ev) (ev_side ev) (ev_px ev) (ev_sz ev) Hnone Hroom)
    as (s1 & os1 & HAdd & Hwf1 & Hm1 & Hon1).
  destruct (OrderStore.FindByClOrdId_orders s1 os1 Hwf1 k _ (eq_trans (f_equal (lookup k) Hm1) (lookup_insert_eq _ _ _)))
    as (i & Hi & Ho & _).
  pose proof (ApplyEvent_new now ev Htype) as Happ. fold k in Happ.
  destruct (OrderStore.with_order_spec s1 os1 Hwf1 i _ (Order.ApplyEvent ev) Ho)
    as (s2 & os2 & HW & Hwf2 & Hm2 & Hon2).
  { pose proof (OrderHistory.step_identity (Order.Event ev)
      (Order.make (now k) k (ev_inst_id ev) (ev_side ev) (ev_px ev) (ev_sz ev))) as [Hid _].
    unfold OrderHistory.identity in Hid. by injection Hid. }
  rewrite Happ in HW, Hm2. cbn [fst snd] in HW, Hm2.
  unfold OrderStore.cl in Hm2. cbn [Order.make Order.cl_ord_id_] in Hm2. rewrite Hm1, insert_insert_eq in Hm2.
  exists s1, i, s2, os2. repeat (split; [done|]). split; [congruence|].
  rewrite <-!OrderStore.orders_size by (apply Hwf || apply Hwf2). by rewrite Hm2, map_size_insert_None.
Qed.

Definition store_full : exn := runtime_error "OrderStore is full" [].
Lemma reconcile_order_spec now order f ev s os ids :
  reads order f → pending_event f = Some ev → OrderStore.wf s os →
  let k := ev_cl_ord_id ev in
  if decide (OrderStore.orders os !! k = None ∧ length os = OrderStore.kCapacity)
  then reconcile_order now order (s, ids) = (throw store_full, (s, {[ k ]} ∪ ids))
  else ∃ s' os', reconcile_order now order (s, ids) = (Ok tt, (s', {[ k ]} ∪ ids)) ∧
    OrderStore.wf s' os' ∧ OrderStore.orders os' = adopt now (OrderStore.orders os) ev.
Proof.
  intros Hr Hev Hwf k. pose proof (pending_event_type _ _ Hev) as Htype.
  unfold pending_event in Hev.
  rewrite <-(Hr kClOrdId), <-(Hr kState) in Hev by (unfold event_reference.order_keys; set_solver).
  remember (reconcile_order now order (s, ids)) as res eqn:Hres. unfold reconcile_order in Hres.
  destruct (json.FindString order kClOrdId) as [c|]; [|done].
  destruct (json.FindString order kState) as [st|]; [|done].
  cbn [fmap option_fmap option_map mbind option_bind] in Hev.
  destruct (if decide (sv_text st = kStateLive) then Some kLive
    else if decide (sv_text st = kStatePartiallyFilled) then Some kPartialFill else None)
    as [type|] eqn:Et; [|done].
  cbn [mbind option_bind] in Hev. injection Hev as Hev.
  assert (ClassifyPendingState (sv_text st) = Ok type) as Hcl.
  { unfold ClassifyPendingState. repeat case_decide; naive_solver. }
  clear Et.
  assert (k = sv_text c) as Hk by (unfold k; by rewrite <-Hev).
  rewrite !(reads_find order f) in Hres by (done || (unfold event_reference.order_keys; set_solver)).
  unfold mbind, M_bind, modify, get, lift, on_store, zoom in Hres. cbn [fst snd] in Hres.
  rewrite Hcl, Hev, <-Hk in Hres. fold k in Hres.
  destruct (OrderStore.orders os !! k) as [o|] eqn:Hlook.
  { destruct (OrderStore.FindByClOrdId_orders s os Hwf k o Hlook) as (i & Hi & _). rewrite Hi in Hres.
    rewrite decide_False by (by intros [? _]). exists s, os. split; [done|]. split; [done|].
    unfold adopt. fold k. by rewrite Hlook. }
  assert (OrderStore.FindByClOrdId k s = Ok None) as Hi.
  { destruct (OrderStore.FindByClOrdId_list s os k Hwf) as (r & -> & Hf). destruct r as [i|]; [|done].
    destruct Hf as (o & Ho & Hko). pose proof (OrderStore.orders_index os i o ltac:(apply Hwf) Ho). congruence. }
  rewrite Hi in Hres. cbn [fst snd] in Hres. case_decide as Hfull.
  { destruct Hfull as [_ Hfull]. rewrite (OrderStore.Add_full s os Hwf _ _ _ _ _ _ Hfull) in Hres. exact Hres. }
  assert (length os < OrderStore.kCapacity) as Hroom.
  { assert (length os ≠ OrderStore.kCapacity) by tauto. pose proof Hwf as (_ & _ & ? & _). lia. }
  destruct (add_apply now ev s os Htype Hwf Hlook Hroom)
    as (s1 & i & s2 & os2 & HAdd & Hi1 & HW & Hwf2 & Hm2 & _ & _). fold k in HAdd, Hi1.
  rewrite HAdd in Hres. cbn [fst snd] in Hres. rewrite Hi1 in Hres. cbn [fst snd] in Hres. rewrite HW in Hres.
  exists s2, os2. split; [done|]. split; [done|]. unfold adopt. fold k. by rewrite Hlook.
Qed.

(** All listed orders are visited, or one is new and the store is full. *)
Lemma visit_pending now views segs evs s os ids :
  Forall2 (λ v f, reads v f) views segs →
  Forall2 (λ f ev, pending_event f = Some ev) segs evs → OrderStore.wf s os →
  if decide (base.size (dom (OrderStore.orders os) ∪ listed evs) ≤ OrderStore.kCapacity)
  then ∃ s' os', json.visit (reconcile_order now) views (s, ids) = (Ok tt, (s', listed evs ∪ ids)) ∧
    OrderStore.wf s' os' ∧ OrderStore.orders os' = foldl (adopt now) (OrderStore.orders os) evs
  else ∃ n s' os' ids', json.visit (reconcile_order now) views (s, ids) = (throw store_full, (s', ids')) ∧
    OrderStore.wf s' os' ∧ OrderStore.orders os' = foldl (adopt now) (OrderStore.orders os) (take n evs) ∧
    length os' = OrderStore.kCapacity.
Proof.
  intros Hr. revert evs s os ids. induction Hr as [|v f views segs Hv _ IH];
    intros evs s os ids Hev Hwf; inversion Hev as [|? ev ? evs' He Hevs]; subst.
  { rewrite decide_True.
    - exists s, os. split; [|done]. unfold listed. simpl. by rewrite (left_id_L ∅ (∪)).
    - unfold listed. simpl. rewrite (right_id_L ∅ (∪)), size_dom, OrderStore.orders_size by apply Hwf. apply Hwf. }
  set (k := ev_cl_ord_id ev). set (m := OrderStore.orders os).
  assert (listed (ev :: evs') = {[ k ]} ∪ listed evs') as Hl by done.
  pose proof (reconcile_order_spec now v f ev s os ids Hv He Hwf) as H1. cbv zeta in H1.
  cbn [json.visit]. unfold mbind, M_bind. case_decide as Hfull.
  - destruct Hfull as [Hnone Hfull]. rewrite H1. rewrite decide_False.
    + by exists 0, s, os, ({[ k ]} ∪ ids).
    + intros Hsize. assert (dom m ∪ {[ k ]} ⊆ dom m ∪ listed (ev :: evs')) as Hsub by (rewrite Hl; set_solver).
      apply subseteq_size in Hsub. rewrite size_union, size_singleton, size_dom in Hsub
        by (apply not_elem_of_dom in Hnone; set_solver).
      unfold m in *. rewrite OrderStore.orders_size in Hsub by apply Hwf. lia.
  - destruct H1 as (s1 & os1 & -> & Hwf1 & Hm1). fold k. specialize (IH evs' s1 os1 ({[ k ]} ∪ ids) Hevs Hwf1).
    assert (dom (OrderStore.orders os1) ∪ listed evs' = dom m ∪ listed (ev :: evs')) as Hdom.
    { rewrite Hm1, Hl. unfold adopt. fold k m. destruct (m !! k) as [o|] eqn:E.
      - apply elem_of_dom_2 in E. set_solver.
      - rewrite dom_insert_L. set_solver. }
    rewrite Hdom, Hm1 in IH. case_decide.
    + destruct IH as (s2 & os2 & -> & Hwf2 & Hm2). exists s2, os2. split; [|done]. do 2 f_equal.
      rewrite Hl. set_solver.
    + destruct IH as (n & s2 & os2 & ids' & -> & Hwf2 & Hm2 & Hlen). by exists (S n), s2, os2, ids'.
Qed.

Lemma visit_drop ids os l :
  json.visit (collect_drop ids) os l =
    (Ok tt, l ++ filter (λ k, k ∉ ids) (OrderStore.cl <$> os)).
Proof.
  revert l. induction os as [|o os IH]; intros l; [by rewrite app_nil_r|].
  cbn [json.visit]. unfold mbind, M_bind, collect_drop at 1, modify.
  rewrite IH, fmap_cons. unfold OrderStore.cl at 2. case_decide as Hin.
  - rewrite filter_cons_False by (intros H; by apply H). done.
  - rewrite filter_cons_True, <-app_assoc by done. done.
Qed.

Lemma remove_all_spec ks s os :
  OrderStore.wf s os →
  ∃ ns s' os', remove_all ks s = (Ok ns, s') ∧ OrderStore.wf s' os' ∧
    OrderStore.orders os' = foldl (λ m k, delete k m) (OrderStore.orders os) ks.
Proof.
  revert s os. induction ks as [|k ks IH]; intros s os Hwf; [by exists [], s, os|].
  destruct (OrderStore.Remove_spec s os Hwf k) as (s1 & os1 & H1 & Hwf1 & Hm1 & _).
  destruct (IH s1 os1 Hwf1) as (ns & s2 & os2 & H2 & Hwf2 & Hm2).
  eexists _, s2, os2. split; [|split; [done|by rewrite Hm2, Hm1]].
  cbn [remove_all]. unfold mbind, M_bind. rewrite H1, H2. done.
Qed.

Lemma foldl_delete (ks : list (list Z)) (m : gmap (list Z) Order.t) :
  foldl (λ m k, delete k m) m ks = filter (λ x, x.1 ∉ ks) m.
Proof.
  revert m. induction ks as [|k ks IH]; intros m.
  { simpl. symmetry. apply map_filter_id. intros; set_solver. }
  simpl. rewrite IH. apply map_eq. intros j. apply option_eq. intros o.
  rewrite !map_lookup_filter_Some, lookup_delete_Some. simpl. set_solver.
Qed.

(** Orders that are not listed are dropped. *)
Lemma drop_unlisted (os : list Order.t) (ids : gset (list Z)) :
  StronglySorted OrderStore.before os →
  filter (λ x, x.1 ∉ filter (λ k, k ∉ ids) (OrderStore.cl <$> os)) (OrderStore.orders os) =
  filter (λ x, x.1 ∈ ids) (OrderStore.orders os).
Proof.
  intros Hs. apply map_filter_ext. intros k o Hk. simpl.
  apply OrderStore.orders_lookup in Hk as [Ho <-]; [|done].
  rewrite list_elem_of_filter. split.
  - intros H. destruct (decide (OrderStore.cl o ∈ ids)); [done|].
    exfalso. apply H. split; [done|]. by apply list_elem_of_fmap_2.
  - intros H [? _]. done.
Qed.

Lemma adopt_dom (now : list Z → Z) (evs : list OrderEvent) (m : gmap (list Z) Order.t) :
  dom (foldl (adopt now) m evs) = dom m ∪ listed evs.
Proof.
  revert m. induction evs as [|ev evs IH]; intros m; [unfold listed; simpl; set_solver|].
  cbn [foldl]. rewrite IH. unfold listed. cbn [fmap list_fmap list_to_set].
  unfold adopt. destruct (m !! ev_cl_ord_id ev) eqn:E.
  - apply elem_of_dom_2 in E. set_solver.
  - rewrite dom_insert_L. set_solver.
Qed.
Lemma dom_reconciled (now : list Z → Z) (evs : list OrderEvent) (m : gmap (list Z) Order.t) :
  dom (filter (λ x, x.1 ∈ listed evs) (foldl (adopt now) m evs)) = listed evs.
Proof.
  apply set_eq. intros k. rewrite elem_of_dom. split.
  - intros [o Ho]. by apply map_lookup_filter_Some in Ho as [_ ?].
  - intros Hk. assert (k ∈ dom (foldl (adopt now) m evs)) as [o Ho]%elem_of_dom
      by (rewrite adopt_dom; set_solver).
    exists o. by apply map_lookup_filter_Some.
Qed.

Lemma ReconcileOrders_visit now response views s os evs segs :
  (∀ X (action : string_view → M X unit) x,
    json.ForEachArrayElement response kData action x = json.visit action views x) →
  Forall2 (λ v f, reads v f) views segs →
  Forall2 (λ f ev, pending_event f = Some ev) segs evs →
  OrderStore.wf s os →
  let m := OrderStore.orders os in
  if decide (base.size (dom m ∪ listed evs) ≤ OrderStore.kCapacity)
  then ∃ ns s' os', ReconcileOrders now response s = (Ok ns, s') ∧ OrderStore.wf s' os' ∧
    OrderStore.orders os' = filter (λ x, x.1 ∈ listed evs) (foldl (adopt now) m evs)
  else ∃ n s' os', ReconcileOrders now response s = (throw store_full, s') ∧ OrderStore.wf s' os' ∧
    OrderStore.orders os' = foldl (adopt now) m (take n evs) ∧ length os' = OrderStore.kCapacity.
Proof.
  intros Hloop Hr Hev Hwf m. unfold ReconcileOrders. rewrite Hloop.
  pose proof (visit_pending now views segs evs s os ∅ Hr Hev Hwf) as Hv. fold m in Hv. case_decide.
  - destruct Hv as (s1 & os1 & -> & Hwf1 & Hm1).
    rewrite (right_id_L ∅ (∪)), (OrderStore.ForEach_list s1 os1) by done. rewrite visit_drop, app_nil_l.
    destruct (remove_all_spec (filter (λ k, k ∉ listed evs) (OrderStore.cl <$> os1)) s1 os1 Hwf1)
      as (ns & s2 & os2 & -> & Hwf2 & Hm2).
    exists ns, s2, os2. split; [done|]. split; [done|].
    rewrite Hm2, foldl_delete, drop_unlisted by apply Hwf1. by rewrite Hm1.
  - destruct Hv as (n & s1 & os1 & ids & -> & Hwf1 & Hm1 & Hlen). by exists n, s1, os1.
Qed.
Lemma adopt_keeps (now : list Z → Z) (evs : list OrderEvent) (m : gmap (list Z) Order.t) :
  m ⊆ foldl (adopt now) m evs.
Proof.
  revert m. induction evs as [|ev evs IH]; intros m; [done|]. cbn [foldl]. etrans; [|apply IH].
  unfold adopt. destruct (m !! ev_cl_ord_id ev) eqn:E; [done|]. by apply insert_subseteq.
Qed.
End reconciliation.

Module OrderTimeoutMonitor.
(** Five seconds in nanoseconds of the steady clock. *)
Definition kOrderUnacknowledgedTimeout : Z := 5000000000.

Definition timed_out (now : Z) (o : Order.t) : bool :=
  IsPending (Order.state_ o) &&
  negb (now - Order.pending_since_ o <=? kOrderUnacknowledgedTimeout)%Z.

Section monitor.
Context {W : Type} `{!World W}.
Definition on_order_store {A} : M OrderStore.t A → M (OrderStore.t * W) A :=
  zoom fst (λ s st, (s, st.2)).
Definition on_world {A} : M W A → M (OrderStore.t * W) A := zoom snd (λ w st, (st.1, w)).

(** Returns the ids that the removal listener is called with; [clock] is the
    time at which an order is adopted. *)
Definition CheckAndResolve (rest : RestClient) (auth : OkxAuth) (clock : list Z → Z)
    : M (OrderStore.t * W) (list (list Z)) :=
  now ← on_world (ask steady_clock_now);
  st ← get;
  let '(r, any_timed_out) := OrderStore.ForEach (λ o,
    any ← get;
    if any || negb (IsPending (Order.state_ o)) ||
       (now - Order.pending_since_ o <=? kOrderUnacknowledgedTimeout)%Z
    then mret tt else put true) st.1 false in
  _ ← lift r;
  if any_timed_out : bool then
    pending ← on_world (GetPendingOrders rest auth);
    on_order_store (reconciliation.ReconcileOrders clock (sv_of (body pending)))
  else mret [].
End monitor.

Lemma visit_timed_out now os b :
  json.visit (λ o,
    any ← get;
    if any || negb (IsPending (Order.state_ o)) ||
       (now - Order.pending_since_ o <=? kOrderUnacknowledgedTimeout)%Z
    then mret tt else put true) os b = (Ok tt, b || existsb (timed_out now) os).
Proof.
  revert b. induction os as [|o os IH]; intros b; [by rewrite orb_false_r|].
  cbn [json.visit existsb]. unfold mbind at 1 2, M_bind at 1 2, get at 1. unfold timed_out at 1.
  destruct b; [apply IH|]. cbn [orb]. destruct (IsPending (Order.state_ o)); cbn [negb orb andb];
    [|apply IH]. destruct (_ <=? _)%Z; cbn [negb orb]; apply IH.
Qed.
End OrderTimeoutMonitor.

(** ** Properties *)

(** C6. Reconciliation with a list of pending orders that the exchange
    returned.  If the local orders and the listed ones together fit into the
    1024 slots, the store afterwards holds exactly the orders that were
    listed: a listed order that was known locally is kept as it is; one that
    was not is adopted in the state and with the fields of its listing; a
    local order that is not listed is removed.  If they do not fit (orders are
    adopted before stale ones are removed), it throws "OrderStore is full": the
    first listed orders have been adopted, up to the last slot, and no local
    order has been removed. *)
Theorem reconcile_correct now response p w es rest segs evs s os :
  json.FindValueStart response kData = Some p → sv_wf (sv_from response p) →
  sv_text (sv_from response p) = json.print (json.JArray w es) ++ rest →
  json.jwf (json.JArray w es) = true →
  Forall2 (λ e x, json.print e.1.2 = x.1 ++ json.segs_text x.2 ∧
    ∀ k, k ∈ event_reference.order_keys → json.segs_ok k x.1 x.2) es segs →
  Forall2 (λ x ev, reconciliation.pending_event (λ k, json.string_of_key k x.2) = Some ev) segs evs →
  OrderStore.wf s os →
  let local := OrderStore.orders os in
  if decide (base.size (dom local ∪ reconciliation.listed evs) ≤ 1024)
  then ∃ ns s' os', reconciliation.ReconcileOrders now response s = (Ok ns, s') ∧
    OrderStore.wf s' os' ∧
    OrderStore.orders os' = filter (λ x, x.1 ∈ reconciliation.listed evs)
      (foldl (reconciliation.adopt now) local evs) ∧
    dom (OrderStore.orders os') = reconciliation.listed evs
  else ∃ n s' os', reconciliation.ReconcileOrders now response s =
      (throw (runtime_error "OrderStore is full" []), s') ∧
    OrderStore.wf s' os' ∧
    OrderStore.orders os' = foldl (reconciliation.adopt now) local (take n evs) ∧
    length os' = 1024 ∧ local ⊆ OrderStore.orders os'.
Proof.
  intros Hp Hwf Ht Hx Hsegs Hevs Hs local.
  destruct (json.array_of_key response kData p w es rest Hp Hwf Ht Hx) as (views & Htx & Hvwf & Hloop).
  assert (Forall2 reconciliation.reads views ((λ x, λ k, json.string_of_key k x.2) <$> segs)) as Hr.
  { clear Hloop Hevs Ht Hx. revert views segs Htx Hvwf Hsegs.
    induction es as [|e es IH]; intros [|v views] [|x segs] Htx Hvwf Hsegs; try done;
      try (by inversion Hsegs).
    cbn [fmap list_fmap] in Htx |- *. injection Htx as Hv Htx.
    apply Forall2_cons in Hsegs as [[Hpr Hok] Hsegs]. apply Forall_cons in Hvwf as [Hvw Hvwf].
    constructor; [|by apply IH]. intros k Hk.
    apply json.FindString_segs with (g0 := x.1); [done| |by apply Hok]. by rewrite Hv, Hpr. }
  pose proof (reconciliation.ReconcileOrders_visit now response views s os evs _ Hloop Hr
    ltac:(by apply Forall2_fmap_l) Hs) as H. cbv zeta in H. fold local in H.
  change OrderStore.kCapacity with 1024 in H. case_decide.
  - destruct H as (ns & s' & os' & HR & Hwf' & Hm). exists ns, s', os'. split; [done|]. split; [done|].
    split; [done|]. rewrite Hm. apply reconciliation.dom_reconciled.
  - destruct H as (n & s' & os' & HR & Hwf' & Hm & Hlen). exists n, s', os'. split; [done|]. split; [done|].
    split; [done|]. split; [done|]. rewrite Hm. apply reconciliation.adopt_keeps.
Qed.

Definition sample_pending_segs : list Z * list (list Z * list Z) :=
  (str "{", [(str "ordId", str ":"); (str "9", str ","); (str "clOrdId", str ":"); (str "5", str ",");
    (str "state", str ":"); (str "live", str "}")]).
Definition sample_pending_json : json.jval :=
  json.JObject [] ((λ '(k, v), ([], str k, [], ([], json.JString (str v), []))) <$>
    [("ordId", "9"); ("clOrdId", "5"); ("state", "live")]%string).
Definition sample_response : string_view :=
  sv_of (qstr "{'code':'0','data':[" ++ json.print sample_pending_json ++ str "]}").
Definition sample_pending_event : OrderEvent :=
  MkEvent kLive (str "9") (str "5") [] [] [] [] [] [] None.
Definition one_order_store : OrderStore.t := OrderStore.Mk (OrderStore.slots_of [sample_order]) 1 true.
Lemma one_order_wf : OrderStore.wf one_order_store [sample_order].
Proof. split; [done|]. split; [done|]. split; [vm_compute; lia|]. repeat constructor. Qed.
Lemma reconcile_correct_witness :
  ∃ ns s' os', reconciliation.ReconcileOrders (λ _, 0%Z) sample_response one_order_store = (Ok ns, s') ∧
    OrderStore.wf s' os' ∧ dom (OrderStore.orders os') = {[ str "5" ]}.
Proof.
  unshelve epose proof (reconcile_correct (λ _, 0%Z) sample_response
    (default 0 (json.FindValueStart sample_response kData)) []
    [([], sample_pending_json, [])] (str "}") [sample_pending_segs] [sample_pending_event]
    one_order_store [sample_order] _ _ _ _ _ _ one_order_wf) as H.
  - vm_compute. reflexivity.
  - unfold sv_wf. vm_compute. lia.
  - vm_compute. reflexivity.
  - vm_compute. reflexivity.
  - constructor; [|constructor]. split; [vm_compute; reflexivity|].
    intros k Hk. unfold event_reference.order_keys in Hk.
    repeat (apply elem_of_cons in Hk as [->|Hk];
      [split; [reflexivity|split; [reflexivity|]];
       repeat (constructor; [split; [reflexivity|split; [reflexivity|discriminate]]|]);
       constructor|]).
    by apply elem_of_nil in Hk.
  - constructor; [vm_compute; reflexivity|constructor].
  - cbv zeta in H. rewrite decide_True in H by (apply Nat.leb_le; vm_compute; reflexivity).
    destruct H as (ns & s' & os' & HR & Hwf & _ & Hdom).
    exists ns, s', os'. split; [exact HR|]. split; [exact Hwf|]. rewrite Hdom. vm_compute. reflexivity.
Defined.

(** A response without a data array, which is what an error response of
    the exchange or of a proxy is, empties the store. *)
Theorem reconcile_without_data_drops_all now response s os :
  json.FindValueStart response kData = None → OrderStore.wf s os →
  ∃ ns s', reconciliation.ReconcileOrders now response s = (Ok ns, s') ∧ OrderStore.wf s' [].
Proof.
  intros Hp Hwf.
  assert (∀ X (action : string_view → M X unit) x,
    json.ForEachArrayElement response kData action x = json.visit action [] x) as Hloop.
  { intros X action x. unfold json.ForEachArrayElement. by rewrite Hp. }
  pose proof (reconciliation.ReconcileOrders_visit now response [] s os [] [] Hloop
    (List.Forall2_nil _) (List.Forall2_nil _) Hwf) as H.
  cbv zeta in H. rewrite decide_True in H.
  - destruct H as (ns & s' & os' & HR & Hwf' & Hm). exists ns, s'. split; [done|].
    assert (os' = []) as ->; [|done].
    apply length_zero_iff_nil. rewrite <-OrderStore.orders_size by apply Hwf'.
    rewrite <-size_dom, Hm, reconciliation.dom_reconciled. done.
  - unfold reconciliation.listed. simpl. rewrite (right_id_L ∅ (∪)), size_dom, OrderStore.orders_size; apply Hwf.
Qed.

Lemma reconcile_without_data_drops_all_witness :
  ∃ ns s', reconciliation.ReconcileOrders (λ _, 0%Z) (sv_of (qstr "{'code':'50011','msg':'Too Many Requests'}"))
      one_order_store = (Ok ns, s') ∧ OrderStore.wf s' [].
Proof.
  exact (reconcile_without_data_drops_all (λ _, 0%Z) (sv_of (qstr "{'code':'50011','msg':'Too Many Requests'}"))
    one_order_store [sample_order] eq_refl one_order_wf).
Defined.

(** The timeout check asks the exchange for the pending orders and
    reconciles with its answer exactly when some order has been waiting for an
    answer for more than five seconds; otherwise it changes nothing. *)
Theorem timeout_check_correct {W} `{!World W} rest auth clock s os (w : W) :
  OrderStore.wf s os →
  let '(now, w1) := steady_clock_now w in
  OrderTimeoutMonitor.CheckAndResolve rest auth clock (s, w) =
    if existsb (λ o, IsPending (Order.state_ o) &&
        (5000000000 <? now - Order.pending_since_ o)%Z) os
    then match GetPendingOrders rest auth w1 with
         | (Ok pending, w2) =>
             let '(r, s') := reconciliation.ReconcileOrders clock (sv_of (body pending)) s in
             (r, (s', w2))
         | (Stop x, w2) => (Stop x, (s, w2))
         end
    else (Ok [], (s, w1)).
Proof.
  intros Hwf. destruct (steady_clock_now w) as [now w1] eqn:Ec.
  unfold OrderTimeoutMonitor.CheckAndResolve, mbind at 1, M_bind at 1.
  unfold OrderTimeoutMonitor.on_world at 1, zoom at 1, ask. cbn [fst snd]. rewrite Ec.
  unfold mbind at 1, M_bind at 1, get at 1. cbn [fst snd].
  rewrite (OrderStore.ForEach_list s os) by done. rewrite OrderTimeoutMonitor.visit_timed_out. cbn [orb].
  assert (existsb (OrderTimeoutMonitor.timed_out now) os = existsb (λ o, IsPending (Order.state_ o) &&
    (5000000000 <? now - Order.pending_since_ o)%Z) os) as ->.
  { clear Hwf. induction os as [|o os IH]; [done|]. cbn [existsb]. rewrite IH. f_equal.
    unfold OrderTimeoutMonitor.timed_out. by rewrite <-Z.ltb_antisym. }
  unfold mbind, M_bind, lift. destruct (existsb _ os); [|done].
  unfold OrderTimeoutMonitor.on_world, OrderTimeoutMonitor.on_order_store, zoom. cbn [fst snd].
  by destruct (GetPendingOrders rest auth w1) as [[]].
Qed.

Lemma timeout_check_correct_witness :
  @OrderTimeoutMonitor.CheckAndResolve unit (sample_world 6000000000 (str "{}"))
    (MkRest []) (MkAuth [] [] []) (λ _, 0%Z) (one_order_store, tt) = (Ok [], (one_order_store, tt)).
Proof.
  exact (@timeout_check_correct unit (sample_world 6000000000 (str "{}")) (MkRest []) (MkAuth [] [] [])
    (λ _, 0%Z) _ _ tt one_order_wf).
Defined.
