(* ===== verification/RateLimiter.v ===== *)
(** * Rate limiting: okx/connectivity/rate_limiter.*

    [SlidingWindowLimiter] keeps the times of the accepted calls of the last
    window in a ring of [capacity] entries.  Times are integers of the steady
    clock, which never runs backwards. *)

From S2P Require Import Prelude Float64 Json Okx.

Module SlidingWindowLimiter.
Record t := Mk {
  capacity_ : nat; window_ : Z; timestamps_ : list Z; head_ : nat; count_ : nat }.
Definition make (capacity : nat) (window : Z) : t :=
  Mk capacity window (replicate capacity 0%Z) 0 0.

(** The loop that forgets the calls before the cutoff. *)
Fixpoint expire (fuel : nat) (cutoff : Z) (s : t) : result t :=
  if 0 <? count_ s then
    oldest ← aget (timestamps_ s) (head_ s);
    if (oldest <? cutoff)%Z then
      match fuel with
      | O => Stop Fuel
      | S f => expire f cutoff (Mk (capacity_ s) (window_ s) (timestamps_ s)
                 ((head_ s + 1) mod capacity_ s) (count_ s - 1))
      end
    else Ok s
  else Ok s.

Definition TryAcquire (now : Z) : M t bool :=
  s ← get;
  let cutoff := (now - window_ s)%Z in
  s ← lift (expire (count_ s) cutoff s);
  _ ← put s;
  if capacity_ s <=? count_ s then mret false
  else
    ts ← lift (aset (timestamps_ s) ((head_ s + count_ s) mod capacity_ s) now);
    _ ← put (Mk (capacity_ s) (window_ s) ts (head_ s) (count_ s + 1));
    mret true.

(** ** The times that are held, oldest first *)
Definition held (s : t) (l : list Z) : Prop :=
  length (timestamps_ s) = capacity_ s ∧ (capacity_ s ≠ 0 → head_ s < capacity_ s) ∧
  count_ s = length l ∧ length l ≤ capacity_ s ∧
  ∀ i x, l !! i = Some x → timestamps_ s !! ((head_ s + i) mod capacity_ s) = Some x.

Fixpoint drop_old (cutoff : Z) (l : list Z) : list Z :=
  match l with [] => [] | x :: r => if (x <? cutoff)%Z then drop_old cutoff r else l end.

Lemma held_make capacity window : held (make capacity window) [].
Proof.
  split; [apply length_replicate|]. split; [simpl; lia|]. split; [done|].
  split; [simpl; lia|]. by intros i x Hi.
Qed.

Lemma expire_spec fuel cutoff s l :
  held s l → length l ≤ fuel →
  ∃ s', expire fuel cutoff s = Ok s' ∧ held s' (drop_old cutoff l) ∧
    capacity_ s' = capacity_ s ∧ window_ s' = window_ s.
Proof.
  revert s l. induction fuel as [|fuel IH]; intros s l Hh Hf;
    pose proof Hh as (Hlen & Hhead & Hc & Hle & Hget).
  - destruct l; [|simpl in Hf; lia]. exists s. cbn [expire]. by rewrite Hc.
  - destruct l as [|x l]; cbn [expire]; rewrite Hc.
    { by exists s. }
    simpl in Hf, Hc, Hle. change (0 <? length (x :: l)) with true. cbv iota.
    specialize (Hhead ltac:(lia)).
    assert (timestamps_ s !! head_ s = Some x) as Hx.
    { specialize (Hget 0 x eq_refl). by rewrite Nat.add_0_r, Nat.mod_small in Hget by lia. }
    rewrite (aget_Some _ _ _ Hx). cbn [mbind result_bind drop_old].
    destruct (x <? cutoff)%Z; [|by exists s].
    apply (IH (Mk (capacity_ s) (window_ s) (timestamps_ s) ((head_ s + 1) mod capacity_ s)
      (length (x :: l) - 1))); [|lia].
    split_and!; cbn [capacity_ timestamps_ head_ count_ length]; [done| |lia|lia|].
    + intros _. apply Nat.mod_upper_bound. lia.
    + intros i y Hy. rewrite Nat.Div0.add_mod_idemp_l by lia.
      replace (head_ s + 1 + i) with (head_ s + S i) by lia. by apply Hget.
Qed.

Lemma mod_ring_inj h i j c : i < c → j < c → (h + i) mod c = (h + j) mod c → i = j.
Proof.
  intros Hi Hj Heq.
  pose proof (Nat.div_mod (h + i) c ltac:(lia)) as H1.
  pose proof (Nat.div_mod (h + j) c ltac:(lia)) as H2. rewrite Heq in H1.
  destruct (Nat.lt_trichotomy ((h + i) / c) ((h + j) / c)) as [?|[?|?]]; nia.
Qed.

Lemma TryAcquire_spec now s l :
  held s l →
  let l' := drop_old (now - window_ s) l in
  ∃ s', TryAcquire now s = (Ok (length l' <? capacity_ s), s') ∧
    held s' (if length l' <? capacity_ s then l' ++ [now] else l') ∧
    capacity_ s' = capacity_ s ∧ window_ s' = window_ s.
Proof.
  intros Hh l'. unfold TryAcquire, mbind, M_bind, get, lift, put.
  destruct (expire_spec (count_ s) (now - window_ s) s l Hh) as (s1 & -> & Hh1 & Hc1 & Hw1).
  { destruct Hh as (_ & _ & -> & _). done. }
  fold l' in Hh1. pose proof Hh1 as (Hlen & Hhead & Hc & Hle & Hget).
  rewrite Hc, Hc1 in *. destruct (Nat.leb_spec (capacity_ s) (length l')) as [Hfull|Hroom].
  { rewrite (proj2 (Nat.ltb_ge _ _)) by done. by exists s1. }
  rewrite (proj2 (Nat.ltb_lt _ _)) by done.
  assert ((head_ s1 + length l') mod capacity_ s < capacity_ s) as Hi by (apply Nat.mod_upper_bound; lia).
  rewrite aset_lt by lia. eexists. split; [done|]. split; [|done].
  split_and!; cbn [capacity_ timestamps_ head_ count_].
  - by rewrite length_insert.
  - intros _. apply Hhead. lia.
  - rewrite length_app. simpl. lia.
  - rewrite length_app. simpl. lia.
  - intros i x Hx. destruct (decide (i = length l')) as [->|Hne].
    + rewrite list_lookup_middle in Hx by done. injection Hx as <-.
      rewrite list_lookup_insert_eq by lia. done.
    + assert (i < length l') as Hil.
      { apply lookup_lt_Some in Hx. rewrite length_app in Hx. simpl in Hx. lia. }
      rewrite lookup_app_l in Hx by done. rewrite list_lookup_insert_ne; [by apply Hget|].
      intros Heq. apply Hne. apply (mod_ring_inj (head_ s1) i (length l') (capacity_ s)); lia.
Qed.

(** ** Reference

    A call is accepted when fewer than [capacity] calls were accepted in the
    window that ends with it; [hist] holds every accepted call, oldest first. *)
Definition in_window (window now : Z) (hist : list Z) : list Z :=
  filter (λ x, now - window ≤ x)%Z hist.
Definition ref_acquire (capacity : nat) (window now : Z) (hist : list Z) : bool * list Z :=
  if length (in_window window now hist) <? capacity then (true, hist ++ [now]) else (false, hist).

Fixpoint ref_run (capacity : nat) (window : Z) (times hist : list Z) : list bool * list Z :=
  match times with
  | [] => ([], hist)
  | now :: times' =>
      let '(b, hist') := ref_acquire capacity window now hist in
      let '(bs, hist'') := ref_run capacity window times' hist' in (b :: bs, hist'')
  end.
Fixpoint run (times : list Z) (s : t) : list (result bool) * t :=
  match times with
  | [] => ([], s)
  | now :: times' =>
      let '(b, s') := TryAcquire now s in
      let '(bs, s'') := run times' s' in (b :: bs, s'')
  end.

Lemma drop_old_suffix cutoff l :
  ∃ p, l = p ++ drop_old cutoff l ∧ Forall (λ x, x < cutoff)%Z p.
Proof.
  induction l as [|x l (p & Hl & Hp)]; [by exists []|]. simpl.
  destruct (Z.ltb_spec x cutoff); [|by exists []].
  exists (x :: p). split; [simpl; by f_equal|by constructor].
Qed.
Lemma drop_old_filter cutoff l :
  StronglySorted Z.le l → drop_old cutoff l = filter (λ x, cutoff ≤ x)%Z l.
Proof.
  induction 1 as [|x l Hs IH Hx]; [done|]. simpl. destruct (Z.ltb_spec x cutoff).
  - rewrite filter_cons_False by lia. done.
  - rewrite filter_all; [done|]. constructor; [done|].
    eapply Forall_impl; [exact Hx|]. simpl. lia.
Qed.

(** The ring holds the accepted calls of the window, at least. *)
Definition linked (s : t) (last : Z) (hist : list Z) : Prop :=
  ∃ p l, hist = p ++ l ∧ held s l ∧ Forall (λ x, x < last - window_ s)%Z p ∧
    StronglySorted Z.le (hist ++ [last]).

Lemma TryAcquire_linked s last hist now :
  linked s last hist → (last ≤ now)%Z →
  ∃ s', TryAcquire now s = (Ok (ref_acquire (capacity_ s) (window_ s) now hist).1, s') ∧
    linked s' now (ref_acquire (capacity_ s) (window_ s) now hist).2 ∧
    capacity_ s' = capacity_ s ∧ window_ s' = window_ s.
Proof.
  intros (p & l & -> & Hh & Hp & Hs) Hle.
  destruct (TryAcquire_spec now s l Hh) as (s' & -> & Hh' & Hc & Hw).
  assert (StronglySorted Z.le ((p ++ l) ++ [now])) as Hs'.
  { apply StronglySorted_app_2; [|by apply StronglySorted_app_1_l in Hs|repeat constructor].
    intros x y Hx ->%list_elem_of_singleton.
    pose proof (StronglySorted_app_1_elem_of Z.le _ [last] x last Hs Hx ltac:(left)). lia. }
  assert (in_window (window_ s) now (p ++ l) = drop_old (now - window_ s) l) as Hwin.
  { unfold in_window. rewrite filter_app, filter_none, app_nil_l, drop_old_filter; [done|..].
    - apply StronglySorted_app_1_l in Hs'. by apply StronglySorted_app_1_r in Hs'.
    - eapply Forall_impl; [exact Hp|]. simpl. lia. }
  exists s'. unfold ref_acquire. rewrite Hwin.
  destruct (drop_old_suffix (now - window_ s) l) as (q & Hl & Hq).
  assert (Forall (λ x, x < now - window_ s)%Z (p ++ q)) as Hpq.
  { apply Forall_app. split; [|done]. eapply Forall_impl; [exact Hp|]. simpl. lia. }
  destruct (length (drop_old (now - window_ s) l) <? capacity_ s).
  - split; [done|]. split; [|done]. exists (p ++ q), (drop_old (now - window_ s) l ++ [now]).
    split; [rewrite Hl at 1; by rewrite <-!app_assoc|]. rewrite Hw. split; [done|]. split; [done|].
    apply StronglySorted_app_2; [|done|repeat constructor].
    intros x y [Hx|Hx]%elem_of_app ->%list_elem_of_singleton.
    + exact (StronglySorted_app_1_elem_of Z.le _ [now] x now Hs' Hx ltac:(left)).
    + apply list_elem_of_singleton in Hx as ->. done.
  - split; [done|]. split; [|done]. exists (p ++ q), (drop_old (now - window_ s) l).
    split; [rewrite Hl at 1; by rewrite <-app_assoc|]. rewrite Hw. done.
Qed.

Lemma run_linked times s last hist :
  linked s last hist → StronglySorted Z.le (last :: times) →
  ∃ s', run times s = (Ok <$> (ref_run (capacity_ s) (window_ s) times hist).1, s').
Proof.
  revert s last hist. induction times as [|now times IH]; intros s last hist Hl Hs; [by exists s|].
  apply StronglySorted_inv in Hs as [Hs Hall]. apply Forall_cons in Hall as [Hle _].
  destruct (TryAcquire_linked s last hist now Hl Hle) as (s1 & H1 & Hl1 & Hc & Hw).
  cbn [run ref_run]. rewrite H1.
  destruct (ref_acquire (capacity_ s) (window_ s) now hist) as [b hist']. cbn [fst snd] in *.
  destruct (IH s1 now hist' Hl1 Hs) as (s2 & ->). rewrite Hc, Hw.
  exists s2. by destruct (ref_run (capacity_ s) (window_ s) times hist').
Qed.

(** Counting in windows. *)
Definition between (lo hi : Z) (l : list Z) : nat := length (filter (λ x, lo ≤ x ≤ hi)%Z l).
Definition bounded (capacity : nat) (window : Z) (hist : list Z) : Prop :=
  ∀ T, between (T - window) T hist ≤ capacity.

Lemma between_mono lo lo' hi hi' l :
  (lo' ≤ lo)%Z → (hi ≤ hi')%Z → between lo hi l ≤ between lo' hi' l.
Proof.
  intros H1 H2. unfold between. induction l as [|x l IH]; [done|].
  rewrite !filter_cons. repeat case_decide; simpl; lia.
Qed.

Lemma ref_acquire_bounded capacity window now hist :
  (0 ≤ window)%Z → bounded capacity window hist → Forall (λ x, x ≤ now)%Z hist →
  bounded capacity window (ref_acquire capacity window now hist).2 ∧
  Forall (λ x, x ≤ now)%Z (ref_acquire capacity window now hist).2.
Proof.
  intros Hw Hb Hall. unfold ref_acquire.
  destruct (Nat.ltb_spec (length (in_window window now hist)) capacity) as [Hlt|]; [|done].
  cbn [snd]. split; [|apply Forall_app; split; [done|repeat constructor; lia]].
  intros T. unfold between. rewrite filter_app, length_app, filter_cons.
  case_decide as Hin.
  - assert (between (T - window) T hist ≤ length (in_window window now hist)).
    { etrans; [apply (between_mono _ (now - window) _ (Z.max T now)); lia|].
      unfold between, in_window. clear - Hall. induction Hall as [|x l Hx _ IH]; [done|].
      rewrite !filter_cons. repeat case_decide; simpl; lia. }
    unfold between in *. simpl. lia.
  - specialize (Hb T). unfold between in Hb. simpl. lia.
Qed.

Lemma ref_run_bounded capacity window times hist last :
  (0 ≤ window)%Z → bounded capacity window hist → Forall (λ x, x ≤ last)%Z hist →
  StronglySorted Z.le (last :: times) → bounded capacity window (ref_run capacity window times hist).2.
Proof.
  intros Hw. revert hist last. induction times as [|now times IH]; intros hist last Hb Hall Hs; [done|].
  apply StronglySorted_inv in Hs as [Hs Hf]. apply Forall_cons in Hf as [Hle _].
  destruct (ref_acquire_bounded capacity window now hist Hw Hb) as [Hb' Hall'].
  { eapply Forall_impl; [exact Hall|]. simpl. lia. }
  cbn [ref_run]. destruct (ref_acquire capacity window now hist) as [b hist'].
  specialize (IH hist' now Hb' Hall' Hs). by destruct (ref_run capacity window times hist').
Qed.
End SlidingWindowLimiter.

Module EndpointRateLimiter.
Record t := Mk {
  order_limiter_ : SlidingWindowLimiter.t; cancel_limiter_ : SlidingWindowLimiter.t;
  amend_limiter_ : SlidingWindowLimiter.t }.
Definition make (order_limit cancel_limit amend_limit : nat * Z) : t :=
  Mk (SlidingWindowLimiter.make order_limit.1 order_limit.2)
     (SlidingWindowLimiter.make cancel_limit.1 cancel_limit.2)
     (SlidingWindowLimiter.make amend_limit.1 amend_limit.2).

Definition TryAcquire (now : Z) (op : list Z) : M t bool :=
  if decide (op = kOrderOp) then
    zoom order_limiter_ (λ l s, Mk l (cancel_limiter_ s) (amend_limiter_ s))
      (SlidingWindowLimiter.TryAcquire now)
  else if decide (op = kCancelOrderOp) then
    zoom cancel_limiter_ (λ l s, Mk (order_limiter_ s) l (amend_limiter_ s))
      (SlidingWindowLimiter.TryAcquire now)
  else if decide (op = kAmendOrderOp) then
    zoom amend_limiter_ (λ l s, Mk (order_limiter_ s) (cancel_limiter_ s) l)
      (SlidingWindowLimiter.TryAcquire now)
  else throwM (invalid_argument "Unknown rate-limited op: {}" [op]).
End EndpointRateLimiter.

(** ** Properties *)

(** C5. At times that do not run backwards, [TryAcquire] accepts a call
    exactly when fewer than [capacity] calls were accepted in the window that
    ends with it, over the whole history, and no ring index leaves the array;
    so no stretch of time as long as the window, wherever it starts, holds
    more than [capacity] accepted calls. *)
Theorem limiter_correct (capacity : nat) (window : Z) (times : list Z) :
  (0 ≤ window)%Z → StronglySorted Z.le times →
  ∃ s accepted, SlidingWindowLimiter.run times (SlidingWindowLimiter.make capacity window) =
      (Ok <$> (SlidingWindowLimiter.ref_run capacity window times []).1, s) ∧
    accepted = (SlidingWindowLimiter.ref_run capacity window times []).2 ∧
    ∀ T, length (filter (λ x, T - window ≤ x ≤ T)%Z accepted) ≤ capacity.
Proof.
  intros Hw Hs. destruct times as [|now times].
  { exists (SlidingWindowLimiter.make capacity window), []. split; [done|]. split; [done|].
    intros T. simpl. lia. }
  assert (StronglySorted Z.le (now :: now :: times)) as Hs'.
  { constructor; [done|]. constructor; [done|]. by apply StronglySorted_inv in Hs as [_ ?]. }
  destruct (SlidingWindowLimiter.run_linked (now :: times)
    (SlidingWindowLimiter.make capacity window) now []) as (s & Hrun).
  - exists [], []. split; [done|]. split; [apply SlidingWindowLimiter.held_make|].
    split; [constructor|repeat constructor].
  - exact Hs'.
  - exists s, (SlidingWindowLimiter.ref_run capacity window (now :: times) []).2.
    split; [exact Hrun|]. split; [done|].
    apply (SlidingWindowLimiter.ref_run_bounded capacity window (now :: times) [] now Hw);
      [|constructor|exact Hs']. intros T. simpl. unfold SlidingWindowLimiter.between. simpl. lia.
Qed.

Lemma limiter_correct_witness :
  ∃ s accepted, SlidingWindowLimiter.run [0; 1; 2; 11; 12; 13]%Z (SlidingWindowLimiter.make 2 10) =
      (Ok <$> [true; true; false; true; true; false], s) ∧
    accepted = [0; 1; 11; 12]%Z ∧
    ∀ T, length (filter (λ x, T - 10 ≤ x ≤ T)%Z accepted) ≤ 2.
Proof.
  apply (limiter_correct 2 10 [0; 1; 2; 11; 12; 13]%Z ltac:(lia)).
  repeat (constructor; [|repeat (constructor; [lia|]); constructor]). constructor.
Defined.

(** The three kinds of requests are limited apart: a call for one kind
    behaves as its own limiter and leaves the other two untouched; any other
    operation name throws and changes nothing. *)
Theorem endpoint_limits_independent (now : Z) (op : list Z) (s : EndpointRateLimiter.t) :
  let '(r, s') := EndpointRateLimiter.TryAcquire now op s in
  if decide (op = kOrderOp) then
    (r, EndpointRateLimiter.order_limiter_ s') =
      SlidingWindowLimiter.TryAcquire now (EndpointRateLimiter.order_limiter_ s) ∧
    EndpointRateLimiter.cancel_limiter_ s' = EndpointRateLimiter.cancel_limiter_ s ∧
    EndpointRateLimiter.amend_limiter_ s' = EndpointRateLimiter.amend_limiter_ s
  else if decide (op = kCancelOrderOp) then
    (r, EndpointRateLimiter.cancel_limiter_ s') =
      SlidingWindowLimiter.TryAcquire now (EndpointRateLimiter.cancel_limiter_ s) ∧
    EndpointRateLimiter.order_limiter_ s' = EndpointRateLimiter.order_limiter_ s ∧
    EndpointRateLimiter.amend_limiter_ s' = EndpointRateLimiter.amend_limiter_ s
  else if decide (op = kAmendOrderOp) then
    (r, EndpointRateLimiter.amend_limiter_ s') =
      SlidingWindowLimiter.TryAcquire now (EndpointRateLimiter.amend_limiter_ s) ∧
    EndpointRateLimiter.order_limiter_ s' = EndpointRateLimiter.order_limiter_ s ∧
    EndpointRateLimiter.cancel_limiter_ s' = EndpointRateLimiter.cancel_limiter_ s
  else s' = s ∧ ∃ e, r = Stop (Exn e).
Proof.
  unfold EndpointRateLimiter.TryAcquire, zoom, throwM. repeat case_decide;
    try (by destruct (SlidingWindowLimiter.TryAcquire now _) as [r l]).
  split; [done|]. by eexists.
Qed.
