(* ===== verification/Risk.v ===== *)
(** * Risk: okx/risk/position.*, risk.*, kill_switch.*, account_state.*

    The position tracker is written once over the arithmetic it uses: at
    [double] it is the C++ code, at the rationals it is the same algorithm
    without rounding, for which the accounting identities hold exactly. *)

From Stdlib Require Import SpecFloat QArith Lqa Qfield.
From S2P Require Import Prelude Float64 Json Okx OrderLifecycle OrderStore World OrderEntry.

(** ** Arithmetic *)
Class Num (T : Type) := {
  nzero : T; nadd : T → T → T; nsub : T → T → T; nmul : T → T → T; ndiv : T → T → T;
  nneg : T → T; nabs : T → T; nlt : T → T → bool; neqb : T → T → bool }.
#[export] Instance double_num : Num double := {
  nzero := fzero; nadd := fadd; nsub := fsub; nmul := fmul; ndiv := fdiv; nneg := fneg;
  nabs := fabs; nlt := flt; neqb := feq }.
#[export] Instance Q_num : Num Q := {
  nzero := 0%Q; nadd := Qplus; nsub := Qminus; nmul := Qmult; ndiv := Qdiv; nneg := Qopp;
  nabs := λ x, if Qle_bool 0 x then x else Qopp x;
  nlt := λ x y, negb (Qle_bool y x); neqb := Qeq_bool }.

Module Position.
Section position.
Context {T : Type} `{!Num T}.

Record t := Mk { net_qty_ : T; avg_entry_px_ : T; realized_pnl_ : T }.
Definition flat : t := Mk nzero nzero nzero.

(** [std::min]. *)
Definition nmin (a b : T) : T := if nlt b a then b else a.

Definition ApplyFill (side : list Z) (fill_px fill_sz : T) (p : t) : t :=
  let signed_qty := if decide (side = kBuy) then fill_sz else nneg fill_sz in
  if neqb (net_qty_ p) nzero || eqb (nlt nzero (net_qty_ p)) (nlt nzero signed_qty) then
    let new_qty := nadd (net_qty_ p) signed_qty in
    Mk new_qty
       (ndiv (nadd (nmul (nabs (net_qty_ p)) (avg_entry_px_ p)) (nmul fill_sz fill_px))
             (nabs new_qty))
       (realized_pnl_ p)
  else
    let closing_qty := nmin fill_sz (nabs (net_qty_ p)) in
    let pnl_per_unit :=
      if nlt nzero (net_qty_ p) then nsub fill_px (avg_entry_px_ p)
      else nsub (avg_entry_px_ p) fill_px in
    let realized := nadd (realized_pnl_ p) (nmul pnl_per_unit closing_qty) in
    let new_qty := nadd (net_qty_ p) signed_qty in
    let avg :=
      if neqb new_qty nzero then nzero
      else if negb (eqb (nlt nzero new_qty) (nlt nzero (net_qty_ p))) then fill_px
      else avg_entry_px_ p in
    Mk new_qty avg realized.

Definition NetQty (p : t) : T := net_qty_ p.
Definition AvgEntryPx (p : t) : T := avg_entry_px_ p.
Definition RealizedPnl (p : t) : T := realized_pnl_ p.
Definition UnrealizedPnl (mark_px : T) (p : t) : T :=
  nmul (net_qty_ p) (nsub mark_px (avg_entry_px_ p)).
End position.
Arguments t : clear implicits.

(** ** Exact accounting *)
Open Scope Q_scope.
Definition signed (side : list Z) (sz : Q) : Q := if decide (side = kBuy) then sz else - sz.
Definition equity (mark : Q) (p : t Q) : Q := RealizedPnl p + UnrealizedPnl mark p.

Lemma Qlt_bool_spec x y : reflect (x < y) (nlt x y).
Proof.
  simpl. destruct (Qle_bool y x) eqn:E; constructor.
  - apply Qle_bool_iff in E. lra.
  - assert (¬ y <= x) by (rewrite <-Qle_bool_iff; congruence). lra.
Qed.
Lemma Qeq_bool_spec (x y : Q) : reflect (x == y) (neqb x y).
Proof.
  simpl. destruct (Qeq_bool x y) eqn:E; constructor.
  - by apply Qeq_bool_iff.
  - intros H. apply Qeq_bool_iff in H. congruence.
Qed.
Lemma Qabs_spec (x : Q) : (0 <= x ∧ nabs x = x) ∨ (x < 0 ∧ nabs x = - x).
Proof.
  simpl. destruct (Qle_bool 0 x) eqn:E; [left|right]; (split; [|done]).
  - by apply Qle_bool_iff.
  - assert (¬ 0 <= x) by (rewrite <-Qle_bool_iff; congruence). lra.
Qed.

(** Adding to a position keeps the cost basis. *)
Lemma adding net avg real px sz q mark :
  0 < sz → q == sz ∧ 0 <= net ∨ q == - sz ∧ net <= 0 →
  nadd net q == net + q ∧
  real + nadd net q * (mark - (nabs net * avg + sz * px) / nabs (nadd net q)) ==
  real + net * (mark - avg) + q * (mark - px).
Proof.
  intros Hsz Hq. change (nadd net q) with (net + q). split; [lra|].
  destruct Hq as [[Hq Hn]|[Hq Hn]].
  - assert (nabs net == net) as -> by (destruct (Qabs_spec net) as [[_ ->]|[? ->]]; lra).
    assert (nabs (net + q) == net + q) as -> by (destruct (Qabs_spec (net + q)) as [[_ ->]|[? ->]]; lra).
    rewrite Hq. field. lra.
  - assert (nabs net == - net) as -> by (destruct (Qabs_spec net) as [[? ->]|[_ ->]]; lra).
    assert (nabs (net + q) == - (net + q)) as ->
      by (destruct (Qabs_spec (net + q)) as [[? ->]|[_ ->]]; lra).
    rewrite Hq. field. lra.
Qed.

(** Reducing it realises the difference on what is closed; what is left over
    opens a position at the price of the fill. *)
Lemma closing net avg real px sz q mark :
  0 < sz → ¬ net == 0 → q == - sz ∧ 0 < net ∨ q == sz ∧ net < 0 →
  let new := nadd net q in
  let avg' := if neqb new 0 then 0
    else if negb (eqb (nlt 0 new) (nlt 0 net)) then px else avg in
  new == net + q ∧
  nadd real (nmul (if nlt 0 net then nsub px avg else nsub avg px) (nmin sz (nabs net))) +
    new * (mark - avg') ==
  real + net * (mark - avg) + q * (mark - px).
Proof.
  intros Hsz Hz Hq. cbv zeta. change (nadd net q) with (net + q). split; [lra|].
  change (nadd real (nmul ?a ?b)) with (real + a * b). change (nsub ?a ?b) with (a - b).
  unfold nmin. destruct Hq as [[Hq Hn]|[Hq Hn]].
  - destruct (Qlt_bool_spec 0 net) as [_|]; [|lra].
    assert (nabs net = net) as -> by (destruct (Qabs_spec net) as [[_ ->]|[? ->]]; [done|lra]).
    destruct (Qeq_bool_spec (net + q) 0) as [He|He]; destruct (Qlt_bool_spec net sz) as [Hc|Hc];
      try (exfalso; lra).
    + assert (net == sz) as Hns by lra. rewrite Hq, Hns. ring.
    + destruct (Qlt_bool_spec 0 (net + q)); cbn [eqb negb]; [exfalso; lra|]. ring.
    + destruct (Qlt_bool_spec 0 (net + q)); cbn [eqb negb]; [|exfalso; lra]. rewrite Hq. ring.
  - destruct (Qlt_bool_spec 0 net) as [|_]; [lra|].
    assert (nabs net = - net) as -> by (destruct (Qabs_spec net) as [[? ->]|[_ ->]]; [lra|done]).
    destruct (Qeq_bool_spec (net + q) 0) as [He|He]; destruct (Qlt_bool_spec (- net) sz) as [Hc|Hc];
      try (exfalso; lra).
    + assert (net == - sz) as Hns by lra. rewrite Hq, Hns. ring.
    + destruct (Qlt_bool_spec 0 (net + q)); cbn [eqb negb]; [|exfalso; lra]. ring.
    + destruct (Qlt_bool_spec 0 (net + q)); cbn [eqb negb]; [exfalso; lra|]. rewrite Hq. ring.
Qed.

Lemma ApplyFill_exact side px sz mark (p : t Q) :
  0 < sz →
  let p' := ApplyFill side px sz p in
  net_qty_ p' == net_qty_ p + signed side sz ∧
  equity mark p' == equity mark p + signed side sz * (mark - px).
Proof.
  intros Hsz. destruct p as [net avg real]. cbv zeta.
  unfold ApplyFill, equity, RealizedPnl, UnrealizedPnl. cbn [net_qty_ avg_entry_px_ realized_pnl_].
  fold (signed side sz).
  change (if decide (side = kBuy) then sz else nneg sz) with (signed side sz).
  assert (signed side sz = sz ∨ signed side sz = - sz) as Hsg
    by (unfold signed; case_decide; auto).
  set (q := signed side sz) in *. clearbody q.
  change (@nzero Q Q_num) with 0.
  destruct (neqb net 0 || eqb (nlt 0 net) (nlt 0 q)) eqn:Eadd; cbn [net_qty_ avg_entry_px_ realized_pnl_].
  - apply adding; [done|]. apply orb_true_iff in Eadd as [Ez|Es].
    + destruct (Qeq_bool_spec net 0) as [Hz|]; [|done].
      destruct Hsg as [-> | ->]; lra.
    + destruct (Qlt_bool_spec 0 net) as [Hn|Hn], (Qlt_bool_spec 0 q) as [Hq|Hq]; try done;
        destruct Hsg as [-> | ->]; lra.
  - apply orb_false_iff in Eadd as [Ez Es].
    destruct (Qeq_bool_spec net 0) as [|Hz]; [done|].
    apply closing; [done|done|].
    destruct (Qlt_bool_spec 0 net) as [Hn|Hn], (Qlt_bool_spec 0 q) as [Hq|Hq]; try done;
      destruct Hsg as [-> | ->]; lra.
Qed.
End Position.

(** ** Pre-trade checks *)
Record RiskLimits := MkLimits {
  max_order_sz : double; max_notional : double; price_collar_pct : double; max_open_orders : nat }.

(** The reason of a rejection, with the numbers that are formatted into it. *)
Inductive RiskReason :=
  | SizeExceeds (sz max : double)
  | NotionalExceeds (notional max : double)
  | OutsideCollar (px deviation ref_px collar : double)
  | TooManyOrders (open limit : nat).
Inductive RiskCheckResult := passed | failed (reason : RiskReason).

Definition CheckPreTradeRisk (limits : RiskLimits) (request : OrderRequest) (store : OrderStore.t)
    (maybe_reference_px : option double) : result RiskCheckResult :=
  sz ← json.ParseDouble (sv_of (rq_sz request));
  px ← json.ParseDouble (sv_of (rq_px request));
  if fgt sz (max_order_sz limits) then Ok (failed (SizeExceeds sz (max_order_sz limits)))
  else
    let notional := fmul sz px in
    if fgt notional (max_notional limits)
    then Ok (failed (NotionalExceeds notional (max_notional limits)))
    else
      let collar :=
        match maybe_reference_px with
        | None => None
        | Some ref_px =>
            let deviation := fdiv (fabs (fsub px ref_px)) ref_px in
            if fgt deviation (price_collar_pct limits)
            then Some (OutsideCollar px deviation ref_px (price_collar_pct limits)) else None
        end in
      match collar with
      | Some reason => Ok (failed reason)
      | None =>
          if max_open_orders limits <=? OrderStore.Size store
          then Ok (failed (TooManyOrders (OrderStore.Size store) (max_open_orders limits)))
          else Ok passed
      end.

(** ** The kill switch *)
Module KillSwitch.
Record t := Mk { triggered_ : bool }.
Definition initial : t := Mk false.
Definition IsTriggered (k : t) : bool := triggered_ k.

(** The callback that collects what can be canceled. *)
Definition collect (o : Order.t) : M (list (list Z * list Z)) unit :=
  if decide (Order.ord_id_ o = []) then mret tt
  else modify (λ l, l ++ [(Order.inst_id_ o, Order.ord_id_ o)]).

(** The REST cancellations, one after the other. *)
Fixpoint cancel_all {W} `{!World W} (rest : RestClient) (auth : OkxAuth)
    (to_cancel : list (list Z * list Z)) : M W unit :=
  match to_cancel with
  | [] => mret tt
  | (inst_id, ord_id) :: to_cancel' =>
      _ ← CancelOrder rest auth inst_id ord_id; cancel_all rest auth to_cancel'
  end.

Definition Trigger {W} `{!World W} (rest : RestClient) (auth : OkxAuth) (store : OrderStore.t)
    : M (t * W) unit :=
  st ← get;
  if triggered_ st.1 then mret tt
  else
    _ ← put (Mk true, st.2);
    let '(r, to_cancel) := OrderStore.ForEach collect store [] in
    _ ← lift r;
    zoom snd (λ w st, (st.1, w)) (cancel_all rest auth to_cancel).

Lemma visit_collect os l :
  json.visit collect os l =
    (Ok tt, l ++ ((λ o, (Order.inst_id_ o, Order.ord_id_ o)) <$>
      filter (λ o, Order.ord_id_ o ≠ []) os)).
Proof.
  revert l. induction os as [|o os IH]; intros l; [by rewrite app_nil_r|].
  cbn [json.visit]. unfold mbind, M_bind, collect at 1. case_decide as Ho.
  - rewrite filter_cons_False by (intros H; by apply H). apply IH.
  - rewrite filter_cons_True by done. unfold modify. rewrite IH, <-app_assoc. done.
Qed.
(** A request that cancels an order, and verifies. *)
Definition cancels {W} `{!World W} (rest : RestClient) (auth : OkxAuth) (o : CurlOptions)
    (x : list Z * list Z) : Prop :=
  verifies rest auth o ∧ curl_url o = base_url_ rest ++ kCancelOrderPath ∧
  curl_post o = Some (cancel_body x.1 x.2).
(** How far the cancellations [l] have come when they end with [r] in [s]:
    all have been requested, or one has thrown. *)
Definition cancelled {W} `{!World W} rest auth (l : list (list Z * list Z)) (made : nat) (r : result unit) (s : W) : Prop :=
  match r with
  | Ok _ => made = length l
  | Stop x => ∃ i inst ord s0, l !! i = Some (inst, ord) ∧ i ≤ made ≤ S i ∧
      CancelOrder rest auth inst ord s0 = (Stop x, s)
  end.
Lemma cancel_all_made {W} {wo : World W} rest auth l (w : W) log r w' log' :
  let _ := recording wo in
  cancel_all rest auth l (w, log) = (r, (w', log')) →
  ∃ new, log' = log ++ new ∧ Forall2 (cancels rest auth) new (take (length new) l) ∧
    cancelled rest auth l (length new) r (w', log').
Proof.
  intros wr. revert w log. induction l as [|[inst ord] l IH]; intros w log.
  { intros [= <- <- <-]. exists []. rewrite app_nil_r. by split; [|split; [constructor|]]. }
  cbn [cancel_all]. unfold mbind, M_bind.
  destruct (CancelOrder rest auth inst ord (w, log)) as [r1 [w1 log1]] eqn:E1.
  destruct (signed_call rest auth kPost kCancelOrderPath (Some (cancel_body inst ord))
    ParseOrderResult w log r1 w1 log1 eq_refl E1) as (n1 & -> & Hlen & Hall & Hone).
  assert (Forall2 (cancels rest auth) n1 (take (length n1) ((inst, ord) :: l))) as Hn1.
  { destruct n1 as [|o [|? ?]]; [constructor| |simpl in Hlen; lia].
    apply Forall_cons in Hall as [? _]. simpl. rewrite take_0. constructor; [done|apply Forall2_nil_2]. }
  destruct r1 as [a|x]; intros E.
  - destruct (IH _ _ E) as (n2 & -> & Hn2 & Hr). exists (n1 ++ n2).
    destruct n1 as [|o [|? ?]]; [by specialize (Hone ltac:(by eexists))| |simpl in Hlen; lia].
    apply Forall2_cons_1 in Hn1 as [Ho _]. split; [by rewrite <-app_assoc|].
    split; [by constructor|]. destruct r as [|x]; cbn [cancelled app length] in *; [by f_equal|].
    destruct Hr as (i & y & z & s0 & Hi & Hm & Hs0). exists (S i), y, z, s0. split; [done|]. split; [lia|done].
  - injection E as <- <- <-. exists n1. split; [done|]. split; [done|].
    exists 0, inst, ord, (w, log). split; [done|]. split; [lia|done].
Qed.
End KillSwitch.

(** ** Balances *)
Module AccountState.
Record Balance := MkBalance { ccy : list Z; cash_bal : double; avail_bal : double }.
Definition no_balance : Balance := MkBalance [] fzero fzero.
Definition kCapacity : nat := 16.
Record t := Mk { balances_ : list Balance; count_ : nat }.
Definition initial : t := Mk (replicate kCapacity no_balance) 0.

(** The first of the [n] entries from [i] on that holds the currency. *)
Fixpoint find_ccy (n i : nat) (c : list Z) (s : t) : result (option nat) :=
  match n with
  | O => Ok None
  | S n' =>
      b ← aget (balances_ s) i;
      if decide (ccy b = c) then Ok (Some i) else find_ccy n' (S i) c s
  end.

Definition update (i : nat) (f : Balance → Balance) : M t unit := λ s,
  match b ← aget (balances_ s) i; aset (balances_ s) i (f b) with
  | Ok l => (Ok tt, Mk l (count_ s))
  | Stop x => (Stop x, s)
  end.

(** The callback on one detail of the message. *)
Definition apply_detail (detail : string_view) : M t unit :=
  match json.FindString detail kCcy, json.FindString detail kCashBal,
        json.FindString detail kAvailBal with
  | Some c, Some cash, Some avail =>
      s ← get;
      r ← lift (find_ccy (count_ s) 0 (sv_text c) s);
      match r with
      | Some i =>
          x ← lift (json.ParseDouble cash);
          _ ← update i (λ b, MkBalance (ccy b) x (avail_bal b));
          y ← lift (json.ParseDouble avail);
          update i (λ b, MkBalance (ccy b) (cash_bal b) y)
      | None =>
          if count_ s <? kCapacity then
            x ← lift (json.ParseDouble cash);
            y ← lift (json.ParseDouble avail);
            l ← lift (aset (balances_ s) (count_ s) (MkBalance (sv_text c) x y));
            put (Mk l (count_ s + 1))
          else mret tt
      end
  | _, _, _ => throwM (runtime_error "Malformed account channel detail: {}" [sv_text detail])
  end.

Definition ApplyMessage (message : string_view) : M t unit :=
  if negb (opt_eqb (json.FindString message kChannel) kAccountChannel) then mret tt
  else match FindData message with
       | None => mret tt
       | Some data => json.ForEachArrayElement data kDetails apply_detail
       end.

Definition GetBalance (c : list Z) (s : t) : result (option Balance) :=
  r ← find_ccy (count_ s) 0 c s;
  match r with None => Ok None | Some i => Some <$> aget (balances_ s) i end.

Fixpoint ForEachBalance_loop {X} (n i : nat) (action : Balance → M X unit) (s : t) : M X unit :=
  match n with
  | O => mret tt
  | S n' => b ← lift (aget (balances_ s) i); _ ← action b; ForEachBalance_loop n' (S i) action s
  end.
Definition ForEachBalance {X} (action : Balance → M X unit) (s : t) : M X unit :=
  ForEachBalance_loop (count_ s) 0 action s.

(** ** What it holds: one balance per currency *)
Definition holds (s : t) (bs : list Balance) : Prop :=
  length (balances_ s) = kCapacity ∧ count_ s = length bs ∧ length bs ≤ kCapacity ∧
  take (length bs) (balances_ s) = bs ∧ NoDup (ccy <$> bs).
Definition lookup_ccy (c : list Z) (bs : list Balance) : option Balance :=
  List.find (λ b, bool_decide (ccy b = c)) bs.

(** The same update on a list. *)
Fixpoint replace (b : Balance) (bs : list Balance) : option (list Balance) :=
  match bs with
  | [] => None
  | x :: bs' => if decide (ccy x = ccy b) then Some (b :: bs') else cons x <$> replace b bs'
  end.
Definition record (b : Balance) (bs : list Balance) : list Balance :=
  match replace b bs with
  | Some bs' => bs'
  | None => if length bs <? kCapacity then bs ++ [b] else bs
  end.

Lemma holds_lookup s bs i b : holds s bs → bs !! i = Some b → balances_ s !! i = Some b.
Proof.
  intros (_ & _ & _ & Ht & _) Hi. pose proof (lookup_lt_Some _ _ _ Hi) as Hlt.
  rewrite <-Ht in Hi. by rewrite lookup_take_lt in Hi.
Qed.

Lemma find_ccy_spec s bs c :
  holds s bs →
  ∃ r, find_ccy (count_ s) 0 c s = Ok r ∧
    match r with
    | Some i => ∃ b, bs !! i = Some b ∧ ccy b = c ∧ lookup_ccy c bs = Some b ∧
        ∀ b', ccy b' = c → replace b' bs = Some (<[i := b']> bs)
    | None => lookup_ccy c bs = None ∧ (∀ b', ccy b' = c → replace b' bs = None) ∧
        c ∉ ccy <$> bs
    end.
Proof.
  intros Hh. pose proof Hh as (_ & -> & _).
  assert (∀ l p, bs = p ++ l → ∃ r, find_ccy (length l) (length p) c s = Ok r ∧
    match r with
    | Some i => ∃ j b, i = length p + j ∧ l !! j = Some b ∧ ccy b = c ∧ lookup_ccy c l = Some b ∧
        ∀ b', ccy b' = c → replace b' l = Some (<[j := b']> l)
    | None => lookup_ccy c l = None ∧ (∀ b', ccy b' = c → replace b' l = None) ∧ c ∉ ccy <$> l
    end) as Hloop.
  { induction l as [|x l IH]; intros p Hp; cbn [find_ccy length].
    - exists None. split; [done|]. split; [done|]. split; [done|]. apply not_elem_of_nil.
    - rewrite (aget_Some _ _ x); [|apply (holds_lookup _ _ _ _ Hh); by rewrite Hp, list_lookup_middle].
      cbn [mbind result_bind]. case_decide as Hx.
      + exists (Some (length p)). split; [done|]. exists 0, x. rewrite Nat.add_0_r.
        split; [done|]. split; [done|]. split; [done|]. split.
        * unfold lookup_ccy. simpl. by rewrite bool_decide_true.
        * intros b' Hb'. simpl. rewrite decide_True by congruence. done.
      + destruct (IH (p ++ [x])) as (r & Hr & Hspec); [by rewrite Hp, <-app_assoc|].
        rewrite length_app, Nat.add_1_r in Hr. exists r. split; [done|].
        unfold lookup_ccy. simpl. rewrite bool_decide_false by done.
        destruct r as [i|].
        * destruct Hspec as (j & b & -> & Hj & Hb & Hl & Hrep). exists (S j), b.
          rewrite length_app. split; [simpl; lia|]. split; [done|]. split; [done|]. split; [done|].
          intros b' Hb'. rewrite decide_False by congruence. by rewrite Hrep.
        * destruct Hspec as (Hl & Hrep & Hnin). split; [done|]. split.
          -- intros b' Hb'. rewrite decide_False by congruence. by rewrite Hrep.
          -- apply not_elem_of_cons. split; [congruence|done]. }
  destruct (Hloop bs [] eq_refl) as (r & Hr & Hspec). exists r. split; [done|].
  destruct r as [i|]; [|done]. destruct Hspec as (j & b & -> & Hrest). simpl. by exists b.
Qed.

Lemma GetBalance_spec s bs c : holds s bs → GetBalance c s = Ok (lookup_ccy c bs).
Proof.
  intros Hh. unfold GetBalance. destruct (find_ccy_spec s bs c Hh) as (r & -> & Hr).
  cbn [mbind result_bind]. destruct r as [i|].
  - destruct Hr as (b & Hi & _ & -> & _). by rewrite (aget_Some _ _ b) by (by eapply holds_lookup).
  - by destruct Hr as [-> _].
Qed.

Lemma apply_detail_spec s bs detail c cash avail x y :
  holds s bs →
  json.FindString detail kCcy = Some c → json.FindString detail kCashBal = Some cash →
  json.FindString detail kAvailBal = Some avail →
  json.ParseDouble cash = Ok x → json.ParseDouble avail = Ok y →
  ∃ s', apply_detail detail s = (Ok tt, s') ∧ holds s' (record (MkBalance (sv_text c) x y) bs).
Proof.
  intros Hh Hc Hcash Havail Hx Hy. unfold apply_detail. rewrite Hc, Hcash, Havail, Hx, Hy.
  unfold mbind, M_bind, get, lift. destruct (find_ccy_spec s bs (sv_text c) Hh) as (r & -> & Hr).
  pose proof Hh as (Hlen & Hcount & Hle & Htake & Hnd). unfold record. destruct r as [i|].
  - destruct Hr as (b & Hi & Hb & _ & Hrep). rewrite Hrep by done.
    pose proof (lookup_lt_Some _ _ _ Hi) as Hil. pose proof (holds_lookup _ _ _ _ Hh Hi) as Hget.
    unfold update. rewrite (aget_Some _ _ b Hget). cbn [mbind result_bind]. rewrite aset_lt by lia.
    cbn [balances_ count_]. rewrite (aget_Some _ _ (MkBalance (ccy b) x (avail_bal b)))
      by (apply list_lookup_insert_eq; lia).
    cbn [mbind result_bind]. rewrite aset_lt by (rewrite length_insert; lia).
    eexists. split; [done|]. cbn [ccy cash_bal]. rewrite list_insert_insert_eq, Hb.
    split_and!; cbn [balances_ count_].
    + by rewrite length_insert.
    + by rewrite length_insert.
    + by rewrite length_insert.
    + rewrite length_insert. rewrite <-Htake at 2. list_lookup_solve.
    + rewrite list_fmap_insert. simpl. rewrite list_insert_id; [done|].
      rewrite list_lookup_fmap, Hi. simpl. by f_equal.
  - destruct Hr as (_ & Hrep & Hnin). rewrite Hrep, Hcount by done.
    destruct (Nat.ltb_spec (length bs) kCapacity) as [Hlt|Hge]; [|by exists s].
    rewrite aset_lt by lia. eexists. split; [done|].
    split_and!; cbn [balances_ count_]; rewrite ?length_app; cbn [length].
    + by rewrite length_insert.
    + lia.
    + lia.
    + rewrite <-Htake at 3. list_lookup_solve.
    + rewrite fmap_app. apply NoDup_app. split; [done|]. split; [|apply NoDup_singleton].
      intros k Hk ->%list_elem_of_singleton. done.
Qed.

Lemma holds_initial : holds initial [].
Proof. split_and!; [done|done|simpl; lia|done|constructor]. Qed.

(** Looking up after [record]. *)
Lemma lookup_replace b bs bs' k :
  replace b bs = Some bs' →
  lookup_ccy k bs' = (if decide (k = ccy b) then Some b else lookup_ccy k bs) ∧
  is_Some (lookup_ccy (ccy b) bs).
Proof.
  revert bs'. induction bs as [|x bs IH]; intros bs'; simpl; [done|].
  destruct (decide (ccy x = ccy b)) as [Hx|Hx].
  - intros [= <-]. unfold lookup_ccy. simpl. split.
    + case_decide as Hk; [by rewrite bool_decide_true|].
      rewrite !bool_decide_false by congruence. done.
    + rewrite bool_decide_true by done. by eexists.
  - destruct (replace b bs) as [l|]; [|done]. intros [= <-]. destruct (IH l eq_refl) as [IH1 IH2].
    unfold lookup_ccy in *. simpl. rewrite (bool_decide_false (ccy x = ccy b)) by done. split; [|done].
    case_bool_decide as Hk; [|done]. by rewrite decide_False by congruence.
Qed.
Lemma lookup_absent b bs : replace b bs = None → lookup_ccy (ccy b) bs = None.
Proof.
  induction bs as [|x bs IH]; simpl; [done|]. case_decide; [done|].
  destruct (replace b bs); [done|]. intros _. unfold lookup_ccy. simpl.
  rewrite bool_decide_false by done. by apply IH.
Qed.
Lemma lookup_app k bs b :
  lookup_ccy k (bs ++ [b]) =
    match lookup_ccy k bs with
    | Some x => Some x | None => if decide (ccy b = k) then Some b else None end.
Proof.
  unfold lookup_ccy. induction bs as [|x bs IH]; simpl.
  - by case_bool_decide; case_decide.
  - by case_bool_decide.
Qed.
Lemma lookup_record c x y bs k :
  lookup_ccy k (record (MkBalance c x y) bs) =
    if decide (k = c ∧ (is_Some (lookup_ccy k bs) ∨ length bs < kCapacity))
    then Some (MkBalance k x y) else lookup_ccy k bs.
Proof.
  unfold record. destruct (replace (MkBalance c x y) bs) as [bs'|] eqn:E.
  - destruct (lookup_replace _ _ _ k E) as [-> Hs]. simpl in *.
    destruct (decide (k = c)) as [->|Hne].
    + rewrite decide_True by auto. done.
    + rewrite decide_False by naive_solver. done.
  - apply lookup_absent in E. simpl in E.
    destruct (Nat.ltb_spec (length bs) kCapacity).
    + rewrite lookup_app. cbn [ccy]. destruct (decide (k = c)) as [->|Hne].
      * by rewrite E, !decide_True by auto.
      * rewrite !(decide_False (P := _ ∧ _)) by naive_solver.
        destruct (lookup_ccy k bs); [done|]. by rewrite decide_False by congruence.
    + rewrite decide_False; [done|]. intros [-> [[? Hs]|?]]; [congruence|lia].
Qed.
End AccountState.

(** ** Properties *)

(** Fills one after the other: side, price, size. *)
Definition fills {T} `{!Num T} (l : list (list Z * T * T)) (p : Position.t T) : Position.t T :=
  foldl (λ p '(side, px, sz), Position.ApplyFill side px sz p) p l.
(** What the account has traded: quantity, and value at a mark. *)
Definition traded_qty (l : list (list Z * Q * Q)) : Q :=
  foldr (λ '(side, _, sz) acc, Position.signed side sz + acc)%Q 0%Q l.
Definition traded_value (mark : Q) (l : list (list Z * Q * Q)) : Q :=
  foldr (λ '(side, px, sz) acc, Position.signed side sz * (mark - px) + acc)%Q 0%Q l.

Lemma fills_exact l mark (p : Position.t Q) :
  Forall (λ x, 0 < x.2)%Q l →
  (Position.net_qty_ (fills l p) == Position.net_qty_ p + traded_qty l)%Q ∧
  (Position.equity mark (fills l p) == Position.equity mark p + traded_value mark l)%Q.
Proof.
  intros Hl. revert p. induction Hl as [|[[side px] sz] l Hsz _ IH]; intros p.
  { simpl. split; ring. }
  cbn [fills foldl]. specialize (IH (Position.ApplyFill side px sz p)). unfold fills in IH.
  destruct IH as [IH1 IH2].
  destruct (Position.ApplyFill_exact side px sz mark p Hsz) as [H1 H2].
  rewrite IH1, IH2, H1, H2. unfold traded_qty, traded_value. cbn [foldr]. split; ring.
Qed.

(** C35. The position tracker keeps exact books, rounding apart: after any
    sequence of fills of positive size the net quantity is the sum of the
    signed sizes, and for every mark price realised and unrealised profit
    together are what the fills have gained at that price; fills that add,
    reduce, close and turn the position over are all covered. *)
Theorem position_accounting (l : list (list Z * Q * Q)) (mark : Q) :
  Forall (λ x, 0 < x.2)%Q l →
  let p := fills l Position.flat in
  (Position.NetQty p == traded_qty l)%Q ∧
  (Position.RealizedPnl p + Position.UnrealizedPnl mark p == traded_value mark l)%Q.
Proof.
  intros Hl p. destruct (fills_exact l mark Position.flat Hl) as [H1 H2].
  unfold p, Position.NetQty. rewrite H1. split; [simpl; ring|].
  etrans; [exact H2|]. unfold Position.equity, Position.UnrealizedPnl, Position.RealizedPnl. simpl. ring.
Qed.

Definition sample_fills : list (list Z * Q * Q) :=
  [(kBuy, 10, 2); (kBuy, 13, 1); (kSell, 15, 5); (kBuy, 14, 2)]%Q.
Lemma position_accounting_witness :
  let p := fills sample_fills Position.flat in
  (Position.NetQty p == 0)%Q ∧
  (Position.RealizedPnl p + Position.UnrealizedPnl 20 p == 14)%Q.
Proof.
  exact (position_accounting sample_fills 20%Q ltac:(repeat (constructor; [reflexivity|]); constructor)).
Defined.

(** The pre-trade check is exact on numbers (nothing read or computed is
    NaN): it answers, and it passes a request if and only if the request
    respects every limit: its size, its notional, its relative distance from
    the reference price if there is one, and the number of open orders. *)
Theorem risk_check_exact limits request store ref sz px :
  strtod (rq_sz request) = Some sz → strtod (rq_px request) = Some px →
  Forall (λ x, is_nan x = false)
    [sz; fmul sz px; max_order_sz limits; max_notional limits; price_collar_pct limits] →
  (∀ r, ref = Some r → is_nan (fdiv (fabs (fsub px r)) r) = false) →
  ∃ answer, CheckPreTradeRisk limits request store ref = Ok answer ∧
  (answer = passed ↔
    fle sz (max_order_sz limits) = true ∧ fle (fmul sz px) (max_notional limits) = true ∧
    (∀ r, ref = Some r → fle (fdiv (fabs (fsub px r)) r) (price_collar_pct limits) = true) ∧
    OrderStore.Size store < max_open_orders limits).
Proof.
  intros Es Ep Hn Href. rewrite !Forall_cons in Hn. destruct Hn as (N1 & N2 & N3 & N4 & N5 & _).
  unfold CheckPreTradeRisk, json.ParseDouble, sv_of. cbn [sv_mem]. rewrite Es, Ep.
  cbn [mbind result_bind]. rewrite !fgt_negb_fle by done.
  destruct (fle sz _); [|eexists; split; [done|naive_solver]].
  destruct (fle (fmul sz px) _); [|eexists; split; [done|naive_solver]]. cbn [negb].
  destruct ref as [r|].
  - specialize (Href r eq_refl). rewrite fgt_negb_fle by done.
    destruct (fle (fdiv _ r) _) eqn:E; cbn [negb];
      [|eexists; split; [done|]; split; [done|]; intros (_ & _ & H & _); by rewrite H in E].
    destruct (Nat.leb_spec (max_open_orders limits) (OrderStore.Size store));
      (eexists; split; [done|]); split; [done|lia|intros _; by split_and!; [..|intros ? [= <-]|]|done].
  - destruct (Nat.leb_spec (max_open_orders limits) (OrderStore.Size store));
      (eexists; split; [done|]); split; [done|lia|intros _; by split_and!|done].
Qed.

Definition sample_limits : RiskLimits :=
  MkLimits (f_of_Z 1) (f_of_Z 1000) (f_of_decimal false 5 (-2)) 10.
Definition sample_request (px sz : string) : OrderRequest :=
  MkRequest (str "ETH-USDT") kBuy (str "limit") (str px) (str sz) 0.
Lemma risk_check_exact_witness :
  ∃ answer, CheckPreTradeRisk sample_limits (sample_request "100" "0.5") OrderStore.empty
    (Some (f_of_Z 99)) = Ok answer ∧ answer = passed.
Proof.
  edestruct (risk_check_exact sample_limits (sample_request "100" "0.5") OrderStore.empty
    (Some (f_of_Z 99)) (f_of_decimal false 5 (-1)) (f_of_Z 100)) as (answer & Ha & Hp).
  - vm_compute. reflexivity.
  - vm_compute. reflexivity.
  - repeat constructor.
  - intros r [= <-]. vm_compute. reflexivity.
  - exists answer. split; [exact Ha|]. apply Hp. split; [vm_compute; reflexivity|].
    split; [vm_compute; reflexivity|]. split; [|vm_compute; lia].
    intros r [= <-]. vm_compute. reflexivity.
Defined.

(** A size that reads as NaN passes every check, whatever the limits, as
    long as an open order is allowed. *)
Theorem risk_check_passes_nan limits px_text px store :
  strtod px_text = Some px → OrderStore.Size store < max_open_orders limits →
  CheckPreTradeRisk limits (MkRequest (str "ETH-USDT") kBuy (str "limit") px_text (str "nan") 0) store None =
    Ok passed.
Proof.
  intros Hpx Hopen. unfold CheckPreTradeRisk, json.ParseDouble, sv_of. cbn [sv_mem rq_sz rq_px].
  rewrite Hpx. change (strtod (str "nan")) with (Some S754_nan). cbn [mbind result_bind].
  assert (∀ y, fgt S754_nan y = false) as Hnan by (by intros []).
  rewrite Hnan. change (fmul S754_nan px) with S754_nan. rewrite Hnan.
  by rewrite (proj2 (Nat.leb_gt _ _)).
Qed.

Lemma risk_check_passes_nan_witness :
  CheckPreTradeRisk sample_limits
    (MkRequest (str "ETH-USDT") kBuy (str "limit") (str "100") (str "nan") 0) OrderStore.empty None =
    Ok passed.
Proof.
  apply (risk_check_passes_nan sample_limits (str "100") (f_of_Z 100) OrderStore.empty);
    [vm_compute; reflexivity|vm_compute; lia].
Defined.

(** C37. Triggering the kill switch sends REST cancellations, each signed,
    for the stored orders whose exchange id is known (orders the exchange has
    not answered yet are passed over): in order, each once.  It returns when
    all have been requested; it throws only if one of these cancellations
    itself throws, and then those before it have been requested and none
    behind it.  In both cases the switch is set, and every later trigger does
    nothing. *)
Theorem kill_switch_cancels_once {W} (wo : World W) rest auth store os (w : W) log :
  OrderStore.wf store os →
  let world := recording wo in
  let known := (λ o, (Order.inst_id_ o, Order.ord_id_ o)) <$> filter (λ o, Order.ord_id_ o ≠ []) os in
  ∃ r w' new, KillSwitch.Trigger rest auth store (KillSwitch.initial, (w, log)) =
      (r, (KillSwitch.Mk true, (w', log ++ new))) ∧
    Forall2 (KillSwitch.cancels rest auth) new (take (length new) known) ∧
    KillSwitch.cancelled rest auth known (length new) r (w', log ++ new) ∧
    ∀ store' w'', KillSwitch.Trigger rest auth store' (KillSwitch.Mk true, w'') =
      (Ok tt, (KillSwitch.Mk true, w'')).
Proof.
  intros Hwf world known. unfold KillSwitch.Trigger. unfold mbind at 1 2, M_bind at 1 2, get at 1, put at 1.
  cbn [KillSwitch.triggered_ KillSwitch.initial fst snd].
  rewrite (OrderStore.ForEach_list store os) by done.
  rewrite KillSwitch.visit_collect, app_nil_l. fold known. unfold mbind at 1, M_bind at 1, lift at 1, zoom.
  cbn [fst snd].
  destruct (KillSwitch.cancel_all rest auth known (w, log)) as [r [w' log']] eqn:E.
  destruct (KillSwitch.cancel_all_made rest auth known w log r w' log' E) as (new & -> & Hn & Hr).
  by exists r, w', new.
Qed.

Lemma kill_switch_cancels_once_witness :
  let store := OrderStore.Mk (OrderStore.slots_of [sample_order]) 1 true in
  let world := recording (sample_world 0 (str "{}")) in
  ∃ r w' new, KillSwitch.Trigger (MkRest []) (MkAuth [] [] []) store (KillSwitch.initial, (tt, [])) =
      (r, (KillSwitch.Mk true, (w', new))) ∧ KillSwitch.cancelled (MkRest []) (MkAuth [] [] [])
        [(Order.inst_id_ sample_order, Order.ord_id_ sample_order)] (length new) r (w', new).
Proof.
  destruct (kill_switch_cancels_once (sample_world 0 (str "{}")) (MkRest []) (MkAuth [] [] [])
    (OrderStore.Mk (OrderStore.slots_of [sample_order]) 1 true) [sample_order] tt [])
    as (r & w' & new & HT & _ & Hr & _).
  - split; [reflexivity|]. split; [reflexivity|]. split; [vm_compute; lia|]. repeat constructor.
  - exact (ex_intro _ r (ex_intro _ w' (ex_intro _ new (conj HT Hr)))).
Defined.

(** A detail of an account message sets the balance of its currency and
    leaves the other currencies as they were; a seventeenth currency is
    dropped.  [GetBalance] returns what was recorded last. *)
Theorem account_detail_correct s bs detail c cash avail x y :
  AccountState.holds s bs →
  json.FindString detail kCcy = Some c → json.FindString detail kCashBal = Some cash →
  json.FindString detail kAvailBal = Some avail →
  json.ParseDouble cash = Ok x → json.ParseDouble avail = Ok y →
  ∃ s' bs', AccountState.apply_detail detail s = (Ok tt, s') ∧ AccountState.holds s' bs' ∧
    bs' = AccountState.record (AccountState.MkBalance (sv_text c) x y) bs ∧
    ∀ k, AccountState.GetBalance k s' = Ok
      (if decide (k = sv_text c ∧
          (is_Some (AccountState.lookup_ccy k bs) ∨ length bs < AccountState.kCapacity))
       then Some (AccountState.MkBalance k x y) else AccountState.lookup_ccy k bs).
Proof.
  intros Hh Hc Hcash Havail Hx Hy.
  destruct (AccountState.apply_detail_spec s bs detail c cash avail x y Hh Hc Hcash Havail Hx Hy)
    as (s' & Ha & Hh'). exists s', (AccountState.record (AccountState.MkBalance (sv_text c) x y) bs).
  split; [done|]. split; [done|]. split; [done|]. intros k.
  rewrite (AccountState.GetBalance_spec _ _ k Hh'). f_equal. apply AccountState.lookup_record.
Qed.

Lemma account_detail_correct_witness :
  let detail := sv_of (qstr "{'ccy':'USDT','cashBal':'100.5','availBal':'90'}") in
  ∃ s' bs', AccountState.apply_detail detail AccountState.initial = (Ok tt, s') ∧
    AccountState.holds s' bs' ∧
    AccountState.GetBalance (str "USDT") s' =
      Ok (Some (AccountState.MkBalance (str "USDT") (f_of_decimal false 1005 (-1)) (f_of_Z 90))).
Proof.
  edestruct (account_detail_correct AccountState.initial []
    (sv_of (qstr "{'ccy':'USDT','cashBal':'100.5','availBal':'90'}")))
    as (s' & bs' & Ha & Hh & _ & Hget).
  - exact AccountState.holds_initial.
  - vm_compute. reflexivity.
  - vm_compute. reflexivity.
  - vm_compute. reflexivity.
  - vm_compute. reflexivity.
  - vm_compute. reflexivity.
  - exists s', bs'. split; [exact Ha|]. split; [exact Hh|]. rewrite (Hget (str "USDT")).
    vm_compute. reflexivity.
Defined.
