(* ===== verification/Quoter.v ===== *)
(** * The engine's state and the quoting strategy: okx/engine/engine.hpp,
      okx/strategy/naive_quoter.*

    The components of the engine hold references to each other; what they
    refer to are the members of [Engine], which is the record [App] here, the
    private WebSocket client and the outside world.  The strategy is written
    on that state. *)

From S2P Require Import Prelude Float64 Json Okx PriceText Perf OrderBook MarketData SbeBbo.
From S2P Require Import OrderLifecycle OrderStore World OrderEntry WsClient RateLimiter Risk.

(** ** Members *)

(** [NaiveQuoter]'s own members. *)
Record QuoterState := MkQuoter {
  inst_id_ : list Z; inst_id_code_ : Z; sz_ : list Z; tick_sz_ : double;
  tick_decimal_places_ : nat; quote_bps_ : double; requote_threshold_bps_ : double;
  last_quoted_mid_ : option double;
  bid_cl_ord_id_ : option (list Z); ask_cl_ord_id_ : option (list Z) }.

(** The handlers that are ever tracked: the three of [WsOrderRoundTrip]. *)
Inductive ResponseHandler := OrderResponse | AmendResponse | CancelResponse.
(** [WsResponseDemux::pending_]. *)
Definition Pending := gmap (list Z) ResponseHandler.

(** [WsOrderRoundTrip]'s own members. *)
Record RoundTripState := MkRoundTrip {
  order_request_ : OrderRequest; rt_ord_id_ : list Z; rt_cl_ord_id_ : list Z }.

(** [MarketDataSource]. *)
Inductive Source := JsonSource (s : JsonBookSource.t) | SbeSource (inst_id_code : Z) (s : SbeBboSource.t).

(** What the engine asks for: timers, the end of the event loop, and messages
    to be sent on the connection of the market data or on the private one. *)
Inductive Request :=
  | StartTimeoutTimer | StartQuoterTimer | StartStatsTimer | StopIoContext
  | MarketDataSend (message : list Z)
  | PrivateSend (message : list Z).

Record App := MkApp {
  order_store_ : OrderStore.t; kill_switch_ : KillSwitch.t;
  rate_limiter_ : EndpointRateLimiter.t; quoter_ : QuoterState;
  account_state_ : AccountState.t; ws_demux_ : Pending; order_round_trip_ : RoundTripState;
  position_ : Position.t double; tick_to_trade_stats_ : TickToTradeStats.t;
  market_data_ : Source; last_id : Z; requests : list Request }.

Definition set_store (x : OrderStore.t) (a : App) : App :=
  MkApp x (kill_switch_ a) (rate_limiter_ a) (quoter_ a) (account_state_ a) (ws_demux_ a)
    (order_round_trip_ a) (position_ a) (tick_to_trade_stats_ a) (market_data_ a) (last_id a)
    (requests a).
Definition set_kill (x : KillSwitch.t) (a : App) : App :=
  MkApp (order_store_ a) x (rate_limiter_ a) (quoter_ a) (account_state_ a) (ws_demux_ a)
    (order_round_trip_ a) (position_ a) (tick_to_trade_stats_ a) (market_data_ a) (last_id a)
    (requests a).
Definition set_limiter (x : EndpointRateLimiter.t) (a : App) : App :=
  MkApp (order_store_ a) (kill_switch_ a) x (quoter_ a) (account_state_ a) (ws_demux_ a)
    (order_round_trip_ a) (position_ a) (tick_to_trade_stats_ a) (market_data_ a) (last_id a)
    (requests a).
Definition set_quoter (x : QuoterState) (a : App) : App :=
  MkApp (order_store_ a) (kill_switch_ a) (rate_limiter_ a) x (account_state_ a) (ws_demux_ a)
    (order_round_trip_ a) (position_ a) (tick_to_trade_stats_ a) (market_data_ a) (last_id a)
    (requests a).
Definition set_account (x : AccountState.t) (a : App) : App :=
  MkApp (order_store_ a) (kill_switch_ a) (rate_limiter_ a) (quoter_ a) x (ws_demux_ a)
    (order_round_trip_ a) (position_ a) (tick_to_trade_stats_ a) (market_data_ a) (last_id a)
    (requests a).
Definition set_demux (x : Pending) (a : App) : App :=
  MkApp (order_store_ a) (kill_switch_ a) (rate_limiter_ a) (quoter_ a) (account_state_ a) x
    (order_round_trip_ a) (position_ a) (tick_to_trade_stats_ a) (market_data_ a) (last_id a)
    (requests a).
Definition set_round_trip (x : RoundTripState) (a : App) : App :=
  MkApp (order_store_ a) (kill_switch_ a) (rate_limiter_ a) (quoter_ a) (account_state_ a)
    (ws_demux_ a) x (position_ a) (tick_to_trade_stats_ a) (market_data_ a) (last_id a)
    (requests a).
Definition set_position (x : Position.t double) (a : App) : App :=
  MkApp (order_store_ a) (kill_switch_ a) (rate_limiter_ a) (quoter_ a) (account_state_ a)
    (ws_demux_ a) (order_round_trip_ a) x (tick_to_trade_stats_ a) (market_data_ a) (last_id a)
    (requests a).
Definition set_stats (x : TickToTradeStats.t) (a : App) : App :=
  MkApp (order_store_ a) (kill_switch_ a) (rate_limiter_ a) (quoter_ a) (account_state_ a)
    (ws_demux_ a) (order_round_trip_ a) (position_ a) x (market_data_ a) (last_id a) (requests a).
Definition set_market_data (x : Source) (a : App) : App :=
  MkApp (order_store_ a) (kill_switch_ a) (rate_limiter_ a) (quoter_ a) (account_state_ a)
    (ws_demux_ a) (order_round_trip_ a) (position_ a) (tick_to_trade_stats_ a) x (last_id a)
    (requests a).
Definition set_last_id (x : Z) (a : App) : App :=
  MkApp (order_store_ a) (kill_switch_ a) (rate_limiter_ a) (quoter_ a) (account_state_ a)
    (ws_demux_ a) (order_round_trip_ a) (position_ a) (tick_to_trade_stats_ a) (market_data_ a) x
    (requests a).
Definition set_requests (x : list Request) (a : App) : App :=
  MkApp (order_store_ a) (kill_switch_ a) (rate_limiter_ a) (quoter_ a) (account_state_ a)
    (ws_demux_ a) (order_round_trip_ a) (position_ a) (tick_to_trade_stats_ a) (market_data_ a)
    (last_id a) x.

(** ** Operations on the parts *)
Section parts.
Context {W : Type} `{!World W} (freq : Z).
Notation S := (OkxWsClient.St App W).

Definition on_app {A} : M App A → M S A :=
  zoom OkxWsClient.app (λ a s, OkxWsClient.MkSt (OkxWsClient.client s) a (OkxWsClient.world s)
                                 (OkxWsClient.effects s)).
Definition see {A} (f : App → A) : M S A := s ← get; mret (f (OkxWsClient.app s)).
Definition change (f : App → App) : M S unit := on_app (modify f).
Definition on_world {A} : M W A → M S A := OkxWsClient.on_world.
Definition on_store {A} (m : M OrderStore.t A) : M S A := on_app (zoom order_store_ set_store m).

(** The static counter of the ids lives in the program, the clock outside. *)
Definition on_ids {A} : M (Z * W) A → M S A :=
  zoom (λ s, (last_id (OkxWsClient.app s), OkxWsClient.world s))
       (λ x s, OkxWsClient.MkSt (OkxWsClient.client s) (set_last_id x.1 (OkxWsClient.app s)) x.2
                 (OkxWsClient.effects s)).

(** The handler given to [SetOnTraceResolved]. *)
Definition on_trace_resolved (trace : TickToTradeTrace) : M S unit :=
  on_app (zoom tick_to_trade_stats_ set_stats (runS (TickToTradeStats.Record_ freq trace))).
Definition request (r : Request) : M S unit :=
  change (λ a, set_requests (requests a ++ [r]) a).
(** [private_ws_client_.Send], which is noted. *)
Definition Send (payload : list Z) (trace : option TickToTradeTrace) : M S unit :=
  _ ← request (PrivateSend payload);
  OkxWsClient.Send on_trace_resolved payload trace.

(** [TryAcquire] and [Add] read the steady clock. *)
Definition TryAcquire (op : list Z) : M S bool :=
  now ← on_world (ask steady_clock_now);
  on_app (zoom rate_limiter_ set_limiter (EndpointRateLimiter.TryAcquire now op)).
Definition Add (cl_ord_id inst_id side px sz : list Z) : M S unit :=
  now ← on_world (ask steady_clock_now);
  on_store (OrderStore.Add now cl_ord_id inst_id side px sz).
End parts.

Module NaiveQuoter.
Definition kBpsPerUnit : double := f_of_Z 10000.

Definition make (inst_id : list Z) (inst_id_code : Z) (sz tick_sz : list Z)
    (quote_bps requote_threshold_bps : double) : result QuoterState :=
  tick ← json.ParseDouble (sv_of tick_sz);
  Ok (MkQuoter inst_id inst_id_code sz tick (DecimalPlaces tick_sz) quote_bps
        requote_threshold_bps None None None).

(** The member that a call of [ReplaceSide] gets a reference to. *)
Inductive Slot := BidSlot | AskSlot.
Definition slot_id (x : Slot) (q : QuoterState) : option (list Z) :=
  match x with BidSlot => bid_cl_ord_id_ q | AskSlot => ask_cl_ord_id_ q end.
Definition set_slot (x : Slot) (id : option (list Z)) (q : QuoterState) : QuoterState :=
  match x with
  | BidSlot => MkQuoter (inst_id_ q) (inst_id_code_ q) (sz_ q) (tick_sz_ q) (tick_decimal_places_ q)
      (quote_bps_ q) (requote_threshold_bps_ q) (last_quoted_mid_ q) id (ask_cl_ord_id_ q)
  | AskSlot => MkQuoter (inst_id_ q) (inst_id_code_ q) (sz_ q) (tick_sz_ q) (tick_decimal_places_ q)
      (quote_bps_ q) (requote_threshold_bps_ q) (last_quoted_mid_ q) (bid_cl_ord_id_ q) id
  end.
Definition set_mid (mid : option double) (q : QuoterState) : QuoterState :=
  MkQuoter (inst_id_ q) (inst_id_code_ q) (sz_ q) (tick_sz_ q) (tick_decimal_places_ q)
    (quote_bps_ q) (requote_threshold_bps_ q) mid (bid_cl_ord_id_ q) (ask_cl_ord_id_ q).

Definition OnOrderRemoved (cl_ord_id : list Z) (q : QuoterState) : QuoterState :=
  if decide (bid_cl_ord_id_ q = Some cl_ord_id) then set_slot BidSlot None q
  else if decide (ask_cl_ord_id_ q = Some cl_ord_id) then set_slot AskSlot None q
  else q.

Definition OwnsOrder (cl_ord_id : list Z) (q : QuoterState) : bool :=
  bool_decide (bid_cl_ord_id_ q = Some cl_ord_id) || bool_decide (ask_cl_ord_id_ q = Some cl_ord_id).

Definition ComputeQuotePrices (mid : double) (q : QuoterState) : double * double :=
  (fmul mid (fsub (f_of_Z 1) (fdiv (quote_bps_ q) kBpsPerUnit)),
   fmul mid (fadd (f_of_Z 1) (fdiv (quote_bps_ q) kBpsPerUnit))).

Section quoter.
Context {W : Type} `{!World W} `{!ToChars} (freq : Z).
Notation S := (OkxWsClient.St App W).

Definition ask_quoter {A} (f : QuoterState → A) : M S A := see (λ a, f (quoter_ a)).
Definition update (f : QuoterState → QuoterState) : M S unit :=
  change (λ a, set_quoter (f (quoter_ a)) a).

(** What the two log lines evaluate: an empty [event.fill] is dereferenced. *)
Definition OnFill (event : OrderEvent) : M S unit :=
  owns ← ask_quoter (OwnsOrder (ev_cl_ord_id event));
  if negb owns then mret tt
  else match ev_fill event with Some _ => mret tt | None => lift (Stop UB) end.
Definition OnCancel (event : OrderEvent) : M S unit :=
  owns ← ask_quoter (OwnsOrder (ev_cl_ord_id event));
  if negb owns then mret tt else mret tt.

(** The four stamps are taken only when there is a trace. *)
Definition stamp (f : Z → TickToTradeTrace → TickToTradeTrace) (trace : option TickToTradeTrace)
    : M S (option TickToTradeTrace) :=
  match trace with
  | None => mret None
  | Some tr => ticks ← on_world (ask ReadCounter); mret (Some (f ticks tr))
  end.
Definition TraceOrderLocated := stamp (λ n tr,
  MkTrace (wire_arrival_ticks tr) (message_decoded_ticks tr) (book_consistent_ticks tr) n
    (rate_limit_checked_ticks tr) (price_formatted_ticks tr) (message_built_ticks tr) (send_ticks tr)).
Definition TraceRateLimitChecked := stamp (λ n tr,
  MkTrace (wire_arrival_ticks tr) (message_decoded_ticks tr) (book_consistent_ticks tr)
    (order_located_ticks tr) n (price_formatted_ticks tr) (message_built_ticks tr) (send_ticks tr)).
Definition TracePriceFormatted := stamp (λ n tr,
  MkTrace (wire_arrival_ticks tr) (message_decoded_ticks tr) (book_consistent_ticks tr)
    (order_located_ticks tr) (rate_limit_checked_ticks tr) n (message_built_ticks tr) (send_ticks tr)).
Definition TraceMessageBuilt := stamp (λ n tr,
  MkTrace (wire_arrival_ticks tr) (message_decoded_ticks tr) (book_consistent_ticks tr)
    (order_located_ticks tr) (rate_limit_checked_ticks tr) (price_formatted_ticks tr) n (send_ticks tr)).

Definition FormatPrice (px : double) (q : QuoterState) : list Z :=
  PriceText.FormatPrice (tick_sz_ q) (tick_decimal_places_ q) px.

Definition PlaceSide (side : list Z) (px : double) (trace : option TickToTradeTrace)
    : M S (option (list Z)) :=
  trace ← TraceOrderLocated trace;
  acquired ← TryAcquire kOrderOp;
  if negb acquired then mret None
  else
    trace ← TraceRateLimitChecked trace;
    q ← ask_quoter id;
    let formatted_px := FormatPrice px q in
    trace ← TracePriceFormatted trace;
    let request := MkRequest (inst_id_ q) side kLimit formatted_px (sz_ q) (inst_id_code_ q) in
    order ← on_ids (BuildWsOrderMessage request);
    _ ← Add (wo_id order) (inst_id_ q) side (rq_px request) (sz_ q);
    trace ← TraceMessageBuilt trace;
    _ ← Send freq (wo_message order) trace;
    mret (Some (wo_id order)).

Definition place_into (x : Slot) (side : list Z) (px : double) (trace : option TickToTradeTrace)
    : M S unit :=
  cl_ord_id ← PlaceSide side px trace;
  update (set_slot x cl_ord_id).

Definition ReplaceSide (x : Slot) (side : list Z) (px : double) (trace : option TickToTradeTrace)
    : M S unit :=
  slot ← ask_quoter (slot_id x);
  match slot with
  | None => place_into x side px trace
  | Some cl_ord_id =>
      store ← see order_store_;
      found ← lift (OrderStore.FindByClOrdId cl_ord_id store);
      order ← match found with
        | None => mret None
        | Some i => o ← lift (OrderStore.At i store);
            mret (if decide (Order.ord_id_ o = []) then None else Some (i, o))
        end;
      match order with
      | None =>
          _ ← update (set_slot x None);
          place_into x side px trace
      | Some (i, o) =>
          trace ← TraceOrderLocated trace;
          if decide (Order.state_ o = kPendingAmend) then mret tt
          else
            acquired ← TryAcquire kAmendOrderOp;
            if negb acquired then mret tt
            else
              trace ← TraceRateLimitChecked trace;
              q ← ask_quoter id;
              let formatted_px := FormatPrice px q in
              trace ← TracePriceFormatted trace;
              now ← on_world (ask steady_clock_now);
              _ ← on_store (OrderStore.with_order i (Order.OnAmendRequested now));
              amend ← on_ids (BuildWsAmendOrderMessage (inst_id_code_ q) (Order.ord_id_ o)
                                formatted_px (sz_ q));
              trace ← TraceMessageBuilt trace;
              Send freq (wo_message amend) trace
      end
  end.

Definition Requote (mid : double) (trace : TickToTradeTrace) : M S unit :=
  px ← ask_quoter (ComputeQuotePrices mid);
  _ ← OkxWsClient.BeginBatch;
  _ ← ReplaceSide BidSlot kBuy px.1 (Some trace);
  _ ← ReplaceSide AskSlot kSell px.2 (Some trace);
  _ ← OkxWsClient.EndBatch (on_trace_resolved freq);
  update (set_mid (Some mid)).

Definition OnBookUpdate (book : OrderBook.t) (trace : TickToTradeTrace) : M S unit :=
  best_bid ← lift (OrderBook.BestBid book);
  best_ask ← lift (OrderBook.BestAsk book);
  match best_bid, best_ask with
  | Some bid, Some ask =>
      let mid := fdiv (fadd bid ask) (f_of_Z 2) in
      last ← ask_quoter last_quoted_mid_;
      match last with
      | None => Requote mid trace
      | Some last =>
          threshold ← ask_quoter requote_threshold_bps_;
          let deviation_bps := fmul (fdiv (fabs (fsub mid last)) last) kBpsPerUnit in
          if fgt deviation_bps threshold then Requote mid trace else mret tt
      end
  | _, _ => mret tt
  end.

Definition OnTimer : M S unit :=
  last ← ask_quoter last_quoted_mid_;
  match last with
  | None => mret tt
  | Some mid =>
      px ← ask_quoter (ComputeQuotePrices mid);
      _ ← OkxWsClient.BeginBatch;
      bid ← ask_quoter bid_cl_ord_id_;
      _ ← match bid with None => place_into BidSlot kBuy px.1 None | Some _ => mret tt end;
      ask ← ask_quoter ask_cl_ord_id_;
      _ ← match ask with None => place_into AskSlot kSell px.2 None | Some _ => mret tt end;
      OkxWsClient.EndBatch (on_trace_resolved freq)
  end.
End quoter.
End NaiveQuoter.

(** ** Properties *)

(** C26. The text of a price.  The quoter is made with a tick size that is
    written as a decimal with [places] places ("0.01").  The price over the
    tick size is rounded to a nearest whole number of ticks; that number times
    the tick size is printed with [places] decimals, as a nearest such
    decimal; and the program's own number parser reads the text as that
    decimal.  (The product is finite, and the text fits into the buffer of 32
    bytes.) *)
Theorem price_text_reads_back `{!ToChars} inst code sz t places bps threshold q px :
  (0 ≤ t)%Z → NaiveQuoter.make inst code sz (fixed_text false t places) bps threshold = Ok q →
  let tick := f_of_decimal false t (- Z.of_nat places) in
  let rounded := fmul (fround (fdiv px tick)) tick in
  is_finite rounded = true →
  whole_nearest (fdiv px tick) ∧
  ∃ s n, decimal_nearest rounded places s n ∧ (length (fixed_text s n places) ≤ 32 →
    NaiveQuoter.FormatPrice px q = fixed_text s n places ∧
    json.ParseDouble (sv_of (NaiveQuoter.FormatPrice px q)) = Ok (f_of_decimal s n (- Z.of_nat places))).
Proof.
  intros Ht Hq tick rounded Hfin. split; [apply fround_whole|].
  unfold NaiveQuoter.make, json.ParseDouble in Hq. cbn [sv_of sv_mem] in Hq.
  rewrite strtod_fixed, DecimalPlaces_fixed in Hq by done. injection Hq as <-.
  destruct (to_chars_reads_back 32 rounded places Hfin) as (s & n & Hn & Htext). exists s, n. split; [done|].
  intros Hl. destruct (Htext Hl) as [Hc Hp]. unfold NaiveQuoter.FormatPrice, FormatPrice. cbn [tick_sz_ tick_decimal_places_].
  fold tick rounded. by rewrite Hc.
Qed.

Lemma price_text_reads_back_witness :
  ∃ q, NaiveQuoter.make [] 0 [] (str "0.01") fzero fzero = Ok q ∧
    ∃ n, @NaiveQuoter.FormatPrice sample_chars (f_of_decimal false 312345678 (-5)) q = fixed_text false n 2 ∧
      json.ParseDouble (sv_of (@NaiveQuoter.FormatPrice sample_chars (f_of_decimal false 312345678 (-5)) q)) =
        Ok (f_of_decimal false n (-2)).
Proof.
  eexists. split; [vm_compute; reflexivity|].
  destruct (@price_text_reads_back sample_chars [] 0 [] 1 2 fzero fzero (MkQuoter [] 0 [] (f_of_decimal false 1 (-2)) 2
    fzero fzero None None None) (f_of_decimal false 312345678 (-5))) as (_ & s & n & Hn & Htext).
  - lia.
  - vm_compute. reflexivity.
  - vm_compute. reflexivity.
  - revert Hn. match goal with |- decimal_nearest ?x 2 s n → _ =>
      let v := eval vm_compute in x in replace x with v by (vm_compute; reflexivity) end.
    cbn [decimal_nearest]. match goal with |- _ ∧ nearest n ?a ?b → _ =>
      let a' := eval vm_compute in a in let b' := eval vm_compute in b in
      replace a with a' by (vm_compute; reflexivity); replace b with b' by (vm_compute; reflexivity) end.
    unfold nearest. intros [-> Hn]. exists n. apply Htext.
    assert (n = 312346%Z) as -> by lia. apply Nat.leb_le. vm_compute. reflexivity.
Defined.
