(* ===== verification/MarketFeed.v ===== *)
(** * Market data, from the wire to the strategy

    A market data source has a WebSocket client of its own: [Start] of
    okx/marketdata/json_book_source.cpp and sbe_bbo_source.cpp sets the
    client's handlers.  Here the two are put together: reads complete on the
    socket, and the book handler is called with books. *)

From S2P Require Import Prelude Float64 Json Okx Perf OrderBook MarketData SbeBbo WebSocketFrame World WsClient.
From S2P Require Import OrderEntry RateLimiter Risk Quoter.

(** The source, and the calls of its book handler. *)
Record Feed := MkFeed { feed_source : Source; shown : list (OrderBook.t * TickToTradeTrace) }.

Module MarketDataFeed.
Section feed.
Context {W : Type} `{!World W}.
Notation S := (OkxWsClient.St Feed W).

Definition on_feed {A} : M Feed A → M S A :=
  zoom OkxWsClient.app (λ f s, OkxWsClient.MkSt (OkxWsClient.client s) f (OkxWsClient.world s)
                                 (OkxWsClient.effects s)).
Definition get_source : M S Source := s ← get; mret (feed_source (OkxWsClient.app s)).
Definition set_source (x : Source) : M S unit := on_feed (modify (λ f, MkFeed x (shown f))).
(** [ws_client_.Send]; no trace handler is set. *)
Definition Send (message : list Z) : M S unit := OkxWsClient.Send (λ _, mret tt) message None.
(** The counter is read when the book is consistent; then its handler is
    called.  Nothing uses the reading when no handler is set. *)
Definition show (book : OrderBook.t) (trace : TickToTradeTrace) : M S unit :=
  ticks ← OkxWsClient.on_world (ask ReadCounter);
  on_feed (modify (λ f, MkFeed (feed_source f) (shown f ++ [(book, set_book_consistent ticks trace)]))).
Definition json_output (o : JsonBookSource.output) : M S unit :=
  match o with
  | JsonBookSource.Send message => Send message
  | JsonBookSource.BookUpdate book trace => show book trace
  end.

(** The two handlers that [Start] sets. *)
Definition OnConnected : M S unit :=
  source ← get_source;
  match source with
  | JsonSource s => json.visit json_output (JsonBookSource.OnConnected s)
  | SbeSource code _ => Send (SbeBboSource.OnConnected code)
  end.
Definition OnMessage (message : string_view) : M S unit :=
  wire_arrival_ticks ← OkxWsClient.read OkxWsClient.last_message_arrival_ticks_;
  message_decoded_ticks ← OkxWsClient.read OkxWsClient.last_message_decoded_ticks_;
  source ← get_source;
  match source with
  | JsonSource s =>
      let '(r, s') := JsonBookSource.OnMessage wire_arrival_ticks message_decoded_ticks 0 message s in
      _ ← set_source (JsonSource s');
      outputs ← lift r;
      json.visit json_output outputs
  | SbeSource code s =>
      let '(r, s') := SbeBboSource.OnMessage wire_arrival_ticks message_decoded_ticks 0 message s in
      _ ← set_source (SbeSource code s');
      update ← lift r;
      match update with None => mret tt | Some (book, trace) => show book trace end
  end.
(** What a completed read, and a new connection, do. *)
Definition OnRead (chunk : option (list Z)) : M S unit :=
  OkxWsClient.OnRead OnMessage (λ _, mret tt) chunk.
Definition Connect (fuel : nat) : M S unit := OkxWsClient.Connect OnConnected (λ _, mret tt) fuel.
End feed.
End MarketDataFeed.
Import MarketDataFeed.

(** ** The JSON feed *)

(** The text of a books message that carries the update [u]. *)
Definition carries (m : list Z) (u : BookUpdateMsg) : Prop :=
  opt_eqb (json.FindString (sv_of m) kChannel) kBooksChannel = true ∧
  ∃ data w fs rest, FindData (sv_of m) = Some data ∧
    sv_text data = json.print (json.JObject w fs) ++ rest ∧ json.jwf (json.JObject w fs) = true ∧
    book_update fs = Some u ∧ update_ok u.

(** The state of a book that matters: its sides, whether it has had a
    snapshot, its sequence number. *)
Definition book_state : Type := (list Level * list Level) * bool * Z.
Definition state_of (b : OrderBook.t) : book_state :=
  (sides b, OrderBook.HasSnapshot b, OrderBook.LastSeqId b).
Definition update_state (st : book_state) (u : BookUpdateMsg) : book_state :=
  (update_sides u st.1.1, (u_prev u =? kSnapshotSeqId)%Z || st.1.2, u_seq u).
(** The update does not chain onto the state. *)
Definition gap (u : BookUpdateMsg) (st : book_state) : bool :=
  negb (u_prev u =? kSnapshotSeqId)%Z && st.1.2 && negb (u_prev u =? st.2)%Z.
Definition gapless (st : book_state) (us : list BookUpdateMsg) : Prop :=
  ∀ i u, us !! i = Some u → gap u (foldl update_state st (take i us)) = false.
(** The states after each of the updates. *)
Fixpoint trail (st : book_state) (us : list BookUpdateMsg) : list book_state :=
  match us with [] => [] | u :: us' => update_state st u :: trail (update_state st u) us' end.

Lemma trail_snoc st us u :
  trail st (us ++ [u]) = trail st us ++ [update_state (foldl update_state st us) u].
Proof. revert st. induction us as [|x us IH]; intros st; [done|]. simpl. by rewrite IH. Qed.

(** A message is a view into the receive buffer, whatever follows it there. *)
Lemma carries_view m u v :
  carries m u → sv_wf v → sv_text v = m →
  opt_eqb (json.FindString v kChannel) kBooksChannel = true ∧
  ∃ data w fs rest, FindData v = Some data ∧ sv_wf data ∧
    sv_text data = json.print (json.JObject w fs) ++ rest ∧ json.jwf (json.JObject w fs) = true ∧
    book_update fs = Some u ∧ update_ok u.
Proof.
  intros (Hch & data & w & fs & rest & Hdata & Ht & Hrest) Hwf Hv.
  assert (sv_text v = sv_text (sv_of m)) as Htext by (by rewrite sv_text_of).
  assert (sv_size v = sv_size (sv_of m)) as Hsize by (cbn [sv_size sv_of]; by rewrite <-Hv, length_sv_text).
  split; [by rewrite (opt_eqb_text _ _ _ (json.FindString_text v _ Htext Hsize kChannel))|].
  destruct (json.FindArrayElement_text v _ _ _ Hwf Htext Hsize Hdata) as (data' & Hd' & Hw' & Ht').
  exists data', w, fs, rest. rewrite Ht'. by split.
Qed.
Lemma carries_applied m u v b :
  carries m u → sv_wf v → sv_text v = m → OrderBook.wf b → gap u (state_of b) = false →
  ∃ b', ApplyBookMessage v b = (Ok kApplied, b') ∧ OrderBook.wf b' ∧ state_of b' = update_state (state_of b) u.
Proof.
  intros Hc Hwf Hv Hb Hgap.
  destruct (carries_view m u v Hc Hwf Hv) as (Hch & data & w & fs & rest & Hdata & Hdw & Ht & Hj & Hu & Hok).
  destruct (ApplyBookMessage_value v data w fs rest u b Hch Hdata Hdw Ht Hj Hu Hok Hb Hgap)
    as (b' & Hap & Hb' & Hs & Hseq & Hsn).
  exists b'. split; [done|]. split; [done|]. unfold state_of, update_state. cbn [fst snd]. by rewrite Hs, Hseq, Hsn.
Qed.

Section json_feed.
Context {W : Type} `{!World W}.
Notation S := (OkxWsClient.St Feed W).

(** The source has followed the updates [us] since it was in state [st0] and
    had called its handler [before]. *)
Definition followed (st0 : book_state) (before : list book_state) (us : list BookUpdateMsg) (f : Feed) : Prop :=
  ∃ s, feed_source f = JsonSource s ∧ JsonBookSource.on_book_update_ s = true ∧
    OrderBook.wf (JsonBookSource.book_ s) ∧
    state_of (JsonBookSource.book_ s) = foldl update_state st0 us ∧
    (λ x, state_of x.1) <$> shown f = before ++ trail st0 us.

Lemma OnMessage_followed st0 before us m u v (s : S) :
  followed st0 before us (OkxWsClient.app s) → carries m u → sv_wf v → sv_text v = m →
  gap u (foldl update_state st0 us) = false →
  ∃ s', OnMessage v s = (Ok tt, s') ∧ followed st0 before (us ++ [u]) (OkxWsClient.app s') ∧
    OkxWsClient.client s' = OkxWsClient.client s.
Proof.
  intros (src & Hsrc & Hon & Hwf & Hst & Hshown) Hc Hv Ht Hgap. rewrite <-Hst in Hgap.
  destruct (carries_applied m u v _ Hc Hv Ht Hwf Hgap) as (b & Hap & Hb & Hb').
  destruct s as [c [x sh] w ef]. cbn [OkxWsClient.app feed_source shown] in *. subst x.
  destruct (PriceLevels.Best_sized _ (proj1 (OrderBook.sized_wf b Hb))) as [best_bid Hbid].
  destruct (PriceLevels.Best_sized _ (proj2 (OrderBook.sized_wf b Hb))) as [best_ask Hask].
  unfold OnMessage, OkxWsClient.read, get_source, set_source, on_feed, JsonBookSource.OnMessage, zoom, modify,
    mbind, M_bind, get, lift. cbn [mret M_ret]. unfold mbind, M_bind. cbn [mret M_ret OkxWsClient.app feed_source].
  unfold mbind, M_bind. cbn [mret M_ret]. rewrite Hap. cbn [JsonBookSource.book_ JsonBookSource.set_book].
  unfold OrderBook.BestBid, OrderBook.BestAsk. rewrite Hbid, Hask. cbn [mret M_ret JsonBookSource.on_book_update_].
  change (JsonBookSource.on_book_update_ (JsonBookSource.set_book b src)) with (JsonBookSource.on_book_update_ src).
  rewrite Hon. cbn [json.visit json_output]. unfold show, on_feed, OkxWsClient.on_world, ask, zoom, modify, mbind, M_bind.
  cbn [OkxWsClient.world OkxWsClient.app OkxWsClient.client OkxWsClient.effects shown feed_source].
  destruct (ReadCounter w) as [ticks w']. eexists. split; [reflexivity|]. split; [|done].
  eexists. split; [reflexivity|]. cbn [JsonBookSource.on_book_update_ JsonBookSource.book_ JsonBookSource.set_book].
  split; [done|]. split; [done|]. rewrite foldl_app. cbn [foldl]. rewrite <-Hst. split; [done|].
  cbn [OkxWsClient.app shown]. rewrite fmap_app, Hshown, trail_snoc, <-app_assoc, <-Hst, <-Hb'. done.
Qed.
End json_feed.

(** ** The SBE feed *)

(** What a message decodes to. *)
Definition decoded (m : list Z) : option sbe.BboTbt :=
  match sbe.DecodeBboTbt (sv_of m) with Ok r => r | Stop _ => None end.
Lemma decoded_view v : sv_wf v → sbe.DecodeBboTbt v = Ok (decoded (sv_text v)).
Proof.
  intros Hv. unfold decoded. rewrite <-(sbe.DecodeBboTbt_text v (sv_of (sv_text v))).
  - destruct (sbe.DecodeBboTbt_Ok v Hv) as (r & -> & _). done.
  - by rewrite sv_text_of.
  - cbn [sv_size sv_of]. by rewrite length_sv_text.
Qed.

Section sbe_feed.
Context {W : Type} `{!World W}.
Notation S := (OkxWsClient.St Feed W).

(** The source has handled the messages [out] since its last sequence number
    was [last], its book [book] and its handler's calls [before]: the book is
    the one shown last. *)
Definition quoted (code last : Z) (book : OrderBook.t) (before : list (OrderBook.t * TickToTradeTrace))
    (out : list (list Z)) (f : Feed) : Prop :=
  ∃ s new, feed_source f = SbeSource code s ∧ SbeBboSource.on_book_update_ s = true ∧
    OrderBook.wf (SbeBboSource.book_ s) ∧
    SbeBboSource.last_seq_id_ s = SbeBboSource.newest last (decoded <$> out) ∧
    shown f = before ++ new ∧ SbeBboSource.book_ s = default book (fst <$> list.last new) ∧
    Forall2 (λ c b, SbeBboSource.shows c.1 b) new (SbeBboSource.newer last (decoded <$> out)).

Lemma OnMessage_quoted code last book before out v (s : S) :
  sv_wf v → quoted code last book before out (OkxWsClient.app s) →
  ∃ s', OnMessage v s = (Ok tt, s') ∧ quoted code last book before (out ++ [sv_text v]) (OkxWsClient.app s') ∧
    OkxWsClient.client s' = OkxWsClient.client s.
Proof.
  intros Hv (src & new & Hsrc & Hon & Hwf & Hlast & Hshown & Hbook & Hnew).
  destruct s as [c [x sh] w ef]. cbn [OkxWsClient.app feed_source shown] in *. subst x sh.
  unfold OnMessage, OkxWsClient.read, get_source, set_source, on_feed, zoom, modify, mbind, M_bind, get, lift.
  cbn [mret M_ret]. unfold mbind, M_bind. cbn [mret M_ret OkxWsClient.app OkxWsClient.client feed_source].
  unfold mbind, M_bind. cbn [mret M_ret].
  destruct (SbeBboSource.OnMessage_cases (OkxWsClient.last_message_arrival_ticks_ c)
    (OkxWsClient.last_message_decoded_ticks_ c) 0 v src _ Hv Hwf (decoded_view v Hv))
    as [[-> Hsame]|(bbo & b & Hr & Hlt & -> & Hb)].
  - eexists. split; [reflexivity|]. split; [|done]. exists src, new.
    rewrite fmap_app, SbeBboSource.newer_app, SbeBboSource.newest_app, <-Hlast. cbn [fmap list_fmap].
    specialize (Hsame []). rewrite Hsame, (SbeBboSource.newest_nil _ _ Hsame). by rewrite app_nil_r.
  - rewrite Hon. unfold show, on_feed, OkxWsClient.on_world, ask, zoom, modify, mbind, M_bind.
    cbn [OkxWsClient.world OkxWsClient.app OkxWsClient.client OkxWsClient.effects shown feed_source].
    destruct (ReadCounter w) as [ticks w']. eexists. split; [reflexivity|]. split; [|done].
    eexists _, (new ++ [_]). split; [reflexivity|]. split; [done|]. split; [apply Hb|].
    rewrite fmap_app, SbeBboSource.newer_app, SbeBboSource.newest_app, <-Hlast. cbn [fmap list_fmap]. rewrite Hr.
    destruct (SbeBboSource.newest_newer _ _ Hlt) as [-> ->]. split; [done|]. split; [symmetry; apply app_assoc|].
    split; [by rewrite last_snoc|]. apply Forall2_app; [done|]. by constructor.
Qed.
End sbe_feed.

(** ** Properties *)

(** C3. A connection of the JSON source delivers books messages in frames:
    whole or in fragments, with pongs in between, cut into reads in any way.
    If each message carries an update (levels as quoted decimals) that chains
    onto the one before, then every update is applied, in order, and after
    each of them the book handler is called once, with the book whose sides,
    level by level, and whose sequence number are those that the updates so
    far describe. *)
Theorem json_feed_correct {W} `{!World W} (chunks : list (list Z)) (items : list OkxWsClient.item)
    (us : list BookUpdateMsg) (src : JsonBookSource.t) (calls : list (OrderBook.t * TickToTradeTrace))
    (s : OkxWsClient.St Feed W) :
  OkxWsClient.app s = MkFeed (JsonSource src) calls → JsonBookSource.on_book_update_ src = true →
  OrderBook.wf (JsonBookSource.book_ src) →
  OkxWsClient.rx_buffer_ (OkxWsClient.client s) = [] →
  OkxWsClient.reassembler_ (OkxWsClient.client s) = Reassembler.empty OkxWsClient.kMaxMessageSize →
  Forall OkxWsClient.item_ok items →
  concat chunks = OkxWsClient.frames_text (items ≫= OkxWsClient.item_frames) →
  Forall2 carries (items ≫= OkxWsClient.item_message) us →
  gapless (state_of (JsonBookSource.book_ src)) us →
  ∃ s' src', json.visit (λ c, OnRead (Some c)) chunks s = (Ok tt, s') ∧
    feed_source (OkxWsClient.app s') = JsonSource src' ∧ OrderBook.wf (JsonBookSource.book_ src') ∧
    state_of (JsonBookSource.book_ src') = foldl update_state (state_of (JsonBookSource.book_ src)) us ∧
    (λ x, state_of x.1) <$> shown (OkxWsClient.app s') =
      ((λ x, state_of x.1) <$> calls) ++ trail (state_of (JsonBookSource.book_ src)) us.
Proof.
  intros Happ Hon Hwf Hrx Hre Hok Hc Hus Hgap.
  set (msgs := items ≫= OkxWsClient.item_message) in *. set (st0 := state_of (JsonBookSource.book_ src)) in *.
  set (before := (λ x, state_of x.1) <$> calls).
  set (P := λ (out : list (list Z)) f, followed st0 before (take (length out) us) f).
  destruct (OkxWsClient.chunks_items OnMessage (λ _, mret tt) P (λ l, l `prefix_of` msgs) chunks items [] s)
    as (s' & Hrun & (src' & Hsrc & _ & Hwf' & Hst & Hsh)); try done.
  - intros l l' Hl Hl'. by transitivity l'.
  - intros v out s1 Hv [tail Hpre] HP. rewrite <-app_assoc in Hpre.
    assert (msgs !! length out = Some (sv_text v)) as Hm by (rewrite Hpre; by apply list_lookup_middle).
    destruct (Forall2_lookup_l _ _ _ _ _ Hus Hm) as (u & Hu & Hcar).
    destruct (OnMessage_followed st0 before (take (length out) us) (sv_text v) u v s1 HP Hcar Hv eq_refl
      (Hgap _ _ Hu)) as (s2 & H2 & Hf2 & Hcl). exists s2. rewrite Hcl. split; [done|]. split; [|done].
    unfold P. rewrite length_app. cbn [length]. rewrite Nat.add_1_r, (take_S_r _ _ _ Hu). exact Hf2.
  - split; [rewrite Hre; split; [apply length_replicate|apply Nat.le_0_l]|]. rewrite Hre. split; [done|].
    exists src. rewrite Happ. cbn [take feed_source shown]. unfold before. by rewrite app_nil_r.
  - cbn [app] in *. assert (take (length msgs) us = us) as Hall.
    { rewrite (Forall2_length _ _ _ Hus). apply firstn_all. }
    fold msgs in Hst, Hsh. rewrite Hall in Hst, Hsh. exists s', src'. by repeat (split; [done|]).
Qed.


(** A books message and a client, for the examples. *)
Definition sample_update : BookUpdateMsg := default (MkUpdate 0 0 [] []) (book_update sample_fields).
Definition sample_books : list Z := sv_text sample_message.
Definition sample_feed (source : Source) : OkxWsClient.St Feed unit :=
  OkxWsClient.MkSt sample_client (MkFeed source []) tt [].
Lemma sample_carries : carries sample_books sample_update.
Proof.
  split; [vm_compute; reflexivity|]. exists sample_data, [], sample_fields, [].
  split; [vm_compute; reflexivity|]. split; [vm_compute; reflexivity|]. split; [vm_compute; reflexivity|].
  split; [vm_compute; reflexivity|]. unfold update_ok. vm_compute. repeat (constructor; [reflexivity|]). constructor.
Qed.

Lemma json_feed_correct_witness :
  let world := sample_world 0 [] in
  let items := [OkxWsClient.Message WebSocketFrame.kText [take 9 sample_books] (drop 9 sample_books);
                OkxWsClient.Pong []] in
  let text := OkxWsClient.frames_text (items ≫= OkxWsClient.item_frames) in
  ∃ s' src', json.visit (λ c, OnRead (Some c)) [take 20 text; drop 20 text]
      (sample_feed (JsonSource (JsonBookSource.initial true (str "ETH-USDT")))) = (Ok tt, s') ∧
    feed_source (OkxWsClient.app s') = JsonSource src' ∧
    OrderBook.LastSeqId (JsonBookSource.book_ src') = 123456%Z ∧
    (λ x, (state_of x.1).2) <$> shown (OkxWsClient.app s') = [123456%Z].
Proof.
  intros world items text.
  destruct (@json_feed_correct unit world [take 20 text; drop 20 text] items [sample_update]
    (JsonBookSource.initial true (str "ETH-USDT")) []
    (sample_feed (JsonSource (JsonBookSource.initial true (str "ETH-USDT")))))
    as (s' & src' & Hrun & Hsrc & _ & Hst & Hsh); try reflexivity.
  - apply OrderBook.book_wf_empty.
  - assert (length sample_books ≤ OkxWsClient.kMaxMessageSize) as Hs.
    { etrans; [|apply OkxWsClient.message_size_small_nat]. apply Nat.leb_le. vm_compute. reflexivity. }
    apply Forall_cons; split; [|apply Forall_cons; split; [apply Nat.le_0_l|constructor]].
    split; [by left|]. cbn [concat]. rewrite app_nil_r, take_drop. exact Hs.
  - replace (items ≫= OkxWsClient.item_message) with [sample_books] by (vm_compute; reflexivity).
    repeat constructor. apply sample_carries.
  - intros [|[|]] u Hu; [|done..]. injection Hu as <-. vm_compute. reflexivity.
  - exists s', src'. split; [exact Hrun|]. split; [exact Hsrc|]. split.
    + apply (f_equal snd) in Hst. etrans; [exact Hst|]. vm_compute. reflexivity.
    + apply (f_equal (fmap (M:=list) snd)) in Hsh. rewrite <-list_fmap_compose in Hsh.
      etrans; [exact Hsh|]. vm_compute. reflexivity.
Defined.

(** C34. A connection of the SBE source delivers binary messages in frames,
    cut into reads in any way.  The book handler is called exactly for the
    messages that decode to a quote with a sequence number above that of
    every earlier one, in order, each time with a book that shows just that
    message's best bid and offer; the numbers of the books shown strictly
    increase.  Other messages leave the book alone: in the end it is the one
    that was shown last, or the old one if none was. *)
Theorem sbe_feed_correct {W} `{!World W} (chunks : list (list Z)) (items : list OkxWsClient.item)
    (code : Z) (src : SbeBboSource.t) (calls : list (OrderBook.t * TickToTradeTrace))
    (s : OkxWsClient.St Feed W) :
  OkxWsClient.app s = MkFeed (SbeSource code src) calls → SbeBboSource.on_book_update_ src = true →
  OrderBook.wf (SbeBboSource.book_ src) →
  OkxWsClient.rx_buffer_ (OkxWsClient.client s) = [] →
  OkxWsClient.reassembler_ (OkxWsClient.client s) = Reassembler.empty OkxWsClient.kMaxMessageSize →
  Forall OkxWsClient.item_ok items →
  concat chunks = OkxWsClient.frames_text (items ≫= OkxWsClient.item_frames) →
  let bbos := decoded <$> (items ≫= OkxWsClient.item_message) in
  let quotes := SbeBboSource.newer (SbeBboSource.last_seq_id_ src) bbos in
  ∃ s' new src', json.visit (λ c, OnRead (Some c)) chunks s = (Ok tt, s') ∧
    OkxWsClient.app s' = MkFeed (SbeSource code src') (calls ++ new) ∧
    Forall2 (λ c b, SbeBboSource.shows c.1 b) new quotes ∧
    SbeBboSource.book_ src' = default (SbeBboSource.book_ src) (fst <$> list.last new) ∧
    SbeBboSource.last_seq_id_ src' = SbeBboSource.newest (SbeBboSource.last_seq_id_ src) bbos ∧
    StronglySorted Z.lt (SbeBboSource.last_seq_id_ src :: (sbe.seq_id <$> quotes)).
Proof.
  intros Happ Hon Hwf Hrx Hre Hok Hc bbos quotes.
  destruct (OkxWsClient.chunks_items OnMessage (λ _, mret tt) (quoted code (SbeBboSource.last_seq_id_ src)
    (SbeBboSource.book_ src) calls) (λ _, True) chunks items [] s)
    as (s' & Hrun & (src' & new & Hsrc & _ & _ & Hlast & Hshown & Hbook & Hnew)); try done.
  - intros v out s1 Hv _ HP. destruct (OnMessage_quoted _ _ _ _ _ v s1 Hv HP) as (s2 & H2 & Hq & Hcl).
    exists s2. rewrite Hcl. by split.
  - split; [rewrite Hre; split; [apply length_replicate|apply Nat.le_0_l]|]. rewrite Hre. split; [done|].
    exists src, []. rewrite Happ, app_nil_r. repeat (split; [done|]). constructor.
  - exists s', new, src'. split; [done|]. split; [|split; [done|split; [done|split; [done|apply SbeBboSource.newer_increasing]]]].
    destruct (OkxWsClient.app s'); cbn [feed_source shown] in *. by subst.
Qed.

Lemma sbe_feed_correct_witness :
  let world := sample_world 0 [] in
  let message := OkxWsClient.Message WebSocketFrame.kBinary [] (sv_text sample_bbo_message) in
  let text := OkxWsClient.frames_text ([message; message] ≫= OkxWsClient.item_frames) in
  ∃ s' new, json.visit (λ c, OnRead (Some c)) [take 20 text; drop 20 text]
      (sample_feed (SbeSource 7 (SbeBboSource.initial true))) = (Ok tt, s') ∧
    shown (OkxWsClient.app s') = new ∧
    Forall2 (λ c b, SbeBboSource.shows c.1 b) new [sbe.wire_bbo sample_wire].
Proof.
  intros world message text.
  destruct (@sbe_feed_correct unit world [take 20 text; drop 20 text] [message; message] 7
    (SbeBboSource.initial true) [] (sample_feed (SbeSource 7 (SbeBboSource.initial true))))
    as (s' & new & src' & Hrun & Happ & Hnew & _); try reflexivity.
  - apply OrderBook.book_wf_empty.
  - assert (OkxWsClient.item_ok message) as Hm; [|exact (Forall_cons_2 _ _ _ Hm (Forall_cons_2 _ _ _ Hm (Forall_nil_2 _)))].
    split; [by right|].
    etrans; [|apply OkxWsClient.message_size_small_nat]. apply Nat.leb_le. vm_compute. reflexivity.
  - exists s', new. split; [exact Hrun|]. split; [by rewrite Happ|].
    replace [sbe.wire_bbo sample_wire] with (SbeBboSource.newer (SbeBboSource.last_seq_id_ (SbeBboSource.initial true))
      (decoded <$> ([message; message] ≫= OkxWsClient.item_message))) by (vm_compute; reflexivity). exact Hnew.
Defined.
