(* ===== verification/RoundTrip.v ===== *)
(** * Responses and the order round trip: okx/connectivity/ws_response_demux.*,
      okx/orders/ws_order_round_trip.*

    [WsResponseDemux] passes a response to the handler that was registered
    for its id, once.  [WsOrderRoundTrip] places one order, amends it when it
    is accepted and then cancels it, over the WebSocket or, when that is down,
    over REST; it also applies the events of the orders channel to the store. *)

From S2P Require Import Prelude Float64 Json Okx PriceText Perf OrderLifecycle OrderStore World.
From S2P Require Import OrderBook MarketData OrderEntry WsClient RateLimiter Risk Quoter.

Module WsResponseDemux.
(** [emplace] keeps an entry that is there. *)
Definition Track (id : list Z) (handler : ResponseHandler) (pending : Pending) : Pending :=
  match pending !! id with Some _ => pending | None => <[id := handler]> pending end.

(** The entry that a message belongs to. *)
Definition lookup_message (message : string_view) (pending : Pending)
    : option (list Z * ResponseHandler) :=
  match json.FindString message kId with
  | None => None
  | Some id => handler ← pending !! sv_text id; Some (sv_text id, handler)
  end.

Section dispatch.
Context {W : Type} `{!World W}.
Notation S := (OkxWsClient.St App W).

(** [run] calls a handler. *)
Definition Dispatch (run : ResponseHandler → string_view → M S unit) (message : string_view)
    : M S bool :=
  pending ← see ws_demux_;
  match lookup_message message pending with
  | None => mret false
  | Some (id, handler) =>
      _ ← change (set_demux (delete id pending));
      _ ← run handler message;
      mret true
  end.
End dispatch.
End WsResponseDemux.

Module WsOrderRoundTrip.
Definition kSmokeTestAmendPx := str "101".
Definition make (order_request : OrderRequest) : RoundTripState := MkRoundTrip order_request [] [].

Section round_trip.
Context {W : Type} `{!World W} (freq : Z) (rest_client_ : RestClient) (auth_ : OkxAuth).
Notation S := (OkxWsClient.St App W).

Definition ask_trip {A} (f : RoundTripState → A) : M S A := see (λ a, f (order_round_trip_ a)).
Definition set_ord_id (id : list Z) : M S unit := change (λ a,
  set_round_trip (MkRoundTrip (order_request_ (order_round_trip_ a)) id
    (rt_cl_ord_id_ (order_round_trip_ a))) a).
Definition set_cl_ord_id (id : list Z) : M S unit := change (λ a,
  set_round_trip (MkRoundTrip (order_request_ (order_round_trip_ a))
    (rt_ord_id_ (order_round_trip_ a)) id) a).
Definition Track (id : list Z) (handler : ResponseHandler) : M S unit :=
  change (λ a, set_demux (WsResponseDemux.Track id handler (ws_demux_ a)) a).
Definition IsConnected : M S bool := OkxWsClient.read OkxWsClient.transport_.

(** [Remove] with the listener that the engine installs. *)
Definition Remove (cl_ord_id : list Z) : M S unit :=
  notified ← on_store (OrderStore.Remove cl_ord_id);
  match notified with
  | None => mret tt
  | Some id => NaiveQuoter.update (NaiveQuoter.OnOrderRemoved id)
  end.

Definition FallBackToRestCancel : M S unit :=
  request ← ask_trip order_request_;
  ord_id ← ask_trip rt_ord_id_;
  _ ← on_world (CancelOrder rest_client_ auth_ (rq_inst_id request) ord_id);
  mret tt.

Definition Start : M S unit :=
  connected ← IsConnected;
  request ← ask_trip order_request_;
  if negb connected then
    result ← on_ids (PlaceOrder rest_client_ auth_ request);
    if or_accepted result then
      _ ← set_ord_id (or_ord_id result);
      FallBackToRestCancel
    else mret tt
  else
    order ← on_ids (BuildWsOrderMessage request);
    _ ← set_cl_ord_id (wo_id order);
    _ ← Add (wo_id order) (rq_inst_id request) (rq_side request) (rq_px request) (rq_sz request);
    _ ← Send freq (wo_message order) None;
    Track (wo_id order) OrderResponse.

Definition ApplyOrderEvent (event : OrderEvent) : M S unit :=
  store ← see order_store_;
  found ← lift (OrderStore.FindByClOrdId (ev_cl_ord_id event) store);
  match found with
  | None => mret tt
  | Some i =>
      _ ← on_store (OrderStore.with_order i (Order.ApplyEvent event));
      store ← see order_store_;
      o ← lift (OrderStore.At i store);
      if IsTerminal (Order.state_ o) then Remove (Order.cl_ord_id_ o) else mret tt
  end.

(** The slot of the order, a reference in the code. *)
Definition GetOrder : M S nat :=
  cl_ord_id ← ask_trip rt_cl_ord_id_;
  store ← see order_store_;
  found ← lift (OrderStore.FindByClOrdId cl_ord_id store);
  match found with
  | None => throwM (runtime_error "WsOrderRoundTrip: order not found in order_store_" [])
  | Some i => mret i
  end.

Definition OnOrderResponse (response : string_view) : M S unit :=
  if negb (IsRequestAccepted response) then mret tt
  else
    let ord_id := data ← FindData response; json.FindString data kOrdId in
    match ord_id with
    | None => mret tt
    | Some ord_id =>
        _ ← set_ord_id (sv_text ord_id);
        connected ← IsConnected;
        if negb connected then FallBackToRestCancel
        else
          i ← GetOrder;
          now ← on_world (ask steady_clock_now);
          _ ← on_store (OrderStore.with_order i (Order.OnAmendRequested now));
          request ← ask_trip order_request_;
          amend ← on_ids (BuildWsAmendOrderMessage (rq_inst_id_code request) (sv_text ord_id)
                            kSmokeTestAmendPx (rq_sz request));
          _ ← Send freq (wo_message amend) None;
          Track (wo_id amend) AmendResponse
    end.

(** What both later responses do when the request was rejected; the log line
    looks the order up again. *)
Definition request_rejected : M S unit :=
  i ← GetOrder;
  _ ← on_store (OrderStore.with_order i Order.OnRequestRejected);
  _ ← GetOrder;
  mret tt.

Definition OnAmendResponse (response : string_view) : M S unit :=
  _ ← (if negb (IsRequestAccepted response) then request_rejected else mret tt);
  connected ← IsConnected;
  if negb connected then FallBackToRestCancel
  else
    i ← GetOrder;
    now ← on_world (ask steady_clock_now);
    _ ← on_store (OrderStore.with_order i (Order.OnCancelRequested now));
    request ← ask_trip order_request_;
    ord_id ← ask_trip rt_ord_id_;
    cancel ← on_ids (BuildWsCancelOrderMessage (rq_inst_id_code request) ord_id);
    _ ← Send freq (wo_message cancel) None;
    Track (wo_id cancel) CancelResponse.

Definition OnCancelResponse (response : string_view) : M S unit :=
  if negb (IsRequestAccepted response) then request_rejected else mret tt.

Definition run_handler (handler : ResponseHandler) (response : string_view) : M S unit :=
  match handler with
  | OrderResponse => OnOrderResponse response
  | AmendResponse => OnAmendResponse response
  | CancelResponse => OnCancelResponse response
  end.
End round_trip.
End WsOrderRoundTrip.

(** ** Events *)

(** What an event makes of the orders: the id of an order that leaves, and the
    orders that are left. *)
Definition event_orders (event : OrderEvent) (m : gmap (list Z) Order.t)
    : result unit * option (list Z) * gmap (list Z) Order.t :=
  let k := ev_cl_ord_id event in
  match m !! k with
  | None => (Ok tt, None, m)
  | Some o =>
      let '(r, o') := Order.ApplyEvent event o in
      match r with
      | Stop x => (Stop x, None, <[k := o']> m)
      | Ok _ => if IsTerminal (Order.state_ o') then (Ok tt, Some k, delete k m)
                else (Ok tt, None, <[k := o']> m)
      end
  end.
Definition with_app {W} (f : App → App) (s : OkxWsClient.St App W) : OkxWsClient.St App W :=
  OkxWsClient.MkSt (OkxWsClient.client s) (f (OkxWsClient.app s)) (OkxWsClient.world s)
    (OkxWsClient.effects s).
(** The store is [st], and the quoter has heard what left it. *)
Definition with_orders (st : OrderStore.t) (gone : option (list Z)) (a : App) : App :=
  set_quoter (match gone with
              | Some k => NaiveQuoter.OnOrderRemoved k (quoter_ a) | None => quoter_ a end)
    (set_store st a).

Lemma Remove_effect {W} (s : OkxWsClient.St App W) os k :
  OrderStore.wf (order_store_ (OkxWsClient.app s)) os →
  OrderStore.on_remove_ (order_store_ (OkxWsClient.app s)) = true →
  is_Some (OrderStore.orders os !! k) →
  ∃ st' os', OrderStore.wf st' os' ∧ OrderStore.orders os' = delete k (OrderStore.orders os) ∧
    OrderStore.on_remove_ st' = true ∧
    WsOrderRoundTrip.Remove k s = (Ok tt, with_app (with_orders st' (Some k)) s).
Proof.
  intros Hwf Hon Hk. destruct (OrderStore.Remove_spec _ os Hwf k) as (st' & os' & HR & Hwf' & Ho & Hon').
  exists st', os'. split; [done|]. split; [done|]. split; [by rewrite Hon'|].
  rewrite Hon, bool_decide_true in HR by done. cbn [andb] in HR.
  unfold WsOrderRoundTrip.Remove, on_store, on_app, zoom, mbind, M_bind. by rewrite HR.
Qed.

(** C14. An event of the orders channel, applied to a store that represents a
    map of orders: an event for an unknown client order id changes nothing;
    any other one moves its order, and only that, through the state machine;
    an order that reaches a terminal state leaves the store, and the quoter
    forgets it; an event that the state machine refuses is reported as an
    exception, with the changes that it had already made to the order.  No
    other member of the engine, nor the connection, changes. *)
Theorem order_event_applied {W} event (s : OkxWsClient.St App W) os :
  OrderStore.wf (order_store_ (OkxWsClient.app s)) os →
  OrderStore.on_remove_ (order_store_ (OkxWsClient.app s)) = true →
  let '(r, gone, m') := event_orders event (OrderStore.orders os) in
  ∃ st' os', OrderStore.wf st' os' ∧ OrderStore.orders os' = m' ∧
    OrderStore.on_remove_ st' = true ∧
    WsOrderRoundTrip.ApplyOrderEvent event s = (r, with_app (with_orders st' gone) s).
Proof.
  intros Hwf Hon. unfold event_orders. set (k := ev_cl_ord_id event).
  destruct (OrderStore.FindByClOrdId_spec _ os Hwf k) as (found & Hfind & Hlook).
  pose proof Hwf as (_ & _ & _ & Hsort).
  unfold WsOrderRoundTrip.ApplyOrderEvent, see, mbind at 1, M_bind at 1.
  unfold mbind at 1, M_bind at 1, get. cbn [mret M_ret]. unfold mbind at 1, M_bind at 1, lift.
  unfold k in Hfind. rewrite Hfind. destruct found as [i|].
  2:{ simpl in Hlook. rewrite Hlook. exists (order_store_ (OkxWsClient.app s)), os.
      do 3 (split; [done|]). destruct s as [c a w ef]. by destruct a. }
  simpl in Hlook. destruct (OrderStore.orders os !! k) as [o|] eqn:Ho.
  2:{ destruct (OrderStore.FindByClOrdId_list _ os k Hwf) as (r & Hr & Hi).
      unfold k in Hr. rewrite Hfind in Hr. injection Hr as <-. destruct Hi as (x & Hx & _). congruence. }
  symmetry in Hlook. apply OrderStore.orders_lookup in Ho as [_ Hcl]; [|done].
  destruct (OrderHistory.step_identity (Order.Event event) o) as [Hid _]. cbn [Order.step] in Hid.
  assert (OrderStore.cl (Order.ApplyEvent event o).2 = OrderStore.cl o) as Hkeep.
  { unfold OrderStore.cl, OrderHistory.identity in *. congruence. }
  destruct (OrderStore.with_order_spec _ os Hwf i o (Order.ApplyEvent event) Hlook Hkeep)
    as (st1 & os1 & Hw & Hwf1 & Ho1 & Hon1).
  destruct (OrderStore.with_order_list _ os i o (Order.ApplyEvent event) Hwf Hlook Hkeep)
    as (st2 & Hw2 & Hwf2 & _).
  rewrite Hw in Hw2. injection Hw2 as <-. rewrite Hon in Hon1.
  rewrite Hcl in Ho1. destruct (Order.ApplyEvent event o) as [r o'] eqn:E. cbn [fst snd] in *.
  unfold mbind at 1, M_bind at 1, on_store, on_app, zoom. rewrite Hw.
  destruct r as [[]|x].
  2:{ exists st1, os1. do 3 (split; [done|]). destruct s as [c a w ef]. by destruct a. }
  unfold mbind at 1, M_bind at 1, see. unfold mbind at 1, M_bind at 1, get. cbn [mret M_ret].
  cbn [OkxWsClient.app]. unfold mbind at 1, M_bind at 1, lift.
  change (order_store_ (set_store st1 (OkxWsClient.app s))) with st1.
  rewrite (OrderStore.At_wf st1 _ Hwf2 i o')
    by (apply list_lookup_insert_eq; by eapply lookup_lt_Some).
  destruct (IsTerminal (Order.state_ o')) eqn:Et.
  2:{ exists st1, os1. do 3 (split; [done|]). destruct s as [c a w ef]. by destruct a. }
  change (Order.cl_ord_id_ o') with (OrderStore.cl o'). rewrite Hkeep, Hcl.
  destruct (Remove_effect (with_app (set_store st1) s) os1 k Hwf1 Hon1)
    as (st' & os' & Hwf' & Ho' & Hon' & HR).
  { rewrite Ho1, lookup_insert_eq. by eexists. }
  exists st', os'. split; [done|]. split; [by rewrite Ho', Ho1, delete_insert_eq|]. split; [done|].
  transitivity (Ok (), with_app (with_orders st' (Some k)) (with_app (set_store st1) s)); [exact HR|].
  destruct s as [c a w ef]. by destruct a.
Qed.

(** The quoter's bid is filled. *)
Definition sample_order : Order.t :=
  Order.make 0 (str "9") (str "ETH-USDT") kBuy (str "100") (str "1").
Definition sample_store : OrderStore.t :=
  OrderStore.Mk (OrderStore.slots_of [sample_order]) 1 true.
Definition sample_members : App :=
  MkApp sample_store KillSwitch.initial (EndpointRateLimiter.make (1, 1%Z) (1, 1%Z) (1, 1%Z))
    (MkQuoter (str "ETH-USDT") 7 (str "1") (f_of_Z 1) 0 (f_of_Z 1) (f_of_Z 1) None (Some (str "9")) None)
    AccountState.initial ∅ (WsOrderRoundTrip.make sample_place) Position.flat TickToTradeStats.empty
    (JsonSource (JsonBookSource.initial true (str "ETH-USDT"))) 0 [].
Definition sample_filled : OrderEvent :=
  MkEvent kFill (str "70") (str "9") (str "ETH-USDT") kBuy (str "100") (str "1") (str "1") (str "100") None.
Lemma order_event_applied_witness :
  ∃ st' os', OrderStore.wf st' os' ∧ OrderStore.orders os' = ∅ ∧
    WsOrderRoundTrip.ApplyOrderEvent sample_filled
      (OkxWsClient.MkSt (OkxWsClient.make [] [] [] None kJson) sample_members tt []) =
    (Ok tt, OkxWsClient.MkSt (OkxWsClient.make [] [] [] None kJson)
              (with_orders st' (Some (str "9")) sample_members) tt []) ∧
    bid_cl_ord_id_ (quoter_ (with_orders st' (Some (str "9")) sample_members)) = None.
Proof.
  assert (OrderStore.wf sample_store [sample_order]) as Hwf.
  { split; [reflexivity|]. split; [reflexivity|]. split; [unfold OrderStore.kCapacity; simpl; lia|].
    repeat constructor. }
  pose proof (order_event_applied sample_filled
    (OkxWsClient.MkSt (OkxWsClient.make [] [] [] None kJson) sample_members tt [])
    [sample_order] Hwf eq_refl) as H.
  match type of H with
  | match ?m with _ => _ end =>
      assert (m = (Ok tt, Some (str "9"), ∅)) as Hm by (vm_compute; reflexivity); rewrite Hm in H
  end.
  destruct H as (st' & os' & H1 & H2 & _ & H4). exists st', os'.
  split; [exact H1|]. split; [exact H2|]. split; [exact H4|reflexivity].
Defined.
