(* ===== verification/Engine.v ===== *)
(** * The engine: okx/engine/engine.cpp, okx/marketdata/market_data_source.cpp

    The routing of what happens to the components: messages on the private
    connection, messages of the market data source, timers and signals. *)

From S2P Require Import Prelude Float64 Json Okx PriceText Perf OrderBook MarketData SbeBbo.
From S2P Require Import OrderLifecycle OrderStore World OrderEntry WsClient Reconciliation RateLimiter.
From S2P Require Import Risk Quoter RoundTrip.

Definition kBtcUsdt := str "BTC-USDT".
Definition kEthUsdt := str "ETH-USDT".
Definition kOkxRestBaseUrl := str "https://www.okx.com".
Definition kOkxWsHost := str "wspap.okx.com".
Definition kOkxWsPort := str "8443".
Definition kPublicWsPath := str "/ws/v5/public".
Definition kSbeWsPath := str "/ws/v5/public-sbe".
Definition kPrivateWsPath := str "/ws/v5/private".

Inductive MarketDataMode := kJsonBook | kSbeBbo.
(** [MakeMarketDataSource]; the engine sets the book handler. *)
Definition MakeMarketDataSource (mode : MarketDataMode) (inst_id_code : Z) : Source :=
  match mode with
  | kJsonBook => JsonSource (JsonBookSource.initial true kEthUsdt)
  | kSbeBbo => SbeSource inst_id_code (SbeBboSource.initial true)
  end.

Module Engine.
Definition kPrivateSubscribeMsg : list Z :=
  qstr "{'op':'subscribe','args':" ++
  qstr "[{'channel':'orders','instType':'SPOT'},{'channel':'account'}," ++
  qstr "{'channel':'positions','instType':'ANY'}]}".
Definition kRiskLimits : RiskLimits :=
  MkLimits (f_of_Z 1) (f_of_Z 1000) (f_of_decimal false 5 (-2)) 10.
Definition kMaxRealizedLoss : double := f_of_Z 50.
Definition kQuoterSz := str "0.01".
Definition kQuoterBps : double := f_of_decimal false 1 (-2).
Definition kRequoteThresholdBps : double := f_of_decimal false 1 (-2).
(** Sixty requests in two seconds, in nanoseconds of the steady clock. *)
Definition kOrderRateLimit : nat * Z := (60, 2000000000%Z).
Definition kCancelRateLimit : nat * Z := (60, 2000000000%Z).
Definition kAmendRateLimit : nat * Z := (60, 2000000000%Z).

(** The members after the constructor has run. *)
Definition make (mode : MarketDataMode) (inst_id_code : Z) (tick_sz : list Z) (request : OrderRequest)
    (stats : TickToTradeStats.t) (last : Z) : result App :=
  quoter ← NaiveQuoter.make kEthUsdt inst_id_code kQuoterSz tick_sz kQuoterBps kRequoteThresholdBps;
  Ok (MkApp (OrderStore.SetOnRemove OrderStore.empty) KillSwitch.initial
        (EndpointRateLimiter.make kOrderRateLimit kCancelRateLimit kAmendRateLimit) quoter
        AccountState.initial ∅ (WsOrderRoundTrip.make request) Position.flat stats
        (MakeMarketDataSource mode inst_id_code) last [StartTimeoutTimer; StartQuoterTimer; StartStatsTimer]).

Section engine.
Context {W : Type} `{!World W} `{!ToChars} (freq : Z).
Context (rest_client_ : RestClient) (auth_ : OkxAuth) (clock : list Z → Z).
Notation S := (OkxWsClient.St App W).

Definition Trigger : M S unit :=
  store ← see order_store_;
  zoom (λ s, (kill_switch_ (OkxWsClient.app s), OkxWsClient.world s))
       (λ x s, OkxWsClient.MkSt (OkxWsClient.client s) (set_kill x.1 (OkxWsClient.app s)) x.2
                 (OkxWsClient.effects s))
       (KillSwitch.Trigger rest_client_ auth_ store).

(** The removals that reconciliation reports, in order. *)
Definition notify_removed (ids : list (list Z)) : M S unit :=
  json.visit (λ id, NaiveQuoter.update (NaiveQuoter.OnOrderRemoved id)) ids.
Definition Reconcile (pending : HttpResponse) : M S unit :=
  removed ← on_store (reconciliation.ReconcileOrders clock (sv_of (body pending)));
  notify_removed removed.

(** The guard of the strategy's calls. *)
Definition may_quote : M S bool :=
  triggered ← see (λ a, KillSwitch.IsTriggered (kill_switch_ a));
  authenticated ← OkxWsClient.read OkxWsClient.authenticated_;
  mret (negb triggered && authenticated).

(** *** Timers and signals *)
Definition OnQuoterTimer : M S unit :=
  ok ← may_quote;
  _ ← (if ok : bool then NaiveQuoter.OnTimer freq else mret tt);
  request StartQuoterTimer.
Definition LogSummary : M S unit :=
  stats ← see tick_to_trade_stats_;
  _ ← lift (TickToTradeStats.LogSummary stats);
  mret tt.
Definition OnStatsTimer : M S unit :=
  _ ← LogSummary;
  request StartStatsTimer.
Definition OnShutdownSignal : M S unit :=
  _ ← LogSummary;
  _ ← Trigger;
  request StopIoContext.
(** The check of the timeout monitor, with the removals it reports. *)
Definition CheckAndResolve : M S unit :=
  removed ← zoom (λ s, (order_store_ (OkxWsClient.app s), OkxWsClient.world s))
    (λ x s, OkxWsClient.MkSt (OkxWsClient.client s) (set_store x.1 (OkxWsClient.app s)) x.2
              (OkxWsClient.effects s))
    (OrderTimeoutMonitor.CheckAndResolve rest_client_ auth_ clock);
  notify_removed removed.
Definition OnTimeoutCheck : M S unit :=
  _ ← CheckAndResolve;
  request StartTimeoutTimer.

(** *** Market data *)
Definition on_book_update (book : OrderBook.t) (trace : TickToTradeTrace) : M S unit :=
  ok ← may_quote;
  if ok : bool then NaiveQuoter.OnBookUpdate freq book trace else mret tt.

(** The counter is read when the book is consistent. *)
Definition on_consistent_book (book : OrderBook.t) (trace : TickToTradeTrace) : M S unit :=
  ticks ← on_world (ask ReadCounter);
  on_book_update book (set_book_consistent ticks trace).
Definition json_output (o : JsonBookSource.output) : M S unit :=
  match o with
  | JsonBookSource.Send message => request (MarketDataSend message)
  | JsonBookSource.BookUpdate book trace => on_consistent_book book trace
  end.
(** The source's connection is up: it subscribes. *)
Definition OnMarketConnected : M S unit :=
  source ← see market_data_;
  match source with
  | JsonSource s => json.visit json_output (JsonBookSource.OnConnected s)
  | SbeSource code _ => request (MarketDataSend (SbeBboSource.OnConnected code))
  end.
(** A message of the source, with the stamps of its connection. *)
Definition OnMarketData (arrival decoded : Z) (message : string_view) : M S unit :=
  source ← see market_data_;
  match source with
  | JsonSource s =>
      let '(r, s') := JsonBookSource.OnMessage arrival decoded 0 message s in
      _ ← change (set_market_data (JsonSource s'));
      outputs ← lift r;
      json.visit json_output outputs
  | SbeSource code s =>
      let '(r, s') := SbeBboSource.OnMessage arrival decoded 0 message s in
      _ ← change (set_market_data (SbeSource code s'));
      update ← lift r;
      match update with None => mret tt | Some (book, trace) => on_consistent_book book trace end
  end.

(** *** Private messages *)
Definition HandleLoginEvent (message : string_view) : M S unit :=
  let code := ValueOrEmpty (json.FindString message kCode) in
  if decide (code ≠ kSuccessCode) then mret tt
  else
    _ ← Send freq kPrivateSubscribeMsg None;
    pending ← on_world (GetPendingOrders rest_client_ auth_);
    _ ← Reconcile pending;
    triggered ← see (λ a, KillSwitch.IsTriggered (kill_switch_ a));
    if triggered : bool then mret tt
    else
      store ← see order_store_;
      order_request ← WsOrderRoundTrip.ask_trip order_request_;
      risk_check ← lift (CheckPreTradeRisk kRiskLimits order_request store None);
      match risk_check with
      | failed _ => mret tt
      | passed => WsOrderRoundTrip.Start freq rest_client_ auth_
      end.

(** The position follows a fill; a loss beyond the limit stops trading. *)
Definition apply_fill (side : list Z) (fill : OrderFill) : M S unit :=
  _ ← change (λ a, set_position
        (Position.ApplyFill side (fill_px fill) (fill_sz fill) (position_ a)) a);
  loss ← see (λ a, flt (Position.RealizedPnl (position_ a)) (fneg kMaxRealizedLoss));
  if loss : bool then Trigger else mret tt.
Definition HandleOrderEvent (event : OrderEvent) : M S unit :=
  _ ← match ev_type event with
      | kFill | kPartialFill =>
          match ev_fill event with
          | Some fill => _ ← NaiveQuoter.OnFill event; apply_fill (ev_side event) fill
          | None => mret tt
          end
      | kCancel => NaiveQuoter.OnCancel event
      | _ => mret tt
      end;
  WsOrderRoundTrip.ApplyOrderEvent event.

Definition HandleOrdersChannelMessage (message : string_view) : M S unit :=
  order_events.ForEachOrderEvent message HandleOrderEvent.

Definition HandleAccountChannelMessage (message : string_view) : M S unit :=
  _ ← on_app (zoom account_state_ set_account (AccountState.ApplyMessage message));
  account ← see account_state_;
  AccountState.ForEachBalance (λ _, mret tt) account.

Definition OnPrivateWsMessage (message : string_view) : M S unit :=
  if opt_eqb (json.FindString message kEvent) kLoginEvent then HandleLoginEvent message
  else
    dispatched ← WsResponseDemux.Dispatch
      (WsOrderRoundTrip.run_handler freq rest_client_ auth_) message;
    if dispatched : bool then mret tt
    else
      let channel := json.FindString message kChannel in
      if opt_eqb channel kOrdersChannel then HandleOrdersChannelMessage message
      else if opt_eqb channel kAccountChannel then HandleAccountChannelMessage message
      else mret tt.

(** ** Everything that can happen

    The completions of the private connection, with the engine's handlers, and
    the other sources of events.  No handler is set for a new connection. *)
Inductive event :=
  | Connected (fuel : nat)
  | ReadDone (chunk : option (list Z))
  | WriteDone (bytes : option nat)
  | HeartbeatDue
  | MarketConnected
  | MarketMessage (arrival decoded : Z) (message : string_view)
  | QuoterTimer
  | StatsTimer
  | TimeoutCheck
  | ShutdownSignal.

Definition handle (e : event) : M S unit :=
  match e with
  | Connected fuel => OkxWsClient.Connect (mret tt) (on_trace_resolved freq) fuel
  | ReadDone chunk => OkxWsClient.OnRead OnPrivateWsMessage (on_trace_resolved freq) chunk
  | WriteDone bytes => OkxWsClient.OnWrite (on_trace_resolved freq) bytes
  | HeartbeatDue => OkxWsClient.OnHeartbeat (on_trace_resolved freq)
  | MarketConnected => OnMarketConnected
  | MarketMessage arrival decoded message => OnMarketData arrival decoded message
  | QuoterTimer => OnQuoterTimer
  | StatsTimer => OnStatsTimer
  | TimeoutCheck => OnTimeoutCheck
  | ShutdownSignal => OnShutdownSignal
  end.

(** Events until one throws or stops the event loop, which ends [Run]. *)
Definition stopped (a : App) : bool :=
  existsb (λ r, match r with StopIoContext => true | _ => false end) (requests a).
Fixpoint run (es : list event) : M S unit :=
  done ← see stopped;
  if done : bool then mret tt
  else match es with
       | [] => mret tt
       | e :: es' => _ ← handle e; run es'
       end.
End engine.
End Engine.
