(* ===== verification/EngineInvariants.v ===== *)
(** * What holds of the engine whatever happens

    A predicate on the engine's members and the REST requests made survives
    every event if it survives a few operations ([stable], and the hypotheses
    of [up_run]).  Two instances that look only at the kill switch, the
    position and the requests are the properties at the end: the loss limit
    always trips the kill switch, and behind a tripped kill switch no order is
    placed.  QuoterSlots and PlacementRate have one more each. *)

From S2P Require Import Prelude Float64 Json Rules Okx PriceText Perf OrderBook MarketData SbeBbo.
From S2P Require Import OrderLifecycle OrderStore World Transport OrderEntry Handshake WebSocketFrame WsClient.
From S2P Require Import Reconciliation RateLimiter Risk Quoter RoundTrip Engine.

(** ** The outside world

    Along which relation it moves when the program calls it: [Along] lists the
    operations of [World].  An invariant that looks at the world is kept by
    such moves; one that does not takes [anyhow]. *)
Class Along {W} (wo : World W) (R : relation W) : Prop := {
  along_order :: PreOrder R;
  along_steady w : R w (steady_clock_now w).2;
  along_system w : R w (system_clock_now w).2;
  along_counter w : R w (ReadCounter w).2;
  along_random n w : R w (RAND_bytes n w).2;
  along_uniform a b w : R w (uniform_int a b w).2;
  along_resolve h p w : R w (resolver_resolve h p w).2;
  along_connect e w : R w (socket_connect e w).2;
  along_set o w : R w (stream_set o w).2;
  along_host h w : R w (SSL_set_tlsext_host_name h w).2;
  along_handshake w : R w (stream_handshake w).2;
  along_write d w : R w (stream_write d w).2;
  along_read n w : R w (stream_read_some n w).2;
  along_curl o w : R w (curl_easy_perform o w).2 }.
Ltac along :=
  intros; first [apply along_steady | apply along_system | apply along_counter | apply along_random
    | apply along_uniform | apply along_resolve | apply along_connect | apply along_set | apply along_host
    | apply along_handshake | apply along_write | apply along_read | apply along_curl].
Definition anyhow {W} : relation W := λ _ _, True.
#[export] Instance along_anyhow {W} (wo : World W) : Along wo anyhow.
Proof. by repeat split. Qed.

(** A computation moves the world so; and besides REST requests, what is asked
    of the world leaves the list of those. *)
Definition moves {W L A} (R : relation W) (m : M (W * L) A) : Prop :=
  ∀ w0, upholds (λ w, R w0 w.1) any m.
Definition offline {W L A} (R : relation W) (m : M (W * L) A) : Prop :=
  ∀ l w0, upholds (λ w, w.2 = l ∧ R w0 w.1) any m.

Lemma offline_ask {W L A} (R : relation W) `{!Transitive R} (f : W → A * W) :
  (∀ w, R w (f w).2) → offline (L:=L) R (ask (on_fst f)).
Proof.
  intros Hf l w0 w [Hl Hw]. unfold ask, on_fst. specialize (Hf w.1). destruct (f w.1).
  split; [done|]. by etrans.
Qed.
Lemma offline_ask_or_throw {W L A} (R : relation W) `{!Transitive R} (f : W → (list Z + A) * W) :
  (∀ w, R w (f w).2) → offline (L:=L) R (ask_or_throw (on_fst f)).
Proof.
  intros Hf l w0 w [Hl Hw]. unfold ask_or_throw, on_fst. specialize (Hf w.1). destruct (f w.1) as [[] ?].
  - split; [|done]. split; [done|]. by etrans.
  - split; [done|]. by etrans.
Qed.
Lemma moves_state {W L A} (R : relation W) `{!Reflexive R} (m : M (W * L) A) w :
  moves R m → R w.1 (m w).2.1.
Proof. intros Hm. specialize (Hm w.1 w (reflexivity _)). destruct (m w) as [[] ?]; [done|]. apply Hm. Qed.
Lemma offline_state {W L A} (R : relation W) `{!Reflexive R} (m : M (W * L) A) w :
  offline R m → (m w).2.2 = w.2 ∧ R w.1 (m w).2.1.
Proof.
  intros Hm. specialize (Hm w.2 w.1 w (conj eq_refl (reflexivity _))). destruct (m w) as [[] ?]; [done|]. apply Hm.
Qed.
Lemma offline_moves {W L A} (R : relation W) `{!PreOrder R} (m : M (W * L) A) : offline R m → moves R m.
Proof.
  intros Hm w0 w Hw. destruct (offline_state R m w Hm) as [_ Hr]. destruct (m w) as [[] ?];
    [|split; [|done]]; by etrans.
Qed.

(** One call. *)
Ltac one_call := first [apply offline_ask; [apply _|along] | apply offline_ask_or_throw; [apply _|along]].

Section offline.
Context {W : Type} (wo : World W) (R : relation W) `{!Along wo R}.
#[local] Existing Instance recording.
Notation offline := (offline (L:=list CurlOptions) R).
Notation moves := (moves (L:=list CurlOptions) R).
Lemma offline_login a : offline (BuildPrivateWsLoginMessage a).
Proof. intros l w0. unfold BuildPrivateWsLoginMessage, SignWsLogin, UnixTimestampSecondsNow. uphold; one_call. Qed.
Lemma offline_sbe_login a : offline (SbeWsLoginHeaders a).
Proof. intros l w0. unfold SbeWsLoginHeaders, SignWsLogin, UnixTimestampSecondsNow. uphold; one_call. Qed.
Lemma offline_make : offline Transport.make.
Proof. one_call. Qed.
Lemma offline_connect host port : offline (Transport.Connect host port).
Proof. intros l w0. unfold Transport.Connect. uphold; one_call. Qed.
Lemma offline_read_response fuel r : offline (ReadHandshakeResponse fuel r).
Proof.
  intros l w0. revert r. induction fuel as [|fuel IH]; intros r; cbn [ReadHandshakeResponse]; uphold. one_call.
Qed.
Lemma offline_handshake fuel host path headers : offline (PerformWebSocketHandshake fuel host path headers).
Proof.
  intros l w0. unfold PerformWebSocketHandshake, GenerateWebSocketKey.
  uphold; first [apply offline_read_response | one_call].
Qed.

(** REST requests. *)
Lemma moves_sign a m p b : moves (SignHeaders a m p b).
Proof.
  apply offline_moves; [apply _|]. intros l w0. unfold SignHeaders, IsoTimestampNow. uphold. one_call.
Qed.
Lemma moves_perform c post path headers : moves (Perform c post path headers).
Proof.
  intros w0. unfold Perform. apply upholds_bind; [|intros [?|? ?]; [by apply upholds_throw|apply upholds_ret]].
  intros w Hw. unfold ask. cbn [curl_easy_perform recording]. pose proof (along_curl (wo:=wo) (R:=R)) as Hc.
  specialize (Hc (MkCurl (base_url_ c ++ path) post headers kTimeoutMs kConnectTimeoutMs) w.1).
  destruct (curl_easy_perform _ w.1). by etrans.
Qed.
Lemma moves_cancel rest a inst ord : moves (CancelOrder rest a inst ord).
Proof. intros w0. unfold CancelOrder, Post. uphold; [apply moves_sign|apply moves_perform]. Qed.
Lemma moves_pending rest a : moves (GetPendingOrders rest a).
Proof. intros w0. unfold GetPendingOrders, Get. uphold; [apply moves_sign|apply moves_perform]. Qed.
Lemma moves_cancel_all rest a l : moves (KillSwitch.cancel_all rest a l).
Proof.
  induction l as [|[inst ord] l IH]; intros w0; cbn [KillSwitch.cancel_all]; [apply upholds_ret|].
  apply upholds_bind; [apply moves_cancel|]. intros _. apply IH.
Qed.

Definition offline_ids {A} (m : M (Z * (W * list CurlOptions)) A) : Prop :=
  ∀ l w0 last, upholds (λ x, (x.2.2 = l ∧ R w0 x.2.1) ∧ (last ≤ x.1)%Z) any m.
Lemma offline_generate : offline_ids GenerateId.
Proof.
  intros l w0 last [n w] [Hw Hn]. unfold GenerateId, OrderEntry.on_world, zoom, mbind, M_bind, get, put, lift.
  cbn [fst snd]. destruct (ask system_clock_now w) as [r w1] eqn:E.
  assert (w1.2 = l ∧ R w0 w1.1) as Hl.
  { assert (offline (ask (on_fst system_clock_now))) as Ho by one_call.
    specialize (Ho l w0 w Hw). change (ask (on_fst system_clock_now) w) with (ask system_clock_now w) in Ho.
    rewrite E in Ho. destruct r; [done|apply Ho]. }
  destruct r; [|done]. cbn [fst snd] in *. destruct (_ <=? _)%Z; [done|]. split; [done|].
  cbn [fst]. lia.
Qed.
Lemma offline_order r : offline_ids (BuildWsOrderMessage r).
Proof. intros l w0 last. unfold BuildWsOrderMessage. uphold. apply offline_generate. Qed.
Lemma offline_amend c o p z : offline_ids (BuildWsAmendOrderMessage c o p z).
Proof. intros l w0 last. unfold BuildWsAmendOrderMessage. uphold. apply offline_generate. Qed.
Lemma offline_cancel c o : offline_ids (BuildWsCancelOrderMessage c o).
Proof. intros l w0 last. unfold BuildWsCancelOrderMessage. uphold. apply offline_generate. Qed.
End offline.

(** ** Messages and requests that place no order *)
Definition amend_text (id : list Z) (code : Z) (ord_id px sz : list Z) : list Z :=
  qstr "{'id':'" ++ id ++ qstr "','op':'amend-order','args':[{'instIdCode':" ++
  to_string code ++ qstr ",'ordId':'" ++ ord_id ++ qstr "','newPx':'" ++ px ++
  qstr "','newSz':'" ++ sz ++ qstr "'}]}".
Definition cancel_text (id : list Z) (code : Z) (ord_id : list Z) : list Z :=
  qstr "{'id':'" ++ id ++ qstr "','op':'cancel-order','args':[{'instIdCode':" ++
  to_string code ++ qstr ",'ordId':'" ++ ord_id ++ qstr "'}]}".
Definition quiet_request (r : Request) : Prop :=
  match r with
  | PrivateSend m =>
      m = Engine.kPrivateSubscribeMsg ∨ (∃ id code ord_id px sz, m = amend_text id code ord_id px sz) ∨
      (∃ id code ord_id, m = cancel_text id code ord_id)
  | _ => True
  end.
Definition quiet_curl (rest : RestClient) (o : CurlOptions) : Prop :=
  curl_url o ≠ base_url_ rest ++ kOrderPath.

Lemma yields_amend {W} `{!World W} c o p z :
  yields (BuildWsAmendOrderMessage (W:=W) c o p z)
    (λ x, quiet_request (PrivateSend (wo_message x))).
Proof. apply yields_last. intros id. right; left. by exists id, c, o, p, z. Qed.
Lemma yields_cancel {W} `{!World W} c o :
  yields (BuildWsCancelOrderMessage (W:=W) c o) (λ x, quiet_request (PrivateSend (wo_message x))).
Proof. apply yields_last. intros id. right; right. by exists id, c, o. Qed.

(** ** The pass over the engine

    [K] is a property of the members and of the REST requests made so far. *)
Section invariant.
Context {W : Type} (wo : World W) (R : relation W) `{!Along wo R} `{!ToChars} (freq : Z).
Context (rest : RestClient) (auth : OkxAuth) (clock : list Z → Z).
#[local] Existing Instance recording.
Context (K : App → W * list CurlOptions → Prop).
Notation S := (OkxWsClient.St App (W * list CurlOptions)).

Definition obeys (s : S) : Prop := K (OkxWsClient.app s) (OkxWsClient.world s).
Notation I := obeys.

(** *** What [K] must allow *)
Record stable : Prop := {
  st_limiter : ∀ a w x, EndpointRateLimiter.order_limiter_ x = EndpointRateLimiter.order_limiter_ (rate_limiter_ a) →
    K a w → K (set_limiter x a) w;
  st_account : ∀ a w x, K a w → K (set_account x a) w;
  st_demux : ∀ a w x, K a w → K (set_demux x a) w;
  st_trip : ∀ a w x, K a w → K (set_round_trip x a) w;
  st_stats : ∀ a w x, K a w → K (set_stats x a) w;
  st_market : ∀ a w x, K a w → K (set_market_data x a) w;
  st_ids : ∀ a w x, (last_id a ≤ x)%Z → K a w → K (set_last_id x a) w;
  st_mid : ∀ a w x, K a w → K (set_quoter (NaiveQuoter.set_mid x (quoter_ a)) a) w;
  st_clear : ∀ a w x, K a w → K (set_quoter (NaiveQuoter.set_slot x None (quoter_ a)) a) w;
  st_request : ∀ a w r, quiet_request r → K a w → K (set_requests (requests a ++ [r]) a) w;
  st_world : ∀ a w l w' new, R w w' → Forall (quiet_curl rest) new → K a (w, l) → K a (w', l ++ new) }.
Context (Hst : stable).
Lemma st_move a w l w' : R w w' → K a (w, l) → K a (w', l).
Proof using Hst. intros Hr Hk. rewrite <-(app_nil_r l). by apply (st_world Hst a w). Qed.

(** *** The connection: none of its operations touches the members, but the
    handlers may. *)
Lemma up_client {A} (m : M OkxWsClient.t A) : upholds I any (OkxWsClient.on_client (App:=App) m).
Proof. by apply upholds_zoom. Qed.
Lemma up_read {A} (f : OkxWsClient.t → A) : upholds I any (OkxWsClient.read f).
Proof. by intros s Hs. Qed.
Lemma up_emit e : upholds I any (OkxWsClient.emit e).
Proof. by intros s Hs. Qed.
Lemma up_world {A} (m : M (W * list CurlOptions) A) :
  offline R m → upholds I any (OkxWsClient.on_world (App:=App) m).
Proof using Hst Along0.
  intros Hm. apply upholds_zoom. intros s Hs. unfold obeys in *. simpl.
  destruct (offline_state R m (OkxWsClient.world s) Hm) as [Hl Hr].
  destruct (OkxWsClient.world s) as [w l], (m _) as [? [w' l']]. cbn [fst snd] in *. subst l'. by eapply st_move.
Qed.
Lemma up_see {A} (f : App → A) : upholds I any (see f).
Proof. by intros s Hs. Qed.
Lemma up_change f : (∀ a w, K a w → K (f a) w) → upholds I any (change f).
Proof. intros Hf s Hs. by apply Hf. Qed.
Lemma up_throw {A} e : upholds I any (throwM (A:=A) e).
Proof. by intros s Hs. Qed.
Lemma up_update f : upholds I any (OkxWsClient.update (App:=App) f).
Proof. apply up_client. Qed.
Lemma up_mask {A} (f : option (list Z) → result A) : upholds I any (OkxWsClient.with_mask (App:=App) f).
Proof. unfold OkxWsClient.with_mask. uphold. apply up_world. one_call. Qed.
Lemma up_counter : upholds I any (OkxWsClient.on_world (App:=App) (ask ReadCounter)).
Proof. apply up_world. one_call. Qed.
Lemma up_clock : upholds I any (OkxWsClient.on_world (App:=App) (ask steady_clock_now)).
Proof. apply up_world. one_call. Qed.
#[local] Hint Resolve up_client up_read up_emit up_see up_throw up_update up_mask up_counter
  up_clock : parts.

Section client.
Context (on_message : string_view → M S unit) (on_trace : TickToTradeTrace → M S unit).
Context (Hmessage : ∀ m, upholds I any (on_message m)) (Htrace : ∀ t, upholds I any (on_trace t)).

Lemma up_resolve n l : upholds I any (OkxWsClient.resolve_traces on_trace n l).
Proof. induction l; cbn [OkxWsClient.resolve_traces]; uphold. Qed.
#[local] Hint Resolve up_resolve : parts.
Lemma up_start_write : upholds I any (OkxWsClient.StartWrite on_trace).
Proof. unfold OkxWsClient.StartWrite. uphold. Qed.
#[local] Hint Resolve up_start_write : parts.
Lemma up_write_raw f t : upholds I any (OkxWsClient.WriteRaw on_trace f t).
Proof. unfold OkxWsClient.WriteRaw. uphold. Qed.
#[local] Hint Resolve up_write_raw : parts.
Lemma up_send_raw p t : upholds I any (OkxWsClient.Send on_trace p t).
Proof. unfold OkxWsClient.Send. uphold. Qed.
Lemma up_begin_batch : upholds I any (OkxWsClient.BeginBatch (App:=App)).
Proof. apply up_update. Qed.
Lemma up_end_batch : upholds I any (OkxWsClient.EndBatch on_trace).
Proof. unfold OkxWsClient.EndBatch. uphold. Qed.
Lemma up_backoff n : upholds I any (OkxWsClient.ComputeBackoff (App:=App) n).
Proof. apply up_world. one_call. Qed.
#[local] Hint Resolve up_send_raw up_backoff : parts.
Lemma up_reconnect : upholds I any (OkxWsClient.ScheduleReconnect (App:=App)).
Proof. unfold OkxWsClient.ScheduleReconnect. uphold. Qed.
#[local] Hint Resolve up_reconnect : parts.
Lemma up_on_write n : upholds I any (OkxWsClient.OnWrite on_trace n).
Proof. unfold OkxWsClient.OnWrite. uphold. Qed.
Lemma up_schedule_heartbeat : upholds I any (OkxWsClient.ScheduleHeartbeat (App:=App)).
Proof. unfold OkxWsClient.ScheduleHeartbeat. uphold. Qed.
#[local] Hint Resolve up_schedule_heartbeat : parts.
Lemma up_on_heartbeat : upholds I any (OkxWsClient.OnHeartbeat on_trace).
Proof. unfold OkxWsClient.OnHeartbeat. uphold. Qed.
Lemma up_dispatch m : upholds I any (OkxWsClient.DispatchMessage on_message m).
Proof. unfold OkxWsClient.DispatchMessage. uphold. Qed.
#[local] Hint Resolve up_dispatch : parts.
Lemma up_handle_frame f : upholds I any (OkxWsClient.HandleFrame on_message on_trace f).
Proof. unfold OkxWsClient.HandleFrame, OkxWsClient.control_response, OkxWsClient.append_fragment. uphold. Qed.
#[local] Hint Resolve up_handle_frame : parts.
Lemma up_frame_loop n : upholds I any (OkxWsClient.frame_loop on_message on_trace n).
Proof. induction n; cbn [OkxWsClient.frame_loop]; uphold. Qed.
#[local] Hint Resolve up_frame_loop : parts.
Lemma up_on_read c : upholds I any (OkxWsClient.OnRead on_message on_trace c).
Proof. unfold OkxWsClient.OnRead, OkxWsClient.ReadLoop. uphold. Qed.
Lemma up_try m h : upholds I any m → upholds I any h → upholds I any (OkxWsClient.try_catch (App:=App) m h).
Proof.
  intros Hm Hh s Hs. unfold OkxWsClient.try_catch. specialize (Hm s Hs).
  destruct (m s) as [[|[]] s']; [done| |done|done]. by apply Hh, Hm.
Qed.
Lemma up_connect fuel : upholds I any (OkxWsClient.Connect (mret tt) on_trace fuel).
Proof.
  unfold OkxWsClient.Connect, OkxWsClient.SendLogin, OkxWsClient.ReadLoop.
  apply up_try; [|apply up_reconnect]. uphold; apply up_world;
    first [apply (offline_make wo R) | apply (offline_connect wo R) | apply (offline_sbe_login wo R)
          | apply (offline_handshake wo R) | apply (offline_login wo R)].
Qed.
End client.

(** An operation on an order that leaves its id alone. *)
Definition keeps_id (m : M Order.t unit) : Prop := ∀ o, OrderStore.cl (m o).2 = OrderStore.cl o.

Context (Htrigger : upholds I any (Engine.Trigger rest auth)).
Context (Hfill : ∀ side fill, upholds I any (Engine.apply_fill rest auth side fill)).
Context (Hwith : ∀ i m, keeps_id m → upholds I any (on_store (OrderStore.with_order i m))).
Context (Hremove : ∀ id, upholds I any (WsOrderRoundTrip.Remove id)).
Context (Hreconcile : ∀ p, upholds I any (Engine.Reconcile clock p)).
(** Trading is off; what it does is allowed. *)
Definition switched_off : Prop := ∀ a w, K a w → KillSwitch.triggered_ (kill_switch_ a) = true.
Definition quoting_allowed : Prop := ∀ x side px t, upholds I any (NaiveQuoter.place_into freq x side px t).

Lemma up_ids {A} (m : M (Z * (W * list CurlOptions)) A) : offline_ids R m → upholds I any (on_ids m).
Proof using Hst Along0.
  intros Hm. apply upholds_zoom. intros s Hs. unfold obeys in *. simpl.
  destruct (OkxWsClient.world s) as [w l].
  specialize (Hm l w _ (last_id (OkxWsClient.app s), (w, l)) (conj (conj eq_refl (reflexivity _)) (Z.le_refl _))).
  assert (((m (last_id (OkxWsClient.app s), (w, l))).2.2.2 = l ∧ R w (m (last_id (OkxWsClient.app s), (w, l))).2.2.1) ∧
    last_id (OkxWsClient.app s) ≤ (m (last_id (OkxWsClient.app s), (w, l))).2.1)%Z as [[Hl Hr] Hle]
    by (destruct (m _) as [[] ?]; [done|apply Hm]).
  destruct (m _) as [? [last [w' l']]]. cbn [fst snd] in *. subst l'. apply Hst; [done|]. by eapply st_move.
Qed.
Lemma up_trace tr : upholds I any (on_trace_resolved freq tr).
Proof.
  apply upholds_zoom. intros s Hs. unfold obeys, zoom, runS in *.
  destruct (TickToTradeStats.Record_ _ _ _); by apply Hst.
Qed.
Lemma up_request r : quiet_request r → upholds I any (request r).
Proof. intros Hr. apply up_change. intros. by apply Hst. Qed.
Lemma up_send m tr : quiet_request (PrivateSend m) → upholds I any (Send freq m tr).
Proof.
  intros Hr. unfold Send. apply upholds_bind; [by apply up_request|]. intros _.
  apply up_send_raw, up_trace.
Qed.
Lemma up_acquire_amend : upholds I any (TryAcquire kAmendOrderOp).
Proof.
  unfold TryAcquire. uphold. apply upholds_zoom. intros s Hs. unfold obeys, zoom in *.
  unfold EndpointRateLimiter.TryAcquire. rewrite !decide_False, decide_True by done. unfold zoom.
  destruct (SlidingWindowLimiter.TryAcquire _ _). by apply Hst.
Qed.
#[local] Hint Resolve up_trace up_acquire_amend : parts.

Lemma up_rest {A} (m : M (W * list CurlOptions) A) :
  (∀ w log r w' log', m (w, log) = (r, (w', log')) →
     ∃ new, log' = log ++ new ∧ Forall (quiet_curl rest) new) →
  moves R m → upholds I any (on_world m).
Proof using Hst Along0.
  intros Hm Hr. apply upholds_zoom. intros s Hs. unfold obeys in *. simpl.
  destruct (OkxWsClient.world s) as [w log]. pose proof (moves_state R m (w, log) Hr) as Hw.
  destruct (m (w, log)) as [r [w' log']] eqn:E.
  destruct (Hm _ _ _ _ _ E) as (new & -> & Hnew). simpl. by apply (st_world Hst _ w).
Qed.
Lemma up_cancel_order inst ord : upholds I any (on_world (CancelOrder rest auth inst ord)).
Proof.
  apply up_rest; [|apply (moves_cancel wo R)]. intros w log r w' log' E.
  destruct (signed_call rest auth kPost kCancelOrderPath (Some (cancel_body inst ord))
      ParseOrderResult w log r w' log' eq_refl E) as (new & -> & _ & Hall & _).
  exists new. split; [done|]. eapply Forall_impl; [exact Hall|]. intros o (_ & Hu & _) Heq.
  rewrite Hu in Heq. by apply app_inv_head in Heq.
Qed.
Lemma pending_quiet w log r w' log' :
  GetPendingOrders rest auth (w, log) = (r, (w', log')) →
  ∃ new, log' = log ++ new ∧ Forall (quiet_curl rest) new.
Proof.
  intros E. destruct (signed_perform rest auth kGet kPendingOrdersPath None w log r w' log' eq_refl E)
    as (new & -> & _ & Hall & _).
  exists new. split; [done|]. eapply Forall_impl; [exact Hall|]. intros o (_ & Hu & _) Heq.
  rewrite Hu in Heq. by apply app_inv_head in Heq.
Qed.
Lemma up_pending : upholds I any (on_world (GetPendingOrders rest auth)).
Proof. apply up_rest; [apply pending_quiet|apply (moves_pending wo R)]. Qed.
#[local] Hint Resolve up_cancel_order up_pending : parts.

(** *** The round trip *)
Lemma up_change_ord_id id : upholds I any (WsOrderRoundTrip.set_ord_id id).
Proof. apply up_change. intros. by apply Hst. Qed.
Lemma up_change_cl_ord_id id : upholds I any (WsOrderRoundTrip.set_cl_ord_id id).
Proof. apply up_change. intros. by apply Hst. Qed.
Lemma up_track id h : upholds I any (WsOrderRoundTrip.Track id h).
Proof. apply up_change. intros. by apply Hst. Qed.
Lemma up_trip {A} (f : RoundTripState → A) : upholds I any (WsOrderRoundTrip.ask_trip f).
Proof. apply up_see. Qed.
Lemma up_is_connected : upholds I any WsOrderRoundTrip.IsConnected.
Proof. apply up_read. Qed.
#[local] Hint Resolve up_change_ord_id up_change_cl_ord_id up_track up_trip up_is_connected : parts.
Lemma up_fall_back : upholds I any (WsOrderRoundTrip.FallBackToRestCancel rest auth).
Proof. unfold WsOrderRoundTrip.FallBackToRestCancel. uphold. Qed.
Lemma up_get_order : upholds I any WsOrderRoundTrip.GetOrder.
Proof. unfold WsOrderRoundTrip.GetOrder. uphold. Qed.
#[local] Hint Resolve up_fall_back up_get_order : parts.

(** The state machine leaves the id of an order alone. *)
Lemma step_keeps_id i : keeps_id (Order.step i).
Proof.
  intros o. unfold OrderStore.cl. destruct i as [ev|now|now|]; cbn [Order.step];
    unfold Order.ApplyEvent, Order.OnCancelRequested, Order.OnAmendRequested, Order.OnRequestRejected,
      Order.copy_event, Order.set_px, Order.set_pending, Order.TransitionTo, Order.unexpected,
      mbind, M_bind, get, modify, throwM; repeat (case_match; simplify_eq/=); done.
Qed.
Lemma up_with_step i x : upholds I any (on_store (OrderStore.with_order i (Order.step x))).
Proof. apply Hwith, step_keeps_id. Qed.
Lemma up_with_event i e : upholds I any (on_store (OrderStore.with_order i (Order.ApplyEvent e))).
Proof. exact (up_with_step i (Order.Event e)). Qed.
Lemma up_with_amend i n : upholds I any (on_store (OrderStore.with_order i (Order.OnAmendRequested n))).
Proof. exact (up_with_step i (Order.AmendRequested n)). Qed.
Lemma up_with_cancel i n : upholds I any (on_store (OrderStore.with_order i (Order.OnCancelRequested n))).
Proof. exact (up_with_step i (Order.CancelRequested n)). Qed.
Lemma up_with_reject i : upholds I any (on_store (OrderStore.with_order i Order.OnRequestRejected)).
Proof. exact (up_with_step i Order.RequestRejected). Qed.
#[local] Hint Resolve up_with_event up_with_amend up_with_cancel up_with_reject : parts.

Lemma up_apply_event e : upholds I any (WsOrderRoundTrip.ApplyOrderEvent e).
Proof. unfold WsOrderRoundTrip.ApplyOrderEvent. uphold. Qed.
Lemma up_rejected : upholds I any WsOrderRoundTrip.request_rejected.
Proof. unfold WsOrderRoundTrip.request_rejected. uphold. Qed.
#[local] Hint Resolve up_apply_event up_rejected : parts.
(** Build a message, send it, wait for the answer. *)
Lemma up_amend_sent c o p z h :
  upholds I any (amend ← on_ids (BuildWsAmendOrderMessage c o p z);
                 _ ← Send freq (wo_message amend) None;
                 WsOrderRoundTrip.Track (wo_id amend) h).
Proof.
  eapply upholds_bind_post; [apply up_ids, (offline_amend wo R)|apply yields_zoom, yields_amend|].
  intros x Hx. uphold. by apply up_send.
Qed.
Lemma up_cancel_sent c o h :
  upholds I any (cancel ← on_ids (BuildWsCancelOrderMessage c o);
                 _ ← Send freq (wo_message cancel) None;
                 WsOrderRoundTrip.Track (wo_id cancel) h).
Proof.
  eapply upholds_bind_post; [apply up_ids, (offline_cancel wo R)|apply yields_zoom, yields_cancel|].
  intros x Hx. uphold. by apply up_send.
Qed.
Lemma up_handler h m : upholds I any (WsOrderRoundTrip.run_handler freq rest auth h m).
Proof.
  destruct h; cbn [WsOrderRoundTrip.run_handler]; unfold WsOrderRoundTrip.OnOrderResponse,
    WsOrderRoundTrip.OnAmendResponse, WsOrderRoundTrip.OnCancelResponse;
    repeat (lazymatch goal with
    | |- upholds _ _ (on_ids (BuildWsAmendOrderMessage _ _ _ _) ≫= _) => apply up_amend_sent
    | |- upholds _ _ (on_ids (BuildWsCancelOrderMessage _ _) ≫= _) => apply up_cancel_sent
    | |- _ => uphold_step
    end).
Qed.

(** *** The strategy *)
Lemma up_stamp f t : upholds I any (NaiveQuoter.stamp f t).
Proof. unfold NaiveQuoter.stamp. uphold. Qed.
Lemma up_ask_quoter {A} (f : QuoterState → A) : upholds I any (NaiveQuoter.ask_quoter f).
Proof. apply up_see. Qed.
Lemma up_clear x : upholds I any (NaiveQuoter.update (NaiveQuoter.set_slot x None)).
Proof. apply up_change. intros. by apply Hst. Qed.
Lemma up_set_mid x : upholds I any (NaiveQuoter.update (NaiveQuoter.set_mid x)).
Proof. apply up_change. intros. by apply Hst. Qed.
#[local] Hint Resolve up_ask_quoter up_clear up_set_mid : parts.
#[local] Hint Extern 1 (upholds _ _ (NaiveQuoter.TraceOrderLocated _)) => apply up_stamp : parts.
#[local] Hint Extern 1 (upholds _ _ (NaiveQuoter.TraceRateLimitChecked _)) => apply up_stamp : parts.
#[local] Hint Extern 1 (upholds _ _ (NaiveQuoter.TracePriceFormatted _)) => apply up_stamp : parts.
#[local] Hint Extern 1 (upholds _ _ (NaiveQuoter.TraceMessageBuilt _)) => apply up_stamp : parts.
Lemma up_replace_side x side px t :
  quoting_allowed → upholds I any (NaiveQuoter.ReplaceSide freq x side px t).
Proof.
  intros Hplace. unfold NaiveQuoter.ReplaceSide.
  repeat (lazymatch goal with
  | |- upholds _ _ (NaiveQuoter.place_into _ _ _ _ _) => by apply Hplace
  | |- upholds _ _ (on_ids (BuildWsAmendOrderMessage _ _ _ _) ≫= _) =>
      eapply upholds_bind_post; [apply up_ids, (offline_amend wo R)|apply yields_zoom, yields_amend|]
  | |- upholds _ _ (Send _ _ _) => by apply up_send
  | |- _ => uphold_step end).
Qed.
Lemma up_on_timer : quoting_allowed → upholds I any (NaiveQuoter.OnTimer freq).
Proof.
  intros Hplace. unfold NaiveQuoter.OnTimer.
  repeat (lazymatch goal with
  | |- upholds _ _ (NaiveQuoter.place_into _ _ _ _ _) => by apply Hplace
  | |- upholds _ _ OkxWsClient.BeginBatch => apply up_begin_batch
  | |- upholds _ _ (OkxWsClient.EndBatch _) => apply up_end_batch, up_trace
  | |- _ => uphold_step end).
Qed.
Lemma up_book_update b t : quoting_allowed → upholds I any (NaiveQuoter.OnBookUpdate freq b t).
Proof.
  intros Ht. unfold NaiveQuoter.OnBookUpdate, NaiveQuoter.Requote.
  repeat (lazymatch goal with
  | |- upholds _ _ (NaiveQuoter.ReplaceSide _ _ _ _ _) => by apply up_replace_side
  | |- upholds _ _ OkxWsClient.BeginBatch => apply up_begin_batch
  | |- upholds _ _ (OkxWsClient.EndBatch _) => apply up_end_batch, up_trace
  | |- _ => uphold_step end).
Qed.

(** *** The engine *)
Lemma up_unless_triggered (P : Prop) (m : M S unit) :
  switched_off ∨ P → (P → upholds I any m) →
  upholds I any (triggered ← see (λ a, KillSwitch.IsTriggered (kill_switch_ a));
                 if triggered : bool then mret tt else m).
Proof using.
  intros [Hoff|HP] Hm.
  - intros s Hs. unfold mbind, M_bind, see, get. cbn [mret M_ret mbind M_bind].
    unfold mbind, M_bind. cbn [mret M_ret]. unfold KillSwitch.IsTriggered.
    by rewrite (Hoff _ _ Hs).
  - apply upholds_bind; [by intros s Hs|]. intros [|]; [apply upholds_ret|by apply Hm].
Qed.
Lemma up_login m :
  switched_off ∨ upholds I any (WsOrderRoundTrip.Start freq rest auth) →
  upholds I any (Engine.HandleLoginEvent freq rest auth clock m).
Proof using Hst Along0 Hreconcile.
  intros Hstart. unfold Engine.HandleLoginEvent. case_decide; [apply upholds_ret|].
  apply upholds_bind; [apply up_send; by left|]. intros _.
  apply upholds_bind; [apply up_pending|]. intros p.
  apply upholds_bind; [apply Hreconcile|]. intros _.
  apply (up_unless_triggered _ _ Hstart). intros Hs. uphold.
Qed.

Context (Hquote : switched_off ∨ quoting_allowed).
Context (Hlogin : ∀ m, upholds I any (Engine.HandleLoginEvent freq rest auth clock m)).

Lemma up_guarded (m : M S unit) :
  (quoting_allowed → upholds I any m) →
  upholds I any (ok ← Engine.may_quote; if ok : bool then m else mret tt).
Proof.
  intros Hm. destruct Hquote as [Hoff|Hany].
  - intros s Hs. unfold mbind, M_bind, Engine.may_quote, see, OkxWsClient.read, get.
    cbn [mret M_ret mbind M_bind]. unfold mbind, M_bind. cbn [mret M_ret].
    unfold KillSwitch.IsTriggered. by rewrite (Hoff _ _ Hs).
  - apply upholds_bind; [by intros s Hs|]. intros [|]; [by apply Hm|apply upholds_ret].
Qed.
Lemma up_on_book b t : upholds I any (Engine.on_book_update freq b t).
Proof. apply up_guarded. intros. by apply up_book_update. Qed.
Lemma up_consistent b t : upholds I any (Engine.on_consistent_book freq b t).
Proof. apply upholds_bind; [apply up_counter|]. intros. apply up_on_book. Qed.
Lemma up_market a d m : upholds I any (Engine.OnMarketData freq a d m).
Proof.
  unfold Engine.OnMarketData. apply upholds_bind; [apply up_see|]. intros [s|code s].
  - destruct (JsonBookSource.OnMessage _ _ _ _ _) as [r s'].
    apply upholds_bind; [apply up_change; intros; by apply Hst|]. intros _.
    apply upholds_bind; [apply upholds_lift_any|]. intros outs.
    apply upholds_visit. intros [msg|b t]; cbn [Engine.json_output]; [|apply up_consistent].
    by apply up_request.
  - destruct (SbeBboSource.OnMessage _ _ _ _ _) as [r s'].
    apply upholds_bind; [apply up_change; intros; by apply Hst|]. intros _.
    apply upholds_bind; [apply upholds_lift_any|]. intros [[b t]|]; [apply up_consistent|apply upholds_ret].
Qed.
(** The check of the timeout monitor: a scan, and a reconciliation. *)
Definition any_timed_out (now : Z) (store : OrderStore.t) : result () * bool :=
  OrderStore.ForEach (λ o,
    any ← get;
    if any || negb (IsPending (Order.state_ o)) ||
       (now - Order.pending_since_ o <=? OrderTimeoutMonitor.kOrderUnacknowledgedTimeout)%Z
    then mret tt else put true) store false.
Definition timeout_check : M S unit :=
  now ← on_world (ask steady_clock_now);
  store ← see order_store_;
  _ ← lift (any_timed_out now store).1;
  if (any_timed_out now store).2 then
    pending ← on_world (GetPendingOrders rest auth); Engine.Reconcile clock pending
  else mret tt.
Lemma timeout_check_flat (s : S) : Engine.CheckAndResolve rest auth clock s = timeout_check s.
Proof.
  destruct s as [c a w ef].
  unfold Engine.CheckAndResolve, timeout_check, OrderTimeoutMonitor.CheckAndResolve,
    OrderTimeoutMonitor.on_world, OrderTimeoutMonitor.on_order_store, Engine.Reconcile, on_store,
    Quoter.on_world, OkxWsClient.on_world, on_app, see, zoom, mbind, M_bind, get, lift.
  cbn [OkxWsClient.app OkxWsClient.world fst snd].
  destruct (ask steady_clock_now w) as [[now|x] w1] eqn:E1.
  2:{ by destruct a. }
  cbn [fst snd OkxWsClient.app OkxWsClient.world mret M_ret].
  match goal with |- context [OrderStore.ForEach ?f ?st false] =>
    change (OrderStore.ForEach f st false) with (any_timed_out now st) end.
  destruct (any_timed_out now (order_store_ a)) as [[[]|x] [|]]; cbn [fst snd]; [|destruct a; reflexivity..].
  cbn [OkxWsClient.client OkxWsClient.app OkxWsClient.world OkxWsClient.effects].
  destruct (GetPendingOrders rest auth w1) as [[resp|x] w2]; cbn [fst snd]; [|destruct a; reflexivity].
  cbn [OkxWsClient.app]. by destruct (reconciliation.ReconcileOrders _ _ _) as [[]].
Qed.
Lemma up_timeout : upholds I any (Engine.OnTimeoutCheck rest auth clock).
Proof.
  unfold Engine.OnTimeoutCheck. apply upholds_bind; [|intros _; by apply up_request].
  assert (upholds I any timeout_check) as Hf by (unfold timeout_check; uphold).
  intros s Hs. rewrite timeout_check_flat. by apply Hf.
Qed.
Lemma up_order_event e : upholds I any (Engine.HandleOrderEvent rest auth e).
Proof. unfold Engine.HandleOrderEvent, NaiveQuoter.OnFill, NaiveQuoter.OnCancel, NaiveQuoter.ask_quoter. uphold. Qed.
Lemma up_private m : upholds I any (Engine.OnPrivateWsMessage freq rest auth clock m).
Proof.
  unfold Engine.OnPrivateWsMessage. destruct (opt_eqb _ _); [apply Hlogin|].
  apply upholds_bind.
  - unfold WsResponseDemux.Dispatch. apply upholds_bind; [apply up_see|]. intros pending.
    destruct (WsResponseDemux.lookup_message m pending) as [[id h]|]; [|apply upholds_ret].
    apply upholds_bind; [apply up_change; intros; by apply Hst|]. intros _.
    apply upholds_bind; [apply up_handler|]. intros _. apply upholds_ret.
  - intros [|]; [apply upholds_ret|]. cbv zeta. destruct (opt_eqb _ _); [|destruct (opt_eqb _ _)].
    + unfold Engine.HandleOrdersChannelMessage, order_events.ForEachOrderEvent.
      destruct (negb _); [apply upholds_ret|]. apply upholds_each. intros x.
      apply upholds_bind; [apply upholds_lift_any|]. intros e. apply up_order_event.
    + unfold Engine.HandleAccountChannelMessage. apply upholds_bind.
      { apply upholds_zoom. intros s Hs. unfold obeys, zoom in *.
        destruct (AccountState.ApplyMessage _ _). by apply Hst. }
      intros _. apply upholds_bind; [apply up_see|]. intros a.
      unfold AccountState.ForEachBalance. generalize 0.
      induction (AccountState.count_ a) as [|n IH]; intros i; [apply upholds_ret|].
      cbn [AccountState.ForEachBalance_loop]. apply upholds_bind; [apply upholds_lift_any|].
      intros b. apply upholds_bind; [apply upholds_ret|]. intros _. apply IH.
    + apply upholds_ret.
Qed.

Lemma up_market_connected : upholds I any (Engine.OnMarketConnected freq).
Proof.
  unfold Engine.OnMarketConnected. apply upholds_bind; [apply up_see|].
  intros [s|code s]; [|by apply up_request].
  apply upholds_bind; [by apply up_request|]. intros _. apply upholds_ret.
Qed.
Lemma up_summary : upholds I any Engine.LogSummary.
Proof. unfold Engine.LogSummary. uphold. Qed.
Lemma up_handle e : upholds I any (Engine.handle freq rest auth clock e).
Proof.
  destruct e; cbn [Engine.handle].
  - apply up_connect, up_trace.
  - apply up_on_read; [apply up_private|apply up_trace].
  - apply up_on_write, up_trace.
  - apply up_on_heartbeat, up_trace.
  - apply up_market_connected.
  - apply up_market.
  - unfold Engine.OnQuoterTimer. apply upholds_assoc, upholds_bind.
    + apply up_guarded, up_on_timer.
    + intros _. by apply up_request.
  - unfold Engine.OnStatsTimer. apply upholds_bind; [apply up_summary|].
    intros _. by apply up_request.
  - apply up_timeout.
  - unfold Engine.OnShutdownSignal. apply upholds_bind; [apply up_summary|]. intros _.
    apply upholds_bind; [done|]. intros _. by apply up_request.
Qed.
Lemma up_run es : upholds I any (Engine.run freq rest auth clock es).
Proof.
  induction es as [|e es IH]; cbn [Engine.run];
    (apply upholds_bind; [apply up_see|]; intros [|]; [apply upholds_ret|]); [apply upholds_ret|].
  apply upholds_bind; [apply up_handle|]. intros _. exact IH.
Qed.
End invariant.

(** ** Properties of the switch, the position, the requests *)
Section fields.
Context {W : Type} (wo : World W) `{!ToChars} (freq : Z).
Context (rest : RestClient) (auth : OkxAuth) (clock : list Z → Z).
#[local] Existing Instance recording.
Context (P : KillSwitch.t → Position.t double → list Request → list CurlOptions → Prop).
Notation S := (OkxWsClient.St App (W * list CurlOptions)).

Definition of_fields (a : App) (w : W * list CurlOptions) : Prop :=
  P (kill_switch_ a) (position_ a) (requests a) w.2.
Notation I := (obeys of_fields).

Lemma fields_store {A} (m : M OrderStore.t A) : upholds I any (on_store m).
Proof.
  apply upholds_zoom. intros s Hs. unfold obeys, of_fields, zoom in *.
  by destruct (m (order_store_ (OkxWsClient.app s))).
Qed.
Lemma fields_quoter f : upholds I any (NaiveQuoter.update f).
Proof. by apply up_change. Qed.
Lemma fields_remove id : upholds I any (WsOrderRoundTrip.Remove id).
Proof.
  unfold WsOrderRoundTrip.Remove. apply upholds_bind; [apply fields_store|].
  intros [|]; [apply fields_quoter|apply upholds_ret].
Qed.
Lemma fields_reconcile p : upholds I any (Engine.Reconcile clock p).
Proof.
  unfold Engine.Reconcile. apply upholds_bind; [apply fields_store|]. intros ids.
  apply upholds_visit. intros id. apply fields_quoter.
Qed.

Context (Hquiet : ∀ r k p rq l, quiet_request r → P k p rq l → P k p (rq ++ [r]) l).
Context (Hlog : ∀ k p rq l new, Forall (quiet_curl rest) new → P k p rq l → P k p rq (l ++ new)).
Lemma fields_stable : stable anyhow rest of_fields.
Proof using Hquiet Hlog. split; unfold of_fields; simpl; eauto. Qed.
Lemma fields_add a b c d e : upholds I any (Add a b c d e).
Proof using Hquiet Hlog.
  unfold Add. apply upholds_bind; [apply (up_clock wo anyhow rest _ fields_stable)|]. intros. apply fields_store.
Qed.
Lemma fields_acquire op : upholds I any (TryAcquire op).
Proof using Hquiet Hlog.
  unfold TryAcquire. apply upholds_bind; [apply (up_clock wo anyhow rest _ fields_stable)|]. intros now.
  apply upholds_zoom. intros s Hs. unfold zoom. by destruct (EndpointRateLimiter.TryAcquire _ _ _).
Qed.

(** Where any request is allowed, trading is. *)
Context (Hreq : ∀ r k p rq l, P k p rq l → P k p (rq ++ [r]) l).
Context (Hany : ∀ k p rq l new, P k p rq l → P k p rq (l ++ new)).
Lemma fields_send m tr : upholds I any (Send freq m tr).
Proof using Hquiet Hlog Hreq.
  unfold Send. apply upholds_bind; [apply up_change; intros; by apply Hreq|]. intros _.
  apply (up_send_raw wo anyhow rest _ fields_stable). intros t. apply (up_trace anyhow freq rest _ fields_stable).
Qed.
Lemma fields_place_order request : upholds I any (on_ids (PlaceOrder rest auth request)).
Proof using Hany.
  apply upholds_zoom. intros s Hs. unfold obeys, of_fields in *. simpl.
  destruct (OkxWsClient.world s) as [w log].
  destruct (PlaceOrder rest auth request _) as [r [last' [w' log']]] eqn:E.
  destruct (PlaceOrder_made _ _ _ _ _ _ _ _ _ _ _ E) as (id & new & -> & _). simpl. by apply Hany.
Qed.
Lemma fields_trading :
  quoting_allowed wo freq of_fields ∧ upholds I any (WsOrderRoundTrip.Start freq rest auth).
Proof using Hquiet Hlog Hreq Hany.
  pose proof fields_stable as Hst. split.
  - intros x side px t. unfold NaiveQuoter.place_into, NaiveQuoter.PlaceSide.
    repeat (lazymatch goal with
    | |- upholds _ _ (Send _ _ _) => apply fields_send
    | |- upholds _ _ (Add _ _ _ _ _) => apply fields_add
    | |- upholds _ _ (TryAcquire _) => apply fields_acquire
    | |- upholds _ _ (on_ids _) => apply (up_ids wo anyhow rest _ Hst), (offline_order wo anyhow)
    | |- upholds _ _ (NaiveQuoter.update _) => apply fields_quoter
    | |- upholds _ _ (NaiveQuoter.ask_quoter _) => apply up_see
    | |- upholds _ _ (_ ≫= _) => uphold_step
    | |- upholds _ _ (match _ with _ => _ end) => uphold_step
    | |- upholds _ _ (mret _) => apply upholds_ret
    | |- upholds _ _ (_ _) => apply (up_stamp wo anyhow rest _ Hst)
    | |- ∀ _, _ => intro
    end).
  - unfold WsOrderRoundTrip.Start.
    repeat (lazymatch goal with
    | |- upholds _ _ (Send _ _ _) => apply fields_send
    | |- upholds _ _ (Add _ _ _ _ _) => apply fields_add
    | |- upholds _ _ (on_ids (PlaceOrder _ _ _)) => apply fields_place_order
    | |- upholds _ _ (on_ids _) => apply (up_ids wo anyhow rest _ Hst), (offline_order wo anyhow)
    | |- upholds _ _ (WsOrderRoundTrip.FallBackToRestCancel _ _) => apply (up_fall_back wo anyhow rest auth _ Hst)
    | |- upholds _ _ WsOrderRoundTrip.IsConnected => apply up_is_connected
    | |- upholds _ _ (WsOrderRoundTrip.ask_trip _) => apply up_see
    | |- upholds _ _ (WsOrderRoundTrip.set_ord_id _) => by apply up_change
    | |- upholds _ _ (WsOrderRoundTrip.set_cl_ord_id _) => by apply up_change
    | |- upholds _ _ (WsOrderRoundTrip.Track _ _) => by apply up_change
    | |- _ => uphold_step
    end).
Qed.
End fields.

(** ** The kill switch *)
Section trigger.
Context {W : Type} (wo : World W) (rest : RestClient) (auth : OkxAuth).
#[local] Existing Instance recording.
Notation S := (OkxWsClient.St App (W * list CurlOptions)).

(** It ends up triggered, whatever happens to the cancellations. *)
Lemma switch_effect store k w log r k' w' :
  KillSwitch.Trigger rest auth store (k, (w, log)) = (r, (k', w')) →
  k' = KillSwitch.Mk true ∧ ∃ new, w'.2 = log ++ new ∧ Forall (quiet_curl rest) new.
Proof.
  destruct k as [trig]. unfold KillSwitch.Trigger, mbind, M_bind, get, put, lift, zoom.
  cbn [KillSwitch.triggered_ fst snd]. destruct trig.
  { intros [= _ <- <-]. split; [done|]. exists []. by rewrite app_nil_r. }
  destruct (OrderStore.ForEach KillSwitch.collect store []) as [[[]|x] to_cancel]; cbn [fst snd].
  - destruct (KillSwitch.cancel_all rest auth to_cancel (w, log)) as [r1 [w1 log1]] eqn:E.
    intros [= _ <- <-]. split; [done|].
    destruct (KillSwitch.cancel_all_made rest auth to_cancel w log r1 w1 log1 E) as (new & -> & Hf & _).
    exists new. split; [done|]. clear -Hf. revert Hf. generalize (take (length new) to_cancel).
    intros l Hf. induction Hf as [|o x new l (_ & Hu & _) _ IH]; constructor; [|done].
    unfold quiet_curl. rewrite Hu. intros Heq. by apply app_inv_head in Heq.
  - intros [= _ <- <-]. split; [done|]. exists []. by rewrite app_nil_r.
Qed.
Lemma trigger_effect (s : S) r s' :
  Engine.Trigger rest auth s = (r, s') →
  OkxWsClient.app s' = set_kill (KillSwitch.Mk true) (OkxWsClient.app s) ∧
  ∃ new, (OkxWsClient.world s').2 = (OkxWsClient.world s).2 ++ new ∧ Forall (quiet_curl rest) new.
Proof.
  change (Engine.Trigger rest auth s) with
    (zoom (λ s, (kill_switch_ (OkxWsClient.app s), OkxWsClient.world s))
       (λ x s, OkxWsClient.MkSt (OkxWsClient.client s) (set_kill x.1 (OkxWsClient.app s)) x.2
                 (OkxWsClient.effects s))
       (KillSwitch.Trigger rest auth (order_store_ (OkxWsClient.app s))) s).
  unfold zoom. destruct (OkxWsClient.world s) as [w log].
  destruct (KillSwitch.Trigger _ _ _ _) as [r1 [k' w']] eqn:E.
  destruct (switch_effect _ _ _ _ _ _ _ E) as [-> Hn].
  intros Heq. apply (f_equal snd) in Heq. cbn [snd] in Heq. by subst s'.
Qed.
End trigger.

(** ** Properties *)

(** C8. The loss limit: after any sequence of events (of the connection, the
    market data, the timers, signals), up to and including one that throws,
    an engine whose realised loss exceeds the limit has its kill switch
    triggered, if that was so at the start. *)
Theorem loss_limit_trips {W} (wo : World W) `{!ToChars} freq rest auth clock es
    (s : OkxWsClient.St App (W * list CurlOptions)) :
  let lost (a : App) :=
    flt (Position.RealizedPnl (position_ a)) (fneg Engine.kMaxRealizedLoss) = true in
  let tripped (a : App) := KillSwitch.IsTriggered (kill_switch_ a) = true in
  (lost (OkxWsClient.app s) → tripped (OkxWsClient.app s)) →
  let s' := (@Engine.run _ (recording wo) _ freq rest auth clock es s).2 in
  lost (OkxWsClient.app s') → tripped (OkxWsClient.app s').
Proof.
  intros lost tripped Hs s'.
  set (K := λ (k : KillSwitch.t) (p : Position.t double) (rq : list Request) (l : list CurlOptions),
    flt (Position.RealizedPnl p) (fneg Engine.kMaxRealizedLoss) = true → KillSwitch.triggered_ k = true).
  assert (upholds (obeys (of_fields K)) any (@Engine.Trigger _ (recording wo) rest auth)) as Htr.
  { intros s1 Hs1. destruct (Engine.Trigger rest auth s1) as [r s2] eqn:E.
    destruct (trigger_effect wo rest auth s1 r s2 E) as [Happ _].
    assert (obeys (of_fields K) s2) by (unfold obeys, of_fields, K; rewrite Happ; done). by destruct r. }
  assert (stable anyhow rest (of_fields (W:=W) K)) as Hst by (by apply fields_stable).
  destruct (fields_trading wo freq rest auth K) as [Hquote Hstart]; try done.
  refine (upholds_state _ _ s (up_run wo anyhow freq rest auth clock _ Hst Htr _ _ _ _ _ _ es) Hs);
    [|intros; apply fields_store|apply fields_remove|apply fields_reconcile|by right|].
  2:{ intros m. apply (up_login wo anyhow); [done|apply fields_reconcile|by right]. }
  clear - Htr. intros side fill. unfold Engine.apply_fill.
  intros s1 Hs1. unfold mbind, M_bind, change, on_app, see, modify, zoom, get. cbn [mret M_ret].
  set (a1 := set_position _ _). cbn [OkxWsClient.app].
  unfold mbind, M_bind. cbn [mret M_ret OkxWsClient.app].
  destruct (flt (Position.RealizedPnl (position_ a1)) _) eqn:Eloss.
  - destruct (Engine.Trigger rest auth _) as [r s2] eqn:E.
    destruct (trigger_effect wo rest auth _ r s2 E) as [Happ _].
    assert (obeys (of_fields K) s2) by (unfold obeys, of_fields, K; rewrite Happ; done). by destruct r.
  - intros Hloss. exfalso. assert (false = true); [|done]. rewrite <-Eloss. exact Hloss.
Qed.

(** C7. Behind a triggered kill switch no order is placed: whatever events
    follow, the switch stays triggered, every message handed to the private
    connection is the subscription, an amendment or a cancellation, and no
    REST request goes to the path that places orders. *)
Theorem killed_places_no_order {W} (wo : World W) `{!ToChars} freq rest auth clock es
    (s : OkxWsClient.St App (W * list CurlOptions)) :
  KillSwitch.IsTriggered (kill_switch_ (OkxWsClient.app s)) = true →
  let s' := (@Engine.run _ (recording wo) _ freq rest auth clock es s).2 in
  KillSwitch.IsTriggered (kill_switch_ (OkxWsClient.app s')) = true ∧
  (∃ new, requests (OkxWsClient.app s') = requests (OkxWsClient.app s) ++ new ∧
     Forall quiet_request new) ∧
  (∃ new, (OkxWsClient.world s').2 = (OkxWsClient.world s).2 ++ new ∧ Forall (quiet_curl rest) new).
Proof.
  intros Hs s'.
  set (K := λ (k : KillSwitch.t) (p : Position.t double) (rq : list Request) (l : list CurlOptions),
    KillSwitch.triggered_ k = true ∧
    (∃ new, rq = requests (OkxWsClient.app s) ++ new ∧ Forall quiet_request new) ∧
    (∃ new, l = (OkxWsClient.world s).2 ++ new ∧ Forall (quiet_curl rest) new)).
  assert (upholds (obeys (of_fields K)) any (@Engine.Trigger _ (recording wo) rest auth)) as Htr.
  { intros s1 (Hk & Hr & new & Hl & Hnew). destruct (Engine.Trigger rest auth s1) as [r s2] eqn:E.
    destruct (trigger_effect wo rest auth s1 r s2 E) as (Happ & new' & Hl' & Hnew').
    assert (obeys (of_fields K) s2); [|by destruct r]. unfold obeys, of_fields, K. rewrite Happ. split; [done|]. split; [done|].
    exists (new ++ new'). rewrite Hl', Hl, app_assoc. split; [done|]. by apply Forall_app. }
  assert (switched_off (of_fields (W:=W) K)) as Hoff by (by intros a w (Hk & _)).
  assert (stable anyhow rest (of_fields (W:=W) K)) as Hst; [apply fields_stable|].
  - intros r k p rq l Hr (Hk & (new & -> & Hnew) & Hl). split; [done|]. split; [|done].
    exists (new ++ [r]). rewrite app_assoc. split; [done|]. apply Forall_app. by split; [|constructor].
  - intros k p rq l new Hn (Hk & Hr & new0 & -> & Hnew). split; [done|]. split; [done|].
    exists (new0 ++ new). rewrite app_assoc. split; [done|]. by apply Forall_app.
  - refine (upholds_state _ _ s (up_run wo anyhow freq rest auth clock _ Hst Htr _ _ _ _ _ _ es) _);
      [|intros; apply fields_store|apply fields_remove|apply fields_reconcile|by left| |].
    + intros side fill. unfold Engine.apply_fill. apply upholds_bind; [|intros _; uphold]; by intros s1 Hs1.
    + intros m. apply (up_login wo anyhow); [done|apply fields_reconcile|by left].
    + split; [done|]. split; exists []; by rewrite app_nil_r.
Qed.

(** An engine that is connected and logged in, for examples. *)
Definition sample_request : OrderRequest :=
  MkRequest kEthUsdt kBuy kLimit (str "100") (str "0.01") 42.
Definition sample_quoter : QuoterState :=
  MkQuoter kEthUsdt 42 Engine.kQuoterSz (f_of_decimal false 1 (-2)) 2 Engine.kQuoterBps
    Engine.kRequoteThresholdBps None None None.
Definition sample_app (triggered : bool) (position : Position.t double) : App :=
  MkApp (OrderStore.SetOnRemove OrderStore.empty) (KillSwitch.Mk triggered)
    (EndpointRateLimiter.make Engine.kOrderRateLimit Engine.kCancelRateLimit Engine.kAmendRateLimit)
    sample_quoter AccountState.initial ∅ (WsOrderRoundTrip.make sample_request) position
    TickToTradeStats.empty (MakeMarketDataSource kJsonBook 42) 0 [].
Definition sample_auth : OkxAuth := MkAuth (str "key") (str "secret") (str "phrase").
Definition sample_state (triggered : bool) (position : Position.t double)
    : OkxWsClient.St App (unit * list CurlOptions) :=
  OkxWsClient.MkSt
    (OkxWsClient.set_authenticated true (OkxWsClient.set_transport true
       (OkxWsClient.make kOkxWsHost kOkxWsPort kPrivateWsPath (Some sample_auth) kJson)))
    (sample_app triggered position) (tt, []) [].
Definition sample_rest : RestClient := MkRest kOkxRestBaseUrl.
Definition sample_login : list Z := qstr "{'event':'login','code':'0'}".
Definition sample_fill : list Z :=
  qstr "{'arg':{'channel':'orders'},'data':[{'instId':'ETH-USDT','ordId':'7','clOrdId':'9',"
  ++ qstr "'px':'100','sz':'1','side':'sell','accFillSz':'1','avgPx':'100','fillPx':'100',"
  ++ qstr "'fillSz':'1','state':'filled'}]}".
Definition text_frame (m : list Z) : list Z :=
  WebSocketFrame.server_frame true WebSocketFrame.kText m.

Definition sample_run (es : list Engine.event) (s : OkxWsClient.St App (unit * list CurlOptions)) :=
  @Engine.run _ (recording (sample_world 5000000000 [])) sample_chars 1000000000 sample_rest
    sample_auth (λ _, 0%Z) es s.

(** One unit, bought at 160, is sold at 100. *)
Definition losing_state : OkxWsClient.St App (unit * list CurlOptions) :=
  sample_state false (Position.Mk (f_of_Z 1) (f_of_Z 160) fzero).
Lemma loss_limit_trips_witness :
  flt (Position.RealizedPnl (position_ (OkxWsClient.app (sample_run
    [Engine.ReadDone (Some (text_frame sample_fill))] losing_state).2)))
    (fneg Engine.kMaxRealizedLoss) = true ∧
  KillSwitch.IsTriggered (kill_switch_ (OkxWsClient.app (sample_run
    [Engine.ReadDone (Some (text_frame sample_fill))] losing_state).2)) = true.
Proof.
  pose proof (@loss_limit_trips unit (sample_world 5000000000 []) sample_chars 1000000000
    sample_rest sample_auth (λ _, 0%Z) [Engine.ReadDone (Some (text_frame sample_fill))] losing_state
    ltac:(vm_compute; intros Hf; inversion Hf)) as H. cbv beta zeta in H. unfold sample_run.
  match type of H with ?A → _ => assert A as Hlost by (vm_compute; reflexivity) end.
  exact (conj Hlost (H Hlost)).
Defined.

Lemma killed_places_no_order_witness :
  ∃ new, requests (OkxWsClient.app (sample_run
      [Engine.QuoterTimer; Engine.ReadDone (Some (text_frame sample_login)); Engine.ShutdownSignal]
      (sample_state true Position.flat)).2) = [] ++ new ∧ Forall quiet_request new.
Proof.
  exact (proj1 (proj2 (@killed_places_no_order unit (sample_world 5000000000 []) sample_chars
    1000000000 sample_rest sample_auth (λ _, 0%Z)
    [Engine.QuoterTimer; Engine.ReadDone (Some (text_frame sample_login)); Engine.ShutdownSignal]
    (sample_state true Position.flat) eq_refl))).
Defined.
