(* ===== verification/QuoterSlots.v ===== *)
(** * The quoter and the order store agree

    The quoter remembers the client order ids of its bid and its ask; the
    orders live in the store, which the engine, the order round trip and the
    reconciliation also change.  Whatever happens, an id that the quoter
    remembers belongs to an order in the store, and the two ids differ. *)

From S2P Require Import Prelude Float64 Json Rules Okx PriceText Perf OrderBook MarketData SbeBbo.
From S2P Require Import OrderLifecycle OrderStore World OrderEntry WsClient Reconciliation.
From S2P Require Import RateLimiter Risk Quoter RoundTrip Engine EngineInvariants.

(** ** The ids in a store

    The store is followed without the order of its keys: an id adopted from
    the exchange may come twice. *)
Definition ids (os : list Order.t) : list (list Z) := OrderStore.cl <$> os.

Section store.
Import OrderStore.

Lemma LowerBound_rep s os k : rep s os → ∃ r, LowerBound k s = Ok r ∧ r ≤ length os.
Proof.
  intros Hrep. pose proof Hrep as (_ & Hc & _). unfold LowerBound. rewrite Hc.
  apply lower_bound_le. intros i Hi. destruct (lookup_lt_is_Some_2 os i Hi) as [o Ho].
  rewrite (At_rep _ _ _ _ Hrep Ho). by eexists.
Qed.

Lemma Add_rep s os now k inst side px sz :
  rep s os →
  let '(r, s') := Add now k inst side px sz s in
  ∃ os', rep s' os' ∧ on_remove_ s' = on_remove_ s ∧ ids os ⊆ ids os' ∧
    match r with Ok _ => k ∈ ids os' | Stop _ => True end.
Proof.
  intros Hrep. pose proof Hrep as (Hs & Hc & Hlen).
  destruct (decide (length os < kCapacity)) as [Hroom|Hfull].
  - destruct (LowerBound_rep s os k Hrep) as (r & HLB & Hr).
    destruct (Add_at s os now k inst side px sz r Hrep Hroom HLB Hr) as (s' & -> & Hsl & Hct & Hon).
    eexists. split; [|split; [done|]].
    + split; [exact Hsl|]. rewrite Hct, length_app, length_take. cbn [length]. rewrite length_drop. lia.
    + unfold ids. rewrite fmap_app, fmap_cons. split; [|set_solver].
      rewrite <-(take_drop r os) at 1. rewrite fmap_app. set_solver.
  - unfold Add, mbind, M_bind, get. rewrite Hc, (proj2 (Nat.leb_le _ _)) by lia.
    by exists os.
Qed.

Lemma holds_rep s os k r :
  rep s os → r ≤ length os →
  ∃ b, holds_at r k s = Ok b ∧ (b = true → ∃ o, os !! r = Some o ∧ cl o = k).
Proof.
  intros Hrep Hr. pose proof Hrep as (_ & Hc & _). unfold holds_at. rewrite Hc.
  destruct (Nat.leb_spec (length os) r) as [|Hlt]; [by exists false|].
  destruct (lookup_lt_is_Some_2 os r Hlt) as [o Ho]. rewrite (At_rep _ _ _ _ Hrep Ho).
  eexists. split; [done|]. intros Hk%bool_decide_eq_true. by exists o.
Qed.

Lemma Remove_rep s os k :
  rep s os → on_remove_ s = true →
  ∃ n s' os', Remove k s = (Ok n, s') ∧ rep s' os' ∧ on_remove_ s' = true ∧
    ∀ id, id ∈ ids os → id ∈ ids os' ∨ n = Some id.
Proof.
  intros Hrep Hon. pose proof Hrep as (Hs & Hc & Hlen).
  destruct (LowerBound_rep s os k Hrep) as (r & HLB & Hr).
  destruct (holds_rep s os k r Hrep Hr) as (b & Hat & Hb). destruct b.
  - destruct (Hb eq_refl) as (o & Ho & Hk).
    destruct (Remove_at s os k r o Hrep HLB Hat Ho) as (s' & -> & Hon' & Hsl & Hct).
    rewrite Hon. eexists (Some k), s', _. split; [done|]. split; [|split; [by rewrite Hon'|]].
    + split; [exact Hsl|]. rewrite Hct, length_app, length_take, length_drop.
      apply lookup_lt_Some in Ho. lia.
    + unfold ids. intros id. rewrite <-(take_drop_middle os r o Ho) at 1.
      rewrite !fmap_app, fmap_cons. set_solver.
  - exists None, s, os. unfold Remove, mbind, M_bind, get, lift. rewrite HLB, Hat. naive_solver.
Qed.

Lemma with_order_rep s os i (m : M Order.t unit) :
  rep s os → keeps_id m →
  let s' := (with_order i m s).2 in
  ∃ os', rep s' os' ∧ on_remove_ s' = on_remove_ s ∧ ids os' = ids os.
Proof.
  intros Hrep Hm. pose proof Hrep as (Hs & Hc & Hlen). unfold with_order.
  destruct (At i s) as [o|x] eqn:EA; [|by exists os].
  assert (os !! i = Some o) as Ho.
  { unfold At in EA. destruct (decide (i < length os)) as [Hi|Hi].
    - destruct (lookup_lt_is_Some_2 os i Hi) as [o1 Ho1].
      pose proof (At_rep _ _ _ _ Hrep Ho1) as HA. unfold At in HA. rewrite EA in HA. congruence.
    - unfold aget in EA. rewrite Hs, lookup_slots_of, decide_False in EA by done.
      by destruct (decide (i < kCapacity)). }
  specialize (Hm o). destruct (m o) as [r o']. cbn [snd] in *.
  pose proof (lookup_lt_Some _ _ _ Ho) as Hi.
  exists (<[i := o']> os). split; [|split; [done|]].
  - split; cbn [slots_ count_]; [|by rewrite length_insert].
    apply list_eq. intros j. rewrite list_lookup_insert, Hs, length_slots_of by done.
    rewrite !lookup_slots_of, length_insert, list_lookup_insert.
    prune_cases; try first [lookup_close | f_equal; lookup_close].
  - unfold ids. rewrite list_fmap_insert, Hm. apply list_insert_id.
    by rewrite list_lookup_fmap, Ho.
Qed.

(** *** Reconciliation *)

(** A store that still has the ids [base]. *)
Definition has (base : list (list Z)) (s : t) : Prop :=
  ∃ os, rep s os ∧ on_remove_ s = true ∧ base ⊆ ids os.

Lemma rep_inj s os os' : rep s os → rep s os' → os = os'.
Proof.
  intros H H'. pose proof H as (_ & Hc & _). pose proof H' as (_ & Hc' & _).
  apply list_eq_same_length with (length os); [lia|done|].
  intros i x y _ Hx Hy. pose proof (At_rep _ _ _ _ H Hx). pose proof (At_rep _ _ _ _ H' Hy). congruence.
Qed.
Lemma has_id s os id : rep s os → on_remove_ s = true → has [id] s ↔ id ∈ ids os.
Proof.
  intros Hrep Hon. split.
  - intros (os' & Hrep' & _ & Hin). rewrite (rep_inj _ _ _ Hrep Hrep'). set_solver.
  - intros Hin. exists os. split; [done|]. split; [done|]. set_solver.
Qed.

Lemma reconcile_order_has base now order :
  upholds (λ st, has base st.1) any (reconciliation.reconcile_order now order).
Proof.
  assert (∀ {A} (m : M t A), (∀ s, has base s → has base (m s).2) →
    upholds (λ st, has base st.1) any (reconciliation.on_store m)) as Hon.
  { intros A m Hm. apply upholds_zoom. intros st Hst. by apply Hm. }
  unfold reconciliation.reconcile_order. destruct (json.FindString order kClOrdId) as [k|]; [|uphold].
  destruct (json.FindString order kState) as [state|]; [|uphold]. cbv zeta.
  apply upholds_bind; [by intros st Hst|]. intros _. uphold.
  - apply Hon. intros s (os & Hrep & Hr & Hb).
    match goal with |- context [Add ?a ?b ?c ?d ?e ?f s] =>
      pose proof (Add_rep s os a b c d e f Hrep) as Hadd end.
    destruct (Add _ _ _ _ _ _ s) as [r s']. destruct Hadd as (os' & ? & ? & ? & _).
    cbn [snd]. exists os'. split; [done|]. split; [congruence|]. set_solver.
  - apply Hon. intros s (os & Hrep & Hr & Hb).
    match goal with |- context [with_order ?i ?m s] =>
      destruct (with_order_rep s os i m Hrep (step_keeps_id (Order.Event _))) as (os' & ? & ? & Hids)
    end.
    exists os'. split; [done|]. split; [congruence|]. by rewrite Hids.
Qed.

Lemma remove_all_has s os ks :
  rep s os → on_remove_ s = true →
  ∃ l s' os', reconciliation.remove_all ks s = (Ok l, s') ∧ rep s' os' ∧ on_remove_ s' = true ∧
    ∀ id, id ∈ ids os → id ∈ ids os' ∨ id ∈ l.
Proof.
  revert s os. induction ks as [|k ks IH]; intros s os Hrep Hon; cbn [reconciliation.remove_all].
  { exists [], s, os. naive_solver. }
  destruct (Remove_rep s os k Hrep Hon) as (n & s1 & os1 & HR & Hrep1 & Hon1 & H1).
  destruct (IH s1 os1 Hrep1 Hon1) as (l & s2 & os2 & Hall & Hrep2 & Hon2 & H2).
  unfold mbind, M_bind. rewrite HR, Hall. eexists _, s2, os2. split; [done|]. split; [done|].
  split; [done|]. intros id Hid. destruct (H1 id Hid) as [Hin| ->].
  - destruct (H2 id Hin); [by left|]. right. set_solver.
  - right. simpl. set_solver.
Qed.

Lemma ReconcileOrders_has s os now response :
  rep s os → on_remove_ s = true →
  let '(r, s') := reconciliation.ReconcileOrders now response s in
  ∃ os', rep s' os' ∧ on_remove_ s' = true ∧
    ∀ id, id ∈ ids os → id ∈ ids os' ∨ match r with Ok l => id ∈ l | Stop _ => False end.
Proof.
  intros Hrep Hon. unfold reconciliation.ReconcileOrders.
  pose proof (upholds_each (λ st, has (ids os) st.1) response kData
    (reconciliation.reconcile_order now) (reconcile_order_has (ids os) now) (s, ∅)) as Hup.
  destruct (json.ForEachArrayElement _ _ _ _) as [r [s1 listed]].
  assert (has (ids os) s1) as (os1 & Hrep1 & Hon1 & Hsub).
  { destruct r; [|apply Hup]; try apply Hup; by exists os. }
  destruct r as [[]|x]; [|exists os1; naive_solver].
  destruct (ForEach _ s1 []) as [[[]|x] to_drop]; [|exists os1; naive_solver].
  destruct (remove_all_has s1 os1 to_drop Hrep1 Hon1) as (l & s' & os' & -> & ? & ? & H).
  exists os'. split; [done|]. split; [done|]. intros id Hid. apply H. by apply Hsub.
Qed.
End store.

(** ** The invariant *)
Notation slot := NaiveQuoter.slot_id.
#[export] Instance slot_eq_dec : EqDecision NaiveQuoter.Slot.
Proof. solve_decision. Defined.

(** [id] was generated, not later than the last one. *)
Definition generated (a : App) (id : list Z) : Prop := ∃ z, id = to_string z ∧ (z ≤ last_id a)%Z.
(** Each remembered id is in the store, or among those whose removal the
    quoter has still to hear of; the two ids differ. *)
Definition agree_but (gone : list (list Z)) (a : App) : Prop :=
  has [] (order_store_ a) ∧
  (∀ x id, slot x (quoter_ a) = Some id → (has [id] (order_store_ a) ∨ id ∈ gone) ∧ generated a id) ∧
  (∀ x y id, slot x (quoter_ a) = Some id → slot y (quoter_ a) = Some id → x = y).
Notation agree := (agree_but []).
Definition K {W} (a : App) (w : W * list CurlOptions) : Prop := agree a.

(** The id is fresh to the quoter and its order is in the store. *)
Definition fresh (id : list Z) (a : App) : Prop :=
  generated a id ∧ ∀ x, slot x (quoter_ a) ≠ Some id.
Definition placed {W} (id : list Z) (a : App) (w : W * list CurlOptions) : Prop :=
  agree a ∧ fresh id a ∧ has [id] (order_store_ a).

Lemma slot_set x y id q :
  slot x (NaiveQuoter.set_slot y id q) = if decide (x = y) then id else slot x q.
Proof. by destruct x, y. Qed.

Lemma agree_clear gone a x :
  agree_but gone a → agree_but gone (set_quoter (NaiveQuoter.set_slot x None (quoter_ a)) a).
Proof.
  intros (Hs & Hx & Hd). split; [done|]. cbn [quoter_ set_quoter order_store_]. split.
  - intros y id. rewrite slot_set. case_decide; [done|]. apply Hx.
  - intros y z id. rewrite !slot_set. repeat case_decide; try done. apply Hd.
Qed.
Lemma agree_fill a x id :
  agree a → fresh id a → has [id] (order_store_ a) →
  agree (set_quoter (NaiveQuoter.set_slot x (Some id) (quoter_ a)) a).
Proof.
  intros (Hs & Hx & Hd) [Hg Hf] Hin. split; [done|].
  cbn [quoter_ set_quoter order_store_]. split.
  - intros y id'. rewrite slot_set. case_decide; [|apply Hx]. intros [= <-]. by split; [left|].
  - intros y z id'. rewrite !slot_set. repeat case_decide; subst; try done; [..|apply Hd].
    + intros [= <-] Hz. by destruct (Hf z).
    + intros Hy [= <-]. by destruct (Hf y).
Qed.
(** The store has changed: what left it is still to be told. *)
Lemma agree_store a st gone :
  agree a → has [] st → (∀ id, has [id] (order_store_ a) → has [id] st ∨ id ∈ gone) →
  agree_but gone (set_store st a).
Proof.
  intros (Hs & Hx & Hd) Hn Hl. split; [done|]. split; [|done].
  intros x id Hid. destruct (Hx x id Hid) as [[Hin|Hin] Hg]; [|set_solver].
  split; [by apply Hl|done].
Qed.
(** The quoter is told. *)
Lemma agree_removed id gone a :
  agree_but (id :: gone) a →
  agree_but gone (set_quoter (NaiveQuoter.OnOrderRemoved id (quoter_ a)) a).
Proof.
  intros (Hs & Hx & Hd).
  assert (∀ q, (∀ y id', slot y q = Some id' → slot y (quoter_ a) = Some id' ∧ id' ≠ id) →
    agree_but gone (set_quoter q a)) as Hq.
  { intros q Hq. split; [done|]. split.
    - intros y id' Hy. destruct (Hq y id' Hy) as [Hy' Hne]. destruct (Hx y id' Hy'). set_solver.
    - intros y z id' Hy Hz. by apply (Hd y z id'); apply Hq. }
  apply Hq. intros y id'. unfold NaiveQuoter.OnOrderRemoved.
  case_decide as Hb; [|case_decide as Hk].
  - rewrite slot_set. case_decide as Hy; [done|]. intros Hy'. split; [done|]. intros ->.
    by apply Hy, (Hd y NaiveQuoter.BidSlot id).
  - rewrite slot_set. case_decide as Hy; [done|]. intros Hy'. split; [done|]. intros ->.
    by apply Hy, (Hd y NaiveQuoter.AskSlot id).
  - intros Hy. split; [done|]. intros ->. by destruct y.
Qed.

Lemma agree_stable {W} rest : stable (W:=W) anyhow rest K.
Proof.
  split; try done.
  - intros a l x Hx (Hs & Hid & Hd). split; [done|]. split; [|done].
    intros y id Hy. destruct (Hid y id Hy) as [? (z & -> & Hz)]. split; [done|].
    exists z. split; [done|]. simpl. lia.
  - intros a l x. apply agree_clear.
Qed.
Lemma placed_stable {W} rest id : stable (W:=W) anyhow rest (placed id).
Proof.
  pose proof (agree_stable (W:=W) rest) as Ha. split; unfold placed; try done.
  - intros a l x Hx (H & [(z & -> & Hz) Hf] & Hs). split; [by apply (st_ids _ _ _ Ha a l)|].
    split; [|done]. split; [|done]. exists z. split; [done|]. simpl. lia.
  - intros a l x (H & [Hg Hf] & Hs). split; [by apply agree_clear|]. split; [|done].
    split; [done|]. intros y. cbn [quoter_ set_quoter]. rewrite slot_set. by case_decide.
Qed.

(** ** The operations *)

Section engine.
Context {W : Type} (wo : World W) `{!ToChars} (freq : Z).
Context (rest : RestClient) (auth : OkxAuth) (clock : list Z → Z).
#[local] Existing Instance recording.
Notation S := (OkxWsClient.St App (W * list CurlOptions)).
Notation I := (obeys (K (W:=W))).

(** *** Removals *)
Lemma on_store_triple {A} (m : M OrderStore.t A) (gone : A → list (list Z)) :
  (∀ st os, OrderStore.rep st os → OrderStore.on_remove_ st = true →
     let '(r, st') := m st in
     ∃ os', OrderStore.rep st' os' ∧ OrderStore.on_remove_ st' = true ∧
       ∀ id, id ∈ ids os → id ∈ ids os' ∨ match r with Ok a => id ∈ gone a | Stop _ => False end) →
  triple (S:=S) I (λ a s, agree_but (gone a) (OkxWsClient.app s)) I (on_store m).
Proof.
  intros Hm [c a w ef] Ha. unfold obeys, K in *. cbn [OkxWsClient.app] in Ha.
  pose proof Ha as ((os & Hrep & Hon & _) & _). specialize (Hm _ os Hrep Hon).
  unfold on_store, on_app, zoom. cbn [OkxWsClient.app].
  destruct (m (order_store_ a)) as [r st]. destruct Hm as (os' & Hrep' & Hon' & Hids).
  assert (has [] st) as Hst by (exists os'; split; [done|]; split; [done|]; set_solver).
  destruct r as [x|e]; cbn [OkxWsClient.app]; apply agree_store; try done; intros id';
    rewrite (has_id _ os), (has_id st os') by done; intros Hin;
    destruct (Hids id' Hin); naive_solver.
Qed.
Lemma told id gone :
  triple (S:=S) (λ s, agree_but (id :: gone) (OkxWsClient.app s))
    (λ _ s, agree_but gone (OkxWsClient.app s)) I
    (NaiveQuoter.update (NaiveQuoter.OnOrderRemoved id)).
Proof. intros [c a w ef] Ha. by apply agree_removed. Qed.

Lemma slots_remove id : upholds I any (WsOrderRoundTrip.Remove id).
Proof.
  apply upholds_triple. unfold WsOrderRoundTrip.Remove.
  eapply triple_bind; [apply (on_store_triple _ option_list)|].
  - intros st os Hrep Hon. destruct (Remove_rep st os id Hrep Hon)
      as (n & st' & os' & HR & ? & ? & Hids). rewrite HR. exists os'. split; [done|]. split; [done|]. intros id' Hin.
    destruct (Hids id' Hin) as [?|Hn]; [by left|right; rewrite Hn; set_solver].
  - intros [n|]; [apply told|]. by intros s Hs.
Qed.
Lemma slots_reconcile p : upholds I any (Engine.Reconcile clock p).
Proof.
  apply upholds_triple. unfold Engine.Reconcile.
  eapply triple_bind; [apply (on_store_triple _ id)|].
  - intros st os Hrep Hon. by apply ReconcileOrders_has.
  - intros l. unfold Engine.notify_removed. induction l as [|x l IH]; [by intros s Hs|].
    cbn [json.visit]. eapply triple_bind; [apply told|]. intros []. exact IH.
Qed.
Lemma slots_with i m : keeps_id m → upholds I any (on_store (OrderStore.with_order i m)).
Proof.
  intros Hm. apply upholds_triple, (on_store_triple _ (λ _, [])). intros st os Hrep Hon.
  destruct (with_order_rep st os i m Hrep Hm) as (os' & Hrep' & Hon' & Hids).
  destruct (OrderStore.with_order i m st) as [r st']. cbn [snd] in *. exists os'. split; [done|].
  split; [by rewrite Hon'|]. intros id Hin. left. by rewrite Hids.
Qed.

(** *** Placements *)
Lemma build_order_id request last (w : W * list CurlOptions) :
  let '(r, st') := BuildWsOrderMessage request (last, w) in
  (last ≤ st'.1)%Z ∧
  match r with Ok o => wo_id o = to_string st'.1 ∧ (last < st'.1)%Z | Stop _ => True end.
Proof.
  unfold BuildWsOrderMessage, GenerateId, OrderEntry.on_world, zoom, mbind, M_bind, get, put, lift.
  cbn [fst snd]. destruct (ask system_clock_now w) as [[now|x] w1]; cbn [fst snd]; [|lia].
  destruct (_ <=? _)%Z; cbn [fst snd]; [lia|]. unfold mret at 1, M_ret at 1.
  destruct (FormatOrderArg request _); cbn [fst snd]; [|lia]. unfold mret, M_ret. cbn [fst snd wo_id].
  split; [lia|]. split; [done|lia].
Qed.
Lemma slots_build request :
  triple (S:=S) I (λ o s, agree (OkxWsClient.app s) ∧ fresh (wo_id o) (OkxWsClient.app s)) I
    (on_ids (BuildWsOrderMessage request)).
Proof.
  intros [c a w ef] Ha. unfold obeys, K in *. cbn [OkxWsClient.app] in Ha.
  unfold on_ids, zoom. cbn [OkxWsClient.app OkxWsClient.world].
  pose proof (build_order_id request (last_id a) w) as Hb.
  destruct (BuildWsOrderMessage request (last_id a, w)) as [r [last w']]. destruct Hb as [Hle Hr].
  assert (agree (set_last_id last a)) as Ha' by (by apply (st_ids _ _ _ (agree_stable rest) a w)).
  destruct r as [o|x]; [|done]. destruct Hr as [Ho Hlt]. split; [done|]. cbn [fst] in *.
  split; [by exists last|]. cbn [OkxWsClient.app]. intros x Hx.
  destruct Ha as (_ & Hid & _). destruct (Hid x _ Hx) as [_ (z & Hz & Hzl)].
  rewrite Ho in Hz. apply (inj to_string) in Hz. lia.
Qed.
Lemma slots_add id inst side px sz :
  triple (S:=S) (λ s, agree (OkxWsClient.app s) ∧ fresh id (OkxWsClient.app s)) (λ _, obeys (W:=W) (placed id)) I
    (Add id inst side px sz).
Proof.
  unfold Add. eapply triple_bind.
  { apply (triple_upholds (obeys (λ a _, agree a ∧ fresh id a))); [|by intros s []].
    by apply upholds_zoom. }
  intros now [c a w ef] [Ha Hf]. unfold obeys, K in *. cbn [OkxWsClient.app] in Ha, Hf.
  pose proof Ha as ((os & Hrep & Hon & _) & _).
  unfold on_store, on_app, zoom. cbn [OkxWsClient.app].
  pose proof (Add_rep _ os now id inst side px sz Hrep) as Hadd.
  destruct (OrderStore.Add _ _ _ _ _ _ _) as [r st]. destruct Hadd as (os' & Hrep' & Hon' & Hsub & Hr).
  assert (OrderStore.on_remove_ st = true) as Hst by congruence.
  assert (agree (set_store st a)) as Ha'.
  { apply agree_store; [done| |].
    - exists os'. split; [done|]. split; [done|]. set_solver.
    - intros id'. rewrite (has_id _ os), (has_id st os') by done. set_solver. }
  destruct r as [[]|x]; [|done]. split; [done|]. split; [done|].
  by apply (has_id st os').
Qed.
Lemma slots_send (J : App → W * list CurlOptions → Prop) m tr :
  stable anyhow rest J → (∀ a w r, J a w → J (set_requests r a) w) → upholds (obeys J) any (Send freq m tr).
Proof.
  intros Hst Hreq. unfold Send. apply upholds_bind; [apply up_change; intros; by apply Hreq|].
  intros _. apply (up_send_raw wo anyhow rest J Hst). intros t. apply (up_trace anyhow freq rest J Hst).
Qed.
Lemma placed_agree id s : obeys (W:=W) (placed id) s → I s.
Proof. by intros (Ha & _). Qed.

Lemma slots_acquire op : upholds I any (TryAcquire op).
Proof.
  unfold TryAcquire. apply upholds_bind; [by apply upholds_zoom|]. intros now.
  apply upholds_zoom. intros s Hs. unfold zoom. by destruct (EndpointRateLimiter.TryAcquire _ _ _).
Qed.

Lemma slots_place_side side px t :
  triple (S:=S) I (λ r s, match r with None => I s | Some id => obeys (W:=W) (placed id) s end) I
    (NaiveQuoter.PlaceSide freq side px t).
Proof.
  pose proof (agree_stable (W:=W) rest) as Hst.
  assert (∀ f tr, triple (S:=S) I (λ _, I) I (NaiveQuoter.stamp f tr)) as Hstamp.
  { intros. apply triple_upholds; [apply (up_stamp wo anyhow rest _ Hst)|done]. }
  unfold NaiveQuoter.PlaceSide. eapply triple_bind; [apply Hstamp|]. intros t1.
  eapply triple_bind; [apply triple_upholds; [apply slots_acquire|done]|].
  intros [|]; cbn [negb]; [|by intros s Hs].
  eapply triple_bind; [apply Hstamp|]. intros t2.
  eapply triple_bind; [apply triple_upholds; [apply up_see|done]|]. intros q. cbv zeta.
  eapply triple_bind; [apply Hstamp|]. intros t3.
  eapply triple_bind; [apply slots_build|]. intros o.
  eapply triple_bind; [apply slots_add|]. intros [].
  eapply triple_bind; [apply (triple_upholds (obeys (placed (wo_id o))));
    [apply (up_stamp wo anyhow rest _ (placed_stable rest _))|apply placed_agree]|]. intros t4.
  eapply triple_bind; [apply (triple_upholds (obeys (placed (wo_id o))));
    [apply slots_send; [apply placed_stable|done]|apply placed_agree]|].
  by intros [] s Hs.
Qed.
Lemma slots_place_into x side px t : upholds I any (NaiveQuoter.place_into freq x side px t).
Proof.
  apply upholds_triple. unfold NaiveQuoter.place_into.
  eapply triple_bind; [apply slots_place_side|].
  intros [id|] [c a w ef] Hs; [|by apply agree_clear].
  destruct Hs as (Ha & Hf & Hin). by apply agree_fill.
Qed.
Lemma place_order_last request last :
  upholds (λ st : Z * (W * list CurlOptions), (last ≤ st.1)%Z) any (PlaceOrder rest auth request).
Proof.
  assert (∀ {A} (m : M (W * list CurlOptions) A),
    upholds (λ st : Z * (W * list CurlOptions), (last ≤ st.1)%Z) any (OrderEntry.on_world m)) as Hw.
  { intros A m. by apply upholds_zoom. }
  unfold PlaceOrder. case_decide; [by apply upholds_throw|].
  apply upholds_bind; [|intros id; cbv zeta; uphold; apply Hw].
  intros [n w] Hn.
  pose proof (offline_generate wo anyhow w.2 w.1 last (n, w) (conj (conj eq_refl Logic.I) Hn)) as Hg.
  destruct (GenerateId (n, w)) as [[] ?]; [apply Hg|]. by destruct Hg as [[_ ?] _].
Qed.
Lemma slots_place_order request : upholds I any (on_ids (PlaceOrder rest auth request)).
Proof.
  apply upholds_zoom. intros [c a w ef] Ha.
  pose proof (upholds_state _ _ (last_id a, w) (place_order_last request (last_id a)) (Z.le_refl _)).
  by apply (st_ids _ _ _ (agree_stable rest) a w).
Qed.
Lemma slots_start : upholds I any (WsOrderRoundTrip.Start freq rest auth).
Proof.
  pose proof (agree_stable (W:=W) rest) as Hst. unfold WsOrderRoundTrip.Start.
  repeat (lazymatch goal with
  | |- upholds _ _ (on_ids (PlaceOrder _ _ _)) => apply slots_place_order
  | |- upholds _ _ (WsOrderRoundTrip.FallBackToRestCancel _ _) => apply (up_fall_back wo anyhow rest auth _ Hst)
  | |- upholds _ _ WsOrderRoundTrip.IsConnected => apply up_is_connected
  | |- upholds _ _ (WsOrderRoundTrip.ask_trip _) => apply up_see
  | |- upholds _ _ (WsOrderRoundTrip.set_ord_id _) => by apply up_change
  | |- upholds _ _ (on_ids (BuildWsOrderMessage _) ≫= _) => apply upholds_triple
  | |- _ => uphold_step
  end).
  eapply triple_bind; [apply slots_build|]. intros o.
  eapply triple_bind.
  { apply (triple_upholds (obeys (λ a _, agree a ∧ fresh (wo_id o) a))); [|by intros s []].
    by apply up_change. }
  intros []. eapply triple_bind; [apply slots_add|]. intros [].
  eapply triple_bind; [apply (triple_upholds (obeys (placed (wo_id o))));
    [apply slots_send; [apply placed_stable|done]|apply placed_agree]|].
  intros []. intros s Hs. by apply placed_agree in Hs.
Qed.

Lemma slots_trigger : upholds I any (Engine.Trigger rest auth).
Proof.
  intros s Hs. destruct (Engine.Trigger rest auth s) as [r s'] eqn:E.
  destruct (trigger_effect wo rest auth s r s' E) as [Happ _].
  assert (I s') by (unfold obeys; rewrite Happ; exact Hs). by destruct r.
Qed.
Lemma slots_fill side fill : upholds I any (Engine.apply_fill rest auth side fill).
Proof.
  unfold Engine.apply_fill. apply upholds_bind; [by apply up_change|]. intros _.
  apply upholds_bind; [apply up_see|]. intros [|]; [apply slots_trigger|apply upholds_ret].
Qed.
Lemma slots_run es : upholds I any (Engine.run freq rest auth clock es).
Proof.
  apply (up_run wo anyhow); [apply agree_stable|apply slots_trigger|apply slots_fill|apply slots_with
    |apply slots_remove|apply slots_reconcile|right; exact slots_place_into|].
  intros m. apply (up_login wo anyhow); [apply agree_stable|apply slots_reconcile|right; apply slots_start].
Qed.
End engine.

(** ** The property *)

(** An order with this client order id is among the occupied slots. *)
Definition live (id : list Z) (st : OrderStore.t) : Prop :=
  ∃ i o, i < OrderStore.count_ st ∧ OrderStore.At i st = Ok o ∧ Order.cl_ord_id_ o = id.
Lemma has_live id st : has [id] st → live id st.
Proof.
  intros (os & Hrep & _ & Hin). assert (id ∈ ids os) as Hid by set_solver.
  apply list_elem_of_fmap in Hid as (o & -> & (i & Hi)%list_elem_of_lookup).
  exists i, o. pose proof Hrep as (Hs & Hc & Hl). split; [rewrite Hc; by eapply lookup_lt_Some|].
  split; [by eapply OrderStore.At_rep|done].
Qed.

(** C11. The engine starts with a quoter that remembers no order.  After any
    sequence of events, up to and including one that throws, each client order
    id that the quoter remembers is that of an order in the store, and its bid
    and its ask are different orders: an order that leaves the store, for
    whatever reason, is forgotten by the quoter in the same event. *)
Theorem quoter_slots_live {W} (wo : World W) `{!ToChars} freq rest auth clock es
    mode code tick request stats last app c (w : W) log ef :
  Engine.make mode code tick request stats last = Ok app →
  let s' := (@Engine.run _ (recording wo) _ freq rest auth clock es
               (OkxWsClient.MkSt c app (w, log) ef)).2 in
  let a := OkxWsClient.app s' in
  (∀ x id, NaiveQuoter.slot_id x (quoter_ a) = Some id → live id (order_store_ a)) ∧
  (∀ id, bid_cl_ord_id_ (quoter_ a) = Some id → ask_cl_ord_id_ (quoter_ a) ≠ Some id).
Proof.
  intros Hmake s' a.
  assert (agree app) as Happ.
  { unfold Engine.make, NaiveQuoter.make in Hmake.
    destruct (json.ParseDouble (sv_of tick)); [|done]. injection Hmake as <-.
    split; [|by split; [intros []|intros []]].
    exists []. split; [|done]. split; [done|]. simpl. lia. }
  destruct (upholds_state _ _ (OkxWsClient.MkSt c app (w, log) ef)
    (slots_run wo freq rest auth clock es) Happ) as (_ & Hx & Hd).
  split.
  - intros x id Hid. destruct (Hx x id Hid) as [[Hin|Hin] _]; [by apply has_live|set_solver].
  - intros id Hb Hk. by specialize (Hd NaiveQuoter.BidSlot NaiveQuoter.AskSlot id Hb Hk).
Qed.

(** A quoter that gets books. *)
Definition sample_book (ask bid : string) : list Z :=
  qstr "{'arg':{'channel':'books','instId':'ETH-USDT'},'data':[{" ++
  qstr "'asks':[['" ++ str ask ++ qstr "','2','0','1']],'bids':[['" ++ str bid ++
  qstr "','1','0','1']],'seqId':5,'prevSeqId':-1}]}".
Definition sample_client : OkxWsClient.t :=
  OkxWsClient.set_authenticated true (OkxWsClient.set_transport true
    (OkxWsClient.make kOkxWsHost kOkxWsPort kPrivateWsPath (Some sample_auth) kJson)).
Definition sample_made : result App :=
  Engine.make kJsonBook 42 (str "0.01") sample_request TickToTradeStats.empty 0.
Definition sample_events (books : list (string * string)) : list Engine.event :=
  (λ '(ask, bid), Engine.MarketMessage 1 2 (sv_of (sample_book ask bid))) <$> books.
Definition sample_quoting (books : list (string * string)) : App → App := λ app,
  OkxWsClient.app (@Engine.run _ (recording (sample_world 5000000000 [])) sample_chars 1000000000
    sample_rest sample_auth (λ _, 0%Z) (sample_events books)
    (OkxWsClient.MkSt sample_client app (tt, []) [])).2.

Lemma quoter_slots_live_witness :
  ∃ app, sample_made = Ok app ∧
    let a := sample_quoting [("3001", "3000")]%string app in
    NaiveQuoter.slot_id NaiveQuoter.AskSlot (quoter_ a) = Some (str "5001") ∧
    live (str "5001") (order_store_ a).
Proof.
  destruct sample_made as [app|x] eqn:E; [|vm_compute in E; discriminate E].
  exists app. split; [exact eq_refl|]. intros a.
  pose proof (@quoter_slots_live unit (sample_world 5000000000 []) sample_chars 1000000000 sample_rest
    sample_auth (λ _, 0%Z) (sample_events [("3001", "3000")]%string) kJsonBook 42 (str "0.01")
    sample_request TickToTradeStats.empty 0 app sample_client tt [] [] E) as H.
  assert (NaiveQuoter.slot_id NaiveQuoter.AskSlot (quoter_ a) = Some (str "5001")) as Hs.
  { unfold a. vm_compute in E. injection E as <-. vm_compute. reflexivity. }
  split; [exact Hs|]. exact (proj1 H NaiveQuoter.AskSlot (str "5001") Hs).
Defined.
