(* ===== verification/EngineSafety.v ===== *)
(** * The engine's memory safety

    Every array the engine keeps (slots of orders, times of the rate limiter,
    histograms, balances, levels of the book, the buffers of the connection)
    is accessed only within its bounds, in every run of events, whatever the
    exchange sends.  Each component has an invariant of its own; they are put
    together here, and the pass over the handlers shows that they hold. *)

From S2P Require Import Prelude Float64 Json Rules Okx PriceText Perf OrderBook MarketData SbeBbo.
From S2P Require Import OrderLifecycle OrderStore World OrderEntry RingBuffer WebSocketFrame Handshake.
From S2P Require Import WsClient ClientSafety Reconciliation RateLimiter Risk Quoter RoundTrip Engine.
From S2P Require Import EngineInvariants QuoterSlots.

(** ** The order store *)
Section store.
Import OrderStore.

Lemma At_defined s os i : rep s os → i < kCapacity → defined (At i s).
Proof.
  intros (Hs & _ & Hl) Hi. unfold At. rewrite aget_lt by (rewrite Hs, length_slots_of; done).
  cbn [mbind result_bind]. by case_match.
Qed.
(** A pointer points into the array. *)
Definition in_array (found : option nat) : Prop :=
  match found with Some i => i < kCapacity | None => True end.
Lemma find_defined s k :
  has [] s → match FindByClOrdId k s with Ok found => in_array found | Stop x => x ≠ UB end.
Proof.
  intros (os & Hrep & _). pose proof Hrep as (_ & _ & Hl). unfold FindByClOrdId.
  destruct (LowerBound_rep s os k Hrep) as (r & -> & Hr). cbn [mbind result_bind].
  destruct (holds_rep s os k r Hrep Hr) as (b & -> & Hb). cbn [mbind result_bind]. destruct b; [|done].
  destruct (Hb eq_refl) as (x & Hx & _). apply lookup_lt_Some in Hx. cbn. lia.
Qed.

Lemma clean_add now k inst side px sz : clean (has []) (Add now k inst side px sz).
Proof.
  intros s (os & Hrep & Hon & _). pose proof (Add_rep s os now k inst side px sz Hrep) as Hadd.
  assert ((Add now k inst side px sz s).1 ≠ Stop UB) as Hub.
  { pose proof Hrep as (_ & Hc & _). destruct (decide (length os < kCapacity)) as [Hroom|Hfull].
    - destruct (LowerBound_rep s os k Hrep) as (r & HLB & Hr).
      by destruct (Add_at s os now k inst side px sz r Hrep Hroom HLB Hr) as (s' & -> & _).
    - unfold Add, mbind, M_bind, get. by rewrite Hc, (proj2 (Nat.leb_le _ _)) by lia. }
  destruct (Add _ _ _ _ _ _ s) as [r s']. destruct Hadd as (os' & Hrep' & Hon' & _).
  assert (has [] s') by (exists os'; split; [done|]; split; [congruence|set_solver]).
  destruct r as [|x]; [done|]. split; [done|]. intros ->. done.
Qed.
Lemma clean_remove k : clean (has []) (Remove k).
Proof.
  intros s (os & Hrep & Hon & _).
  destruct (Remove_rep s os k Hrep Hon) as (n & s' & os' & -> & Hrep' & Hon' & _).
  exists os'. split; [done|]. split; [done|set_solver].
Qed.
Lemma clean_with i m :
  i < kCapacity → keeps_id m → (∀ x, defined (m x).1) → clean (has []) (with_order i m).
Proof.
  intros Hi Hm Hd s (os & Hrep & Hon & _).
  destruct (with_order_rep s os i m Hrep Hm) as (os' & Hrep' & Hon' & _).
  assert (has [] (with_order i m s).2) as Hs by (exists os'; split; [done|]; split; [congruence|set_solver]).
  assert ((with_order i m s).1 ≠ Stop UB) as Hub.
  { pose proof (At_defined s os i Hrep Hi) as HA. unfold with_order. unfold defined in *.
    destruct (At i s) as [x|x]; [|cbn; congruence]. specialize (Hd x). by destruct (m x). }
  destruct (with_order i m s) as [[|x] s']; [done|]. split; [done|]. intros ->. done.
Qed.
Lemma step_defined i x : defined (Order.step i x).1.
Proof.
  destruct i as [ev|now|now|]; cbn [Order.step];
    unfold Order.ApplyEvent, Order.OnCancelRequested, Order.OnAmendRequested, Order.OnRequestRejected,
      Order.copy_event, Order.set_px, Order.set_pending, Order.TransitionTo, Order.unexpected,
      mbind, M_bind, get, modify, throwM, defined; repeat (case_match; simplify_eq/=); done.
Qed.
Lemma clean_step i x : i < kCapacity → clean (has []) (with_order i (Order.step x)).
Proof. intros Hi. apply clean_with; [done|apply step_keeps_id|apply step_defined]. Qed.

Lemma clean_for_each {X} s (action : Order.t → M X unit) :
  has [] s → (∀ x, clean (λ _, True) (action x)) → clean (λ _, True) (ForEach action s).
Proof.
  intros (os & Hrep & _) Ha. pose proof Hrep as (_ & Hc & Hl). unfold ForEach. rewrite Hc.
  assert (∀ n i, i + n ≤ kCapacity → clean (λ _, True) (ForEach_loop n i action s)) as Hloop.
  { induction n as [|n IH]; intros i Hi; cbn [ForEach_loop]; [apply spares_ret|].
    apply spares_bind; [apply spares_lift; apply (At_defined s os); [done|lia]|]. intros x.
    apply spares_bind; [apply Ha|]. intros _. apply IH. lia. }
  apply Hloop. lia.
Qed.
Lemma clean_result {S A} (m : M S A) s : clean (λ _, True) m → defined (m s).1.
Proof.
  intros Hm. specialize (Hm s Logic.I). unfold defined. destruct (m s) as [[|x] ?]; [done|].
  intros [= ->]. by apply Hm.
Qed.

(** *** Reconciliation *)
Lemma clean_reconcile_order now order :
  clean (λ st, has [] st.1) (reconciliation.reconcile_order now order).
Proof.
  assert (returns (λ st : reconciliation.St, has [] st.1) get (λ st, has [] st.1)) as Hget
    by (by intros s a s' Hs [= <- _]).
  assert (∀ {A} (m : M t A), clean (has []) m →
    clean (λ st, has [] st.1) (reconciliation.on_store m)) as Hon.
  { intros A m. by apply spares_zoom. }
  unfold reconciliation.reconcile_order. destruct (json.FindString order kClOrdId) as [k|]; [|apply spares_throw].
  destruct (json.FindString order kState) as [state|]; [|apply spares_throw]. cbv zeta.
  apply spares_bind; [by apply spares_modify|]. intros _.
  apply (spares_bind_post _ _ _ _ _ (spares_get _ _) Hget). intros st Hst.
  apply (spares_lift_bind _ _ in_array); [by apply find_defined|]. intros [i|] _; [apply spares_ret|].
  apply spares_bind; [apply spares_lift; unfold reconciliation.ClassifyPendingState; definite|]. intros type.
  apply spares_bind; [apply Hon, clean_add|]. intros _.
  apply (spares_bind_post _ _ _ _ _ (spares_get _ _) Hget). intros st' Hst'.
  apply (spares_lift_bind _ _ in_array); [by apply find_defined|]. intros [i|] Hi; [|apply spares_throw].
  by apply Hon, (clean_step i (Order.Event _)).
Qed.
Lemma clean_remove_all ks : clean (has []) (reconciliation.remove_all ks).
Proof.
  induction ks as [|k ks IH]; cbn [reconciliation.remove_all]; [apply spares_ret|].
  apply spares_bind; [apply clean_remove|]. intros n. apply spares_bind; [done|]. intros. apply spares_ret.
Qed.
Lemma clean_reconcile now response : clean (has []) (reconciliation.ReconcileOrders now response).
Proof.
  intros s Hs. unfold reconciliation.ReconcileOrders.
  pose proof (spares_each _ _ response kData _ (clean_reconcile_order now) (s, ∅) Hs) as Heach.
  destruct (json.ForEachArrayElement _ _ _ _) as [[[]|x] [s1 listed]]; [|exact Heach].
  pose proof (clean_result (ForEach (reconciliation.collect_drop listed) s1) []) as Hd.
  destruct (ForEach _ s1 []) as [[[]|x] to_drop].
  - by apply clean_remove_all.
  - split; [done|]. intros ->. apply Hd; [|done]. apply clean_for_each; [done|].
    intros o. by apply spares_modify.
Qed.
End store.

(** ** The other components *)

(** *** The rate limiter *)
Definition limited (l : EndpointRateLimiter.t) : Prop :=
  (∃ ts, SlidingWindowLimiter.held (EndpointRateLimiter.order_limiter_ l) ts) ∧
  (∃ ts, SlidingWindowLimiter.held (EndpointRateLimiter.cancel_limiter_ l) ts) ∧
  (∃ ts, SlidingWindowLimiter.held (EndpointRateLimiter.amend_limiter_ l) ts).
Lemma clean_window now :
  clean (λ l, ∃ ts, SlidingWindowLimiter.held l ts) (SlidingWindowLimiter.TryAcquire now).
Proof.
  intros l [ts Hl]. destruct (SlidingWindowLimiter.TryAcquire_spec now l ts Hl) as (l' & -> & Hl' & _).
  by eexists.
Qed.
Lemma clean_acquire now op : clean limited (EndpointRateLimiter.TryAcquire now op).
Proof.
  unfold EndpointRateLimiter.TryAcquire.
  repeat case_decide; [eapply spares_zoom; [| | |apply clean_window]..|apply spares_throw];
    solve [done | by intros l (? & ? & ?) | by intros l x (? & ? & ?) ?].
Qed.

(** *** Balances *)
Definition balanced (s : AccountState.t) : Prop :=
  length (AccountState.balances_ s) = AccountState.kCapacity ∧
  AccountState.count_ s ≤ AccountState.kCapacity.
Section account.
Import AccountState.
#[local] Instance Balance_inhabited : Inhabited Balance := populate no_balance.
Lemma find_ccy_defined s n i c :
  balanced s → i + n ≤ kCapacity →
  match find_ccy n i c s with Ok (Some j) => j < kCapacity | Ok None => True | Stop x => x ≠ UB end.
Proof.
  intros Hs. revert i. induction n as [|n IH]; intros i Hi; cbn [find_ccy]; [done|].
  rewrite aget_lt by (destruct Hs as [-> _]; lia). cbn [mbind result_bind]. case_decide; [lia|].
  apply IH. lia.
Qed.
Lemma clean_update i f : i < kCapacity → clean balanced (update i f).
Proof.
  intros Hi s [Hl Hc]. unfold update. rewrite aget_lt by lia. cbn [mbind result_bind].
  rewrite aset_lt by lia. split; cbn [balances_ count_]; [by rewrite length_insert|done].
Qed.
Lemma clean_detail detail : clean balanced (apply_detail detail).
Proof.
  assert (∀ v, clean balanced (lift (json.ParseDouble v))) as Hp.
  { intros v. apply spares_lift, defined_exn, ParseDouble_exn. }
  unfold apply_detail. destruct (json.FindString detail kCcy) as [c|]; [|spare].
  destruct (json.FindString detail kCashBal) as [cash|]; [|spare].
  destruct (json.FindString detail kAvailBal) as [avail|]; [|spare].
  apply (spares_bind_post _ _ balanced); [apply spares_get|by intros s a s' Hs [= <- _]|]. intros s Hs.
  apply (spares_lift_bind _ _ (λ r, match r with Some j => j < kCapacity | None => True end)).
  { pose proof Hs as [_ Hc]. pose proof (find_ccy_defined s (count_ s) 0 (sv_text c) Hs Hc) as H.
    by destruct (find_ccy _ _ _ _) as [[]|]. }
  intros [i|] Hi.
  - apply spares_bind; [apply Hp|]. intros x. apply spares_bind; [by apply clean_update|]. intros _.
    apply spares_bind; [apply Hp|]. intros y. by apply clean_update.
  - destruct (Nat.ltb_spec (count_ s) kCapacity) as [Hroom|]; [|apply spares_ret].
    apply spares_bind; [apply Hp|]. intros x. apply spares_bind; [apply Hp|]. intros y.
    destruct Hs as [Hl Hc]. rewrite aset_lt by lia. intros s' _. split; cbn [balances_ count_].
    + by rewrite length_insert.
    + lia.
Qed.
Lemma clean_account message : clean balanced (ApplyMessage message).
Proof. unfold ApplyMessage. spare. apply spares_each, clean_detail. Qed.
Lemma clean_balances {X} (I E : X → Prop) (action : Balance → M X unit) s :
  balanced s → (∀ b, spares I E (action b)) → spares I E (ForEachBalance action s).
Proof.
  intros [Hl Hc] Ha. unfold ForEachBalance.
  assert (∀ n i, i + n ≤ kCapacity → spares I E (ForEachBalance_loop n i action s)) as Hloop.
  { induction n as [|n IH]; intros i Hi; cbn [ForEachBalance_loop]; [apply spares_ret|].
    apply spares_bind; [apply spares_lift; by rewrite aget_lt by lia|]. intros b.
    apply spares_bind; [apply Ha|]. intros _. apply IH. lia. }
  by apply Hloop.
Qed.
End account.

(** *** Market data *)
Definition sourced (s : Source) : Prop :=
  OrderBook.sized (match s with JsonSource s => JsonBookSource.book_ s | SbeSource _ s => SbeBboSource.book_ s end).
Lemma best_bid_defined b : OrderBook.sized b → defined (OrderBook.BestBid b).
Proof. intros [Hb _]. apply defined_Ok, PriceLevels.Best_sized, Hb. Qed.
Lemma best_ask_defined b : OrderBook.sized b → defined (OrderBook.BestAsk b).
Proof. intros [_ Ha]. apply defined_Ok, PriceLevels.Best_sized, Ha. Qed.

Definition json_output_ok (out : JsonBookSource.output) : Prop :=
  match out with JsonBookSource.BookUpdate b _ => OrderBook.sized b | _ => True end.
Lemma json_message arrival decoded now message s :
  OrderBook.sized (JsonBookSource.book_ s) →
  let '(r, s') := JsonBookSource.OnMessage arrival decoded now message s in
  OrderBook.sized (JsonBookSource.book_ s') ∧
  match r with Ok outs => Forall json_output_ok outs | Stop x => x ≠ UB end.
Proof.
  intros Hs. unfold JsonBookSource.OnMessage, mbind, M_bind, zoom, get, lift.
  pose proof (ApplyBookMessage_upholds message _ Hs) as Hup.
  destruct (ApplyBookMessage message _) as [[r|x] b]; [|split; [apply Hup|apply Hup]].
  cbn [JsonBookSource.book_ JsonBookSource.set_book]. destruct r.
  - by split; [|constructor].
  - destruct (PriceLevels.Best_sized _ (proj1 Hup)) as [bid Hbid].
    destruct (PriceLevels.Best_sized _ (proj2 Hup)) as [ask Hask].
    unfold OrderBook.BestBid, OrderBook.BestAsk. rewrite Hbid, Hask.
    cbn [mret M_ret]. split; [done|]. case_match; [by constructor|constructor].
  - cbn [mret M_ret]. split; [done|]. by repeat constructor.
Qed.
Lemma sbe_message arrival decoded now message s :
  sv_wf message → OrderBook.sized (SbeBboSource.book_ s) →
  let '(r, s') := SbeBboSource.OnMessage arrival decoded now message s in
  OrderBook.sized (SbeBboSource.book_ s') ∧
  match r with Ok (Some (b, _)) => OrderBook.sized b | Ok None => True | Stop x => x ≠ UB end.
Proof.
  intros Hwf Hs. unfold SbeBboSource.OnMessage, SbeBboSource.on_book, mbind, M_bind, zoom, get, lift, modify, runS.
  destruct (sbe.DecodeBboTbt_Ok message Hwf) as (r & -> & _). destruct r as [bbo|]; [|done].
  destruct (_ <=? _)%Z; [done|]. cbn [SbeBboSource.book_ SbeBboSource.set_book].
  destruct (OrderBook.SetBid_sized (sbe.bid_px bbo) (sbe.bid_sz bbo) _ (OrderBook.BeginSnapshot_sized _ Hs))
    as (b1 & -> & H1). cbn [SbeBboSource.book_ SbeBboSource.set_book].
  destruct (OrderBook.SetAsk_sized (sbe.ask_px bbo) (sbe.ask_sz bbo) _ H1) as (b2 & -> & H2).
  cbn [SbeBboSource.book_ SbeBboSource.set_book mret M_ret]. split; [exact H2|].
  by destruct (SbeBboSource.on_book_update_ _).
Qed.

(** ** The engine *)
Definition sound_app (a : App) : Prop :=
  has [] (order_store_ a) ∧ limited (rate_limiter_ a) ∧ TickToTradeStats.tallied (tick_to_trade_stats_ a) ∧
  balanced (account_state_ a) ∧ sourced (market_data_ a).
(** The counter of the ids has reached its last value. *)
Definition exhausted (a : App) : Prop := (2 ^ 63 - 1 ≤ last_id a)%Z.

(** *** Ids and REST requests *)
Section requests.
Context {W : Type} `{!World W} (rest : RestClient) (auth : OkxAuth).
Notation T := (λ _, True).
Notation spent := (λ st : Z * W, (2 ^ 63 - 1 ≤ st.1)%Z).

Lemma clean_perform post path headers : clean (λ _ : W, True) (Perform rest post path headers).
Proof. unfold Perform. spare; apply clean_ask. Qed.
Lemma clean_pending : clean (λ _ : W, True) (GetPendingOrders rest auth).
Proof. unfold GetPendingOrders, Get. spare; [apply clean_sign|apply clean_perform]. Qed.
Lemma clean_cancel inst ord : clean (λ _ : W, True) (CancelOrder rest auth inst ord).
Proof. unfold CancelOrder, Post. spare; [apply clean_sign|apply clean_perform]. Qed.

Lemma spare_generate : spares T spent GenerateId.
Proof.
  intros [n w] _. unfold GenerateId, OrderEntry.on_world, zoom, mbind, M_bind, get, put, lift.
  cbn [fst snd]. unfold ask. destruct (system_clock_now w) as [now w1]. cbn [fst snd].
  destruct (Z.leb_spec (2 ^ 63) (n + 1)); [|done]. split; [done|]. intros _. cbn [fst]. lia.
Qed.
#[local] Hint Resolve spare_generate : spare.
Lemma spare_order r : spares T spent (BuildWsOrderMessage r).
Proof. unfold BuildWsOrderMessage. spare. apply spares_lift. unfold FormatOrderArg. definite. Qed.
Lemma spare_amend c o p z : spares T spent (BuildWsAmendOrderMessage c o p z).
Proof. unfold BuildWsAmendOrderMessage. spare. Qed.
Lemma spare_cancel c o : spares T spent (BuildWsCancelOrderMessage c o).
Proof. unfold BuildWsCancelOrderMessage. spare. Qed.
Lemma spare_place_order r : spares T spent (PlaceOrder rest auth r).
Proof.
  assert (∀ {A} (m : M W A), clean (λ _ : W, True) m → spares T spent (OrderEntry.on_world m)) as Hw.
  { intros A m. by apply spares_zoom. }
  unfold PlaceOrder, Post. spare; apply Hw; [apply clean_sign|apply clean_perform].
Qed.
End requests.

Section engine.
Context {W : Type} `{!World W} `{!ToChars} (freq : Z) (Hfreq : (0 < freq)%Z).
Context (rest : RestClient) (auth : OkxAuth) (clock : list Z → Z).
Context (o : option nat) (k : nat).
Notation S := (OkxWsClient.St App W).
Notation I := (sound (W:=W) sound_app o k).
Notation safe := (spares I (bad exhausted)).

(** *** Parts *)
(** One member has changed. *)
Ltac resound :=
  intros ? ? (? & ? & ? & ? & ?) ?; repeat (split; [assumption|]); assumption.
Lemma safe_see {A} (f : App → A) : safe (see f).
Proof. by intros s Hs. Qed.
Lemma returns_see {A} (f : App → A) (P : A → Prop) :
  (∀ a, sound_app a → P (f a)) → returns I (see f) P.
Proof. intros Hf s x s' (_ & Ha & _) [= <- _]. by apply Hf. Qed.
Lemma safe_change f : (∀ a, sound_app a → sound_app (f a)) → safe (change f).
Proof. intros Hf s (Hc & Ha & He). split; [done|]. split; [by apply Hf|done]. Qed.
Lemma safe_part {T A} (J : T → Prop) (proj : App → T) set (m : M T A) :
  (∀ a, sound_app a → J (proj a)) → (∀ a x, sound_app a → J x → sound_app (set x a)) →
  clean J m → safe (on_app (zoom proj set m)).
Proof.
  intros Hp Hs Hm. apply (spares_zoom _ _ sound_app (λ _, False));
    [by intros s (_ & ? & _)|by intros s a (? & _ & ?) ?|done|]. by apply (spares_zoom _ _ J (λ _, False)).
Qed.
Lemma safe_store {A} (m : M OrderStore.t A) : clean (has []) m → safe (on_store m).
Proof. apply safe_part; [by intros a []|resound]. Qed.
Lemma safe_ids {A} (m : M (Z * W) A) :
  spares (λ _, True) (λ st, 2 ^ 63 - 1 ≤ st.1)%Z m → safe (on_ids m).
Proof. apply spares_zoom; [done|by intros s x (? & ? & ?) _|by left]. Qed.
Lemma safe_trace tr : safe (on_trace_resolved freq tr).
Proof using Hfreq.
  eapply safe_part; [..|intros st Hst]; [by intros a (_ & _ & ? & _)|resound|].
  destruct (TickToTradeStats.Record_tallied freq tr st Hfreq Hst) as (st' & Hr & ?).
  unfold runS. by rewrite Hr.
Qed.
Lemma safe_acquire op : safe (TryAcquire op).
Proof.
  unfold TryAcquire. apply spares_bind; [apply safe_ask|]. intros now.
  eapply safe_part; [..|apply clean_acquire]; [by intros a (_ & ? & _)|resound].
Qed.
Lemma safe_request r : safe (request r).
Proof. by apply safe_change. Qed.
#[local] Hint Resolve safe_see safe_trace safe_acquire safe_request safe_read safe_ask : spare.
#[local] Hint Extern 1 (spares _ _ (change _)) => (apply safe_change; done) : spare.
#[local] Hint Extern 1 (spares _ _ (NaiveQuoter.update _)) => (apply safe_change; done) : spare.
#[local] Hint Extern 1 (spares _ _ (Quoter.on_world (ask _))) => apply safe_ask : spare.
Lemma safe_send_message m tr : safe (Send freq m tr).
Proof using Hfreq. unfold Send. apply spares_bind; [spare|]. intros _. apply safe_send. spare. Qed.
Lemma safe_add id inst side px sz : safe (Add id inst side px sz).
Proof. unfold Add. spare. apply safe_store, clean_add. Qed.
#[local] Hint Resolve safe_send_message safe_add : spare.
Lemma safe_with_step i x : i < OrderStore.kCapacity → safe (on_store (OrderStore.with_order i (Order.step x))).
Proof. intros Hi. by apply safe_store, clean_step. Qed.
Lemma safe_find_bind {A} id (f : option nat → M S A) :
  (∀ found, in_array found → safe (f found)) →
  safe (store ← see order_store_; found ← lift (OrderStore.FindByClOrdId id store); f found).
Proof.
  intros Hf. apply (spares_bind_post _ _ (has [])); [spare|by apply returns_see; intros a []|].
  intros st Hst. apply (spares_lift_bind _ _ in_array); [by apply find_defined|done].
Qed.
Lemma safe_at_bind {A} i (f : Order.t → M S A) :
  i < OrderStore.kCapacity → (∀ x, safe (f x)) →
  safe (store ← see order_store_; x ← lift (OrderStore.At i store); f x).
Proof.
  intros Hi Hf. apply (spares_bind_post _ _ (has [])); [spare|by apply returns_see; intros a []|].
  intros st (os & Hrep & _). apply spares_bind; [by apply spares_lift, (At_defined st os)|done].
Qed.

(** *** The round trip *)
Lemma safe_remove id : safe (WsOrderRoundTrip.Remove id).
Proof. unfold WsOrderRoundTrip.Remove. spare. apply safe_store, clean_remove. Qed.
Lemma safe_fall_back : safe (WsOrderRoundTrip.FallBackToRestCancel rest auth).
Proof. unfold WsOrderRoundTrip.FallBackToRestCancel, WsOrderRoundTrip.ask_trip. spare. apply safe_world, clean_cancel. Qed.
#[local] Hint Resolve safe_remove safe_fall_back : spare.
Lemma safe_start : safe (WsOrderRoundTrip.Start freq rest auth).
Proof using Hfreq.
  unfold WsOrderRoundTrip.Start, WsOrderRoundTrip.ask_trip, WsOrderRoundTrip.IsConnected,
    WsOrderRoundTrip.set_ord_id, WsOrderRoundTrip.set_cl_ord_id, WsOrderRoundTrip.Track.
  spare; apply safe_ids; [apply spare_place_order|apply spare_order].
Qed.
Lemma safe_apply_event e : safe (WsOrderRoundTrip.ApplyOrderEvent e).
Proof.
  unfold WsOrderRoundTrip.ApplyOrderEvent. apply safe_find_bind. intros [i|] Hi; [|spare].
  apply spares_bind; [by apply (safe_with_step i (Order.Event e))|]. intros _.
  apply safe_at_bind; [done|]. spare.
Qed.
Lemma safe_order_bind {A} (f : nat → M S A) :
  (∀ i, i < OrderStore.kCapacity → safe (f i)) → safe (i ← WsOrderRoundTrip.GetOrder; f i).
Proof.
  intros Hf. apply (spares_bind_post _ _ (λ i, i < OrderStore.kCapacity)); [| |done].
  - unfold WsOrderRoundTrip.GetOrder, WsOrderRoundTrip.ask_trip. apply spares_bind; [spare|]. intros id.
    apply safe_find_bind. intros [i|] _; spare.
  - intros s i s' (_ & (Hst & _) & _). unfold WsOrderRoundTrip.GetOrder, WsOrderRoundTrip.ask_trip, see,
      mbind, M_bind, get, lift. cbn [mret M_ret].
    match goal with |- context [OrderStore.FindByClOrdId ?id ?st] => pose proof (find_defined st id Hst) as Hd end.
    destruct (OrderStore.FindByClOrdId _ _) as [[j|]|x]; try done. by intros [= <- _].
Qed.
Lemma safe_rejected : safe WsOrderRoundTrip.request_rejected.
Proof.
  unfold WsOrderRoundTrip.request_rejected. apply safe_order_bind. intros i Hi.
  apply spares_bind; [by apply (safe_with_step i Order.RequestRejected)|]. intros _.
  apply safe_order_bind. spare.
Qed.
#[local] Hint Resolve safe_rejected : spare.
Lemma safe_handler h m : safe (WsOrderRoundTrip.run_handler freq rest auth h m).
Proof using Hfreq.
  destruct h; cbn [WsOrderRoundTrip.run_handler]; unfold WsOrderRoundTrip.OnOrderResponse,
    WsOrderRoundTrip.OnAmendResponse, WsOrderRoundTrip.OnCancelResponse, WsOrderRoundTrip.ask_trip,
    WsOrderRoundTrip.IsConnected, WsOrderRoundTrip.set_ord_id, WsOrderRoundTrip.Track;
    repeat (lazymatch goal with
    | |- spares _ _ (WsOrderRoundTrip.GetOrder ≫= _) => apply safe_order_bind; intros i Hi
    | |- spares _ _ (on_store (OrderStore.with_order ?i (Order.OnAmendRequested ?n))) =>
        by apply (safe_with_step i (Order.AmendRequested n))
    | |- spares _ _ (on_store (OrderStore.with_order ?i (Order.OnCancelRequested ?n))) =>
        by apply (safe_with_step i (Order.CancelRequested n))
    | |- spares _ _ (on_ids (BuildWsAmendOrderMessage _ _ _ _)) => apply safe_ids, spare_amend
    | |- spares _ _ (on_ids (BuildWsCancelOrderMessage _ _)) => apply safe_ids, spare_cancel
    | |- _ => spare_step
    end).
Qed.

(** *** The strategy *)
Lemma safe_stamp f t : safe (NaiveQuoter.stamp f t).
Proof. unfold NaiveQuoter.stamp. spare. Qed.
#[local] Hint Extern 1 (spares _ _ (NaiveQuoter.ask_quoter _)) => apply safe_see : spare.
#[local] Hint Extern 1 (spares _ _ (NaiveQuoter.TraceOrderLocated _)) => apply safe_stamp : spare.
#[local] Hint Extern 1 (spares _ _ (NaiveQuoter.TraceRateLimitChecked _)) => apply safe_stamp : spare.
#[local] Hint Extern 1 (spares _ _ (NaiveQuoter.TracePriceFormatted _)) => apply safe_stamp : spare.
#[local] Hint Extern 1 (spares _ _ (NaiveQuoter.TraceMessageBuilt _)) => apply safe_stamp : spare.
Lemma safe_place_into x side px t : safe (NaiveQuoter.place_into freq x side px t).
Proof using Hfreq.
  unfold NaiveQuoter.place_into, NaiveQuoter.PlaceSide. spare. apply safe_ids, spare_order.
Qed.
#[local] Hint Resolve safe_place_into : spare.
Lemma safe_replace_side x side px t : safe (NaiveQuoter.ReplaceSide freq x side px t).
Proof using Hfreq.
  unfold NaiveQuoter.ReplaceSide. apply spares_bind; [spare|]. intros [id|]; [|spare].
  apply (spares_bind_post _ _ (has [])); [spare|by apply returns_see; intros a []|].
  intros st Hst. apply (spares_lift_bind _ _ in_array); [by apply find_defined|]. intros found Hfound.
  apply (spares_bind_post _ _ (λ r, match r with Some (i, _) => i < OrderStore.kCapacity | None => True end)).
  - destruct found as [i|]; [|spare]. destruct Hst as (os & Hrep & _).
    apply spares_bind; [by apply spares_lift, (At_defined st os)|]. spare.
  - intros s r s' _. destruct found as [i|]; [|by intros [= <- _]]. unfold mbind, M_bind, lift.
    destruct (OrderStore.At i st) as [y|]; [|done]. intros [= <- _]. by case_decide.
  - intros [[i y]|] Hi; [|spare].
    repeat (lazymatch goal with
    | |- spares _ _ (on_store (OrderStore.with_order ?i (Order.OnAmendRequested ?n))) =>
        by apply (safe_with_step i (Order.AmendRequested n))
    | |- spares _ _ (on_ids (BuildWsAmendOrderMessage _ _ _ _)) => apply safe_ids, spare_amend
    | |- _ => spare_step
    end).
Qed.
Lemma safe_batch_end : safe (OkxWsClient.EndBatch (on_trace_resolved freq)).
Proof using Hfreq. apply safe_end_batch. spare. Qed.
#[local] Hint Resolve safe_replace_side safe_begin_batch safe_batch_end : spare.
Lemma safe_on_timer : safe (NaiveQuoter.OnTimer freq).
Proof using Hfreq. unfold NaiveQuoter.OnTimer. spare. Qed.
Lemma safe_book_update b t : OrderBook.sized b → safe (NaiveQuoter.OnBookUpdate freq b t).
Proof using Hfreq.
  intros Hb. unfold NaiveQuoter.OnBookUpdate, NaiveQuoter.Requote.
  apply spares_bind; [by apply spares_lift, best_bid_defined|]. intros bid.
  apply spares_bind; [by apply spares_lift, best_ask_defined|]. spare.
Qed.

(** *** Handlers *)
Lemma safe_trigger : safe (Engine.Trigger rest auth).
Proof.
  unfold Engine.Trigger.
  apply (spares_bind_post _ _ (has [])); [spare|by apply returns_see; intros a []|]. intros st Hst.
  apply (spares_zoom _ _ (λ _, True) (λ _, False)); [done|by intros s x (? & ? & ?) _|done|].
  intros [kill w] _. unfold KillSwitch.Trigger, mbind, M_bind, get, put, lift, zoom. cbn [fst snd].
  destruct (KillSwitch.triggered_ kill); [done|].
  pose proof (clean_result (OrderStore.ForEach KillSwitch.collect st) []) as Hd.
  destruct (OrderStore.ForEach _ st []) as [[[]|x] to_cancel].
  - cbn [fst snd]. assert (∀ l, clean (λ _ : W, True) (KillSwitch.cancel_all rest auth l)) as Hall.
    { induction l as [|[inst ord] l IH]; cbn [KillSwitch.cancel_all]; spare. apply clean_cancel. }
    specialize (Hall to_cancel w Logic.I). by destruct (KillSwitch.cancel_all _ _ _ w) as [[] ?].
  - split; [done|]. intros ->. apply Hd; [|done]. apply clean_for_each; [done|].
    intros y. unfold KillSwitch.collect. case_decide; [apply spares_ret|by apply spares_modify].
Qed.
Lemma safe_notify l : safe (Engine.notify_removed l).
Proof. apply (spares_visit _ _ (λ _, True)); [by apply Forall_true|]. spare. Qed.
Lemma safe_reconcile p : safe (Engine.Reconcile clock p).
Proof.
  unfold Engine.Reconcile. apply spares_bind; [apply safe_store, clean_reconcile|]. apply safe_notify.
Qed.
Lemma safe_timeout : safe (Engine.OnTimeoutCheck rest auth clock).
Proof.
  unfold Engine.OnTimeoutCheck. apply spares_bind; [|intros _; spare]. unfold Engine.CheckAndResolve. apply spares_bind; [|apply safe_notify].
  apply (spares_zoom _ _ (λ st, has [] st.1) (λ _, False));
    [by intros s (_ & (? & _) & _)|by intros s x (? & (_ & ?) & ?) ?|done|].
  assert (∀ {A} (m : M W A), clean (λ _, True) m →
    clean (λ st : OrderStore.t * W, has [] st.1) (OrderTimeoutMonitor.on_world m)) as Hw.
  { intros A m. by apply spares_zoom. }
  unfold OrderTimeoutMonitor.CheckAndResolve. apply spares_bind; [apply Hw, clean_ask|]. intros now.
  apply (spares_bind_post _ _ (λ st, has [] st.1)); [spare|by intros s a s' Hs [= <- _]|]. intros st Hst.
  match goal with |- context [OrderStore.ForEach ?f ?s false] =>
    pose proof (clean_result (OrderStore.ForEach f s) false) as Hd;
    destruct (OrderStore.ForEach f s false) as [r any] end.
  apply spares_bind.
  { apply spares_lift, Hd. apply clean_for_each; [done|]. intros y. spare; by intros ? ?. }
  intros _. destruct any; [|spare]. apply spares_bind; [apply Hw, clean_pending|]. intros p.
  apply (spares_zoom _ _ (has []) (λ _, False)); [done|done|done|apply clean_reconcile].
Qed.
Lemma safe_may_quote : safe Engine.may_quote.
Proof. unfold Engine.may_quote. spare. Qed.
#[local] Hint Resolve safe_trigger safe_reconcile safe_may_quote safe_on_timer : spare.
Lemma safe_on_book b t : OrderBook.sized b → safe (Engine.on_book_update freq b t).
Proof using Hfreq. intros Hb. unfold Engine.on_book_update. spare. by apply safe_book_update. Qed.
Lemma safe_consistent b t : OrderBook.sized b → safe (Engine.on_consistent_book freq b t).
Proof using Hfreq. intros Hb. unfold Engine.on_consistent_book. spare. by apply safe_on_book. Qed.
Lemma safe_json_output out : json_output_ok out → safe (Engine.json_output freq out).
Proof using Hfreq. destruct out; cbn; [spare|apply safe_consistent]. Qed.
Lemma safe_market arrival decoded message :
  sv_wf message → safe (Engine.OnMarketData freq arrival decoded message).
Proof using Hfreq.
  intros Hwf. unfold Engine.OnMarketData.
  apply (spares_bind_post _ _ sourced); [spare|by apply returns_see; intros a (_ & _ & _ & _ & ?)|].
  intros src Hsrc.
  assert (∀ src', sourced src' → safe (change (set_market_data src'))) as Hset.
  { intros src' Hs'. apply safe_change. intros a (? & ? & ? & ? & _).
    repeat (split; [assumption|]). exact Hs'. }
  destruct src as [s|code s].
  - pose proof (json_message arrival decoded 0 message s Hsrc) as Hm.
    destruct (JsonBookSource.OnMessage _ _ _ _ _) as [r s']. destruct Hm as [Hs' Hr].
    apply spares_bind; [by apply Hset|]. intros _.
    apply (spares_lift_bind _ _ (Forall json_output_ok)); [done|]. intros outs Houts.
    apply (spares_visit _ _ json_output_ok); [done|]. apply safe_json_output.
  - pose proof (sbe_message arrival decoded 0 message s Hwf Hsrc) as Hm.
    destruct (SbeBboSource.OnMessage _ _ _ _ _) as [r s']. destruct Hm as [Hs' Hr].
    apply spares_bind; [by apply Hset|]. intros _.
    apply (spares_lift_bind _ _ (λ r, match r with Some (b, _) => OrderBook.sized b | None => True end));
      [by destruct r as [[[]|]|]|]. intros [[b t]|] Hb; [by apply safe_consistent|spare].
Qed.
Lemma safe_market_connected : safe (Engine.OnMarketConnected freq).
Proof.
  unfold Engine.OnMarketConnected. apply spares_bind; [spare|]. intros [s|code s]; [|spare].
  apply spares_bind; [cbn; spare|]. spare.
Qed.
Lemma safe_summary : safe Engine.LogSummary.
Proof.
  unfold Engine.LogSummary.
  apply (spares_bind_post _ _ TickToTradeStats.tallied); [spare|by apply returns_see; intros a (_ & _ & ? & _)|].
  intros st Hst. apply spares_bind; [by apply spares_lift, defined_Ok, TickToTradeStats.LogSummary_Ok|]. spare.
Qed.
Lemma risk_defined limits request store px : defined (CheckPreTradeRisk limits request store px).
Proof.
  unfold CheckPreTradeRisk. apply defined_bind; [apply defined_exn, ParseDouble_exn|]. intros sz.
  apply defined_bind; [apply defined_exn, ParseDouble_exn|]. intros price. definite.
Qed.
Lemma safe_login m : safe (Engine.HandleLoginEvent freq rest auth clock m).
Proof using Hfreq.
  unfold Engine.HandleLoginEvent, WsOrderRoundTrip.ask_trip. spare.
  - apply safe_world, clean_pending.
  - apply spares_lift, risk_defined.
  - apply safe_start.
Qed.
Lemma safe_order_event e : safe (Engine.HandleOrderEvent rest auth e).
Proof.
  unfold Engine.HandleOrderEvent, Engine.apply_fill, NaiveQuoter.OnFill, NaiveQuoter.OnCancel. apply spares_bind; [|intros _; apply safe_apply_event]. spare.
Qed.
Lemma safe_private m : safe (Engine.OnPrivateWsMessage freq rest auth clock m).
Proof using Hfreq.
  unfold Engine.OnPrivateWsMessage. destruct (opt_eqb _ _); [apply safe_login|].
  apply spares_bind.
  { unfold WsResponseDemux.Dispatch. spare. apply safe_handler. }
  intros [|]; [spare|]. cbv zeta. destruct (opt_eqb _ _); [|destruct (opt_eqb _ _); [|spare]].
  - unfold Engine.HandleOrdersChannelMessage, order_events.ForEachOrderEvent.
    destruct (negb _); [spare|]. apply spares_each. intros x.
    apply spares_bind; [apply spares_lift, defined_exn, order_event_exn|]. apply safe_order_event.
  - unfold Engine.HandleAccountChannelMessage. apply spares_bind.
    { eapply safe_part; [..|apply clean_account]; [by intros a (_ & _ & _ & ? & _)|resound]. }
    intros _. apply (spares_bind_post _ _ balanced); [spare|by apply returns_see; intros a (_ & _ & _ & ? & _)|].
    intros st Hst. apply clean_balances; [done|spare].
Qed.
#[local] Hint Resolve safe_summary : spare.
Lemma safe_quoter_timer : safe (Engine.OnQuoterTimer freq).
Proof using Hfreq. unfold Engine.OnQuoterTimer. spare. Qed.
Lemma safe_stats_timer : safe Engine.OnStatsTimer.
Proof. unfold Engine.OnStatsTimer. spare. Qed.
Lemma safe_shutdown : safe (Engine.OnShutdownSignal rest auth).
Proof. unfold Engine.OnShutdownSignal. spare. Qed.
End engine.

(** ** Runs *)
Section runs.
Context {W : Type} `{!World W} `{!ToChars} (freq : Z) (Hfreq : (0 < freq)%Z).
Context (rest : RestClient) (auth : OkxAuth) (clock : list Z → Z).
Notation S := (OkxWsClient.St App W).

(** What can happen while the write [o] is under way: what is received are
    bytes, a write completes when all its bytes have been sent, a market
    message is a view into memory that is there.  No write is under way after
    a reconnection has been scheduled, which destroys the stream: a completion
    that was already queued then and reports success is left out here, though
    nothing in the code rules it out (see [stale_completion_wraps]). *)
Definition admissible (o : option nat) (e : Engine.event) : bool :=
  match e with
  | Engine.ReadDone (Some chunk) => bool_decide (Forall (λ z, 0 ≤ z < 256)%Z chunk)
  | Engine.WriteDone (Some n) => bool_decide (o = Some n)
  | Engine.MarketMessage _ _ message => bool_decide (sv_size message ≤ length (sv_mem message))
  | _ => true
  end.
(** The write that is under way after an event. *)
Definition under_way (o : option nat) (e : Engine.event) (s s' : S) : option nat :=
  foldl await (match e with Engine.WriteDone _ => None | _ => o end)
    (drop (length (OkxWsClient.effects s)) (OkxWsClient.effects s')).
Fixpoint feasible (es : list Engine.event) (o : option nat) (s : S) : bool :=
  if Engine.stopped (OkxWsClient.app s) then true
  else match es with
       | [] => true
       | e :: es' => admissible o e &&
           match Engine.handle freq rest auth clock e s with
           | (Ok _, s') => feasible es' (under_way o e s s') s'
           | (Stop _, _) => true
           end
       end.

(** Everything is sound while the write [o] is under way. *)
Definition intact (o : option nat) (s : S) : Prop := sound sound_app o (length (OkxWsClient.effects s)) s.
Lemma intact_sound o k s : sound sound_app o k s → intact (foldl await o (drop k (OkxWsClient.effects s))) s.
Proof.
  intros (Hc & Ha & Hk & Hn). split; [done|]. split; [done|]. split; [done|]. intros n.
  rewrite drop_all. apply Hn.
Qed.
Lemma intact_idle o s : intact o s → intact None s.
Proof.
  intros (Hc & Ha & Hk & Hn). split; [done|]. split; [done|]. split; [done|]. intros n.
  by rewrite drop_all.
Qed.

Lemma safe_handle o e s :
  intact o s → admissible o e = true →
  match Engine.handle freq rest auth clock e s with
  | (Ok _, s') => intact (under_way o e s s') s'
  | (Stop x, s') => (∃ o', intact o' s') ∧ (x = UB → bad exhausted s')
  end.
Proof using Hfreq.
  intros Hs He.
  set (o1 := match e with Engine.WriteDone _ => None | _ => o end).
  assert (intact o1 s) as Hs1 by (destruct e; try done; by eapply intact_idle).
  assert (match Engine.handle freq rest auth clock e s with
    | (Ok _, s') => sound sound_app o1 (length (OkxWsClient.effects s)) s'
    | (Stop x, s') => sound sound_app o1 (length (OkxWsClient.effects s)) s' ∧
        (x = UB → bad exhausted s') end) as Hh.
  { assert (∀ o k tr, spares (sound sound_app o k) (bad exhausted) (on_trace_resolved (W:=W) freq tr)) as Ht
      by (intros; by apply safe_trace).
    destruct e as [fuel|chunk|[n|]| | |a d m| | | |]; cbn [Engine.handle].
    - by apply safe_connect.
    - apply safe_on_read; [by apply safe_private|by apply Ht| |done].
      destruct chunk; [|done]. by apply bool_decide_eq_true in He.
    - apply (safe_on_write _ _ _ _ o (length (OkxWsClient.effects s))); [by apply Ht|done|].
      rewrite drop_all. by apply bool_decide_eq_true in He.
    - by apply safe_reconnect.
    - by apply safe_heartbeat.
    - by apply safe_market_connected.
    - apply safe_market; [done| |done]. by apply bool_decide_eq_true in He.
    - by apply safe_quoter_timer.
    - by apply safe_stats_timer.
    - by apply safe_timeout.
    - by apply safe_shutdown. }
  destruct (Engine.handle freq rest auth clock e s) as [[[]|x] s'].
  - by apply intact_sound.
  - destruct Hh as [Hh Hx]. split; [|done]. eexists. by apply intact_sound.
Qed.
Lemma safe_run es o s :
  intact o s → feasible es o s = true →
  let '(r, s') := Engine.run freq rest auth clock es s in
  (∃ o', intact o' s') ∧ (r = Stop UB → bad exhausted s').
Proof using Hfreq.
  revert o s. induction es as [|e es IH]; intros o s Hs Hf; cbn [Engine.run feasible] in *;
    unfold mbind, M_bind, see, get in *; cbn [mret M_ret] in *; unfold mbind, M_bind in *; cbn [mret M_ret] in *;
    destruct (Engine.stopped _); [by split; [exists o|]..|].
  apply andb_true_iff in Hf as [He Hf]. pose proof (safe_handle o e s Hs He) as Hh.
  destruct (Engine.handle freq rest auth clock e s) as [[[]|x] s'].
  - by eapply IH.
  - destruct Hh as [Ho Hx]. split; [done|]. intros [= ->]. by apply Hx.
Qed.
End runs.

(** ** The property *)

(** C10. Memory safety of the whole engine: from its construction on, through
    any sequence of events (reconnections, whatever bytes arrive in whatever
    pieces, market messages, timers, signals, failed writes, and completed
    writes with the reservation below), no access leaves an array: not in the
    connection's ring and reassembly buffer, the slots of the order store, the
    rings of the rate limiter, the histograms and their percentiles, the
    balances, or the levels of the book; and all of them stay well formed,
    also when a handler throws.  The reservation: a successful completion is
    that of the write under way, for all its bytes, once, and it is not
    delivered after a reconnection has been scheduled.  The code does not rule
    out such a late completion, and it would make the size of the ring wrap
    around ([stale_completion_wraps]).  The undefined behaviour that is left
    is the overflow of one of two counters: of the ids, at 2^63 - 1, and of
    the consecutive reconnections, an int, at 2^31 - 1.  The
    nesting depth that the JSON scanner counts in an int is not bounded here;
    it stays below 2^31 in texts shorter than 2 GiB (Json.v). *)
Theorem engine_memory_safe {W} `{!World W} `{!ToChars} freq rest auth clock es
    mode code tick request last app host port path login kind (w : W) :
  (0 < freq)%Z →
  Engine.make mode code tick request TickToTradeStats.empty last = Ok app →
  let s := OkxWsClient.MkSt (OkxWsClient.make host port path login kind) app w [] in
  feasible freq rest auth clock es None s = true →
  let '(r, s') := Engine.run freq rest auth clock es s in
  sound_client (OkxWsClient.client s') ∧ sound_app (OkxWsClient.app s') ∧
  (r = Stop UB → (2 ^ 63 - 1 ≤ last_id (OkxWsClient.app s'))%Z ∨
                 OkxWsClient.reconnect_attempt_ (OkxWsClient.client s') = (2 ^ 31 - 1)%Z).
Proof.
  intros Hfreq Hmake s Hf.
  assert (intact None s) as Hs.
  { split; [apply sound_make|]. split; [|by split].
    unfold Engine.make, NaiveQuoter.make in Hmake.
    destruct (json.ParseDouble (sv_of tick)); [|done]. injection Hmake as <-. cbn [OkxWsClient.app].
    split; [exists []; split; [split; [done|]; cbn; lia|done]|].
    split; [split_and!; eexists; apply SlidingWindowLimiter.held_make|].
    split; [apply TickToTradeStats.stats_tallied_empty|].
    split; [split; [done|cbn; lia]|]. apply OrderBook.sized_wf. destruct mode; apply OrderBook.book_wf_empty. }
  pose proof (safe_run freq Hfreq rest auth clock es None s Hs Hf) as Hrun.
  destruct (Engine.run freq rest auth clock es s) as [r s']. destruct Hrun as [[o (Hc & Ha & _)] Hr]. done.
Qed.

(** The engine connects, logs in, quotes on the first book, and is shut down. *)
Definition sample_upgrade : list Z :=
  str "HTTP/1.1 101 OK" ++ kCrLf ++ str "Sec-WebSocket-Accept: " ++ replicate 16 7%Z ++
  kWebSocketGuid ++ kHeaderTerminator.
Definition sample_day : list Engine.event :=
  [Engine.Connected 3; Engine.ReadDone (Some (text_frame sample_login));
   Engine.MarketMessage 1 2 (sv_of (sample_book "3001" "3000")); Engine.WriteDone (Some 116);
   Engine.WriteDone (Some 590); Engine.QuoterTimer; Engine.HeartbeatDue; Engine.StatsTimer;
   Engine.TimeoutCheck; Engine.ShutdownSignal].
Definition sample_start (app : App) : OkxWsClient.St App unit :=
  OkxWsClient.MkSt (OkxWsClient.make kOkxWsHost kOkxWsPort kPrivateWsPath (Some sample_auth) kJson)
    app tt [].
Lemma engine_memory_safe_witness :
  ∃ app, sample_made = Ok app ∧
    let s' := (@Engine.run _ (sample_world 5000000000 sample_upgrade) sample_chars 1000000000 sample_rest
      sample_auth (λ _, 0%Z) sample_day (sample_start app)).2 in
    Engine.stopped (OkxWsClient.app s') = true ∧
    sound_client (OkxWsClient.client s') ∧ sound_app (OkxWsClient.app s').
Proof.
  destruct sample_made as [app|x] eqn:Em; [|vm_compute in Em; discriminate Em].
  exists app. split; [reflexivity|].
  pose proof (@engine_memory_safe unit (sample_world 5000000000 sample_upgrade) sample_chars 1000000000
    sample_rest sample_auth (λ _, 0%Z) sample_day kJsonBook 42 (str "0.01") sample_request 0 app
    kOkxWsHost kOkxWsPort kPrivateWsPath (Some sample_auth) kJson tt ltac:(reflexivity) Em) as H.
  cbv zeta in H. fold (sample_start app) in H. cbv zeta.
  assert (Engine.stopped (OkxWsClient.app (@Engine.run _ (sample_world 5000000000 sample_upgrade)
    sample_chars 1000000000 sample_rest sample_auth (λ _, 0%Z) sample_day (sample_start app)).2) = true) as Hstop.
  { clear H. vm_compute in Em. injection Em as <-. vm_compute. reflexivity. }
  split; [exact Hstop|]. clear Hstop.
  match type of H with ?P → _ => assert P as Hf by
    (clear H; vm_compute in Em; injection Em as <-; vm_compute; reflexivity) end.
  specialize (H Hf). destruct (Engine.run _ _ _ _ _ _) as [r s']. exact (conj (proj1 H) (proj1 (proj2 H))).
Defined.
