(* ===== verification/Quotes.v ===== *)
(** * What the strategy sends

    [NaiveQuoter::OnBookUpdate] (okx/strategy/naive_quoter.cpp), message by
    message: which orders and amendments it hands to the client, at which
    prices, what it remembers of them and what becomes of the store and the
    rate limiter; and that a side whose order the exchange has not acknowledged
    yet gets a second one. *)

From S2P Require Import Prelude Float64 Json Rules Okx PriceText Perf OrderBook OrderLifecycle OrderStore.
From S2P Require Import World OrderEntry RingBuffer WebSocketFrame WsClient RateLimiter Quoter Engine EngineInvariants QuoterSlots.
Import NaiveQuoter.

(** The text of an order. *)
Definition order_text (id : list Z) (code : Z) (side px sz : list Z) : list Z :=
  qstr "{'id':'" ++ id ++ qstr "','op':'order','args':[" ++
  (qstr "{'instIdCode':" ++ to_string code ++ qstr ",'tdMode':'" ++ kCash ++ qstr "','side':'" ++ side ++
   qstr "','ordType':'" ++ kLimit ++ qstr "','px':'" ++ px ++ qstr "','sz':'" ++ sz ++
   qstr "','clOrdId':'" ++ id ++ qstr "'}") ++ qstr "]}".

Section quotes.
Context `{!ToChars}.

(** *** One side of a cycle

    What a cycle of the strategy depends on and changes: the messages sent
    and the quoter, the store of orders and the rate limiter. *)
Record Books := MkBooks {
  said : list Request; quoter : QuoterState; stored : OrderStore.t; limits : EndpointRateLimiter.t }.
Definition books (a : App) : Books := MkBooks (requests a) (quoter_ a) (order_store_ a) (rate_limiter_ a).

Definition place_quote (q : QuoterState) (side : list Z) (px : double) (id : list Z) : Request :=
  PrivateSend (order_text id (inst_id_code_ q) side (FormatPrice px q) (sz_ q)).
Definition amend_quote (q : QuoterState) (px : double) (id ord_id : list Z) : Request :=
  PrivateSend (amend_text id (inst_id_code_ q) ord_id (FormatPrice px q) (sz_ q)).
(** The side's order: the one in the store under the id of the slot, once the
    exchange has given it an id. *)
Definition side_order (x : Slot) (q : QuoterState) (st : OrderStore.t) : option Order.t :=
  id ← slot_id x q;
  match OrderStore.find_order id st with
  | Ok (Some o) => if decide (Order.ord_id_ o = []) then None else Some o
  | _ => None
  end.
(** The answer of the rate limiter. *)
Definition granted (op : list Z) (l : EndpointRateLimiter.t) (b : bool) (l' : EndpointRateLimiter.t) : Prop :=
  ∃ now, EndpointRateLimiter.TryAcquire now op l = (Ok b, l').
(** What is sent for the side, what its slot holds afterwards, and the store
    and the limiter.  A side without an order gets a new one, if the limiter
    grants it; the order of a side is amended, unless an amendment is in
    flight or the limiter refuses it. *)
Inductive acts (x : Slot) (side : list Z) (px : double) (q : QuoterState) (st : OrderStore.t) (l : EndpointRateLimiter.t)
    : list Request → option (list Z) → OrderStore.t → EndpointRateLimiter.t → Prop :=
  | places id now st' l' :
      side_order x q st = None → granted kOrderOp l true l' →
      OrderStore.Add now id (inst_id_ q) side (FormatPrice px q) (sz_ q) st = (Ok tt, st') →
      acts x side px q st l [place_quote q side px id] (Some id) st' l'
  | place_refused l' :
      side_order x q st = None → granted kOrderOp l false l' → acts x side px q st l [] None st l'
  | amends id o req now st' l' :
      slot_id x q = Some id → side_order x q st = Some o → Order.state_ o ≠ kPendingAmend →
      granted kAmendOrderOp l true l' →
      OrderStore.step (OrderStore.OpUpdate id (Order.AmendRequested now)) st = (Ok OrderStore.Done, st') →
      acts x side px q st l [amend_quote q px req (Order.ord_id_ o)] (Some id) st' l'
  | amend_refused id o l' :
      slot_id x q = Some id → side_order x q st = Some o → Order.state_ o ≠ kPendingAmend →
      granted kAmendOrderOp l false l' → acts x side px q st l [] (Some id) st l'
  | amend_in_flight id o :
      slot_id x q = Some id → side_order x q st = Some o → Order.state_ o = kPendingAmend →
      acts x side px q st l [] (Some id) st l.

Context {W : Type} `{!World W} (freq : Z).
Notation S := (OkxWsClient.St App W).

Definition shows (b : Books) (s : S) : Prop := books (OkxWsClient.app s) = b.
Notation calm m := (∀ b, upholds (shows b) any m).

Lemma calm_client {A} (m : M OkxWsClient.t A) : calm (OkxWsClient.on_client (App:=App) m).
Proof. intros b. by apply upholds_zoom. Qed.
Lemma calm_read {A} (f : OkxWsClient.t → A) : calm (OkxWsClient.read f).
Proof. by intros b s Hs. Qed.
Lemma calm_emit e : calm (OkxWsClient.emit e).
Proof. by intros b s Hs. Qed.
Lemma calm_world {A} (m : M W A) : calm (OkxWsClient.on_world (App:=App) m).
Proof. intros b. by apply upholds_zoom. Qed.
Lemma calm_ids {A} (m : M (Z * W) A) : calm (on_ids m).
Proof. intros b. by apply upholds_zoom. Qed.
Lemma calm_trace tr : calm (on_trace_resolved freq tr).
Proof.
  intros b. apply upholds_zoom. intros s Hs. unfold zoom, runS. by destruct (TickToTradeStats.Record_ _ _ _).
Qed.
#[local] Hint Resolve calm_client calm_read calm_emit calm_world calm_ids calm_trace : parts.
Lemma calm_resolve n l : calm (OkxWsClient.resolve_traces (on_trace_resolved freq) n l).
Proof. intros b. induction l; cbn [OkxWsClient.resolve_traces]; uphold. Qed.
#[local] Hint Resolve calm_resolve : parts.
Lemma calm_start_write : calm (OkxWsClient.StartWrite (on_trace_resolved freq)).
Proof. intros b. unfold OkxWsClient.StartWrite. uphold. Qed.
#[local] Hint Resolve calm_start_write : parts.
Lemma calm_send_raw p t : calm (OkxWsClient.Send (on_trace_resolved freq) p t).
Proof. intros b. unfold OkxWsClient.Send, OkxWsClient.WriteRaw, OkxWsClient.with_mask. uphold. Qed.
Lemma calm_batch : calm (OkxWsClient.BeginBatch (App:=App)).
Proof. intros b. apply calm_client. Qed.
Lemma calm_end_batch : calm (OkxWsClient.EndBatch (on_trace_resolved freq)).
Proof. intros b. unfold OkxWsClient.EndBatch. uphold. Qed.
Lemma calm_stamp f t : calm (stamp f t).
Proof. intros b. unfold stamp. uphold. Qed.

(** *** Triples over the four *)
Lemma triple_calm {A B} b (P : A → Prop) Q E (m : M S A) (k : A → M S B) :
  calm m → yields m P → (∀ s, shows b s → E s) → (∀ a, P a → triple (shows b) Q E (k a)) →
  triple (shows b) Q E (m ≫= k).
Proof.
  intros Hm Hp HE Hk s Hs. specialize (Hm _ s Hs). unfold mbind, M_bind.
  destruct (m s) as [[a|x] s1] eqn:Em; [by apply (Hk a (Hp _ _ _ Em))|]. apply HE, Hm.
Qed.
Lemma yields_any {A} (m : M S A) : yields m (λ _, True).
Proof. done. Qed.
Lemma triple_quoter {A B} b Q E (f : QuoterState → A) (k : A → M S B) :
  triple (shows b) Q E (k (f (quoter b))) → triple (shows b) Q E (ask_quoter f ≫= k).
Proof.
  intros Hk s Hs. unfold ask_quoter, see, mbind, M_bind, get. cbn [mret M_ret].
  replace (quoter_ (OkxWsClient.app s)) with (quoter b) by (by rewrite <-Hs). by apply Hk.
Qed.
Lemma triple_store {B} b Q E (k : OrderStore.t → M S B) :
  triple (shows b) Q E (k (stored b)) → triple (shows b) Q E (see order_store_ ≫= k).
Proof.
  intros Hk s Hs. unfold see, mbind, M_bind, get. cbn [mret M_ret].
  replace (order_store_ (OkxWsClient.app s)) with (stored b) by (by rewrite <-Hs). by apply Hk.
Qed.
Lemma triple_lift {A B} (P : S → Prop) Q (E : S → Prop) (r : result A) (k : A → M S B) :
  (∀ s, P s → E s) → (∀ a, r = Ok a → triple P Q E (k a)) → triple P Q E (lift r ≫= k).
Proof. intros HE Hk s Hs. unfold mbind, M_bind, lift. destruct r as [a|x]; [by apply Hk|by apply HE]. Qed.
Lemma triple_ret {A} (P : S → Prop) (Q : A → S → Prop) E a : (∀ s, P s → Q a s) → triple P Q E (mret a).
Proof. intros Hp s Hs. by apply Hp. Qed.
Lemma triple_weaken {A} (P : S → Prop) (Q Q' : A → S → Prop) (E E' : S → Prop) m :
  triple P Q E m → (∀ a s, Q a s → Q' a s) → (∀ s, E s → E' s) → triple P Q' E' m.
Proof. intros Hm HQ HE s Hs. specialize (Hm s Hs). destruct (m s) as [[] ?]; eauto. Qed.

(** Only [rs] has been sent so far. *)
Definition sent (rs : list Request) (s : S) : Prop := requests (OkxWsClient.app s) = rs.
Lemma shows_sent rs q st l s : shows (MkBooks rs q st l) s → sent rs s.
Proof. intros [= Hr _ _ _]. exact Hr. Qed.
#[local] Hint Resolve shows_sent : core.

Lemma triple_send rs q st l (E : S → Prop) m tr :
  (∀ s, sent (rs ++ [PrivateSend m]) s → E s) →
  triple (shows (MkBooks rs q st l)) (λ _, shows (MkBooks (rs ++ [PrivateSend m]) q st l)) E (Send freq m tr).
Proof.
  intros HE s Hs. apply (triple_upholds _ E _ (calm_send_raw m tr _)); [eauto|].
  injection Hs as <- <- <- <-. reflexivity.
Qed.
Lemma triple_store_op {A} b (m : M OrderStore.t A) :
  triple (shows b) (λ a s, ∃ st, m (stored b) = (Ok a, st) ∧ shows (MkBooks (said b) (quoter b) st (limits b)) s)
    (sent (said b)) (on_store m).
Proof.
  intros s <-. unfold on_store, on_app, zoom. cbn [stored books said quoter limits].
  destruct (m _) as [[a|x] st]; [|done]. by exists st.
Qed.
Lemma triple_acquire b op :
  triple (shows b) (λ r s, ∃ l, granted op (limits b) r l ∧ shows (MkBooks (said b) (quoter b) (stored b) l) s)
    (sent (said b)) (TryAcquire op).
Proof.
  unfold TryAcquire. eapply triple_calm; [apply calm_world|apply yields_any|by intros s <-|]. intros now _ s <-.
  unfold on_app, zoom. cbn [stored books said quoter limits].
  destruct (EndpointRateLimiter.TryAcquire now op _) as [[r|x] l] eqn:El; [|done]. exists l. split; [by exists now|done].
Qed.
Lemma yields_order r :
  rq_ord_type r = kLimit →
  yields (BuildWsOrderMessage (W:=W) r)
    (λ x, wo_message x = order_text (wo_id x) (rq_inst_id_code r) (rq_side r) (rq_px r) (rq_sz r)).
Proof.
  intros Ht st x st'. unfold BuildWsOrderMessage, mbind, M_bind. destruct (GenerateId st) as [[id|] st1]; [|done].
  unfold lift, FormatOrderArg. rewrite Ht. case_decide as Hk; [done|]. intros [= <- _]. cbn [wo_id wo_message].
  reflexivity.
Qed.
Lemma yields_amended c o p z :
  yields (BuildWsAmendOrderMessage (W:=W) c o p z) (λ x, ∃ id, wo_message x = amend_text id c o p z).
Proof. apply yields_last. intros id. by exists id. Qed.

(** A step that changes none of the four. *)
Ltac calmly :=
  eapply triple_calm; [intros; first [apply calm_stamp|apply calm_world|apply calm_ids]
                      |first [apply yields_zoom; first [by apply yields_order|apply yields_amended]|apply yields_any]
                      |by eauto|].

(** One side has been handled; it was interrupted by an exception. *)
Definition handled x side px rs q st l (s : S) : Prop :=
  ∃ ms id st' l', acts x side px q st l ms id st' l' ∧ shows (MkBooks (rs ++ ms) (set_slot x id q) st' l') s.
Definition interrupted x side px rs q st l (s : S) : Prop :=
  sent rs s ∨ ∃ ms id st' l', acts x side px q st l ms id st' l' ∧ sent (rs ++ ms) s.

Lemma set_slot_same x (q : QuoterState) : set_slot x (slot_id x q) q = q.
Proof. destruct q. by destruct x. Qed.
Lemma set_slot_twice x id id' (q : QuoterState) : set_slot x id (set_slot x id' q) = set_slot x id q.
Proof. destruct q. by destruct x. Qed.
Lemma handled_held x side px rs q st l l' id s :
  slot_id x q = Some id → acts x side px q st l [] (Some id) st l' → shows (MkBooks rs q st l') s →
  handled x side px rs q st l s.
Proof.
  intros Hid Ha Hs. exists [], (Some id), st, l'. split; [done|]. by rewrite app_nil_r, <-Hid, set_slot_same.
Qed.
Lemma interrupted_start x side px rs q st l s : sent rs s → interrupted x side px rs q st l s.
Proof. by left. Qed.
#[local] Hint Resolve interrupted_start : core.

Lemma triple_update rs q st l (Q : unit → S → Prop) E f :
  (∀ s, shows (MkBooks rs (f q) st l) s → Q tt s) → triple (shows (MkBooks rs q st l)) Q E (update f).
Proof. intros HQ s Hs. apply HQ. by injection Hs as <- <- <- <-. Qed.
Lemma triple_add rs q st l id inst side px sz :
  triple (shows (MkBooks rs q st l))
    (λ _ s, ∃ now st', OrderStore.Add now id inst side px sz st = (Ok tt, st') ∧ shows (MkBooks rs q st' l) s)
    (sent rs) (Quoter.Add id inst side px sz).
Proof.
  unfold Quoter.Add. calmly. intros now _. eapply triple_weaken; [apply triple_store_op| |done].
  intros [] s (st' & Ha & Hs). by exists now, st'.
Qed.

(** A side without an order. *)
Lemma place_into_acts x side px tr rs q st l id :
  side_order x q st = None →
  triple (shows (MkBooks rs (set_slot x id q) st l)) (λ _, handled x side px rs q st l) (interrupted x side px rs q st l)
    (place_into freq x side px tr).
Proof.
  intros Hno. unfold place_into, PlaceSide.
  apply (triple_bind _ (λ r s, ∃ ms st' l', acts x side px q st l ms r st' l' ∧
    shows (MkBooks (rs ++ ms) (set_slot x id q) st' l') s)).
  2:{ intros r s (ms & st' & l' & Ha & Hs). revert s Hs. apply triple_update. intros s Hs.
      rewrite set_slot_twice in Hs. by exists ms, r, st', l'. }
  calmly. intros t1 _. eapply triple_bind; [eapply triple_weaken; [apply triple_acquire|intros ? s Hs; exact Hs|by eauto]|].
  intros [|] s (l' & Hl & Hs); cbn [negb]; revert s Hs.
  2:{ apply triple_ret. intros s Hs. exists [], st, l'. rewrite app_nil_r. split; [by constructor|done]. }
  cbn [said quoter stored limits] in *.
  calmly. intros t2 _. apply triple_quoter. cbn [quoter]. calmly. intros t3 _. cbv zeta. calmly. intros o Ho.
  eapply triple_bind; [eapply triple_weaken; [apply triple_add|intros ? s Hs; exact Hs|by eauto]|].
  intros [] s (now & st' & Hadd & Hs). revert s Hs.
  calmly. intros t4 _. rewrite Ho.
  assert (acts x side px q st l [place_quote q side px (wo_id o)] (Some (wo_id o)) st' l') as Hacts.
  { by destruct x; apply (places _ _ _ _ _ _ _ now). }
  replace (order_text _ _ _ _ _) with
    (order_text (wo_id o) (inst_id_code_ q) side (FormatPrice px q) (sz_ q)) by (by destruct x).
  eapply triple_bind; [apply triple_send|].
  - intros s Hs. right. by exists [place_quote q side px (wo_id o)], (Some (wo_id o)), st', l'.
  - intros []. apply triple_ret. intros s Hs. by exists [place_quote q side px (wo_id o)], st', l'.
Qed.

(** The order that [ReplaceSide] finds. *)
Lemma located_order id (st : OrderStore.t) found o :
  OrderStore.FindByClOrdId id st = Ok (Some found) → OrderStore.At found st = Ok o →
  OrderStore.find_order id st = Ok (Some o).
Proof. intros Hf Ha. unfold OrderStore.find_order. rewrite Hf. cbn. by rewrite Ha. Qed.
Lemma update_located id (st st' : OrderStore.t) found now :
  OrderStore.FindByClOrdId id st = Ok (Some found) →
  OrderStore.with_order found (Order.OnAmendRequested now) st = (Ok tt, st') →
  OrderStore.step (OrderStore.OpUpdate id (Order.AmendRequested now)) st = (Ok OrderStore.Done, st').
Proof.
  intros Hf Hw. cbn [OrderStore.step]. unfold mbind, M_bind, get, lift. rewrite Hf.
  cbn [Order.step]. by rewrite Hw.
Qed.
(** A side with an order. *)
Lemma amend_acts x side px rs q st l id i o tr :
  slot_id x q = Some id → OrderStore.FindByClOrdId id st = Ok (Some i) → OrderStore.At i st = Ok o →
  Order.ord_id_ o ≠ [] →
  triple (shows (MkBooks rs q st l)) (λ _, handled x side px rs q st l) (interrupted x side px rs q st l)
   (trace ← TraceOrderLocated tr;
    if decide (Order.state_ o = kPendingAmend) then mret tt
    else
      acquired ← TryAcquire kAmendOrderOp;
      if negb acquired then mret tt
      else
        trace ← TraceRateLimitChecked trace;
        q ← ask_quoter Datatypes.id;
        let formatted_px := FormatPrice px q in
        trace ← TracePriceFormatted trace;
        now ← Quoter.on_world (ask steady_clock_now);
        _ ← on_store (OrderStore.with_order i (Order.OnAmendRequested now));
        amend ← on_ids (BuildWsAmendOrderMessage (inst_id_code_ q) (Order.ord_id_ o) formatted_px (sz_ q));
        trace ← TraceMessageBuilt trace;
        Send freq (wo_message amend) trace).
Proof.
  intros Hid Hf Hat Hne.
  assert (side_order x q st = Some o) as Hside.
  { unfold side_order. rewrite Hid. cbn. rewrite (located_order _ _ _ _ Hf Hat). by rewrite decide_False. }
  calmly. intros t1 _. case_decide as Hst.
  { apply triple_ret. intros s Hs. eapply handled_held; [done| |done]. by apply amend_in_flight with o. }
  eapply triple_bind; [eapply triple_weaken; [apply triple_acquire|intros ? s Hs; exact Hs|by eauto]|].
  intros [|] s (l' & Hl & Hs); cbn [negb]; cbn [said quoter stored limits] in *; revert s Hs.
  2:{ apply triple_ret. intros s Hs. eapply handled_held; [done| |done]. by apply amend_refused with o. }
  calmly. intros t2 _. apply triple_quoter. cbn [quoter]. calmly. intros t3 _. cbv zeta. calmly. intros now _.
  eapply triple_bind; [eapply triple_weaken; [apply triple_store_op|intros ? s Hs; exact Hs|by eauto]|].
  intros [] s (st' & Hup & Hs). cbn [said quoter stored limits] in *. revert s Hs.
  calmly. intros o' [req Ho]. calmly. intros t4 _. rewrite Ho.
  set (r := amend_quote q px req (Order.ord_id_ o)).
  assert (acts x side px q st l [r] (Some id) st' l') as Hacts.
  { apply (amends _ _ _ _ _ _ _ _ _ now); try done. by eapply update_located. }
  eapply triple_weaken; [apply (triple_send _ _ _ _ (sent (rs ++ [r]))); done| |].
  - intros [] s Hs. exists [r], (Some id), st', l'. split; [done|]. rewrite <-Hid, set_slot_same. exact Hs.
  - intros s Hs. right. by exists [r], (Some id), st', l'.
Qed.
Lemma replace_side_acts x side px tr rs q st l :
  triple (shows (MkBooks rs q st l)) (λ _, handled x side px rs q st l) (interrupted x side px rs q st l)
    (ReplaceSide freq x side px tr).
Proof.
  unfold ReplaceSide. apply triple_quoter. cbn [quoter]. destruct (slot_id x q) as [id|] eqn:Hid.
  2:{ rewrite <-(set_slot_same x q) at 1. apply place_into_acts. unfold side_order. by rewrite Hid. }
  apply triple_store. cbn [stored]. apply triple_lift; [by eauto|]. intros found Hf.
  assert (side_order x q st = None → triple (shows (MkBooks rs q st l)) (λ _, handled x side px rs q st l)
    (interrupted x side px rs q st l) (_ ← update (set_slot x None); place_into freq x side px tr)) as Hplace.
  { intros Hno. apply (triple_bind _ (λ _, shows (MkBooks rs (set_slot x None q) st l))); [by apply triple_update|].
    intros _. by apply place_into_acts. }
  destruct found as [i|].
  2:{ apply Hplace. unfold side_order, OrderStore.find_order. by rewrite Hid; cbn; rewrite Hf. }
  intros s Hs. rewrite <-bind_assoc. revert s Hs. apply triple_lift; [by eauto|]. intros o Ho.
  case_decide as Hne.
  - apply Hplace. unfold side_order. rewrite Hid. cbn. rewrite (located_order _ _ _ _ Hf Ho). by rewrite decide_True.
  - by apply (amend_acts x side px rs q st l id i o tr).
Qed.

(** *** A cycle *)
Definition mid_price (bid ask : double) : double := fdiv (fadd bid ask) (f_of_Z 2).
(** There is no quote yet, or the mid has moved by more than the threshold. *)
Definition due (mid : double) (q : QuoterState) : bool :=
  match last_quoted_mid_ q with
  | None => true
  | Some last => fgt (fmul (fdiv (fabs (fsub mid last)) last) kBpsPerUnit) (requote_threshold_bps_ q)
  end.
(** Both sides, the bid first: their messages, and what is left. *)
Definition cycle (mid : double) (b b' : Books) : Prop :=
  let q := quoter b in
  let px := ComputeQuotePrices mid q in
  ∃ bids bid st l asks ask,
    acts BidSlot kBuy px.1 q (stored b) (limits b) bids bid st l ∧
    acts AskSlot kSell px.2 q st l asks ask (stored b') (limits b') ∧
    said b' = said b ++ bids ++ asks ∧
    quoter b' = set_mid (Some mid) (set_slot AskSlot ask (set_slot BidSlot bid q)).
(** What has been sent when an exception ends the cycle. *)
Definition cut_short (mid : double) (b : Books) (rs : list Request) : Prop :=
  let q := quoter b in
  let px := ComputeQuotePrices mid q in
  rs = said b ∨
  ∃ bids bid st l, acts BidSlot kBuy px.1 q (stored b) (limits b) bids bid st l ∧
    (rs = said b ++ bids ∨
     ∃ asks ask st' l', acts AskSlot kSell px.2 q st l asks ask st' l' ∧ rs = said b ++ bids ++ asks).

Lemma acts_ask px id q st l ms out st' l' :
  acts AskSlot kSell px (set_slot BidSlot id q) st l ms out st' l' → acts AskSlot kSell px q st l ms out st' l'.
Proof.
  intros Ha. destruct Ha as [i now st' l' Hn Hl Hs|l' Hn Hl|i o req now st' l' Hi Ho Hp Hl Hs|i o l' Hi Ho Hp Hl|i o Hi Ho Hp].
  - exact (places AskSlot kSell px q st l i now st' l' Hn Hl Hs).
  - exact (place_refused AskSlot kSell px q st l l' Hn Hl).
  - exact (amends AskSlot kSell px q st l i o req now st' l' Hi Ho Hp Hl Hs).
  - exact (amend_refused AskSlot kSell px q st l i o l' Hi Ho Hp Hl).
  - exact (amend_in_flight AskSlot kSell px q st l i o Hi Ho Hp).
Qed.
Lemma requote_cycle mid tr b :
  triple (shows b) (λ _ s, cycle mid b (books (OkxWsClient.app s)))
    (λ s, cut_short mid b (requests (OkxWsClient.app s))) (Requote freq mid tr).
Proof.
  destruct b as [rs q st l]. set (b := MkBooks rs q st l).
  assert (∀ s, shows b s → cut_short mid b (requests (OkxWsClient.app s))) as HE by (intros s Hs; left; by eapply shows_sent).
  unfold Requote. apply triple_quoter. cbn [quoter b]. cbv zeta.
  eapply triple_calm; [apply calm_batch|apply yields_any|exact HE|]. intros _ _.
  eapply triple_bind.
  { eapply triple_weaken; [apply replace_side_acts|intros ? s Hs; exact Hs|].
    intros s [Hs|(bids & bid & st1 & l1 & Hb & Hs)]; [by left|]. right. exists bids, bid, st1, l1. by split; [|left]. }
  intros [] s (bids & bid & st1 & l1 & Hb & Hs). revert s Hs.
  eapply triple_bind.
  { eapply triple_weaken; [apply replace_side_acts|intros ? s Hs; exact Hs|].
    intros s Hs. right. exists bids, bid, st1, l1. split; [done|].
    destruct Hs as [Hs|(asks & ask & st2 & l2 & Ha & Hs)]; [by left|]. right. exists asks, ask, st2, l2.
    split; [by eapply acts_ask|]. by rewrite Hs, app_assoc. }
  intros [] s (asks & ask & st2 & l2 & Ha & Hs). revert s Hs.
  eapply triple_calm; [apply calm_end_batch|apply yields_any| |].
  { intros s Hs. right. exists bids, bid, st1, l1. split; [done|]. right. exists asks, ask, st2, l2.
    split; [by eapply acts_ask|]. rewrite app_assoc. by eapply shows_sent. }
  intros _ _. apply triple_update. intros s <-%eq_sym. exists bids, bid, st1, l1, asks, ask.
  split; [done|]. split; [by eapply acts_ask|]. by rewrite app_assoc.
Qed.
End quotes.
(** The messages so far, and the quoter. *)
Definition at_ {W} (rs : list Request) (q : QuoterState) (s : OkxWsClient.St App W) : Prop :=
  requests (OkxWsClient.app s) = rs ∧ quoter_ (OkxWsClient.app s) = q.

(** ** When there is room

    The same placement, with everything it needs at hand: then it succeeds. *)

(** A decimal number of at most 19 digits. *)
Lemma length_pretty_go k x s :
  (x < 10 ^ N.of_nat k)%N → length (str (pretty_N_go x s)) ≤ k + length (str s).
Proof.
  revert x s. induction k as [|k IH]; intros x s Hx.
  - assert (x = 0%N) as -> by (simpl in Hx; lia). by rewrite pretty_N_go_0.
  - destruct (decide (0 < x)%N) as [Hp|Hz]; [|assert (x = 0%N) as -> by lia; rewrite pretty_N_go_0; lia].
    rewrite pretty_N_go_step by done. etrans; [apply IH|rewrite str_cons; simpl; lia].
    apply N.Div0.div_lt_upper_bound. by rewrite <-N.pow_succ_r', <-Nat2N.inj_succ.
Qed.
Lemma length_to_string z : (0 < z < 2 ^ 63)%Z → length (to_string z) ≤ 19.
Proof.
  intros Hz. destruct z as [|p|p]; [lia| |lia]. unfold to_string.
  change (pretty (Zpos p)) with (pretty (N.pos p)). unfold pretty, pretty_N. case_decide; [done|].
  etrans; [apply (length_pretty_go 19)|simpl; lia]. change (10 ^ N.of_nat 19)%N with 10000000000000000000%N. lia.
Qed.
(** At most 14 bytes are added to a payload. *)
Lemma length_frame key op p :
  length key = 4 → (Z.of_nat (length p) < 2 ^ 64)%Z →
  ∃ frame, WebSocketFrame.EncodeFrame (Some key) op p = Ok frame ∧ length frame ≤ length p + 14.
Proof.
  intros Hk Hp. destruct (WebSocketFrame.EncodeFrame_layout key op p Hp) as (m & ext & Hr & _ & ->).
  eexists. split; [done|]. assert (length ext ≤ 8) as He.
  { apply (f_equal length) in Hr. unfold WebSocketFrame.rfc_length in Hr.
    destruct (_ <? 126)%Z; [|destruct (_ <? 65536)%Z];
      cbn [length] in Hr; rewrite ?WebSocketFrame.length_be_bytes in Hr; lia. }
  rewrite !length_app, length_imap, Hk. cbn [length]. lia.
Qed.

Section room.
Context `{!ToChars} {W : Type} `{!World W} (freq : Z).
Notation S := (OkxWsClient.St App W).
(** The counter runs, random bytes are delivered, and the date is not
    absurd. *)
Context (Hfreq : (0 < freq)%Z).
Context (Hrand : ∀ w : W, ∃ key, (RAND_bytes 4 w).1 = Some key ∧ length key = 4).
Context (Hclock : ∀ w : W, (Z.quot (system_clock_now w).1 1000000 < 2 ^ 61)%Z).

(** The ids given out so far go up to [lo] at least. *)
Context (lo : Z) (Hlo : (0 ≤ lo)%Z).

(** [k] more placements are within the limit, [j] ids are left, and [n] bytes
    of the ring are free. *)
Definition ready (rs : list Request) (q : QuoterState) (os : list Order.t) (k j n : nat) (batch : bool) (s : S)
    : Prop :=
  let a := OkxWsClient.app s in
  let c := OkxWsClient.client s in
  at_ rs q s ∧ OrderStore.rep (order_store_ a) os ∧
  (∃ l, SlidingWindowLimiter.held (EndpointRateLimiter.order_limiter_ (rate_limiter_ a)) l ∧
    length l + k ≤ SlidingWindowLimiter.capacity_ (EndpointRateLimiter.order_limiter_ (rate_limiter_ a))) ∧
  (lo ≤ last_id a ∧ last_id a + Z.of_nat j < 2 ^ 62 ∧ Z.of_nat j < 2 ^ 60)%Z ∧
  TickToTradeStats.tallied (tick_to_trade_stats_ a) ∧
  RingBuffer.wf OkxWsClient.kTxRingCapacity (OkxWsClient.tx_ring_ c) ∧
  RingBuffer.size_ (OkxWsClient.tx_ring_ c) + n ≤ OkxWsClient.kTxRingCapacity ∧
  OkxWsClient.batching_ c = batch.
(** It returns. *)
Notation succeeds P Q m := (triple P Q (λ _, False) m).

Lemma ready_stamp rs q os k j n b f t : succeeds (ready rs q os k j n b) (λ _, ready rs q os k j n b) (stamp f t).
Proof.
  destruct t as [tr|]; [|by intros s Hs]. intros s Hs.
  unfold stamp, Quoter.on_world, OkxWsClient.on_world, ask, zoom, mbind, M_bind. by destruct (ReadCounter _).
Qed.
Lemma drop_old_length c l : length (SlidingWindowLimiter.drop_old c l) ≤ length l.
Proof. induction l as [|x l IH]; simpl; [done|]. destruct (x <? c)%Z; simpl; lia. Qed.
Lemma ready_acquire rs q os k j n b :
  succeeds (ready rs q os (Datatypes.S k) j n b) (λ r s, r = true ∧ ready rs q os k j n b s) (TryAcquire kOrderOp).
Proof.
  intros s (Hat & Hrep & (l & Hl & Hk) & Hrest).
  unfold TryAcquire, Quoter.on_world, OkxWsClient.on_world, ask, on_app, zoom, mbind, M_bind.
  destruct (steady_clock_now _) as [now w]. cbn [OkxWsClient.app].
  unfold EndpointRateLimiter.TryAcquire, zoom. rewrite decide_True by done.
  destruct (SlidingWindowLimiter.TryAcquire_spec now _ l Hl) as (x & -> & Hx & Hc & _).
  pose proof (drop_old_length (now - SlidingWindowLimiter.window_
    (EndpointRateLimiter.order_limiter_ (rate_limiter_ (OkxWsClient.app s)))) l) as Hd.
  rewrite (proj2 (Nat.ltb_lt _ _)) in * by lia. split; [done|]. split; [done|]. split; [done|].
  split; [|done]. eexists. split; [exact Hx|].
  cbn [OkxWsClient.app rate_limiter_ set_limiter EndpointRateLimiter.order_limiter_]. rewrite Hc, length_app. simpl. lia.
Qed.
Lemma ready_ids rs q os k j n b r :
  rq_ord_type r = kLimit →
  succeeds (ready rs q os k (Datatypes.S j) n b)
    (λ o s, (∃ z, (lo < z < 2 ^ 63)%Z ∧ wo_id o = to_string z) ∧
      wo_message o = order_text (wo_id o) (rq_inst_id_code r) (rq_side r) (rq_px r) (rq_sz r) ∧
      ready rs q os k j n b s) (on_ids (BuildWsOrderMessage r)).
Proof.
  intros Hr s (Hat & Hrep & Hl & Hid & Hrest). pose proof (yields_order (W:=W) r Hr) as Hy.
  specialize (Hy (last_id (OkxWsClient.app s), OkxWsClient.world s)). unfold on_ids, zoom.
  destruct (BuildWsOrderMessage r _) as [x st] eqn:E. revert E Hy.
  unfold BuildWsOrderMessage, GenerateId, OrderEntry.on_world, ask, zoom, mbind, M_bind, get, put, lift. cbn [fst snd].
  pose proof (Hclock (OkxWsClient.world s)) as Hnow. destruct (system_clock_now _) as [now w]. cbn [fst snd] in *.
  rewrite (proj2 (Z.leb_gt _ _)) by lia. unfold FormatOrderArg. rewrite Hr. case_decide as Hk; [done|].
  intros [= <- <-] Hy. specialize (Hy _ _ eq_refl). cbn [wo_id wo_message] in *.
  split; [eexists; split; [|done]; lia|]. split; [exact Hy|]. split; [done|]. split; [done|]. split; [done|].
  split; [|done]. cbn [OkxWsClient.app last_id set_last_id fst]. lia.
Qed.
Lemma ready_add rs q os k j n b id inst side px sz :
  length os < OrderStore.kCapacity →
  succeeds (ready rs q os k j n b)
    (λ _ s, ∃ now os', os' ≡ₚ Order.make now id inst side px sz :: os ∧ ready rs q os' k j n b s)
    (Quoter.Add id inst side px sz).
Proof.
  intros Hroom s (Hat & Hrep & Hrest).
  unfold Quoter.Add, Quoter.on_world, OkxWsClient.on_world, ask, on_store, on_app, zoom, mbind, M_bind.
  destruct (steady_clock_now _) as [now w]. cbn [OkxWsClient.app].
  destruct (LowerBound_rep _ os id Hrep) as (r & HLB & Hr).
  destruct (OrderStore.Add_at _ os now id inst side px sz r Hrep Hroom HLB Hr) as (st & -> & Hsl & Hct & _).
  exists now, (take r os ++ Order.make now id inst side px sz :: drop r os).
  split; [by rewrite <-Permutation_middle, take_drop|]. split; [done|]. split; [|done].
  split; [exact Hsl|]. cbn [OkxWsClient.app order_store_ set_store]. rewrite Hct, length_app, length_take. cbn [length].
  rewrite length_drop. lia.
Qed.
Lemma ready_send rs q os k j n m tr :
  (Z.of_nat (length m) < 2 ^ 64)%Z →
  succeeds (ready rs q os k j (length m + 14 + n) true)
    (λ _, ready (rs ++ [PrivateSend m]) q os k j n true) (Send freq m tr).
Proof.
  intros Hm s ([Hr Hq] & Hrep & Hl & Hid & Hst & Hwf & Hn & Hb).
  destruct s as [c a w ef]. cbn [OkxWsClient.app OkxWsClient.client] in *.
  destruct (Hrand w) as (key & Hkey & Hlen). destruct (length_frame key WebSocketFrame.kText m Hlen Hm)
    as (frame & Hf & Hfl).
  destruct (RingBuffer.Write_spec OkxWsClient.kTxRingCapacity (OkxWsClient.tx_ring_ c) frame Hwf) as (ring & Hw & Hwf' & Hs & _); [lia|].
  unfold Send, request, change, on_app, modify, zoom, OkxWsClient.Send, OkxWsClient.with_mask, OkxWsClient.on_world, ask,
    mbind, M_bind, lift. cbn [OkxWsClient.app OkxWsClient.world OkxWsClient.client OkxWsClient.effects].
  unfold zoom. cbn [OkxWsClient.world]. destruct (RAND_bytes 4 w) as [x w1]. cbn [fst] in Hkey. subst x. rewrite Hf.
  unfold OkxWsClient.WriteRaw, OkxWsClient.on_client, OkxWsClient.update, OkxWsClient.on_client, OkxWsClient.read,
    modify, zoom, mbind, M_bind, get. cbn [OkxWsClient.client]. rewrite Hw.
  destruct tr; cbn [mret M_ret OkxWsClient.client]; unfold mbind, M_bind, modify; cbn [mret M_ret OkxWsClient.client].
  all: match goal with |- context [negb (OkxWsClient.batching_ ?x)] =>
         change (OkxWsClient.batching_ x) with (OkxWsClient.batching_ c) end;
    rewrite Hb; cbn [negb]; rewrite andb_false_r; cbn [mret M_ret];
    split; [split; [by cbn; rewrite Hr|done]|]; split; [done|]; split; [done|]; split; [done|]; split; [done|];
    split; [exact Hwf'|]; split; [cbn; rewrite Hs; lia|exact Hb].
Qed.

(** The bytes that a quote needs in the ring. *)
Definition quote_size (q : QuoterState) (side : list Z) (px : double) : nat :=
  length (order_text [] (inst_id_code_ q) side (FormatPrice px q) (sz_ q)) + 2 * 19 + 14.
Lemma length_order_text id code side px sz :
  length (order_text id code side px sz) = length (order_text [] code side px sz) + 2 * length id.
Proof. unfold order_text. rewrite !length_app. cbn [length]. lia. Qed.

Lemma ready_weaken rs q os k j n n' b s : n' ≤ n → ready rs q os k j n b s → ready rs q os k j n' b s.
Proof. intros Hn (? & ? & ? & ? & ? & ? & ? & ?). repeat (split; [done|]). split; [lia|done]. Qed.
Lemma ready_quoter {A B} rs q os k j n b Q E (f : QuoterState → A) (g : A → M S B) :
  triple (ready rs q os k j n b) Q E (g (f q)) → triple (ready rs q os k j n b) Q E (ask_quoter f ≫= g).
Proof.
  intros Hk s Hs. pose proof Hs as [[_ Hq] _].
  unfold ask_quoter, see, mbind, M_bind, get. cbn [mret M_ret]. rewrite Hq. by apply Hk.
Qed.
Lemma ready_update rs q os k j n b f :
  succeeds (ready rs q os k j n b) (λ _, ready rs (f q) os k j n b) (update f).
Proof.
  intros s ([Hr Hq] & Hrest). split; [|done]. split; [done|]. cbn [OkxWsClient.app]. simpl. by rewrite Hq.
Qed.

(** The orders [os] and a new one, as it is sent. *)
Definition added (q : QuoterState) side px id (os os' : list Order.t) : Prop :=
  ∃ now, os' ≡ₚ Order.make now id (inst_id_ q) side (FormatPrice px q) (sz_ q) :: os.
Definition fresh (id : list Z) : Prop := ∃ z, (lo < z)%Z ∧ id = to_string z.
Lemma place_side_succeeds side px tr rs q os k j n :
  length os < OrderStore.kCapacity → (Z.of_nat (quote_size q side px) < 2 ^ 62)%Z →
  succeeds (ready rs q os (Datatypes.S k) (Datatypes.S j) (quote_size q side px + n) true)
    (λ r s, ∃ id os', r = Some id ∧ fresh id ∧ added q side px id os os' ∧
      ready (rs ++ [place_quote q side px id]) q os' k j n true s)
    (PlaceSide freq side px tr).
Proof.
  intros Hos Hsize. unfold PlaceSide.
  eapply triple_bind; [apply ready_stamp|]. intros t1.
  eapply triple_bind; [apply ready_acquire|]. intros r s [-> Hs]. cbn [negb]. revert s Hs.
  eapply triple_bind; [apply ready_stamp|]. intros t2. apply ready_quoter.
  eapply triple_bind; [apply ready_stamp|]. intros t3. cbv zeta.
  eapply triple_bind; [by apply ready_ids|]. intros o s ((z & Hz & Hid) & Hm & Hs). revert s Hs.
  eapply triple_bind; [by apply ready_add|]. intros [] s (now & os' & Hperm & Hs). revert s Hs.
  eapply triple_bind; [apply ready_stamp|]. intros t4. cbn [rq_inst_id_code rq_side rq_px rq_sz id] in *.
  assert (length (wo_message o) + 14 ≤ quote_size q side px) as Hlen.
  { rewrite Hm, length_order_text, Hid. pose proof (length_to_string z ltac:(lia)). unfold quote_size. lia. }
  apply (triple_bind _ (λ _, ready (rs ++ [PrivateSend (wo_message o)]) q os' k j n true)).
  - intros s Hs. apply ready_send; [lia|]. eapply ready_weaken; [|exact Hs]. lia.
  - intros []. apply triple_ret. intros s Hs. exists (wo_id o), os'. split; [done|]. split; [by exists z; split; [lia|]|]. split; [by exists now|].
    rewrite Hm in Hs. exact Hs.
Qed.
Lemma place_into_succeeds x side px tr rs q os k j n :
  length os < OrderStore.kCapacity → (Z.of_nat (quote_size q side px) < 2 ^ 62)%Z →
  succeeds (ready rs q os (Datatypes.S k) (Datatypes.S j) (quote_size q side px + n) true)
    (λ _ s, ∃ id os', fresh id ∧ added q side px id os os' ∧
      ready (rs ++ [place_quote q side px id]) (set_slot x (Some id) q) os' k j n true s)
    (place_into freq x side px tr).
Proof.
  intros Hos Hsize. unfold place_into. eapply triple_bind; [by apply place_side_succeeds|].
  intros r s (id & os' & -> & Hz & Ha & Hs). revert s Hs. eapply triple_weaken; [apply ready_update|simpl|done].
  intros _ s Hs. by exists id, os'.
Qed.

Lemma ready_batch rs q os k j n b b' :
  succeeds (ready rs q os k j n b) (λ _, ready rs q os k j n b')
    (OkxWsClient.update (App:=App) (OkxWsClient.set_batching b')).
Proof. intros s (? & ? & ? & ? & ? & ? & ? & ?). by repeat (split; [done|]). Qed.
Lemma ready_resolve rs q os k j n b t l :
  succeeds (ready rs q os k j n b) (λ _, ready rs q os k j n b)
    (OkxWsClient.resolve_traces (on_trace_resolved freq) t l).
Proof.
  induction l as [|tr l IH]; cbn [OkxWsClient.resolve_traces]; [by apply triple_ret|].
  eapply (triple_bind _ (λ _, ready rs q os k j n b)); [by intros s Hs|]. intros [].
  eapply (triple_bind _ (λ _, ready rs q os k j n b)); [|by intros []].
  intros s (? & ? & ? & ? & Hst & ? & ? & ?). unfold on_trace_resolved, on_app, zoom, runS.
  destruct (TickToTradeStats.Record_tallied freq (OkxWsClient.set_send_ticks t tr) _ Hfreq Hst) as (st & -> & Hst').
  by repeat (split; [done|]).
Qed.
Lemma end_batch_succeeds rs q os k j n b :
  succeeds (ready rs q os k j n b) (λ _, ready rs q os k j n false) (OkxWsClient.EndBatch (on_trace_resolved freq)).
Proof.
  unfold OkxWsClient.EndBatch, OkxWsClient.StartWrite. eapply triple_bind; [apply ready_batch|]. intros [].
  eapply (triple_bind _ (λ _, ready rs q os k j n false)); [by intros s Hs|]. intros [|]; cbn [negb]; [by apply triple_ret|].
  eapply (triple_bind _ (λ _, ready rs q os k j n false)); [by intros s Hs|]. intros [|]; cbn [negb]; [|by apply triple_ret].
  eapply (triple_bind _ (λ _, ready rs q os k j n false)).
  { intros s Hs. unfold OkxWsClient.on_world, ask, zoom. by destruct (ReadCounter _). }
  intros t. eapply (triple_bind _ (λ _, ready rs q os k j n false)); [by intros s Hs|]. intros l.
  eapply triple_bind; [apply ready_resolve|]. intros [].
  eapply (triple_bind _ (λ _, ready rs q os k j n false)); [by intros s Hs|]. intros [].
  eapply (triple_bind _ (λ _, ready rs q os k j n false)); [by intros s Hs|]. intros ring. by intros s Hs.
Qed.

(** Both sides, when neither has an order. *)
Definition quoted_both (mid : double) (q : QuoterState) (rs : list Request) (os : list Order.t) (s : S) : Prop :=
  let px := ComputeQuotePrices mid q in
  ∃ bid ask os1 os2,
    requests (OkxWsClient.app s) = rs ++ [place_quote q kBuy px.1 bid; place_quote q kSell px.2 ask] ∧
    quoter_ (OkxWsClient.app s) = set_mid (Some mid) (set_slot AskSlot (Some ask) (set_slot BidSlot (Some bid) q)) ∧
    added q kBuy px.1 bid os os1 ∧ added q kSell px.2 ask os1 os2 ∧
    OrderStore.rep (order_store_ (OkxWsClient.app s)) os2.
Lemma ready_slot_none x side px tr rs q os k j n b Q E :
  slot_id x q = None →
  triple (ready rs q os k j n b) Q E (place_into freq x side px tr) →
  triple (ready rs q os k j n b) Q E (ReplaceSide freq x side px tr).
Proof. intros Hx Hp. unfold ReplaceSide. apply ready_quoter. by rewrite Hx. Qed.
Lemma requote_succeeds mid tr rs q os n b :
  let px := ComputeQuotePrices mid q in
  bid_cl_ord_id_ q = None → ask_cl_ord_id_ q = None → length os + 2 ≤ OrderStore.kCapacity →
  quote_size q kBuy px.1 + quote_size q kSell px.2 ≤ n → (Z.of_nat n < 2 ^ 62)%Z →
  succeeds (ready rs q os 2 2 n b) (λ _, quoted_both mid q rs os) (Requote freq mid tr).
Proof.
  intros px Hbid Hask Hos Hn Hmax.
  assert (Z.of_nat (quote_size q kBuy px.1) < 2 ^ 62 ∧ Z.of_nat (quote_size q kSell px.2) < 2 ^ 62)%Z
    as [Hsb Hsa] by (clearbody px; lia).
  unfold Requote. apply ready_quoter. fold px.
  eapply triple_bind; [apply ready_batch|]. intros [].
  eapply triple_bind.
  { apply ready_slot_none; [done|]. intros s Hs.
    refine (place_into_succeeds BidSlot kBuy px.1 (Some tr) rs q os 1 1 (quote_size q kSell px.2) _ Hsb s _); [lia|].
    by eapply ready_weaken; [|exact Hs]. }
  intros [] s (bid & os1 & _ & Hb & Hs). revert s Hs.
  assert (length os1 = length os + 1) as Hos1.
  { destruct Hb as [now Hb]. apply Permutation_length in Hb. simpl in Hb. lia. }
  eapply triple_bind.
  { apply ready_slot_none; [done|]. intros s Hs.
    refine (place_into_succeeds AskSlot kSell px.2 (Some tr) _ (set_slot BidSlot (Some bid) q) os1 0 0 0 _ Hsa s _); [lia|].
    rewrite Nat.add_0_r. exact Hs. }
  intros [] s (ask & os2 & _ & Ha & Hs). revert s Hs.
  eapply triple_bind; [apply end_batch_succeeds|]. intros [].
  eapply triple_weaken; [apply ready_update| |done].
  intros _ s ([Hr Hq] & Hrep & _). exists bid, ask, os1, os2. rewrite <-app_assoc in Hr. by repeat (split; [done|]).
Qed.
(** A side whose order the exchange has not given an id yet. *)
Lemma ready_slot_pending x side px tr rs q os k j n b Q E id o :
  slot_id x q = Some id → StronglySorted OrderStore.before os → OrderStore.orders os !! id = Some o →
  Order.ord_id_ o = [] →
  triple (ready rs (set_slot x None q) os k j n b) Q E (place_into freq x side px tr) →
  triple (ready rs q os k j n b) Q E (ReplaceSide freq x side px tr).
Proof.
  intros Hid Hsort Ho Hnone Hp. unfold ReplaceSide. apply ready_quoter. rewrite Hid. intros s Hs.
  assert (OrderStore.wf (order_store_ (OkxWsClient.app s)) os) as Hwf.
  { destruct Hs as (_ & (? & ? & ?) & _). by split_and!. }
  destruct (OrderStore.FindByClOrdId_orders _ os Hwf id o Ho) as (i & Hf & Hi & _).
  pose proof (OrderStore.At_wf _ os Hwf i o Hi) as Hat.
  unfold see at 1, get, mbind at 1, M_bind at 1. cbn [mret M_ret]. unfold mbind at 1, M_bind at 1. cbn [mret M_ret].
  unfold mbind at 1, M_bind at 1. unfold lift at 1. rewrite Hf.
  unfold mbind at 1, M_bind at 1. unfold mbind at 1, M_bind at 1. unfold lift at 1. rewrite Hat.
  rewrite decide_True by done. cbn [mret M_ret].
  revert s Hs Hwf Hf Hat. intros s Hs _ _ _. revert s Hs. apply (triple_bind _ _ _ _ _ _ (triple_weaken _ _ _ _ E _
    (ready_update rs q os k j n b (set_slot x None)) (λ _ _ H, H) (λ s, False_ind _)) (λ _, Hp)).
Qed.
End room.

(** ** Properties *)

(** C12. On an update of a book with a best bid and a best ask, the strategy
    does nothing, if the mid price has not moved by more than the threshold
    since the last quotes.  Otherwise each side is handled, the bid first.  A
    side has an order when the store holds one under the id the quoter
    remembers for it and the exchange has given that order an id.  If it has
    none, and the rate limiter grants it, a new order is sent and stored;  if
    it has one, no amendment of it is in flight and the limiter grants it, that
    very order is marked as being amended and an amendment with its ordId is
    sent; otherwise nothing is sent for the side.  The prices are those
    computed from the new mid, rounded to the tick and printed, the size is
    the configured one.  Then the quoter remembers the mid, and for each side
    the id of the order that it placed or kept.  Also when an exception ends
    the cycle, nothing else has been sent. *)
Theorem book_update_quotes {W} `{!World W} `{!ToChars} (freq : Z) (book : OrderBook.t) (tr : TickToTradeTrace)
    (bid ask : double) (s : OkxWsClient.St App W) :
  OrderBook.BestBid book = Ok (Some bid) → OrderBook.BestAsk book = Ok (Some ask) →
  let mid := mid_price bid ask in
  let b := books (OkxWsClient.app s) in
  let '(r, s') := OnBookUpdate freq book tr s in
  if due mid (quoter b) then
    match r with
    | Ok _ => cycle mid b (books (OkxWsClient.app s'))
    | Stop _ => cut_short mid b (requests (OkxWsClient.app s'))
    end
  else r = Ok tt ∧ s' = s.
Proof.
  intros Hb Ha mid b. pose proof (requote_cycle freq mid tr b s eq_refl) as Hreq.
  unfold OnBookUpdate, mbind, M_bind, lift. rewrite Hb, Ha.
  unfold ask_quoter, see, mbind, M_bind, get. cbn [mret M_ret]. cbv zeta. unfold due.
  change (quoter b) with (quoter_ (OkxWsClient.app s)).
  fold (mid_price bid ask). fold mid. destruct (last_quoted_mid_ (quoter_ (OkxWsClient.app s))) as [last|].
  - cbn [mret M_ret]. destruct (fgt _ _).
    + by destruct (Requote freq mid tr s) as [[] ?].
    + by split.
  - by destruct (Requote freq mid tr s) as [[] ?].
Qed.

(** A book, and the state of a new engine, for the examples. *)
Definition sample_sided : result OrderBook.t :=
  b ← OrderBook.SetBid (f_of_Z 3000) (f_of_Z 1) OrderBook.empty; OrderBook.SetAsk (f_of_Z 3001) (f_of_Z 1) b.
Definition sample_state (app : App) : OkxWsClient.St App unit := OkxWsClient.MkSt sample_client app tt [].

(** What the examples rely on, computed. *)
Definition sample_check (f : OrderBook.t → App → bool) : bool :=
  match sample_sided, sample_made with Ok book, Ok app => f book app | _, _ => false end.
Lemma sample_checked f :
  sample_check f = true → ∃ book app, sample_sided = Ok book ∧ sample_made = Ok app ∧ f book app = true.
Proof.
  unfold sample_check. destruct sample_sided as [book|]; [|done]. destruct sample_made as [app|]; [|done].
  intros Hf. by exists book, app.
Qed.
Definition sample_update (book : OrderBook.t) (app : App) : result unit * OkxWsClient.St App unit :=
  @OnBookUpdate unit (sample_world 5000000000 []) sample_chars 1000000000 book (MkTrace 1 2 3 0 0 0 0 0) (sample_state app).
Definition sample_mid : double := mid_price (f_of_Z 3000) (f_of_Z 3001).
Lemma sample_best book :
  sample_sided = Ok book →
  OrderBook.BestBid book = Ok (Some (f_of_Z 3000)) ∧ OrderBook.BestAsk book = Ok (Some (f_of_Z 3001)).
Proof. intros Hb. vm_compute in Hb. injection Hb as <-. vm_compute. by split. Qed.

Lemma book_update_quotes_witness :
  ∃ book app, sample_sided = Ok book ∧ sample_made = Ok app ∧
    cycle (H:=sample_chars) sample_mid (books app) (books (OkxWsClient.app (sample_update book app).2)).
Proof.
  destruct (sample_checked (λ book app, due sample_mid (quoter_ app) &&
    match (sample_update book app).1 with Ok _ => true | Stop _ => false end))
    as (book & app & Hb & Ha & Hc); [vm_compute; reflexivity|].
  exists book, app. split; [exact Hb|]. split; [exact Ha|]. destruct (sample_best book Hb) as [Hbid Hask]. clear Hb Ha.
  apply andb_prop in Hc as [Hdue Hok].
  pose proof (@book_update_quotes unit (sample_world 5000000000 []) sample_chars 1000000000 book (MkTrace 1 2 3 0 0 0 0 0)
    (f_of_Z 3000) (f_of_Z 3001) (sample_state app) Hbid Hask) as Hq.
  fold (sample_update book app) sample_mid in Hq. destruct (sample_update book app) as [[u|x] s']; [|discriminate Hok].
  cbn zeta in Hq. cbn [sample_state OkxWsClient.app] in Hq. change (quoter (books app)) with (quoter_ app) in Hq.
  rewrite Hdue in Hq. exact Hq.
Defined.

(** C13. The strategy has no quotes yet, the connection accepts the bytes of
    two orders, the rate limiter two more placements and the store two more
    orders.  Then the first update of a book with a best bid and a best ask
    makes it send two orders, a buy and then a sell order at the two computed
    prices; both are in the store, as they were sent, the quoter knows them
    by their ids, and it remembers the mid.  No exception is thrown. *)
Theorem first_quotes_sent {W} `{!World W} `{!ToChars} (freq : Z) (book : OrderBook.t) (tr : TickToTradeTrace)
    (bid ask : double) (os : list Order.t) (n : nat) (batch : bool) (s : OkxWsClient.St App W) :
  (0 < freq)%Z → (∀ w : W, ∃ key, (RAND_bytes 4 w).1 = Some key ∧ length key = 4) →
  (∀ w : W, (Z.quot (system_clock_now w).1 1000000 < 2 ^ 61)%Z) →
  OrderBook.BestBid book = Ok (Some bid) → OrderBook.BestAsk book = Ok (Some ask) →
  let mid := mid_price bid ask in
  let q := quoter_ (OkxWsClient.app s) in
  let px := ComputeQuotePrices mid q in
  last_quoted_mid_ q = None → bid_cl_ord_id_ q = None → ask_cl_ord_id_ q = None →
  length os + 2 ≤ OrderStore.kCapacity → quote_size q kBuy px.1 + quote_size q kSell px.2 ≤ n →
  (Z.of_nat n < 2 ^ 62)%Z → ready 0 (requests (OkxWsClient.app s)) q os 2 2 n batch s →
  ∃ s', OnBookUpdate freq book tr s = (Ok tt, s') ∧ quoted_both mid q (requests (OkxWsClient.app s)) os s'.
Proof.
  intros Hf Hr Hc Hb Ha mid q px Hmid Hbid Hask Hos Hn Hmax Hs.
  pose proof (requote_succeeds freq Hf Hr Hc 0 (Z.le_refl 0) mid tr _ q os n batch Hbid Hask Hos Hn Hmax s Hs) as Hq.
  unfold OnBookUpdate, mbind, M_bind, lift. rewrite Hb, Ha.
  unfold ask_quoter, see, mbind, M_bind, get. cbn [mret M_ret]. fold q. rewrite Hmid.
  fold (mid_price bid ask). fold mid. destruct (Requote freq mid tr s) as [[[]|x] s']; [|done]. by exists s'.
Qed.

Lemma first_quotes_sent_witness :
  ∃ book app s', sample_sided = Ok book ∧ sample_made = Ok app ∧ sample_update book app = (Ok tt, s') ∧
    quoted_both (H:=sample_chars) sample_mid (quoter_ app) (requests app) [] s'.
Proof.
  destruct (sample_checked (λ book app,
    bool_decide (last_quoted_mid_ (quoter_ app) = None) && bool_decide (bid_cl_ord_id_ (quoter_ app) = None) &&
    bool_decide (ask_cl_ord_id_ (quoter_ app) = None) &&
    (quote_size (H:=sample_chars) (quoter_ app) kBuy (ComputeQuotePrices sample_mid (quoter_ app)).1 +
     quote_size (H:=sample_chars) (quoter_ app) kSell (ComputeQuotePrices sample_mid (quoter_ app)).2 <=? 1000)))
    as (book & app & Hb & Ha & Hc); [vm_compute; reflexivity|].
  rewrite !andb_true_iff, !bool_decide_eq_true in Hc. destruct Hc as [[[Hm Hbn] Han] Hsize].
  destruct (sample_best book Hb) as [Hbid Hask].
  destruct (@first_quotes_sent unit (sample_world 5000000000 []) sample_chars 1000000000 book (MkTrace 1 2 3 0 0 0 0 0)
    (f_of_Z 3000) (f_of_Z 3001) [] 1000 false (sample_state app)) as (s' & Hs' & Hq); try assumption.
  - reflexivity.
  - intros w. exists [7; 7; 7; 7]%Z. split; reflexivity.
  - intros w. vm_compute. reflexivity.
  - apply Nat.leb_le. vm_compute. reflexivity.
  - apply Nat.leb_le. exact Hsize.
  - vm_compute. reflexivity.
  - clear Hbid Hask Hm Hbn Han Hsize. unfold sample_made, Engine.make in Ha.
    destruct (NaiveQuoter.make _ _ _ _ _ _) as [q|]; [|discriminate Ha]. injection Ha as <-.
    split; [split; reflexivity|]. split; [|split; [|split; [|split; [|split; [|split]]]]].
    + split; [reflexivity|]. split; [reflexivity|apply Nat.le_0_l].
    + exists []. split; [apply SlidingWindowLimiter.held_make|]. apply Nat.leb_le. vm_compute. reflexivity.
    + cbn. lia.
    + apply TickToTradeStats.stats_tallied_empty.
    + apply RingBuffer.ring_wf_empty, OkxWsClient.tx_capacity_pos.
    + apply OkxWsClient.tx_capacity_large.
    + reflexivity.
  - exists book, app, s'. split; [exact Hb|]. split; [exact Ha|]. split; [exact Hs'|exact Hq].
Defined.

(** C40. The strategy places a second order on a side that already has one.
    The quoter remembers an order of the side; it is in the store, but the
    exchange has not acknowledged it yet (its ordId is empty).  The connection,
    the rate limiter and the store have room for one more order.  Then the
    requote of the side sends and stores a new order for the same side, and
    nothing else: the first order is neither amended nor cancelled.  It stays
    in the store as it was, but the quoter now remembers the new order's id,
    which is a different one, in its place. *)
Theorem quoter_places_twice {W} `{!World W} `{!ToChars} (freq : Z) (x : Slot) (side : list Z) (px : double)
    (tr : option TickToTradeTrace) (os : list Order.t) (o : Order.t) (number : Z) (n : nat)
    (s : OkxWsClient.St App W) :
  (0 < freq)%Z → (∀ w : W, ∃ key, (RAND_bytes 4 w).1 = Some key ∧ length key = 4) →
  (∀ w : W, (Z.quot (system_clock_now w).1 1000000 < 2 ^ 61)%Z) →
  let q := quoter_ (OkxWsClient.app s) in
  let old := to_string number in
  (0 ≤ number)%Z → slot_id x q = Some old →
  StronglySorted OrderStore.before os → OrderStore.orders os !! old = Some o → Order.ord_id_ o = [] →
  length os < OrderStore.kCapacity → quote_size q side px ≤ n → (Z.of_nat n < 2 ^ 62)%Z →
  ready number (requests (OkxWsClient.app s)) q os 1 1 n true s →
  ∃ id os' s', ReplaceSide freq x side px tr s = (Ok tt, s') ∧
    requests (OkxWsClient.app s') = requests (OkxWsClient.app s) ++ [place_quote q side px id] ∧
    quoter_ (OkxWsClient.app s') = set_slot x (Some id) q ∧ id ≠ old ∧
    OrderStore.rep (order_store_ (OkxWsClient.app s')) os' ∧ added q side px id os os' ∧ o ∈ os'.
Proof.
  intros Hf Hr Hc q old Hnum Hid Hsort Ho Hnone Hroom Hsize Hmax Hs.
  assert (∀ y, quote_size (set_slot x y q) side px = quote_size q side px) as Hsz by (intros y; by destruct x).
  assert (triple (ready number (requests (OkxWsClient.app s)) q os 1 1 n true)
    (λ _ s', ∃ id os', fresh number id ∧ added (set_slot x None q) side px id os os' ∧
      ready number (requests (OkxWsClient.app s) ++ [place_quote (set_slot x None q) side px id])
        (set_slot x (Some id) (set_slot x None q)) os' 0 0 0 true s')
    (λ _, False) (ReplaceSide freq x side px tr)) as Hplaced.
  { eapply ready_slot_pending; [done..|]. intros s1 Hs1.
    apply (place_into_succeeds freq Hr Hc number Hnum x side px tr); [done|rewrite Hsz; lia|].
    eapply ready_weaken; [|exact Hs1]. rewrite Hsz. lia. }
  specialize (Hplaced s Hs). destruct (ReplaceSide freq x side px tr s) as [[[]|y] s']; [|done].
  destruct Hplaced as (id & os' & (z & Hz & ->) & Ha & [Hrq Hq] & Hrep & _).
  exists (to_string z), os', s'. split; [done|].
  assert (added q side px (to_string z) os os') as Hadd by (by destruct x).
  split; [rewrite Hrq; by destruct x|]. split; [by rewrite Hq, set_slot_twice|].
  split; [intros Heq%to_string_inj; lia|]. split; [done|]. split; [done|].
  destruct Hadd as [now ->]. right. apply OrderStore.orders_lookup in Ho; [by destruct Ho|done].
Qed.

(** A bid that the exchange has not acknowledged. *)
Definition sample_old : Order.t := Order.make 1 (to_string 5000) (str "BTC-USDT") kBuy (str "2999.50") (str "0.01").
Definition sample_pending (app : App) : OkxWsClient.St App unit :=
  OkxWsClient.MkSt (OkxWsClient.set_batching true sample_client)
    (set_last_id 5000 (set_store (OrderStore.Mk (OrderStore.slots_of [sample_old]) 1 true)
      (set_quoter (set_slot BidSlot (Some (to_string 5000)) (quoter_ app)) app))) tt [].
Lemma quoter_places_twice_witness :
  ∃ app id s', sample_made = Ok app ∧
    @ReplaceSide unit (sample_world 5000000000 []) sample_chars 1000000000 BidSlot kBuy (f_of_Z 3001) None
      (sample_pending app) = (Ok tt, s') ∧
    bid_cl_ord_id_ (quoter_ (OkxWsClient.app s')) = Some id ∧ id ≠ to_string 5000 ∧
    ∃ os', OrderStore.rep (order_store_ (OkxWsClient.app s')) os' ∧ sample_old ∈ os'.
Proof.
  destruct (sample_checked (λ book app,
    quote_size (H:=sample_chars) (set_slot BidSlot (Some (to_string 5000)) (quoter_ app)) kBuy (f_of_Z 3001) <=? 1000))
    as (book & app & _ & Ha & Hsize); [vm_compute; reflexivity|].
  destruct (@quoter_places_twice unit (sample_world 5000000000 []) sample_chars 1000000000 BidSlot kBuy (f_of_Z 3001)
    None [sample_old] sample_old 5000 1000 (sample_pending app)) as (id & os' & s' & Hs' & _ & Hq & Hne & Hrep & _ & Hin).
  - reflexivity.
  - intros w. exists [7; 7; 7; 7]%Z. split; reflexivity.
  - intros w. vm_compute. reflexivity.
  - discriminate.
  - reflexivity.
  - repeat constructor.
  - reflexivity.
  - reflexivity.
  - apply Nat.leb_le. vm_compute. reflexivity.
  - apply Nat.leb_le. exact Hsize.
  - vm_compute. reflexivity.
  - clear Hsize. unfold sample_made, Engine.make in Ha.
    destruct (NaiveQuoter.make _ _ _ _ _ _) as [q|]; [|discriminate Ha]. injection Ha as <-.
    split; [split; reflexivity|]. split; [|split; [|split; [|split; [|split; [|split]]]]].
    + split; [reflexivity|]. split; [reflexivity|]. apply Nat.leb_le. vm_compute. reflexivity.
    + exists []. split; [apply SlidingWindowLimiter.held_make|]. apply Nat.leb_le. vm_compute. reflexivity.
    + cbn. lia.
    + apply TickToTradeStats.stats_tallied_empty.
    + apply RingBuffer.ring_wf_empty, OkxWsClient.tx_capacity_pos.
    + apply OkxWsClient.tx_capacity_large.
    + reflexivity.
  - exists app, id, s'. split; [exact Ha|]. split; [exact Hs'|]. split; [rewrite Hq; reflexivity|]. split; [exact Hne|].
    exists os'. split; [exact Hrep|exact Hin].
Defined.
