(* ===== verification/PlacementRate.v ===== *)
(** * How fast orders are placed

    The rate limiter (okx/connectivity/rate_limiter.cpp), the strategy and the
    engine together: in every stretch of a run that is no longer than the
    limiter's window, the orders sent over the private connection are at most
    as many as the limiter lets through, and one for each login, which the
    limiter does not see. *)

From S2P Require Import Prelude Float64 Json Rules Okx PriceText Perf OrderBook OrderLifecycle OrderStore.
From S2P Require Import World OrderEntry WsClient Reconciliation RateLimiter Risk Quoter RoundTrip Engine.
From S2P Require Import EngineInvariants QuoterSlots Quotes.

(** ** Time

    The world has a time that its operations do not turn back, and the steady
    clock shows it. *)
Definition later {W} (time : W → Z) : relation W := λ w w', (time w ≤ time w')%Z.
Class Clocked {W} (wo : World W) (time : W → Z) : Prop := {
  clocked_along :: Along wo (later time);
  clocked_reading w : (time w ≤ (steady_clock_now w).1 ≤ time (steady_clock_now w).2)%Z }.

(** ** Messages *)
#[global] Instance request_eq_dec : EqDecision Request.
Proof. solve_decision. Defined.
Definition order_request (r : Request) : Prop :=
  ∃ id arg, r = PrivateSend (qstr "{'id':'" ++ id ++ qstr "','op':'order','args':[" ++ arg ++ qstr "]}").
Lemma yields_placement {W} `{!World W} r :
  yields (BuildWsOrderMessage (W:=W) r) (λ o, order_request (PrivateSend (wo_message o))).
Proof.
  intros st o st'. unfold BuildWsOrderMessage, mbind, M_bind. destruct (GenerateId st) as [[id|] st1]; [|done].
  unfold lift. destruct (FormatOrderArg r id) as [arg|]; [|done]. intros [= <- _]. by exists id, arg.
Qed.
(** The subscriptions, of which each login sends one. *)
Definition logins (l : list Request) : nat := length (filter (.= PrivateSend Engine.kPrivateSubscribeMsg) l).
Lemma logins_app l l' : logins (l ++ l') = logins l + logins l'.
Proof. unfold logins. by rewrite filter_app, length_app. Qed.

Section rate.
Context {W : Type} (wo : World W) (time : W → Z) `{!Clocked wo time} `{!ToChars} (freq : Z).
Context (rest : RestClient) (auth : OkxAuth) (clock : list Z → Z).
#[local] Existing Instance recording.
Notation S := (OkxWsClient.St App (W * list CurlOptions)).

(** The limiter has accepted the calls [hist], the last one not after [now]. *)
Definition limits (now : Z) (l : SlidingWindowLimiter.t) (hist : list Z) : Prop :=
  ∃ last, SlidingWindowLimiter.linked l last hist ∧ (last ≤ now)%Z ∧
    SlidingWindowLimiter.capacity_ l = Engine.kOrderRateLimit.1 ∧
    SlidingWindowLimiter.window_ l = Engine.kOrderRateLimit.2 ∧
    SlidingWindowLimiter.bounded Engine.kOrderRateLimit.1 Engine.kOrderRateLimit.2 hist.
(** Since the time [t0], and the messages [r0], [n] accepted calls and logins
    have not been used for an order. *)
Definition paced (t0 : Z) (r0 : list Request) (n : nat) (a : App) (w : W * list CurlOptions) : Prop :=
  (t0 ≤ time w.1)%Z ∧ ∃ hist orders others new,
    limits (time w.1) (EndpointRateLimiter.order_limiter_ (rate_limiter_ a)) hist ∧
    requests a = r0 ++ new ∧ new ≡ₚ orders ++ others ∧
    Forall order_request orders ∧ Forall quiet_request others ∧
    length orders + n ≤ length (filter (λ x, t0 ≤ x)%Z hist) + logins others.
Notation I t0 r0 n := (obeys (paced t0 r0 n)).

Lemma limits_later now now' l hist : (now ≤ now')%Z → limits now l hist → limits now' l hist.
Proof. intros Hle (last & Hl & Hn & Hrest). exists last. split; [done|]. split; [lia|done]. Qed.
(** One more quiet message. *)
Lemma paced_quiet t0 r0 n a w r :
  quiet_request r → paced t0 r0 n a w →
  paced t0 r0 (n + logins [r]) (set_requests (requests a ++ [r]) a) w.
Proof.
  intros Hr (Ht & hist & orders & others & new & Hl & Hq & Hp & Ho & Hn & Hc). split; [done|].
  exists hist, orders, (others ++ [r]), (new ++ [r]). split; [done|]. cbn [requests set_requests].
  split; [by rewrite Hq, app_assoc|]. split; [by rewrite Hp, app_assoc|]. split; [done|].
  split; [by apply Forall_app; split; [|constructor]|]. rewrite logins_app. lia.
Qed.
Lemma paced_weaken t0 r0 n m a w : m ≤ n → paced t0 r0 n a w → paced t0 r0 m a w.
Proof.
  intros Hm (Ht & hist & orders & others & new & ? & ? & ? & ? & ? & Hc). split; [done|].
  exists hist, orders, others, new. repeat (split; [done|]). lia.
Qed.
(** One more order. *)
Lemma paced_order t0 r0 n a w r :
  order_request r → paced t0 r0 (Datatypes.S n) a w → paced t0 r0 n (set_requests (requests a ++ [r]) a) w.
Proof.
  intros Hr (Ht & hist & orders & others & new & Hl & Hq & Hp & Ho & Hn & Hc). split; [done|].
  exists hist, (orders ++ [r]), others, (new ++ [r]). split; [done|]. cbn [requests set_requests].
  split; [by rewrite Hq, app_assoc|]. split; [by rewrite Hp, <-!app_assoc, (Permutation_app_comm others)|].
  split; [by apply Forall_app; split; [|constructor]|]. split; [done|]. rewrite length_app. simpl. lia.
Qed.

Lemma paced_move t0 r0 n a w w' : later time w.1 w'.1 → paced t0 r0 n a w → paced t0 r0 n a w'.
Proof.
  unfold later. intros Hw (Ht & hist & orders & others & new & Hl & Hrest). split; [lia|].
  exists hist, orders, others, new. split; [|done]. by eapply limits_later.
Qed.
Lemma paced_stable t0 r0 n : stable (later time) rest (paced t0 r0 n).
Proof.
  split; try done.
  - intros a w x Hx. unfold paced. cbn [rate_limiter_ set_limiter requests]. by rewrite Hx.
  - intros a w r Hr Hp. apply (paced_weaken _ _ (n + logins [r])); [lia|]. by apply paced_quiet.
  - intros a w l w' new Hw _. by apply paced_move.
Qed.

(** *** The limiter *)
Lemma linked_le l last hist : SlidingWindowLimiter.linked l last hist → Forall (λ x, x ≤ last)%Z hist.
Proof.
  intros (p & r & _ & _ & _ & Hs). apply Forall_forall. intros x Hx.
  exact (StronglySorted_app_1_elem_of Z.le hist [last] x last Hs Hx ltac:(left)).
Qed.
Lemma limits_acquire now now' l hist :
  limits now l hist → (now ≤ now')%Z →
  ∃ b l', SlidingWindowLimiter.TryAcquire now' l = (Ok b, l') ∧
    limits now' l' (if b then hist ++ [now'] else hist).
Proof.
  intros (last & Hl & Hle & Hc & Hw & Hb) Hnow.
  destruct (SlidingWindowLimiter.TryAcquire_linked l last hist now' Hl ltac:(lia)) as (l' & HT & Hl' & Hc' & Hw').
  assert (Forall (λ x, x ≤ now')%Z hist) as Hall.
  { eapply Forall_impl; [by eapply linked_le|]. simpl. lia. }
  destruct (SlidingWindowLimiter.ref_acquire_bounded Engine.kOrderRateLimit.1 Engine.kOrderRateLimit.2 now' hist
    ltac:(done) Hb Hall) as [Hb' _].
  rewrite Hc, Hw in *. eexists _, l'. split; [exact HT|].
  unfold SlidingWindowLimiter.ref_acquire in *. destruct (_ <? _); exists now'; split_and!; try done; lia.
Qed.
Lemma paced_acquire t0 r0 n :
  triple (I t0 r0 n) (λ b, I t0 r0 (if b : bool then Datatypes.S n else n)) (I t0 r0 n) (TryAcquire kOrderOp).
Proof using Clocked0 rest.
  intros [c a [w log] ef] (Ht & hist & orders & others & new & Hl & Hrest). cbn [fst OkxWsClient.app OkxWsClient.world] in *.
  unfold TryAcquire, Quoter.on_world, OkxWsClient.on_world, ask, on_app, zoom, mbind, M_bind.
  cbn [OkxWsClient.app OkxWsClient.world steady_clock_now recording on_fst fst snd].
  pose proof (clocked_reading (wo:=wo) w) as Hr. unfold on_fst. cbn [fst snd].
  destruct (steady_clock_now w) as [now w1]. cbn [fst snd OkxWsClient.app OkxWsClient.client OkxWsClient.world OkxWsClient.effects] in *.
  unfold EndpointRateLimiter.TryAcquire, zoom. rewrite decide_True by done.
  destruct (limits_acquire _ now _ hist Hl ltac:(lia)) as (b & l' & -> & Hl').
  split; [cbn [fst OkxWsClient.world]; lia|].
  exists (if b then hist ++ [now] else hist), orders, others, new. cbn [OkxWsClient.app OkxWsClient.world fst].
  split; [eapply limits_later; [|exact Hl']; lia|].
  destruct Hrest as (? & ? & ? & ? & Hc). repeat (split; [done|]).
  destruct b; [|done]. rewrite filter_app, length_app, filter_cons_True by lia. simpl. lia.
Qed.

(** *** Placements *)
Lemma paced_send t0 r0 n m tr :
  order_request (PrivateSend m) → triple (I t0 r0 (Datatypes.S n)) (λ _, I t0 r0 n) (I t0 r0 n) (Send freq m tr).
Proof using Clocked0 rest.
  intros Hm s Hs. unfold Send, request, change, on_app, modify, zoom, mbind, M_bind.
  apply (triple_upholds (I t0 r0 n) (I t0 r0 n)); [|done|].
  - apply (up_send_raw wo (later time) rest _ (paced_stable _ _ _)). intros t.
    apply (up_trace (later time) freq rest _ (paced_stable _ _ _)).
  - by apply paced_order.
Qed.
(** A step that leaves the count alone. *)
Lemma triple_keep {A B} t0 r0 n (P : A → Prop) (Q : B → S → Prop) E (m : M S A) (k : A → M S B) :
  upholds (I t0 r0 n) any m → yields m P → (∀ s, I t0 r0 n s → E s) →
  (∀ a, P a → triple (I t0 r0 n) Q E (k a)) → triple (I t0 r0 n) Q E (m ≫= k).
Proof.
  intros Hm Hp HE Hk s Hs. specialize (Hm s Hs). unfold mbind, M_bind.
  destruct (m s) as [[a|x] s1] eqn:Em; [by apply (Hk a (Hp _ _ _ Em))|]. apply HE, Hm.
Qed.
Lemma paced_store {A} t0 r0 n (m : M OrderStore.t A) : upholds (I t0 r0 n) any (on_store m).
Proof.
  apply upholds_zoom. intros s Hs. unfold zoom. by destruct (m (order_store_ (OkxWsClient.app s))).
Qed.
Lemma paced_update t0 r0 n f : upholds (I t0 r0 n) any (NaiveQuoter.update f).
Proof. by apply up_change. Qed.
Lemma paced_add t0 r0 n a b c d e : upholds (I t0 r0 n) any (Add a b c d e).
Proof using Clocked0 rest.
  unfold Add. apply upholds_bind; [apply (up_clock wo (later time) rest _ (paced_stable _ _ _))|]. intros.
  apply paced_store.
Qed.
Lemma paced_ids t0 r0 n r : upholds (I t0 r0 n) any (on_ids (BuildWsOrderMessage r)).
Proof using Clocked0 rest.
  apply (up_ids wo (later time) rest _ (paced_stable _ _ _)), (offline_order wo (later time)).
Qed.
Lemma paced_place_into t0 r0 x side px t : upholds (I t0 r0 0) any (NaiveQuoter.place_into freq x side px t).
Proof using Clocked0 rest.
  assert (∀ n f tr, upholds (I t0 r0 n) any (NaiveQuoter.stamp f tr)) as Hstamp.
  { intros n. apply (up_stamp wo (later time) rest _ (paced_stable _ _ _)). }
  assert (∀ s, I t0 r0 1 s → I t0 r0 0 s) as Hw by (intros s; apply paced_weaken; lia).
  apply upholds_triple. unfold NaiveQuoter.place_into, NaiveQuoter.PlaceSide.
  apply (triple_bind _ (λ _, I t0 r0 0)); [|intros id; apply triple_upholds; [apply paced_update|done]].
  eapply triple_keep; [apply Hstamp|by apply yields_any|done|]. intros t1 _.
  eapply triple_bind; [apply paced_acquire|]. intros [|]; cbn [negb]; [|by apply triple_ret].
  eapply triple_keep; [apply Hstamp|by apply yields_any|done|]. intros t2 _.
  eapply triple_keep; [apply up_see|by apply yields_any|done|]. intros q _. cbv zeta.
  eapply triple_keep; [apply Hstamp|by apply yields_any|done|]. intros t3 _.
  eapply triple_keep; [apply paced_ids|apply yields_zoom, yields_placement|done|]. intros o Ho.
  eapply triple_keep; [apply paced_add|by apply yields_any|done|]. intros [] _.
  eapply triple_keep; [apply Hstamp|by apply yields_any|done|]. intros t4 _.
  eapply triple_bind; [by apply paced_send|]. intros []. by apply triple_ret.
Qed.

(** *** The login *)
Lemma paced_place_order t0 r0 n request : upholds (I t0 r0 n) any (on_ids (PlaceOrder rest auth request)).
Proof using Clocked0.
  assert (∀ w0, upholds (λ st : Z * (W * list CurlOptions), later time w0 st.2.1) any (PlaceOrder rest auth request)) as Hp.
  { intros w0. unfold PlaceOrder. case_decide; [by apply upholds_throw|]. apply upholds_bind.
    - intros [z w] Hw. pose proof (offline_generate wo (later time) w.2 w0 z (z, w) (conj (conj eq_refl Hw) (Z.le_refl _))) as Hg.
      destruct (GenerateId (z, w)) as [[] ?]; [apply Hg|]. by destruct Hg as [[[_ ?] _] _].
    - intros id. cbv zeta. uphold; apply upholds_zoom; intros [z w] Hw; cbn [fst snd] in *.
      + etrans; [exact Hw|]. apply (moves_state (later time)), (moves_sign wo (later time)).
      + etrans; [exact Hw|]. apply (moves_state (later time)), (moves_perform wo (later time)). }
  apply upholds_zoom. intros [c a [w log] ef] Hs. cbn [OkxWsClient.app OkxWsClient.world OkxWsClient.client OkxWsClient.effects] in *.
  pose proof (upholds_state _ _ (last_id a, (w, log)) (Hp w) (Z.le_refl _)) as Hw.
  destruct (PlaceOrder rest auth request _) as [r [z [w' log']]]. cbn [fst snd] in *.
  exact (paced_move t0 r0 n a (w, log) (w', log') Hw Hs).
Qed.
Lemma paced_start t0 r0 :
  triple (I t0 r0 1) (λ _, I t0 r0 0) (I t0 r0 0) (WsOrderRoundTrip.Start freq rest auth).
Proof using Clocked0.
  assert (∀ s, I t0 r0 1 s → I t0 r0 0 s) as Hw by (intros s; apply paced_weaken; lia).
  pose proof (paced_stable t0 r0 1) as Hst.
  unfold WsOrderRoundTrip.Start, WsOrderRoundTrip.ask_trip, WsOrderRoundTrip.IsConnected.
  eapply triple_keep; [apply up_read|by apply yields_any|done|]. intros connected _.
  eapply triple_keep; [apply up_see|by apply yields_any|done|]. intros rq _. destruct connected; cbn [negb].
  - eapply triple_keep; [apply paced_ids|apply yields_zoom, yields_placement|done|]. intros o Ho.
    eapply triple_keep; [by apply up_change|by apply yields_any|done|]. intros [] _.
    eapply triple_keep; [apply paced_add|by apply yields_any|done|]. intros [] _.
    eapply triple_bind; [by apply paced_send|]. intros []. apply triple_upholds; [by apply up_change|done].
  - apply (triple_weaken _ (λ _, I t0 r0 1) _ (I t0 r0 1)); [|by intros _|done].
    apply triple_upholds; [|done]. apply upholds_bind; [apply paced_place_order|]. intros result. uphold.
    + by apply up_change.
    + apply (up_fall_back wo (later time) rest auth _ Hst).
Qed.
Lemma paced_remove t0 r0 n id : upholds (I t0 r0 n) any (WsOrderRoundTrip.Remove id).
Proof.
  unfold WsOrderRoundTrip.Remove. apply upholds_bind; [apply paced_store|].
  intros [|]; [apply paced_update|apply upholds_ret].
Qed.
Lemma paced_reconcile t0 r0 n p : upholds (I t0 r0 n) any (Engine.Reconcile clock p).
Proof.
  unfold Engine.Reconcile. apply upholds_bind; [apply paced_store|]. intros ids.
  apply upholds_visit. intros id. apply paced_update.
Qed.
Lemma paced_login t0 r0 m : upholds (I t0 r0 0) any (Engine.HandleLoginEvent freq rest auth clock m).
Proof using Clocked0.
  assert (∀ s, I t0 r0 1 s → I t0 r0 0 s) as Hw by (intros s; apply paced_weaken; lia).
  pose proof (paced_stable t0 r0 1) as Hst.
  apply upholds_triple. unfold Engine.HandleLoginEvent. cbv zeta. case_decide; [by apply triple_ret|].
  eapply triple_bind.
  { intros s Hs. unfold Send, request, change, on_app, modify, zoom, mbind, M_bind.
    apply (triple_upholds (I t0 r0 1) (I t0 r0 0)); [|done|].
    - apply (up_send_raw wo (later time) rest _ Hst). intros t. apply (up_trace (later time) freq rest _ Hst).
    - apply (paced_quiet _ _ 0); [by left|done]. }
  intros []. eapply triple_keep; [apply (up_pending wo (later time) rest auth _ Hst)|by apply yields_any|done|]. intros p _.
  eapply triple_keep; [apply paced_reconcile|by apply yields_any|done|]. intros [] _.
  eapply triple_keep; [apply up_see|by apply yields_any|done|]. intros [|] _; [by apply triple_ret|].
  eapply triple_keep; [apply up_see|by apply yields_any|done|]. intros st _.
  eapply triple_keep; [apply up_see|by apply yields_any|done|]. intros rq _.
  eapply triple_keep; [apply upholds_lift_any|by apply yields_any|done|]. intros [|] _; [apply paced_start|by apply triple_ret].
Qed.

(** *** The kill switch *)
Lemma paced_trigger t0 r0 n : upholds (I t0 r0 n) any (Engine.Trigger rest auth).
Proof using Clocked0.
  unfold Engine.Trigger. apply upholds_bind; [apply up_see|]. intros store.
  apply upholds_zoom. intros [c a w ef] Hs. cbn [OkxWsClient.app OkxWsClient.world OkxWsClient.client OkxWsClient.effects] in *.
  assert (later time w.1 (KillSwitch.Trigger rest auth store (kill_switch_ a, w)).2.2.1) as Hw;
    [|exact (paced_move t0 r0 n a w _ Hw Hs)].
  unfold KillSwitch.Trigger, mbind, M_bind, get, put, lift, zoom. cbn [fst snd].
  destruct (KillSwitch.triggered_ _); [done|]. destruct (OrderStore.ForEach _ _ _) as [[[]|x] l]; [|done]. cbn [fst snd].
  pose proof (moves_state (later time) _ w (moves_cancel_all wo (later time) rest auth l)) as Hm.
  by destruct (KillSwitch.cancel_all rest auth l w).
Qed.
Lemma paced_fill t0 r0 n side fill : upholds (I t0 r0 n) any (Engine.apply_fill rest auth side fill).
Proof using Clocked0.
  unfold Engine.apply_fill. apply upholds_bind; [by apply up_change|]. intros _.
  apply upholds_bind; [apply up_see|]. intros [|]; [apply paced_trigger|apply upholds_ret].
Qed.
Lemma paced_run t0 r0 es : upholds (I t0 r0 0) any (Engine.run freq rest auth clock es).
Proof using Clocked0.
  apply (up_run wo (later time)); [apply paced_stable|apply paced_trigger|apply paced_fill|intros; apply paced_store
    |apply paced_remove|apply paced_reconcile|right; intros ? ? ? ?; apply paced_place_into|apply paced_login].
Qed.

(** The state of the limiter is enough to start with. *)
Lemma paced_from a w hist :
  limits (time w.1) (EndpointRateLimiter.order_limiter_ (rate_limiter_ a)) hist → paced (time w.1) (requests a) 0 a w.
Proof.
  intros Hl. split; [done|]. exists hist, [], [], []. split; [done|]. rewrite app_nil_r.
  repeat (split; [done|]). simpl. lia.
Qed.
Lemma limits_make now : limits now (SlidingWindowLimiter.make Engine.kOrderRateLimit.1 Engine.kOrderRateLimit.2) [].
Proof.
  exists now. split; [|split; [done|split; [done|split; [done|]]]].
  - exists [], []. split; [done|]. split; [apply SlidingWindowLimiter.held_make|]. split; [done|]. repeat constructor.
  - intros T. apply Nat.le_0_l.
Qed.
End rate.

(** ** The property *)

(** C9. In a run of the engine, from its start and through any events, take
    any stretch (the events [es] after the events [before]) that is no longer
    than the window of the limit on placements, two seconds: the messages
    handed to the private connection in it are orders and messages that place
    none (the subscription, amendments, cancellations), and the orders are at
    most sixty, and one more for each subscription, that is for each login,
    whose test order the limiter does not see. *)
Theorem placements_limited {W} (wo : World W) (time : W → Z) `{!Clocked wo time} `{!ToChars} freq rest auth clock
    before es mode code tick request stats last app c (w : W) log effects :
  Engine.make mode code tick request stats last = Ok app →
  let run es s := (@Engine.run _ (recording wo) _ freq rest auth clock es s).2 in
  let s1 := run before (OkxWsClient.MkSt c app (w, log) effects) in
  let s2 := run es s1 in
  (time (OkxWsClient.world s2).1 - time (OkxWsClient.world s1).1 ≤ Engine.kOrderRateLimit.2)%Z →
  ∃ new orders others, requests (OkxWsClient.app s2) = requests (OkxWsClient.app s1) ++ new ∧
    new ≡ₚ orders ++ others ∧ Forall order_request orders ∧ Forall quiet_request others ∧
    length orders ≤ Engine.kOrderRateLimit.1 + logins others.
Proof.
  intros Hmake run s1 s2 Htime. set (s0 := OkxWsClient.MkSt c app (w, log) effects) in *.
  assert (limits (time w) (EndpointRateLimiter.order_limiter_ (rate_limiter_ app)) []) as H0.
  { unfold Engine.make in Hmake. destruct (NaiveQuoter.make _ _ _ _ _ _); [|done]. injection Hmake as <-. apply limits_make. }
  assert (obeys (paced time (time w) (requests app) 0) s1) as (_ & hist1 & ? & ? & ? & H1 & _).
  { refine (upholds_state _ _ s0 (paced_run wo time freq rest auth clock _ _ before) _).
    exact (paced_from time app (w, log) [] H0). }
  assert (obeys (paced time (time (OkxWsClient.world s1).1) (requests (OkxWsClient.app s1)) 0) s2)
    as (Ht & hist & orders & others & new & (now & Hl & Hnow & _ & _ & Hb) & Hr & Hp & Ho & Hn & Hc).
  { refine (upholds_state _ _ s1 (paced_run wo time freq rest auth clock _ _ es) _). by apply (paced_from _ _ _ hist1). }
  exists new, orders, others. repeat (split; [done|]). etrans; [|apply Nat.add_le_mono_r].
  - rewrite Nat.add_0_r in Hc. exact Hc.
  - specialize (Hb (time (OkxWsClient.world s2).1)). etrans; [|exact Hb]. unfold SlidingWindowLimiter.between.
    pose proof (linked_le _ _ _ Hl) as Hall. clear - Hall Htime Hnow. induction Hall as [|x l Hx _ IH]; [done|].
    rewrite !filter_cons. repeat case_decide; simpl in *; lia.
Qed.

#[export] Instance clocked_sample now reply : Clocked (sample_world now reply) (λ _, now).
Proof.
  split; [split|intros w; simpl; lia]; try (intros; unfold later; simpl; lia).
  split; [by intros w; unfold later|]. intros w1 w2 w3. unfold later. lia.
Qed.

Lemma run_nil {W} `{!World W} `{!ToChars} freq rest auth clock (s : OkxWsClient.St App W) :
  (Engine.run freq rest auth clock [] s).2 = s.
Proof.
  cbn [Engine.run]. unfold see, mbind, M_bind, get. cbn [mret M_ret].
  by destruct (Engine.stopped (OkxWsClient.app s)).
Qed.
Lemma placements_limited_witness :
  ∃ app new orders others, sample_made = Ok app ∧
    requests (sample_quoting [("3001", "3000")]%string app) = requests app ++ new ∧
    new ≡ₚ orders ++ others ∧ Forall order_request orders ∧ Forall quiet_request others ∧
    length orders ≤ 60 + logins others.
Proof.
  destruct sample_made as [app|x] eqn:E; [|vm_compute in E; discriminate E].
  destruct (placements_limited (H:=sample_chars) (sample_world 5000000000 []) (λ _, 5000000000%Z) 1000000000 sample_rest sample_auth
    (λ _, 0%Z) [] (sample_events [("3001", "3000")]%string) kJsonBook 42 (str "0.01") sample_request
    TickToTradeStats.empty 0 app sample_client tt [] [] E) as (new & orders & others & Hn & Hrest); [vm_compute; discriminate|].
  exists app, new, orders, others. split; [reflexivity|]. split; [|exact Hrest].
  cbv zeta in Hn. rewrite run_nil in Hn. exact Hn.
Defined.
