(* ===== verification/TestOrder.v ===== *)
(** * The life of the test order

    [WsOrderRoundTrip] (okx/orders/ws_order_round_trip.cpp) and
    [WsResponseDemux] (okx/connectivity/ws_response_demux.cpp) together: what
    is sent, tracked and stored from the placement of the test order to the
    answer to its cancellation. *)

From S2P Require Import Prelude Float64 Json Rules Okx PriceText Perf OrderBook OrderLifecycle OrderStore.
From S2P Require Import World OrderEntry RingBuffer WebSocketFrame WsClient RateLimiter Risk Quoter RoundTrip Engine.
From S2P Require Import EngineInvariants QuoterSlots Quotes.

(** ** Exact runs

    Sending a message may complete traces, which changes the statistics; all
    other members are followed exactly. *)
Definition frame (a : App) : App := set_stats TickToTradeStats.empty a.

Section exact.
Context {W : Type} `{!World W} (freq : Z) (rest : RestClient) (auth : OkxAuth).
Notation S := (OkxWsClient.St App W).
Context (Hfreq : (0 < freq)%Z).
Context (Hrand : ∀ w : W, ∃ key, (RAND_bytes 4 w).1 = Some key ∧ length key = 4).
Context (Hclock : ∀ w : W, (Z.quot (system_clock_now w).1 1000000 < 2 ^ 61)%Z).
Notation succeeds P Q m := (triple P Q (λ _, False) m).

(** The members are [a]; the connection is up, and [n] bytes of its ring are
    free. *)
Definition line (n : nat) (s : S) : Prop :=
  let c := OkxWsClient.client s in
  TickToTradeStats.tallied (tick_to_trade_stats_ (OkxWsClient.app s)) ∧
  RingBuffer.wf OkxWsClient.kTxRingCapacity (OkxWsClient.tx_ring_ c) ∧
  RingBuffer.size_ (OkxWsClient.tx_ring_ c) + n ≤ OkxWsClient.kTxRingCapacity ∧
  OkxWsClient.transport_ c = true.
Definition on_line (a : App) (n : nat) (s : S) : Prop := frame (OkxWsClient.app s) = frame a ∧ line n s.

Lemma line_weaken a n n' s : n' ≤ n → on_line a n s → on_line a n' s.
Proof. intros Hn (Ha & ? & ? & ? & ?). split; [done|]. repeat (split; [done|]). split; [lia|done]. Qed.
Lemma line_ask {A} a n (f : W → A * W) : succeeds (on_line a n) (λ _, on_line a n) (OkxWsClient.on_world (ask f)).
Proof. intros s Hs. unfold OkxWsClient.on_world, zoom, ask. by destruct (f _). Qed.
Lemma line_see {A B} a n (f : App → A) (k : A → M S B) Q E :
  (∀ a, f (frame a) = f a) → triple (on_line a n) Q E (k (f a)) → triple (on_line a n) Q E (see f ≫= k).
Proof.
  intros Hf Hk s Hs. unfold see, mbind, M_bind, get. cbn [mret M_ret].
  rewrite <-(Hf (OkxWsClient.app s)), (proj1 Hs), Hf. by apply Hk.
Qed.
Lemma line_change a n f :
  (∀ a, frame (f a) = f (frame a)) → (∀ a, tick_to_trade_stats_ (f a) = tick_to_trade_stats_ a) →
  succeeds (on_line a n) (λ _, on_line (f a) n) (change f).
Proof.
  intros Hf Hst s (Ha & Ht & Hrest). split; [|split; [|done]]; cbn [OkxWsClient.app].
  - by rewrite !Hf, Ha.
  - by rewrite Hst.
Qed.
Lemma line_store {A} a n (m : M OrderStore.t A) x st :
  m (order_store_ a) = (Ok x, st) → succeeds (on_line a n) (λ y s, y = x ∧ on_line (set_store st a) n s) (on_store m).
Proof.
  intros Hm [c b w ef] (Ha & Hrest). cbn [OkxWsClient.app OkxWsClient.client] in *.
  assert (order_store_ b = order_store_ a) as Hs by exact (f_equal order_store_ Ha).
  unfold on_store, on_app, zoom. cbn [OkxWsClient.app]. rewrite Hs, Hm. split; [done|]. split; [|done].
  cbn [OkxWsClient.app]. destruct a, b. unfold frame, set_stats, set_store in *. cbn in *. congruence.
Qed.

(** *** Ids *)
Lemma line_ids a n B (m : M (Z * W) WsOrderRequest) (text : list Z → list Z) :
  (∀ st, m st = (id ← GenerateId; mret (MkWsOrder id (text id))) st) →
  (0 ≤ last_id a < B)%Z → (2 ^ 61 ≤ B < 2 ^ 62)%Z →
  succeeds (on_line a n)
    (λ o s, ∃ z, (last_id a < z < B + 1)%Z ∧ o = MkWsOrder (to_string z) (text (to_string z)) ∧
      on_line (set_last_id z a) n s) (on_ids m).
Proof using Hclock.
  intros Hm Hl HB [c b w ef] (Ha & Hrest). cbn [OkxWsClient.app OkxWsClient.client] in *.
  assert (last_id b = last_id a) as Hid by exact (f_equal last_id Ha).
  unfold on_ids, zoom. rewrite Hm. cbn [OkxWsClient.app OkxWsClient.world].
  unfold GenerateId, OrderEntry.on_world, ask, zoom, mbind, M_bind, get, put. cbn [fst snd].
  pose proof (Hclock w) as Hnow. destruct (system_clock_now w) as [now w1]. cbn [fst snd] in *.
  rewrite Hid, (proj2 (Z.leb_gt _ _)) by lia. cbn [mret M_ret].
  eexists. split; [|split; [reflexivity|]]; [lia|]. split; [|done].
  cbn [OkxWsClient.app fst]. destruct a, b. unfold frame, set_stats, set_last_id in *. cbn in *. congruence.
Qed.

(** *** Sending *)
Lemma line_resolve a n t l :
  succeeds (on_line a n) (λ _, on_line a n) (OkxWsClient.resolve_traces (on_trace_resolved freq) t l).
Proof using Hfreq.
  induction l as [|tr l IH]; cbn [OkxWsClient.resolve_traces]; [by apply triple_ret|].
  eapply (triple_bind _ (λ _, on_line a n)); [by intros s Hs|]. intros [].
  eapply (triple_bind _ (λ _, on_line a n)); [|by intros []].
  intros [c b w ef] (Ha & Hst & Hrest). unfold on_trace_resolved, on_app, zoom, runS. cbn [OkxWsClient.app] in *.
  destruct (TickToTradeStats.Record_tallied freq (OkxWsClient.set_send_ticks t tr) _ Hfreq Hst) as (st & -> & Hst').
  split; [|done]. cbn [OkxWsClient.app]. by rewrite <-Ha.
Qed.
Lemma line_start_write a n :
  succeeds (on_line a n) (λ _, on_line a n) (OkxWsClient.StartWrite (on_trace_resolved freq)).
Proof using Hfreq.
  unfold OkxWsClient.StartWrite.
  eapply (triple_bind _ (λ _, on_line a n)); [by intros s Hs|]. intros [|]; cbn [negb]; [|by apply triple_ret].
  eapply triple_bind; [apply line_ask|]. intros t.
  eapply (triple_bind _ (λ _, on_line a n)); [by intros s Hs|]. intros l.
  eapply triple_bind; [apply line_resolve|]. intros [].
  eapply (triple_bind _ (λ _, on_line a n)); [by intros s Hs|]. intros [].
  eapply (triple_bind _ (λ _, on_line a n)); [by intros s Hs|]. intros ring. by intros s Hs.
Qed.
Lemma line_send a n m :
  (Z.of_nat (length m) < 2 ^ 64)%Z →
  succeeds (on_line a (length m + 14 + n)) (λ _, on_line (set_requests (requests a ++ [PrivateSend m]) a) n)
    (Send freq m None).
Proof using Hfreq Hrand.
  intros Hm. unfold Send, request. set (a' := set_requests _ a).
  eapply triple_bind; [by apply (line_change a _ (λ a, set_requests (requests a ++ [PrivateSend m]) a))|]. intros [].
  unfold OkxWsClient.Send, OkxWsClient.WriteRaw.
  apply (triple_bind _ (λ f s, length f ≤ length m + 14 ∧ on_line a' (length m + 14 + n) s)).
  { intros [c b w ef] Hs. unfold OkxWsClient.with_mask, OkxWsClient.on_world, ask, zoom, mbind, M_bind, lift.
    cbn [OkxWsClient.world]. destruct (Hrand w) as (key & Hkey & Hlen).
    destruct (length_frame key WebSocketFrame.kText m Hlen Hm) as (f & Hf & Hfl).
    destruct (RAND_bytes 4 w) as [x w1]. cbn [fst] in Hkey. subst x. rewrite Hf. by split. }
  intros f s [Hf Hs]. revert s Hs. apply (triple_bind _ (λ _, on_line a' n)).
  { intros [c b w ef] (Ha & Hst & Hwf & Hn & Hup). cbn [OkxWsClient.client] in *. unfold OkxWsClient.on_client, zoom.
    cbn [OkxWsClient.client].
    destruct (RingBuffer.Write_spec OkxWsClient.kTxRingCapacity (OkxWsClient.tx_ring_ c) f Hwf) as (ring & -> & Hwf' & Hs & _); [lia|].
    split; [done|]. split; [done|]. split; [done|]. split; [|done]. cbn. rewrite Hs. lia. }
  intros []. eapply (triple_bind _ (λ _, on_line a' n)); [by intros s Hs|]. intros [].
  eapply (triple_bind _ (λ _, on_line a' n)); [by intros s Hs|]. intros in_flight.
  eapply (triple_bind _ (λ _, on_line a' n)); [by intros s Hs|]. intros batching.
  destruct (_ && _); [apply line_start_write|by apply triple_ret].
Qed.

(** *** The store *)
Definition stores (a : App) (m : gmap (list Z) Order.t) : Prop :=
  ∃ os, OrderStore.wf (order_store_ a) os ∧ OrderStore.orders os = m.
Lemma line_add a n m id inst side px sz :
  stores a m → m !! id = None → base.size m < OrderStore.kCapacity →
  succeeds (on_line a n)
    (λ _ s, ∃ now st, stores (set_store st a) (<[id := Order.make now id inst side px sz]> m) ∧ on_line (set_store st a) n s)
    (Quoter.Add id inst side px sz).
Proof.
  intros (os & Hwf & <-) Hid Hsize. unfold Quoter.Add. eapply triple_bind; [apply line_ask|]. intros now.
  assert (length os < OrderStore.kCapacity) as Hl by (rewrite <-OrderStore.orders_size; [done|apply Hwf]).
  destruct (OrderStore.Add_spec _ os Hwf now id inst side px sz Hid Hl) as (st & os' & HA & Hwf' & Ho & _).
  eapply triple_weaken; [by apply line_store|simpl|done]. intros u s [_ Hs]. exists now, st. split; [|done]. by exists os'.
Qed.
(** [GetOrder] finds the slot of the order; an operation on the slot. *)
Definition in_slot (a : App) (m : gmap (list Z) Order.t) (id : list Z) (o : Order.t) (i : nat) : Prop :=
  ∃ os, OrderStore.wf (order_store_ a) os ∧ OrderStore.orders os = m ∧ os !! i = Some o ∧ OrderStore.cl o = id.
Lemma line_get_order {A} a n m o (k : nat → M S A) Q E :
  stores a m → m !! rt_cl_ord_id_ (order_round_trip_ a) = Some o →
  (∀ i, in_slot a m (rt_cl_ord_id_ (order_round_trip_ a)) o i → triple (on_line a n) Q E (k i)) →
  triple (on_line a n) Q E (WsOrderRoundTrip.GetOrder ≫= k).
Proof.
  intros (os & Hwf & <-) Ho Hk. set (id := rt_cl_ord_id_ (order_round_trip_ a)) in *.
  destruct (OrderStore.FindByClOrdId_orders _ os Hwf id o Ho) as (i & Hr & Hi & Hcl).
  apply (triple_bind _ (λ y s, y = i ∧ on_line a n s)).
  - unfold WsOrderRoundTrip.GetOrder, WsOrderRoundTrip.ask_trip. apply line_see; [done|]. apply line_see; [done|].
    fold id. intros s Hs. unfold mbind, M_bind, lift. rewrite Hr. by split.
  - intros y s [-> Hs]. revert s Hs. apply Hk. by exists os.
Qed.
Lemma line_with {A} a n m id o o' i (f : M Order.t unit) (k : unit → M S A) Q E :
  in_slot a m id o i → f o = (Ok tt, o') → OrderStore.cl o' = OrderStore.cl o →
  (∀ st, stores (set_store st a) (<[id := o']> m) → triple (on_line (set_store st a) n) Q E (k tt)) →
  triple (on_line a n) Q E (on_store (OrderStore.with_order i f) ≫= k).
Proof.
  intros (os & Hwf & <- & Hi & <-) Hf Hcl Hk.
  destruct (OrderStore.with_order_spec _ os Hwf i o f Hi) as (st & os' & Hw & Hwf' & Ho' & _); [by rewrite Hf|].
  rewrite Hf in Hw, Ho'. cbn [fst snd] in *. apply (triple_bind _ (λ _, on_line (set_store st a) n)).
  - eapply triple_weaken; [by apply line_store|simpl|done]. by intros u s [].
  - intros []. apply Hk. by exists os'.
Qed.

(** ** The stages *)

(** The members that the round trip leaves alone. *)
Definition untouched (a0 a : App) : Prop :=
  kill_switch_ a = kill_switch_ a0 ∧ rate_limiter_ a = rate_limiter_ a0 ∧ quoter_ a = quoter_ a0 ∧
  account_state_ a = account_state_ a0 ∧ position_ a = position_ a0 ∧ market_data_ a = market_data_ a0.
(** Since the members were [a0], the messages [sent] have been sent; these
    responses are awaited; this is the state of the round trip; and the store
    holds [m]. *)
Definition members (a0 : App) (sent : list (list Z)) (pending : Pending) (trip : RoundTripState)
    (m : gmap (list Z) Order.t) (last : Z) (a : App) : Prop :=
  requests a = requests a0 ++ (PrivateSend <$> sent) ∧ ws_demux_ a = pending ∧ order_round_trip_ a = trip ∧
  stores a m ∧ last_id a = last ∧ untouched a0 a.
Definition stage a0 sent pending trip m last n (s : S) : Prop :=
  line n s ∧ members a0 sent pending trip m last (OkxWsClient.app s).

Lemma stage_intro a0 sent pending trip m last n a s :
  members a0 sent pending trip m last a → on_line a n s → stage a0 sent pending trip m last n s.
Proof.
  intros Ha [Hf Hl]. split; [done|].
  assert (members a0 sent pending trip m last (frame (OkxWsClient.app s))) as H by (by rewrite Hf). exact H.
Qed.
(** From a stage on: the members are some [a]. *)
Lemma stage_elim {A} a0 sent pending trip m last n (Q : A → S → Prop) E c :
  (∀ a, members a0 sent pending trip m last a → triple (on_line a n) Q E c) →
  triple (stage a0 sent pending trip m last n) Q E c.
Proof. intros Hc s [Hl Ha]. by apply (Hc _ Ha). Qed.
Lemma line_connected {A} a n (k : bool → M S A) Q E :
  triple (on_line a n) Q E (k true) → triple (on_line a n) Q E (WsOrderRoundTrip.IsConnected ≫= k).
Proof.
  intros Hk s Hs. pose proof Hs as (_ & _ & _ & _ & Hup).
  unfold WsOrderRoundTrip.IsConnected, OkxWsClient.read, mbind, M_bind, get. cbn [mret M_ret]. rewrite Hup. by apply Hk.
Qed.

Lemma build_limit rq (st : Z * W) :
  rq_ord_type rq = kLimit →
  BuildWsOrderMessage rq st = (id ← GenerateId; mret (MkWsOrder id
    (order_text id (rq_inst_id_code rq) (rq_side rq) (rq_px rq) (rq_sz rq)))) st.
Proof.
  intros Ht. unfold BuildWsOrderMessage, mbind, M_bind. destruct (GenerateId st) as [[id|] st']; [|done].
  unfold lift, FormatOrderArg. rewrite Ht. by case_decide.
Qed.
(** The bytes of the three messages in the ring; an id of the exchange has at
    most 64 bytes. *)
Definition order_size (rq : OrderRequest) : nat :=
  length (order_text [] (rq_inst_id_code rq) (rq_side rq) (rq_px rq) (rq_sz rq)) + 2 * 19 + 14.
Definition amend_size (rq : OrderRequest) : nat :=
  length (amend_text [] (rq_inst_id_code rq) [] WsOrderRoundTrip.kSmokeTestAmendPx (rq_sz rq)) + 19 + 64 + 14.
Definition cancel_size (rq : OrderRequest) : nat := length (cancel_text [] (rq_inst_id_code rq) []) + 19 + 64 + 14.

Lemma start_stage a0 sent rq x y m last B n :
  rq_ord_type rq = kLimit → (0 ≤ last < B)%Z → (2 ^ 61 ≤ B < 2 ^ 62)%Z → (Z.of_nat (order_size rq) < 2 ^ 62)%Z →
  (∀ z, (last < z)%Z → m !! to_string z = None) → base.size m < OrderStore.kCapacity →
  succeeds (stage a0 sent ∅ (MkRoundTrip rq x y) m last (order_size rq + n))
    (λ _ s, ∃ z now, (last < z < B + 1)%Z ∧
       let id := to_string z in
       stage a0 (sent ++ [order_text id (rq_inst_id_code rq) (rq_side rq) (rq_px rq) (rq_sz rq)])
         {[id := OrderResponse]} (MkRoundTrip rq x id)
         (<[id := Order.make now id (rq_inst_id rq) (rq_side rq) (rq_px rq) (rq_sz rq)]> m) z n s)
    (WsOrderRoundTrip.Start freq rest auth).
Proof using Hfreq Hrand Hclock.
  intros Ht Hlast HB Hsize Hfresh Hroom. apply stage_elim. intros a (Hr & Hp & Htrip & Hst & Hid & Hun).
  unfold WsOrderRoundTrip.Start, WsOrderRoundTrip.ask_trip. apply line_connected. apply line_see; [done|].
  rewrite Htrip. cbn [order_request_ negb].
  eapply triple_bind; [apply (line_ids a _ B); [intros st; by apply build_limit|by rewrite Hid|done]|].
  intros o s (z & Hz & -> & Hs). revert s Hs. cbn [wo_id wo_message]. rewrite Hid in Hz.
  set (id := to_string z). set (a1 := set_last_id z a).
  eapply triple_bind; [by apply (line_change a1 _ (λ a, set_round_trip (MkRoundTrip (order_request_ (order_round_trip_ a))
    (rt_ord_id_ (order_round_trip_ a)) id) a))|]. intros [].
  eapply triple_bind; [apply (line_add _ _ m); [exact Hst|apply Hfresh; lia|done]|].
  intros [] s (now & st & Hst' & Hs). revert s Hs. set (a2 := set_store st _) in *.
  assert (length (order_text id (rq_inst_id_code rq) (rq_side rq) (rq_px rq) (rq_sz rq)) + 14 ≤ order_size rq) as Hlen.
  { rewrite length_order_text. pose proof (length_to_string z ltac:(lia)). unfold order_size, id. lia. }
  eapply triple_bind.
  { intros s Hs. eapply (line_send a2 n); [lia|]. eapply line_weaken; [|exact Hs]. lia. }
  intros []. eapply triple_weaken; [by apply line_change|simpl|done].
  intros [] s Hs. exists z, now. split; [lia|]. eapply stage_intro; [|exact Hs].
  split; [|split; [|split; [|split; [|split]]]]; cbn.
  - by rewrite Hr, fmap_app, app_assoc.
  - by rewrite Hp.
  - by rewrite Htrip.
  - exact Hst'.
  - done.
  - exact Hun.
Qed.

(** What a response says. *)
Definition names (id : list Z) (v : string_view) : Prop := sv_text <$> json.FindString v kId = Some id.
Definition gives (ord_id : list Z) (v : string_view) : Prop :=
  IsRequestAccepted v = true ∧ length ord_id ≤ 64 ∧
  sv_text <$> (data ← FindData v; json.FindString data kOrdId) = Some ord_id.

Lemma length_amend_text id code ord px sz :
  length (amend_text id code ord px sz) = length (amend_text [] code [] px sz) + length id + length ord.
Proof. unfold amend_text. rewrite !length_app. cbn [length]. lia. Qed.
Lemma length_cancel_text id code ord :
  length (cancel_text id code ord) = length (cancel_text [] code []) + length id + length ord.
Proof. unfold cancel_text. rewrite !length_app. cbn [length]. lia. Qed.
(** A request is built and sent, and its response awaited. *)
Lemma request_stage a0 sent trip m last B n a (build : M (Z * W) WsOrderRequest) text size h :
  members a0 sent ∅ trip m last a → (0 ≤ last < B)%Z → (2 ^ 61 ≤ B < 2 ^ 62)%Z →
  (∀ st, build st = (id ← GenerateId; mret (MkWsOrder id (text id))) st) →
  (∀ z, (0 < z < 2 ^ 63)%Z → length (text (to_string z)) + 14 ≤ size) → (Z.of_nat size < 2 ^ 62)%Z →
  succeeds (on_line a (size + n))
    (λ _ s, ∃ z, (last < z < B + 1)%Z ∧
       stage a0 (sent ++ [text (to_string z)]) {[to_string z := h]} trip m z n s)
    (x ← on_ids build; _ ← Send freq (wo_message x) None; WsOrderRoundTrip.Track (wo_id x) h).
Proof using Hfreq Hrand Hclock.
  intros (Hr & Hp & Htrip & Hst & Hid & Hun) Hlast HB Hb Hlen Hsize.
  eapply triple_bind; [apply (line_ids a _ B); [exact Hb|by rewrite Hid|done]|].
  intros o s (z & Hz & -> & Hs). revert s Hs. cbn [wo_id wo_message]. rewrite Hid in Hz.
  specialize (Hlen z ltac:(lia)). set (a1 := set_last_id z a).
  eapply triple_bind.
  { intros s Hs. eapply (line_send a1 n); [lia|]. eapply line_weaken; [|exact Hs]. lia. }
  intros []. eapply triple_weaken; [by apply line_change|simpl|done].
  intros [] s Hs. exists z. split; [lia|]. eapply stage_intro; [|exact Hs].
  split; [|split; [|done]]; cbn.
  - by rewrite Hr, fmap_app, app_assoc.
  - by rewrite Hp.
Qed.
Lemma order_response_stage a0 sent rq x id m o o' last B n v ord :
  (0 ≤ last < B)%Z → (2 ^ 61 ≤ B < 2 ^ 62)%Z → (Z.of_nat (amend_size rq) < 2 ^ 62)%Z → gives ord v →
  m !! id = Some o → (∀ now, Order.OnAmendRequested now o = (Ok tt, o' now) ∧ OrderStore.cl (o' now) = OrderStore.cl o) →
  succeeds (stage a0 sent ∅ (MkRoundTrip rq x id) m last (amend_size rq + n))
    (λ _ s, ∃ z now, (last < z < B + 1)%Z ∧
       stage a0 (sent ++ [amend_text (to_string z) (rq_inst_id_code rq) ord WsOrderRoundTrip.kSmokeTestAmendPx (rq_sz rq)])
         {[to_string z := AmendResponse]} (MkRoundTrip rq ord id) (<[id := o' now]> m) z n s)
    (WsOrderRoundTrip.OnOrderResponse freq rest auth v).
Proof using Hfreq Hrand Hclock.
  intros Hlast HB Hsize (Hacc & Hord & Hgives) Hm Ho. apply stage_elim. intros a (Hr & Hp & Htrip & Hst & Hid & Hun).
  unfold WsOrderRoundTrip.OnOrderResponse. rewrite Hacc. cbn [negb]. cbv zeta.
  destruct (data ← FindData v; json.FindString data kOrdId) as [w|]; [|done]. injection Hgives as Hw. rewrite Hw.
  eapply triple_bind; [by apply (line_change a _ (λ a, set_round_trip (MkRoundTrip (order_request_ (order_round_trip_ a))
    ord (rt_cl_ord_id_ (order_round_trip_ a))) a))|]. intros []. set (a1 := set_round_trip _ a).
  apply line_connected. cbn [negb].
  assert (rt_cl_ord_id_ (order_round_trip_ a1) = id) as Hcl by (cbn; by rewrite Htrip).
  eapply line_get_order; [exact Hst|by rewrite Hcl|]. intros i Hi. rewrite Hcl in Hi.
  eapply triple_bind; [apply line_ask|]. intros now. destruct (Ho now) as [Ho1 Ho2].
  eapply line_with; [exact Hi|exact Ho1|exact Ho2|]. intros st Hst'. apply line_see; [done|].
  cbn [order_request_ order_round_trip_ set_store set_round_trip a1]. rewrite Htrip. cbn [order_request_].
  eapply triple_weaken; [eapply (request_stage a0 sent (MkRoundTrip rq ord id) (<[id := o' now]> m) last B n _ _
    (λ i, amend_text i (rq_inst_id_code rq) ord WsOrderRoundTrip.kSmokeTestAmendPx (rq_sz rq)))| |]; try done.
  - split; [exact Hr|]. split; [exact Hp|]. split; [|done]. cbn. by rewrite Htrip.
  - intros z Hz. rewrite length_amend_text. pose proof (length_to_string z Hz). unfold amend_size. lia.
  - intros _ s (z & Hz & Hs). by exists z, now.
Qed.
(** A rejected request takes the order back. *)
Lemma rejected_line a n m o o' Q E :
  stores a m → m !! rt_cl_ord_id_ (order_round_trip_ a) = Some o →
  Order.OnRequestRejected o = (Ok tt, o') → OrderStore.cl o' = OrderStore.cl o →
  (∀ st, stores (set_store st a) (<[rt_cl_ord_id_ (order_round_trip_ a) := o']> m) →
     ∀ s, on_line (set_store st a) n s → Q tt s) →
  triple (on_line a n) Q E WsOrderRoundTrip.request_rejected.
Proof.
  intros Hst Hm Ho Hcl HQ. unfold WsOrderRoundTrip.request_rejected.
  eapply line_get_order; [exact Hst|exact Hm|]. intros i Hi.
  eapply line_with; [exact Hi|exact Ho|exact Hcl|]. intros st Hst'.
  eapply line_get_order; [exact Hst'|apply lookup_insert_eq|]. intros j Hj. apply triple_ret. by apply HQ.
Qed.
Lemma amend_response_stage a0 sent rq ord id m o o1 o2 last B n v :
  (0 ≤ last < B)%Z → (2 ^ 61 ≤ B < 2 ^ 62)%Z → (Z.of_nat (cancel_size rq) < 2 ^ 62)%Z → length ord ≤ 64 →
  m !! id = Some o →
  (if IsRequestAccepted v then o1 = o else Order.OnRequestRejected o = (Ok tt, o1) ∧ OrderStore.cl o1 = OrderStore.cl o) →
  (∀ now, Order.OnCancelRequested now o1 = (Ok tt, o2 now) ∧ OrderStore.cl (o2 now) = OrderStore.cl o1) →
  succeeds (stage a0 sent ∅ (MkRoundTrip rq ord id) m last (cancel_size rq + n))
    (λ _ s, ∃ z now, (last < z < B + 1)%Z ∧
       stage a0 (sent ++ [cancel_text (to_string z) (rq_inst_id_code rq) ord])
         {[to_string z := CancelResponse]} (MkRoundTrip rq ord id) (<[id := o2 now]> m) z n s)
    (WsOrderRoundTrip.OnAmendResponse freq rest auth v).
Proof using Hfreq Hrand Hclock.
  intros Hlast HB Hsize Hord Hm Ho1 Ho2. unfold WsOrderRoundTrip.OnAmendResponse.
  apply (triple_bind _ (λ _, stage a0 sent ∅ (MkRoundTrip rq ord id) (<[id := o1]> m) last (cancel_size rq + n))).
  { apply stage_elim. intros a Ha. pose proof Ha as (Hr & Hp & Htrip & Hst & Hid & Hun).
    destruct (IsRequestAccepted v); cbn [negb].
    - subst o1. apply triple_ret. intros s Hs. rewrite insert_id by done. by eapply stage_intro.
    - destruct Ho1 as [Ho1 Hcl]. eapply rejected_line; [exact Hst|by rewrite Htrip|exact Ho1|exact Hcl|].
      intros st Hst' s Hs. rewrite Htrip in Hst'. by eapply stage_intro; [|exact Hs]. }
  intros []. apply stage_elim. intros a Ha. pose proof Ha as (Hr & Hp & Htrip & Hst & Hid & Hun).
  apply line_connected. cbn [negb].
  eapply line_get_order; [exact Hst|rewrite Htrip; apply lookup_insert_eq|]. intros i Hi. rewrite Htrip in Hi.
  eapply triple_bind; [apply line_ask|]. intros now. destruct (Ho2 now) as [Hc1 Hc2].
  eapply line_with; [exact Hi|exact Hc1|exact Hc2|]. intros st Hst'. apply line_see; [done|]. apply line_see; [done|].
  cbn [order_request_ order_round_trip_ set_store]. rewrite Htrip. cbn [order_request_ rt_ord_id_].
  rewrite insert_insert_eq in Hst'.
  eapply triple_weaken; [eapply (request_stage a0 sent (MkRoundTrip rq ord id) (<[id := o2 now]> m) last B n _ _
    (λ i, cancel_text i (rq_inst_id_code rq) ord))| |]; try done.
  - intros z Hz. rewrite length_cancel_text. pose proof (length_to_string z Hz). unfold cancel_size. lia.
  - intros _ s (z & Hz & Hs). by exists z, now.
Qed.
Lemma cancel_response_stage a0 sent rq ord id m o o1 last n v :
  m !! id = Some o →
  (if IsRequestAccepted v then o1 = o else Order.OnRequestRejected o = (Ok tt, o1) ∧ OrderStore.cl o1 = OrderStore.cl o) →
  succeeds (stage a0 sent ∅ (MkRoundTrip rq ord id) m last n)
    (λ _, stage a0 sent ∅ (MkRoundTrip rq ord id) (<[id := o1]> m) last n) (WsOrderRoundTrip.OnCancelResponse v).
Proof.
  intros Hm Ho1. unfold WsOrderRoundTrip.OnCancelResponse. apply stage_elim.
  intros a Ha. pose proof Ha as (Hr & Hp & Htrip & Hst & Hid & Hun). destruct (IsRequestAccepted v); cbn [negb].
  - subst o1. apply triple_ret. intros s Hs. rewrite insert_id by done. by eapply stage_intro.
  - destruct Ho1 as [Ho1 Hcl]. eapply rejected_line; [exact Hst|by rewrite Htrip|exact Ho1|exact Hcl|].
    intros st Hst' s Hs. rewrite Htrip in Hst'. by eapply stage_intro; [|exact Hs].
Qed.

(** The response that is awaited reaches its handler, and is awaited no more. *)
Lemma dispatch_stage a0 sent id h trip m last n v (Q E : S → Prop) :
  names id v →
  triple (stage a0 sent ∅ trip m last n) (λ _, Q) E (WsOrderRoundTrip.run_handler freq rest auth h v) →
  triple (stage a0 sent {[id := h]} trip m last n) (λ r s, r = true ∧ Q s) E
    (WsResponseDemux.Dispatch (WsOrderRoundTrip.run_handler freq rest auth) v).
Proof.
  intros Hv Hh. apply stage_elim. intros a Ha. pose proof Ha as (Hr & Hp & Hrest). unfold WsResponseDemux.Dispatch.
  apply line_see; [done|]. unfold WsResponseDemux.lookup_message.
  unfold names in Hv. destruct (json.FindString v kId) as [w|]; [|done]. injection Hv as Hv. rewrite Hv.
  assert (ws_demux_ a !! id = Some h) as -> by (rewrite Hp; apply (lookup_singleton_eq (M := gmap (list Z)))).
  cbn [mbind option_bind].
  assert (delete id (ws_demux_ a) = ∅) as -> by (rewrite Hp; apply (delete_singleton_eq (M := gmap (list Z)))).
  eapply triple_bind; [eapply triple_weaken; [by apply (line_change a _ (set_demux ∅))|intros ? s Hs; exact Hs|done]|]. intros [].
  apply (triple_bind _ (λ _, Q)); [|intros []; by apply triple_ret].
  intros s Hs. apply Hh. eapply stage_intro; [|exact Hs]. by split.
Qed.

(** *** Handlers that throw *)
(** Nothing but [sent] has been sent. *)
Definition only (a0 : App) (sent : list (list Z)) (s : S) : Prop :=
  requests (OkxWsClient.app s) = requests a0 ++ (PrivateSend <$> sent).
(** The order is not in the store; it refuses the request. *)
Lemma line_get_none {A} a n m (k : nat → M S A) Q :
  stores a m → m !! rt_cl_ord_id_ (order_round_trip_ a) = None →
  triple (on_line a n) Q (on_line a n) (WsOrderRoundTrip.GetOrder ≫= k).
Proof.
  intros (os & Hwf & <-) Ho s Hs. unfold WsOrderRoundTrip.GetOrder, WsOrderRoundTrip.ask_trip.
  revert s Hs. apply (triple_bind _ (λ _ _, False)); [|by intros i s []].
  apply line_see; [done|]. apply line_see; [done|]. intros s Hs. unfold mbind, M_bind, lift.
  destruct (OrderStore.FindByClOrdId_list _ os (rt_cl_ord_id_ (order_round_trip_ a)) Hwf) as (r & -> & Hr).
  destruct r as [i|]; [|exact Hs]. destruct Hr as (o & Hi & Hk). apply OrderStore.orders_None with (o := o) in Ho;
    [done|by eapply list_elem_of_lookup_2].
Qed.
Lemma line_with_stop {A} a n m id o i (f : M Order.t unit) (k : unit → M S A) e Q :
  in_slot a m id o i → f o = (Stop e, o) →
  triple (on_line a n) Q (λ s, ∃ st, on_line (set_store st a) n s) (on_store (OrderStore.with_order i f) ≫= k).
Proof.
  intros (os & Hwf & <- & Hi & <-) Hf [c b w ef] (Ha & Hrest). cbn [OkxWsClient.app OkxWsClient.client] in *.
  assert (order_store_ b = order_store_ a) as Hs by exact (f_equal order_store_ Ha).
  destruct (OrderStore.with_order_spec _ os Hwf i o f Hi) as (st & os' & Hw & _); [by rewrite Hf|].
  unfold on_store, on_app, zoom, mbind, M_bind. cbn [OkxWsClient.app]. rewrite Hs, Hw, Hf. cbn [fst].
  exists st. split; [|done]. cbn [OkxWsClient.app]. destruct a, b. unfold frame, set_stats, set_store in *. cbn in *. congruence.
Qed.
Lemma line_only a0 sent pending trip m last a n s :
  members a0 sent pending trip m last a → on_line a n s → only a0 sent s.
Proof. intros (Hr & _) [Hf _]. unfold only. rewrite <-Hr. exact (f_equal requests Hf). Qed.
Lemma order_response_gone a0 sent rq x id m last n v ord :
  gives ord v → m !! id = None →
  triple (stage a0 sent ∅ (MkRoundTrip rq x id) m last n) (λ _ _, False) (only a0 sent)
    (WsOrderRoundTrip.OnOrderResponse freq rest auth v).
Proof.
  intros (Hacc & Hord & Hgives) Hm. apply stage_elim. intros a Ha. pose proof Ha as (Hr & Hp & Htrip & Hst & Hid & Hun).
  unfold WsOrderRoundTrip.OnOrderResponse. rewrite Hacc. cbn [negb]. cbv zeta.
  destruct (data ← FindData v; json.FindString data kOrdId) as [w|]; [|done]. injection Hgives as Hw. rewrite Hw.
  eapply triple_bind; [eapply triple_weaken; [by apply (line_change a _ (λ a, set_round_trip (MkRoundTrip
    (order_request_ (order_round_trip_ a)) ord (rt_cl_ord_id_ (order_round_trip_ a))) a))|intros ? s Hs; exact Hs|done]|].
  intros []. set (a1 := set_round_trip _ a). apply line_connected. cbn [negb].
  eapply triple_weaken; [eapply (line_get_none _ _ _ _ (λ _ _, False)); [exact Hst|cbn; by rewrite Htrip]|done|].
  intros s Hs. by apply (line_only a0 sent ∅ (MkRoundTrip rq ord id) m last a1 n);
    [split; [exact Hr|]; split; [exact Hp|]; split; [cbn; by rewrite Htrip|]|].
Qed.
(** A request is rejected, and the order is not waiting for it. *)
Lemma rejected_fails a0 sent trip m last n o e :
  m !! rt_cl_ord_id_ trip = Some o → Order.OnRequestRejected o = (Stop e, o) →
  triple (stage a0 sent ∅ trip m last n) (λ _ _, False) (only a0 sent) WsOrderRoundTrip.request_rejected.
Proof.
  intros Hm Ho. apply stage_elim. intros a Ha. pose proof Ha as (Hr & Hp & Htrip & Hst & Hid & Hun).
  unfold WsOrderRoundTrip.request_rejected. eapply line_get_order; [exact Hst|by rewrite Htrip|]. intros i Hi.
  eapply triple_weaken; [eapply (line_with_stop _ _ _ _ _ _ _ _ _ (λ _ _, False)); [exact Hi|exact Ho]|done|].
  intros s (st & Hs & _). unfold only. rewrite <-Hr. exact (f_equal requests Hs).
Qed.
Lemma get_order_gone {A} a0 sent trip m last n a (k : nat → M S A) :
  members a0 sent ∅ trip m last a → m !! rt_cl_ord_id_ trip = None →
  triple (on_line a n) (λ _ _, False) (only a0 sent) (WsOrderRoundTrip.GetOrder ≫= k).
Proof.
  intros Ha Hm. pose proof Ha as (Hr & Hp & Htrip & Hst & Hid & Hun).
  eapply triple_weaken; [eapply (line_get_none _ _ _ _ (λ _ _, False)); [exact Hst|by rewrite Htrip]|done|].
  intros s. by apply line_only with ∅ trip m last.
Qed.
Lemma answer_gone a0 sent trip m last n h v :
  m !! rt_cl_ord_id_ trip = None → (h = AmendResponse ∨ h = CancelResponse ∧ IsRequestAccepted v = false) →
  triple (stage a0 sent ∅ trip m last n) (λ _ _, False) (only a0 sent) (WsOrderRoundTrip.run_handler freq rest auth h v).
Proof.
  intros Hm Hh. apply stage_elim. intros a Ha.
  assert (triple (on_line a n) (λ _ _, False) (only a0 sent) WsOrderRoundTrip.request_rejected) as Hrej
    by (by eapply get_order_gone).
  destruct Hh as [->|[-> Hv]]; cbn [WsOrderRoundTrip.run_handler];
    [unfold WsOrderRoundTrip.OnAmendResponse|unfold WsOrderRoundTrip.OnCancelResponse; by rewrite Hv].
  apply (triple_bind _ (λ _, on_line a n)).
  - destruct (IsRequestAccepted v); cbn [negb]; [by apply triple_ret|].
    eapply triple_weaken; [exact Hrej|by intros ? ? []|done].
  - intros []. apply line_connected. cbn [negb]. by eapply get_order_gone.
Qed.

(** *** Requests on an order *)
Definition requested (next pre : OrderState) (now : Z) (o : Order.t) : Order.t :=
  Order.Mk (Order.ord_id_ o) (Order.cl_ord_id_ o) (Order.inst_id_ o) (Order.side_ o) (Order.px_ o) (Order.sz_ o)
    (Order.acc_fill_sz_ o) (Order.avg_px_ o) next pre now.
(** The state under a pending amendment. *)
Definition resting (o : Order.t) : OrderState :=
  if decide (Order.state_ o = kPendingAmend) then Order.pre_pending_state_ o else Order.state_ o.
(** A rejected request has ended. *)
Definition restored (o : Order.t) : Order.t :=
  requested (Order.pre_pending_state_ o) (Order.pre_pending_state_ o) (Order.pending_since_ o) o.

Lemma amend_live now o :
  Order.live (Order.state_ o) → Order.OnAmendRequested now o = (Ok tt, requested kPendingAmend (Order.state_ o) now o).
Proof. destruct o as [? ? ? ? ? ? ? ? [] ? ?]; cbn; by intros [|[]]. Qed.
Lemma cancel_resting now o :
  Order.live (resting o) → Order.live (Order.state_ o) ∨ Order.state_ o = kPendingAmend →
  Order.OnCancelRequested now o = (Ok tt, requested kPendingCancel (resting o) now o).
Proof. destruct o as [? ? ? ? ? ? ? ? [] ? ?]; cbn; intros _ [[|[]]|]; done. Qed.
Lemma reject_restored o :
  Order.state_ o = kPendingCancel ∨ Order.state_ o = kPendingAmend → Order.OnRequestRejected o = (Ok tt, restored o).
Proof. destruct o as [? ? ? ? ? ? ? ? [] ? ?]; cbn; by intros []. Qed.
Lemma succeeds_elim {A} P (Q : A → S → Prop) m s :
  succeeds P Q m → P s → ∃ x s', m s = (Ok x, s') ∧ Q x s'.
Proof. intros Hm Hs. specialize (Hm s Hs). destruct (m s) as [[x|e] s']; [by exists x, s'|done]. Qed.

(** *** One answer after the other *)
Section one_answer.
Context (a0 : App) (rq : OrderRequest) (m : gmap (list Z) Order.t) (B : Z) (n : nat).
Context (HB : (2 ^ 61 ≤ B < 2 ^ 62)%Z).
Notation Dispatch := (WsResponseDemux.Dispatch (WsOrderRoundTrip.run_handler freq rest auth)).

Lemma order_answered sent x z1 o1 v1 ord s :
  let id := to_string z1 in
  (0 ≤ z1 < B)%Z → (Z.of_nat (amend_size rq) < 2 ^ 62)%Z → names id v1 → gives ord v1 →
  OrderStore.cl o1 = id → Order.live (Order.state_ o1) →
  stage a0 sent {[id := OrderResponse]} (MkRoundTrip rq x id) (<[id := o1]> m) z1 (amend_size rq + n) s →
  ∃ z2 now s', (z1 < z2 < B + 1)%Z ∧ Dispatch v1 s = (Ok true, s') ∧
    stage a0 (sent ++ [amend_text (to_string z2) (rq_inst_id_code rq) ord WsOrderRoundTrip.kSmokeTestAmendPx (rq_sz rq)])
      {[to_string z2 := AmendResponse]} (MkRoundTrip rq ord id)
      (<[id := requested kPendingAmend (Order.state_ o1) now o1]> m) z2 n s'.
Proof using Hfreq Hrand Hclock HB.
  intros id Hz Hsize Hv Hg Hcl Hlive Hs.
  eapply succeeds_elim in Hs; [|eapply dispatch_stage; [exact Hv|apply (order_response_stage a0 sent rq x id _ o1
    (λ now, requested kPendingAmend (Order.state_ o1) now o1) z1 B n v1 ord Hz HB Hsize Hg); [apply lookup_insert_eq|]]].
  - destruct Hs as (r & s' & Hd & -> & z2 & now & Hz2 & Hst). rewrite insert_insert_eq in Hst. by exists z2, now, s'.
  - intros now. split; [by apply amend_live|done].
Qed.
Lemma amend_answered sent ord z2 id o2 v2 s :
  (0 ≤ z2 < B)%Z → (Z.of_nat (cancel_size rq) < 2 ^ 62)%Z → length ord ≤ 64 → names (to_string z2) v2 →
  Order.live (resting o2) → (Order.live (Order.state_ o2) ∧ IsRequestAccepted v2 = true) ∨ Order.state_ o2 = kPendingAmend →
  stage a0 sent {[to_string z2 := AmendResponse]} (MkRoundTrip rq ord id) (<[id := o2]> m) z2 (cancel_size rq + n) s →
  ∃ z3 now s', (z2 < z3 < B + 1)%Z ∧ Dispatch v2 s = (Ok true, s') ∧
    stage a0 (sent ++ [cancel_text (to_string z3) (rq_inst_id_code rq) ord])
      {[to_string z3 := CancelResponse]} (MkRoundTrip rq ord id)
      (<[id := requested kPendingCancel (resting o2) now o2]> m) z3 n s'.
Proof using Hfreq Hrand Hclock HB.
  intros Hz Hsize Hord Hv Hrest Hlive Hs.
  eapply succeeds_elim in Hs; [|eapply dispatch_stage; [exact Hv|apply (amend_response_stage a0 sent rq ord id _ o2
    (if IsRequestAccepted v2 then o2 else restored o2) (λ now, requested kPendingCancel (resting o2) now o2)
    z2 B n v2 Hz HB Hsize Hord); [apply lookup_insert_eq| |]]].
  - destruct Hs as (r & s' & Hd & -> & z3 & now & Hz3 & Hst). rewrite insert_insert_eq in Hst. by exists z3, now, s'.
  - destruct (IsRequestAccepted v2); [done|]. destruct Hlive as [[_ ?]|Hlive]; [done|]. split; [|done].
    apply reject_restored. by right.
  - intros now. destruct (IsRequestAccepted v2).
    + split; [|done]. apply cancel_resting; [done|]. destruct Hlive as [[? _]|?]; [by left|by right].
    + destruct Hlive as [[_ ?]|Hlive]; [done|]. unfold resting in *. rewrite decide_True in Hrest |- * by done.
      split; [|done]. assert (resting (restored o2) = Order.pre_pending_state_ o2) as Hr.
      { unfold resting, restored. cbn. by case_decide. }
      rewrite (cancel_resting now (restored o2)); [by rewrite Hr|by rewrite Hr|by left].
Qed.
Lemma cancel_answered sent ord z3 id o3 v3 s :
  names (to_string z3) v3 → IsRequestAccepted v3 = true ∨ Order.state_ o3 = kPendingCancel →
  stage a0 sent {[to_string z3 := CancelResponse]} (MkRoundTrip rq ord id) (<[id := o3]> m) z3 n s →
  ∃ s', Dispatch v3 s = (Ok true, s') ∧
    stage a0 sent ∅ (MkRoundTrip rq ord id)
      (<[id := if IsRequestAccepted v3 then o3 else restored o3]> m) z3 n s'.
Proof.
  intros Hv Ho Hs.
  eapply succeeds_elim in Hs; [|eapply dispatch_stage; [exact Hv|apply (cancel_response_stage a0 sent rq ord id _ o3
    (if IsRequestAccepted v3 then o3 else restored o3)); [apply lookup_insert_eq|]]].
  - destruct Hs as (r & s' & Hd & -> & Hst). rewrite insert_insert_eq in Hst. by exists s'.
  - destruct (IsRequestAccepted v3); [done|]. destruct Ho as [|Ho]; [done|]. split; [|done].
    apply reject_restored. by left.
Qed.
(** What is thrown: the handler has no order to work on; a rejection comes for
    an order that does not wait for an answer.  *)
Lemma triple_stops {A} P E (c : M S A) s :
  triple P (λ _ _, False) E c → P s → ∃ e s', c s = (Stop e, s') ∧ E s'.
Proof. intros Hc Hs. specialize (Hc s Hs). destruct (c s) as [[x|e] s']; [done|by exists e, s']. Qed.
Lemma dispatch_stops sent trip z h m' last k v s :
  names (to_string z) v →
  triple (stage a0 sent ∅ trip m' last k) (λ _ _, False) (only a0 sent) (WsOrderRoundTrip.run_handler freq rest auth h v) →
  stage a0 sent {[to_string z := h]} trip m' last k s → ∃ e s', Dispatch v s = (Stop e, s') ∧ only a0 sent s'.
Proof.
  intros Hv Hh Hs. eapply triple_stops; [|exact Hs].
  eapply triple_weaken; [by apply (dispatch_stage _ _ _ _ _ _ _ _ _ (λ _, False))|by intros ? ? []|done].
Qed.
Lemma reject_live o : Order.live (Order.state_ o) → ∃ e, Order.OnRequestRejected o = (Stop e, o).
Proof. destruct o as [? ? ? ? ? ? ? ? [] ? ?]; cbn; intros [|[]]; try done; by eexists. Qed.
Lemma order_refused sent trip z v s :
  names (to_string z) v → IsRequestAccepted v = false →
  stage a0 sent {[to_string z := OrderResponse]} trip m z n s →
  ∃ s', Dispatch v s = (Ok true, s') ∧ stage a0 sent ∅ trip m z n s'.
Proof.
  intros Hv Hacc Hs.
  eapply succeeds_elim in Hs; [|eapply (dispatch_stage _ _ _ _ _ _ _ _ _ (stage a0 sent ∅ trip m z n) (λ _, False) Hv)].
  - destruct Hs as (r & s' & Hd & -> & Hst). by exists s'.
  - cbn [WsOrderRoundTrip.run_handler]. unfold WsOrderRoundTrip.OnOrderResponse. rewrite Hacc. by apply triple_ret.
Qed.
Lemma rejection_stops sent trip z h v o s :
  h ≠ OrderResponse → names (to_string z) v → IsRequestAccepted v = false →
  m !! rt_cl_ord_id_ trip = Some o → Order.live (Order.state_ o) →
  stage a0 sent {[to_string z := h]} trip m z n s → ∃ e s', Dispatch v s = (Stop e, s') ∧ only a0 sent s'.
Proof.
  intros Hh Hv Hacc Hm Ho. destruct (reject_live o Ho) as [e He]. apply dispatch_stops; [done|].
  destruct h; [done|..]; cbn [WsOrderRoundTrip.run_handler];
    [unfold WsOrderRoundTrip.OnAmendResponse|unfold WsOrderRoundTrip.OnCancelResponse]; rewrite Hacc; cbn [negb].
  - apply (triple_bind _ (λ _ _, False)); [|by intros ? ? []]. by eapply rejected_fails.
  - by eapply rejected_fails.
Qed.
End one_answer.

(** C15. The test order, on a connection that is up and has room for its three
    messages.  [Start] stores the order as [kPendingNew], sends the place
    request and awaits its response, and nothing else.  Before each response
    the exchange's own updates may have changed the order in the store.

    The place response: when it gives the exchange's id, and the order is in
    the store in a live state (waiting for its placement, resting or partially
    filled), the dispatch sends the amendment to price 101 under that id and
    the order becomes [kPendingAmend].  A refusal is only taken note of.

    The answer to the amendment: when it accepts, and the order is live or
    still [kPendingAmend] over a live state, or rejects, and the order is in
    the latter state, the cancellation is sent and the order becomes
    [kPendingCancel] over that live state.

    The answer to the cancellation: when it accepts, or rejects while the order
    is [kPendingCancel], nothing is awaited any more; a rejection takes the
    order back to the state under the cancellation.

    In between, an update can have taken the order out of the store (filled,
    cancelled) or out of its pending state (partially filled).  Then the
    handler throws and sends nothing: for an order that is gone, the handlers
    of an accepted placement, of either answer to the amendment and of a
    rejected cancellation; for an order that is live again, those of a
    rejected amendment and a rejected cancellation.

    Every request carries a new, greater id, every response is taken by the
    handler of its request, and other orders, the quoter, the limits and the
    kill switch are left alone. *)
Theorem test_order_completes a0 sent rq x y m last B n s :
  rq_ord_type rq = kLimit → (0 ≤ last < B)%Z → (2 ^ 61 ≤ B)%Z → (B + 2 < 2 ^ 62)%Z →
  (Z.of_nat (order_size rq + amend_size rq + cancel_size rq) < 2 ^ 62)%Z →
  (∀ z, (last < z)%Z → m !! to_string z = None) → base.size m < OrderStore.kCapacity →
  let Dispatch := WsResponseDemux.Dispatch (WsOrderRoundTrip.run_handler freq rest auth) in
  let code := rq_inst_id_code rq in
  let stops v sent s := ∃ e s', Dispatch v s = (Stop e, s') ∧ requests (OkxWsClient.app s') =
    requests a0 ++ (PrivateSend <$> sent) in
  stage a0 sent ∅ (MkRoundTrip rq x y) m last (order_size rq + (amend_size rq + (cancel_size rq + n))) s →
  ∃ z1 now1 s1,
    let id := to_string z1 in
    let sent1 := sent ++ [order_text id code (rq_side rq) (rq_px rq) (rq_sz rq)] in
    let stage1_of m := stage a0 sent1 {[id := OrderResponse]} (MkRoundTrip rq x id) m z1
      (amend_size rq + (cancel_size rq + n)) in
    let stage1 o := stage1_of (<[id := o]> m) in
    (last < z1)%Z ∧ WsOrderRoundTrip.Start freq rest auth s = (Ok tt, s1) ∧
    stage1 (Order.make now1 id (rq_inst_id rq) (rq_side rq) (rq_px rq) (rq_sz rq)) s1 ∧
    (∀ m' s1' v1, stage1_of m' s1' → names id v1 → IsRequestAccepted v1 = false →
      ∃ s2, Dispatch v1 s1' = (Ok true, s2) ∧
        stage a0 sent1 ∅ (MkRoundTrip rq x id) m' z1 (amend_size rq + (cancel_size rq + n)) s2) ∧
    (∀ s1' v1 ord, stage1_of m s1' → names id v1 → gives ord v1 → stops v1 sent1 s1') ∧
    ∀ o1 s1' v1 ord, stage1 o1 s1' → OrderStore.cl o1 = id → Order.live (Order.state_ o1) →
      names id v1 → gives ord v1 →
      ∃ z2 now2 s2,
        let sent2 := sent1 ++ [amend_text (to_string z2) code ord (str "101") (rq_sz rq)] in
        let stage2_of m := stage a0 sent2 {[to_string z2 := AmendResponse]} (MkRoundTrip rq ord id) m z2
          (cancel_size rq + n) in
        let stage2 o := stage2_of (<[id := o]> m) in
        (z1 < z2)%Z ∧ Dispatch v1 s1' = (Ok true, s2) ∧
        stage2 (requested kPendingAmend (Order.state_ o1) now2 o1) s2 ∧
        (∀ s2' v2, names (to_string z2) v2 →
          stage2_of m s2' ∨ (∃ o2, stage2 o2 s2' ∧ Order.live (Order.state_ o2) ∧ IsRequestAccepted v2 = false) →
          stops v2 sent2 s2') ∧
        ∀ o2 s2' v2, stage2 o2 s2' → names (to_string z2) v2 → Order.live (resting o2) →
          (Order.live (Order.state_ o2) ∧ IsRequestAccepted v2 = true) ∨ Order.state_ o2 = kPendingAmend →
          ∃ z3 now3 s3,
            let sent3 := sent2 ++ [cancel_text (to_string z3) code ord] in
            let stage3_of m := stage a0 sent3 {[to_string z3 := CancelResponse]} (MkRoundTrip rq ord id) m z3 n in
            let stage3 o := stage3_of (<[id := o]> m) in
            (z2 < z3)%Z ∧ Dispatch v2 s2' = (Ok true, s3) ∧
            stage3 (requested kPendingCancel (resting o2) now3 o2) s3 ∧
            (∀ s3' v3, names (to_string z3) v3 → IsRequestAccepted v3 = false →
              stage3_of m s3' ∨ (∃ o3, stage3 o3 s3' ∧ Order.live (Order.state_ o3)) → stops v3 sent3 s3') ∧
            ∀ o3 s3' v3, stage3 o3 s3' → names (to_string z3) v3 →
              IsRequestAccepted v3 = true ∨ Order.state_ o3 = kPendingCancel →
              ∃ s4, Dispatch v3 s3' = (Ok true, s4) ∧
                stage a0 sent3 ∅ (MkRoundTrip rq ord id)
                  (<[id := if IsRequestAccepted v3 then o3 else restored o3]> m) z3 n s4.
Proof using Hfreq Hrand Hclock.
  intros Ht Hlast HB1 HB2 Hsize Hfresh Hroom Dispatch code stops Hs.
  eapply succeeds_elim in Hs; [|apply (start_stage a0 sent rq x y m last B); [done|done|lia|lia|done|done]].
  destruct Hs as ([] & s1 & Hstart & z1 & now1 & Hz1 & Hs1). exists z1, now1, s1. cbv zeta.
  assert (m !! to_string z1 = None) as Hgone by (apply Hfresh; lia).
  split; [lia|]. split; [done|]. split; [done|]. split; [|split].
  { intros m' s2 v1 Hs Hv Hacc. by eapply order_refused. }
  { intros s1' v1 ord Hs Hv Hg. eapply (dispatch_stops _ _ _ _ OrderResponse); [exact Hv|by eapply order_response_gone|exact Hs]. }
  intros o1 s1' v1 ord Hs1' Hcl Hlive1 Hv1 Hg.
  eapply (order_answered a0 rq m (B + 1) (cancel_size rq + n)) in Hs1'
    as (z2 & now2 & s2 & Hz2 & Hd2 & Hs2); [|lia|lia|lia|exact Hv1|exact Hg|exact Hcl|exact Hlive1].
  exists z2, now2, s2. split; [lia|]. split; [done|]. split; [done|]. split.
  { intros t2 v2 Hv [Hs|(o & Hs & Ho & Hacc)].
    - eapply (dispatch_stops _ _ _ _ AmendResponse); [exact Hv| |exact Hs]; apply answer_gone; [exact Hgone|by left].
    - eapply rejection_stops; [|exact Hv|exact Hacc| |exact Ho|exact Hs]; [done|apply lookup_insert_eq]. }
  intros o2 s2' v2 Hs2' Hv2 Hrest Hlive2.
  eapply (amend_answered a0 rq m (B + 2) n) in Hs2'
    as (z3 & now3 & s3 & Hz3 & Hd3 & Hs3); [|lia|lia|lia|apply Hg|exact Hv2|exact Hrest|exact Hlive2].
  exists z3, now3, s3. split; [lia|]. split; [done|]. split; [done|]. split.
  { intros t3 v3 Hv Hacc [Hs|(o & Hs & Ho)].
    - eapply (dispatch_stops _ _ _ _ CancelResponse); [exact Hv| |exact Hs]; apply answer_gone; [exact Hgone|by right].
    - eapply rejection_stops; [|exact Hv|exact Hacc| |exact Ho|exact Hs]; [done|apply lookup_insert_eq]. }
  intros o3 s3' v3 Hs3' Hv3 Hlive3.
  by eapply cancel_answered; [| |exact Hs3'].
Qed.
End exact.

(** A round trip whose amendment is rejected. *)
Definition sample_start : OkxWsClient.St App unit :=
  OkxWsClient.MkSt QuoterSlots.sample_client (sample_app false Position.flat) tt [].
Definition sample_answer (id code : string) : string_view :=
  sv_of (qstr "{'id':'" ++ str id ++ qstr "','data':[{'ordId':'77','sCode':'" ++ str code ++ qstr "'}]}").
Notation sample_trip :=
  (@WsOrderRoundTrip.Start unit (sample_world 5000000000 []) 1000000000 sample_rest sample_auth) (only parsing).
Notation sample_dispatch := (WsResponseDemux.Dispatch
  (@WsOrderRoundTrip.run_handler unit (sample_world 5000000000 []) 1000000000 sample_rest sample_auth)) (only parsing).
Definition sample_ids (s : OkxWsClient.St App unit) : Z := last_id (OkxWsClient.app s).

Lemma stage_last a0 sent pending trip m last n (s : OkxWsClient.St App unit) :
  stage a0 sent pending trip m last n s → last = sample_ids s.
Proof. by intros (_ & _ & _ & _ & _ & <- & _). Qed.
Lemma sample_stage :
  stage (sample_app false Position.flat) [] ∅ (WsOrderRoundTrip.make sample_request) ∅ 0 1000 sample_start.
Proof.
  split; [split; [|split; [|split]]|split; [|split; [|split; [|split; [|split]]]]]; try reflexivity.
  - apply TickToTradeStats.stats_tallied_empty.
  - apply RingBuffer.ring_wf_empty, OkxWsClient.tx_capacity_pos.
  - apply OkxWsClient.tx_capacity_large.
  - exists []. split; [apply OrderStore.store_wf_empty|reflexivity].
  - repeat split.
Qed.

Lemma test_order_completes_witness :
  ∃ s1 s2 s3 s4, sample_trip sample_start = (Ok tt, s1) ∧
    sample_dispatch (sample_answer "5000" "0") s1 = (Ok true, s2) ∧
    sample_dispatch (sample_answer "5001" "51503") s2 = (Ok true, s3) ∧
    sample_dispatch (sample_answer "5002" "0") s3 = (Ok true, s4) ∧
    ws_demux_ (OkxWsClient.app s4) = ∅.
Proof.
  destruct (@test_order_completes unit (sample_world 5000000000 []) 1000000000 sample_rest sample_auth
    ltac:(reflexivity) ltac:(intros w; exists [7; 7; 7; 7]%Z; split; reflexivity) ltac:(intros w; vm_compute; reflexivity)
    (sample_app false Position.flat) [] sample_request [] [] ∅ 0 (2 ^ 61) (1000 - (order_size sample_request +
    (amend_size sample_request + cancel_size sample_request))) sample_start)
    as (z1 & now1 & s1 & _ & Hd1 & Hs1 & _ & _ & H1).
  - reflexivity.
  - lia.
  - lia.
  - lia.
  - vm_compute. reflexivity.
  - reflexivity.
  - apply Nat.ltb_lt. vm_compute. reflexivity.
  - exact sample_stage.
  - assert (sample_ids (sample_trip sample_start).2 = 5000%Z) as E1 by (vm_compute; reflexivity).
    assert (sample_ids (sample_dispatch (sample_answer "5000" "0") (sample_trip sample_start).2).2 = 5001%Z)
      as E2 by (vm_compute; reflexivity).
    assert (sample_ids (sample_dispatch (sample_answer "5001" "51503")
      (sample_dispatch (sample_answer "5000" "0") (sample_trip sample_start).2).2).2 = 5002%Z)
      as E3 by (vm_compute; reflexivity).
    rewrite Hd1 in E1, E2, E3. cbn [snd] in E1, E2, E3.
    pose proof (stage_last _ _ _ _ _ _ _ _ Hs1) as Hz1. rewrite E1 in Hz1. subst z1.
    destruct (H1 _ s1 (sample_answer "5000" "0") (str "77") Hs1) as (z2 & now2 & s2 & _ & Hd2 & Hs2 & _ & H2).
    + reflexivity.
    + left. reflexivity.
    + vm_compute. reflexivity.
    + split; [vm_compute; reflexivity|]. split; [apply Nat.leb_le; vm_compute; reflexivity|vm_compute; reflexivity].
    + rewrite Hd2 in E2, E3. cbn [snd] in E2, E3.
      pose proof (stage_last _ _ _ _ _ _ _ _ Hs2) as Hz2. rewrite E2 in Hz2. subst z2.
      destruct (H2 _ s2 (sample_answer "5001" "51503") Hs2) as (z3 & now3 & s3 & _ & Hd3 & Hs3 & _ & H3).
      * vm_compute. reflexivity.
      * left. reflexivity.
      * right. reflexivity.
      * rewrite Hd3 in E3. cbn [snd] in E3.
        pose proof (stage_last _ _ _ _ _ _ _ _ Hs3) as Hz3. rewrite E3 in Hz3. subst z3.
        destruct (H3 _ s3 (sample_answer "5002" "0") Hs3) as (s4 & Hd4 & _ & _ & Hp & _).
        { vm_compute. reflexivity. }
        { left. vm_compute. reflexivity. }
        exists s1, s2, s3, s4. split; [exact Hd1|]. split; [exact Hd2|]. split; [exact Hd3|]. split; [exact Hd4|exact Hp].
Defined.
