(* ===== verification/Startup.v ===== *)
(** * Start-up: config.hpp, okx/connectivity/instrument.*, okx/engine/bootstrap.*,
      main.cpp

    The configuration from the environment, the checks that are made over REST
    before trading starts (they place and cancel one order), and the main
    program, which runs the engine on what they return. *)

From S2P Require Import Prelude Float64 Json Rules Okx PriceText Perf OrderLifecycle OrderStore World Logger.
From S2P Require Import OrderEntry WsClient RateLimiter Risk Quoter RoundTrip Engine.

(** ** Configuration *)
Module Config.
Record t := Mk {
  api_key : list Z; api_secret : list Z; passphrase : list Z; market_data_mode : MarketDataMode }.

Definition kApiKeyEnvVar := str "OKX_API_KEY".
Definition kApiSecretEnvVar := str "OKX_API_SECRET".
Definition kPassphraseEnvVar := str "OKX_PASSPHRASE".
Definition kMarketDataModeEnvVar := str "OKX_MARKET_DATA_MODE".
Definition kJsonMode := str "json".
Definition kSbeMode := str "sbe".

(** [None]: the process exits with status 1. *)
Definition ParseMarketDataMode (value : list Z) : option MarketDataMode :=
  if decide (value = kJsonMode) then Some kJsonBook
  else if decide (value = kSbeMode) then Some kSbeBbo
  else None.

Definition ReadRequired (getenv : list Z → option (list Z)) (name : list Z) : option (list Z) :=
  value ← getenv name;
  if decide (value = []) then None else Some value.

Definition FromEnv (getenv : list Z → option (list Z)) : option t :=
  api_key ← ReadRequired getenv kApiKeyEnvVar;
  api_secret ← ReadRequired getenv kApiSecretEnvVar;
  passphrase ← ReadRequired getenv kPassphraseEnvVar;
  mode ← ReadRequired getenv kMarketDataModeEnvVar;
  market_data_mode ← ParseMarketDataMode mode;
  Some (Mk api_key api_secret passphrase market_data_mode).
End Config.

(** ** Instruments *)
Record InstrumentSpec := MkSpec {
  sp_inst_id : list Z; sp_tick_sz : list Z; sp_lot_sz : list Z; sp_min_sz : list Z }.

Definition instruments_path (inst_id : list Z) : list Z :=
  str "/api/v5/public/instruments?instType=SPOT&instId=" ++ inst_id.
Definition account_instruments_path (inst_id : list Z) : list Z :=
  str "/api/v5/account/instruments?instType=SPOT&instId=" ++ inst_id.

(** What is read from the two answers. *)
Definition parse_spec (inst_id : list Z) (response : HttpResponse) : result InstrumentSpec :=
  match FindData (sv_of (body response)) with
  | None => throw (runtime_error "Instrument not found: {}" [inst_id])
  | Some element =>
      match json.FindString element kTickSz, json.FindString element kLotSz,
            json.FindString element kMinSz with
      | Some tick_sz, Some lot_sz, Some min_sz =>
          Ok (MkSpec inst_id (sv_text tick_sz) (sv_text lot_sz) (sv_text min_sz))
      | _, _, _ => throw (runtime_error "Malformed instrument spec response for {}" [inst_id])
      end
  end.
Definition parse_code (inst_id : list Z) (response : HttpResponse) : result Z :=
  match FindData (sv_of (body response)) with
  | None => throw (runtime_error "Instrument not found: {}, response: {}" [inst_id; body response])
  | Some data =>
      match json.FindNumber data kInstIdCode with
      | None => throw (runtime_error "Malformed instIdCode response for {}" [inst_id])
      | Some inst_id_code => json.ParseLL inst_id_code
      end
  end.

(** [std::stoll] in base 10. *)
Definition stoll (text : list Z) : result Z :=
  let l := skip_space text in
  let '(neg, l) := match l with
    | c :: l' => if (c =? 45)%Z then (true, l') else if (c =? 43)%Z then (false, l') else (false, l)
    | [] => (false, [])
    end in
  match (span is_digit l).1 with
  | [] => throw (invalid_argument "stoll" [])
  | ds =>
      let v := if neg : bool then (- digits_val 10 ds)%Z else digits_val 10 ds in
      if ((- 2 ^ 63 <=? v) && (v <? 2 ^ 63))%Z then Ok v else throw (out_of_range "stoll" [])
  end.

Definition kSmokeTestPx := str "100".
Definition kSmokeTestSz := str "0.01".

Definition ExtractTimestampMs (public_time_body : list Z) : result Z :=
  match FindData (sv_of public_time_body) with
  | None => throw (runtime_error "Could not find data[0] in /public/time response" [])
  | Some data =>
      match json.FindString data kTs with
      | None => throw (runtime_error "Could not find ts field in /public/time response" [])
      | Some ts => stoll (sv_text ts)
      end
  end.

Record BootstrapResult := MkBootstrap {
  eth_spec : InstrumentSpec; eth_usdt_inst_id_code : Z; order_request : OrderRequest }.

(** The order that start-up places and cancels. *)
Definition smoke_test_request (inst_id_code : Z) : OrderRequest :=
  MkRequest kEthUsdt kBuy kLimit kSmokeTestPx kSmokeTestSz inst_id_code.

Definition kPublicTimePath := str "/api/v5/public/time".
Definition kBalancePath := str "/api/v5/account/balance".

Section bootstrap.
Context {W : Type} `{!World W} (rest_client : RestClient) (auth : OkxAuth).
Local Notation on_world := OrderEntry.on_world.

Definition FetchInstrumentSpec (inst_id : list Z) : M W InstrumentSpec :=
  response ← Get rest_client (instruments_path inst_id) [];
  lift (parse_spec inst_id response).

Definition FetchInstIdCode (inst_id : list Z) : M W Z :=
  let path := account_instruments_path inst_id in
  headers ← SignHeaders auth kGet path [];
  response ← Get rest_client path headers;
  lift (parse_code inst_id response).

(** The difference of the clocks is only logged; the subtraction is at the
    width of [long long]. *)
Definition ClockDrift (time_response : HttpResponse) : M W Z :=
  server_time_ms ← lift (ExtractTimestampMs (body time_response));
  now ← ask system_clock_now;
  let drift := (Z.quot now 1000000 - server_time_ms)%Z in
  if ((- 2 ^ 63 <=? drift) && (drift <? 2 ^ 63))%Z then mret drift else lift (Stop UB).

(** The state is that of the ids, [last_id] and the world. *)
Definition RunStartupChecks : M (Z * W) BootstrapResult :=
  time_response ← on_world (Get rest_client kPublicTimePath []);
  _ ← on_world (ClockDrift time_response);
  headers ← on_world (SignHeaders auth kGet kBalancePath []);
  _ ← on_world (Get rest_client kBalancePath headers);
  _ ← on_world (FetchInstrumentSpec kBtcUsdt);
  spec ← on_world (FetchInstrumentSpec kEthUsdt);
  code ← on_world (FetchInstIdCode kEthUsdt);
  let request := smoke_test_request code in
  place_result ← PlaceOrder rest_client auth request;
  _ ← (if or_accepted place_result
       then _ ← on_world (CancelOrder rest_client auth (rq_inst_id request) (or_ord_id place_result));
            mret tt
       else mret tt);
  mret (MkBootstrap spec code request).
End bootstrap.

(** ** The main program *)

(** [RestClient]'s constructor; [handle] says whether [curl_easy_init]
    succeeds. *)
Definition MakeRestClient (handle : bool) (base_url : list Z) : result RestClient :=
  if handle then Ok (MkRest base_url)
  else throw (runtime_error "Failed to initialize curl handle" []).

(** What has become of the process: it has ended with a status, it waits for
    the next event, or its behaviour is undefined. *)
Inductive process (S : Type) :=
  | Exited (status : Z)
  | Waiting (s : S)
  | Undefined.
Arguments Exited {S} status.
Arguments Waiting {S} s.
Arguments Undefined {S}.

Section main.
Context {W : Type} `{!World W} `{!ToChars} (freq : Z) (clock : list Z → Z).
Notation S := (OkxWsClient.St App W).

(** The handler of [std::exception] ends the process with status 1. *)
Definition catch_all {S' A} (r : result A) (k : A → process S') : process S' :=
  match r with
  | Ok a => k a
  | Stop (Exn _) => Exited 1
  | Stop _ => Undefined
  end.

(** The engine's state when [Run] starts. *)
Definition initial_state (auth : OkxAuth) (app : App) (w : W) : S :=
  OkxWsClient.MkSt (OkxWsClient.make kOkxWsHost kOkxWsPort kPrivateWsPath (Some auth) kJson) app w [].

Definition main (getenv : list Z → option (list Z)) (handle : bool) (w : W)
    (es : list Engine.event) : process S :=
  match Config.FromEnv getenv with
  | None => Exited 1
  | Some config =>
      catch_all (MakeRestClient handle kOkxRestBaseUrl) (λ rest_client,
      let auth := MkAuth (Config.api_key config) (Config.api_secret config)
                    (Config.passphrase config) in
      let '(bootstrap, (last, w)) := RunStartupChecks rest_client auth (0%Z, w) in
      catch_all bootstrap (λ bootstrap,
      catch_all (Engine.make (Config.market_data_mode config) (eth_usdt_inst_id_code bootstrap)
        (sp_tick_sz (eth_spec bootstrap)) (order_request bootstrap) TickToTradeStats.empty last)
        (λ app,
      let '(r, s) := Engine.run freq rest_client auth clock es (initial_state auth app w) in
      catch_all r (λ _, if Engine.stopped (OkxWsClient.app s) then Exited 0 else Waiting s))))
  end.
End main.

(** ** The requests of start-up *)

Section startup.
Context {W : Type} (wo : World W) (rest : RestClient) (auth : OkxAuth).
#[local] Existing Instance recording.
Notation world_log := (snd : W * list CurlOptions → list CurlOptions).
Notation id_log := (λ st : Z * (W * list CurlOptions), st.2.2).

(** A request that anyone may make, and one with a signature. *)
Definition public_get (path : list Z) (o : CurlOptions) : Prop :=
  curl_url o = base_url_ rest ++ path ∧ curl_post o = None ∧ curl_headers o = [].
Definition signed (path : list Z) (post : option (list Z) → Prop) (o : CurlOptions) : Prop :=
  verifies rest auth o ∧ curl_url o = base_url_ rest ++ path ∧ post (curl_post o).

(** What the answer to the placement says. *)
Definition place_result (answer : CurlOutcome) : option OrderResult :=
  match answer with
  | CurlFailed _ => None
  | CurlOk chunks status => Some (ParseOrderResult (MkResponse (wrapS 32 status) (concat chunks)))
  end.
(** The cancellation that it calls for. *)
Definition cancellation (place : option OrderResult) : list (CurlOptions → Prop) :=
  match place with
  | Some r => if or_accepted r
              then [signed kCancelOrderPath (λ b, b = Some (cancel_body kEthUsdt (or_ord_id r)))]
              else []
  | None => []
  end.
Definition startup_plan (place : option OrderResult) : list (CurlOptions → Prop) :=
  [public_get kPublicTimePath;
   signed kBalancePath (λ b, b = None);
   public_get (instruments_path kBtcUsdt);
   public_get (instruments_path kEthUsdt);
   signed (account_instruments_path kEthUsdt) (λ b, b = None);
   signed kOrderPath (λ b, ∃ id code, b = Some (order_body (smoke_test_request code) id))]
  ++ cancellation place.

Lemma makes_on_world {A} ps (Q : A → Prop) (m : M (W * list CurlOptions) A) :
  makes world_log ps Q m → makes id_log ps Q (OrderEntry.on_world m).
Proof.
  intros Hm [last w]. specialize (Hm w). unfold OrderEntry.on_world, zoom. cbn [fst snd].
  by destruct (m w) as [r w'].
Qed.
Lemma makes_get path : makes world_log [public_get path] (λ _, True) (Get rest path []).
Proof.
  intros [w log]. unfold Get, Perform, ask, mbind, M_bind. cbn [curl_easy_perform recording fst snd].
  destruct (curl_easy_perform _ w) as [outcome w']. destruct outcome.
  all: eexists [_]; split; [reflexivity|]; split; [|done || exact I].
  all: constructor; [|constructor]; by split.
Qed.
Lemma makes_spec inst_id :
  makes world_log [public_get (instruments_path inst_id)] (λ _, True) (FetchInstrumentSpec rest inst_id).
Proof. apply makes_bind_none; [apply makes_get|]. intros r. apply makes_lift. Qed.
(** [made] for the shapes of the calls. *)
Lemma makes_made {A} path post (m : M (W * list CurlOptions) A) :
  (∀ w log r w' log', m (w, log) = (r, (w', log')) →
     ∃ new, log' = log ++ new ∧ made rest auth path post (∃ a, r = Ok a) new) →
  makes world_log [signed path (λ b, b = post)] (λ _, True) m.
Proof.
  intros Hm [w log]. destruct (m (w, log)) as [r [w' log']] eqn:E.
  destruct (Hm _ _ _ _ _ E) as (new & Hl & H1 & H2 & H3). exists new. split; [done|]. split.
  - destruct new as [|o [|]]; simpl in H1; [constructor| |lia]. constructor; [|constructor].
    by apply Forall_inv in H2.
  - destruct r; [|done]. split; [|done]. apply H3. by eexists.
Qed.
Lemma makes_signed_get path :
  makes world_log [signed path (λ b, b = None)] (λ _, True)
    (headers ← SignHeaders auth kGet path []; Get rest path headers).
Proof.
  apply makes_made. intros w log r w' log' H.
  exact (signed_perform rest auth kGet path None w log r w' log' eq_refl H).
Qed.
Lemma makes_code inst_id :
  makes world_log [signed (account_instruments_path inst_id) (λ b, b = None)] (λ _, True)
    (FetchInstIdCode rest auth inst_id).
Proof.
  eapply makes_eq; [intros s; apply bind_assoc|].
  apply makes_bind_none; [apply makes_signed_get|]. intros r. apply makes_lift.
Qed.
Lemma makes_cancel inst_id ord_id :
  makes world_log [signed kCancelOrderPath (λ b, b = Some (cancel_body inst_id ord_id))] (λ _, True)
    (CancelOrder rest auth inst_id ord_id).
Proof.
  apply makes_made. intros w log r w' log' H.
  exact (signed_call rest auth kPost kCancelOrderPath (Some (cancel_body inst_id ord_id))
    ParseOrderResult w log r w' log' eq_refl H).
Qed.
Lemma makes_place code :
  makes id_log [signed kOrderPath (λ b, ∃ id code, b = Some (order_body (smoke_test_request code) id))]
    (λ _, True) (PlaceOrder rest auth (smoke_test_request code)).
Proof.
  intros [last [w log]].
  destruct (PlaceOrder rest auth _ (last, (w, log))) as [r [last' [w' log']]] eqn:E.
  destruct (PlaceOrder_made _ _ _ _ _ _ _ _ _ _ _ E) as (id & new & Hl & H1 & H2 & H3).
  exists new. split; [done|]. split.
  - destruct new as [|o [|]]; simpl in H1; [constructor| |lia]. constructor; [|constructor].
    apply Forall_inv in H2 as (? & ? & ?). split; [done|]. split; [done|]. by exists id, code.
  - destruct r; [|done]. split; [|done]. apply H3. by eexists.
Qed.

Lemma makes_sign_get path {B} ps (Q : B → Prop) k :
  (∀ r, makes id_log ps Q (k r)) →
  makes id_log (signed path (λ b, b = None) :: ps) Q
    (headers ← OrderEntry.on_world (SignHeaders auth kGet path []);
     response ← OrderEntry.on_world (Get rest path headers); k response).
Proof.
  intros Hk. eapply makes_eq.
  2:{ eapply (makes_bind _ [_] ps); [apply makes_on_world, (makes_signed_get path)|].
      intros r _. apply Hk. }
  intros [last w]. unfold OrderEntry.on_world, zoom, mbind, M_bind. cbn [fst snd].
  by destruct (SignHeaders _ _ _ _ w) as [[|] w1].
Qed.

(** The exchange's answers to the requests for these paths, and the first
    entry of the data in such an answer. *)
Definition asked_paths : list (list Z) :=
  [instruments_path kEthUsdt; account_instruments_path kEthUsdt; kOrderPath].
Definition gives_answers (answer : list Z → CurlOutcome) : Prop :=
  ∀ path o w, path ∈ asked_paths → curl_url o = base_url_ rest ++ path → (curl_easy_perform o w).1 = answer path.
Definition answered (answer : CurlOutcome) (data : string_view) : Prop :=
  ∃ chunks status, answer = CurlOk chunks status ∧ FindData (sv_of (concat chunks)) = Some data.
(** What the answers say of the instrument. *)
Definition spec_given (answer : CurlOutcome) (spec : InstrumentSpec) : Prop :=
  ∃ data tick lot min, answered answer data ∧ json.FindString data (str "tickSz") = Some tick ∧
    json.FindString data (str "lotSz") = Some lot ∧ json.FindString data (str "minSz") = Some min ∧
    spec = MkSpec (str "ETH-USDT") (sv_text tick) (sv_text lot) (sv_text min).
Definition code_given (answer : CurlOutcome) (code : Z) : Prop :=
  ∃ data number, answered answer data ∧ json.FindNumber data (str "instIdCode") = Some number ∧
    json.ParseLL number = Ok code.

Lemma received_body chunks : foldl (flip WriteCallback) [] chunks = concat chunks.
Proof.
  symmetry. rewrite <-(app_nil_l (concat chunks)). generalize (@nil Z).
  induction chunks as [|c chunks IH]; intros l; [by rewrite app_nil_r|]. cbn [concat foldl].
  unfold flip at 2, WriteCallback. by rewrite <-IH, app_assoc.
Qed.
Lemma get_answer answer path headers (st : W * list CurlOptions) resp :
  gives_answers answer → path ∈ asked_paths → (Get rest path headers st).1 = Ok resp →
  ∃ chunks status, answer path = CurlOk chunks status ∧ body resp = concat chunks.
Proof.
  intros Hans Hpath. destruct st as [w log]. unfold Get, Perform, ask, mbind, M_bind.
  cbn [curl_easy_perform recording fst snd].
  match goal with |- context [curl_easy_perform ?o w] => specialize (Hans path o w Hpath eq_refl) end.
  destruct (curl_easy_perform _ w) as [outcome w2]. simpl in Hans. subst outcome.
  destruct (answer path) as [e|chunks status]; [done|]. unfold mret, M_ret. cbn [fst].
  intros [= <-]. exists chunks, status. split; [done|]. apply received_body.
Qed.
Lemma spec_answer answer (st : W * list CurlOptions) spec :
  gives_answers answer → (FetchInstrumentSpec rest kEthUsdt st).1 = Ok spec →
  spec_given (answer (instruments_path kEthUsdt)) spec.
Proof.
  intros Hans. unfold FetchInstrumentSpec, mbind, M_bind.
  destruct (Get rest _ _ st) as [[resp|x] st1] eqn:E; [|done].
  destruct (get_answer answer (instruments_path kEthUsdt) [] st resp Hans) as (chunks & status & Ha & Hb);
    [by left|by rewrite E|].
  unfold lift, parse_spec. cbn [fst]. rewrite Hb. destruct (FindData _) as [data|] eqn:Ed; [|done].
  destruct (json.FindString data kTickSz) as [tick|] eqn:Et; [|done].
  destruct (json.FindString data kLotSz) as [lot|] eqn:El; [|done].
  destruct (json.FindString data kMinSz) as [mi|] eqn:Em; [|done]. intros [= <-].
  exists data, tick, lot, mi. split; [by exists chunks, status|]. done.
Qed.
Lemma code_answer answer (st : W * list CurlOptions) code :
  gives_answers answer → (FetchInstIdCode rest auth kEthUsdt st).1 = Ok code →
  code_given (answer (account_instruments_path kEthUsdt)) code.
Proof.
  intros Hans. unfold FetchInstIdCode, mbind, M_bind. cbv zeta.
  destruct (SignHeaders _ _ _ _ st) as [[hs|x] st0]; [|done].
  destruct (Get rest _ _ st0) as [[resp|x] st1] eqn:E; [|done].
  destruct (get_answer answer (account_instruments_path kEthUsdt) hs st0 resp Hans) as (chunks & status & Ha & Hb);
    [by right; left|by rewrite E|].
  unfold lift, parse_code. cbn [fst]. rewrite Hb. destruct (FindData _) as [data|] eqn:Ed; [|done].
  destruct (json.FindNumber data kInstIdCode) as [number|] eqn:En; [|done]. intros Hc.
  exists data, number. split; [by exists chunks, status|]. done.
Qed.

(** The result of the placement is what the exchange answers. *)
Lemma place_answer answer request (st : Z * (W * list CurlOptions)) a :
  gives_answers answer →
  (PlaceOrder rest auth request st).1 = Ok a → place_result (answer kOrderPath) = Some a.
Proof.
  intros Hans. unfold PlaceOrder. case_decide; [done|].
  unfold mbind at 1, M_bind at 1.
  destruct (GenerateId st) as [[id|x] st1]; [|done]. destruct st1 as [last [w log]].
  cbv zeta. rewrite on_world_seq. unfold mbind, M_bind.
  destruct (SignHeaders _ _ _ _ (w, log)) as [[hs|x] [w1 log1]]; [|done].
  unfold Post, Perform, ask, mbind, M_bind. cbn [curl_easy_perform recording fst snd].
  match goal with |- context [curl_easy_perform ?o w1] =>
    specialize (Hans kOrderPath o w1 ltac:(by right; right; left) eq_refl) end.
  destruct (curl_easy_perform _ w1) as [outcome w2]. simpl in Hans. subst outcome.
  destruct (answer kOrderPath) as [e|chunks status]; [done|]. unfold mret, M_ret. cbn [fst place_result].
  intros [= <-]. by rewrite received_body.
Qed.

(** What start-up returns, by the exchange's answers. *)
Definition started (answer : list Z → CurlOutcome) (b : BootstrapResult) : Prop :=
  spec_given (answer (instruments_path kEthUsdt)) (eth_spec b) ∧
  code_given (answer (account_instruments_path kEthUsdt)) (eth_usdt_inst_id_code b) ∧
  order_request b = MkRequest (str "ETH-USDT") (str "buy") (str "limit") (str "100") (str "0.01")
    (eth_usdt_inst_id_code b).
Lemma RunStartupChecks_makes answer :
  gives_answers answer →
  makes id_log (startup_plan (place_result (answer kOrderPath))) (started answer) (RunStartupChecks rest auth).
Proof.
  intros Hans. unfold RunStartupChecks, startup_plan.
  apply (makes_bind _ [_] (_ :: _) (λ _, True)); [apply makes_on_world, makes_get|]. intros time _.
  apply makes_none_bind.
  { apply makes_on_world, makes_none; [|done]. intros [w log]. unfold ClockDrift, mbind, M_bind, lift.
    destruct (ExtractTimestampMs _); [|done]. unfold ask. cbn [system_clock_now recording].
    unfold on_fst. cbn [fst snd]. destruct (system_clock_now w). by destruct (_ && _). }
  intros _. apply makes_sign_get. intros _.
  apply (makes_bind _ [_] (_ :: _) (λ _, True)); [apply makes_on_world, makes_spec|]. intros _ _.
  apply (makes_bind _ [_] (_ :: _) (spec_given (answer (instruments_path kEthUsdt)))).
  { apply makes_on_world. eapply makes_post; [apply makes_spec|]. intros s a. by apply spec_answer. }
  intros spec Hspec.
  apply (makes_bind _ [_] (_ :: _) (code_given (answer (account_instruments_path kEthUsdt)))).
  { apply makes_on_world. eapply makes_post; [apply makes_code|]. intros s a. by apply code_answer. }
  intros code Hcode. cbv zeta. apply (makes_bind _ [_] _ (λ a, place_result (answer kOrderPath) = Some a)).
  { eapply makes_post; [apply makes_place|]. intros s a. by apply place_answer. }
  intros a ->. cbn [cancellation]. apply (makes_bind_none _ _ _ (if or_accepted a then _ else _)).
  - destruct (or_accepted a); [|by apply makes_ret].
    apply makes_bind_none; [apply makes_on_world, makes_cancel|]. intros _. by apply makes_ret.
  - intros _. by apply makes_ret.
Qed.
End startup.

(** ** Properties *)

(** C25. Start-up makes exactly these REST requests, in this order: the server
    time, the balance (signed), the two public instrument specifications, the
    account's view of the instrument (signed), one order of fixed size and
    price (signed) and, if and only if the exchange accepts that order, its
    cancellation (signed, for the id the exchange gave it).  If anything fails
    on the way, the requests made are the first ones of this list.  The result
    carries the tick, lot and minimal size of ETH-USDT and the instrument code
    that stand in the exchange's answers, and the request that was tried, with
    that code. *)
Theorem startup_requests {W} (wo : World W) (rest : RestClient) (auth : OkxAuth) answer last (w : W) log :
  gives_answers wo rest answer →
  let _ := recording wo in
  let plan := startup_plan wo rest auth (place_result (answer kOrderPath)) in
  let '(r, (_, (_, log'))) := RunStartupChecks rest auth (last, (w, log)) in
  ∃ new, log' = log ++ new ∧ Forall2 (λ p o, p o) (take (length new) plan) new ∧
    match r with
    | Ok b => length new = length plan ∧ started answer b
    | Stop _ => True
    end.
Proof.
  intros Hans wr plan.
  pose proof (RunStartupChecks_makes wo rest auth answer Hans (last, (w, log))) as H.
  by destruct (RunStartupChecks rest auth (last, (w, log))) as [r [last' [w' log']]].
Qed.

Definition sample_answer : list Z :=
  qstr "{'code':'0','data':[{'ts':'5000','tickSz':'0.01','lotSz':'0.1','minSz':'1'," ++
  qstr "'instIdCode':7,'sCode':'0','ordId':'55'}]}".
Lemma startup_requests_witness :
  ∃ log last new,
    @RunStartupChecks _ (recording (sample_world 5000000000 sample_answer)) (MkRest kOkxRestBaseUrl)
      (MkAuth [1%Z] [2%Z] [3%Z]) (0%Z, (tt, [])) =
      (Ok (MkBootstrap (MkSpec kEthUsdt (str "0.01") (str "0.1") (str "1")) 7 (smoke_test_request 7)),
       (last, (tt, log))) ∧ log = [] ++ new ∧ length new = 7.
Proof.
  pose proof (@startup_requests unit (sample_world 5000000000 sample_answer) (MkRest kOkxRestBaseUrl)
    (MkAuth [1%Z] [2%Z] [3%Z]) (λ _, CurlOk [sample_answer] 200) 0%Z tt [] (λ path o w _ _, eq_refl)) as H.
  cbv zeta in H.
  match type of H with
  | match ?m with _ => _ end => let v := eval vm_compute in m in change m with v in H
  end.
  destruct H as (new & Hlog & _ & Hn & _). eexists _, _, new.
  split; [vm_compute; reflexivity|]. split; [exact Hlog|]. rewrite Hn. vm_compute. reflexivity.
Defined.
